(* ===== verification/_CoqProject ===== *)
-Q . S2P
Prelude.v
GoFloat.v
GoString.v
GoSort.v
GoContext.v
GoEnv.v
GoTLS.v
GoNet.v
Ingestion.v
GoRedis.v
Kafka.v
KafkaConfig.v
KafkaInv.v
Window.v
WindowInv.v
WindowSpec.v
WindowReference.v
WindowAmounts.v
Materialize.v
Sinks.v
Exposition.v
StreamProcessor.v
StreamConfigTheorems.v
WindowTheorems.v
FeatureStore.v
FloatTextModel.v
SinkTheorems.v
FeatureStoreTheorems.v
KafkaTheorems.v
StreamProcessorTheorems.v
Scheduler.v
SchedulerInv.v
SchedulerOutcomes.v
SchedulerTimer.v
SchedulerMetrics.v
SchedulerValues.v
SchedulerTheorems.v
Worker.v
Pool.v
PoolTheorems.v
WorkerGrpc.v
WorkerGrpcTheorems.v
Gateway.v
GatewayTheorems.v
GatewayMain.v
WorkerMain.v
WorkerMainTheorems.v
Computes.v
ServingTheorems.v
ServingTypes.v
ServingNaN.v
LoadTester.v
LoadRun.v
LoadArtifacts.v
LoadTesterTheorems.v
LoadRunTheorems.v

