(* ===== verification/Prelude.v ===== *)
(** * Distributed fraud detection: a verification of its Go services

    The Go part of the repository scores financial transactions for fraud.  A
    stream processor reads events from Kafka, keeps a sliding window per entity
    and writes the window's features to Redis.  A gateway takes scoring
    requests over HTTP, reads the features of the entity from Redis, batches
    requests with a deadline-aware scheduler and sends each batch to one of
    several workers over gRPC.  A load tester drives the gateway with a seeded
    open-loop schedule.  This library translates these programs into Rocq
    functions and transition systems and proves what makes them correct.

    ** Parts, files and sources (under src/)

    The language and its packages.  [Prelude]: error values, results, 64-bit
    integers, tactics.  [GoFloat]: float64 as [SpecFloat] at binary64.
    [GoString]: bytes, UTF-8, strings, strconv.  [GoSort]: sort.  [GoContext]:
    deadlines and cancellation.  [GoEnv]: the environment, numbers and
    durations.  [GoTLS], [GoRedis]: what is configured of crypto/tls and
    go-redis.  [GoNet]: net.SplitHostPort, http servers, the readiness probe.
    [FloatTextModel]: a concrete float text format that satisfies the laws
    assumed of strconv.

    The stream processor.  [Ingestion] (stream_processor/ingestion/ingestion.go,
    events and the in-memory consumer), [Kafka] (the consumer: fetch, process,
    dead letter, commit, backoff), [KafkaConfig] (NewKafka, dialer, TLS, SCRAM),
    [Window] (stream_processor/aggregations/window.go: a record with the fields
    of the struct and one definition per method), [Materialize]
    (materialize.go: validation and both sinks), [StreamProcessor]
    (stream_processor/cmd/stream-processor/main.go: event handler, readiness,
    metrics, start-up, final select).  A mutex-protected method is one state
    transformer.

    The serving plane.  [FeatureStore] (serving_plane/feature_store/store.go),
    [Scheduler] (serving_plane/scheduler/scheduler.go: a labelled transition
    system whose state holds the shared data and the position of the runner
    and of every caller of Submit), [Worker] and [Pool]
    (serving_plane/worker/worker.go), [WorkerGrpc] (serving_plane/worker/grpc.go),
    [Gateway] (serving_plane/gateway/gateway.go), [GatewayMain]
    (serving_plane/cmd/gateway/main.go), [WorkerMain]
    (serving_plane/cmd/worker/main.go), [Exposition] (the text of the three
    /metrics handlers).

    The load tester (load_tester/main.go).  [LoadTester]: configuration,
    entities, payloads, the arrival schedule with the PCG generator; [LoadRun]:
    Run as a transition system of producer, workers, closer and collector, in
    which a panic of a worker ends the program;
    [LoadArtifacts]: the report, the files and main.

    ** Interfaces

    [Materializer] (a feature sink, implemented by both sinks) and its law
    [SinkLaws] in [Sinks] (a write reported as failed may still take effect; the
    in-memory sink discharges it outright, the Redis sink from [RedisSet], what
    the server documents of SET), [Store] and its
    law [SoundStore] (implemented by Memory, Redis, Fallback and the gateway's
    configured store), [Inference] and its law [Computes] (implemented by the
    scorer, the measured engine, a client across the RPC hop, the pool and the
    gateway's engine), [Relays] (what a gRPC transport may do), [FloatText] with
    [FloatTextLaws], [Histogram], [Env], [TLSFiles], [Scram].  Clients are proved
    against the class; implementations discharge it.

    ** What the theorems show

    - Aggregation ([WindowInv], [WindowSpec], [WindowReference],
      [WindowAmounts], [WindowTheorems], [SinkTheorems]): the incremental window of an entity is the
      recomputation from the history of accepted events; the redundant state
      agrees in every reachable state and within its limits; applying an event
      again changes nothing; a failed update changes nothing; watermarks and
      offsets do not move backward; eviction does not depend on map order; the
      sink reads as the window, or as a failed write that took effect; the
      features are the count, the rounded sum and the maximum of the live
      events, never NaN, and the overflow guard of the loop can be passed by a
      sum that overflows.
    - Delivery ([KafkaInv], [KafkaTheorems], [StreamProcessorTheorems]): every
      sequence of calls of the consumer is a run of a per-record protocol that
      commits only settled records; poison records halt it; under the halt
      policy no committed record is lost by the composition of consumer,
      handler, window and sink: the window is at any point what a reference
      aggregator makes of the records handled so far, and every committed
      record is one of them; the backoff has a closed form.
    - Features ([FeatureStoreTheorems]): the vector written by the stream
      processor is the vector read by the gateway; a Redis call that fails
      before the caller's deadline is replaced by the local store's vector, one
      that fails later is not.
    - Scheduling ([SchedulerInv], [SchedulerOutcomes], [SchedulerTimer],
      [SchedulerMetrics], [SchedulerValues], [SchedulerTheorems]): for
      every interleaving, callers get the result of their own item or an error
      with its cause, items are dispatched at most once and never after their
      caller was told that they expired, the runner never blocks on a reply,
      Close drains and no admitted caller is told that the scheduler is closed,
      bounds hold, all counters are exact, and a lone item with the guard time
      or less left is never dispatched.
    - Inference ([PoolTheorems], [WorkerGrpcTheorems], [Computes]): failover
      shares the deadline, open circuits are respected, the RPC hop is
      transparent and authenticated.
    - Gateway ([GatewayTheorems], [ServingNaN]): it fails closed, answers every
      failure with a decision to deny, counts exactly, and can answer nothing
      when the in-process scorer yields NaN.
    - Composition ([ServingTheorems], [ServingTypes], [WorkerMainTheorems],
      [StreamConfigTheorems]): from the environments of the commands to the
      answers: scores are those of the scorer for the caller's own request,
      requests are well typed from the store to the RPC, nothing runs in
      plaintext outside development mode, and a scrape reads back exact counters.
    - Load tester ([LoadTesterTheorems], [LoadRunTheorems]): the entity selector
      is an exact weighted round-robin, transaction ids are unique, the entity
      list round-trips, a run accounts for every planned request, and it
      terminates, with a panic only when the weights overflow.

    ** Numbers, time and fuel

    A float64 is IEEE 754 binary64 without fused operations.  uint64 counters
    wrap at 2^64 ([wrap64]), the sums of the load tester at the width of an int
    ([wrap_int64]); lengths and counts that the configured limits bound are
    integers without wrap-around.  Instants and durations are numbers of
    nanoseconds, instants counted from the zero Time; additions of a duration
    to an instant do not overflow in the model.

    Loops over slices are structural.  time.ParseDuration has the length of its
    input as fuel, which [parse_elements_fuel] proves sufficient because every
    element consumes input; hexadecimal printing has sixteen digits, enough for
    64 bits.  The infinite loop of the Kafka consumer takes the number of turns
    as an argument and its theorems hold for every number of turns; the
    in-memory consumer is proved to return within the length of its queue (unless
    an amount is NaN, when the code itself loops).  The
    scheduler and the load run are transition systems: their termination
    theorems bound the number of steps of every execution.

    ** Not modelled

    Generated protobuf code (serving_plane/worker/proto; its messages are the
    records of [WorkerGrpc]), logging, signal delivery, sockets, the routing of
    http.ServeMux, and the libraries kafka-go, go-redis, grpc-go, hdrhistogram
    and encoding/json beyond what their callers rely on: their calls are
    arguments of the definitions.  Concurrent calls of one Pool are modelled one
    at a time.  The I/O of go-redis is not assumed to respect the deadline of
    its context, which needs an option the code does not set.  math.Exp and
    math.Log are arguments.  The Python, C++, CUDA and
    Rust parts of the repository are not part of this library. *)

From Stdlib Require Import ZArith Lia.
From stdpp Require Import prelude gmap strings list sorting.

#[local] Open Scope Z_scope.

(** ** Errors *)

(** A Go [error] value.  Package-level error variables ([errors.New] bound to
    a [var]) are compared by identity and become [Sentinel]; an anonymous
    [errors.New] or [fmt.Errorf] without [%w] becomes [Fresh], and
    [fmt.Errorf] with [%w] becomes [Wrap]; [Joined] is [errors.Join] of two
    errors. *)
Inductive error : Type :=
| Sentinel (name : string)
| Fresh (msg : string)
| Wrap (msg : string) (inner : error)
| PoisonError (partition offset : Z) (inner : error)
| Joined (first second : error)
| Status (code : Z) (msg : string).

#[global] Instance error_eq_dec : EqDecision error.
Proof. solve_decision. Defined.

(** [context.Canceled] and [context.DeadlineExceeded]. *)
Definition Canceled : error := Sentinel "context.Canceled".
Definition DeadlineExceeded : error := Sentinel "context.DeadlineExceeded".

(** [errors.Is(err, target)] for a sentinel target: walk the [Unwrap] chain. *)
Fixpoint errors_Is (err target : error) : bool :=
  bool_decide (err = target) ||
  match err with
  | Wrap _ inner => errors_Is inner target
  | PoisonError _ _ inner => errors_Is inner target
  | Joined a b => errors_Is a target || errors_Is b target
  | _ => false
  end.

(** ** Results of fallible functions: the pair [(T, error)] of Go, with the
    convention that a non-nil error makes the value meaningless. *)
Inductive result (A : Type) : Type :=
| Ok (a : A)
| Err (e : error).
Arguments Ok {A} _.
Arguments Err {A} _.

Declare Scope go_scope.
Delimit Scope go_scope with go.

Definition rbind {A B} (c : result A) (k : A → result B) : result B :=
  match c with Ok a => k a | Err e => Err e end.

Notation "'let!' x ':=' c 'in' k" := (rbind c (fun x => k))
  (at level 10, x name, c at level 200, k at level 200) : go_scope.
Notation "'guard!' b 'else' e 'in' k" := (if b then k else Err e)
  (at level 10, b at level 200, e at level 200, k at level 200) : go_scope.

Definition is_ok {A} (r : result A) : bool :=
  match r with Ok _ => true | Err _ => false end.

(** ** 64-bit integers: counters and [int] *)

Definition wrap64 (n : Z) : Z := n mod 2 ^ 64.

(** A 64-bit [int]. *)
Definition wrap_int64 (n : Z) : Z := (n + 2 ^ 63) mod 2 ^ 64 - 2 ^ 63.

Lemma wrap_int64_id n : - 2 ^ 63 <= n < 2 ^ 63 → wrap_int64 n = n.
Proof. intros Hn. unfold wrap_int64. rewrite Z.mod_small; lia. Qed.

Lemma wrap64_add_l a b : wrap64 (wrap64 a + b) = wrap64 (a + b).
Proof. apply Zplus_mod_idemp_l. Qed.
Lemma wrap64_succ n : wrap64 (wrap64 (Z.of_nat n) + 1) = wrap64 (Z.of_nat (S n)).
Proof. rewrite wrap64_add_l. f_equal. lia. Qed.

(** ** Tactics *)

(** Case analysis on the boolean tests of a translated [if]. *)
Ltac case_if :=
  match goal with
  | |- context [if ?b then _ else _] => let H := fresh "Hif" in destruct b eqn:H
  | H0 : context [if ?b then _ else _] |- _ => let H := fresh "Hif" in destruct b eqn:H
  end.

Ltac bool_to_prop :=
  repeat match goal with
  | H : _ && _ = true |- _ => apply andb_true_iff in H; destruct H
  | H : _ || _ = false |- _ => apply orb_false_iff in H; destruct H
  | H : negb _ = true |- _ => apply negb_true_iff in H
  | H : negb _ = false |- _ => apply negb_false_iff in H
  | H : bool_decide _ = true |- _ => apply bool_decide_eq_true in H
  | H : bool_decide _ = false |- _ => apply bool_decide_eq_false in H
  | H : (_ <? _) = true |- _ => apply Z.ltb_lt in H
  | H : (_ <? _) = false |- _ => apply Z.ltb_ge in H
  | H : (_ <=? _) = true |- _ => apply Z.leb_le in H
  | H : (_ <=? _) = false |- _ => apply Z.leb_gt in H
  | H : (_ =? _) = true |- _ => apply Z.eqb_eq in H
  | H : (_ =? _) = false |- _ => apply Z.eqb_neq in H
  end.

(** Membership in lists built with [++] and [::], by cases. *)
Ltac by_elem :=
  intros; repeat match goal with H : context [_ ∈ _ ++ _] |- _ => rewrite elem_of_app in H
                 | H : context [_ ∈ _ :: _] |- _ => rewrite elem_of_cons in H
                 | H : context [_ ∈ []] |- _ => rewrite elem_of_nil in H end;
  repeat first [rewrite elem_of_app | rewrite elem_of_cons | rewrite elem_of_nil];
  intuition (congruence || done).

(** Taking a sequence of fallible steps apart. *)
Lemma rbind_ok {A B} (c : result A) (k : A → result B) b :
  rbind c k = Ok b → ∃ a, c = Ok a ∧ k a = Ok b.
Proof. destruct c; [simpl; eauto|done]. Qed.

Ltac ok_steps H :=
  repeat first
    [ let a := fresh "a" in let Ha := fresh "Ha" in apply rbind_ok in H as (a & Ha & H)
    | match type of H with context [if ?b then _ else _] => let E := fresh "E" in destruct b eqn:E; [discriminate H|] end ].

Create HintDb go discriminated.
