(* ===== verification/GoFloat.v ===== *)
(** * Go's [float64]: IEEE 754 binary64

    Go's [float64] arithmetic is IEEE 754 binary64 with round-to-nearest-even
    (the language specification), so the model computes with the executable
    specification [SpecFloat] at precision 53 and maximal exponent 1024.
    Comparisons with a NaN are false, as in Go.  This file holds the
    operations the sources use and the two facts the components need:
    comparison is a total preorder on the non-NaN values, and the sum of two
    non-negative values is at least each of them (rounding is monotone). *)

From Stdlib Require Import ZArith Lia SpecFloat.
From stdpp Require Import prelude.
From S2P Require Import Prelude.

#[local] Open Scope Z_scope.

Abbreviation float64 := spec_float (only parsing).

#[global] Instance float64_eq_dec : EqDecision float64.
Proof. solve_decision. Defined.

Definition prec64 : Z := 53.
Definition emax64 : Z := 1024.

Definition fadd : float64 → float64 → float64 := SFadd prec64 emax64.
Definition fsub : float64 → float64 → float64 := SFsub prec64 emax64.
Definition fmul : float64 → float64 → float64 := SFmul prec64 emax64.
Definition fdiv : float64 → float64 → float64 := SFdiv prec64 emax64.
Definition fneg : float64 → float64 := SFopp.

(** The comparison operators [<], [<=], [>], [>=] and [==]. *)
Definition flt : float64 → float64 → bool := SFltb.
Definition fle : float64 → float64 → bool := SFleb.
Definition fgt (x y : float64) : bool := flt y x.
Definition fge (x y : float64) : bool := fle y x.
Definition feq : float64 → float64 → bool := SFeqb.

Definition fzero : float64 := S754_zero false.
Definition fone : float64 := S754_finite false 4503599627370496 (-52).
Definition fnan : float64 := S754_nan.
Definition finf : float64 := S754_infinity false.

(** [math.MaxFloat64]: (2^53 - 1) * 2^971. *)
Definition MaxFloat64 : float64 := S754_finite false 9007199254740991 971.

(** [math.IsNaN] and [math.IsInf(x, 0)]. *)
Definition IsNaN (x : float64) : bool :=
  match x with S754_nan => true | _ => false end.
Definition IsInf (x : float64) : bool :=
  match x with S754_infinity _ => true | _ => false end.
Definition finite (x : float64) : bool := negb (IsNaN x) && negb (IsInf x).

(** The float64 nearest to the rational [m * 2^e] (the value of a constant
    or of an integer conversion [float64(m)], with [e = 0]). *)
Definition float_of_Z (m e : Z) : float64 :=
  binary_normalize prec64 emax64 m e false.

(** The values a 64-bit word can represent: canonical mantissa and exponent
    in range. *)
Definition valid64 (x : float64) : bool := valid_binary prec64 emax64 x.

(** [x >= 0]: both zeros, the positive finite values and [+Inf]. *)
Definition nonneg (x : float64) : bool :=
  match x with
  | S754_zero _ | S754_finite false _ _ | S754_infinity false => true
  | _ => false
  end.

Lemma nonneg_fge x : nonneg x = fge x fzero.
Proof. by destruct x as [[]|[]| |[]]. Qed.

Lemma nonneg_not_nan x : nonneg x = true → IsNaN x = false.
Proof. by destruct x as [[]|[]| |[]]. Qed.

(** ** Comparison as a lexicographic order *)

(** The key by which [SFcompare] orders the non-NaN values. *)
Definition fkey (x : float64) : Z * Z * Z :=
  match x with
  | S754_infinity true => (-2, 0, 0)
  | S754_finite true m e => (-1, - e, Zneg m)
  | S754_zero _ | S754_nan => (0, 0, 0)
  | S754_finite false m e => (1, e, Zpos m)
  | S754_infinity false => (2, 0, 0)
  end.

Definition lex_le (a b : Z * Z * Z) : Prop :=
  let '(a1, a2, a3) := a in
  let '(b1, b2, b3) := b in
  a1 < b1 ∨ (a1 = b1 ∧ (a2 < b2 ∨ (a2 = b2 ∧ a3 <= b3))).

Lemma fle_key x y :
  IsNaN x = false → IsNaN y = false → fle x y = true ↔ lex_le (fkey x) (fkey y).
Proof.
  intros Hx Hy.
  destruct x as [sx|[]| |[] mx ex], y as [sy|[]| |[] my ey]; try discriminate;
    unfold fle, SFleb, lex_le; simpl; try (split; [lia|done]); try (split; [done|lia]).
  - destruct (Z.compare_spec ex ey); simpl; try (split; [done|lia]); try (split; [lia|done]).
    change (Pos.compare_cont Eq mx my) with (mx ?= my)%positive.
    destruct (Pos.compare_spec mx my); simpl; split; (done || lia).
  - destruct (Z.compare_spec ex ey); simpl; try (split; [done|lia]); try (split; [lia|done]).
    change (Pos.compare_cont Eq mx my) with (mx ?= my)%positive.
    destruct (Pos.compare_spec mx my); simpl; split; (done || lia).
Qed.

Lemma flt_fle x y :
  IsNaN x = false → IsNaN y = false → flt x y = negb (fle y x).
Proof.
  intros Hx Hy.
  destruct x as [sx|[]| |[] mx ex], y as [sy|[]| |[] my ey]; try discriminate; try reflexivity;
    unfold flt, fle, SFltb, SFleb; simpl; rewrite (Z.compare_antisym ex ey);
    destruct (ex ?= ey) eqn:?; simpl; try reflexivity;
    change (Pos.compare_cont Eq ?a ?b) with (a ?= b)%positive;
    rewrite (Pos.compare_antisym mx my); by destruct (mx ?= my)%positive.
Qed.

Lemma flt_nan_false x y : flt x y = true → IsNaN x = false ∧ IsNaN y = false.
Proof. by destruct x as [[]|[]| |[]], y as [[]|[]| |[]]. Qed.

Lemma fle_nan_false x y : fle x y = true → IsNaN x = false ∧ IsNaN y = false.
Proof. by destruct x as [[]|[]| |[]], y as [[]|[]| |[]]. Qed.

Lemma fle_refl x : IsNaN x = false → fle x x = true.
Proof.
  intros Hx. apply fle_key; [done..|].
  destruct (fkey x) as [[a b] c]. simpl. lia.
Qed.

Lemma fle_trans x y z : fle x y = true → fle y z = true → fle x z = true.
Proof.
  intros Hxy Hyz.
  destruct (fle_nan_false _ _ Hxy), (fle_nan_false _ _ Hyz).
  apply fle_key in Hxy, Hyz; [|done..].
  apply fle_key; [done..|].
  destruct (fkey x) as [[a1 a2] a3], (fkey y) as [[b1 b2] b3], (fkey z) as [[c1 c2] c3].
  simpl in *. lia.
Qed.

Lemma fle_total x y :
  IsNaN x = false → IsNaN y = false → fle x y = true ∨ fle y x = true.
Proof.
  intros Hx Hy. rewrite !fle_key by done.
  destruct (fkey x) as [[a1 a2] a3], (fkey y) as [[b1 b2] b3]. simpl. lia.
Qed.

Lemma flt_fle_incl x y : flt x y = true → fle x y = true.
Proof.
  intros H. destruct (flt_nan_false _ _ H) as [Hx Hy].
  rewrite flt_fle in H by done. apply negb_true_iff in H.
  destruct (fle_total x y Hx Hy); [done|congruence].
Qed.

(** ** Rounding a positive value

    [digits m] is the bit length of [m]; [cexp d] the exponent a value whose
    leading bit has weight [2^(d-1)] is stored with. *)

Abbreviation digits m := (Zpos (digits2_pos m)) (only parsing).
Abbreviation cexp d := (fexp prec64 emax64 d) (only parsing).

Lemma cexp_def d : cexp d = Z.max (d - 53) (-1074).
Proof. reflexivity. Qed.

Lemma digits2_pos_size p : digits2_pos p = Pos.size p.
Proof. induction p; simpl; congruence. Qed.

Lemma digits_spec p : 2 ^ (digits p - 1) <= Zpos p < 2 ^ digits p.
Proof.
  rewrite digits2_pos_size. split.
  - pose proof (Pos.size_le p) as H. apply Pos2Z.pos_le_pos in H.
    rewrite Pos2Z.inj_xO, Pos2Z.inj_pow in H.
    replace (Zpos (Pos.size p)) with (1 + (Zpos (Pos.size p) - 1)) in H by lia.
    rewrite Z.pow_add_r in H by lia. lia.
  - pose proof (Pos.size_gt p) as H. rewrite <-Pos2Z.inj_pow. lia.
Qed.

Lemma digits_unique p d : 2 ^ (d - 1) <= Zpos p < 2 ^ d → digits p = d.
Proof.
  intros [H1 H2]. pose proof (digits_spec p) as [H3 H4].
  assert (0 <= d - 1 ∨ d - 1 < 0) as [Hd|Hd] by lia.
  2:{ assert (2 ^ d <= 2 ^ 0) by (apply Z.pow_le_mono_r; lia). lia. }
  assert (d - 1 < digits p) by (apply (Z.pow_lt_mono_r_iff 2); lia).
  assert (digits p - 1 < d) by (apply (Z.pow_lt_mono_r_iff 2); lia).
  lia.
Qed.

Lemma digits_le p q : (p <= q)%positive → digits p <= digits q.
Proof.
  intros H. pose proof (digits_spec p) as [H1 _]. pose proof (digits_spec q) as [_ H2].
  assert (digits p - 1 < digits q) by (apply (Z.pow_lt_mono_r_iff 2); lia). lia.
Qed.

Lemma digits_scale p q k :
  0 <= k → Zpos q = Zpos p * 2 ^ k → digits q = digits p + k.
Proof.
  intros Hk Hq. apply digits_unique. rewrite Hq.
  pose proof (digits_spec p) as [H1 H2].
  replace (digits p + k - 1) with (digits p - 1 + k) by lia.
  rewrite !Z.pow_add_r by lia.
  split; [apply Z.mul_le_mono_nonneg_r|apply Z.mul_lt_mono_pos_r]; lia.
Qed.

(** Shifting right truncates. *)
Lemma shr_1_m mrs : 0 <= shr_m mrs → shr_m (shr_1 mrs) = shr_m mrs / 2.
Proof.
  destruct mrs as [[|[p|p|]|p] r s]; simpl; intros; try lia; try reflexivity.
  - rewrite Pos2Z.inj_xI. apply (Z.div_unique _ _ _ 1); lia.
  - rewrite Pos2Z.inj_xO. apply (Z.div_unique _ _ _ 0); lia.
Qed.

Lemma iter_shr_m p : ∀ mrs,
  0 <= shr_m mrs → shr_m (SpecFloat.iter_pos shr_1 p mrs) = shr_m mrs / 2 ^ Zpos p.
Proof.
  induction p as [p IH|p IH|]; intros mrs Hm; simpl SpecFloat.iter_pos.
  - assert (0 <= shr_m (shr_1 mrs)) as H1 by (rewrite shr_1_m by lia; apply Z.div_pos; lia).
    rewrite IH, IH, shr_1_m, !Z.div_div by (rewrite ?IH by lia; try apply Z.div_pos; lia).
    replace (Zpos p~1) with (1 + (Zpos p + Zpos p)) by lia.
    rewrite !Z.pow_add_r by lia. f_equal.
  - rewrite IH, IH, Z.div_div by (rewrite ?IH by lia; try apply Z.div_pos; lia).
    replace (Zpos p~0) with (Zpos p + Zpos p) by lia.
    by rewrite Z.pow_add_r by lia.
  - by rewrite shr_1_m.
Qed.

Lemma shr_spec mrs e k :
  0 <= shr_m mrs → 0 <= k →
  shr_m (fst (shr mrs e k)) = shr_m mrs / 2 ^ k ∧ snd (shr mrs e k) = e + k.
Proof.
  intros Hm Hk. destruct k as [|k|k]; simpl; [|by rewrite iter_shr_m|lia].
  rewrite Z.div_1_r. lia.
Qed.

Lemma round_nearest_even_bounds q l :
  q <= round_nearest_even q l <= q + 1.
Proof. unfold round_nearest_even. destruct l as [|[]]; try case_match; lia. Qed.

(** [canon m e]: [m * 2^e] is stored with exactly this mantissa. *)
Definition canon (m : positive) (e : Z) : Prop := cexp (digits m + e) = e.

Lemma canon_bounds m e : canon m e → digits m <= 53 ∧ -1074 <= e.
Proof. unfold canon. rewrite cexp_def. lia. Qed.

(** The outcome of rounding [m * 2^e]: overflow, underflow to zero, or a
    canonical value that is at least every canonical value below [m * 2^e]. *)
Definition rounds_to (m : Z) (e : Z) (r : float64) : Prop :=
  match r with
  | S754_infinity s => s = false
  | S754_zero s => s = false ∧ ∀ a b, canon a b → e <= b → m < Zpos a * 2 ^ (b - e)
  | S754_finite s m' e' =>
      s = false ∧ canon m' e' ∧ e' <= 971 ∧
      ∀ a b, canon a b → e <= b → Zpos a * 2 ^ (b - e) <= m →
             b < e' ∨ (b = e' ∧ Zpos a <= Zpos m')
  | S754_nan => False
  end.

(** The second pass of [binary_round_aux] absorbs the carry into a mantissa
    of [2^53] and leaves every smaller mantissa alone. *)
Lemma shr_fexp_carry r c :
  0 < r <= 2 ^ 53 → -1074 <= c →
  let '(mrs, e) := shr_fexp prec64 emax64 r c loc_Exact in
  (r < 2 ^ 53 ∧ shr_m mrs = r ∧ e = c) ∨ (r = 2 ^ 53 ∧ shr_m mrs = 2 ^ 52 ∧ e = c + 1).
Proof.
  intros Hr Hc. unfold shr_fexp. simpl Zdigits2.
  destruct (decide (r = 2 ^ 53)) as [->|Hne].
  - change (Zdigits2 (2 ^ 53)) with 54. rewrite cexp_def.
    replace (Z.max (54 + c - 53) (-1074) - c) with 1 by lia. by right.
  - destruct r as [|p|p]; try lia. simpl Zdigits2.
    assert (digits p <= 53).
    { pose proof (digits_spec p).
      assert (digits p - 1 < 53) by (apply (Z.pow_lt_mono_r_iff 2); lia). lia. }
    rewrite cexp_def.
    destruct (Z.max (digits p + c - 53) (-1074) - c) as [|k|k] eqn:E; simpl; left; lia.
Qed.

(** Truncating [m * 2^e] to its storage exponent [c]: the quotient has at
    most 53 bits and keeps the leading bit unless the value is below the
    smallest subnormal. *)
Lemma truncate_bounds m e (c := cexp (digits m + e)) (q := Zpos m / 2 ^ (c - e)) :
  e <= c →
  0 <= q < 2 ^ 53 ∧ -1074 <= c ∧
  ∀ p, q = Zpos p → digits p = digits m - (c - e).
Proof.
  intros He. subst q. pose proof (digits_spec m) as [Hm1 Hm2].
  assert (0 < 2 ^ (c - e)) by (apply Z.pow_pos_nonneg; lia).
  assert (digits m - (c - e) <= 53) as Hd by (subst c; rewrite cexp_def in *; lia).
  repeat split.
  - apply Z.div_pos; lia.
  - apply Z.div_lt_upper_bound; [done|]. eapply Z.lt_le_trans; [apply Hm2|].
    rewrite <-Z.pow_add_r by lia. apply Z.pow_le_mono_r; lia.
  - subst c. rewrite cexp_def. lia.
  - intros p Hp. apply digits_unique. rewrite <-Hp.
    assert (c - e < digits m).
    { apply (Z.pow_lt_mono_r_iff 2); [lia..|]. eapply Z.le_lt_trans; [|apply Hm2].
      pose proof (Z.mul_div_le (Zpos m) (2 ^ (c - e)) ltac:(lia)). nia. }
    split.
    + apply Z.div_le_lower_bound; [done|]. rewrite <-Z.pow_add_r by lia.
      replace (c - e + (digits m - (c - e) - 1)) with (digits m - 1) by lia. done.
    + apply Z.div_lt_upper_bound; [done|]. rewrite <-Z.pow_add_r by lia.
      replace (c - e + (digits m - (c - e))) with (digits m) by lia. done.
Qed.

Lemma canon_le_cexp a b m e :
  canon a b → e <= b → Zpos a * 2 ^ (b - e) <= Zpos m → b <= cexp (digits m + e).
Proof.
  intros Hc He Hle.
  assert (∃ q, Zpos q = Zpos a * 2 ^ (b - e)) as [q Hq].
  { assert (0 < Zpos a * 2 ^ (b - e)) by (apply Z.mul_pos_pos; [lia|apply Z.pow_pos_nonneg; lia]).
    exists (Z.to_pos (Zpos a * 2 ^ (b - e))). by rewrite Z2Pos.id. }
  pose proof (digits_scale a q (b - e) ltac:(lia) Hq) as Hd.
  assert (digits q <= digits m) by (apply digits_le; lia).
  unfold canon in Hc. rewrite cexp_def in *. lia.
Qed.

(** A quotient of zero only arises below the smallest subnormal. *)
Lemma truncate_zero m e (c := cexp (digits m + e)) :
  e <= c → Zpos m / 2 ^ (c - e) = 0 → c = -1074.
Proof.
  intros He Hq. assert (0 < 2 ^ (c - e)) by (apply Z.pow_pos_nonneg; lia).
  apply Z.div_small_iff in Hq; [|lia].
  pose proof (digits_spec m).
  assert (digits m - 1 < c - e) by (apply (Z.pow_lt_mono_r_iff 2); lia).
  subst c. rewrite cexp_def in *. lia.
Qed.

(** The value stored after rounding up to [r] is canonical. *)
Lemma rounded_canon m e r (c := cexp (digits m + e)) :
  e <= c → Zpos m / 2 ^ (c - e) <= Zpos r → Zpos r < 2 ^ 53 → canon r c.
Proof.
  intros He Hqr Hr. destruct (truncate_bounds m e He) as (Hq & Hc & Hdig).
  fold c in Hq, Hc, Hdig.
  pose proof (digits_spec r).
  assert (digits r - 1 < 53) by (apply (Z.pow_lt_mono_r_iff 2); lia).
  destruct (Zpos m / 2 ^ (c - e)) as [|q|q] eqn:E; [|specialize (Hdig q eq_refl)|lia].
  - apply truncate_zero in E; [|done]. fold c in E. unfold canon. rewrite cexp_def. lia.
  - assert (digits q <= digits r) by (apply digits_le; lia).
    unfold canon. subst c. rewrite !cexp_def in *. lia.
Qed.

Lemma shr_fexp_zero c :
  shr_m (fst (shr_fexp prec64 emax64 0 c loc_Exact)) = 0.
Proof.
  unfold shr_fexp, shr_record_of_loc. generalize (cexp (Zdigits2 0 + c) - c). intros k.
  destruct (decide (0 <= k)) as [Hk|Hk].
  - by destruct (shr_spec (Build_shr_record 0 false false) c k) as [-> _].
  - destruct k; [lia|lia|done].
Qed.

Lemma binary_round_aux_spec m e :
  e <= cexp (digits m + e) →
  rounds_to (Zpos m) e (binary_round_aux prec64 emax64 false (Zpos m) e loc_Exact).
Proof.
  intros He. set (c := cexp (digits m + e)) in *.
  destruct (truncate_bounds m e He) as (Hq & Hc & _). fold c in Hq, Hc.
  unfold binary_round_aux, shr_fexp at 1. simpl Zdigits2. fold c.
  destruct (shr_spec (shr_record_of_loc (Zpos m) loc_Exact) e (c - e)) as [Hs1 Hs2]; [done|lia|].
  destruct (shr _ e (c - e)) as [mrs' e']. simpl in Hs1, Hs2.
  replace e' with c by lia. clear e' Hs2. rewrite Hs1.
  pose proof (round_nearest_even_bounds (Zpos m / 2 ^ (c - e)) (loc_of_shr_record mrs')) as Hr.
  set (r := round_nearest_even _ _) in *. clearbody r.
  assert (∀ a b, canon a b → e <= b → Zpos a * 2 ^ (b - e) <= Zpos m →
            b < c ∨ (b = c ∧ Zpos a <= r)) as Hlow.
  { intros a b Hab Hb Hle. pose proof (canon_le_cexp a b m e Hab Hb Hle) as Hbc. fold c in Hbc.
    destruct (decide (b = c)) as [->|]; [right|left; lia]. split; [done|].
    transitivity (Zpos m / 2 ^ (c - e)); [|lia].
    apply Z.div_le_lower_bound; [apply Z.pow_pos_nonneg|]; lia. }
  destruct (decide (r = 0)) as [->|Hr0].
  - pose proof (shr_fexp_zero c) as Hz.
    destruct (shr_fexp _ _ 0 c _) as [mrs'' e'']. simpl in Hz. rewrite Hz. simpl.
    split; [done|]. intros a b Hab Hb. apply Z.nle_gt. intros Hle.
    pose proof (truncate_zero m e He ltac:(fold c; lia)) as Hc'. fold c in Hc'.
    pose proof (canon_bounds a b Hab).
    destruct (Hlow a b Hab Hb Hle); lia.
  - pose proof (shr_fexp_carry r c ltac:(lia) Hc) as Hcarry.
    destruct (shr_fexp _ _ r c _) as [mrs'' e''].
    destruct Hcarry as [(Hlt & -> & ->)|(-> & -> & ->)].
    + destruct r as [|r|r]; [done| |lia].
      destruct (Z.leb_spec c (emax64 - prec64)); [|done].
      repeat split; [|done|apply Hlow]. eapply rounded_canon; [done|fold c; lia|done].
    + change (2 ^ 52) with (Zpos 4503599627370496).
      destruct (Z.leb_spec (c + 1) (emax64 - prec64)); [|done].
      repeat split; [unfold canon; rewrite cexp_def; simpl; lia|done|].
      intros a b Hab Hb Hle. destruct (Hlow a b Hab Hb Hle); lia.
Qed.

(** Left-aligning a mantissa keeps its value. *)
Lemma shl_align_spec m e e' :
  let '(m', e'') := shl_align m e e' in
  e'' = Z.min e e' ∧ Zpos m' = Zpos m * 2 ^ (e - e'').
Proof.
  unfold shl_align. destruct (e' - e) as [|d|d] eqn:E.
  - rewrite Z.min_l by lia. rewrite Z.sub_diag. lia.
  - rewrite Z.min_l by lia. rewrite Z.sub_diag. lia.
  - rewrite Z.min_r by lia. split; [done|].
    replace (e - e') with (Zpos d) by lia. clear E.
    induction d as [|d IH] using Pos.peano_ind; [simpl; lia|].
    rewrite Pos.iter_succ, Pos2Z.inj_succ, Z.pow_succ_r by lia. lia.
Qed.

Lemma fst_shl_align m e e' :
  e' <= e → Zpos (fst (shl_align m e e')) = Zpos m * 2 ^ (e - e').
Proof.
  intros. pose proof (shl_align_spec m e e') as Hs.
  destruct (shl_align m e e') as [m' e'']. destruct Hs as [-> Hs]. simpl.
  by rewrite Hs, Z.min_r by lia.
Qed.

Lemma binary_round_spec m e :
  rounds_to (Zpos m) e (binary_round prec64 emax64 false m e).
Proof.
  unfold binary_round. pose proof (shl_align_spec m e (cexp (digits m + e))) as Hs.
  destruct (shl_align _ _ _) as [m' e']. destruct Hs as [He' Hm'].
  pose proof (digits_scale m m' (e - e') ltac:(lia) Hm') as Hd.
  assert (rounds_to (Zpos m') e' (binary_round_aux prec64 emax64 false (Zpos m') e' loc_Exact))
    as Hr.
  { apply binary_round_aux_spec. replace (digits m' + e') with (digits m + e) by lia. lia. }
  assert (∀ a b, e <= b → Zpos a * 2 ^ (b - e') = Zpos a * 2 ^ (b - e) * 2 ^ (e - e')) as Hsc.
  { intros a b Hb. rewrite <-Z.mul_assoc, <-Z.pow_add_r by lia. do 2 f_equal. lia. }
  assert (0 < 2 ^ (e - e')) by (apply Z.pow_pos_nonneg; lia).
  destruct (binary_round_aux _ _ _ _ _ _) as [s|s| |s mr er]; simpl in *; [|done..|].
  - destruct Hr as [-> Hr]. split; [done|]. intros a b Hab Hb.
    specialize (Hr a b Hab ltac:(lia)). rewrite Hm', (Hsc a b) in Hr by done.
    by apply Z.mul_lt_mono_pos_r in Hr.
  - destruct Hr as (-> & Hc & H971 & Hr). repeat split; [done..|].
    intros a b Hab Hb Hle. apply Hr; [done|lia|]. rewrite Hm', (Hsc a b) by done.
    by apply Z.mul_le_mono_pos_r.
Qed.

(** ** Sums of non-negative values *)

Lemma valid64_canon s m e :
  valid64 (S754_finite s m e) = true ↔ canon m e ∧ e <= 971.
Proof.
  unfold valid64, valid_binary, bounded, canonical_mantissa, canon.
  rewrite andb_true_iff, Z.eqb_eq, Z.leb_le. done.
Qed.

(** Adding two valid non-negative values gives a valid non-negative value
    that is at least each operand; only [+Inf] can appear as a new value. *)
Lemma fadd_nonneg x y :
  nonneg x = true → nonneg y = true → valid64 x = true → valid64 y = true →
  nonneg (fadd x y) = true ∧ valid64 (fadd x y) = true ∧
  fle x (fadd x y) = true ∧ fle y (fadd x y) = true.
Proof.
  intros Hx Hy Vx Vy.
  destruct x as [sx|[]| |[] mx ex], y as [sy|[]| |[] my ey]; try discriminate;
    try (destruct sx, sy; done); try (by repeat split; try apply fle_refl).
  apply valid64_canon in Vx as [Cx Ex]. apply valid64_canon in Vy as [Cy Ey].
  unfold fadd, SFadd. set (ez := Z.min ex ey). simpl cond_Zopp.
  assert (0 < 2 ^ (ex - ez)) by (apply Z.pow_pos_nonneg; lia).
  assert (0 < 2 ^ (ey - ez)) by (apply Z.pow_pos_nonneg; lia).
  rewrite Pos2Z.add_pos_pos. simpl binary_normalize.
  pose proof (binary_round_spec (fst (shl_align mx ex ez) + fst (shl_align my ey ez)) ez) as Hr.
  rewrite Pos2Z.inj_add, !fst_shl_align in Hr by lia.
  destruct (binary_round _ _ _ _ _) as [s|s| |s mr er]; simpl in Hr; [|by subst|done|].
  - destruct Hr as [-> Hr]. specialize (Hr mx ex Cx ltac:(lia)). lia.
  - destruct Hr as (-> & Hc & H971 & Hr). split_and!; [done|by apply valid64_canon|..];
      (apply fle_key; [done|done|]); right; (split; [done|]); simpl.
    + apply (Hr mx ex Cx); lia.
    + apply (Hr my ey Cy); lia.
Qed.

(** ** Integer conversions *)

Lemma binary_round_aux_finite m e :
  e <= cexp (digits m + e) <= 970 →
  finite (binary_round_aux prec64 emax64 false (Zpos m) e loc_Exact) = true.
Proof.
  intros [He Hmax]. set (c := cexp (digits m + e)) in *.
  destruct (truncate_bounds m e He) as (Hq & Hc & _). fold c in Hq, Hc.
  unfold binary_round_aux, shr_fexp at 1. simpl Zdigits2. fold c.
  destruct (shr_spec (shr_record_of_loc (Zpos m) loc_Exact) e (c - e)) as [Hs1 Hs2]; [done|lia|].
  destruct (shr _ e (c - e)) as [mrs' e']. simpl in Hs1, Hs2.
  replace e' with c by lia. clear e' Hs2. rewrite Hs1.
  pose proof (round_nearest_even_bounds (Zpos m / 2 ^ (c - e)) (loc_of_shr_record mrs')) as Hr.
  set (r := round_nearest_even _ _) in *. clearbody r.
  destruct (decide (r = 0)) as [->|Hr0].
  - pose proof (shr_fexp_zero c) as Hz.
    destruct (shr_fexp _ _ 0 c _) as [mrs'' e'']. simpl in Hz. by rewrite Hz.
  - pose proof (shr_fexp_carry r c ltac:(lia) Hc) as Hcarry.
    destruct (shr_fexp _ _ r c _) as [mrs'' e''].
    destruct Hcarry as [(Hlt & -> & ->)|(-> & -> & ->)].
    + destruct r as [|r|r]; [done| |lia].
      destruct (Z.leb_spec c (emax64 - prec64)); [done|]. unfold emax64, prec64 in *. lia.
    + change (2 ^ 52) with (Zpos 4503599627370496).
      destruct (Z.leb_spec (c + 1) (emax64 - prec64)); [done|]. unfold emax64, prec64 in *. lia.
Qed.

Lemma float_of_Z_finite n : 0 <= n < 2 ^ 63 → finite (float_of_Z n 0) = true.
Proof.
  intros [H0 Hn]. destruct n as [|m|]; [done| |lia].
  unfold float_of_Z, binary_normalize, binary_round.
  pose proof (shl_align_spec m 0 (cexp (digits m + 0))) as Hs.
  assert (digits m <= 63).
  { pose proof (digits_spec m). assert (digits m - 1 < 63) by (apply (Z.pow_lt_mono_r_iff 2); lia). lia. }
  destruct (shl_align _ _ _) as [m' e']. destruct Hs as [He' Hm'].
  pose proof (digits_scale m m' (0 - e') ltac:(lia) Hm') as Hd.
  apply binary_round_aux_finite. rewrite cexp_def in *. lia.
Qed.
