(* ===== verification/GoString.v ===== *)
(** * Go strings: bytes, UTF-8, [strings], [strconv] and [unicode]

    A Go string is an immutable byte sequence; it is modelled by the Rocq
    type [string], whose characters are bytes.  This file translates what the
    sources use of the packages [strings], [unicode], [unicode/utf8] and
    [strconv] (integers). *)

From Stdlib Require Import ZArith Lia Ascii String.
From Stdlib Require DecimalString DecimalZ.
From stdpp Require Import prelude strings list.
From S2P Require Import Prelude.

#[local] Open Scope Z_scope.

Definition byte_val (c : ascii) : Z := Z.of_N (N_of_ascii c).
Definition byte_chr (b : Z) : ascii := ascii_of_N (Z.to_N b).

Definition bytes (s : string) : list Z := byte_val <$> list_ascii_of_string s.
Definition of_bytes (l : list Z) : string := string_of_list_ascii (byte_chr <$> l).

(** [len(s)]. *)
Definition len (s : string) : Z := Z.of_nat (String.length s).

(** ** UTF-8 *)

Definition RuneError : Z := 0xFFFD.

Definition in_range (lo b hi : Z) : bool := (lo <=? b) && (b <=? hi).
Definition cont (b : Z) : bool := in_range 0x80 b 0xBF.

(** The second byte a three- or four-byte lead byte accepts. *)
Definition second3 (b0 b1 : Z) : bool :=
  if b0 =? 0xE0 then in_range 0xA0 b1 0xBF
  else if b0 =? 0xED then in_range 0x80 b1 0x9F
  else cont b1.
Definition second4 (b0 b1 : Z) : bool :=
  if b0 =? 0xF0 then in_range 0x90 b1 0xBF
  else if b0 =? 0xF4 then in_range 0x80 b1 0x8F
  else cont b1.

(** The runes of a byte sequence with the bytes each one came from, as
    [for range] and [utf8.DecodeRuneInString] produce them: an ill-formed
    byte yields [RuneError] and consumes one byte. *)
Fixpoint runes (l : list Z) : list (Z * list Z) :=
  match l with
  | [] => []
  | b0 :: t0 =>
      if b0 <? 0x80 then (b0, [b0]) :: runes t0
      else
        match t0 with
        | b1 :: t1 =>
            if in_range 0xC2 b0 0xDF && cont b1
            then ((b0 - 0xC0) * 64 + (b1 - 0x80), [b0; b1]) :: runes t1
            else
              match t1 with
              | b2 :: t2 =>
                  if in_range 0xE0 b0 0xEF && second3 b0 b1 && cont b2
                  then ((b0 - 0xE0) * 4096 + (b1 - 0x80) * 64 + (b2 - 0x80), [b0; b1; b2])
                       :: runes t2
                  else
                    match t2 with
                    | b3 :: t3 =>
                        if in_range 0xF0 b0 0xF4 && second4 b0 b1 && cont b2 && cont b3
                        then ((b0 - 0xF0) * 262144 + (b1 - 0x80) * 4096
                              + (b2 - 0x80) * 64 + (b3 - 0x80), [b0; b1; b2; b3]) :: runes t3
                        else (RuneError, [b0]) :: runes t0
                    | [] => (RuneError, [b0]) :: runes t0
                    end
              | [] => (RuneError, [b0]) :: runes t0
              end
        | [] => (RuneError, [b0]) :: runes t0
        end
  end.

(** [utf8.ValidString]. *)
Definition ValidString (s : string) : bool :=
  forallb (fun r => negb ((fst r =? RuneError) && (Nat.eqb (length (snd r)) 1)))
    (runes (bytes s)).

(** [unicode.IsControl]: category Cc, which is U+0000-U+001F and U+007F-U+009F. *)
Definition IsControl (r : Z) : bool := (r <? 0x20) || in_range 0x7F r 0x9F.

(** [unicode.IsSpace]: the White_Space property. *)
Definition IsSpace (r : Z) : bool :=
  in_range 0x09 r 0x0D || (r =? 0x20) || (r =? 0x85) || (r =? 0xA0) || (r =? 0x1680)
  || in_range 0x2000 r 0x200A || (r =? 0x2028) || (r =? 0x2029) || (r =? 0x202F)
  || (r =? 0x205F) || (r =? 0x3000).

(** [strings.IndexFunc(s, f) < 0]: no rune of [s] satisfies [f]. *)
Definition no_rune (f : Z → bool) (s : string) : bool :=
  forallb (fun r => negb (f (fst r))) (runes (bytes s)).

(** [strings.ContainsAny(s, chars)] for ASCII [chars]. *)
Definition ContainsAny (s : string) (chars : list Z) : bool :=
  existsb (fun r => bool_decide (fst r ∈ chars)) (runes (bytes s)).

(** [strings.TrimSpace]. *)
Fixpoint drop_space (l : list (Z * list Z)) : list (Z * list Z) :=
  match l with
  | r :: l' => if IsSpace (fst r) then drop_space l' else l
  | [] => []
  end.
Definition trim_runes (l : list (Z * list Z)) : list (Z * list Z) :=
  reverse (drop_space (reverse (drop_space l))).
Definition TrimSpace (s : string) : string := of_bytes (concat (snd <$> trim_runes (runes (bytes s)))).

(** [strings.HasPrefix] and [strings.TrimPrefix]. *)
Definition HasPrefix (s p : string) : bool := String.prefix p s.
Definition TrimPrefix (s p : string) : string :=
  if HasPrefix s p then String.substring (String.length p) (String.length s - String.length p) s
  else s.

(** [strings.Split(s, sep)] for a one-character separator and
    [strings.Join(parts, sep)]. *)
Fixpoint Split (sep : ascii) (s : string) : list string :=
  match s with
  | EmptyString => [""]
  | String c s' =>
      if bool_decide (c = sep) then "" :: Split sep s'
      else match Split sep s' with
           | p :: ps => String c p :: ps
           | [] => [String c ""]
           end
  end.
Fixpoint Join (sep : string) (parts : list string) : string :=
  match parts with
  | [] => ""
  | [p] => p
  | p :: ps => p +:+ sep +:+ Join sep ps
  end.

(** [strconv.Itoa] and [strconv.FormatInt(_, 10)]. *)
Definition Itoa (z : Z) : string := DecimalString.NilZero.string_of_int (Z.to_int z).

(** ** Lemmas *)

(** No control character, in particular no line break. *)
Lemma no_control_no_break s :
  no_rune IsControl s = true → ContainsAny s [13; 10] = false.
Proof.
  unfold no_rune, ContainsAny. induction (runes (bytes s)) as [|r l IH]; [done|]. simpl.
  intros H. bool_to_prop. rewrite IH by done. rewrite orb_false_r.
  apply bool_decide_eq_false. rewrite !elem_of_cons, elem_of_nil.
  intros [E|[E|[]]]; rewrite E in *; done.
Qed.

Fixpoint has_char (c : ascii) (s : string) : bool :=
  match s with
  | EmptyString => false
  | String c' s' => bool_decide (c' = c) || has_char c s'
  end.

Lemma has_char_app c s t : has_char c (s +:+ t) = has_char c s || has_char c t.
Proof. induction s as [|c' s IH]; [done|]. simpl. by rewrite <-orb_assoc, <-IH. Qed.

(** [Split] undoes [Join] when no part contains the separator. *)
Lemma append_assoc (s t u : string) : (s +:+ t) +:+ u = s +:+ t +:+ u.
Proof. induction s as [|c s IH]; [done|]. exact (f_equal (String c) IH). Qed.

Lemma Split_no_sep sep s : has_char sep s = false → Split sep s = [s].
Proof.
  induction s as [|c s IH]; simpl; [done|]. intros H. bool_to_prop.
  rewrite bool_decide_eq_false_2, IH by done. done.
Qed.

Lemma Split_app sep s t :
  has_char sep s = false → Split sep (s +:+ String sep t) = s :: Split sep t.
Proof.
  induction s as [|c s IH]; intros H.
  - simpl. by rewrite bool_decide_eq_true_2.
  - simpl in H. bool_to_prop. change (String c s +:+ String sep t) with (String c (s +:+ String sep t)).
    simpl. rewrite bool_decide_eq_false_2, IH by done. done.
Qed.

Lemma Split_Join sep parts :
  parts ≠ [] → Forall (λ p, has_char sep p = false) parts →
  Split sep (Join (String sep "") parts) = parts.
Proof.
  intros Hne Hp. induction Hp as [|p ps Hp Hps IH]; [done|].
  destruct ps as [|q ps]; [by apply Split_no_sep|].
  change (Join (String sep "") (p :: q :: ps))
    with (p +:+ String sep (Join (String sep "") (q :: ps))).
  rewrite Split_app, IH by done. done.
Qed.

(** Decimal numerals hold digits and a sign only. *)
Definition in_numeral (c : ascii) : bool := has_char c "-0123456789".

Lemma Itoa_no_char c z : in_numeral c = false → has_char c (Itoa z) = false.
Proof.
  unfold in_numeral. cbn [has_char]. intros Hc. bool_to_prop.
  assert (∀ d, has_char c (DecimalString.NilEmpty.string_of_uint d) = false) as Hd.
  { induction d; cbn [DecimalString.NilEmpty.string_of_uint has_char]; rewrite ?bool_decide_eq_false_2 by done; done. }
  assert (∀ d, has_char c (DecimalString.NilZero.string_of_uint d) = false) as Hu.
  { intros d. destruct d; [cbn [has_char DecimalString.NilZero.string_of_uint]; by rewrite bool_decide_eq_false_2|apply Hd..]. }
  unfold Itoa, DecimalString.NilZero.string_of_int. destruct (Z.to_int z) as [d|d]; [apply Hu|].
  cbn [has_char]. by rewrite bool_decide_eq_false_2, Hu.
Qed.

(** The decoder, one rune at a time; what it reads of the input is the rune
    itself, so cutting the input behind it does not change it. *)
Lemma runes_step l :
  l ≠ [] → ∃ r rest, runes l = r :: runes rest ∧ l = snd r ++ rest ∧ snd r ≠ [] ∧
    ∀ c, c `prefix_of` rest → runes (snd r ++ c) = r :: runes c.
Proof.
  destruct l as [|b0 t0]; [done|]. intros _. cbn [runes].
  destruct (b0 <? 0x80) eqn:H0.
  { exists (b0, [b0]), t0. split_and!; try done. intros c _. simpl. by rewrite H0. }
  assert (∀ t, (∀ c, c `prefix_of` t → runes (b0 :: c) = (RuneError, [b0]) :: runes c) →
    ∃ r rest, (RuneError, [b0]) :: runes t = r :: runes rest ∧ b0 :: t = snd r ++ rest ∧ snd r ≠ [] ∧
    ∀ c, c `prefix_of` rest → runes (snd r ++ c) = r :: runes c) as Hbad.
  { intros t Ht. by exists (RuneError, [b0]), t. }
  destruct t0 as [|b1 t1].
  { apply Hbad. intros c [k Hc]. destruct c; [|done]. cbn [runes]. by rewrite H0. }
  destruct (in_range 0xC2 b0 0xDF && cont b1) eqn:H1.
  { eexists (_, [b0; b1]), t1. split_and!; try done. intros c _. cbn [app snd runes]. by rewrite H0, H1. }
  destruct t1 as [|b2 t2].
  { apply Hbad. intros c [k Hc]. destruct c as [|c1 [|c2 c]]; simplify_list_eq; cbn [runes]; by rewrite H0, ?H1. }
  destruct (in_range 0xE0 b0 0xEF && second3 b0 b1 && cont b2) eqn:H2.
  { eexists (_, [b0; b1; b2]), t2. split_and!; try done. intros c _. cbn [app snd runes]. by rewrite H0, H1, H2. }
  destruct t2 as [|b3 t3].
  { apply Hbad. intros c [k Hc]. destruct c as [|c1 [|c2 [|c3 c]]]; simplify_list_eq; cbn [runes]; by rewrite H0, ?H1, ?H2. }
  destruct (in_range 0xF0 b0 0xF4 && second4 b0 b1 && cont b2 && cont b3) eqn:H3.
  { eexists (_, [b0; b1; b2; b3]), t3. split_and!; try done. intros c _. cbn [app snd runes].
    by rewrite H0, H1, H2, H3. }
  apply Hbad. intros c [k Hc].
  destruct c as [|c1 [|c2 [|c3 c]]]; simplify_list_eq; cbn [runes]; by rewrite H0, ?H1, ?H2, ?H3.
Qed.

(** Decoding loses nothing, and a segment of the runes decodes to itself. *)
Lemma runes_bytes l : concat (snd <$> runes l) = l.
Proof.
  induction l as [l IH] using (induction_ltof1 _ (@List.length Z)).
  destruct (decide (l = [])) as [->|Hne]; [done|].
  destruct (runes_step l Hne) as (r & rest & -> & Hl & Hr & _). rewrite fmap_cons. cbn [concat].
  rewrite IH; [done|]. rewrite Hl. unfold ltof. rewrite length_app. destruct (snd r); [done|simpl; lia].
Qed.

Lemma runes_suffix l l1 l2 : runes l = l1 ++ l2 → runes (concat (snd <$> l2)) = l2.
Proof.
  revert l. induction l1 as [|r l1 IH]; intros l Hl; simpl in Hl.
  { by rewrite <- Hl, runes_bytes. }
  destruct (decide (l = [])) as [->|Hne]; [done|].
  destruct (runes_step l Hne) as (r' & rest & E & _). rewrite E in Hl. injection Hl as -> Hl. by eapply IH.
Qed.

Lemma runes_prefix l l1 l2 : runes l = l1 ++ l2 → runes (concat (snd <$> l1)) = l1.
Proof.
  revert l. induction l1 as [|r l1 IH]; intros l Hl; simpl in Hl; [done|].
  destruct (decide (l = [])) as [->|Hne]; [done|].
  destruct (runes_step l Hne) as (r' & rest & E & _ & _ & Hc). rewrite E in Hl. injection Hl as -> Hl.
  rewrite fmap_cons. cbn [concat]. rewrite Hc; [f_equal; by eapply IH|].
  exists (concat (snd <$> l2)). rewrite <- concat_app, <- fmap_app, <- Hl. by rewrite runes_bytes.
Qed.

Lemma drop_space_suffix l : ∃ k, l = k ++ drop_space l ∧ drop_space (drop_space l) = drop_space l.
Proof.
  induction l as [|r l IH]; [by exists []|]. simpl. destruct (IsSpace (fst r)) eqn:E.
  - destruct IH as (k & Hk & Hi). exists (r :: k). simpl. by rewrite <- Hk.
  - exists []. split; [done|]. simpl. by rewrite E.
Qed.

Lemma bytes_of_bytes_range l : Forall (λ b, 0 <= b < 256) l → bytes (of_bytes l) = l.
Proof.
  intros Hl. unfold bytes, of_bytes. rewrite list_ascii_of_string_of_list_ascii, <- list_fmap_compose.
  induction Hl as [|b l Hb _ IH]; [done|]. rewrite fmap_cons, IH. f_equal.
  unfold byte_val, byte_chr. simpl. rewrite N_ascii_embedding by lia. lia.
Qed.
Lemma bytes_range s : Forall (λ b, 0 <= b < 256) (bytes s).
Proof.
  unfold bytes. apply Forall_fmap, Forall_true. intros c. simpl. unfold byte_val.
  pose proof (N_ascii_bounded c). lia.
Qed.

Lemma trim_runes_idemp l : trim_runes (trim_runes l) = trim_runes l.
Proof.
  unfold trim_runes. set (a := drop_space l). destruct (drop_space_suffix (reverse a)) as (k & Hk & Hi).
  set (b := drop_space (reverse a)) in *.
  assert (drop_space (reverse b) = reverse b) as ->; [|by rewrite reverse_involutive, Hi].
  assert (a = reverse b ++ reverse k) as Ha by (rewrite <- reverse_app, <- Hk; by rewrite reverse_involutive).
  destruct (reverse b) as [|r b'] eqn:Hb; [done|]. simpl.
  destruct (drop_space_suffix l) as (_ & _ & Ha2). fold a in Ha2. rewrite Ha in Ha2. simpl in Ha2.
  destruct (IsSpace (fst r)) eqn:E; [|done]. exfalso.
  destruct (drop_space_suffix (b' ++ reverse k)) as (k' & Hk' & _). rewrite Ha2 in Hk'.
  apply (f_equal length) in Hk'. rewrite !length_app in Hk'. simpl in Hk'. rewrite ?length_app in Hk'. lia.
Qed.

(** [strings.TrimSpace] is idempotent. *)
Lemma TrimSpace_idemp s : TrimSpace (TrimSpace s) = TrimSpace s.
Proof.
  unfold TrimSpace at 1 3. f_equal.
  destruct (drop_space_suffix (runes (bytes s))) as (k1 & H1 & _).
  destruct (drop_space_suffix (reverse (drop_space (runes (bytes s))))) as (k2 & H2 & _).
  assert (runes (bytes (TrimSpace s)) = trim_runes (runes (bytes s))) as Hr.
  { unfold TrimSpace. rewrite bytes_of_bytes_range.
    - apply (runes_prefix (concat (snd <$> drop_space (runes (bytes s)))) _ (reverse k2)).
      rewrite (runes_suffix _ _ _ H1). unfold trim_runes. rewrite <- reverse_app, <- H2. by rewrite reverse_involutive.
    - pose proof (bytes_range s) as Hall. rewrite <- (runes_bytes (bytes s)), H1 in Hall.
      rewrite <- (reverse_involutive (drop_space (runes (bytes s)))) in Hall. rewrite H2, reverse_app in Hall.
      rewrite !fmap_app, !concat_app in Hall. apply Forall_app in Hall as [_ Hall]. by apply Forall_app in Hall as [Hall _]. }
  rewrite Hr. f_equal. f_equal. apply trim_runes_idemp.
Qed.
