(* ===== verification/GoSort.v ===== *)
(** * Package [sort]: [sort.Search], [sort.SliceStable] and [sort.Slice]

    [Search] is the binary search of the standard library.  A stable sort has
    exactly one result, so [SliceStable] is modelled by stable insertion; the
    same function models [Slice] where the comparison is a strict total order
    on the slice, which leaves an unstable sort no choice either. *)

From Stdlib Require Import ZArith Lia Sorting.Sorted.
From stdpp Require Import prelude list sorting.
From S2P Require Import Prelude.

Section search.
Context (f : nat → bool).

(** [for i < j { h := (i+j)>>1; if !f(h) { i = h+1 } else { j = h } }].
    Every turn shrinks [j - i], so [fuel = j - i] is enough. *)
Fixpoint search_loop (fuel i j : nat) : nat :=
  match fuel with
  | O => i
  | S fuel =>
      if (i <? j)%nat then
        let h := Nat.div2 (i + j) in
        if f h then search_loop fuel i h else search_loop fuel (S h) j
      else i
  end.

Definition Search (n : nat) : nat := search_loop n 0 n.

Context (n : nat) (f_mono : ∀ i k, i ≤ k < n → f i = true → f k = true).

Lemma search_loop_spec fuel : ∀ i j,
  j - i ≤ fuel → i ≤ j ≤ n →
  (∀ k, k < i → f k = false) → (∀ k, j ≤ k < n → f k = true) →
  let r := search_loop fuel i j in
  r ≤ n ∧ (∀ k, k < r → f k = false) ∧ (∀ k, r ≤ k < n → f k = true).
Proof using f_mono.
  induction fuel as [|fuel IH]; intros i j Hf Hij Hlo Hhi; simpl.
  - assert (i = j) as -> by lia. split; [lia|done].
  - destruct (Nat.ltb_spec i j) as [Hlt|Hge].
    2:{ assert (i = j) as -> by lia. split; [lia|done]. }
    pose proof (Nat.div2_odd (i + j)) as Hd.
    assert (Nat.b2n (Nat.odd (i + j)) ≤ 1) by (destruct (Nat.odd _); simpl; lia).
    destruct (f (Nat.div2 (i + j))) eqn:Eh.
    + apply IH; [lia|lia|done|]. intros k Hk. by eapply f_mono; [|apply Eh].
    + apply IH; [lia|lia| |done]. intros k Hk.
      destruct (f k) eqn:Ek; [|done].
      rewrite (f_mono k (Nat.div2 (i + j))) in Eh; [done|lia|done].
Qed.

(** [Search] returns the least index at which [f] holds, or [n]. *)
Lemma Search_spec :
  Search n ≤ n ∧ (∀ k, k < Search n → f k = false) ∧ (∀ k, Search n ≤ k < n → f k = true).
Proof using f_mono. apply search_loop_spec; [lia|lia|lia|lia]. Qed.
End search.

Section stable_sort.
Context {A : Type} (less : A → A → bool).

(** Insert [x] before the first element it is less than. *)
Fixpoint insert_stable (x : A) (l : list A) : list A :=
  match l with
  | [] => [x]
  | y :: l' => if less x y then x :: l else y :: insert_stable x l'
  end.

Definition SliceStable (l : list A) : list A :=
  fold_left (fun acc x => insert_stable x acc) l [].

(** [sorted]: no element is less than an earlier one. *)
Definition sorted : list A → Prop := StronglySorted (fun a b => less b a = false).

Lemma insert_stable_perm x l : insert_stable x l ≡ₚ x :: l.
Proof.
  induction l as [|y l IH]; simpl; [done|]. case_match; [done|].
  rewrite IH. apply Permutation_swap.
Qed.

Lemma fold_insert_perm l acc :
  fold_left (fun acc x => insert_stable x acc) l acc ≡ₚ l ++ acc.
Proof.
  revert acc. induction l as [|x l IH]; intros acc; simpl; [done|].
  rewrite IH, insert_stable_perm. by rewrite Permutation_middle.
Qed.

Lemma SliceStable_perm l : SliceStable l ≡ₚ l.
Proof. unfold SliceStable. rewrite fold_insert_perm. by rewrite app_nil_r. Qed.

Lemma SliceStable_length l : length (SliceStable l) = length l.
Proof. by rewrite SliceStable_perm. Qed.

Lemma SliceStable_snoc l x : SliceStable (l ++ [x]) = insert_stable x (SliceStable l).
Proof. unfold SliceStable. by rewrite fold_left_app. Qed.

(** The comparison is irreflexive on equal keys and its negation is
    transitive: a strict weak order. *)
Context (less_asym : ∀ a b, less a b = true → less b a = false).
Context (ge_trans : ∀ a b c, less b a = false → less c b = false → less c a = false).

Lemma insert_stable_sorted x l : sorted l → sorted (insert_stable x l).
Proof using less_asym ge_trans.
  induction 1 as [|y l Hl IH Hy]; simpl; [by repeat constructor|].
  destruct (less x y) eqn:E.
  - constructor; [by constructor|]. constructor; [by apply less_asym|].
    eapply Forall_impl; [apply Hy|]. intros z Hz. simpl in Hz.
    eapply ge_trans; [apply less_asym, E|done].
  - constructor; [done|]. rewrite insert_stable_perm. by constructor.
Qed.

Lemma SliceStable_sorted l : sorted (SliceStable l).
Proof using less_asym ge_trans.
  unfold SliceStable. cut (sorted []); [|constructor]. generalize (@nil A).
  induction l as [|x l IH]; intros acc Hacc; simpl; [done|].
  apply IH, insert_stable_sorted, Hacc.
Qed.

Lemma insert_stable_last x l :
  Forall (fun y => less x y = false) l → insert_stable x l = l ++ [x].
Proof. induction 1 as [|y l Hy _ IH]; simpl; [done|]. by rewrite Hy, IH. Qed.

(** Stability: a sorted slice is left alone. *)
Lemma SliceStable_id l : sorted l → SliceStable l = l.
Proof.
  induction l as [|x l IH] using rev_ind; intros Hs; [done|].
  rewrite SliceStable_snoc, IH.
  - apply insert_stable_last. clear IH. induction l as [|y l IH']; [done|].
    inversion Hs as [|? ? Hs' Hy]; subst. constructor; [|by apply IH'].
    rewrite Forall_app, Forall_singleton in Hy. tauto.
  - clear IH. induction l as [|y l IH']; [constructor|].
    inversion Hs as [|? ? Hs' Hy]; subst. constructor; [by apply IH'|].
    rewrite Forall_app in Hy. tauto.
Qed.

(** Filtering commutes with stable sorting. *)
Lemma insert_stable_filter (P : A → Prop) `{!∀ x, Decision (P x)} x l :
  sorted l →
  filter P (insert_stable x l) =
    if decide (P x) then insert_stable x (filter P l) else filter P l.
Proof using less_asym ge_trans.
  induction 1 as [|y l Hl IH Hy].
  { simpl. rewrite filter_cons. by case_decide. }
  simpl insert_stable. destruct (less x y) eqn:E.
  - rewrite filter_cons. destruct (decide (P x)); [|done].
    destruct (filter P (y :: l)) as [|z l'] eqn:Ez; simpl; [done|].
    assert (z ∈ filter P (y :: l)) as Hz by (rewrite Ez; left).
    apply list_elem_of_filter in Hz as [_ Hz]. apply elem_of_cons in Hz as [->|Hz]; [by rewrite E|].
    rewrite Forall_forall in Hy. specialize (Hy z Hz).
    destruct (less x z) eqn:Ez'; [done|].
    pose proof (ge_trans y z x Hy Ez'). congruence.
  - rewrite !filter_cons, IH. repeat case_decide; simpl; rewrite ?E; done.
Qed.

Lemma SliceStable_filter (P : A → Prop) `{!∀ x, Decision (P x)} l :
  filter P (SliceStable l) = SliceStable (filter P l).
Proof using less_asym ge_trans.
  induction l as [|x l IH] using rev_ind; [done|].
  rewrite SliceStable_snoc, insert_stable_filter by apply SliceStable_sorted.
  rewrite filter_app, IH. rewrite filter_cons, filter_nil. case_decide.
  - by rewrite SliceStable_snoc.
  - by rewrite app_nil_r.
Qed.

(** Appending to an already sorted slice and sorting again. *)
Lemma SliceStable_app_idem l l' :
  SliceStable (SliceStable l ++ l') = SliceStable (l ++ l').
Proof using less_asym ge_trans.
  induction l' as [|x l' IH] using rev_ind.
  - rewrite !app_nil_r. apply SliceStable_id, SliceStable_sorted.
  - by rewrite !app_assoc, !SliceStable_snoc, IH.
Qed.

Lemma sorted_lookup l i k x y :
  sorted l → (i < k)%nat → l !! i = Some x → l !! k = Some y → less y x = false.
Proof.
  intros Hs. revert i k. induction Hs as [|z l Hl IH Hz]; intros [|i] [|k] Hik Hi Hk;
    simpl in *; try done; try lia.
  - simplify_eq. rewrite Forall_lookup in Hz. by eapply Hz.
  - eapply IH; [|done|done]. lia.
Qed.

Lemma sorted_drop n l : sorted l → sorted (drop n l).
Proof.
  intros Hs. revert n. induction Hs as [|y l Hl IH Hy]; intros [|n]; simpl;
    try constructor; auto.
Qed.
End stable_sort.

(** Orders given by an integer key. *)
Lemma key_less_asym {A} (key : A → Z) a b :
  (key a <? key b)%Z = true → (key b <? key a)%Z = false.
Proof. intros. bool_to_prop. apply Z.ltb_ge. lia. Qed.

Lemma key_ge_trans {A} (key : A → Z) a b c :
  (key b <? key a)%Z = false → (key c <? key b)%Z = false → (key c <? key a)%Z = false.
Proof. intros. bool_to_prop. apply Z.ltb_ge. lia. Qed.
