(* ===== verification/GoContext.v ===== *)
(** * Package [context]: deadlines and cancellation

    A context is what its owner can observe of it: the deadline and the
    instant at which it is cancelled, if it ever is.  [ctx.Err()] is a
    function of the instant it is called at; a child's deadline is never
    later than its parent's, as the package documents. *)

From Stdlib Require Import ZArith Lia.
From stdpp Require Import prelude.
From S2P Require Import Prelude.

#[local] Open Scope Z_scope.

(** [time.Duration] units in nanoseconds. *)
Definition Microsecond : Z := 1000.
Definition Millisecond : Z := 1000000.
Definition Second : Z := 1000000000.

Record Context := mkContext {
  ctx_deadline : option Z;
  ctx_cancelled : option Z;
}.

Definition Background : Context := mkContext None None.

(** Whether an instant that may never come has come. *)
Definition passed (t : option Z) (now : Z) : bool :=
  match t with Some t => t <=? now | None => false end.

(** [ctx.Err()] at instant [now]: whichever came first stays the reason. *)
Definition ctx_err (ctx : Context) (now : Z) : option error :=
  match ctx_deadline ctx, ctx_cancelled ctx with
  | Some d, Some c =>
      if (c <=? now) && (c <? d) then Some Canceled
      else if d <=? now then Some DeadlineExceeded else None
  | Some d, None => if d <=? now then Some DeadlineExceeded else None
  | None, Some c => if c <=? now then Some Canceled else None
  | None, None => None
  end.

(** [context.WithDeadline]; [context.WithTimeout] adds to the current time.
    The cancel function the caller runs after use is not part of what the
    callee can observe. *)
Definition WithDeadline (ctx : Context) (d : Z) : Context :=
  mkContext (Some (match ctx_deadline ctx with Some d' => Z.min d' d | None => d end))
    (ctx_cancelled ctx).
Definition WithTimeout (ctx : Context) (now timeout : Z) : Context :=
  WithDeadline ctx (now + timeout).
Definition WithCancel (ctx : Context) : Context := ctx.
(** [context.WithoutCancel]: no deadline and no cancellation. *)
Definition WithoutCancel (ctx : Context) : Context := Background.

(** [time.Until]. *)
Definition Until (t now : Z) : Z := t - now.

(** The outcome of a call that may take time: the callee's state, the instant
    of return, the result. *)
Definition outcome (S A : Type) : Type := S * Z * A.

Lemma ctx_err_mono ctx now now' :
  now <= now' → ctx_err ctx now ≠ None → ctx_err ctx now' ≠ None.
Proof.
  unfold ctx_err. intros Hle.
  destruct (ctx_deadline ctx) as [d|], (ctx_cancelled ctx) as [c|]; try done;
    repeat case_if; bool_to_prop; try done; try lia;
    rewrite ?andb_false_iff, ?Z.leb_gt, ?Z.ltb_ge in *; intuition (try lia; try done).
Qed.

Lemma WithTimeout_deadline ctx now timeout :
  ∃ d, ctx_deadline (WithTimeout ctx now timeout) = Some d ∧ d <= now + timeout ∧
       (∀ d', ctx_deadline ctx = Some d' → d <= d').
Proof.
  unfold WithTimeout, WithDeadline. simpl. eexists. split; [done|].
  destruct (ctx_deadline ctx) as [d'|]; split; try lia; intros ? [= <-]; lia.
Qed.
