(* ===== verification/GoEnv.v ===== *)
(** * Environment variables: [os.Getenv], [strconv] and [time.ParseDuration]

    The environment of a process is a parameter; what the commands do with
    its strings ([strconv.Atoi], [strconv.ParseBool], [time.ParseDuration]
    and the [env...] helpers of the stream processor) is translated. *)

From Stdlib Require Import ZArith Lia SpecFloat Ascii.
From Stdlib Require Decimal DecimalString DecimalPos.
From stdpp Require Import prelude strings list.
From S2P Require Import Prelude GoFloat GoString GoContext.

#[local] Open Scope Z_scope.

(** [os.Getenv]: the empty string for an unset variable. *)
Class Env := Getenv : string → string.

(** ** Numbers *)

Definition MaxInt64 : Z := 2 ^ 63 - 1.
Definition is_digit (b : Z) : bool := in_range 48 b 57.

(** [strconv.Atoi]: an optional sign and decimal digits, in the range of an
    int; [None] for an error. *)
Definition Atoi (s : string) : option Z :=
  let '(neg, ds) := match bytes s with
                    | 45 :: ds => (true, ds)
                    | 43 :: ds => (false, ds)
                    | ds => (false, ds)
                    end in
  if bool_decide (ds = []) || negb (forallb is_digit ds) then None
  else
    let v := foldl (λ v b, v * 10 + (b - 48)) 0 ds in
    let v := if neg : bool then - v else v in
    if (- 2 ^ 63 <=? v) && (v <=? MaxInt64) then Some v else None.

(** [strconv.ParseBool]. *)
Definition ParseBool (s : string) : option bool :=
  if bool_decide (s ∈ ["1"; "t"; "T"; "true"; "TRUE"; "True"]) then Some true
  else if bool_decide (s ∈ ["0"; "f"; "F"; "false"; "FALSE"; "False"]) then Some false
  else None.

(** ** Durations *)

(** [leadingInt]: the digits at the front, [None] above 2^63. *)
Fixpoint leadingInt (x : Z) (s : list Z) : option (Z * list Z) :=
  match s with
  | c :: s' =>
      if negb (is_digit c) then Some (x, s)
      else if 2 ^ 63 / 10 <? x then None
      else
        let x := x * 10 + (c - 48) in
        if 2 ^ 63 <? x then None else leadingInt x s'
  | [] => Some (x, [])
  end.

(** [leadingFraction]: digits after the point; those that would overflow are
    skipped.  [scale] is the power of ten of the digits kept. *)
Fixpoint leadingFraction (x : Z) (scale : float64) (overflow : bool) (s : list Z) : Z * float64 * list Z :=
  match s with
  | c :: s' =>
      if negb (is_digit c) then (x, scale, s)
      else if overflow then leadingFraction x scale true s'
      else if (2 ^ 63 - 1) / 10 <? x then leadingFraction x scale true s'
      else
        let y := x * 10 + (c - 48) in
        if 2 ^ 63 <? y then leadingFraction x scale true s'
        else leadingFraction y (fmul scale (float_of_Z 10 0)) false s'
  | [] => (x, scale, [])
  end.

(** The unit at the front: everything up to a digit or a point. *)
Fixpoint take_unit (s : list Z) : list Z * list Z :=
  match s with
  | c :: s' => if (c =? 46) || is_digit c then ([], s)
               else let '(u, r) := take_unit s' in (c :: u, r)
  | [] => ([], [])
  end.

(** [unitMap]; the two spellings of the microsecond with a Greek mu (U+00B5
    and U+03BC) are given by their bytes. *)
Definition unitMap (u : list Z) : option Z :=
  if bool_decide (u = bytes "ns") then Some 1
  else if bool_decide (u = bytes "us") || bool_decide (u = [0xC2; 0xB5; 115])
          || bool_decide (u = [0xCE; 0xBC; 115]) then Some Microsecond
  else if bool_decide (u = bytes "ms") then Some Millisecond
  else if bool_decide (u = bytes "s") then Some Second
  else if bool_decide (u = bytes "m") then Some (60 * Second)
  else if bool_decide (u = bytes "h") then Some (3600 * Second)
  else None.

(** [uint64(x)] of a non-negative finite float. *)
Definition trunc (x : float64) : Z :=
  match x with
  | S754_finite false m e => if 0 <=? e then Z.pos m * 2 ^ e else Z.pos m / 2 ^ (- e)
  | _ => 0
  end.

(** The optional point and fraction: the digits, their scale, the rest, and
    whether there was a digit. *)
Definition parse_fraction (s : list Z) : Z * float64 * list Z * bool :=
  match s with
  | 46 :: s' => let '(f, scale, r) := leadingFraction 0 fone false s' in
                (f, scale, r, negb (Nat.eqb (length s') (length r)))
  | _ => (0, fone, s, false)
  end.

(** One number with its unit: its value and the rest of the input. *)
Definition parse_element (s : list Z) : option (Z * list Z) :=
  match s with
  | [] => None
  | c :: _ =>
      if negb ((c =? 46) || is_digit c) then None
      else
        '(v, s1) ← leadingInt 0 s;
        let pre := negb (Nat.eqb (length s) (length s1)) in
        let '(f, scale, s2, post) := parse_fraction s1 in
        if negb pre && negb post then None
        else
          let '(u, s3) := take_unit s2 in
          if bool_decide (u = []) then None
          else
            unit ← unitMap u;
            if 2 ^ 63 / unit <? v then None
            else
              let v := v * unit in
              let v := if 0 <? f
                       then wrap64 (v + trunc (fmul (float_of_Z f 0) (fdiv (float_of_Z unit 0) scale)))
                       else v in
              if (0 <? f) && (2 ^ 63 <? v) then None else Some (v, s3)
  end.

(** The loop over the elements; every turn consumes input, so the length of
    the input is enough fuel. *)
Fixpoint parse_elements (fuel : nat) (d : Z) (s : list Z) : option Z :=
  match s with
  | [] => Some d
  | _ =>
      match fuel with
      | O => None
      | S fuel =>
          '(v, s') ← parse_element s;
          let d := wrap64 (d + v) in
          if 2 ^ 63 <? d then None else parse_elements fuel d s'
      end
  end.

(** [time.ParseDuration]; [None] for an error. *)
Definition ParseDuration (s : string) : option Z :=
  let '(neg, l) := match bytes s with
                   | 45 :: l => (true, l)
                   | 43 :: l => (false, l)
                   | l => (false, l)
                   end in
  if bool_decide (l = [48]) then Some 0
  else if bool_decide (l = []) then None
  else
    d ← parse_elements (length l) 0 l;
    if neg : bool then Some (- d)
    else if 2 ^ 63 - 1 <? d then None else Some d.

(** ** The helpers of the stream processor *)

Section env.
Context `{Env}.

Definition envOr (key fallback : string) : string :=
  let value := TrimSpace (Getenv key) in
  if bool_decide (value ≠ "") then value else fallback.

Definition envDuration (key : string) (fallback : Z) : Z :=
  match ParseDuration (Getenv key) with
  | Some value => if 0 <? value then value else fallback
  | None => fallback
  end.

Definition envPositiveInt (key : string) (fallback : Z) : Z :=
  match Atoi (TrimSpace (Getenv key)) with
  | Some value => if value <? 1 then fallback else value
  | None => fallback
  end.

Definition envBool (key : string) : bool :=
  match ParseBool (TrimSpace (Getenv key)) with
  | Some value => value
  | None => false
  end.
End env.

(** ** Lemmas *)

Example ParseDuration_samples :
  ParseDuration "1.5h" = Some (5400 * Second) ∧ ParseDuration "-1m30s" = Some (- (90 * Second)) ∧
  ParseDuration ".5ms" = Some 500000 ∧ ParseDuration "5" = None ∧ ParseDuration "+0" = Some 0 ∧
  ParseDuration "9223372036854775807ns" = Some MaxInt64 ∧ ParseDuration "9223372036854775808ns" = None.
Proof. vm_compute. done. Qed.

(** The fuel of [ParseDuration] is enough: every element consumes input. *)
Lemma leadingInt_rest x s v r : leadingInt x s = Some (v, r) → (length r <= length s)%nat.
Proof.
  revert x. induction s as [|c s IH]; intros x; simpl; [by intros [= <- <-]|].
  repeat case_if; intros Hl; simplify_eq; simpl; try done. apply IH in Hl. lia.
Qed.
Lemma leadingFraction_rest s x scale o f sc r :
  leadingFraction x scale o s = (f, sc, r) → (length r <= length s)%nat.
Proof.
  revert x scale o. induction s as [|c s IH]; intros x scale o; simpl; [by intros [= <- <- <-]|].
  repeat case_if; intros Hl; simplify_eq; simpl; try done; apply IH in Hl; lia.
Qed.
Lemma parse_fraction_rest s f scale r post : parse_fraction s = (f, scale, r, post) → (length r <= length s)%nat.
Proof.
  unfold parse_fraction. repeat case_match; intros; simplify_eq; try done.
  match goal with H : leadingFraction _ _ _ _ = _ |- _ => apply leadingFraction_rest in H end. simpl. lia.
Qed.
Lemma take_unit_rest s u r : take_unit s = (u, r) → u ≠ [] → (length r < length s)%nat.
Proof.
  intros Hs Hu. assert (length s = length u + length r)%nat; [|destruct u; [done|simpl in *; lia]].
  clear Hu. revert u Hs. induction s as [|c s IH]; intros u; simpl; [by intros [= <- <-]|].
  case_if; [by intros [= <- <-]|]. destruct (take_unit s) as [u' r']. intros [= <- ->]. simpl. by rewrite (IH u').
Qed.

Lemma parse_element_rest s v r : parse_element s = Some (v, r) → (length r < length s)%nat.
Proof.
  destruct s as [|c0 s0]; [done|]. unfold parse_element. set (s := c0 :: s0). case_if; [done|].
  destruct (leadingInt 0 s) as [[v1 s1]|] eqn:Hi; [|done]. apply leadingInt_rest in Hi. cbn [mbind option_bind].
  destruct (parse_fraction s1) as [[[f scale] s2] post] eqn:E. apply parse_fraction_rest in E.
  case_if; [done|]. destruct (take_unit s2) as [u s3] eqn:Hu.
  case_if; [done|]. bool_to_prop. apply take_unit_rest in Hu; [|done].
  destruct (unitMap u) as [unit|]; [|done]. cbn [mbind option_bind].
  repeat case_if; intros [= <- <-]; lia.
Qed.

Lemma parse_elements_fuel fuel s d :
  (length s <= fuel)%nat → parse_elements fuel d s = parse_elements (length s) d s.
Proof.
  revert fuel d. induction s as [s IH] using (induction_ltof1 _ (@length Z)). intros [|fuel] d Hf.
  { destruct s; [done|simpl in Hf; lia]. }
  destruct s as [|c s]; [done|]. cbn [parse_elements length].
  destruct (parse_element (c :: s)) as [[v s']|] eqn:E; [|done]. cbn [mbind option_bind].
  case_if; [done|]. apply parse_element_rest in E. simpl in E, Hf.
  rewrite (IH s'), (IH s' ltac:(done) (length s)); try done; try lia; unfold ltof; simpl; lia.
Qed.

Lemma envPositiveInt_pos `{Env} key fallback : 1 <= fallback → 1 <= envPositiveInt key fallback.
Proof. intros Hf. unfold envPositiveInt. destruct (Atoi _); [case_if; bool_to_prop; lia|done]. Qed.
Lemma envDuration_pos `{Env} key fallback : 0 < fallback → 0 < envDuration key fallback.
Proof. intros Hf. unfold envDuration. destruct (ParseDuration _); [case_if; bool_to_prop; lia|done]. Qed.

(** [strconv.Atoi] undoes [strconv.Itoa]. *)
Definition decimal_value (ds : list Z) (acc : Z) : Z := foldl (λ v b, v * 10 + (b - 48)) acc ds.

Lemma decimal_uint_acc d acc :
  decimal_value (bytes (DecimalString.NilEmpty.string_of_uint d)) (Z.pos acc) = Z.pos (Pos.of_uint_acc d acc).
Proof.
  unfold decimal_value. revert acc. induction d; intros acc; [done|..];
    cbn [DecimalString.NilEmpty.string_of_uint]; unfold bytes in *; cbn [String.list_ascii_of_string];
    rewrite fmap_cons; cbn [foldl Pos.of_uint_acc]; rewrite <- IHd; f_equal; unfold byte_val; simpl; lia.
Qed.

Lemma decimal_uint d : decimal_value (bytes (DecimalString.NilEmpty.string_of_uint d)) 0 = Z.of_N (Pos.of_uint d).
Proof.
  induction d; [done|exact IHd|..];
    cbn [Pos.of_uint Z.of_N]; rewrite <- decimal_uint_acc; reflexivity.
Qed.

Lemma decimal_digits d : forallb is_digit (bytes (DecimalString.NilEmpty.string_of_uint d)) = true.
Proof. by induction d. Qed.

Lemma pos_to_uint p : Pos.to_uint p ≠ Decimal.Nil ∧ DecimalString.NilZero.string_of_uint (Pos.to_uint p) = DecimalString.NilEmpty.string_of_uint (Pos.to_uint p).
Proof.
  assert (Pos.to_uint p ≠ Decimal.Nil) as Hn by apply DecimalPos.Unsigned.to_uint_nonnil.
  split; [done|]. by destruct (Pos.to_uint p).
Qed.

Lemma digits_head d : d ≠ Decimal.Nil → ∃ b l, bytes (DecimalString.NilEmpty.string_of_uint d) = b :: l ∧ 48 <= b <= 57.
Proof. intros Hd. destruct d; [done|..]; do 2 eexists; (split; [reflexivity|]); unfold byte_val; simpl; lia. Qed.

Lemma Atoi_Itoa z : - 2 ^ 63 <= z <= MaxInt64 → Atoi (Itoa z) = Some z.
Proof.
  intros Hz.
  assert (∀ p, decimal_value (bytes (DecimalString.NilEmpty.string_of_uint (Pos.to_uint p))) 0 = Z.pos p) as Hv.
  { intros p. by rewrite decimal_uint, DecimalPos.Unsigned.of_to. }
  unfold Atoi, Itoa. destruct z as [|p|p]; [vm_compute; done|..]; cbn [Z.to_int DecimalString.NilZero.string_of_int]; destruct (pos_to_uint p) as [Hn E].
  - rewrite E. destruct (digits_head _ Hn) as (b & l & Eb & Hb). rewrite Eb.
    replace (match b :: l with 45 :: ds => (true, ds) | 43 :: ds => (false, ds) | ds => (false, ds) end) with (false, b :: l).
    2:{ repeat case_match; simplify_eq; try done; lia. }
    rewrite <- Eb. rewrite decimal_digits, bool_decide_eq_false_2 by (rewrite Eb; done). simpl.
    fold (decimal_value (bytes (DecimalString.NilEmpty.string_of_uint (Pos.to_uint p))) 0). rewrite Hv.
    rewrite (proj2 (Z.leb_le _ _)), (proj2 (Z.leb_le _ _)) by lia. done.
  - rewrite E. set (x := DecimalString.NilEmpty.string_of_uint (Pos.to_uint p)) in *.
    change (bytes (String.String "-" x)) with (45 :: bytes x). subst x.
    destruct (digits_head _ Hn) as (b & l & Eb & Hb).
    rewrite decimal_digits, bool_decide_eq_false_2 by (rewrite Eb; done). simpl.
    fold (decimal_value (bytes (DecimalString.NilEmpty.string_of_uint (Pos.to_uint p))) 0). rewrite Hv. simpl.
    rewrite (proj2 (Z.leb_le _ _)), (proj2 (Z.leb_le _ _)) by lia. done.
Qed.
