(* ===== verification/GoTLS.v ===== *)
(** * Package [crypto/tls]: what the services configure of it

    Reading certificate files and parsing them is the operating system's and
    the x509 package's: [TLSFiles] holds the calls, as parameters. *)

From Stdlib Require Import ZArith.
From stdpp Require Import prelude strings.
From S2P Require Import Prelude.

#[local] Open Scope Z_scope.

Class TLSFiles := {
  CertPool : Type;
  Certificate : Type;
  (** [os.ReadFile], [NewCertPool] followed by [AppendCertsFromPEM] ([None]
      when it reports false) and [tls.LoadX509KeyPair]. *)
  ReadFile : string → result string;
  AppendCertsFromPEM : string → option CertPool;
  LoadX509KeyPair : string → string → result Certificate;
}.

Definition VersionTLS13 : Z := 0x0304.

Record tls_Config `{TLSFiles} := mkTLS {
  MinVersion : Z;
  RootCAs : option CertPool;
  ServerName : string;
  Certificates : list Certificate;
}.

(** [fmt.Errorf("msg: %w", err)] on the error path of a call. *)
Definition wrap_err {A} (msg : string) (r : result A) : result A :=
  match r with Ok a => Ok a | Err e => Err (Wrap msg e) end.
