(* ===== verification/GoNet.v ===== *)
(** * Packages [net] and [net/http]

    [net.SplitHostPort], the servers the three commands configure, and the
    readiness probe the images of the gateway and the worker run as their
    health check. *)

From Stdlib Require Import ZArith Lia.
From stdpp Require Import prelude strings list.
From S2P Require Import Prelude GoString GoContext GoTLS.

#[local] Open Scope Z_scope.
#[local] Open Scope go_scope.

(** Position of the first byte [b], as [bytealg.IndexByteString]; of the last. *)
Fixpoint IndexByte (b : Z) (l : list Z) : option nat :=
  match l with
  | [] => None
  | c :: l => if c =? b then Some 0%nat else S <$> IndexByte b l
  end.
Definition LastIndexByte (b : Z) (l : list Z) : option nat :=
  (λ i, length l - 1 - i)%nat <$> IndexByte b (reverse l).

Definition addr_error (msg : string) : error := Fresh msg.

(** [net.SplitHostPort]: the host and the port of [host:port], [[host]:port]
    with brackets around an IPv6 address. *)
Definition SplitHostPort (hostport : string) : result (string * string) :=
  let l := bytes hostport in
  match LastIndexByte 58 l with
  | None => Err (addr_error "missing port in address")
  | Some i =>
      let finish (host : list Z) (j k : nat) :=
        if bool_decide (IndexByte 91 (drop j l) ≠ None) then Err (addr_error "unexpected '[' in address")
        else if bool_decide (IndexByte 93 (drop k l) ≠ None) then Err (addr_error "unexpected ']' in address")
        else Ok (of_bytes host, of_bytes (drop (S i) l)) in
      if bool_decide (l !! 0%nat = Some 91) then
        match IndexByte 93 l with
        | None => Err (addr_error "missing ']' in address")
        | Some e =>
            if Nat.eqb (S e) (length l) then Err (addr_error "missing port in address")
            else if Nat.eqb (S e) i then finish (take (e - 1) (drop 1 l)) 1%nat (S e)
            else if bool_decide (l !! S e = Some 58) then Err (addr_error "too many colons in address")
            else Err (addr_error "missing port in address")
        end
      else
        let host := take i l in
        if bool_decide (IndexByte 58 host ≠ None) then Err (addr_error "too many colons in address")
        else finish host 0%nat 0%nat
  end.

Example SplitHostPort_samples :
  SplitHostPort ":8080" = Ok ("", "8080") ∧ SplitHostPort "[::1]:9091" = Ok ("::1", "9091") ∧
  SplitHostPort "localhost" = Err (addr_error "missing port in address") ∧
  SplitHostPort "a:b:1" = Err (addr_error "too many colons in address") ∧
  SplitHostPort "host:" = Ok ("host", "").
Proof. vm_compute. done. Qed.

(** ** Servers *)

(** The [http.Server] the endpoints of a command run on. *)
Record http_Server := mkHTTPServer {
  server_Addr : string;
  server_MinVersion : Z;
  ReadHeaderTimeout : Z;
  server_ReadTimeout : Z;
  server_WriteTimeout : Z;
  server_IdleTimeout : Z;
  MaxHeaderBytes : Z;
}.

(** The literal of all three commands, up to the address. *)
Definition operational_server (address : string) : http_Server :=
  mkHTTPServer address VersionTLS13 (2 * Second) (5 * Second) (5 * Second) (30 * Second) (16 * 1024).

(** [ListenAndServe] or [ListenAndServeTLS] with a certificate and a key file. *)
Inductive listener := Plaintext | WithTLS (certFile keyFile : string).

(** The select at the end of [main] of the gateway and of the worker: a signal
    or a server that stopped; the process exits with status 1 unless it was
    a signal. *)
Inductive serve_event := Signalled | ServeFailed (err : error).
Definition exit_status (e : serve_event) : Z := match e with Signalled => 0 | ServeFailed _ => 1 end.

(** ** The readiness probe *)

Section probe.
Context `{TLSFiles}.
(** [client.Get] with a client timeout and, for https, a TLS configuration:
    the status code and the status line. *)
Context (client_Get : Z → option tls_Config → string → result (Z * string)).

(** [probeRoots]; [component] is "gateway" or "worker". *)
Definition probe_roots (component caFile : string) : result (option CertPool) :=
  let caFile := TrimSpace caFile in
  if bool_decide (caFile = "") then Ok None
  else
    let! pem := wrap_err ("read " ++ component ++ " healthcheck TLS CA") (ReadFile caFile) in
    match AppendCertsFromPEM pem with
    | None => Err (Fresh (component ++ " healthcheck TLS CA contains no certificates"))
    | Some roots => Ok (Some roots)
    end.

(** What both commands do with the address; [None] is success. *)
Definition probe_address (component address : string) (developmentInsecure : bool) (caFile serverName : string) :
    option error :=
  match SplitHostPort address with
  | Err _ => Some (Fresh "healthcheck address must include a port")
  | Ok (_, port) =>
      if bool_decide (port = "") then Some (Fresh "healthcheck address must include a port")
      else
        let transport : result (string * option tls_Config) :=
          if negb developmentInsecure then
            let! roots := probe_roots component caFile in
            Ok ("https", Some (mkTLS _ VersionTLS13 roots (TrimSpace serverName) []))
          else Ok ("http", None) in
        match transport with
        | Err err => Some err
        | Ok (scheme, tls) =>
            match client_Get (500 * Millisecond) tls (scheme ++ "://127.0.0.1:" ++ port ++ "/readyz") with
            | Err err => Some err
            | Ok (code, status) =>
                if negb (code =? 200) then Some (Fresh ("readiness returned " ++ status)) else None
            end
        end
  end.
End probe.
