(* ===== verification/Ingestion.v ===== *)
(** * Package [ingestion]: events and the in-memory consumer

    [stream_processor/ingestion/ingestion.go], lines 22-76.  The Kafka
    consumer of the same source file is in [Kafka.v].

    A [time.Time] is the number of nanoseconds since the zero [Time]
    (January 1, year 1, UTC), so the zero value is [0]; a [time.Duration] is
    its number of nanoseconds. *)

From Stdlib Require Import ZArith Lia SpecFloat.
From stdpp Require Import prelude strings list.
From S2P Require Import Prelude GoFloat GoString.

#[local] Open Scope Z_scope.

Record Event := mkEvent {
  ID : string;
  EntityID : string;
  Amount : float64;
  OccurredAt : Z;
  Partition : Z;
  Offset : Z;
}.

(** The struct comparison [==]: field by field, floats by IEEE equality. *)
Definition event_eqb (a b : Event) : bool :=
  bool_decide (ID a = ID b) && bool_decide (EntityID a = EntityID b)
  && feq (Amount a) (Amount b) && (OccurredAt a =? OccurredAt b)
  && (Partition a =? Partition b) && (Offset a =? Offset b).

Module MemoryConsumer.

(** The mutex-protected fields of [MemoryConsumer]. *)
Record t := mk { events : list Event; closed : bool }.

Definition NewMemory (evs : list Event) : t := mk evs false.

Definition Close (m : t) : t := mk (events m) true.

Section consume.
(** [W] is the state the handler works on; [handle] is the callback and
    [ctx_err] what [ctx.Err()] returns in a given state. *)
Context {W : Type} (ctx_err : W → option error) (handle : Event → W → W * option error).

(** How one turn of the loop of [Consume] ends. *)
Inductive turn := Return (err : option error) | Again.

(** One turn: look at the head of the queue, run the handler on it, and
    remove it only after the handler succeeded. *)
Definition consume_turn (m : t) (w : W) : t * W * turn :=
  if closed m then (m, w, Return (Some (Fresh "consumer closed")))
  else
    match events m with
    | [] => (m, w, Return None)
    | e :: rest =>
        match ctx_err w with
        | Some err => (m, w, Return (Some err))
        | None =>
            let '(w', herr) := handle e w in
            match herr with
            | Some err => (m, w', Return (Some err))
            | None => ((if event_eqb e e then mk rest (closed m) else m), w', Again)
            end
        end
    end.

(** [Consume]: [None] when [fuel] turns did not make it return. *)
Fixpoint Consume (fuel : nat) (m : t) (w : W) : t * W * option (option error) :=
  match fuel with
  | O => (m, w, None)
  | S fuel =>
      let '(m', w', r) := consume_turn m w in
      match r with
      | Return err => (m', w', Some err)
      | Again => Consume fuel m' w'
      end
  end.

(** The reference: apply the handler to the queued events in order until
    one fails or the context ends; the events not yet handled stay. *)
Fixpoint deliver (evs : list Event) (w : W) : list Event * W * option error :=
  match evs with
  | [] => ([], w, None)
  | e :: rest =>
      match ctx_err w with
      | Some err => (evs, w, Some err)
      | None =>
          let '(w', herr) := handle e w in
          match herr with
          | Some err => (evs, w', Some err)
          | None => deliver rest w'
          end
      end
  end.

Lemma event_eqb_refl e : IsNaN (Amount e) = false → event_eqb e e = true.
Proof.
  intros Hn. unfold event_eqb. rewrite !bool_decide_eq_true_2, !Z.eqb_refl by done.
  simpl. rewrite !andb_true_r.
  pose proof (fle_refl _ Hn) as Hle. unfold feq, fle, SFeqb, SFleb in *.
  destruct (Amount e) as [[]|[]| |[] m x]; try done; simpl in *;
    rewrite Z.compare_refl; change (Pos.compare_cont Eq m m) with (m ?= m)%positive;
    by rewrite Pos.compare_refl.
Qed.

(** [Consume] returns after at most one turn per queued event and one more,
    provided no queued amount is a NaN or the handler rejects such events. *)
Lemma Consume_deliver m w fuel :
  closed m = false →
  (∀ e w, e ∈ events m → IsNaN (Amount e) = true → (handle e w).2 ≠ None) →
  (length (events m) < fuel)%nat →
  Consume fuel m w =
    let '(rest, w', err) := deliver (events m) w in (mk rest false, w', Some err).
Proof.
  revert m w. induction fuel as [|fuel IH]; intros [evs c] w Hc Hnan Hf; [simpl in Hf; lia|].
  simpl in *. unfold consume_turn. simpl. rewrite Hc.
  destruct evs as [|e rest]; [done|]. simpl.
  destruct (ctx_err w) as [err|]; [done|].
  pose proof (Hnan e w) as Hne.
  destruct (handle e w) as [w' [err|]]; [done|].
  rewrite event_eqb_refl.
  - rewrite IH; [done|done| |simpl in *; lia]. simpl. intros e' w0 He'. apply Hnan. by right.
  - destruct (IsNaN (Amount e)) eqn:E; [|done]. exfalso. apply Hne; [by left|done|done].
Qed.
End consume.
End MemoryConsumer.
