(* ===== verification/GoRedis.v ===== *)
(** * The go-redis client library: what the services configure of it *)

From Stdlib Require Import ZArith.
From stdpp Require Import prelude strings.
From S2P Require Import Prelude GoTLS.

#[local] Open Scope Z_scope.

(** [redis.Nil]: the key does not exist. *)
Definition redis_Nil : error := Sentinel "redis.Nil".

(** The [redis.Options] the client is created with. *)
Record Options `{TLSFiles} := mkOptions {
  opt_Addr : string;
  opt_Username : string;
  opt_Password : string;
  opt_TLSConfig : option tls_Config;
  opt_Protocol : Z;
  opt_DialTimeout : Z;
  opt_ReadTimeout : Z;
  opt_WriteTimeout : Z;
  opt_PoolSize : Z;
  opt_MinIdleConns : Z;
  opt_MaxRetries : Z;
  opt_DisableIdentity : bool;
}.
