(* ===== verification/Kafka.v ===== *)
(** * Package [ingestion]: the Kafka consumer

    [stream_processor/ingestion/ingestion.go], lines 78-455.  The kafka-go
    reader and writer, the event handler and the context are the environment
    of the consumer: each call is an argument of the model that acts on a
    world state [W].  Every program also returns the sequence of the calls it
    made, so that ordering (commit only after the record is settled) can be
    stated. *)

From Stdlib Require Import ZArith Lia SpecFloat.
From stdpp Require Import prelude strings list.
From S2P Require Import Prelude GoFloat GoString GoContext Ingestion.

#[local] Open Scope Z_scope.

(** ** Backoff *)

(** [for range n { if backoff >= time.Second/2 { return time.Second }; backoff *= 2 }];
    a range over a non-positive integer does nothing. *)
Fixpoint double_backoff (n : nat) (backoff : Z) : Z :=
  match n with
  | O => backoff
  | S n => if Second / 2 <=? backoff then Second else double_backoff n (backoff * 2)
  end.

Definition boundedBackoff (base attempts : Z) : Z :=
  double_backoff (Z.to_nat (attempts - 1)) base.

(** The duration [waitBackoff] arms its timer with. *)
Definition backoff_delay (base attempt : Z) : Z :=
  double_backoff (Z.to_nat (attempt - 1)) base.

(** ** Records *)

Record Message := mkMessage {
  msg_Topic : string;
  msg_Partition : Z;
  msg_Offset : Z;
  msg_Key : string;
  msg_Value : string;
  msg_Headers : list (string * string);
  msg_Time : Z;
}.

Record KafkaConsumer := mkConsumer {
  maxAttempts : Z;
  retryBackoff : Z;
  poisonPolicy : string;
  has_poisonHandler : bool;
  has_dlqWriter : bool;
  sourceTopic : string;
}.

(** [strings.Map] that drops C0 controls and DEL and re-encodes the rest
    ([utf8.RuneError] for an ill-formed byte), then a cut at [max] bytes. *)
Definition encode_rune (r : Z * list Z) : list Z :=
  if (fst r =? RuneError) && Nat.eqb (length (snd r)) 1 then [0xEF; 0xBF; 0xBD] else snd r.
Definition safeMetadata (value : string) (max : Z) : string :=
  let kept := filter (λ r : Z * list Z, ¬ (fst r < 0x20 ∨ fst r = 0x7F)) (runes (bytes value)) in
  let mapped := concat (encode_rune <$> kept) in
  if max <? Z.of_nat (length mapped) then of_bytes (take (Z.to_nat max) mapped) else of_bytes mapped.

(** The calls the consumer makes. *)
Inductive action :=
| AFetch (r : result Message)
| ADecode (m : Message) (err : error)
| AHandle (m : Message) (ev : Event) (err : option error)
| APoison (m : Message) (last : error) (err : option error)
| ADLQ (m : Message) (dlq : Message) (err : option error)
| ACommit (m : Message) (err : option error)
| AWait (d : Z) (err : option error).

Section consumer.
Context {W : Type}.
Context (FetchMessage : W → W * result Message).
Context (CommitMessages : Message → W → W * option error).
Context (WriteMessages : Message → W → W * option error).
Context (poisonHandler : string → error → W → W * option error).
(** [ctx.Err()], and the select between a timer and [ctx.Done()]: the error
    of the context if that case was taken. *)
Context (ctx_Err : W → option error).
Context (timer_or_done : Z → W → W * option error).
(** [json.Unmarshal] into an [Event] and [Time.UTC().Format(time.RFC3339Nano)]. *)
Context (unmarshal : string → result Event).
Context (format_time : Z → string).

Definition prog (A : Type) : Type := W → A * list action * W.
#[export] Instance prog_ret : MRet prog := λ A a w, (a, [], w).
#[export] Instance prog_bind : MBind prog := λ A B f m w,
  let '(a, t, w') := m w in
  let '(b, t', w'') := f a w' in (b, t ++ t', w'').

(** A call to the environment, recorded. *)
Definition call {A} (f : W → W * A) (act : A → action) : prog A := λ w,
  let '(w', a) := f w in (a, [act a], w').
Definition observe {A} (f : W → A) : prog A := λ w, (f w, [], w).

Context (k : KafkaConsumer).

Definition waitBackoff (attempt : Z) : prog (option error) :=
  let d := backoff_delay (retryBackoff k) attempt in call (timer_or_done d) (AWait d).

(** [fmt.Errorf("... after %d attempts: %w", k.maxAttempts, last)]. *)
Definition errorf (msg : string) (last : option error) : error :=
  let msg := (msg ++ " after " ++ Itoa (maxAttempts k) ++ " attempts")%string in
  match last with Some e => Wrap msg e | None => Fresh msg end.

(** The body shared by the retry loops after a failed attempt: give up on a
    dead context, wait unless this was the last attempt, go on. *)
Definition retry {A} (attempt : Z) (giveup : error → A) (next : prog A) : prog A :=
  if attempt <? maxAttempts k then
    w ← waitBackoff attempt;
    match w with Some e => mret (giveup e) | None => next end
  else next.

(** [todo] is the number of turns left of [for attempt := 1; attempt <= maxAttempts; attempt++]. *)
Fixpoint fetch_from (todo : nat) (attempt : Z) (last : option error) : prog (result Message) :=
  match todo with
  | O => mret (Err (errorf "fetch Kafka message" last))
  | S todo =>
      r ← call FetchMessage AFetch;
      match r with
      | Ok m => mret (Ok m)
      | Err err =>
          c ← observe ctx_Err;
          match c with
          | Some e => mret (Err e)
          | None => retry attempt Err (fetch_from todo (attempt + 1) (Some err))
          end
      end
  end.
Definition fetch : prog (result Message) := fetch_from (Z.to_nat (maxAttempts k)) 1 None.

Fixpoint commit_from (m : Message) (todo : nat) (attempt : Z) (last : option error) :
    prog (option error) :=
  match todo with
  | O => mret (Some (errorf "commit Kafka message" last))
  | S todo =>
      r ← call (CommitMessages m) (ACommit m);
      match r with
      | None => mret None
      | Some err =>
          c ← observe ctx_Err;
          match c with
          | Some e => mret (Some e)
          | None => retry attempt Some (commit_from m todo (attempt + 1) (Some err))
          end
      end
  end.
Definition commit (m : Message) : prog (option error) :=
  commit_from m (Z.to_nat (maxAttempts k)) 1 None.

(** The dead-letter record: key and value of the source, fixed headers. *)
Definition dlq_message (source : Message) : Message :=
  let topic := if bool_decide (msg_Topic source = "") then sourceTopic k else msg_Topic source in
  let timestamp := if msg_Time source =? 0 then "" else format_time (msg_Time source) in
  mkMessage "" 0 0 (msg_Key source) (msg_Value source)
    [("x-dfd-source-topic", safeMetadata topic 249);
     ("x-dfd-source-partition", Itoa (msg_Partition source));
     ("x-dfd-source-offset", Itoa (msg_Offset source));
     ("x-dfd-source-timestamp", timestamp);
     ("x-dfd-dlq-reason", "retry-exhausted")] 0.

Definition writeDLQ (source : Message) : prog (option error) :=
  if negb (has_dlqWriter k) then mret (Some (Fresh "Kafka DLQ writer is not configured"))
  else
    r ← call (WriteMessages (dlq_message source)) (ADLQ source (dlq_message source));
    match r with
    | Some err => mret (Some (Wrap "write Kafka DLQ record" err))
    | None => mret None
    end.

Section handler.
Context (handle : Event → W → W * option error).

(** One attempt: decode, take partition and offset from the record, handle. *)
Definition process_once (m : Message) : prog (option error) :=
  match unmarshal (msg_Value m) with
  | Err err => λ w, (Some err, [ADecode m err], w)
  | Ok ev =>
      let ev := mkEvent (ID ev) (EntityID ev) (Amount ev) (OccurredAt ev)
                  (msg_Partition m) (msg_Offset m) in
      call (handle ev) (AHandle m ev)
  end.

(** What happens when every attempt failed. *)
Definition settle_poison (m : Message) (last : option error) : prog (option error) :=
  if bool_decide (poisonPolicy k = "dlq") then
    if has_poisonHandler k then
      let last := default (Fresh "nil") last in
      call (poisonHandler (msg_Value m) last) (APoison m last)
    else writeDLQ m
  else mret (Some (PoisonError (msg_Partition m) (msg_Offset m) (default (Fresh "nil") last))).

Fixpoint process_from (m : Message) (todo : nat) (attempt : Z) (last : option error) :
    prog (option error) :=
  match todo with
  | O => settle_poison m last
  | S todo =>
      r ← process_once m;
      match r with
      | None => mret None
      | Some err => retry attempt Some (process_from m todo (attempt + 1) (Some err))
      end
  end.
Definition process (m : Message) : prog (option error) :=
  process_from m (Z.to_nat (maxAttempts k)) 1 None.

(** One turn of the loop of [Consume]: the error it returns with, if any. *)
Definition consume_turn : prog (option error) :=
  r ← fetch;
  match r with
  | Err e => mret (Some e)
  | Ok m =>
      p ← process m;
      match p with
      | Some e => mret (Some e)
      | None => commit m
      end
  end.

(** [turns] turns of the infinite loop; [None] while it is still running. *)
Fixpoint consume_loop (turns : nat) : prog (option error) :=
  match turns with
  | O => mret None
  | S turns =>
      r ← consume_turn;
      match r with
      | Some e => mret (Some e)
      | None => consume_loop turns
      end
  end.
End handler.

(** [Consume] with a possibly nil handler. *)
Definition Consume (handle : option (Event → W → W * option error)) (turns : nat) :
    prog (option error) :=
  match handle with
  | None => mret (Some (Fresh "event handler is required"))
  | Some h => consume_loop h turns
  end.
End consumer.
