(* ===== verification/KafkaConfig.v ===== *)
(** * Package [ingestion]: configuration and security of the Kafka consumer

    [stream_processor/ingestion/ingestion.go], lines 78-265 and 443-455.
    kafka-go's reader and writer are described by the parameters they are
    created with; certificate files and SCRAM are parameters. *)

From Stdlib Require Import ZArith Lia.
From stdpp Require Import prelude strings list.
From S2P Require Import Prelude GoString GoContext GoTLS Kafka.

#[local] Open Scope Z_scope.
#[local] Open Scope go_scope.

Record KafkaConfig := mkKafkaConfig {
  Brokers : list string;
  Topic : string;
  GroupID : string;
  MaxAttempts : Z;
  RetryBackoff : Z;
  PoisonPolicy : string;
  DevelopmentInsecure : bool;
  TLSCAFile : string;
  TLSServerName : string;
  TLSClientCertFile : string;
  TLSClientKeyFile : string;
  SASLUsername : string;
  SASLPassword : string;
  DLQTopic : string;
  has_PoisonHandler : bool;
}.

(** [scram.Mechanism(scram.SHA512, username, password)]. *)
Class Scram := {
  Mechanism : Type;
  scram_SHA512 : string → string → result Mechanism;
}.

Section config.
Context `{TLSFiles} `{Scram}.

(** The fields of [kafka.Dialer] that are set; the others are zero. *)
Record Dialer := mkDialer {
  dialer_Timeout : Z;
  dialer_KeepAlive : Z;
  dialer_TLS : option tls_Config;
  dialer_SASL : option Mechanism;
}.

Record Transport := mkTransport {
  net_Timeout : Z;
  net_KeepAlive : Z;
  DialTimeout : Z;
  IdleTimeout : Z;
  transport_TLS : option tls_Config;
  transport_SASL : option Mechanism;
}.

Record ReaderConfig := mkReader {
  reader_Brokers : list string;
  reader_Topic : string;
  reader_GroupID : string;
  reader_Dialer : Dialer;
  MinBytes : Z;
  MaxBytes : Z;
  CommitInterval : Z;
}.

Record Writer := mkWriter {
  writer_Addr : list string;
  writer_Topic : string;
  writer_Transport : Transport;
  RequireAll : bool;
  Async : bool;
  BatchSize : Z;
  BatchTimeout : Z;
  writer_MaxAttempts : Z;
  WriteBackoffMin : Z;
  WriteBackoffMax : Z;
  ReadTimeout : Z;
  WriteTimeout : Z;
}.

(** The consumer with the clients it was built with. *)
Record consumer := mkFull {
  reader : ReaderConfig;
  dlqWriter : option Writer;
  settings : KafkaConsumer;
}.

Definition kafkaTLSConfig (config : KafkaConfig) : result tls_Config :=
  let serverName := TrimSpace (TLSServerName config) in
  let caFile := TrimSpace (TLSCAFile config) in
  let! roots :=
    if bool_decide (caFile ≠ "") then
      let! pem := wrap_err "read Kafka TLS CA" (ReadFile caFile) in
      match AppendCertsFromPEM pem with
      | None => Err (Fresh "Kafka TLS CA contains no certificates")
      | Some pool => Ok (Some pool)
      end
    else Ok None in
  let certFile := TrimSpace (TLSClientCertFile config) in
  let! certs :=
    if bool_decide (certFile ≠ "") then
      let! c := wrap_err "load Kafka TLS client certificate"
                  (LoadX509KeyPair certFile (TrimSpace (TLSClientKeyFile config))) in
      Ok [c]
    else Ok [] in
  Ok (mkTLS _ VersionTLS13 roots serverName certs).

Definition newKafkaDialer (config : KafkaConfig) : result Dialer :=
  let caFile := TrimSpace (TLSCAFile config) in
  let serverName := TrimSpace (TLSServerName config) in
  let certFile := TrimSpace (TLSClientCertFile config) in
  let keyFile := TrimSpace (TLSClientKeyFile config) in
  let username := TrimSpace (SASLUsername config) in
  if negb (Bool.eqb (bool_decide (certFile = "")) (bool_decide (keyFile = "")))
  then Err (Fresh "Kafka TLS client certificate and key must be supplied together")
  else if negb (Bool.eqb (bool_decide (username = "")) (bool_decide (SASLPassword config = "")))
  then Err (Fresh "Kafka SASL username and password must be supplied together")
  else if DevelopmentInsecure config
          && (bool_decide (caFile ≠ "") || bool_decide (serverName ≠ "") || bool_decide (certFile ≠ ""))
  then Err (Fresh "Kafka TLS options cannot be combined with development-insecure plaintext")
  else if DevelopmentInsecure config && bool_decide (username ≠ "")
  then Err (Fresh "Kafka SASL credentials cannot be sent over development-insecure plaintext")
  else
    let! tls := if negb (DevelopmentInsecure config)
                then let! c := kafkaTLSConfig config in Ok (Some c)
                else Ok None in
    let! sasl := if bool_decide (username ≠ "")
                 then let! mech := wrap_err "configure Kafka SCRAM-SHA-512"
                                     (scram_SHA512 username (SASLPassword config)) in Ok (Some mech)
                 else Ok None in
    Ok (mkDialer (5 * Second) (30 * Second) tls sasl).

Definition kafkaTransport (dialer : Dialer) : Transport :=
  mkTransport (dialer_Timeout dialer) (dialer_KeepAlive dialer) (dialer_Timeout dialer) (30 * Second)
    (dialer_TLS dialer) (dialer_SASL dialer).

Definition NewKafka (config : KafkaConfig) : result consumer :=
  if bool_decide (Brokers config = []) || bool_decide (Topic config = "") || bool_decide (GroupID config = "")
  then Err (Fresh "kafka brokers, topic, and group ID are required")
  else
    let maxAttempts := if MaxAttempts config <=? 0 then 3 else MaxAttempts config in
    let retryBackoff := if RetryBackoff config <=? 0 then 50 * Millisecond else RetryBackoff config in
    let policy := if bool_decide (PoisonPolicy config = "") then "halt" else PoisonPolicy config in
    if bool_decide (policy ≠ "halt") && bool_decide (policy ≠ "dlq")
    then Err (Fresh "Kafka poison policy must be halt or dlq")
    else
      let builtin_dlq := bool_decide (policy = "dlq") && negb (has_PoisonHandler config) in
      let dlqTopic := if builtin_dlq then TrimSpace (DLQTopic config) else DLQTopic config in
      if builtin_dlq && bool_decide (dlqTopic = "")
      then Err (Fresh "Kafka dlq policy requires KAFKA_DLQ_TOPIC or a durable poison handler")
      else if builtin_dlq && bool_decide (dlqTopic = Topic config)
      then Err (Fresh "Kafka DLQ topic must differ from source topic")
      else
        let! dialer := newKafkaDialer config in
        let writer :=
          if builtin_dlq then
            Some (mkWriter (Brokers config) dlqTopic (kafkaTransport dialer) true false 1 0 maxAttempts
                    retryBackoff (boundedBackoff retryBackoff maxAttempts) (5 * Second) (5 * Second))
          else None in
        Ok (mkFull (mkReader (Brokers config) (Topic config) (GroupID config) dialer 1 10000000 0) writer
              (mkConsumer maxAttempts retryBackoff policy (has_PoisonHandler config)
                 builtin_dlq (Topic config))).

(** [errors.Join(a, b)]: nil when both are, and an error that wraps those
    that are not. *)
Definition errors_Join (a b : option error) : option error :=
  match a, b with
  | None, None => None
  | Some a, None | None, Some a => Some (Wrap "" a)
  | Some a, Some b => Some (Joined a b)
  end.

(** [Close] of a possibly nil consumer; the closers of reader and writer are
    parameters. *)
Definition Close (close_reader close_writer : option error) (k : option consumer) : option error :=
  match k with
  | None => None
  | Some k =>
      match dlqWriter k with
      | None => close_reader
      | Some _ => errors_Join close_reader close_writer
      end
  end.
End config.
