(* ===== verification/KafkaInv.v ===== *)
(** * Invariants of a running Kafka consumer

    A property of the calls made so far and of the world that every single
    call of the consumer keeps is kept by [Consume], however its loops and
    retries interleave them. *)

From Stdlib Require Import ZArith Lia.
From stdpp Require Import prelude strings list.
From S2P Require Import Prelude GoFloat GoContext Ingestion Kafka.

#[local] Open Scope Z_scope.

(** The event of a decoded record: partition and offset are the record's. *)
Definition event_at (m : Message) (ev : Event) : Event :=
  mkEvent (ID ev) (EntityID ev) (Amount ev) (OccurredAt ev) (msg_Partition m) (msg_Offset m).

Section keeps.
Context {W : Type} (I : list action → W → Prop).

Definition keeps {A} (m : @prog W A) : Prop :=
  ∀ t w, I t w → I (t ++ (m w).1.2) (m w).2.

Lemma keeps_ret {A} (a : A) : keeps (mret a).
Proof. intros t w H. simpl. by rewrite app_nil_r. Qed.

Lemma keeps_observe {A} (f : W → A) : keeps (observe f).
Proof. intros t w H. simpl. by rewrite app_nil_r. Qed.

Lemma keeps_bind {A B} (m : prog A) (f : A → prog B) :
  keeps m → (∀ a, keeps (f a)) → keeps (m ≫= f).
Proof.
  intros Hm Hf t w H. specialize (Hm t w H). unfold mbind, prog_bind.
  destruct (m w) as [[a t1] w1]. simpl in Hm. specialize (Hf a _ _ Hm).
  destruct (f a w1) as [[b t2] w2]. simpl in *. by rewrite app_assoc.
Qed.

(** A call keeps [I] when the action it records does. *)
Definition keeps_call {A} (f : W → W * A) (act : A → action) : Prop :=
  ∀ t w, I t w → I (t ++ [act (f w).2]) (f w).1.

Lemma keeps_of_call {A} (f : W → W * A) act : keeps_call f act → keeps (call f act).
Proof. intros H t w Hi. specialize (H t w Hi). unfold call. by destruct (f w). Qed.
End keeps.

#[export] Hint Resolve keeps_ret keeps_observe keeps_of_call : go.

Section consumer.
Context {W : Type} (I : list action → W → Prop).
Context (FetchMessage : W → W * result Message).
Context (CommitMessages WriteMessages : Message → W → W * option error).
Context (poisonHandler : string → error → W → W * option error).
Context (ctx_Err : W → option error) (timer_or_done : Z → W → W * option error).
Context (unmarshal : string → result Event) (format_time : Z → string).
Context (k : KafkaConsumer) (handle : Event → W → W * option error).

Context (Hfetch : keeps_call I FetchMessage AFetch).
Context (Hcommit : ∀ m, keeps_call I (CommitMessages m) (ACommit m)).
Context (Hwrite : ∀ m dlq, keeps_call I (WriteMessages dlq) (ADLQ m dlq)).
Context (Hpoison : ∀ m last, keeps_call I (poisonHandler (msg_Value m) last) (APoison m last)).
Context (Hwait : ∀ d, keeps_call I (timer_or_done d) (AWait d)).
Context (Hdecode : ∀ m e t w, I t w → I (t ++ [ADecode m e]) w).
Context (Hhandle : ∀ m ev, unmarshal (msg_Value m) = Ok ev →
           keeps_call I (handle (event_at m ev)) (AHandle m (event_at m ev))).

Hint Resolve Hfetch Hcommit Hwrite Hpoison Hwait : go.

Lemma keeps_retry {A} attempt (giveup : error → A) next :
  keeps I next → keeps I (retry timer_or_done k attempt giveup next).
Proof using Hwait.
  intros Hn. unfold retry, waitBackoff. case_if; [|done].
  apply keeps_bind; [auto with go|]. intros [e|]; auto with go.
Qed.

Lemma keeps_fetch todo attempt last :
  keeps I (fetch_from FetchMessage ctx_Err timer_or_done k todo attempt last).
Proof using Hfetch Hwait.
  revert attempt last. induction todo as [|todo IH]; intros attempt last; simpl; [auto with go|].
  apply keeps_bind; [auto with go|]. intros [m|err]; [auto with go|].
  apply keeps_bind; [auto with go|]. intros [e|]; [auto with go|]. by apply keeps_retry.
Qed.

Lemma keeps_commit m todo attempt last :
  keeps I (commit_from CommitMessages ctx_Err timer_or_done k m todo attempt last).
Proof using Hcommit Hwait.
  revert attempt last. induction todo as [|todo IH]; intros attempt last; simpl; [auto with go|].
  apply keeps_bind; [auto with go|]. intros [err|]; [|auto with go].
  apply keeps_bind; [auto with go|]. intros [e|]; [auto with go|]. by apply keeps_retry.
Qed.

Lemma keeps_settle m last : keeps I (settle_poison WriteMessages poisonHandler format_time k m last).
Proof using Hwrite Hpoison.
  unfold settle_poison, writeDLQ. repeat case_if; auto with go.
  apply keeps_bind; [auto with go|]. intros [e|]; auto with go.
Qed.

Lemma keeps_process m todo attempt last :
  keeps I (process_from WriteMessages poisonHandler timer_or_done unmarshal format_time k handle m todo attempt last).
Proof using Hwrite Hpoison Hwait Hdecode Hhandle.
  revert attempt last. induction todo as [|todo IH]; intros attempt last; simpl; [apply keeps_settle|].
  apply keeps_bind.
  - unfold process_once. destruct (unmarshal (msg_Value m)) as [ev|err] eqn:Hu.
    + by apply keeps_of_call, Hhandle.
    + intros t w Hi. by apply Hdecode.
  - intros [err|]; [by apply keeps_retry|auto with go].
Qed.

Lemma Consume_keeps turns :
  keeps I (Consume FetchMessage CommitMessages WriteMessages poisonHandler ctx_Err timer_or_done
             unmarshal format_time k (Some handle) turns).
Proof using All.
  simpl. induction turns as [|turns IH]; simpl; [auto with go|].
  apply keeps_bind; [|intros [e|]; auto with go]. unfold consume_turn, fetch, process, commit.
  apply keeps_bind; [apply keeps_fetch|]. intros [m|e]; [|auto with go].
  apply keeps_bind; [apply keeps_process|]. intros [e|]; [auto with go|]. apply keeps_commit.
Qed.
End consumer.
