(* ===== verification/Window.v ===== *)
(** * Package [aggregations]: the sliding-window aggregator

    [stream_processor/aggregations/window.go].  Every exported method runs
    under the mutex of [Window], so an operation is one state transformer;
    [prepareLocked] only reads the state and [commitLocked] only writes it. *)

From Stdlib Require Import ZArith Lia SpecFloat Sorting.Sorted.
From stdpp Require Import prelude gmap strings list.
From S2P Require Import Prelude GoFloat GoString GoSort GoContext Ingestion.

#[local] Open Scope Z_scope.

Record Features := mkFeatures {
  feat_EntityID : string;
  feat_EventCount : Z;
  feat_TotalAmount : float64;
  feat_MaxAmount : float64;
  feat_WindowEnd : Z;
}.

(** The zero value of [Features]. *)
Definition no_features : Features := mkFeatures "" 0 fzero fzero 0.

Definition ErrNumericRange : error := Sentinel "aggregation numeric range exceeded".
Definition ErrStateCapacity : error := Sentinel "aggregation state capacity exceeded".
Definition MaxTrackedPartitions : Z := 100000.

Record event := mkev { id : string; at_ : Z; amount : float64 }.

Record Window := mkWindow {
  Duration : Z;
  byEntity : gmap string (list event);
  seen : gset string;
  offsets : gmap Z Z;
  watermark : gmap string Z;
  lastActive : gmap string Z;
  eventCount : Z;
  maxEntities : Z;
  maxEvents : Z;
}.

Definition NewWithLimits (duration max_entities max_events : Z) : Window :=
  let duration := if duration <=? 0 then 5 * 60 * 1000000000 else duration in
  let max_entities := if max_entities <? 1 then 1 else max_entities in
  let max_events := if max_events <? 1 then 1 else max_events in
  mkWindow duration ∅ ∅ ∅ ∅ ∅ 0 max_entities max_events.

Definition New (duration : Z) : Window := NewWithLimits duration 100000 1000000.

(** Reading a Go map gives the zero value for an absent key. *)
Definition events_of (w : Window) (entity : string) : list event :=
  default [] (byEntity w !! entity).
Definition watermark_of (w : Window) (entity : string) : Z :=
  default 0 (watermark w !! entity).

Definition validEvent (ev : Event) : bool :=
  bool_decide (ID ev ≠ "") && (len (ID ev) <=? 256) && ValidString (ID ev)
  && no_rune IsControl (ID ev)
  && bool_decide (EntityID ev ≠ "") && (len (EntityID ev) <=? 256)
  && ValidString (EntityID ev) && bool_decide (TrimSpace (EntityID ev) = EntityID ev)
  && no_rune IsControl (EntityID ev)
  && fge (Amount ev) fzero && negb (IsNaN (Amount ev)) && negb (IsInf (Amount ev))
  && negb (OccurredAt ev =? 0)
  && (0 <=? Partition ev) && (Partition ev <? MaxTrackedPartitions) && (0 <=? Offset ev).

(** The comparison inside [oldestEntityLocked]: does the candidate replace
    the entity chosen so far? *)
Definition older (best : string * Z) (candidate : string * Z) : string * Z :=
  let '(entity, oldest) := best in
  let '(cand, active) := candidate in
  if bool_decide (entity = "") || (active <? oldest)
     || ((active =? oldest) && String.ltb cand entity)
  then (cand, active) else (entity, oldest).

(** The range loop over a map, whose iteration order Go leaves open: [order]
    is the sequence of entries of one iteration. *)
Definition oldest_in (order : list (string * Z)) : string :=
  fst (fold_left older order ("", 0)).

Definition oldestEntityLocked (w : Window) : string :=
  oldest_in (map_to_list (lastActive w)).

Record pendingUpdate := mkPending {
  accepted : bool;
  changed : bool;
  features : Features;
  events : list event;
  new_watermark : Z;
  expired : list string;
  evictEntity : string;
}.

Definition no_update : pendingUpdate := mkPending false false no_features [] 0 [] "".

(** The loop that sums the window: [ErrNumericRange] before a sum that the
    guard [total > MaxFloat64 - amount] considers too large. *)
Fixpoint accumulate (fs : Features) (evs : list event) : result Features :=
  match evs with
  | [] => Ok fs
  | item :: rest =>
      if fgt (feat_TotalAmount fs) (fsub MaxFloat64 (amount item)) then Err ErrNumericRange
      else
        accumulate
          (mkFeatures (feat_EntityID fs) (feat_EventCount fs)
             (fadd (feat_TotalAmount fs) (amount item))
             (if fgt (amount item) (feat_MaxAmount fs) then amount item else feat_MaxAmount fs)
             (feat_WindowEnd fs))
          rest
  end.

(** [sort.Search(len(current), func(i) { return !current[i].at.Before(cutoff) })]. *)
Definition first_live (current : list event) (cutoff : Z) : nat :=
  Search (fun i => match current !! i with
                   | Some e => negb (at_ e <? cutoff)
                   | None => true
                   end) (length current).

Definition before (a b : event) : bool := at_ a <? at_ b.

Definition prepareLocked (w : Window) (ev : Event) : result pendingUpdate :=
  if negb (validEvent ev) then Err (Fresh "invalid financial event")
  else if bool_decide (ID ev ∈ seen w) then Ok no_update
  else if match offsets w !! Partition ev with Some high => Offset ev <=? high | None => false end
  then Ok no_update
  else
    let evict :=
      if bool_decide (watermark w !! EntityID ev = None)
         && (maxEntities w <=? Z.of_nat (size (watermark w)))
      then oldestEntityLocked w else "" in
    let wm := if OccurredAt ev >? watermark_of w (EntityID ev)
              then OccurredAt ev else watermark_of w (EntityID ev) in
    let cutoff := wm + - Duration w in
    let current := events_of w (EntityID ev) in
    let first := first_live current cutoff in
    let expired := id <$> take first current in
    let live := drop first current in
    let changed := negb (OccurredAt ev <? cutoff) in
    let evs := if changed
               then SliceStable before (live ++ [mkev (ID ev) (OccurredAt ev) (Amount ev)])
               else live in
    let projected := eventCount w - Z.of_nat first
                     - (if bool_decide (evict ≠ "") then Z.of_nat (length (events_of w evict)) else 0)
                     + (if changed then 1 else 0) in
    if projected >? maxEvents w then Err ErrStateCapacity
    else
      match accumulate (mkFeatures (EntityID ev) (Z.of_nat (length evs)) fzero fzero wm) evs with
      | Err e => Err e
      | Ok fs =>
          Ok (mkPending true (changed || negb (Nat.eqb (length expired) 0)) fs evs wm expired evict)
      end.

(** Deleting ids from the deduplication set, one [delete] per id. *)
Definition forget (ids : list string) (s : gset string) : gset string :=
  foldl (fun s i => s ∖ {[ i ]}) s ids.

Definition evictEntityLocked (w : Window) (entity : string) : Window :=
  let evs := events_of w entity in
  mkWindow (Duration w) (delete entity (byEntity w)) (forget (id <$> evs) (seen w)) (offsets w)
    (delete entity (watermark w)) (delete entity (lastActive w))
    (eventCount w - Z.of_nat (length evs)) (maxEntities w) (maxEvents w).

Definition commitLocked (w : Window) (ev : Event) (p : pendingUpdate) : Window :=
  let w := if bool_decide (evictEntity p ≠ "") then evictEntityLocked w (evictEntity p) else w in
  let seen1 := forget (expired p) (seen w) in
  let seen2 := if negb (OccurredAt ev <? new_watermark p + - Duration w)
               then {[ ID ev ]} ∪ seen1 else seen1 in
  mkWindow (Duration w) (<[EntityID ev := events p]> (byEntity w)) seen2
    (<[Partition ev := Offset ev]> (offsets w)) (<[EntityID ev := new_watermark p]> (watermark w))
    (<[EntityID ev := new_watermark p]> (lastActive w))
    (eventCount w + (Z.of_nat (length (events p)) - Z.of_nat (length (events_of w (EntityID ev)))))
    (maxEntities w) (maxEvents w).

(** [Apply] returns the features, the [changed] flag and the new state. *)
Definition Apply (w : Window) (ev : Event) : Window * result (Features * bool) :=
  match prepareLocked w ev with
  | Err e => (w, Err e)
  | Ok p => if negb (accepted p) then (w, Ok (no_features, false))
            else (commitLocked w ev p, Ok (features p, changed p))
  end.

(** The [Materializer] interface: [Put], called with a context at an instant,
    acts on the state [S] of the sink. *)
Class Materializer (S : Type) := Put : Context → Z → Features → S → S * option error.

(** [sink] is [None] for a nil interface value. *)
Definition ApplyAndMaterialize {S} `{Materializer S} (ctx : Context) (now : Z)
    (w : Window) (ev : Event) (sink : option S) :
    Window * option S * result (Features * bool) :=
  match sink with
  | None => (w, sink, Err (Fresh "materializer is required"))
  | Some s =>
      match prepareLocked w ev with
      | Err e => (w, sink, Err e)
      | Ok p =>
          if negb (accepted p) then (w, sink, Ok (no_features, false))
          else if changed p then
            let '(s', err) := Put ctx now (features p) s in
            match err with
            | Some e => (w, Some s', Err e)
            | None => (commitLocked w ev p, Some s', Ok (features p, changed p))
            end
          else (commitLocked w ev p, sink, Ok (features p, changed p))
      end
  end.

(** The loop of [Snapshot]. *)
Definition snapshot_step (cutoff : Z) (fs : Features) (item : event) : Features :=
  if at_ item <? cutoff then fs
  else mkFeatures (feat_EntityID fs) (feat_EventCount fs + 1)
         (fadd (feat_TotalAmount fs) (amount item))
         (if fgt (amount item) (feat_MaxAmount fs) then amount item else feat_MaxAmount fs)
         (feat_WindowEnd fs).

Definition Snapshot (w : Window) (entity : string) (now : Z) : Features * bool :=
  let wm := if now >? watermark_of w entity then now else watermark_of w entity in
  let evs := events_of w entity in
  if Nat.eqb (length evs) 0 then (no_features, false)
  else
    let cutoff := wm + - Duration w in
    (fold_left (snapshot_step cutoff) evs (mkFeatures entity 0 fzero fzero wm), true).

Definition DedupeSize (w : Window) : Z := Z.of_nat (size (seen w)).
Definition EntityCount (w : Window) : Z := Z.of_nat (size (watermark w)).
