(* ===== verification/WindowInv.v ===== *)
(** * The aggregator's invariant

    The state of [Window] is redundant: the deduplication set, the event
    counter, the watermark and activity maps all restate what [byEntity]
    holds.  [wf] says they agree and that the configured limits hold; every
    operation preserves it. *)

From Stdlib Require Import ZArith Lia SpecFloat Sorting.Sorted.
From stdpp Require Import prelude gmap strings list.
From S2P Require Import Prelude GoFloat GoString GoSort GoContext Ingestion Window.

#[local] Open Scope Z_scope.

(** ** The ids stored in the window *)

Definition all_ids (m : gmap string (list event)) : list string :=
  map_to_list m ≫= (λ kv, id <$> kv.2).

Record wf (w : Window) : Prop := {
  wf_duration : 0 < Duration w;
  wf_limits : 1 <= maxEntities w ∧ 1 <= maxEvents w;
  wf_dom : dom (byEntity w) = dom (watermark w);
  wf_active : lastActive w = watermark w;
  wf_names : watermark w !! "" = None;
  wf_events : ∀ e evs, byEntity w !! e = Some evs →
    sorted before evs ∧
    Forall (λ x, watermark_of w e - Duration w <= at_ x <= watermark_of w e) evs;
  wf_ids : NoDup (all_ids (byEntity w));
  wf_seen : seen w = list_to_set (all_ids (byEntity w));
  wf_count : eventCount w = Z.of_nat (length (all_ids (byEntity w)));
  wf_entities : Z.of_nat (size (watermark w)) <= maxEntities w;
  wf_capacity : eventCount w <= maxEvents w;
}.

Lemma all_ids_delete m k :
  all_ids m ≡ₚ (id <$> default [] (m !! k)) ++ all_ids (delete k m).
Proof.
  unfold all_ids. destruct (m !! k) as [evs|] eqn:E; simpl.
  - rewrite <-(map_to_list_delete m k evs) by done. done.
  - by rewrite delete_id.
Qed.

Lemma all_ids_insert m k evs :
  all_ids (<[k := evs]> m) ≡ₚ (id <$> evs) ++ all_ids (delete k m).
Proof.
  unfold all_ids. rewrite <-insert_delete_eq, map_to_list_insert by apply lookup_delete_eq. done.
Qed.

Lemma forget_spec ids s : forget ids s = s ∖ list_to_set ids.
Proof.
  unfold forget. revert s. induction ids as [|i ids IH]; intros s; simpl; [set_solver|].
  rewrite IH. set_solver.
Qed.

Lemma before_asym a b : before a b = true → before b a = false.
Proof. apply (key_less_asym at_). Qed.
Lemma before_trans a b c : before b a = false → before c b = false → before c a = false.
Proof. apply (key_ge_trans at_). Qed.
#[export] Hint Resolve before_asym before_trans : go.

Lemma SliceStable_before_sorted l : sorted before (SliceStable before l).
Proof. apply SliceStable_sorted; eauto with go. Qed.

(** ** The binary search splits the window at the cutoff *)

Lemma filter_none {A} (P : A → Prop) `{∀ x, Decision (P x)} l :
  Forall (λ x, ¬ P x) l → filter P l = [].
Proof. induction 1; [done|]. by rewrite filter_cons_False. Qed.

Lemma filter_all {A} (P : A → Prop) `{∀ x, Decision (P x)} l :
  Forall P l → filter P l = l.
Proof. induction 1; [done|]. rewrite filter_cons_True by done. by f_equal. Qed.

Lemma first_live_split evs cutoff :
  sorted before evs →
  (first_live evs cutoff <= length evs)%nat ∧
  take (first_live evs cutoff) evs = filter (λ x, at_ x < cutoff) evs ∧
  drop (first_live evs cutoff) evs = filter (λ x, cutoff <= at_ x) evs.
Proof.
  intros Hs. unfold first_live. set (f := λ i : nat, _).
  assert (∀ i k x y, (i <= k)%nat → evs !! i = Some x → evs !! k = Some y → at_ x <= at_ y) as Hord.
  { intros i k x y Hik Hx Hy. destruct (decide (i = k)) as [->|]; [simplify_eq; lia|].
    assert (before y x = false) as Hb.
    { eapply (sorted_lookup before evs i k); [done|lia|done|done]. }
    unfold before in Hb. bool_to_prop. lia. }
  destruct (Search_spec f (length evs)) as (Hn & Hlo & Hhi).
  { intros i k [Hik Hk] Hi. unfold f in *.
    destruct (lookup_lt_is_Some_2 evs k Hk) as [y Hy].
    destruct (lookup_lt_is_Some_2 evs i) as [x Hx]; [lia|].
    rewrite Hx in Hi. rewrite Hy. pose proof (Hord i k x y Hik Hx Hy).
    bool_to_prop. apply negb_true_iff, Z.ltb_ge. lia. }
  set (n := Search f (length evs)) in *.
  assert (Forall (λ x, at_ x < cutoff) (take n evs)) as Htake.
  { apply Forall_lookup. intros i x Hi. apply lookup_take_Some in Hi as [Hx Hi].
    specialize (Hlo i Hi). unfold f in Hlo. rewrite Hx in Hlo. by bool_to_prop. }
  assert (Forall (λ x, cutoff <= at_ x) (drop n evs)) as Hdrop.
  { apply Forall_lookup. intros i x Hi. rewrite lookup_drop in Hi.
    specialize (Hhi (n + i)%nat). unfold f in Hhi. rewrite Hi in Hhi.
    apply lookup_lt_Some in Hi. specialize (Hhi ltac:(lia)). by bool_to_prop. }
  split_and!; [done|..].
  - rewrite <-(take_drop n evs) at 2. rewrite filter_app, filter_all by done.
    rewrite (filter_none _ (drop n evs)); [by rewrite app_nil_r|].
    eapply Forall_impl; [apply Hdrop|]. simpl. lia.
  - rewrite <-(take_drop n evs) at 2. rewrite filter_app, (filter_none _ (take n evs)).
    + by rewrite filter_all.
    + eapply Forall_impl; [apply Htake|]. simpl. lia.
Qed.

(** ** Which entity is evicted *)

(** The order [oldestEntityLocked] minimises: last activity, then name. *)
Definition key_le (a b : string * Z) : Prop :=
  a.2 < b.2 ∨ (a.2 = b.2 ∧ String.le a.1 b.1).

#[export] Instance key_le_po : PartialOrder key_le.
Proof.
  unfold key_le. repeat split.
  - intros [s t]. right. split; [done|reflexivity].
  - intros [s t] [s' t'] [s'' t''] [H1|[H1 H1']] [H2|[H2 H2']]; simpl in *; try lia.
    right. split; [lia|]. by etrans.
  - intros [s t] [s' t'] [H1|[H1 H1']] [H2|[H2 H2']]; simpl in *; try lia.
    f_equal; [|lia]. by apply (anti_symm String.le).
Qed.

Lemma string_ltb_le s t : String.ltb s t = true → String.le s t.
Proof. unfold String.ltb, String.le, String.leb. by destruct (String.compare s t). Qed.

Lemma string_ltb_false_le s t : String.ltb s t = false → String.le t s.
Proof.
  unfold String.ltb, String.le, String.leb. rewrite (String.compare_antisym t s).
  by destruct (String.compare s t).
Qed.

Lemma older_spec best cand :
  best.1 ≠ "" →
  (older best cand = best ∨ older best cand = cand) ∧
  key_le (older best cand) best ∧ key_le (older best cand) cand.
Proof.
  destruct best as [e t], cand as [c a]. simpl. intros He.
  rewrite bool_decide_eq_false_2 by done. simpl.
  destruct (Z.ltb_spec a t) as [Hlt|Hge]; simpl.
  { split_and!; [by right|left; simpl; lia|reflexivity]. }
  destruct (Z.eqb_spec a t) as [->|Hne]; simpl.
  - destruct (String.ltb c e) eqn:E.
    + split_and!; [by right|right; split; [done|by apply string_ltb_le]|reflexivity].
    + split_and!; [by left|reflexivity|right; split; [done|by apply string_ltb_false_le]].
  - split_and!; [by left|reflexivity|left; simpl; lia].
Qed.

Lemma fold_older_spec order : ∀ best,
  best.1 ≠ "" → Forall (λ kv, kv.1 ≠ "") order →
  let r := fold_left older order best in
  r.1 ≠ "" ∧ r ∈ best :: order ∧ ∀ x, x ∈ best :: order → key_le r x.
Proof.
  induction order as [|c order IH]; intros best Hb Ho; simpl.
  { split_and!; [done|left|]. intros x ->%list_elem_of_singleton. reflexivity. }
  apply Forall_cons in Ho as [Hc Ho].
  destruct (older_spec best c Hb) as (Hor & Hle1 & Hle2).
  assert ((older best c).1 ≠ "") as Hne by (destruct Hor as [-> | ->]; done).
  destruct (IH (older best c) Hne Ho) as (Hr & Hin & Hmin). split_and!; [done|..].
  - apply elem_of_cons in Hin as [-> |Hin]; [destruct Hor as [-> | ->]; set_solver|set_solver].
  - intros x Hx. rewrite !elem_of_cons in Hx.
    destruct Hx as [-> |[-> |Hx]].
    + etrans; [|apply Hle1]. apply Hmin. left.
    + etrans; [|apply Hle2]. apply Hmin. left.
    + apply Hmin. by right.
Qed.

(** On a non-empty map without the empty key the loop picks the entry that
    is minimal by last activity and then name. *)
Lemma oldest_in_min order :
  order ≠ [] → Forall (λ kv, kv.1 ≠ "") order →
  ∃ t, (oldest_in order, t) ∈ order ∧ ∀ x, x ∈ order → key_le (oldest_in order, t) x.
Proof.
  destruct order as [|[c a] order]; [done|]. intros _ Ho. unfold oldest_in. simpl.
  apply Forall_cons in Ho as [Hc Ho].
  destruct (fold_older_spec order (c, a) Hc Ho) as (_ & Hin & Hmin).
  destruct (fold_left older order (c, a)) as [e t]. by exists t.
Qed.

(** The iteration order of the map does not matter. *)
Lemma oldest_in_perm order order' :
  order ≡ₚ order' → Forall (λ kv, kv.1 ≠ "") order → oldest_in order = oldest_in order'.
Proof.
  intros Hp Ho. destruct (decide (order = [])) as [->|Hne].
  { apply Permutation_nil in Hp as ->. done. }
  assert (order' ≠ []) as Hne'.
  { intros ->. by apply Permutation_nil_r in Hp. }
  assert (Forall (λ kv, kv.1 ≠ "") order') as Ho' by by rewrite <-Hp.
  destruct (oldest_in_min order Hne Ho) as (t & Hin & Hmin).
  destruct (oldest_in_min order' Hne' Ho') as (t' & Hin' & Hmin').
  assert ((oldest_in order, t) = (oldest_in order', t')) as Heq; [|by injection Heq].
  apply (anti_symm key_le); [apply Hmin|apply Hmin']; by rewrite ?Hp || by rewrite <-?Hp.
Qed.

Lemma oldest_in_empty : oldest_in [] = "".
Proof. done. Qed.

Lemma oldestEntityLocked_spec w :
  wf w → watermark w ≠ ∅ →
  is_Some (watermark w !! oldestEntityLocked w) ∧ oldestEntityLocked w ≠ "".
Proof.
  intros Hw Hne. unfold oldestEntityLocked. rewrite (wf_active w Hw).
  assert (Forall (λ kv, kv.1 ≠ "") (map_to_list (watermark w))) as Hk.
  { apply Forall_forall. intros [k t] Hin Hk. simpl in Hk. subst k.
    apply elem_of_map_to_list in Hin. by rewrite (wf_names w Hw) in Hin. }
  destruct (oldest_in_min (map_to_list (watermark w))) as (t & Hin & _); [|done|].
  { by rewrite map_to_list_empty_iff. }
  rewrite Forall_forall in Hk. split; [|by apply (Hk _ Hin)].
  apply elem_of_map_to_list in Hin. by eexists.
Qed.

(** ** What [prepareLocked] decides *)

Definition new_event (ev : Event) : event := mkev (ID ev) (OccurredAt ev) (Amount ev).

(** The cutoff an accepted update works with. *)
Definition cutoff_of (w : Window) (p : pendingUpdate) : Z := new_watermark p - Duration w.

Record prepared (w : Window) (ev : Event) (p : pendingUpdate) : Prop := {
  pr_valid : validEvent ev = true;
  pr_fresh : ID ev ∉ seen w;
  pr_offset : ∀ high, offsets w !! Partition ev = Some high → high < Offset ev;
  pr_watermark : new_watermark p = Z.max (watermark_of w (EntityID ev)) (OccurredAt ev);
  pr_events : events p =
    SliceStable before
      (filter (λ x, cutoff_of w p <= at_ x) (events_of w (EntityID ev))
       ++ (if decide (cutoff_of w p <= OccurredAt ev) then [new_event ev] else []));
  pr_expired : expired p =
    id <$> filter (λ x, at_ x < cutoff_of w p) (events_of w (EntityID ev));
  pr_changed : changed p = true ↔ cutoff_of w p <= OccurredAt ev ∨ expired p ≠ [];
  pr_features :
    accumulate (mkFeatures (EntityID ev) (Z.of_nat (length (events p))) fzero fzero
                  (new_watermark p)) (events p) = Ok (features p);
  pr_evict :
    (evictEntity p = "" ∧
     (is_Some (watermark w !! EntityID ev) ∨ Z.of_nat (size (watermark w)) < maxEntities w)) ∨
    (evictEntity p ≠ "" ∧ is_Some (watermark w !! evictEntity p) ∧
     watermark w !! EntityID ev = None ∧ evictEntity p = oldestEntityLocked w);
  pr_capacity :
    eventCount w - Z.of_nat (length (expired p))
    - Z.of_nat (length (if decide (evictEntity p = "") then [] else events_of w (evictEntity p)))
    + (if decide (cutoff_of w p <= OccurredAt ev) then 1 else 0) <= maxEvents w;
}.

Lemma wf_events_of w e :
  wf w → sorted before (events_of w e) ∧
  Forall (λ x, watermark_of w e - Duration w <= at_ x <= watermark_of w e) (events_of w e).
Proof.
  intros Hw. unfold events_of. destruct (byEntity w !! e) as [evs|] eqn:E; simpl.
  - by apply (wf_events w Hw).
  - split; constructor.
Qed.

Lemma map_size_pos {V} (m : gmap string V) : 1 <= Z.of_nat (size m) → m ≠ ∅.
Proof. intros H ->. rewrite map_size_empty in H. lia. Qed.

Lemma sorted_filter l (P : event → Prop) `{∀ x, Decision (P x)} :
  sorted before l → sorted before (filter P l).
Proof.
  induction 1 as [|x l Hl IH Hx]; [constructor|]. rewrite filter_cons. case_decide; [|done].
  constructor; [done|]. rewrite !Forall_forall in *.
  intros y Hy. apply list_elem_of_filter in Hy as [_ Hy]. by apply Hx.
Qed.

Lemma negb_length_zero {A} (l : list A) : negb (Nat.eqb (length l) 0) = true ↔ l ≠ [].
Proof. by destruct l. Qed.

Lemma decide_negb_ltb {A} a b (x y : A) :
  (if negb (a <? b) then x else y) = (if decide (b <= a) then x else y).
Proof. destruct (Z.ltb_spec a b); case_decide; simpl; (done || lia). Qed.

Lemma prepareLocked_spec w ev p :
  wf w → prepareLocked w ev = Ok p → accepted p = true → prepared w ev p.
Proof.
  intros Hw Hp Hacc. unfold prepareLocked in Hp.
  destruct (validEvent ev) eqn:Hvalid; [|done]. simpl in Hp.
  case_bool_decide as Hseen; [by simplify_eq|].
  match type of Hp with (if ?b then _ else _) = _ => destruct b eqn:Hoff end; [by simplify_eq|].
  set (E := EntityID ev) in *.
  set (evict := if _ && _ then _ else _) in Hp.
  set (wm := if OccurredAt ev >? watermark_of w E then OccurredAt ev else watermark_of w E) in Hp.
  assert (wm = Z.max (watermark_of w E) (OccurredAt ev)) as Hwm.
  { subst wm. rewrite Z.gtb_ltb. destruct (Z.ltb_spec (watermark_of w E) (OccurredAt ev)); lia. }
  clearbody wm. rewrite !decide_negb_ltb, Z.add_opp_r in Hp.
  destruct (wf_events_of w E Hw) as [Hs _].
  destruct (first_live_split (events_of w E) (wm - Duration w) Hs) as (Hle & Htake & Hdrop).
  rewrite Htake, Hdrop in Hp.
  set (evs := if decide (wm - Duration w <= OccurredAt ev) then SliceStable before (_ ++ _)
              else filter _ _) in Hp.
  assert (evs = SliceStable before
      (filter (λ x, wm - Duration w <= at_ x) (events_of w E)
       ++ (if decide (wm - Duration w <= OccurredAt ev) then [new_event ev] else []))) as Hevs.
  { subst evs. case_decide; [done|]. rewrite app_nil_r.
    by rewrite SliceStable_id by by apply sorted_filter. }
  clearbody evs. rewrite Z.gtb_ltb in Hp.
  destruct (Z.ltb_spec (maxEvents w)
    (eventCount w - Z.of_nat (first_live (events_of w E) (wm - Duration w))
     - (if bool_decide (evict ≠ "") then Z.of_nat (length (events_of w evict)) else 0)
     + (if decide (wm - Duration w <= OccurredAt ev) then 1 else 0))) as [|Hcap]; [done|].
  destruct (accumulate _ evs) as [fs|] eqn:Hacc'; [|done].
  injection Hp as <-. constructor; simpl; unfold cutoff_of; simpl; try done.
  - intros high Hh. rewrite Hh in Hoff. by bool_to_prop.
  - rewrite orb_true_iff, negb_length_zero, negb_true_iff, Z.ltb_ge. done.
  - subst evict. clear Hcap Hacc. case_bool_decide as Hk; simpl.
    + destruct (Z.leb_spec (maxEntities w) (Z.of_nat (size (watermark w)))) as [Hfull|]; [|left; auto].
      right. pose proof (wf_limits w Hw).
      destruct (oldestEntityLocked_spec w Hw) as [Hsome Hne]; [apply map_size_pos; lia|]. split_and!; [exact Hne|exact Hsome|exact Hk|reflexivity].
    + left. split; [done|]. left. by apply not_eq_None_Some.
  - rewrite length_fmap, <-Htake, length_take_le by done.
    destruct (decide (evict = "")) as [->|Hne].
    + by rewrite bool_decide_eq_false_2 in Hcap by auto.
    + by rewrite bool_decide_eq_true_2 in Hcap.
Qed.

(** An update that is not accepted is a duplicate or stale. *)
Lemma prepareLocked_rejected w ev p :
  prepareLocked w ev = Ok p → accepted p = false →
  ID ev ∈ seen w ∨ ∃ high, offsets w !! Partition ev = Some high ∧ Offset ev <= high.
Proof.
  unfold prepareLocked. case_if; [done|]. case_bool_decide; [by left|].
  destruct (offsets w !! Partition ev) as [high|] eqn:Ho.
  - destruct (Z.leb_spec (Offset ev) high); [right; eauto|].
    destruct (_ >? maxEvents w); [done|]. destruct (accumulate _ _); intros; simplify_eq/=.
  - destruct (_ >? maxEvents w); [done|]. destruct (accumulate _ _); intros; simplify_eq/=.
Qed.

(** ** Eviction *)

Lemma watermark_of_delete w k e :
  e ≠ k → watermark_of (evictEntityLocked w k) e = watermark_of w e.
Proof. intros. unfold watermark_of. simpl. by rewrite lookup_delete_ne. Qed.

Lemma events_of_delete w k e :
  e ≠ k → events_of (evictEntityLocked w k) e = events_of w e.
Proof. intros. unfold events_of. simpl. by rewrite lookup_delete_ne. Qed.

Lemma NoDup_app_difference (l1 l2 : list string) :
  NoDup (l1 ++ l2) →
  (list_to_set (l1 ++ l2) ∖ list_to_set l1 : gset string) = list_to_set l2.
Proof.
  intros (_ & Hdisj & _)%NoDup_app. apply set_eq. intros x.
  rewrite elem_of_difference, !elem_of_list_to_set, elem_of_app. naive_solver.
Qed.

Lemma map_size_delete_lt {V} (m : gmap string V) k :
  is_Some (m !! k) → (size (delete k m) < size m)%nat.
Proof.
  intros Hk. rewrite map_size_delete_Some by done.
  pose proof (map_size_ne_0_lookup_2 m k Hk). lia.
Qed.

Lemma evict_wf w k : wf w → is_Some (watermark w !! k) → wf (evictEntityLocked w k).
Proof.
  intros Hw Hk. pose proof (all_ids_delete (byEntity w) k) as Hperm.
  pose proof (wf_ids w Hw) as Hnd. rewrite Hperm in Hnd.
  pose proof (map_size_delete_lt (watermark w) k Hk) as Hsize.
  constructor; simpl.
  - apply (wf_duration w Hw).
  - apply (wf_limits w Hw).
  - by rewrite !dom_delete_L, (wf_dom w Hw).
  - by rewrite (wf_active w Hw).
  - rewrite lookup_delete_None. right. apply (wf_names w Hw).
  - intros e evs He. apply lookup_delete_Some in He as [Hne He].
    rewrite watermark_of_delete by done. by apply (wf_events w Hw).
  - by apply NoDup_app in Hnd as (_ & _ & ?).
  - rewrite forget_spec, (wf_seen w Hw), Hperm. by apply NoDup_app_difference.
  - rewrite (wf_count w Hw), Hperm, length_app, length_fmap. unfold events_of. lia.
  - pose proof (wf_entities w Hw). lia.
  - pose proof (wf_capacity w Hw). lia.
Qed.

(** ** Recording an update *)

(** What [commitLocked] relies on once the eviction is done. *)
Record recordable (w : Window) (ev : Event) (p : pendingUpdate) : Prop := {
  rc_entity : EntityID ev ≠ "";
  rc_fresh : ID ev ∉ seen w;
  rc_watermark : new_watermark p = Z.max (watermark_of w (EntityID ev)) (OccurredAt ev);
  rc_events : events p =
    SliceStable before
      (filter (λ x, cutoff_of w p <= at_ x) (events_of w (EntityID ev))
       ++ (if decide (cutoff_of w p <= OccurredAt ev) then [new_event ev] else []));
  rc_expired : expired p =
    id <$> filter (λ x, at_ x < cutoff_of w p) (events_of w (EntityID ev));
  rc_room : is_Some (watermark w !! EntityID ev) ∨ Z.of_nat (size (watermark w)) < maxEntities w;
  rc_capacity :
    eventCount w - Z.of_nat (length (expired p))
    + (if decide (cutoff_of w p <= OccurredAt ev) then 1 else 0) <= maxEvents w;
}.

Definition no_evict (p : pendingUpdate) : pendingUpdate :=
  mkPending (accepted p) (changed p) (features p) (events p) (new_watermark p) (expired p) "".

Definition after_eviction (w : Window) (p : pendingUpdate) : Window :=
  if decide (evictEntity p = "") then w else evictEntityLocked w (evictEntity p).

Lemma commit_after_eviction w ev p :
  commitLocked w ev p = commitLocked (after_eviction w p) ev (no_evict p).
Proof.
  unfold commitLocked, after_eviction. simpl.
  destruct (decide (evictEntity p = "")) as [->|Hne]; [done|].
  by rewrite !bool_decide_eq_true_2.
Qed.

Lemma commit_offsets w ev p : offsets (commitLocked w ev p) = <[Partition ev := Offset ev]> (offsets w).
Proof. unfold commitLocked. simpl. by case_bool_decide. Qed.
Lemma commit_duration w ev p : Duration (commitLocked w ev p) = Duration w.
Proof. unfold commitLocked. simpl. by case_bool_decide. Qed.

Lemma validEvent_entity ev : validEvent ev = true → EntityID ev ≠ "".
Proof. unfold validEvent. intros H. bool_to_prop. done. Qed.

Lemma prepared_recordable w ev p :
  wf w → prepared w ev p →
  wf (after_eviction w p) ∧ recordable (after_eviction w p) ev (no_evict p).
Proof.
  intros Hw Hp. unfold after_eviction.
  destruct (decide (evictEntity p = "")) as [He|Hne].
  - split; [done|]. destruct Hp as [? ? ? ? ? ? ? ? Hev Hcap]. constructor; try done.
    + by apply validEvent_entity.
    + destruct Hev as [[_ ?]|[]]; [done|congruence].
    + rewrite (decide_True (P:=evictEntity p = "")) in Hcap by done.
      unfold cutoff_of in *. simpl in *. lia.
  - destruct (pr_evict w ev p Hp) as [[? _]|(_ & Hsome & Hnone & _)]; [done|].
    assert (EntityID ev ≠ evictEntity p) as Hneq.
    { intros Heq. rewrite Heq, Hnone in *. by destruct Hsome. }
    pose proof (evict_wf w (evictEntity p) Hw Hsome) as Hw'. split; [done|].
    destruct Hp as [? Hf ? Hwm Hevs Hexp ? ? _ Hcap]. constructor; simpl;
      rewrite ?watermark_of_delete, ?events_of_delete by done; unfold cutoff_of in *; simpl in *; try done.
    + by apply validEvent_entity.
    + rewrite forget_spec. set_solver.
    + right. pose proof (map_size_delete_lt (watermark w) _ Hsome).
      pose proof (wf_entities w Hw). lia.
    + rewrite (decide_False (P:=evictEntity p = "")) in Hcap by done. lia.
Qed.

Lemma filter_split_perm (l : list event) c :
  l ≡ₚ filter (λ x, at_ x < c) l ++ filter (λ x, c <= at_ x) l.
Proof.
  induction l as [|x l IH]; [done|]. rewrite !filter_cons.
  destruct (decide (at_ x < c)), (decide (c <= at_ x)); try lia; simpl.
  - by rewrite <-IH.
  - by rewrite <-Permutation_middle, <-IH.
Qed.

(** The ids stored before and after, split into expired, kept and others. *)
Lemma recordable_ids w ev p (E := EntityID ev)
    (kept := id <$> filter (λ x, cutoff_of w p <= at_ x) (events_of w E))
    (added := if decide (cutoff_of w p <= OccurredAt ev) then [ID ev] else [])
    (others := all_ids (delete E (byEntity w))) :
  recordable w ev p →
  all_ids (byEntity w) ≡ₚ expired p ++ kept ++ others ∧
  all_ids (<[E := events p]> (byEntity w)) ≡ₚ added ++ kept ++ others.
Proof.
  intros Hr. split.
  - rewrite (all_ids_delete _ E). change (default [] (byEntity w !! E)) with (events_of w E).
    rewrite (filter_split_perm (events_of w E) (cutoff_of w p)) at 1.
    by rewrite fmap_app, (rc_expired w ev p Hr), <-app_assoc.
  - rewrite all_ids_insert, (rc_events w ev p Hr), SliceStable_perm, fmap_app.
    fold kept others. rewrite app_assoc. apply Permutation_app_tail.
    rewrite Permutation_app_comm. apply Permutation_app_tail. subst added. by case_decide.
Qed.

Lemma recordable_window w ev p :
  wf w → recordable w ev p →
  sorted before (events p) ∧
  Forall (λ x, new_watermark p - Duration w <= at_ x <= new_watermark p) (events p).
Proof.
  intros Hw Hr. rewrite (rc_events w ev p Hr). split; [apply SliceStable_before_sorted|].
  rewrite SliceStable_perm, Forall_app. fold (cutoff_of w p).
  pose proof (rc_watermark w ev p Hr).
  destruct (wf_events_of w (EntityID ev) Hw) as [_ Hall]. rewrite !Forall_forall in *. split.
  - intros x Hx. apply list_elem_of_filter in Hx as [Hc Hx]. specialize (Hall x Hx).
    simpl in Hall. lia.
  - case_decide; [|set_solver]. intros x ->%list_elem_of_singleton. simpl. lia.
Qed.

Lemma map_size_insert_le {V} (m : gmap string V) k v n :
  is_Some (m !! k) ∨ Z.of_nat (size m) < n → Z.of_nat (size m) <= n →
  Z.of_nat (size (<[k := v]> m)) <= n.
Proof.
  intros [Hs|Hlt] Hle.
  - by rewrite map_size_insert_Some.
  - destruct (m !! k) eqn:E; [by rewrite map_size_insert_Some by eauto|].
    rewrite map_size_insert_None by done. lia.
Qed.

Lemma record_wf w ev p :
  wf w → recordable w ev p → evictEntity p = "" → wf (commitLocked w ev p).
Proof.
  intros Hw Hr Hne. unfold commitLocked. rewrite Hne. simpl.
  rewrite decide_negb_ltb, Z.add_opp_r. fold (cutoff_of w p).
  destruct (recordable_ids w ev p Hr) as [Hold Hnew].
  pose proof (wf_ids w Hw) as Hnd. rewrite Hold in Hnd.
  pose proof (rc_fresh w ev p Hr) as Hfresh.
  rewrite (wf_seen w Hw), Hold in Hfresh.
  pose proof (wf_count w Hw) as Hcnt. rewrite Hold, !length_app, !length_fmap in Hcnt.
  set (kept := filter (λ x, cutoff_of w p <= at_ x) (events_of w (EntityID ev))) in *.
  set (added := if decide (cutoff_of w p <= OccurredAt ev) then [ID ev] else []) in *.
  assert (length (events_of w (EntityID ev)) = (length (expired p) + length kept)%nat) as Hlen.
  { rewrite (filter_split_perm (events_of w (EntityID ev)) (cutoff_of w p)) at 1.
    by rewrite length_app, (rc_expired w ev p Hr), length_fmap. }
  assert (length (events p) = (length kept + length added)%nat) as Hlen'.
  { rewrite (rc_events w ev p Hr), SliceStable_length, length_app. subst added. by case_decide. }
  constructor; simpl.
  - apply (wf_duration w Hw).
  - apply (wf_limits w Hw).
  - by rewrite !dom_insert_L, (wf_dom w Hw).
  - by rewrite (wf_active w Hw).
  - rewrite lookup_insert_ne by apply (rc_entity w ev p Hr). apply (wf_names w Hw).
  - intros e evs He. unfold watermark_of. simpl.
    destruct (decide (EntityID ev = e)) as [<-|Hn].
    + rewrite lookup_insert_eq in He. rewrite lookup_insert_eq. injection He as <-. by apply (recordable_window w ev p).
    + rewrite lookup_insert_ne in He by done. rewrite lookup_insert_ne by done. by apply (wf_events w Hw).
  - rewrite Hnew. subst added. case_decide; simpl; [|by apply NoDup_app in Hnd as (_ & _ & ?)].
    apply NoDup_cons. split; [set_solver|by apply NoDup_app in Hnd as (_ & _ & ?)].
  - assert (forget (expired p) (seen w)
            = list_to_set ((id <$> kept) ++ all_ids (delete (EntityID ev) (byEntity w)))) as ->.
    { rewrite forget_spec, (wf_seen w Hw), Hold. by apply NoDup_app_difference. }
    rewrite Hnew. subst added. case_decide; set_solver.
  - rewrite Hnew, !length_app, !length_fmap. lia.
  - apply map_size_insert_le; [apply (rc_room w ev p Hr)|apply (wf_entities w Hw)].
  - pose proof (rc_capacity w ev p Hr) as Hcap. subst added. case_decide; simpl in *; lia.
Qed.

Lemma commit_wf w ev p : wf w → prepared w ev p → wf (commitLocked w ev p).
Proof.
  intros Hw Hp. destruct (prepared_recordable w ev p Hw Hp).
  rewrite commit_after_eviction. by apply record_wf.
Qed.

Lemma NewWithLimits_wf d n k : wf (NewWithLimits d n k).
Proof.
  constructor; simpl; try done.
  - case_if; bool_to_prop; lia.
  - split; case_if; bool_to_prop; lia.
  - constructor.
  - rewrite map_size_empty. case_if; bool_to_prop; lia.
  - case_if; bool_to_prop; lia.
Qed.
