(* ===== verification/WindowSpec.v ===== *)
(** * What the aggregator promises

    The abstract state of the aggregator is the list of the events it has
    accepted and not evicted.  [represents] relates it to the incremental
    state of [Window]: the stored window of an entity is what a recomputation
    from the whole list would give.  The properties of the operations follow
    in the section of each operation. *)

From Stdlib Require Import ZArith Lia SpecFloat Sorting.Sorted.
From stdpp Require Import prelude gmap strings list.
From S2P Require Import Prelude GoFloat GoString GoSort GoContext Ingestion Window WindowInv.

#[local] Open Scope Z_scope.

(** ** The abstract specification *)

(** The latest event time accepted for an entity; the zero [Time] if none. *)
Definition spec_watermark (h : list Event) (e : string) : Z :=
  foldr Z.max 0 (OccurredAt <$> filter (λ ev, EntityID ev = e) h).

(** The events of an entity inside its window, in event-time order, ties in
    arrival order. *)
Definition spec_window (D : Z) (h : list Event) (e : string) : list event :=
  SliceStable before
    (new_event <$> filter (λ ev, EntityID ev = e ∧ spec_watermark h e - D <= OccurredAt ev) h).

(** Accepting [ev] after evicting the entity [k] (none for the empty name). *)
Definition spec_accept (k : string) (h : list Event) (ev : Event) : list Event :=
  filter (λ x, k = "" ∨ EntityID x ≠ k) h ++ [ev].

Definition tracked (h : list Event) (e : string) : Prop := e ∈ EntityID <$> h.
#[export] Instance tracked_dec h e : Decision (tracked h e).
Proof. unfold tracked. apply _. Defined.

Definition represents (h : list Event) (w : Window) : Prop :=
  ∀ e,
    byEntity w !! e = (if decide (tracked h e) then Some (spec_window (Duration w) h e) else None) ∧
    watermark w !! e = (if decide (tracked h e) then Some (spec_watermark h e) else None).

(** ** Reachable states *)

Inductive reachable : Window → Prop :=
| reachable_new d n k : reachable (NewWithLimits d n k)
| reachable_apply w ev : reachable w → reachable (Apply w ev).1
| reachable_materialize {S} `{Materializer S} ctx now w ev (sink : option S) :
    reachable w → reachable (ApplyAndMaterialize ctx now w ev sink).1.1.

(** Both operations either leave the window alone or commit a prepared
    update. *)
Lemma Apply_cases w ev w' r :
  wf w → Apply w ev = (w', r) →
  (w' = w ∧ (∀ fs, r ≠ Ok (fs, true))) ∨
  ∃ p, prepared w ev p ∧ prepareLocked w ev = Ok p ∧ accepted p = true ∧
       w' = commitLocked w ev p ∧ r = Ok (features p, changed p).
Proof.
  intros Hw. unfold Apply. destruct (prepareLocked w ev) as [p|e] eqn:Hp.
  - destruct (accepted p) eqn:Ha; simpl; intros [= <- <-]; [|by left].
    right. exists p. split_and!; try done. by apply prepareLocked_spec.
  - intros [= <- <-]. by left.
Qed.

Lemma Materialize_cases {S} `{Materializer S} ctx now w ev (sink : option S) w' sink' r :
  wf w → ApplyAndMaterialize ctx now w ev sink = (w', sink', r) →
  (w' = w ∧ (∀ fs, r ≠ Ok (fs, true))) ∨
  ∃ p, prepared w ev p ∧ prepareLocked w ev = Ok p ∧ accepted p = true ∧
       w' = commitLocked w ev p ∧ r = Ok (features p, changed p).
Proof.
  intros Hw. unfold ApplyAndMaterialize. destruct sink as [s|]; [|intros [= <- <- <-]; by left].
  destruct (prepareLocked w ev) as [p|e] eqn:Hp; [|intros [= <- <- <-]; by left].
  destruct (accepted p) eqn:Ha; simpl; [|intros [= <- <- <-]; by left].
  assert (prepared w ev p) by by apply prepareLocked_spec.
  destruct (changed p) eqn:Hc.
  - destruct (Put _ _ _ s) as [s' [err|]]; intros [= <- <- <-]; [by left|].
    right. exists p. by rewrite Hc.
  - intros [= <- <- <-]. right. exists p. by rewrite Hc.
Qed.

Lemma reachable_wf w : reachable w → wf w.
Proof.
  induction 1 as [d n k|w ev Hr Hw|S HS ctx now w ev sink Hr Hw].
  - apply NewWithLimits_wf.
  - destruct (Apply w ev) as [w' r] eqn:E.
    destruct (Apply_cases w ev w' r Hw E) as [[-> _]|(p & Hp & _ & _ & -> & _)]; [done|].
    by apply commit_wf.
  - destruct (ApplyAndMaterialize ctx now w ev sink) as [[w' s'] r] eqn:E.
    destruct (Materialize_cases ctx now w ev sink w' s' r Hw E)
      as [[-> _]|(p & Hp & _ & _ & -> & _)]; [done|].
    by apply commit_wf.
Qed.

(** ** Lemmas on the abstract specification *)

Lemma foldr_max_app l l' : foldr Z.max 0 (l ++ l') = Z.max (foldr Z.max 0 l) (foldr Z.max 0 l').
Proof.
  assert (∀ l, 0 <= foldr Z.max 0 l) as Hpos by (intros k; induction k; simpl; lia).
  induction l as [|x l IH]; simpl; [pose proof (Hpos l')|]; lia.
Qed.

Lemma filter_fmap_new (c : Z) (l : list Event) :
  filter (λ x, c <= at_ x) (new_event <$> l) = new_event <$> filter (λ ev, c <= OccurredAt ev) l.
Proof.
  induction l as [|x l IH]; [done|]. rewrite fmap_cons, !filter_cons, IH. simpl.
  by case_decide.
Qed.

Lemma spec_filter_evicted k (h : list Event) e (Q : Event → Prop) `{!∀ x, Decision (Q x)} :
  e ≠ k →
  filter (λ x, EntityID x = e ∧ Q x) (filter (λ x, k = "" ∨ EntityID x ≠ k) h) =
  filter (λ x, EntityID x = e ∧ Q x) h.
Proof.
  intros Hne. rewrite list_filter_filter. apply list_filter_iff. intros x. naive_solver.
Qed.

Lemma spec_watermark_evicted k (h : list Event) e :
  e ≠ k → spec_watermark (filter (λ x, k = "" ∨ EntityID x ≠ k) h) e = spec_watermark h e.
Proof.
  intros Hne. unfold spec_watermark. do 2 f_equal. rewrite list_filter_filter.
  apply list_filter_iff. intros x. naive_solver.
Qed.

Lemma spec_watermark_snoc h ev e :
  spec_watermark (h ++ [ev]) e =
    if decide (EntityID ev = e) then Z.max (spec_watermark h e) (OccurredAt ev)
    else spec_watermark h e.
Proof.
  unfold spec_watermark. rewrite filter_app, filter_cons, filter_nil. case_decide.
  - rewrite fmap_app, foldr_max_app. simpl.
    assert (0 <= foldr Z.max 0 (OccurredAt <$> filter (λ x, EntityID x = e) h)) as Hpos; [|lia].
    induction (OccurredAt <$> _); simpl; lia.
  - by rewrite app_nil_r.
Qed.

Lemma spec_window_untracked D h e : ¬ tracked h e → spec_window D h e = [].
Proof.
  intros Ht. unfold spec_window. rewrite filter_none; [done|]. apply Forall_forall.
  intros x Hx [He _]. apply Ht. unfold tracked. rewrite <-He. by apply list_elem_of_fmap_2.
Qed.

Lemma spec_watermark_untracked h e : ¬ tracked h e → spec_watermark h e = 0.
Proof.
  intros Ht. unfold spec_watermark. rewrite filter_none; [done|]. apply Forall_forall.
  intros x Hx He. apply Ht. unfold tracked. rewrite <-He. by apply list_elem_of_fmap_2.
Qed.

Lemma represents_of h w e :
  represents h w →
  events_of w e = spec_window (Duration w) h e ∧ watermark_of w e = spec_watermark h e.
Proof.
  intros Hr. unfold events_of, watermark_of. destruct (Hr e) as [-> ->]. case_decide; [done|].
  simpl. by rewrite spec_window_untracked, spec_watermark_untracked.
Qed.

(** The incremental window is the recomputed one. *)
Lemma spec_window_snoc D h ev (E := EntityID ev)
    (c := spec_watermark (h ++ [ev]) E - D) :
  SliceStable before
    (filter (λ x, c <= at_ x) (spec_window D h E)
     ++ (if decide (c <= OccurredAt ev) then [new_event ev] else [])) =
  spec_window D (h ++ [ev]) E.
Proof.
  unfold spec_window at 1. rewrite SliceStable_filter by eauto with go.
  rewrite SliceStable_app_idem by eauto with go. unfold spec_window. f_equal.
  rewrite filter_fmap_new, list_filter_filter, filter_app, fmap_app. fold c. f_equal.
  - f_equal. apply list_filter_iff. intros x. subst c. rewrite spec_watermark_snoc, decide_True by done.
    split; [naive_solver|]. intros [? ?]. split_and!; [lia|done|lia].
  - rewrite filter_cons, filter_nil. destruct (decide (c <= OccurredAt ev)).
    + rewrite decide_True by done. done.
    + rewrite decide_False by naive_solver. done.
Qed.

Lemma spec_window_evicted D k (h : list Event) e :
  e ≠ k → spec_window D (filter (λ x, k = "" ∨ EntityID x ≠ k) h) e = spec_window D h e.
Proof.
  intros Hne. unfold spec_window. rewrite spec_watermark_evicted by done.
  by rewrite spec_filter_evicted.
Qed.

Lemma spec_window_other D h ev e :
  e ≠ EntityID ev → spec_window D (h ++ [ev]) e = spec_window D h e.
Proof.
  intros Hne. unfold spec_window. rewrite spec_watermark_snoc, decide_False by done.
  rewrite filter_app, filter_cons, decide_False by naive_solver. by rewrite filter_nil, app_nil_r.
Qed.

Lemma tracked_snoc h ev e : tracked (h ++ [ev]) e ↔ e = EntityID ev ∨ tracked h e.
Proof. unfold tracked. rewrite fmap_app. set_solver. Qed.

Lemma tracked_evicted k (h : list Event) e :
  tracked (filter (λ x, k = "" ∨ EntityID x ≠ k) h) e ↔ tracked h e ∧ (k = "" ∨ e ≠ k).
Proof.
  unfold tracked. rewrite !list_elem_of_fmap. setoid_rewrite list_elem_of_filter. naive_solver.
Qed.

Lemma decide_iff {A} (P Q : Prop) `{Decision P, Decision Q} (x y : A) :
  (P ↔ Q) → (if decide P then x else y) = (if decide Q then x else y).
Proof. intros. repeat case_decide; tauto. Qed.

Lemma represents_evict (h : list Event) w k :
  represents h w → k ≠ "" →
  represents (filter (λ x, k = "" ∨ EntityID x ≠ k) h) (evictEntityLocked w k).
Proof.
  intros Hr Hk e. simpl. destruct (decide (e = k)) as [->|Hne].
  - by rewrite !lookup_delete_eq, !decide_False by (rewrite tracked_evicted; tauto).
  - rewrite !lookup_delete_ne by done. destruct (Hr e) as [-> ->].
    rewrite spec_window_evicted, spec_watermark_evicted by done.
    split; apply decide_iff; rewrite tracked_evicted; tauto.
Qed.

Lemma represents_record h w ev p :
  represents h w → recordable w ev p → evictEntity p = "" →
  represents (h ++ [ev]) (commitLocked w ev p).
Proof.
  intros Hr Hrec Hne e. unfold commitLocked. rewrite Hne. simpl.
  destruct (represents_of h w (EntityID ev) Hr) as [Hevs Hwm].
  pose proof (rc_watermark w ev p Hrec) as Hnw. rewrite Hwm in Hnw.
  destruct (decide (e = EntityID ev)) as [->|Hn].
  - rewrite !lookup_insert_eq, !decide_True by (rewrite tracked_snoc; tauto). split; f_equal.
    + rewrite (rc_events w ev p Hrec), Hevs. unfold cutoff_of.
      rewrite <-spec_window_snoc, spec_watermark_snoc,
        (decide_True (P:=EntityID ev = EntityID ev)) by done. by rewrite Hnw.
    + rewrite spec_watermark_snoc, decide_True by done. exact Hnw.
  - rewrite !lookup_insert_ne by done. destruct (Hr e) as [-> ->].
    rewrite spec_window_other, spec_watermark_snoc, (decide_False (P:=EntityID ev = e)) by done.
    split; apply decide_iff; rewrite tracked_snoc; tauto.
Qed.

Lemma represents_commit h w ev p :
  wf w → represents h w → prepared w ev p →
  represents (spec_accept (evictEntity p) h ev) (commitLocked w ev p).
Proof.
  intros Hw Hr Hp. destruct (prepared_recordable w ev p Hw Hp) as [_ Hrec].
  rewrite commit_after_eviction. apply represents_record; [|done|done].
  unfold after_eviction. destruct (decide (evictEntity p = "")) as [->|Hne].
  - rewrite filter_all; [done|]. apply Forall_forall. naive_solver.
  - by apply represents_evict.
Qed.
