(* ===== verification/WindowReference.v ===== *)
(** * A reference aggregator

    What the aggregator does with a stream of events, without any incremental
    state: it keeps the accepted events and the offset each partition has
    reached, and recomputes the rest.  [reference] is that program; the
    lemmas show that an update of [Window] which succeeds is one step of it. *)

From Stdlib Require Import ZArith Lia SpecFloat.
From stdpp Require Import prelude gmap strings list.
From S2P Require Import Prelude GoFloat GoString GoSort GoContext Ingestion Window WindowInv WindowSpec.

#[local] Open Scope Z_scope.

(** The accepted events that have not been evicted, oldest first, and the
    offset each partition has reached. *)
Record spec_state := mkSpec { kept : list Event; reached : gmap Z Z }.
Definition spec_new : spec_state := mkSpec [] ∅.

(** An id is remembered while its event is inside the window of its entity. *)
Definition live_ids (D : Z) (h : list Event) : list string :=
  ID <$> filter (λ x, spec_watermark h (EntityID x) - D <= OccurredAt x) h.

Definition behind (offs : gmap Z Z) (ev : Event) : Prop :=
  match offs !! Partition ev with Some high => Offset ev <= high | None => False end.
#[export] Instance behind_dec offs ev : Decision (behind offs ev).
Proof. unfold behind. destruct (offs !! Partition ev); apply _. Defined.

(** The entities with accepted events, and the one that makes room for a new
    one when there are [n] of them: the one whose watermark is the oldest. *)
Definition entities (h : list Event) : list string := remove_dups (EntityID <$> h).
Definition spec_victim (n : Z) (h : list Event) (e : string) : string :=
  if decide (tracked h e) then ""
  else if decide (Z.of_nat (length (entities h)) < n) then ""
  else oldest_in ((λ x, (x, spec_watermark h x)) <$> entities h).

(** An event that succeeds: skipped as a duplicate, or accepted. *)
Definition spec_step (D n : Z) (s : spec_state) (ev : Event) : spec_state :=
  if decide (ID ev ∈ live_ids D (kept s) ∨ behind (reached s) ev) then s
  else mkSpec (spec_accept (spec_victim n (kept s) (EntityID ev)) (kept s) ev)
         (<[Partition ev := Offset ev]> (reached s)).

Definition reference (D n : Z) (evs : list Event) : spec_state := fold_left (spec_step D n) evs spec_new.

Lemma reference_snoc D n evs ev : reference D n (evs ++ [ev]) = spec_step D n (reference D n evs) ev.
Proof. unfold reference. by rewrite fold_left_app. Qed.

(** The window implements the state [s]. *)
Definition implements (w : Window) (s : spec_state) : Prop :=
  represents (kept s) w ∧ offsets w = reached s.

(** ** What a represented window knows *)

Lemma seen_live h w i : wf w → represents h w → (i ∈ seen w ↔ i ∈ live_ids (Duration w) h).
Proof.
  intros Hw Hr. rewrite (wf_seen w Hw), elem_of_list_to_set. unfold all_ids, live_ids.
  rewrite list_elem_of_bind, list_elem_of_fmap. split.
  - intros ([e evs] & Hi & He). apply elem_of_map_to_list in He. simpl in Hi.
    destruct (Hr e) as [Hbe _]. rewrite He in Hbe. case_decide as Ht; [|done]. injection Hbe as ->.
    apply list_elem_of_fmap in Hi as (x & -> & Hx). unfold spec_window in Hx. rewrite SliceStable_perm in Hx.
    apply list_elem_of_fmap in Hx as (ev & -> & Hev). apply list_elem_of_filter in Hev as [[<- Hlive] Hev].
    exists ev. split; [done|]. by apply list_elem_of_filter.
  - intros (ev & -> & [Hlive Hev]%list_elem_of_filter).
    assert (tracked h (EntityID ev)) as Ht by by apply list_elem_of_fmap_2.
    exists (EntityID ev, spec_window (Duration w) h (EntityID ev)). split.
    + simpl. change (ID ev) with (id (new_event ev)). apply list_elem_of_fmap_2. unfold spec_window.
      rewrite SliceStable_perm. apply list_elem_of_fmap_2. by apply list_elem_of_filter.
    + apply elem_of_map_to_list. destruct (Hr (EntityID ev)) as [-> _]. by rewrite decide_True.
Qed.

Lemma represents_watermark h w e t :
  represents h w → (watermark w !! e = Some t ↔ tracked h e ∧ t = spec_watermark h e).
Proof. intros Hr. destruct (Hr e) as [_ ->]. case_decide; naive_solver. Qed.

Lemma entities_tracked h e : e ∈ entities h ↔ tracked h e.
Proof. unfold entities. by rewrite elem_of_remove_dups. Qed.

(** The watermarks, listed by entity. *)
Lemma represents_entries h w :
  represents h w → map_to_list (watermark w) ≡ₚ (λ x, (x, spec_watermark h x)) <$> entities h.
Proof.
  intros Hr. apply NoDup_Permutation.
  - apply NoDup_map_to_list.
  - apply NoDup_fmap_2; [by intros ? ? [= ->]|]. apply NoDup_remove_dups.
  - intros [e t]. rewrite elem_of_map_to_list, (represents_watermark h w) by done. rewrite list_elem_of_fmap. split.
    + intros [Ht ->]. exists e. split; [done|]. by apply entities_tracked.
    + intros (x & [= -> ->] & Hx). split; [|done]. by apply entities_tracked.
Qed.

(** The entity that is evicted. *)
Lemma prepareLocked_evict w ev p :
  prepareLocked w ev = Ok p → accepted p = true →
  evictEntity p = if bool_decide (watermark w !! EntityID ev = None) && (maxEntities w <=? Z.of_nat (size (watermark w)))
                  then oldestEntityLocked w else "".
Proof.
  unfold prepareLocked. case_if; [done|]. case_if; [by intros [= <-]|].
  case_if; [by intros [= <-]|]. destruct (_ >? maxEvents w); [done|].
  destruct (accumulate _ _); [|done]. by intros [= <-].
Qed.

Lemma victim_evicted h w ev p :
  wf w → represents h w → prepareLocked w ev = Ok p → accepted p = true →
  evictEntity p = spec_victim (maxEntities w) h (EntityID ev).
Proof.
  intros Hw Hr Hp Ha. rewrite (prepareLocked_evict w ev p Hp Ha). pose proof (represents_entries h w Hr) as Hent.
  assert (Z.of_nat (size (watermark w)) = Z.of_nat (length (entities h))) as Hsize.
  { rewrite <- length_map_to_list, Hent. by rewrite length_fmap. }
  unfold spec_victim, oldestEntityLocked. rewrite Hsize. destruct (Hr (EntityID ev)) as [_ ->].
  case_decide as Ht; [done|]. rewrite bool_decide_eq_true_2 by done. simpl.
  destruct (Z.leb_spec (maxEntities w) (Z.of_nat (length (entities h)))) as [Hle|Hlt].
  - rewrite decide_False by lia. rewrite (wf_active w Hw). apply oldest_in_perm; [done|].
    apply Forall_forall. intros [k t] Hin Hk. simpl in Hk. subst k.
    apply elem_of_map_to_list in Hin. by rewrite (wf_names w Hw) in Hin.
  - by rewrite decide_True.
Qed.

(** ** An update is a step of the reference *)

Lemma prepared_step w s ev p :
  wf w → implements w s → prepareLocked w ev = Ok p →
  implements (if accepted p then commitLocked w ev p else w) (spec_step (Duration w) (maxEntities w) s ev).
Proof.
  intros Hw [Hr Ho] Hp. unfold spec_step. destruct (accepted p) eqn:Ha.
  - pose proof (prepareLocked_spec w ev p Hw Hp Ha) as Hprep. rewrite decide_False.
    + split; cbn [kept reached]; [|by rewrite commit_offsets, Ho].
      rewrite <- (victim_evicted (kept s) w ev p) by done. by apply represents_commit.
    + intros [Hid|Hbe].
      * apply (pr_fresh w ev p Hprep). by apply (seen_live (kept s)).
      * unfold behind in Hbe. rewrite <- Ho in Hbe. destruct (offsets w !! Partition ev) as [high|] eqn:Hh; [|done].
        pose proof (pr_offset w ev p Hprep high Hh). lia.
  - rewrite decide_True; [done|]. destruct (prepareLocked_rejected w ev p Hp Ha) as [Hid|(high & Hh & Hle)].
    + left. by apply (seen_live _ w).
    + right. unfold behind. by rewrite <- Ho, Hh.
Qed.

Lemma commit_limits w ev p :
  Duration (commitLocked w ev p) = Duration w ∧ maxEntities (commitLocked w ev p) = maxEntities w.
Proof. split; [apply commit_duration|]. unfold commitLocked. by case_bool_decide. Qed.

(** A successful update of the window and the sink. *)
Lemma materialize_step {S} `{Materializer S} ctx now w ev (s : S) w' sk fc a :
  wf w → implements w a → ApplyAndMaterialize ctx now w ev (Some s) = (w', sk, Ok fc) →
  implements w' (spec_step (Duration w) (maxEntities w) a ev) ∧
  Duration w' = Duration w ∧ maxEntities w' = maxEntities w.
Proof.
  intros Hw Ha HA. unfold ApplyAndMaterialize in HA. destruct (prepareLocked w ev) as [p|] eqn:Hp; [|done].
  pose proof (prepared_step w a ev p Hw Ha Hp) as Hstep. pose proof (commit_limits w ev p) as Hlim.
  destruct (accepted p); simpl in HA; [|by simplify_eq]. repeat case_match; by simplify_eq.
Qed.

Lemma new_implements d n k : implements (NewWithLimits d n k) spec_new.
Proof. split; [|done]. intros e. simpl. by rewrite !lookup_empty. Qed.
