(* ===== verification/WindowAmounts.v ===== *)
(** * The sums and maxima of a window

    What the accumulation loop of [prepareLocked] computes on the amounts of
    a window, and how far its overflow guard reaches. *)

From Stdlib Require Import ZArith Lia SpecFloat.
From stdpp Require Import prelude gmap strings list.
From S2P Require Import Prelude GoFloat GoString GoSort GoContext Ingestion Window WindowInv WindowSpec.

#[local] Open Scope Z_scope.

(** The two folds the loop performs. *)
Definition total_of (t : float64) (evs : list event) : float64 :=
  fold_left (λ t x, fadd t (amount x)) evs t.
Definition max_of (m : float64) (evs : list event) : float64 :=
  fold_left (λ m x, if fgt (amount x) m then amount x else m) evs m.

(** An amount that passed [validEvent] and fits a 64-bit word. *)
Definition good_amount (x : float64) : Prop :=
  nonneg x = true ∧ finite x = true ∧ valid64 x = true.

Lemma accumulate_ok evs : ∀ fs fs',
  accumulate fs evs = Ok fs' →
  fs' = mkFeatures (feat_EntityID fs) (feat_EventCount fs) (total_of (feat_TotalAmount fs) evs)
          (max_of (feat_MaxAmount fs) evs) (feat_WindowEnd fs).
Proof.
  induction evs as [|x evs IH]; intros fs fs'; simpl.
  - intros [= <-]. by destruct fs.
  - case_if; [done|]. intros Hacc. by rewrite (IH _ _ Hacc).
Qed.

Lemma max_step_le x m :
  nonneg x = true → nonneg m = true →
  let m' := if fgt x m then x else m in
  nonneg m' = true ∧ fle m m' = true ∧ fle x m' = true.
Proof.
  intros Hx Hm. pose proof (nonneg_not_nan x Hx). pose proof (nonneg_not_nan m Hm).
  unfold fgt. destruct (flt m x) eqn:E; simpl.
  - split_and!; [done|by apply flt_fle_incl|by apply fle_refl].
  - split_and!; [done|by apply fle_refl|].
    rewrite flt_fle in E by done. by apply negb_false_iff in E.
Qed.

(** The maximum is an upper bound, and the start value or one of the amounts. *)
Lemma max_of_spec evs : ∀ m,
  nonneg m = true → Forall (λ x, good_amount (amount x)) evs →
  nonneg (max_of m evs) = true ∧ fle m (max_of m evs) = true ∧
  Forall (λ x, fle (amount x) (max_of m evs) = true) evs ∧
  (max_of m evs = m ∨ max_of m evs ∈ amount <$> evs).
Proof.
  induction evs as [|x evs IH]; intros m Hm Hg; simpl.
  { split_and!; auto using fle_refl, nonneg_not_nan. }
  apply Forall_cons in Hg as [[Hx _] Hg].
  destruct (max_step_le (amount x) m Hx Hm) as (Hn & H1 & H2).
  set (m' := if fgt _ _ then _ else _) in *.
  destruct (IH m' Hn Hg) as (Ha & Hb & Hc & Hd). split_and!; [done|by eapply fle_trans|..].
  - constructor; [by eapply fle_trans|done].
  - destruct Hd as [Hd|Hd]; [|right; by right].
    fold (max_of m' evs). rewrite Hd. subst m'. case_if; [right; left|by left].
Qed.

(** The running total stays representable and dominates the running maximum. *)
Lemma total_max_le evs : ∀ t m,
  nonneg t = true → valid64 t = true → nonneg m = true → fle m t = true →
  Forall (λ x, good_amount (amount x)) evs →
  nonneg (total_of t evs) = true ∧ valid64 (total_of t evs) = true ∧
  fle (max_of m evs) (total_of t evs) = true.
Proof.
  induction evs as [|x evs IH]; intros t m Ht Hv Hm Hle Hg; simpl; [done|].
  apply Forall_cons in Hg as [(Hx & _ & Vx) Hg].
  destruct (fadd_nonneg t (amount x) Ht Hx Hv Vx) as (Hn & Hv' & H1 & H2).
  apply IH; [done..| | |done].
  - by destruct (max_step_le (amount x) m Hx Hm).
  - unfold fgt. case_if; [done|]. by eapply fle_trans.
Qed.

(** The loop rejects a window only through its guard: what is left of it is
    the fold. *)
Definition features_of (entity : string) (wm : Z) (evs : list event) : Features :=
  mkFeatures entity (Z.of_nat (length evs)) (total_of fzero evs) (max_of fzero evs) wm.

Lemma prepared_features w ev p :
  prepared w ev p → features p = features_of (EntityID ev) (new_watermark p) (events p).
Proof. intros Hp. by apply pr_features, accumulate_ok in Hp. Qed.

(** ** Stored amounts *)

Definition amounts_ok (w : Window) : Prop :=
  ∀ e, Forall (λ x, good_amount (amount x)) (events_of w e).

Lemma validEvent_amount ev :
  validEvent ev = true → valid64 (Amount ev) = true → good_amount (Amount ev).
Proof.
  unfold validEvent, good_amount, finite. intros H Hv. bool_to_prop.
  rewrite nonneg_fge. split_and!; [done| |done]. rewrite andb_true_iff, !negb_true_iff. done.
Qed.

Lemma wf_no_empty_entity w : wf w → byEntity w !! "" = None.
Proof.
  intros Hw. apply not_elem_of_dom. rewrite (wf_dom w Hw).
  apply not_elem_of_dom, (wf_names w Hw).
Qed.

(** The windows after a commit: the entity's own is replaced, the evicted one
    is gone, the others stay. *)
Lemma commit_events_of w ev p e :
  wf w → prepared w ev p →
  events_of (commitLocked w ev p) e =
    if decide (e = EntityID ev) then events p
    else if decide (e = evictEntity p) then [] else events_of w e.
Proof.
  intros Hw Hp. rewrite commit_after_eviction. unfold events_of, commitLocked. simpl.
  case_decide as He; [by subst; rewrite lookup_insert_eq|].
  rewrite lookup_insert_ne by done. unfold after_eviction.
  destruct (decide (evictEntity p = "")) as [Hk|Hk]; simpl.
  - case_decide as Hek; [|done]. subst e. by rewrite Hk, (wf_no_empty_entity w Hw).
  - rewrite lookup_delete. by repeat case_decide.
Qed.

Lemma commit_amounts_ok w ev p :
  wf w → amounts_ok w → valid64 (Amount ev) = true → prepared w ev p →
  Forall (λ x, good_amount (amount x)) (events p) ∧ amounts_ok (commitLocked w ev p).
Proof.
  intros Hw Ha Hv Hp.
  assert (Forall (λ x, good_amount (amount x)) (events p)) as He.
  { rewrite (pr_events w ev p Hp), SliceStable_perm, Forall_app. split.
    - specialize (Ha (EntityID ev)). rewrite Forall_forall in *. intros x Hx.
      apply list_elem_of_filter in Hx as [_ Hx]. by apply Ha.
    - case_decide; constructor; [|done]. apply validEvent_amount; [apply Hp|done]. }
  split; [done|]. intros e. rewrite commit_events_of by done. repeat case_decide; done || apply Ha.
Qed.

(** States reached by events whose amounts are 64-bit floats. *)
Inductive reachable64 : Window → Prop :=
| reachable64_new d n k : reachable64 (NewWithLimits d n k)
| reachable64_apply w ev :
    reachable64 w → valid64 (Amount ev) = true → reachable64 (Apply w ev).1
| reachable64_materialize {S} `{Materializer S} ctx now w ev (sink : option S) :
    reachable64 w → valid64 (Amount ev) = true →
    reachable64 (ApplyAndMaterialize ctx now w ev sink).1.1.

Lemma reachable64_reachable w : reachable64 w → reachable w.
Proof. induction 1; by constructor. Qed.

Lemma reachable64_amounts w : reachable64 w → amounts_ok w.
Proof.
  induction 1 as [d n k|w ev Hr Ha Hv|S HS ctx now w ev sink Hr Ha Hv].
  - intros e. unfold events_of. simpl. rewrite lookup_empty. constructor.
  - pose proof (reachable_wf w (reachable64_reachable w Hr)) as Hw.
    destruct (Apply w ev) as [w' r] eqn:E.
    destruct (Apply_cases w ev w' r Hw E) as [[-> _]|(p & Hp & _ & _ & -> & _)]; [done|].
    by apply commit_amounts_ok.
  - pose proof (reachable_wf w (reachable64_reachable w Hr)) as Hw.
    destruct (ApplyAndMaterialize ctx now w ev sink) as [[w' s'] r] eqn:E.
    destruct (Materialize_cases ctx now w ev sink w' s' r Hw E)
      as [[-> _]|(p & Hp & _ & _ & -> & _)]; [done|].
    by apply commit_amounts_ok.
Qed.
