(* ===== verification/Materialize.v ===== *)
(** * Package [aggregations]: the feature sinks

    [stream_processor/aggregations/materialize.go]: the validation every sink
    performs, the in-memory sink and the Redis sink with its 32-value vector.
    Both sinks are instances of the [Materializer] interface of [Window.v]. *)

From Stdlib Require Import ZArith Lia SpecFloat Ascii.
From stdpp Require Import prelude gmap strings list.
From S2P Require Import Prelude GoFloat GoString GoContext GoTLS GoRedis Ingestion Window.

#[local] Open Scope Z_scope.
#[local] Open Scope go_scope.

(** [strconv.FormatFloat(x, 'g', -1, 64)] and [strconv.ParseFloat(s, 64)],
    with what the package documents of them: the shortest decimal that parses
    back to the same value, and correctly rounded parsing of (64-bit) integers. *)
Class FloatText := {
  FormatFloat : float64 → string;
  ParseFloat : string → result float64;
}.

Class FloatTextLaws `(FloatText) : Prop := {
  parse_format x : finite x = true → valid64 x = true → ParseFloat (FormatFloat x) = Ok x;
  parse_itoa n : 0 <= n < 2 ^ 63 → ParseFloat (Itoa n) = Ok (float_of_Z n 0);
  format_separators x c : c ∈ [","; " "; "010"]%char → has_char c (FormatFloat x) = false;
}.

Definition validateMaterializedFeatures (fs : Features) : option error :=
  if bool_decide (feat_EntityID fs = "") || (256 <? len (feat_EntityID fs))
     || ContainsAny (feat_EntityID fs) [13; 10]
     || (feat_EventCount fs <? 0) || flt (feat_TotalAmount fs) fzero || flt (feat_MaxAmount fs) fzero
     || IsNaN (feat_TotalAmount fs) || IsInf (feat_TotalAmount fs)
     || IsNaN (feat_MaxAmount fs) || IsInf (feat_MaxAmount fs)
     || fgt (feat_MaxAmount fs) (feat_TotalAmount fs)
  then Some (Fresh "invalid materialized fraud features") else None.

Module MemoryMaterializer.

Record t := mk { values : gmap string Features }.

Definition NewMemoryMaterializer : t := mk ∅.

Definition Put (ctx : Context) (now : Z) (fs : Features) (m : t) : t * option error :=
  match ctx_err ctx now with
  | Some err => (m, Some err)
  | None =>
      match validateMaterializedFeatures fs with
      | Some err => (m, Some err)
      | None => (mk (<[feat_EntityID fs := fs]> (values m)), None)
      end
  end.

Definition Get (entity : string) (m : t) : option Features := values m !! entity.

End MemoryMaterializer.

#[export] Instance memory_materializer : Materializer MemoryMaterializer.t :=
  MemoryMaterializer.Put.

Definition MaterializedFeatureWidth : nat := 32.

(** The vector [RedisMaterializer.Put] writes: a slice of 32 strings, the
    first three overwritten. *)
Definition feature_vector `{FloatText} (fs : Features) : list string :=
  <[2%nat := FormatFloat (feat_MaxAmount fs)]>
    (<[1%nat := FormatFloat (feat_TotalAmount fs)]>
      (<[0%nat := Itoa (feat_EventCount fs)]> (replicate MaterializedFeatureWidth "0"))).

Module RedisMaterializer.

Record RedisConfig := mkConfig {
  Address : string;
  Timeout : Z;
  Username : string;
  Password : string;
  UseTLS : bool;
  CAFile : string;
  ServerName : string;
  CertFile : string;
  KeyFile : string;
}.

Definition redisTLSConfig `{TLSFiles} (useTLS : bool) (caFile serverName certFile keyFile : string) :
    result (option tls_Config) :=
  if negb (Bool.eqb (bool_decide (certFile = "")) (bool_decide (keyFile = "")))
  then Err (Fresh "Redis TLS client certificate and key must be supplied together")
  else if negb useTLS then
    if bool_decide (caFile ≠ "") || bool_decide (serverName ≠ "") || bool_decide (certFile ≠ "")
    then Err (Fresh "Redis TLS options require UseTLS=true")
    else Ok None
  else
    let! roots :=
      if bool_decide (caFile ≠ "") then
        let! pem := wrap_err "read Redis TLS CA" (ReadFile caFile) in
        match AppendCertsFromPEM pem with
        | None => Err (Fresh "Redis TLS CA contains no certificates")
        | Some pool => Ok (Some pool)
        end
      else Ok None in
    let! certs :=
      if bool_decide (certFile ≠ "") then
        let! c := wrap_err "load Redis TLS client certificate" (LoadX509KeyPair certFile keyFile) in
        Ok [c]
      else Ok [] in
    Ok (Some (mkTLS _ VersionTLS13 roots serverName certs)).

Section redis.
(** The state of the Redis server and its client's SET, PING and Close. *)
Context `{FloatText} {R : Type}.
Context (client_Set : Context → Z → string → string → R → R * option error).
Context (client_Ping : Context → Z → R → R * option error).
Context (client_Close : R → R * option error).

(** [client] is [None] for a nil pointer. *)
Record t := mk { client : option R; timeout : Z }.

(** [redis.NewClient] is a parameter: it only allocates. *)
Definition NewRedisMaterializerWithConfig `{TLSFiles} (NewClient : Options → R) (config : RedisConfig) : result t :=
  if bool_decide (Address config = "") then Err (Fresh "Redis address is required")
  else
    let Timeout := if Timeout config <=? 0 then 100 * Millisecond else Timeout config in
    let! tlsConfig := redisTLSConfig (UseTLS config) (CAFile config) (ServerName config)
                        (CertFile config) (KeyFile config) in
    Ok (mk (Some (NewClient (mkOptions _ (Address config) (Username config) (Password config)
           tlsConfig 2 Timeout Timeout Timeout 8 1 (-1) true))) Timeout).

Definition NewRedisMaterializer `{TLSFiles} (NewClient : Options → R) (address : string) (timeout : Z) : result t :=
  NewRedisMaterializerWithConfig NewClient (mkConfig address timeout "" "" false "" "" "" "").

Definition Put (ctx : Context) (now : Z) (fs : Features) (r : t) : t * option error :=
  match client r with
  | None => (r, Some (Fresh "invalid Redis materialization request"))
  | Some c =>
      match validateMaterializedFeatures fs with
      | Some err => (r, Some err)
      | None =>
          let value := Join "," (feature_vector fs) in
          let request_ctx := WithTimeout ctx now (timeout r) in
          let '(c', err) := client_Set request_ctx now (feat_EntityID fs) value c in
          (mk (Some c') (timeout r), err)
      end
  end.

Definition Probe (ctx : Context) (now : Z) (r : t) : t * option error :=
  match client r with
  | None => (r, Some (Fresh "Redis materializer is closed"))
  | Some c =>
      let '(c', err) := client_Ping (WithTimeout ctx now (timeout r)) now c in
      (mk (Some c') (timeout r), err)
  end.

Definition Close (r : t) : t * option error :=
  match client r with
  | None => (r, None)
  | Some c => let '(c', err) := client_Close c in (mk (Some c') (timeout r), err)
  end.
End redis.
End RedisMaterializer.

(** The validation, as conditions on the fields. *)
Lemma validate_none fs :
  feat_EntityID fs ≠ "" → len (feat_EntityID fs) <= 256 →
  ContainsAny (feat_EntityID fs) [13; 10] = false → 0 <= feat_EventCount fs →
  nonneg (feat_TotalAmount fs) = true → nonneg (feat_MaxAmount fs) = true →
  IsInf (feat_MaxAmount fs) = false → fle (feat_MaxAmount fs) (feat_TotalAmount fs) = true →
  validateMaterializedFeatures fs =
    if IsInf (feat_TotalAmount fs) then Some (Fresh "invalid materialized fraud features") else None.
Proof.
  intros He Hl Hc Hn Ht Hm Hi Hle. unfold validateMaterializedFeatures, fgt.
  pose proof (nonneg_not_nan _ Ht). pose proof (nonneg_not_nan _ Hm).
  assert (∀ x, nonneg x = true → flt x fzero = false) as Hlt by by intros [[]|[]| |[]].
  rewrite bool_decide_eq_false_2, (proj2 (Z.ltb_ge _ _) Hl), Hc, (proj2 (Z.ltb_ge _ _) Hn),
    !Hlt, Hi, (flt_fle (feat_TotalAmount fs)), Hle by done.
  simpl. rewrite H, H0. by destruct (IsInf (feat_TotalAmount fs)).
Qed.
