(* ===== verification/Sinks.v ===== *)
(** * The contract of a feature sink

    What the aggregator may rely on of the sink it materializes into, as a
    class, with the in-memory and the Redis sink of [Materialize.v] as its
    instances.  A sink keeps some projection of the features of an entity.  A
    write that was reported as failed may still take effect, at once or later,
    as a SET that timed out at the client may be executed by the server; a
    sink that has such writes lists them in [unsettled]. *)

From Stdlib Require Import ZArith Lia SpecFloat.
From stdpp Require Import prelude gmap strings list.
From S2P Require Import Prelude GoFloat GoString GoContext GoRedis Ingestion Window Materialize.

#[local] Open Scope Z_scope.

Class SinkLaws (S V : Type) `{Materializer S} := {
  project : Features → V;
  view : S → string → option V;
  unsettled : S → list (string * V);
  (** After a call an entity reads as it did before, or as what a successful
      call wrote for it; or as one of its unsettled writes. *)
  put_view ctx now fs s s' err e :
    Window.Put ctx now fs s = (s', err) →
    view s' e = (if decide (err = None ∧ e = feat_EntityID fs) then Some (project fs) else view s e) ∨
    ∃ v, (e, v) ∈ unsettled s' ∧ view s' e = Some v;
  (** Only a failed call adds to the unsettled writes. *)
  put_unsettled ctx now fs s s' err e v :
    Window.Put ctx now fs s = (s', err) →
    ((e, v) ∈ unsettled s → (e, v) ∈ unsettled s') ∧
    ((e, v) ∈ unsettled s' → (e, v) ∈ unsettled s ∨ (err ≠ None ∧ e = feat_EntityID fs ∧ v = project fs));
}.
#[global] Hint Mode SinkLaws ! - - : typeclass_instances.

(** ** The in-memory sink keeps all of the features *)

#[export] Program Instance memory_sink_laws : SinkLaws MemoryMaterializer.t Features :=
  {| project fs := fs; view m e := MemoryMaterializer.Get e m; unsettled _ := [] |}.
Next Obligation.
  intros ctx now fs s s' err e. unfold Window.Put, memory_materializer, MemoryMaterializer.Put.
  destruct (ctx_err ctx now); [|destruct (validateMaterializedFeatures fs)]; intros [= <- <-]; left;
    [by rewrite decide_False by naive_solver..|].
  unfold MemoryMaterializer.Get. cbn [MemoryMaterializer.values]. destruct (decide (e = feat_EntityID fs)) as [->|Hne].
  - by rewrite decide_True, lookup_insert_eq.
  - by rewrite decide_False, lookup_insert_ne by naive_solver.
Qed.
Next Obligation. intros ctx now fs s s' err e v _. by split; intros ?%not_elem_of_nil. Qed.

(** ** The Redis sink keeps the vector *)

(** SET as the server documents it: a reply other than an error means that
    the value is stored under the key and no other key is touched; without a
    reply the command may have been executed, or still be. *)
Class RedisSet {R} (client_Set : Context → Z → string → string → R → R * option error)
    (stored : R → gmap string string) (unanswered : R → list (string * string)) : Prop := {
  set_stored ctx now k v c c' err k' :
    client_Set ctx now k v c = (c', err) →
    stored c' !! k' = (if decide (err = None ∧ k' = k) then Some v else stored c !! k') ∨
    ∃ v', (k', v') ∈ unanswered c' ∧ stored c' !! k' = Some v';
  set_unanswered ctx now k v c c' err x :
    client_Set ctx now k v c = (c', err) →
    (x ∈ unanswered c → x ∈ unanswered c') ∧
    (x ∈ unanswered c' → x ∈ unanswered c ∨ (err ≠ None ∧ x = (k, v)));
}.

Section redis.
Context `{FloatText} {R : Type}.
Context (client_Set : Context → Z → string → string → R → R * option error).
Context (stored : R → gmap string string) (unanswered : R → list (string * string)).
Context `{!RedisSet client_Set stored unanswered}.

Definition redis_materializer : Materializer (RedisMaterializer.t (R := R)) := RedisMaterializer.Put client_Set.
#[local] Existing Instance redis_materializer.

Definition redis_view (r : RedisMaterializer.t) (e : string) : option string :=
  c ← RedisMaterializer.client r; stored c !! e.
Definition redis_unsettled (r : RedisMaterializer.t) : list (string * string) :=
  match RedisMaterializer.client r with Some c => unanswered c | None => [] end.

(** A call that fails before it reaches the server changes nothing. *)
Lemma redis_put_cases ctx now fs r r' err :
  RedisMaterializer.Put client_Set ctx now fs r = (r', err) →
  (r' = r ∧ err ≠ None) ∨
  ∃ c c' ctx', RedisMaterializer.client r = Some c ∧ RedisMaterializer.client r' = Some c' ∧
    client_Set ctx' now (feat_EntityID fs) (Join "," (feature_vector fs)) c = (c', err).
Proof.
  unfold RedisMaterializer.Put. destruct (RedisMaterializer.client r) as [c|] eqn:Hc; [|intros [= <- <-]; by left].
  destruct (validateMaterializedFeatures fs); [intros [= <- <-]; by left|].
  destruct (client_Set _ now _ _ c) as [c' e] eqn:Hs. intros [= <- <-]. right. by eexists c, c', _.
Qed.

#[export] Program Instance redis_sink_laws : SinkLaws (RedisMaterializer.t (R := R)) string :=
  {| project fs := Join "," (feature_vector fs); view := redis_view; unsettled := redis_unsettled |}.
Next Obligation.
  intros ctx now fs s s' err e HP. apply redis_put_cases in HP as [[-> Hne]|(c & c' & ctx' & Hc & Hc' & Hs)].
  - left. by rewrite decide_False by naive_solver.
  - unfold redis_view, redis_unsettled. rewrite Hc, Hc'. simpl. by eapply set_stored.
Qed.
Next Obligation.
  intros ctx now fs s s' err e v HP. apply redis_put_cases in HP as [[-> Hne]|(c & c' & ctx' & Hc & Hc' & Hs)].
  - split; auto.
  - unfold redis_unsettled. rewrite Hc, Hc'. destruct (set_unanswered _ _ _ _ _ _ _ (e, v) Hs) as [H1 H2].
    split; [done|]. intros [|[? [= -> ->]]]%H2; auto.
Qed.
End redis.

(** *** A server that loses replies *)

(** The map of the server and the writes whose reply was lost: a write at an
    odd instant is executed and reported as timed out. *)
Definition lossy_Set (ctx : Context) (now : Z) (k v : string) (c : gmap string string * list (string * string)) :
    (gmap string string * list (string * string)) * option error :=
  if Z.odd now then ((<[k := v]> c.1, (k, v) :: c.2), Some (Fresh "i/o timeout"))
  else ((<[k := v]> c.1, c.2), None).

#[export] Instance lossy_server : RedisSet lossy_Set fst snd.
Proof.
  constructor.
  - unfold lossy_Set. intros ctx now k v [m l] c' err k'. destruct (Z.odd now); intros [= <- <-]; cbn [fst snd].
    + destruct (decide (k' = k)) as [->|Hne].
      * right. exists v. split; [by left|]. apply lookup_insert_eq.
      * left. rewrite decide_False by naive_solver. by apply lookup_insert_ne.
    + left. destruct (decide (k' = k)) as [->|Hne]; [by rewrite decide_True, lookup_insert_eq|].
      by rewrite decide_False, lookup_insert_ne by naive_solver.
  - unfold lossy_Set. intros ctx now k v [m l] c' err x. destruct (Z.odd now); intros [= <- <-]; simpl.
    + rewrite elem_of_cons. naive_solver.
    + tauto.
Qed.
