(* ===== verification/Exposition.v ===== *)
(** * The Prometheus text the [/metrics] handlers write

    A page is a list of samples, one per line: a series (the metric's name and
    its label, if any) and a value.  The handlers of the gateway, the worker
    and the stream processor differ in their samples only. *)

From Stdlib Require Import ZArith Ascii.
From stdpp Require Import prelude strings list.
From S2P Require Import Prelude GoFloat GoString GoContext Materialize.

#[local] Open Scope Z_scope.
#[local] Open Scope go_scope.

Definition newline : string := String "010"%char "".
(** [%q] of a label that needs no escape. *)
Definition quoted (s : string) : string := String "034"%char (s ++ String "034"%char "").

Record sample := mkSample { series : string; sample_value : string }.

(** A counter; a series of a metric with one label; the series of a cumulative
    histogram, one per bound. *)
Definition counter (name : string) (n : Z) : sample := mkSample name (Itoa n).
Definition labelled (name label value : string) (n : Z) : sample :=
  mkSample (name ++ "{" ++ label ++ "=" ++ quoted value ++ "}") (Itoa n).
Definition buckets (name : string) (bounds : list string) (counts : list Z) : list sample :=
  zip_with (labelled (name ++ "_bucket") "le") bounds counts.
(** [float64(nanos)/float64(time.Second)], printed with [%g]. *)
Definition seconds_sum `{FloatText} (name : string) (nanos : Z) : sample :=
  mkSample name (FormatFloat (fdiv (float_of_Z nanos 0) (float_of_Z Second 0))).

Definition line (s : sample) : string := series s ++ " " ++ sample_value s ++ newline.
Definition page (samples : list sample) : string := foldr (λ s text, line s +:+ text) "" samples.

(** ** Reading a page *)

(** A scraper: one sample per line, the series up to the space. *)
Definition scrape_line (l : string) : option sample :=
  match Split " " l with [name; v] => Some (mkSample name v) | _ => None end.
Definition scrape (text : string) : option (list sample) :=
  match reverse (Split "010" text) with
  | "" :: lines => mapM scrape_line (reverse lines)
  | _ => None
  end.

(** Neither spaces nor line ends inside a series or a value. *)
Definition clean (text : string) : bool := negb (has_char " " text) && negb (has_char "010" text).
Definition clean_sample (s : sample) : bool := clean (series s) && clean (sample_value s).

Lemma line_text s t : line s +:+ t = (series s +:+ String " " (sample_value s)) +:+ String "010" t.
Proof. unfold line, newline. by rewrite !append_assoc. Qed.

Lemma Split_page samples :
  Forall (λ s, clean_sample s = true) samples →
  Split "010" (page samples) = ((λ s, series s +:+ String " " (sample_value s)) <$> samples) ++ [""].
Proof.
  induction 1 as [|s samples Hs _ IH]; [done|]. change (page (s :: samples)) with (line s +:+ page samples).
  rewrite line_text, Split_app, IH; [done|].
  unfold clean_sample, clean in Hs. bool_to_prop. rewrite has_char_app. cbn [has_char].
  by rewrite H1, H2, bool_decide_eq_false_2.
Qed.

(** Scraping a page gives its samples back. *)
Lemma scrape_page samples : Forall (λ s, clean_sample s = true) samples → scrape (page samples) = Some samples.
Proof.
  intros Hs. unfold scrape. rewrite Split_page, reverse_app by done. change (reverse [""]) with [""]. cbn [app].
  rewrite reverse_involutive. apply mapM_Some_2. apply Forall2_fmap_l. induction Hs as [|s samples Hs _ IH]; [done|].
  constructor; [|done]. unfold clean_sample, clean in Hs. bool_to_prop. unfold compose, scrape_line.
  rewrite Split_app, Split_no_sep by done. by destruct s.
Qed.

Lemma clean_Itoa n : clean (Itoa n) = true.
Proof. unfold clean. by rewrite !Itoa_no_char. Qed.
Lemma clean_FormatFloat `{FloatTextLaws} x : clean (FormatFloat x) = true.
Proof. unfold clean. rewrite !format_separators; [done|..]; by right; repeat constructor. Qed.

Lemma clean_buckets name bounds counts :
  Forall (λ b, clean (series (labelled (name ++ "_bucket") "le" b 0)) = true) bounds →
  Forall (λ s, clean_sample s = true) (buckets name bounds counts).
Proof.
  intros Hb. revert counts. induction Hb as [|b bounds Hb _ IH]; intros [|n counts]; try done.
  constructor; [|apply IH]. unfold clean_sample. apply andb_true_iff. split; [exact Hb|apply clean_Itoa].
Qed.

Lemma clean_sample_Itoa name n : clean name = true → clean_sample (mkSample name (Itoa n)) = true.
Proof. intros Hn. apply andb_true_iff. split; [exact Hn|apply clean_Itoa]. Qed.
Lemma clean_sample_float `{FloatTextLaws} name x : clean name = true → clean_sample (mkSample name (FormatFloat x)) = true.
Proof. intros Hn. apply andb_true_iff. split; [exact Hn|apply clean_FormatFloat]. Qed.

(** Pages whose series are constants: by the lemmas on their values. *)
Ltac clean_samples :=
  repeat first
    [ apply Forall_nil_2
    | apply Forall_cons_2; [first [apply clean_sample_Itoa | apply clean_sample_float]; reflexivity|]
    | apply Forall_app; split
    | apply clean_buckets; repeat (apply Forall_cons_2; [reflexivity|]) ].
