(* ===== verification/StreamProcessor.v ===== *)
(** * The stream-processor command

    [stream_processor/cmd/stream-processor/main.go]: the event handler that
    feeds the aggregator, the operational state it keeps, readiness, and the
    configuration from the environment.  The goroutines of [main] (the HTTP
    server, the consumer, the signal handler) only meet in its final [select],
    which is [shutdown]; JSON decoding of standard input is a parameter. *)

From Stdlib Require Import ZArith Lia SpecFloat Ascii.
From stdpp Require Import prelude gmap strings list.
From S2P Require Import Prelude GoFloat GoString GoContext GoEnv GoNet Ingestion GoTLS GoRedis Kafka KafkaConfig Window Materialize Exposition.

#[local] Open Scope Z_scope.
#[local] Open Scope go_scope.

(** ** Operational state *)

(** The atomics of [operationalState]; [eventLagBits] holds the bits of a
    float64, here the float itself. *)
Record operationalState := mkState {
  ready : bool;
  attempts : Z;
  events : Z;
  materialized : Z;
  failures : Z;
  eventLag : float64;
}.
Definition initial_state : operationalState := mkState false 0 0 0 0 fzero.

(** [time.Since(t)]: [Time.Sub] saturates at the range of a [Duration]. *)
Definition Since (t now : Z) : Z := Z.max (- 2 ^ 63) (Z.min MaxInt64 (now - t)).
(** [Duration.Seconds]. *)
Definition Seconds (d : Z) : float64 :=
  fadd (float_of_Z (Z.quot d Second) 0) (fdiv (float_of_Z (Z.rem d Second) 0) (float_of_Z 1000000000 0)).

Definition event_lag (occurred now : Z) : float64 :=
  let lag := Seconds (Since occurred now) in
  if flt lag fzero then fzero else lag.

Section process.
Context {S : Type} `{Materializer S}.

(** What the callback given to [Consume] works on. *)
Record process := mkProcess {
  window : Window;
  sink : option S;
  state : operationalState;
}.

Definition handle_event (ctx : Context) (now : Z) (ev : Event) (p : process) : process * option error :=
  let st := state p in
  let st := mkState (ready st) (wrap64 (attempts st + 1)) (events st) (materialized st) (failures st)
              (event_lag (OccurredAt ev) now) in
  let '(w, s, r) := ApplyAndMaterialize ctx now (window p) ev (sink p) in
  match r with
  | Err err =>
      (mkProcess w s (mkState false (attempts st) (events st) (materialized st)
                        (wrap64 (failures st + 1)) (eventLag st)), Some err)
  | Ok (_, changed) =>
      (mkProcess w s (mkState true (attempts st) (wrap64 (events st + 1))
                        (if changed : bool then wrap64 (materialized st + 1) else materialized st)
                        (failures st) (eventLag st)), None)
  end.

(** [GET /readyz]: the status code; [probe] is nil for an in-memory sink. *)
Definition readyz (probe : option (Context → Z → S → S * option error)) (ctx : Context) (now : Z) (p : process) :
    process * Z :=
  if negb (ready (state p)) then (p, 503)
  else
    match probe, sink p with
    | Some probe, Some s =>
        let '(s', err) := probe (WithTimeout ctx now (200 * Millisecond)) now s in
        (mkProcess (window p) (Some s') (state p), match err with Some _ => 503 | None => 200 end)
    | _, _ => (p, 200)
    end.
End process.
Arguments process : clear implicits.

(** [GET /metrics]. *)
Definition stream_samples `{FloatText} (st : operationalState) : list sample :=
  [counter "fraud_stream_attempts_total" (attempts st);
   counter "fraud_stream_processed_total" (events st);
   mkSample "fraud_stream_event_lag_seconds" (FormatFloat (eventLag st));
   counter "fraud_stream_materialized_total" (materialized st);
   counter "fraud_stream_failures_total" (failures st)].
Definition stream_metrics `{FloatText} (st : operationalState) : string := page (stream_samples st).

(** The [select] at the end of [main], and whether the process exits with
    status 1. *)
Inductive main_event := CtxDone | ConsumeDone (err : option error) | HTTPFailed (err : error).

Definition shutdown (e : main_event) (st : operationalState) : operationalState * bool :=
  let failed := match e with
                | ConsumeDone (Some err) => negb (errors_Is err Canceled)
                | HTTPFailed _ => true
                | _ => false
                end in
  let n := match e with
           | ConsumeDone _ => if failed then wrap64 (failures st + 1) else failures st
           | _ => failures st
           end in
  (mkState false (attempts st) (events st) (materialized st) n (eventLag st), failed).

(** ** Configuration *)

Section config.
Context `{Env} `{TLSFiles} `{Scram}.

Definition configuredKafka (brokers : list string) (developmentInsecure : bool) : result KafkaConfig :=
  let saslUsername := TrimSpace (Getenv "KAFKA_SASL_USERNAME") in
  let saslPassword := Getenv "KAFKA_SASL_PASSWORD" in
  let clientCert := TrimSpace (Getenv "KAFKA_TLS_CERT_FILE") in
  let clientKey := TrimSpace (Getenv "KAFKA_TLS_KEY_FILE") in
  if negb developmentInsecure
     && negb ((bool_decide (saslUsername ≠ "") && bool_decide (saslPassword ≠ ""))
              || (bool_decide (clientCert ≠ "") && bool_decide (clientKey ≠ "")))
  then Err (Fresh "production Kafka requires SCRAM credentials or a TLS client certificate")
  else
    Ok (mkKafkaConfig brokers (envOr "KAFKA_TOPIC" "financial-events")
          (envOr "KAFKA_GROUP_ID" "fraud-feature-aggregator")
          (envPositiveInt "KAFKA_MAX_ATTEMPTS" 3) (envDuration "KAFKA_RETRY_BACKOFF" (50 * Millisecond))
          (envOr "KAFKA_POISON_POLICY" "halt") developmentInsecure
          (TrimSpace (Getenv "KAFKA_TLS_CA_FILE")) (TrimSpace (Getenv "KAFKA_TLS_SERVER_NAME"))
          clientCert clientKey saslUsername saslPassword (TrimSpace (Getenv "KAFKA_DLQ_TOPIC")) false).

(** [io.EOF]; the first [Decode] of standard input, and what the second one
    returns. *)
Definition io_EOF : error := Sentinel "EOF".
Context (decode_stdin : result (list Event)) (decode_rest : option error).

Inductive source := FromKafka (c : consumer) | FromStdin (m : MemoryConsumer.t).

Definition configuredConsumer (developmentInsecure : bool) : result source :=
  let value := TrimSpace (Getenv "KAFKA_BROKERS") in
  if bool_decide (value ≠ "") then
    let brokers := TrimSpace <$> Split "," value in
    let! config := configuredKafka brokers developmentInsecure in
    let! c := NewKafka config in Ok (FromKafka c)
  else
    match decode_stdin with
    | Err err => if errors_Is err io_EOF then Ok (FromStdin (MemoryConsumer.NewMemory [])) else Err err
    | Ok evs =>
        match decode_rest with
        | Some err => if errors_Is err io_EOF then Ok (FromStdin (MemoryConsumer.NewMemory evs))
                      else Err (Fresh "stdin contains trailing JSON")
        | None => Err (Fresh "stdin contains trailing JSON")
        end
    end.

Definition configuredRedisMaterializer (address : string) (developmentInsecure : bool) :
    result RedisMaterializer.RedisConfig :=
  let username := TrimSpace (Getenv "REDIS_USERNAME") in
  let password := Getenv "REDIS_PASSWORD" in
  let certFile := TrimSpace (Getenv "REDIS_TLS_CERT_FILE") in
  let keyFile := TrimSpace (Getenv "REDIS_TLS_KEY_FILE") in
  if bool_decide (username ≠ "") && bool_decide (password = "")
  then Err (Fresh "REDIS_USERNAME requires REDIS_PASSWORD")
  else if negb developmentInsecure && bool_decide (password = "")
          && (bool_decide (certFile = "") || bool_decide (keyFile = ""))
  then Err (Fresh "production Redis requires REDIS_PASSWORD or a TLS client certificate")
  else
    Ok (RedisMaterializer.mkConfig address (envDuration "REDIS_TIMEOUT" (100 * Millisecond)) username password
          (negb developmentInsecure) (TrimSpace (Getenv "REDIS_TLS_CA_FILE"))
          (TrimSpace (Getenv "REDIS_TLS_SERVER_NAME")) certFile keyFile).

(** [redis.NewClient] is a parameter. *)
Context {R : Type} (NewClient : Options → R).

(** The sink; its [Probe] and [Close] are those of the Redis materializer, or
    nil for the in-memory one. *)
Inductive configured_sink := SinkRedis (r : RedisMaterializer.t (R := R)) | SinkMemory (m : MemoryMaterializer.t).

Definition configuredMaterializer (requireRemote developmentInsecure : bool) : result configured_sink :=
  let address := TrimSpace (Getenv "REDIS_ADDR") in
  if bool_decide (address ≠ "") then
    let! config := configuredRedisMaterializer address developmentInsecure in
    let! r := RedisMaterializer.NewRedisMaterializerWithConfig NewClient config in Ok (SinkRedis r)
  else if requireRemote then Err (Fresh "REDIS_ADDR is required when Kafka ingestion is configured")
  else Ok (SinkMemory MemoryMaterializer.NewMemoryMaterializer).

(** The server with its certificate and key files. *)
Definition configuredHTTPServer (address : string) (developmentInsecure : bool) : result (http_Server * string * string) :=
  let certFile := TrimSpace (Getenv "STREAM_PROCESSOR_TLS_CERT_FILE") in
  let keyFile := TrimSpace (Getenv "STREAM_PROCESSOR_TLS_KEY_FILE") in
  if negb developmentInsecure && (bool_decide (certFile = "") || bool_decide (keyFile = ""))
  then Err (Fresh "STREAM_PROCESSOR_TLS_CERT_FILE and STREAM_PROCESSOR_TLS_KEY_FILE are required unless FRAUD_DEVELOPMENT_INSECURE=true")
  else Ok (operational_server address, certFile, keyFile).

(** The configuration of [main], in its order; [probe_sink] is the start-up
    probe of a Redis sink.  The window starts empty. *)
Record started := mkStarted {
  st_source : source;
  st_sink : configured_sink;
  st_window : Window;
  st_server : http_Server * string * string;
  st_state : operationalState;
}.

Definition startup (probe_sink : RedisMaterializer.t (R := R) → option error) : result started :=
  let developmentInsecure := envBool "FRAUD_DEVELOPMENT_INSECURE" in
  let! src := configuredConsumer developmentInsecure in
  let! snk := configuredMaterializer (match src with FromKafka _ => true | _ => false end) developmentInsecure in
  let w := NewWithLimits (envDuration "STREAM_WINDOW" (300 * Second)) (envPositiveInt "STREAM_MAX_ENTITIES" 100000)
             (envPositiveInt "STREAM_MAX_EVENTS" 1000000) in
  match match snk with SinkRedis r => probe_sink r | SinkMemory _ => None end with
  | Some err => Err err
  | None =>
      let! server := configuredHTTPServer (envOr "STREAM_PROCESSOR_HTTP_ADDR" ":8082") developmentInsecure in
      Ok (mkStarted src snk w server
            (mkState true 0 0 0 0 (eventLag initial_state)))
  end.
End config.
