(* ===== verification/StreamConfigTheorems.v ===== *)
(** * Transport security of the stream processor: claims

    What [startup] guarantees about the connections of the process, for every
    environment. *)

From Stdlib Require Import ZArith Lia SpecFloat.
From stdpp Require Import prelude strings list.
From S2P Require Import Prelude GoFloat GoString GoContext GoEnv GoNet Ingestion GoTLS GoRedis Kafka KafkaConfig Window Materialize StreamProcessor.

#[local] Open Scope Z_scope.
#[local] Open Scope go_scope.

Section security.
Context `{Env} `{TLSFiles} `{Scram}.

Lemma kafkaTLS_ok cfg tls :
  kafkaTLSConfig cfg = Ok tls →
  MinVersion tls = VersionTLS13 ∧ (TrimSpace (TLSClientCertFile cfg) ≠ "" → Certificates tls ≠ []).
Proof.
  unfold kafkaTLSConfig. intros Ht. apply rbind_ok in Ht as (roots & _ & Ht).
  apply rbind_ok in Ht as (certs & Hc & Ht). injection Ht as <-. simpl. split; [done|]. intros Hne.
  rewrite bool_decide_eq_true_2 in Hc by done. apply rbind_ok in Hc as (c & _ & [= <-]). done.
Qed.

Lemma dialer_secure cfg d :
  newKafkaDialer cfg = Ok d →
  (dialer_SASL d ≠ None → dialer_TLS d ≠ None) ∧
  (SASLPassword cfg ≠ "" → dialer_SASL d ≠ None) ∧
  (DevelopmentInsecure cfg = false →
   ∃ tls, dialer_TLS d = Some tls ∧ MinVersion tls = VersionTLS13 ∧
          (TrimSpace (TLSClientCertFile cfg) ≠ "" → Certificates tls ≠ [])).
Proof.
  unfold newKafkaDialer. intros Hd.
  destruct (negb (Bool.eqb _ (bool_decide (TrimSpace (TLSClientKeyFile cfg) = "")))); [done|].
  destruct (negb (Bool.eqb _ (bool_decide (SASLPassword cfg = "")))) eqn:Hpair; [done|].
  destruct (DevelopmentInsecure cfg && (_ || _ || _)); [done|].
  destruct (DevelopmentInsecure cfg && bool_decide (_ ≠ "")) eqn:Hdev; [done|].
  apply rbind_ok in Hd as (tls & Htls & Hd). apply rbind_ok in Hd as (sasl & Hsasl & Hd).
  injection Hd as <-. simpl. apply negb_false_iff, Bool.eqb_prop in Hpair. split_and!.
  - destruct (DevelopmentInsecure cfg); simpl in *.
    + intros Hs. rewrite Hdev in Hsasl. by injection Hsasl as <-.
    + by apply rbind_ok in Htls as (c & _ & [= <-]).
  - intros Hp. rewrite (bool_decide_eq_false_2 (SASLPassword cfg = "")) in Hpair by done.
    apply bool_decide_eq_false in Hpair. rewrite bool_decide_eq_true_2 in Hsasl by done.
    by apply rbind_ok in Hsasl as (mech & _ & [= <-]).
  - intros Hi. rewrite Hi in Htls. simpl in Htls. apply rbind_ok in Htls as (c & Hc & [= <-]).
    exists c. split; [done|]. by apply kafkaTLS_ok.
Qed.

Lemma NewKafka_dialer cfg c :
  NewKafka cfg = Ok c →
  newKafkaDialer cfg = Ok (reader_Dialer (reader c)) ∧
  ∀ wr, dlqWriter c = Some wr →
    transport_TLS (writer_Transport wr) = dialer_TLS (reader_Dialer (reader c)) ∧
    transport_SASL (writer_Transport wr) = dialer_SASL (reader_Dialer (reader c)).
Proof.
  unfold NewKafka. intros Hc. ok_steps Hc. injection Hc as <-. simpl. split; [done|].
  intros wr. case_if; [|done]. by intros [= <-].
Qed.

Lemma redisTLS_ok ca sn cert key o :
  RedisMaterializer.redisTLSConfig true ca sn cert key = Ok o →
  ∃ tls, o = Some tls ∧ MinVersion tls = VersionTLS13 ∧ (cert ≠ "" → Certificates tls ≠ []).
Proof.
  unfold RedisMaterializer.redisTLSConfig. intros Ht. case_if; [done|]. simpl in Ht.
  apply rbind_ok in Ht as (roots & _ & Ht). apply rbind_ok in Ht as (certs & Hc & Ht). injection Ht as <-.
  eexists. split; [done|]. simpl. split; [done|]. intros Hne.
  rewrite bool_decide_eq_true_2 in Hc by done. by apply rbind_ok in Hc as (c & _ & [= <-]).
Qed.
End security.

Section startup.
Context `{Env} `{TLSFiles} `{Scram} {R : Type} (NewClient : Options → R).
Context (decode_stdin : result (list Event)) (decode_rest : option error).

Lemma configuredConsumer_kafka dev c :
  configuredConsumer decode_stdin decode_rest dev = Ok (FromKafka c) →
  ∃ brokers cfg, configuredKafka brokers dev = Ok cfg ∧ NewKafka cfg = Ok c.
Proof.
  unfold configuredConsumer. case_if.
  - intros Hc. apply rbind_ok in Hc as (cfg & Hcfg & Hc). apply rbind_ok in Hc as (c' & Hc' & [= <-]). eauto.
  - repeat case_match; done.
Qed.

Lemma configuredKafka_fields brokers dev cfg :
  configuredKafka brokers dev = Ok cfg →
  DevelopmentInsecure cfg = dev ∧
  (dev = false → SASLPassword cfg ≠ "" ∨ TrimSpace (TLSClientCertFile cfg) ≠ "").
Proof.
  unfold configuredKafka. case_if; [done|]. intros [= <-]. simpl. split; [done|]. intros ->.
  rewrite TrimSpace_idemp. simpl in Hif. apply negb_false_iff, orb_true_iff in Hif as [Hb|Hb]; bool_to_prop; auto.
Qed.

Lemma configuredMaterializer_redis remote r :
  configuredMaterializer NewClient remote false = Ok (SinkRedis r) →
  ∃ opts tls, RedisMaterializer.client r = Some (NewClient opts) ∧ opt_TLSConfig opts = Some tls ∧
    MinVersion tls = VersionTLS13 ∧ (opt_Password opts ≠ "" ∨ Certificates tls ≠ []).
Proof.
  unfold configuredMaterializer. case_if; [|by case_if]. intros Hm.
  apply rbind_ok in Hm as (cfg & Hcfg & Hm). apply rbind_ok in Hm as (r' & Hr & [= <-]).
  unfold configuredRedisMaterializer in Hcfg. case_if; [done|]. case_if; [done|]. injection Hcfg as <-.
  unfold RedisMaterializer.NewRedisMaterializerWithConfig in Hr. case_if; [done|].
  apply rbind_ok in Hr as (o & Ho & [= <-]). apply redisTLS_ok in Ho as (tls & -> & Hv & Hc).
  do 2 eexists. split_and!; [done|done|done|]. simpl in *.
  destruct (decide (Getenv "REDIS_PASSWORD" = "")) as [E|]; [right|by left]. apply Hc. intros Hcert.
  rewrite bool_decide_eq_true_2, (bool_decide_eq_true_2 (TrimSpace _ = "")) in Hif1 by done. done.
Qed.
End startup.

(** ** Claims *)

(** C13: outside development mode nothing travels in plaintext or
    unauthenticated.  For every environment in which the stream processor
    starts: Kafka credentials are only ever configured on a TLS connection;
    and unless FRAUD_DEVELOPMENT_INSECURE is true, the Kafka reader uses
    TLS 1.3 with SCRAM credentials or a client certificate, the dead-letter
    writer uses the same TLS and SCRAM settings, a Kafka source comes with a
    Redis sink, the Redis client uses TLS 1.3 with a password or a client
    certificate, and the operational server has a certificate and a key. *)
Theorem production_never_plaintext `{Env} `{TLSFiles} `{Scram} {R} (NewClient : Options → R) input rest probe st :
  startup input rest NewClient probe = Ok st →
  (∀ c, st_source st = FromKafka c →
     dialer_SASL (reader_Dialer (reader c)) ≠ None → dialer_TLS (reader_Dialer (reader c)) ≠ None) ∧
  (envBool "FRAUD_DEVELOPMENT_INSECURE" = false →
   (∀ c, st_source st = FromKafka c →
      ∃ tls, dialer_TLS (reader_Dialer (reader c)) = Some tls ∧ MinVersion tls = VersionTLS13 ∧
        (dialer_SASL (reader_Dialer (reader c)) ≠ None ∨ Certificates tls ≠ []) ∧
        (∀ wr, dlqWriter c = Some wr →
           transport_TLS (writer_Transport wr) = Some tls ∧
           transport_SASL (writer_Transport wr) = dialer_SASL (reader_Dialer (reader c))) ∧
        ∃ r, st_sink st = SinkRedis r) ∧
   (∀ r, st_sink st = SinkRedis r →
      ∃ opts tls, RedisMaterializer.client r = Some (NewClient opts) ∧ opt_TLSConfig opts = Some tls ∧
        MinVersion tls = VersionTLS13 ∧ (opt_Password opts ≠ "" ∨ Certificates tls ≠ [])) ∧
   (server_MinVersion (st_server st).1.1 = VersionTLS13 ∧ (st_server st).1.2 ≠ "" ∧ (st_server st).2 ≠ "")).
Proof.
  unfold startup. intros Hs. apply rbind_ok in Hs as (src & Hsrc & Hs). apply rbind_ok in Hs as (snk & Hsnk & Hs).
  destruct (match snk with SinkRedis r => probe r | SinkMemory _ => None end); [done|].
  apply rbind_ok in Hs as (srv & Hsrv & [= <-]). simpl.
  assert (∀ c, src = FromKafka c → ∃ brokers cfg, configuredKafka brokers (envBool "FRAUD_DEVELOPMENT_INSECURE") = Ok cfg ∧
            NewKafka cfg = Ok c) as Hk by (intros c ->; by eapply configuredConsumer_kafka).
  split.
  { intros c Hc. destruct (Hk c Hc) as (br & cfg & _ & Hn). apply NewKafka_dialer in Hn as [Hd _].
    by apply dialer_secure in Hd as [Hd _]. }
  intros Hdev. rewrite Hdev in *. split; [|split].
  - intros c Hc. destruct (Hk c Hc) as (br & cfg & Hcfg & Hn). apply configuredKafka_fields in Hcfg as [Hi Hauth].
    apply NewKafka_dialer in Hn as [Hd Hw]. apply dialer_secure in Hd as (_ & Hsasl & Htls).
    destruct (Htls Hi) as (tls & Ht & Hv & Hcert). exists tls. split_and!; [done|done| | |].
    + destruct (Hauth eq_refl); auto.
    + intros wr Hwr. by rewrite <- Ht; apply Hw.
    + subst src. unfold configuredMaterializer in Hsnk. case_if; [|done].
      apply rbind_ok in Hsnk as (? & _ & Hsnk). apply rbind_ok in Hsnk as (r & _ & [= <-]). eauto.
  - intros r ->. by eapply configuredMaterializer_redis.
  - unfold configuredHTTPServer in Hsrv. case_if; [done|]. injection Hsrv as <-. simpl in *. by bool_to_prop.
Qed.

(** A production environment with SCRAM, a Redis password and server keys. *)
Definition demo_env : Env := λ key,
  match list_find (λ kv : string * string, kv.1 = key)
    [("KAFKA_BROKERS", "broker:9093, other:9093"); ("KAFKA_SASL_USERNAME", "svc"); ("KAFKA_SASL_PASSWORD", "secret");
     ("KAFKA_POISON_POLICY", "dlq"); ("KAFKA_DLQ_TOPIC", "poison");
     ("REDIS_ADDR", "redis:6380"); ("REDIS_PASSWORD", "secret");
     ("STREAM_PROCESSOR_TLS_CERT_FILE", "crt"); ("STREAM_PROCESSOR_TLS_KEY_FILE", "key")] with
  | Some (_, kv) => kv.2
  | None => ""
  end.
Definition demo_tls : TLSFiles :=
  {| CertPool := unit; Certificate := unit; ReadFile _ := Ok ""; AppendCertsFromPEM _ := Some tt;
     LoadX509KeyPair _ _ := Ok tt |}.
Definition demo_scram : Scram := {| Mechanism := string; scram_SHA512 user _ := Ok user |}.

Lemma production_never_plaintext_witness :
  match startup (H := demo_env) (H0 := demo_tls) (H1 := demo_scram) (Err io_EOF) None (λ o, o) (λ _, None) with
  | Ok st => ∃ r opts, st_sink st = SinkRedis r ∧ RedisMaterializer.client r = Some opts ∧ opt_TLSConfig opts ≠ None
  | Err _ => False
  end.
Proof.
  destruct (startup (H := demo_env) (H0 := demo_tls) (H1 := demo_scram) (Err io_EOF) None (λ o, o) (λ _, None))
    as [st|e] eqn:E; [|vm_compute in E; discriminate].
  destruct (production_never_plaintext (H := demo_env) (H0 := demo_tls) (H1 := demo_scram) _ _ _ _ _ E) as [_ Hp].
  destruct Hp as (Hk & Hr & _); [vm_compute; reflexivity|].
  assert (∃ c, st_source st = FromKafka c) as [c Hc].
  { apply (f_equal (λ r, match r with Ok s => Some (st_source s) | Err _ => None end)) in E.
    vm_compute in E. injection E as E. eauto. }
  destruct (Hk c Hc) as (_ & _ & _ & _ & _ & r & Hs). destruct (Hr r Hs) as (opts & tls & Ho & Ht & _).
  exists r, opts. rewrite Ht. by split_and!.
Defined.
