(* ===== verification/WindowTheorems.v ===== *)
(** * Properties of the aggregator

    The theorems on [Window]: refinement of the event
    history, the invariant and its bounds, idempotence, failure atomicity,
    eviction, monotonicity and what the features are. *)

From Stdlib Require Import ZArith Lia SpecFloat.
From stdpp Require Import prelude gmap strings list.
From S2P Require Import Prelude GoFloat GoString GoSort GoContext Ingestion Window WindowInv WindowSpec WindowAmounts Materialize.

#[local] Open Scope Z_scope.

(** A concrete stream for the witnesses: a minute-long window, event times in
    seconds after an arbitrary instant. *)
Definition demo_event (i entity : string) (amt secs part off : Z) : Event :=
  mkEvent i entity (float_of_Z amt 0) (1000000 * Second + secs * Second) part off.
Definition demo_window : Window := NewWithLimits (60 * Second) 2 3.
Definition demo_one : Window := (Apply demo_window (demo_event "e1" "a" 10 0 0 1)).1.

Lemma demo_one_reachable64 : reachable64 demo_one.
Proof. by repeat constructor. Qed.
Lemma demo_one_reachable : reachable demo_one.
Proof. apply reachable64_reachable, demo_one_reachable64. Qed.

(** ** Refinement *)

Lemma represents_new d n k : represents [] (NewWithLimits d n k).
Proof. intros e. simpl. by rewrite !lookup_empty. Qed.

Lemma represents_evict_accept h w ev p :
  wf w → represents h w → prepared w ev p →
  represents (spec_accept (evictEntity p) h ev) (commitLocked w ev p) ∧
  features p =
    features_of (EntityID ev) (spec_watermark (spec_accept (evictEntity p) h ev) (EntityID ev))
      (spec_window (Duration w) (spec_accept (evictEntity p) h ev) (EntityID ev)).
Proof.
  intros Hw Hr Hp. pose proof (represents_commit h w ev p Hw Hr Hp) as Hr'. split; [done|].
  destruct (represents_of _ _ (EntityID ev) Hr') as [He Hwm].
  rewrite (prepared_features w ev p Hp), <-Hwm.
  rewrite commit_duration, commit_events_of, decide_True in He by done. rewrite <-He. f_equal.
  rewrite commit_after_eviction. unfold watermark_of, commitLocked. simpl.
  by rewrite lookup_insert_eq.
Qed.

(** C1: The incremental aggregator implements recomputation from the event
    history.  From a state that represents the history [h], [Apply] either
    leaves the state alone (an error, or an event whose id is in a live
    window or whose offset was passed), or it accepts the event: the new
    state represents the history extended by the event (without the entity
    evicted to make room, if any) and the returned features are exactly the
    count, sum, maximum and end of the entity's window recomputed from the
    whole history. *)
Theorem apply_refines_history h w ev w' r :
  reachable w → represents h w → Apply w ev = (w', r) →
  (w' = w ∧ represents h w' ∧
   ((∃ e, r = Err e) ∨ (r = Ok (no_features, false) ∧
      (ID ev ∈ seen w ∨ ∃ high, offsets w !! Partition ev = Some high ∧ Offset ev <= high)))) ∨
  (∃ k ch, (k = "" ∨ k = oldestEntityLocked w) ∧
     represents (spec_accept k h ev) w' ∧
     r = Ok (features_of (EntityID ev) (spec_watermark (spec_accept k h ev) (EntityID ev))
               (spec_window (Duration w) (spec_accept k h ev) (EntityID ev)), ch)).
Proof.
  intros Hre Hr HA. pose proof (reachable_wf w Hre) as Hw.
  unfold Apply in HA. destruct (prepareLocked w ev) as [p|e] eqn:Hp.
  - destruct (accepted p) eqn:Ha; simpl in HA; injection HA as <- <-.
    + right. pose proof (prepareLocked_spec w ev p Hw Hp Ha) as Hprep.
      destruct (represents_evict_accept h w ev p Hw Hr Hprep) as [Hr' Hf].
      exists (evictEntity p), (changed p). split_and!; [|done|by rewrite Hf].
      destruct (pr_evict w ev p Hprep) as [[-> _]|(_ & _ & _ & ->)]; auto.
    + left. split_and!; [done..|]. right. split; [done|].
      by apply prepareLocked_rejected in Hp.
  - injection HA as <- <-. left. split_and!; [done..|]. left. eauto.
Qed.

Lemma apply_refines_history_witness :
  ∃ k, represents (spec_accept k [] (demo_event "e1" "a" 10 0 0 1)) demo_one.
Proof.
  destruct (apply_refines_history [] demo_window (demo_event "e1" "a" 10 0 0 1) demo_one
              (Apply demo_window (demo_event "e1" "a" 10 0 0 1)).2) as [[H _]|(k & ch & _ & H & _)].
  - constructor.
  - apply represents_new.
  - apply surjective_pairing.
  - exfalso. apply (f_equal eventCount) in H. vm_compute in H. discriminate.
  - by exists k.
Defined.

(** C14: In every reachable state the redundant parts of the state agree: the
    deduplication set is exactly the ids of the stored events and none is
    stored twice, the event counter counts them, each entity's window is
    sorted by event time and lies between its watermark minus the duration
    and its watermark, the activity map equals the watermark map, and the
    configured limits hold. *)
Theorem reachable_invariant w : reachable w → wf w.
Proof. apply reachable_wf. Qed.

Lemma reachable_invariant_witness : wf demo_one ∧ eventCount demo_one = 1.
Proof. split; [apply (reachable_invariant demo_one), demo_one_reachable|by vm_compute]. Defined.

(** C18: State retention is bounded: in every reachable state the number of
    tracked entities is at most [maxEntities], and the number of
    deduplication ids equals the number of stored events and is at most
    [maxEvents]. *)
Theorem retention_bounded w :
  reachable w →
  EntityCount w <= maxEntities w ∧ DedupeSize w = eventCount w ∧ DedupeSize w <= maxEvents w.
Proof.
  intros Hr%reachable_wf. unfold EntityCount, DedupeSize.
  assert (Z.of_nat (size (seen w)) = eventCount w) as ->.
  { rewrite (wf_count w Hr), (wf_seen w Hr). f_equal. apply size_list_to_set, (wf_ids w Hr). }
  split_and!; [apply (wf_entities w Hr)|done|apply (wf_capacity w Hr)].
Qed.

Lemma retention_bounded_witness : EntityCount demo_one <= 2 ∧ DedupeSize demo_one <= 3.
Proof.
  destruct (retention_bounded demo_one demo_one_reachable) as (H1 & _ & H3).
  assert (maxEntities demo_one = 2 ∧ maxEvents demo_one = 3) as [E1 E3] by by vm_compute.
  rewrite E1 in H1. rewrite E3 in H3. by split.
Defined.

(** ** Idempotence and failure *)

(** C23: Redelivery is harmless: applying the same event again never changes
    the state, and after a successful application the second one reports no
    change. *)
Theorem apply_idempotent w ev w' r :
  Apply w ev = (w', r) →
  (Apply w' ev).1 = w' ∧ (∀ fc, r = Ok fc → (Apply w' ev).2 = Ok (no_features, false)).
Proof.
  intros HA. pose proof HA as HA'. unfold Apply in HA.
  destruct (prepareLocked w ev) as [p|e] eqn:Hp; [|by simplify_eq; rewrite HA'].
  destruct (accepted p) eqn:Ha; simpl in HA; simplify_eq; [|by rewrite HA'].
  assert (prepareLocked (commitLocked w ev p) ev = Ok no_update) as Hagain.
  { assert (offsets (commitLocked w ev p) !! Partition ev = Some (Offset ev)) as Ho
      by (unfold commitLocked; simpl; apply lookup_insert_eq).
    unfold prepareLocked in Hp |- *. destruct (validEvent ev); [|done]. clear Hp. cbn [negb].
    destruct (bool_decide (ID ev ∈ _)); [done|]. by rewrite Ho, Z.leb_refl. }
  unfold Apply. by rewrite Hagain.
Qed.

Lemma apply_idempotent_witness :
  (Apply demo_one (demo_event "e1" "a" 10 0 0 1)).1 = demo_one.
Proof.
  destruct (apply_idempotent demo_window (demo_event "e1" "a" 10 0 0 1) demo_one
              (Apply demo_window (demo_event "e1" "a" 10 0 0 1)).2) as [H _];
    [apply surjective_pairing|exact H].
Defined.

(** C15: An update that fails changes nothing: when [ApplyAndMaterialize]
    reports an error, of validation, capacity, numeric range or of the sink,
    the window is exactly what it was; when it succeeds the window and the
    result are those of [Apply]. *)
Theorem materialize_atomic {S} `{Materializer S} ctx now w ev (sink : S) w' sink' r :
  ApplyAndMaterialize ctx now w ev (Some sink) = (w', sink', r) →
  match r with
  | Err _ => w' = w
  | Ok fc => Apply w ev = (w', Ok fc)
  end.
Proof.
  unfold ApplyAndMaterialize, Apply. destruct (prepareLocked w ev) as [p|e]; [|by intros; simplify_eq].
  destruct (accepted p); simpl; [|by intros; simplify_eq].
  destruct (changed p).
  - destruct (Put _ _ _ sink) as [s' [err|]]; by intros; simplify_eq.
  - by intros; simplify_eq.
Qed.

(** A sink that refuses everything. *)
#[local] Instance refusing_sink : Materializer unit := λ _ _ _ s, (s, Some (Fresh "down")).

Lemma materialize_atomic_witness :
  (ApplyAndMaterialize Background 0 demo_one (demo_event "e2" "b" 1 1 0 2) (Some tt)).1.1 = demo_one.
Proof.
  pose proof (materialize_atomic Background 0 demo_one (demo_event "e2" "b" 1 1 0 2) tt
    (ApplyAndMaterialize Background 0 demo_one (demo_event "e2" "b" 1 1 0 2) (Some tt)).1.1
    (ApplyAndMaterialize Background 0 demo_one (demo_event "e2" "b" 1 1 0 2) (Some tt)).1.2
    (Err (Fresh "down"))) as H.
  apply H. by vm_compute.
Defined.

(** ** Eviction, watermarks and offsets *)

(** C25: The eviction victim does not depend on the iteration order of Go's
    map: for every order in which the range loop may visit the entries of
    [lastActive] it picks the same entity, the one with the least last
    activity and, among those, the least name. *)
Theorem eviction_deterministic w order :
  reachable w → order ≡ₚ map_to_list (lastActive w) → order ≠ [] →
  oldest_in order = oldestEntityLocked w ∧
  ∃ t, lastActive w !! oldestEntityLocked w = Some t ∧
       ∀ e t', lastActive w !! e = Some t' → key_le (oldestEntityLocked w, t) (e, t').
Proof.
  intros Hr%reachable_wf Hp Hne.
  assert (Forall (λ kv, kv.1 ≠ "") order) as Hk.
  { rewrite Hp, (wf_active w Hr). apply Forall_forall. intros [k t] Hin Hk. simpl in Hk. subst k.
    apply elem_of_map_to_list in Hin. by rewrite (wf_names w Hr) in Hin. }
  assert (oldest_in order = oldestEntityLocked w) as Heq by by apply oldest_in_perm.
  split; [done|]. rewrite <-Heq.
  destruct (oldest_in_min order Hne Hk) as (t & Hin & Hmin). exists t. split.
  - apply elem_of_map_to_list. by rewrite <-Hp.
  - intros e t' He. apply Hmin. rewrite Hp. by apply elem_of_map_to_list.
Qed.

Lemma eviction_deterministic_witness : oldest_in [("a", 1000000 * Second)] = "a".
Proof.
  pose proof (eviction_deterministic demo_one [("a", 1000000 * Second)] demo_one_reachable) as H.
  destruct H as [H _]; [by vm_compute|done|]. rewrite H. by vm_compute.
Defined.

(** A late event never moves an entity's window backward: across [Apply]
    the watermark of an entity does not decrease, unless the entity is the
    one evicted to make room. *)
Theorem watermark_monotone w ev w' r e t :
  reachable w → Apply w ev = (w', r) → watermark w !! e = Some t →
  (watermark w' !! e = None ∧ e = oldestEntityLocked w ∧ watermark w !! EntityID ev = None) ∨
  ∃ t', watermark w' !! e = Some t' ∧ t <= t'.
Proof.
  intros Hr%reachable_wf HA Ht.
  destruct (Apply_cases w ev w' r Hr HA) as [[-> _]|(p & Hp & _ & _ & -> & _)]; [right; eauto with lia|].
  rewrite commit_after_eviction. unfold commitLocked, after_eviction. simpl.
  destruct (decide (e = EntityID ev)) as [->|Hne].
  { right. rewrite lookup_insert_eq. eexists. split; [done|].
    rewrite (pr_watermark w ev p Hp). unfold watermark_of. rewrite Ht. simpl. lia. }
  rewrite lookup_insert_ne by done.
  destruct (pr_evict w ev p Hp) as [[-> _]|(Hk & _ & Hnone & Heq)].
  - right. rewrite decide_True by done. eauto with lia.
  - rewrite decide_False by done. simpl. destruct (decide (e = evictEntity p)) as [->|Hn].
    + left. rewrite lookup_delete_eq. by rewrite Heq.
    + right. rewrite lookup_delete_ne by done. eauto with lia.
Qed.

(** A late event of the same entity, 30 seconds older. *)
Lemma watermark_monotone_witness :
  ∃ t', watermark (Apply demo_one (demo_event "late" "a" 5 (-30) 0 2)).1 !! "a" = Some t' ∧
        1000000 * Second <= t'.
Proof.
  destruct (watermark_monotone demo_one (demo_event "late" "a" 5 (-30) 0 2)
              (Apply demo_one (demo_event "late" "a" 5 (-30) 0 2)).1
              (Apply demo_one (demo_event "late" "a" 5 (-30) 0 2)).2 "a" (1000000 * Second))
    as [(_ & _ & H)|H].
  - apply demo_one_reachable.
  - apply surjective_pairing.
  - by vm_compute.
  - exfalso. vm_compute in H. discriminate.
  - exact H.
Defined.

(** The high-water offset of a partition never decreases, other
    partitions keep theirs, and an accepted event moves its partition's
    strictly forward to its own offset. *)
Theorem offset_monotone w ev w' r :
  reachable w → Apply w ev = (w', r) →
  (∀ part, part ≠ Partition ev → offsets w' !! part = offsets w !! part) ∧
  (w' = w ∨
   offsets w' !! Partition ev = Some (Offset ev) ∧
   ∀ high, offsets w !! Partition ev = Some high → high < Offset ev).
Proof.
  intros Hr%reachable_wf HA.
  destruct (Apply_cases w ev w' r Hr HA) as [[-> _]|(p & Hp & _ & _ & -> & _)]; [by auto|].
  rewrite commit_offsets. split; [intros; by apply lookup_insert_ne|]. right. rewrite lookup_insert_eq.
  split; [done|]. apply Hp.
Qed.

Lemma offset_monotone_witness :
  offsets (Apply demo_one (demo_event "e2" "a" 5 1 0 7)).1 !! 0 = Some 7.
Proof.
  destruct (offset_monotone demo_one (demo_event "e2" "a" 5 1 0 7)
              (Apply demo_one (demo_event "e2" "a" 5 1 0 7)).1
              (Apply demo_one (demo_event "e2" "a" 5 1 0 7)).2) as [_ [H|[H _]]].
  - apply demo_one_reachable.
  - apply surjective_pairing.
  - apply (f_equal eventCount) in H. vm_compute in H. discriminate.
  - exact H.
Defined.

(** C24: progress marks never move backward.  Across [Apply], late and repeated
    events included, the watermark of an entity does not decrease unless the
    entity is the one evicted to make room; the high-water offset of a partition
    does not decrease, other partitions keep theirs, and an accepted event moves
    its partition's strictly forward to its own offset. *)
Theorem marks_monotone w ev w' r :
  reachable w → Apply w ev = (w', r) →
  (∀ e t, watermark w !! e = Some t →
     (watermark w' !! e = None ∧ e = oldestEntityLocked w ∧ watermark w !! EntityID ev = None) ∨
     ∃ t', watermark w' !! e = Some t' ∧ t <= t') ∧
  (∀ part, part ≠ Partition ev → offsets w' !! part = offsets w !! part) ∧
  (w' = w ∨
   offsets w' !! Partition ev = Some (Offset ev) ∧
   ∀ high, offsets w !! Partition ev = Some high → high < Offset ev).
Proof.
  intros Hr HA. split; [|by eapply offset_monotone]. intros e t Ht. by eapply watermark_monotone.
Qed.

Lemma marks_monotone_witness :
  ∃ t', watermark (Apply demo_one (demo_event "late" "a" 5 (-30) 0 2)).1 !! "a" = Some t' ∧
        1000000 * Second <= t'.
Proof.
  destruct (proj1 (marks_monotone demo_one (demo_event "late" "a" 5 (-30) 0 2)
              (Apply demo_one (demo_event "late" "a" 5 (-30) 0 2)).1
              (Apply demo_one (demo_event "late" "a" 5 (-30) 0 2)).2 demo_one_reachable (surjective_pairing _))
              "a" (1000000 * Second)) as [(_ & _ & H)|H].
  - by vm_compute.
  - exfalso. vm_compute in H. discriminate.
  - exact H.
Defined.

(** ** Features *)

Lemma snapshot_fold c evs : ∀ fs,
  fold_left (snapshot_step c) evs fs =
    mkFeatures (feat_EntityID fs)
      (feat_EventCount fs + Z.of_nat (length (filter (λ x, c <= at_ x) evs)))
      (total_of (feat_TotalAmount fs) (filter (λ x, c <= at_ x) evs))
      (max_of (feat_MaxAmount fs) (filter (λ x, c <= at_ x) evs)) (feat_WindowEnd fs).
Proof.
  induction evs as [|x evs IH]; intros fs; simpl.
  - rewrite Z.add_0_r. by destruct fs.
  - rewrite IH, filter_cons. unfold snapshot_step.
    destruct (Z.ltb_spec (at_ x) c), (decide (c <= at_ x)); try lia; [done|].
    cbn [feat_EntityID feat_EventCount feat_TotalAmount feat_MaxAmount feat_WindowEnd].
    rewrite length_cons. f_equal. lia.
Qed.

Lemma Snapshot_spec w e now :
  events_of w e ≠ [] →
  Snapshot w e now =
    (features_of e (Z.max now (watermark_of w e))
       (filter (λ x, Z.max now (watermark_of w e) - Duration w <= at_ x) (events_of w e)), true).
Proof.
  intros Hne. unfold Snapshot.
  assert (Nat.eqb (length (events_of w e)) 0 = false) as -> by by destruct (events_of w e).
  assert ((if now >? watermark_of w e then now else watermark_of w e)
          = Z.max now (watermark_of w e)) as ->.
  { rewrite Z.gtb_ltb. destruct (Z.ltb_spec (watermark_of w e) now); lia. }
  by rewrite snapshot_fold, Z.add_opp_r.
Qed.

(** An event that is neither a duplicate nor behind its partition's offset is
    not skipped. *)
Lemma accepted_cases w ev w' fs ch :
  wf w → (ID ev ∉ seen w) → (∀ high, offsets w !! Partition ev = Some high → high < Offset ev) →
  Apply w ev = (w', Ok (fs, ch)) →
  ∃ p, prepared w ev p ∧ w' = commitLocked w ev p ∧ fs = features p ∧ ch = changed p.
Proof.
  intros Hw Hid Hoff. unfold Apply. destruct (prepareLocked w ev) as [p|e] eqn:Hp; [|done].
  destruct (accepted p) eqn:Ha; simpl.
  - intros [= <- <- <-]. exists p. split_and!; try done. by apply prepareLocked_spec.
  - destruct (prepareLocked_rejected w ev p Hp Ha) as [?|(high & Ho & Hle)]; [done|]. specialize (Hoff high Ho). lia.
Qed.

(** [Snapshot] agrees with the last update: right after an accepted event
    that leaves the window non-empty, [Snapshot] of its entity at any time up
    to the watermark returns exactly the features [Apply] returned. *)
Theorem snapshot_after_apply w ev w' fs ch now :
  reachable w → Apply w ev = (w', Ok (fs, ch)) → 0 < feat_EventCount fs →
  now <= watermark_of w' (EntityID ev) →
  Snapshot w' (EntityID ev) now = (fs, true).
Proof.
  intros Hr HA Hc Hnow. pose proof (reachable_wf w Hr) as Hw. pose proof HA as HA'.
  unfold Apply in HA. destruct (prepareLocked w ev) as [p|e] eqn:Hp; [|done].
  destruct (accepted p) eqn:Ha; simpl in HA; simplify_eq; [|simpl in Hc; lia].
  pose proof (prepareLocked_spec w ev p Hw Hp Ha) as Hprep.
  pose proof (commit_wf w ev p Hw Hprep) as Hw'.
  assert (events_of (commitLocked w ev p) (EntityID ev) = events p) as He
    by by rewrite commit_events_of, decide_True.
  assert (watermark_of (commitLocked w ev p) (EntityID ev) = new_watermark p) as Hwm.
  { unfold watermark_of, commitLocked. simpl. by rewrite lookup_insert_eq. }
  rewrite (prepared_features w ev p Hprep) in Hc |- *. simpl in Hc.
  rewrite Snapshot_spec by (rewrite He; intros Hnil; rewrite Hnil in Hc; simpl in Hc; lia).
  destruct (wf_events_of _ (EntityID ev) Hw') as [_ Hall].
  rewrite Z.max_r, filter_all, He, Hwm by done || (eapply Forall_impl; [apply Hall|]; simpl; lia).
  done.
Qed.

Lemma snapshot_after_apply_witness :
  Snapshot demo_one "a" 0 = ((features_of "a" (1000000 * Second) [mkev "e1" (1000000 * Second) (float_of_Z 10 0)]), true).
Proof.
  apply (snapshot_after_apply demo_window (demo_event "e1" "a" 10 0 0 1) demo_one
           (features_of "a" (1000000 * Second) [mkev "e1" (1000000 * Second) (float_of_Z 10 0)]) true 0).
  - constructor.
  - by vm_compute.
  - by vm_compute.
  - by vm_compute.
Defined.

(** C21: The features of every accepted event, one that is neither a duplicate
    nor behind its partition's offset, are what their names say: the entity,
    the number of its live events, the sum of their amounts in event-time
    order, each addition rounded to the nearest float, their maximum, and the
    watermark as the end of the window.  The maximum bounds every live amount
    and is one of them (or zero for an empty window), the total is
    non-negative, never a NaN, and at least the maximum; and validation before
    materialization can only fail because the total overflowed to [+Inf]. *)
Theorem features_meaningful w ev w' fs ch :
  reachable64 w → valid64 (Amount ev) = true →
  (ID ev ∉ seen w) → (∀ high, offsets w !! Partition ev = Some high → high < Offset ev) →
  Apply w ev = (w', Ok (fs, ch)) →
  let live := events_of w' (EntityID ev) in
  feat_EntityID fs = EntityID ev ∧
  feat_EventCount fs = Z.of_nat (length live) ∧
  feat_TotalAmount fs = fold_left (λ total x, fadd total (amount x)) live fzero ∧
  feat_MaxAmount fs = fold_left (λ m x, if fgt (amount x) m then amount x else m) live fzero ∧
  feat_WindowEnd fs = watermark_of w' (EntityID ev) ∧
  Forall (λ x, fle (amount x) (feat_MaxAmount fs) = true) live ∧
  (feat_MaxAmount fs = fzero ∨ feat_MaxAmount fs ∈ amount <$> live) ∧
  nonneg (feat_TotalAmount fs) = true ∧ fle (feat_MaxAmount fs) (feat_TotalAmount fs) = true ∧
  validateMaterializedFeatures fs =
    if IsInf (feat_TotalAmount fs) then Some (Fresh "invalid materialized fraud features") else None.
Proof.
  intros Hr Hv Hid Hoff HA live. pose proof (reachable_wf w (reachable64_reachable w Hr)) as Hw.
  destruct (accepted_cases w ev w' fs ch Hw Hid Hoff HA) as (p & Hp & -> & -> & _).
  destruct (commit_amounts_ok w ev p Hw (reachable64_amounts w Hr) Hv Hp) as [Hg _].
  unfold live. rewrite commit_events_of, decide_True by done.
  rewrite (prepared_features w ev p Hp). simpl.
  destruct (max_of_spec (events p) fzero eq_refl Hg) as (Hm1 & _ & Hm3 & Hm4).
  destruct (total_max_le (events p) fzero fzero) as (Ht1 & _ & Ht3); [done..|].
  split_and!; try done.
  { rewrite commit_after_eviction. unfold watermark_of, commitLocked. simpl. by rewrite lookup_insert_eq. }
  pose proof (pr_valid w ev p Hp) as Hvalid. unfold validEvent in Hvalid.
  bool_to_prop. apply (validate_none (features_of _ _ _)); simpl; try done.
  - by apply no_control_no_break.
  - lia.
  - destruct Hm4 as [-> | (x & -> & Hx)%list_elem_of_fmap]; [done|].
    rewrite Forall_forall in Hg. destruct (Hg x Hx) as (_ & Hf & _).
    unfold finite in Hf. by bool_to_prop.
Qed.

Definition demo_features : Features :=
  features_of "a" (1000001 * Second)
    [mkev "e1" (1000000 * Second) (float_of_Z 10 0); mkev "e2" (1000001 * Second) (float_of_Z 30 0)].

Lemma features_meaningful_witness :
  feat_TotalAmount demo_features = fadd (fadd fzero (float_of_Z 10 0)) (float_of_Z 30 0) ∧
  validateMaterializedFeatures demo_features = None.
Proof.
  destruct (features_meaningful demo_one (demo_event "e2" "a" 30 1 0 2)
              (Apply demo_one (demo_event "e2" "a" 30 1 0 2)).1 demo_features true
              demo_one_reachable64 eq_refl)
    as (_ & _ & H1 & _ & _ & _ & _ & _ & _ & H2); [| |by vm_compute|split; [exact H1|exact H2]].
  - apply (bool_decide_unpack _). by vm_compute.
  - assert (offsets demo_one !! 0 = Some 1) as Ho by (by vm_compute). simpl. rewrite Ho. intros high [= <-]. lia.
Defined.

(** C38: The overflow guard of the accumulation loop is incomplete.  Two
    amounts that are 64-bit floats pass the guard
    [total > math.MaxFloat64 - amount] and yet their sum rounds to [+Inf]: the
    update is accepted and committed with an infinite total instead of failing
    with [ErrNumericRange]. *)
Theorem overflow_guard_incomplete :
  ∃ w ev fs, reachable64 w ∧ valid64 (Amount ev) = true ∧
    (Apply w ev).2 = Ok (fs, true) ∧ feat_TotalAmount fs = finf ∧
    eventCount (Apply w ev).1 = 2.
Proof.
  set (first := mkEvent "e1" "a" (S754_finite false 9007199254740990 971) (1000000 * Second) 0 1).
  set (second := mkEvent "e2" "a" (float_of_Z 3 970) (1000000 * Second) 0 2).
  exists (Apply demo_window first).1, second. eexists.
  split_and!; [by repeat constructor|by vm_compute|by vm_compute|by vm_compute|by vm_compute].
Qed.
