(* ===== verification/FeatureStore.v ===== *)
(** * Package [featurestore]: feature retrieval of the serving plane

    [serving_plane/feature_store/store.go].  A call that may take time
    receives the instant it starts at and returns the instant it ends at;
    operations on local memory end when they start.  The map of [Memory]
    holds copies and [Get] returns copies, so its vectors are values. *)

From Stdlib Require Import ZArith Lia SpecFloat Ascii.
From stdpp Require Import prelude gmap strings list.
From S2P Require Import Prelude GoFloat GoString GoContext GoTLS GoRedis Materialize.

#[local] Open Scope Z_scope.
#[local] Open Scope go_scope.

Definition ErrNotFound : error := Sentinel "featurestore.ErrNotFound".
(** The interfaces [Store] and [Prober]; whether a store is a [Prober] is a
    dynamic property, hence the option. *)
Class Store (S : Type) := {
  Get : Context → Z → string → S → outcome S (result (list float64));
  Probe : option (Context → Z → S → outcome S (option error));
}.

Definition validFeatureKey (key : string) : bool :=
  bool_decide (key ≠ "") && (len key <=? 256) && ValidString key
  && bool_decide (TrimSpace key = key) && no_rune IsControl key.

Module Memory.

Record t := mk { width : Z; values : gmap string (list float64) }.

Definition NewMemory (width : Z) : t := mk width ∅.

Definition Put (key : string) (features : list float64) (m : t) : t * option error :=
  if negb (validFeatureKey key) then (m, Some (Fresh "invalid feature key"))
  else if negb (Z.of_nat (length features) =? width m)
  then (m, Some (Fresh ("feature width must be " ++ Itoa (width m))))
  else if existsb (λ x, IsNaN x || IsInf x) features
  then (m, Some (Fresh "features must be finite"))
  else (mk (width m) (<[key := features]> (values m)), None).

Definition Get (ctx : Context) (now : Z) (key : string) (m : t) : outcome t (result (list float64)) :=
  (m, now,
   match ctx_err ctx now with
   | Some err => Err err
   | None => match values m !! key with Some v => Ok v | None => Err ErrNotFound end
   end).

Definition Probe (ctx : Context) (now : Z) (m : t) : outcome t (option error) :=
  (m, now, ctx_err ctx now).

End Memory.

#[export] Instance memory_store : Store Memory.t :=
  {| Get := Memory.Get; Probe := Some Memory.Probe |}.

Module Redis.

Record RedisConfig := mkConfig {
  Address : string;
  Width : Z;
  Timeout : Z;
  Username : string;
  Password : string;
  UseTLS : bool;
  CAFile : string;
  ServerName : string;
  CertFile : string;
  KeyFile : string;
}.

Definition redisTLSConfig `{TLSFiles} (useTLS : bool) (caFile serverName certFile keyFile : string) :
    result (option tls_Config) :=
  if negb (Bool.eqb (bool_decide (certFile = "")) (bool_decide (keyFile = "")))
  then Err (Fresh "Redis TLS client certificate and key must be supplied together")
  else if negb useTLS then
    if bool_decide (caFile ≠ "") || bool_decide (serverName ≠ "") || bool_decide (certFile ≠ "")
    then Err (Fresh "Redis TLS options require UseTLS=true")
    else Ok None
  else
    let! roots :=
      if bool_decide (caFile ≠ "") then
        let! pem := wrap_err "read Redis TLS CA" (ReadFile caFile) in
        match AppendCertsFromPEM pem with
        | None => Err (Fresh "Redis TLS CA contains no certificates")
        | Some pool => Ok (Some pool)
        end
      else Ok None in
    let! certs :=
      if bool_decide (certFile ≠ "") then
        let! c := wrap_err "load Redis TLS client certificate" (LoadX509KeyPair certFile keyFile) in
        Ok [c]
      else Ok [] in
    Ok (Some (mkTLS _ VersionTLS13 roots serverName certs)).

Section redis.
Context `{FloatText} {R : Type}.
(** The client's GET, PING and Close on the connection state [R]. *)
Context (client_Get : Context → Z → string → R → outcome R (result string)).
Context (client_Ping : Context → Z → R → outcome R (option error)).
Context (client_Close : R → R * option error).

(** [client] is [None] for a nil pointer. *)
Record t := mk { client : option R; width : Z; timeout : Z }.

(** [redis.NewClient] is a parameter: it only allocates. *)
Definition NewRedisWithConfig `{TLSFiles} (NewClient : Options → R) (config : RedisConfig) : result t :=
  if bool_decide (Address config = "") || (Width config <? 1)
  then Err (Fresh "Redis address and positive feature width are required")
  else
    let Timeout := if Timeout config <=? 0 then 50 * Millisecond else Timeout config in
    let! tlsConfig := redisTLSConfig (UseTLS config) (CAFile config) (ServerName config)
                        (CertFile config) (KeyFile config) in
    Ok (mk (Some (NewClient (mkOptions _ (Address config) (Username config) (Password config)
           tlsConfig 2 Timeout Timeout Timeout 32 1 (-1) true))) (Width config) Timeout).

Definition NewRedis `{TLSFiles} (NewClient : Options → R) (address : string) (width timeout : Z) : result t :=
  NewRedisWithConfig NewClient (mkConfig address width timeout "" "" false "" "" "" "").

(** The loop over the parts, from index [i] on. *)
Fixpoint parse_parts (i : Z) (parts : list string) : result (list float64) :=
  match parts with
  | [] => Ok []
  | part :: rest =>
      let! x := wrap_err ("feature " ++ Itoa i)
        match ParseFloat part with
        | Err err => Err err
        | Ok x => if IsNaN x || IsInf x then Err (Fresh "non-finite value") else Ok x
        end in
      let! xs := parse_parts (i + 1) rest in
      Ok (x :: xs)
  end.

(** What [Get] makes of the string the server returned. *)
Definition decode (width : Z) (value : string) : result (list float64) :=
  let parts := Split "," value in
  if negb (Z.of_nat (length parts) =? width)
  then Err (Fresh ("Redis feature width is " ++ Itoa (Z.of_nat (length parts)) ++
                   ", expected " ++ Itoa width))
  else parse_parts 0 parts.

Definition Get (ctx : Context) (now : Z) (key : string) (r : t) : outcome t (result (list float64)) :=
  match client r with
  | None => (r, now, Err (Fresh "invalid Redis feature store request"))
  | Some c =>
      if negb (validFeatureKey key) then (r, now, Err (Fresh "invalid Redis feature store request"))
      else
        match ctx_err ctx now with
        | Some err => (r, now, Err err)
        | None =>
            let '(c', t, res) := client_Get (WithTimeout ctx now (timeout r)) now key c in
            (mk (Some c') (width r) (timeout r), t,
             match res with
             | Err err => if errors_Is err redis_Nil then Err ErrNotFound else Err err
             | Ok value => decode (width r) value
             end)
        end
  end.

Definition Probe (ctx : Context) (now : Z) (r : t) : outcome t (option error) :=
  match client r with
  | None => (r, now, Some (Fresh "Redis feature store is closed"))
  | Some c =>
      let '(c', t, err) := client_Ping (WithTimeout ctx now (timeout r)) now c in
      (mk (Some c') (width r) (timeout r), t, err)
  end.

Definition Close (r : t) : t * option error :=
  match client r with
  | None => (r, None)
  | Some c => let '(c', err) := client_Close c in (mk (Some c') (width r) (timeout r), err)
  end.

Definition redis_store : Store t := {| FeatureStore.Get := Get; FeatureStore.Probe := Some Probe |}.
End redis.
End Redis.

(** At most half of the caller's remaining time for the primary. *)
Definition reserveFallbackBudget (ctx : Context) (now : Z) : Context :=
  match ctx_deadline ctx with
  | None => WithCancel ctx
  | Some deadline =>
      let remaining := Until deadline now in
      if remaining <=? 0 then WithCancel ctx
      else WithTimeout ctx now (Z.quot remaining 2)
  end.

Module Fallback.
Section fallback.
Context {P L : Type} `{Store P, Store L}.

(** [None] is a nil interface value. *)
Record t := mk { Primary : option P; Local : option L }.

(** The end of both methods: the local store with the caller's context. *)
Definition get_local (ctx : Context) (now : Z) (key : string) (f : t) : outcome t (result (list float64)) :=
  match Local f with
  | None => (f, now, Err ErrNotFound)
  | Some l =>
      let '(l', t, r) := FeatureStore.Get ctx now key l in (mk (Primary f) (Some l'), t, r)
  end.

Definition Get (ctx : Context) (now : Z) (key : string) (f : t) : outcome t (result (list float64)) :=
  match Primary f with
  | None => get_local ctx now key f
  | Some p =>
      let '(p', t, r) := FeatureStore.Get (reserveFallbackBudget ctx now) now key p in
      let f := mk (Some p') (Local f) in
      match r with
      | Ok value => (f, t, Ok value)
      | Err _ =>
          match ctx_err ctx t with
          | Some err => (f, t, Err err)
          | None => get_local ctx t key f
          end
      end
  end.

Definition probe_local (ctx : Context) (now : Z) (f : t) : outcome t (option error) :=
  match Local f, FeatureStore.Probe (S := L) with
  | Some l, Some probe => let '(l', t, r) := probe ctx now l in (mk (Primary f) (Some l'), t, r)
  | _, _ => (f, now, None)
  end.

Definition Probe (ctx : Context) (now : Z) (f : t) : outcome t (option error) :=
  match Primary f, FeatureStore.Probe (S := P) with
  | Some p, Some probe =>
      let '(p', t, r) := probe (reserveFallbackBudget ctx now) now p in
      let f := mk (Some p') (Local f) in
      match r with
      | None => (f, t, None)
      | Some _ =>
          match ctx_err ctx t with
          | Some err => (f, t, Some err)
          | None => probe_local ctx t f
          end
      end
  | _, _ => probe_local ctx now f
  end.
End fallback.
Arguments t : clear implicits.
End Fallback.

#[export] Instance fallback_store {P L} `{Store P, Store L} : Store (Fallback.t P L) :=
  {| Get := Fallback.Get; Probe := Some Fallback.Probe |}.
