(* ===== verification/FloatTextModel.v ===== *)
(** * A model of the float text laws

    A concrete text format for floats, mantissa and binary exponent separated
    by [p] (in the manner of the 'b' format of [strconv]), that satisfies
    [FloatTextLaws]: the laws are consistent, and the witnesses of the
    theorems that assume them run on it. *)

From Stdlib Require Import ZArith Lia SpecFloat Ascii DecimalString DecimalPos DecimalZ.
From stdpp Require Import prelude strings list.
From S2P Require Import Prelude GoFloat GoString Materialize.

#[local] Open Scope Z_scope.

(** Decimal integers of any size. *)
Definition parse_int (s : string) : option Z := Z.of_int <$> NilZero.int_of_string s.

Lemma parse_Itoa z : parse_int (Itoa z) = Some z.
Proof.
  unfold parse_int, Itoa. rewrite NilZero.isi; [simpl; by rewrite DecimalZ.of_to|..];
    destruct z; simpl; try done; intros [= E]; by apply (DecimalPos.Unsigned.to_uint_nonnil p).
Qed.

Definition p_text (m e : Z) : string := (Itoa m +:+ String "p" (Itoa e)).

Definition p_format (x : float64) : string :=
  match x with
  | S754_zero s => p_text 0 (if s then 1 else 0)
  | S754_finite s m e => p_text (if s then Zneg m else Zpos m) e
  | _ => "NaN"
  end.

Definition p_value (m e : Z) : float64 :=
  match m with
  | Z0 => S754_zero (negb (e =? 0))
  | Zpos m => S754_finite false m e
  | Zneg m => S754_finite true m e
  end.

Definition p_parse (s : string) : result float64 :=
  match Split "p" s with
  | [n] => match parse_int n with Some n => Ok (float_of_Z n 0) | None => Err (Fresh "invalid syntax") end
  | [m; e] =>
      match parse_int m, parse_int e with
      | Some m, Some e => Ok (p_value m e)
      | _, _ => Err (Fresh "invalid syntax")
      end
  | _ => Err (Fresh "invalid syntax")
  end.

#[export] Instance p_float_text : FloatText := {| FormatFloat := p_format; ParseFloat := p_parse |}.

Lemma p_parse_text m e : p_parse (p_text m e) = Ok (p_value m e).
Proof.
  unfold p_parse, p_text. rewrite Split_app, Split_no_sep by (by apply Itoa_no_char).
  by rewrite !parse_Itoa.
Qed.

Lemma p_text_no_char c m e : in_numeral c = false → c ≠ "p"%char → has_char c (p_text m e) = false.
Proof.
  intros Hc Hp. unfold p_text. rewrite has_char_app. cbn [has_char].
  by rewrite !Itoa_no_char, bool_decide_eq_false_2.
Qed.

#[export] Instance p_float_text_laws : FloatTextLaws p_float_text.
Proof.
  constructor; simpl.
  - intros [[]|?| |[] m e] Hf Hv; try done; simpl; by rewrite p_parse_text.
  - intros n _. unfold p_parse. rewrite Split_no_sep by (by apply Itoa_no_char).
    by rewrite parse_Itoa.
  - intros x c Hc. assert (in_numeral c = false ∧ c ≠ "p"%char ∧ has_char c "NaN" = false) as (Hn & Hp & Hnan).
    { apply elem_of_cons in Hc as [->|Hc]; [done|]. apply elem_of_cons in Hc as [->|Hc]; [done|].
      by apply list_elem_of_singleton in Hc as ->. }
    destruct x as [[]|?| |[] m e]; first [exact Hnan|by apply p_text_no_char].
Qed.
