(* ===== verification/SinkTheorems.v ===== *)
(** * The sink follows the window: claim

    The aggregator and any sink that satisfies the contract of [Sinks.v], fed
    by the same stream of events: what the sink can be read to hold of an
    entity. *)

From Stdlib Require Import ZArith Lia SpecFloat.
From stdpp Require Import prelude gmap strings list.
From S2P Require Import Prelude GoFloat GoString GoSort GoContext GoRedis Ingestion Window WindowInv WindowSpec WindowAmounts Materialize Sinks WindowTheorems FloatTextModel.

#[local] Open Scope Z_scope.

(** An accepted update that changes nothing leaves the entity's window. *)
Lemma unchanged_window w ev p :
  wf w → prepared w ev p → changed p = false →
  events p = events_of w (EntityID ev) ∧
  (events p ≠ [] → new_watermark p = watermark_of w (EntityID ev)).
Proof.
  intros Hw Hp Hc.
  assert (¬ (cutoff_of w p <= OccurredAt ev ∨ expired p ≠ [])) as Hn
    by (rewrite <-(pr_changed w ev p Hp), Hc; done).
  pose proof (wf_duration w Hw). pose proof (pr_watermark w ev p Hp) as Hwm.
  assert (OccurredAt ev < cutoff_of w p) as Hlate by (apply Z.nle_gt; tauto).
  assert (new_watermark p = watermark_of w (EntityID ev)) as Heq
    by (unfold cutoff_of in Hlate; lia).
  split; [|done]. destruct (wf_events_of w (EntityID ev) Hw) as [Hs Hall].
  rewrite (pr_events w ev p Hp), decide_False, app_nil_r by lia.
  rewrite filter_all, SliceStable_id; [done|done|].
  unfold cutoff_of. rewrite Heq. eapply Forall_impl; [apply Hall|]. simpl. lia.
Qed.

Lemma commit_watermark_of w ev p e :
  wf w → prepared w ev p →
  watermark_of (commitLocked w ev p) e =
    if decide (e = EntityID ev) then new_watermark p
    else if decide (e = evictEntity p) then 0 else watermark_of w e.
Proof.
  intros Hw Hp. rewrite commit_after_eviction. unfold watermark_of, commitLocked. simpl.
  case_decide as He; [by subst; rewrite lookup_insert_eq|].
  rewrite lookup_insert_ne by done. unfold after_eviction.
  destruct (decide (evictEntity p = "")) as [Hk|Hk]; simpl.
  - case_decide as Hek; [|done]. subst e. by rewrite Hk, (wf_names w Hw).
  - rewrite lookup_delete. by repeat case_decide.
Qed.

(** The features of the live events of an entity. *)
Definition current_features (w : Window) (e : string) : Features :=
  features_of e (watermark_of w e) (events_of w e).

(** What [ApplyAndMaterialize] tried to write when it failed: the features it
    would have committed, which are those that [Apply] returns. *)
Definition failed_update (w : Window) (ev : Event) (r : result (Features * bool)) : list Features :=
  match r, (Apply w ev).2 with
  | Err _, Ok (fs, true) => [fs]
  | _, _ => []
  end.

Section sink.
Context {S V : Type} `{HM : Materializer S} {HL : SinkLaws S V}.

(** A window and a sink fed by the same stream of events, with the failed
    updates, newest first. *)
Inductive fed : Window → S → list Features → Prop :=
| fed_new d n k s : unsettled s = [] → fed (NewWithLimits d n k) s []
| fed_event ctx now w s failed ev w' s' r :
    fed w s failed → ApplyAndMaterialize ctx now w ev (Some s) = (w', Some s', r) →
    fed w' s' (failed_update w ev r ++ failed).

(** The sink reads as the window, or as an unsettled write of the entity. *)
Definition agrees (w : Window) (s : S) : Prop :=
  ∀ e, events_of w e ≠ [] →
       view s e = Some (project (current_features w e)) ∨ ∃ v, (e, v) ∈ unsettled s ∧ view s e = Some v.

Lemma new_agrees d n k s : agrees (NewWithLimits d n k) s.
Proof. intros e. unfold events_of. simpl. by rewrite lookup_empty. Qed.

(** A commit after a call of the sink that reported [err] and changed the sink
    from [s] to [s'], or after none. *)
Lemma commit_agrees w ev p s s' :
  wf w → prepared w ev p → agrees w s →
  (∀ e, (e = EntityID ev ∧ changed p = true → view s' e = Some (project (features p)) ∨
           ∃ v, (e, v) ∈ unsettled s' ∧ view s' e = Some v) ∧
        (e ≠ EntityID ev ∨ changed p = false → view s' e = view s e ∨
           ∃ v, (e, v) ∈ unsettled s' ∧ view s' e = Some v)) →
  (∀ x, x ∈ unsettled s → x ∈ unsettled s') →
  agrees (commitLocked w ev p) s'.
Proof.
  intros Hw Hp Ha Hview Hun e Hev. unfold current_features.
  assert (∀ e', events_of w e' ≠ [] → view s' e' = view s e' ∨ (∃ v, (e', v) ∈ unsettled s' ∧ view s' e' = Some v) →
            view s' e' = Some (project (current_features w e')) ∨ ∃ v, (e', v) ∈ unsettled s' ∧ view s' e' = Some v) as Hold.
  { intros e' He' [->|?]; [|by right]. destruct (Ha e' He') as [|(v & Hv & Hs)]; [by left|right; eauto]. }
  destruct (Hview e) as [H1 H2].
  rewrite commit_events_of in Hev by done. rewrite commit_events_of, commit_watermark_of by done.
  destruct (decide (e = EntityID ev)) as [->|Hne].
  - destruct (changed p) eqn:Hc.
    + destruct (H1 (conj eq_refl eq_refl)) as [->|?]; [|by right]. left. by rewrite (prepared_features w ev p Hp).
    + destruct (unchanged_window w ev p Hw Hp Hc) as [He Hwm]. rewrite Hwm, He by done.
      apply Hold; [by rewrite <- He|]. apply H2. by right.
  - case_decide; [done|]. apply Hold; [done|]. apply H2. by left.
Qed.

(** What [ApplyAndMaterialize] does to the sink, by cases. *)
Lemma materialize_cases ctx now w s ev w' s' r :
  wf w → ApplyAndMaterialize ctx now w ev (Some s) = (w', Some s', r) →
  (w' = w ∧ s' = s) ∨
  ∃ p, prepared w ev p ∧ (Apply w ev).2 = Ok (features p, changed p) ∧
    ((changed p = false ∧ s' = s ∧ w' = commitLocked w ev p) ∨
     ∃ err, changed p = true ∧ Put ctx now (features p) s = (s', err) ∧
       match err with
       | None => w' = commitLocked w ev p ∧ r = Ok (features p, true)
       | Some e => w' = w ∧ r = Err e
       end).
Proof.
  intros Hw HA. unfold ApplyAndMaterialize in HA. unfold Apply.
  destruct (prepareLocked w ev) as [p|e] eqn:Hp; [|left; by simplify_eq].
  destruct (accepted p) eqn:Ha; simpl in HA; [|left; by simplify_eq].
  right. exists p. split; [by apply prepareLocked_spec|]. split; [done|].
  destruct (changed p) eqn:Hc; [right|left; by simplify_eq].
  destruct (Put ctx now (features p) s) as [s2 [e|]] eqn:HP; simplify_eq; [by exists (Some e)|by exists None].
Qed.

(** One event keeps the sink in agreement, and adds to the unsettled writes
    only what it reported as failed. *)
Lemma materialize_agrees ctx now w s ev w' s' r :
  wf w → agrees w s → ApplyAndMaterialize ctx now w ev (Some s) = (w', Some s', r) →
  agrees w' s' ∧
  (∀ e v, (e, v) ∈ unsettled s' →
     (e, v) ∈ unsettled s ∨
     ∃ fs, fs ∈ failed_update w ev r ∧ e = EntityID ev ∧ e = feat_EntityID fs ∧ v = project fs).
Proof using HL.
  intros Hw IH HA. destruct (materialize_cases _ _ _ _ _ _ _ _ Hw HA) as [[-> ->]|(p & Hprep & HAp & Hcase)]; [by auto|].
  assert (feat_EntityID (features p) = EntityID ev) as Hid by by rewrite (prepared_features w ev p Hprep).
  destruct Hcase as [(Hc & -> & ->)|(err & Hc & HP & Hr)].
  { split; [|by auto]. eapply commit_agrees; try done. intros e. rewrite Hc. split; [by intros [_ ?]|by left]. }
  assert (∀ e, view s' e = (if decide (err = None ∧ e = EntityID ev) then Some (project (features p)) else view s e) ∨
            ∃ v, (e, v) ∈ unsettled s' ∧ view s' e = Some v) as Hview.
  { intros e. rewrite <- Hid. by eapply put_view. }
  pose proof (λ e v, put_unsettled ctx now (features p) s s' err e v HP) as Hun. split.
  - destruct err as [e0|].
    + destruct Hr as [-> _]. intros e He. destruct (Hview e) as [Hv|?]; [|by right].
      rewrite decide_False in Hv by naive_solver. rewrite Hv.
      destruct (IH e He) as [|(v & Hin & ?)]; [by left|right]. exists v. split; [by apply Hun|done].
    + destruct Hr as [-> _]. eapply commit_agrees; try done.
      * intros e. rewrite Hc. split.
        -- intros [-> _]. destruct (Hview (EntityID ev)) as [Hv|?]; [left|by right]. by rewrite decide_True in Hv.
        -- intros [Hne|?]; [|done]. destruct (Hview e) as [Hv|?]; [left|by right].
           by rewrite decide_False in Hv by naive_solver.
      * intros [e v]. apply Hun.
  - intros e v Hin. destruct (proj2 (Hun e v) Hin) as [|(Hne & -> & ->)]; [by left|right].
    destruct err as [e0|]; [|done]. destruct Hr as [_ ->]. exists (features p).
    unfold failed_update. rewrite HAp, Hc, Hid. split_and!; [by left|done..].
Qed.

Lemma fed_wf w s failed : fed w s failed → wf w.
Proof.
  induction 1 as [|ctx now w s failed ev w' s' r _ Hw HA]; [apply NewWithLimits_wf|].
  destruct (Materialize_cases ctx now w ev (Some s) w' (Some s') r Hw HA)
    as [[-> _]|(p & Hp & _ & _ & -> & _)]; [done|]. by apply commit_wf.
Qed.

Lemma fed_unsettled w s failed e v :
  fed w s failed → (e, v) ∈ unsettled s → ∃ fs, fs ∈ failed ∧ feat_EntityID fs = e ∧ project fs = v.
Proof using HL.
  intros Hf. assert (agrees w s ∧ ∀ e v, (e, v) ∈ unsettled s → ∃ fs, fs ∈ failed ∧ feat_EntityID fs = e ∧ project fs = v)
    as [_ H]; [|apply H].
  induction Hf as [d n k s Hs|ctx now w s failed ev w' s' r Hf [IHa IHu] HA].
  - split; [apply new_agrees|]. rewrite Hs. by intros ? ? ?%not_elem_of_nil.
  - destruct (materialize_agrees _ _ _ _ _ _ _ _ (fed_wf _ _ _ Hf) IHa HA) as [Ha Hu]. split; [done|].
    intros e' v' [Hin|(fs & Hin & _ & -> & ->)]%Hu.
    + destruct (IHu e' v' Hin) as (fs & ? & ?). exists fs. by rewrite elem_of_app; split; [right|].
    + exists fs. by rewrite elem_of_app; split; [left|].
Qed.

(** C16: the materialized view follows the window.  For every sink under the
    contract [SinkLaws], which the in-memory sink meets with the whole
    features and no unsettled writes, and the Redis sink with the vector it
    stores: after any sequence of events, accepted, rejected or failed, every
    entity with a non-empty window reads in the sink as exactly the projected
    features of that window; or as the projected features of an update of the
    entity that failed, and only if the sink has that write as unsettled,
    which is how a write reported as failed can have taken effect. *)
Theorem sink_agrees w s failed e :
  fed w s failed → events_of w e ≠ [] →
  view s e = Some (project (features_of e (watermark_of w e) (events_of w e))) ∨
  ∃ fs, fs ∈ failed ∧ feat_EntityID fs = e ∧ (e, project fs) ∈ unsettled s ∧ view s e = Some (project fs).
Proof using HL.
  intros Hf He. assert (agrees w s) as Ha.
  { clear e He. induction Hf as [d n k s Hs|ctx now w s failed ev w' s' r Hf IH HA]; [apply new_agrees|].
    by eapply materialize_agrees; [eapply fed_wf| |]. }
  destruct (Ha e He) as [?|(v & Hin & Hv)]; [by left|right].
  destruct (fed_unsettled _ _ _ _ _ Hf Hin) as (fs & ? & ? & <-). eauto.
Qed.
End sink.

(** The Redis sink on a server that loses the reply to the second write. *)
Definition demo_redis : RedisMaterializer.t (R := gmap string string * list (string * string)) :=
  RedisMaterializer.mk (Some (∅, [])) Second.
#[local] Instance demo_redis_sink : Materializer (RedisMaterializer.t (R := gmap string string * list (string * string))) :=
  redis_materializer lossy_Set.
Definition demo_first := ApplyAndMaterialize Background 0 demo_window (demo_event "e1" "a" 10 0 0 1) (Some demo_redis).
Definition demo_second :=
  ApplyAndMaterialize Background 1 demo_first.1.1 (demo_event "e2" "a" 30 1 0 2) demo_first.1.2.

Lemma sink_agrees_witness :
  let laws := redis_sink_laws lossy_Set fst snd in
  match demo_second.1.2 with
  | Some s => is_Some (view (SinkLaws := laws) s "a") ∧ length (events_of demo_second.1.1 "a") = 1%nat
  | None => False
  end.
Proof.
  intros laws. destruct demo_first as [[w1 [s1|]] r1] eqn:E1; [|vm_compute in E1; discriminate].
  assert (demo_second = ApplyAndMaterialize Background 1 w1 (demo_event "e2" "a" 30 1 0 2) (Some s1)) as E2
    by (unfold demo_second; by rewrite E1).
  assert (length (events_of demo_second.1.1 "a") = 1%nat) as Hlen by (vm_compute; reflexivity).
  destruct demo_second as [[w2 [s2|]] r2] eqn:E2'; [|exfalso; vm_compute in E2'; discriminate].
  split; [|exact Hlen].
  destruct (sink_agrees (HL := laws) w2 s2 _ "a"
    (fed_event (HL := laws) Background 1 w1 s1 _ (demo_event "e2" "a" 30 1 0 2) w2 s2 r2
       (fed_event (HL := laws) Background 0 demo_window demo_redis [] (demo_event "e1" "a" 10 0 0 1) w1 s1 r1
          (fed_new (HL := laws) (60 * Second) 2 3 demo_redis eq_refl) E1) (eq_sym E2))) as [Hv|(fs & _ & _ & _ & Hv)];
    [intros Hn; simpl in Hlen; by rewrite Hn in Hlen|by eexists..].
Defined.
