(* ===== verification/FeatureStoreTheorems.v ===== *)
(** * The feature store: laws of its interface and claims

    [SoundStore] states what the gateway relies on; the in-memory store, the
    Redis store and their fallback composition discharge it.  The last
    section is the contract between the stream processor and the serving
    plane: what the one writes to Redis is what the other reads. *)

From Stdlib Require Import ZArith Lia SpecFloat Ascii DecimalString DecimalZ.
From stdpp Require Import prelude gmap strings list.
From S2P Require Import Prelude GoFloat GoString GoContext GoTLS GoRedis Ingestion Window Materialize FeatureStore FloatTextModel.

#[local] Open Scope Z_scope.

(** ** Interface laws *)

(** A vector of the given width whose values are all finite. *)
Definition vector_ok (w : Z) (v : list float64) : Prop :=
  Z.of_nat (length v) = w ∧ Forall (λ x, finite x = true) v.

(** In the states [good], which every call preserves, only vectors of width
    [w] with finite values are served. *)
Class SoundStore (S : Type) `{Store S} (w : Z) (good : S → Prop) : Prop := {
  sound_get ctx now key s s' t r :
    Get ctx now key s = (s', t, r) → good s → good s' ∧ (∀ v, r = Ok v → vector_ok w v);
}.

(** ** The in-memory store *)

Definition memory_ok (w : Z) (m : Memory.t) : Prop :=
  Memory.width m = w ∧ map_Forall (λ key v, validFeatureKey key = true ∧ vector_ok w v) (Memory.values m).

Lemma existsb_not_finite v :
  existsb (λ x, IsNaN x || IsInf x) v = false → Forall (λ x, finite x = true) v.
Proof.
  induction v as [|x v IH]; [done|]. simpl. intros H. bool_to_prop.
  constructor; [unfold finite; by rewrite H, H1|auto].
Qed.

Lemma memory_put_ok w m key v m' err :
  Memory.Put key v m = (m', err) → memory_ok w m →
  memory_ok w m' ∧
  (err = None → validFeatureKey key = true ∧ vector_ok w v ∧ Memory.values m' = <[key := v]> (Memory.values m)) ∧
  (err ≠ None → m' = m).
Proof.
  unfold Memory.Put, memory_ok. intros Hp [Hw Hm].
  repeat case_if; simplify_eq; bool_to_prop; simpl; try by split_and!.
  apply existsb_not_finite in Hif1. split_and!; [done| |done|done].
  by apply map_Forall_insert_2.
Qed.

#[export] Instance memory_sound w : SoundStore Memory.t w (memory_ok w).
Proof.
  constructor. intros ctx now key s s' t r. simpl. unfold Memory.Get. intros [= <- <- <-] [Hw Hm].
  split; [done|]. intros v. destruct (ctx_err ctx now); [done|].
  destruct (Memory.values s !! key) eqn:E; [|done]. intros [= ->]. by apply (Hm _ _ E).
Qed.

(** ** The Redis store *)

Section redis.
Context `{FloatText} {R : Type}.
Context (client_Get : Context → Z → string → R → outcome R (result string)).
Context (client_Ping : Context → Z → R → outcome R (option error)).

Lemma parse_parts_ok i parts v :
  Redis.parse_parts i parts = Ok v → length v = length parts ∧ Forall (λ x, finite x = true) v.
Proof.
  revert i v. induction parts as [|part parts IH]; intros i v; simpl; [by intros [= <-]|].
  destruct (ParseFloat part) as [x|]; simpl; [|done].
  destruct (IsNaN x || IsInf x) eqn:Hx; simpl; [done|].
  destruct (Redis.parse_parts (i + 1) parts) as [xs|] eqn:E; simpl; [|done].
  intros [= <-]. apply IH in E as [Hl Hf]. apply orb_false_iff in Hx as [Hn Hi]. simpl.
  split; [by rewrite Hl|]. constructor; [unfold finite; by rewrite Hn, Hi|done].
Qed.

Lemma decode_ok w value v : Redis.decode w value = Ok v → vector_ok w v.
Proof.
  unfold Redis.decode. case_if; [done|]. bool_to_prop.
  intros [Hl Hf]%parse_parts_ok. split; [by rewrite Hl|done].
Qed.

Lemma redis_sound w :
  @SoundStore Redis.t (Redis.redis_store client_Get client_Ping) w (λ r, Redis.width r = w).
Proof.
  constructor. intros ctx now key s s' t r. simpl. unfold Redis.Get.
  repeat case_match; intros ? Hw; simplify_eq; simpl; split; try done.
  intros v. apply decode_ok.
Qed.

(** A call of the client returns within [B] of its start: the sum of the
    connection-pool, dial, write and read timeouts, with the retries that the
    constructor disables.  go-redis applies the deadline of the context to its
    input and output only with the option [ContextTimeoutEnabled], which the
    constructor leaves off, so no bound by the context is assumed. *)
Definition client_bounded (B : Z) : Prop := ∀ ctx now key c c' t r,
  client_Get ctx now key c = (c', t, r) → now <= t <= now + B.

Lemma redis_get_bounded B ctx now key s s' t r :
  client_bounded B → 0 <= B → Redis.Get client_Get ctx now key s = (s', t, r) → now <= t <= now + B.
Proof.
  intros Hc HB. unfold Redis.Get. destruct (Redis.client s); [|intros [= <- <- <-]; lia].
  case_if; [intros [= <- <- <-]; lia|].
  destruct (ctx_err ctx now) eqn:He; [intros [= <- <- <-]; lia|].
  destruct (client_Get _ _ _ _) as [[c' t'] res] eqn:Hg. intros [= <- <- <-]. by eapply Hc.
Qed.

(** The one call of the client that [Get] makes. *)
Lemma redis_get_client client_Get' ctx now key s :
  (∀ c, Redis.client s = Some c →
     client_Get' (WithTimeout ctx now (Redis.timeout s)) now key c =
     client_Get (WithTimeout ctx now (Redis.timeout s)) now key c) →
  Redis.Get client_Get' ctx now key s = Redis.Get client_Get ctx now key s.
Proof.
  intros Hc. unfold Redis.Get. destruct (Redis.client s) as [c|]; [|done]. case_if; [done|].
  destruct (ctx_err ctx now); [done|]. by rewrite Hc.
Qed.
End redis.

(** ** The fallback composition *)

Lemma reserve_deadline ctx now d :
  ctx_deadline ctx = Some d → now < d →
  ctx_deadline (reserveFallbackBudget ctx now) = Some (now + Z.quot (d - now) 2).
Proof.
  intros Hd Hn. unfold reserveFallbackBudget, Until. rewrite Hd.
  rewrite (proj2 (Z.leb_gt _ _)) by lia. unfold WithTimeout, WithDeadline. simpl. rewrite Hd.
  f_equal. rewrite Z.quot_div_nonneg by lia. rewrite Z.min_r; [done|].
  pose proof (Z.div_le_upper_bound (d - now) 2 (d - now)). lia.
Qed.

Section fallback.
Context {P L : Type} `{Store P, Store L} (w : Z) (goodP : P → Prop) (goodL : L → Prop).

Definition fallback_ok (f : Fallback.t P L) : Prop :=
  (∀ p, Fallback.Primary f = Some p → goodP p) ∧ (∀ l, Fallback.Local f = Some l → goodL l).

Lemma get_local_sound `{!SoundStore L w goodL} ctx now key f f' t r :
  Fallback.get_local ctx now key f = (f', t, r) → fallback_ok f →
  fallback_ok f' ∧ (∀ v, r = Ok v → vector_ok w v).
Proof.
  unfold Fallback.get_local. destruct (Fallback.Local f) as [l|] eqn:E; [|by intros [= <- <- <-]].
  destruct (Get ctx now key l) as [[l' t'] r'] eqn:Hg. intros [= <- <- <-] [HP HL].
  destruct (sound_get _ _ _ _ _ _ _ Hg) as [Hl Hv]; [auto|]. split; [|done]. split; simpl; [done|].
  by intros ? [= <-].
Qed.

#[export] Instance fallback_sound `{!SoundStore P w goodP, !SoundStore L w goodL} :
  SoundStore (Fallback.t P L) w fallback_ok.
Proof.
  constructor. intros ctx now key f f' t r. simpl. unfold Fallback.Get.
  destruct (Fallback.Primary f) as [p|] eqn:E; [|apply get_local_sound].
  destruct (Get _ now key p) as [[p' t'] r'] eqn:Hg. intros Hf [HP HL].
  destruct (sound_get _ _ _ _ _ _ _ Hg) as [Hp Hv]; [auto|].
  assert (fallback_ok (Fallback.mk (Some p') (Fallback.Local f))) as Hok.
  { split; simpl; [by intros ? [= <-]|done]. }
  destruct r' as [v|e]; [by simplify_eq|]. destruct (ctx_err ctx t'); [by simplify_eq|].
  by eapply get_local_sound.
Qed.
End fallback.

(** ** What the stream processor writes is what the gateway reads *)

Section redis_contract.
Context `{FloatText} `{!FloatTextLaws _}.

Lemma parse_parts_all i parts v :
  Forall2 (λ p x, ParseFloat p = Ok x ∧ finite x = true) parts v → Redis.parse_parts i parts = Ok v.
Proof.
  intros Hf. revert i. induction Hf as [|p x parts v [Hp Hx] Hf IH]; intros i; simpl; [done|].
  rewrite Hp. unfold finite in Hx. bool_to_prop. rewrite H0, H1. simpl. by rewrite IH.
Qed.

(** The 32 values of the vector written for [fs]. *)
Definition written_values (fs : Features) : list float64 :=
  [float_of_Z (feat_EventCount fs) 0; feat_TotalAmount fs; feat_MaxAmount fs]
  ++ replicate 29 (float_of_Z 0 0).

Definition encodable (fs : Features) : Prop :=
  0 <= feat_EventCount fs < 2 ^ 63 ∧
  finite (feat_TotalAmount fs) = true ∧ valid64 (feat_TotalAmount fs) = true ∧
  finite (feat_MaxAmount fs) = true ∧ valid64 (feat_MaxAmount fs) = true.

Lemma decode_feature_vector fs :
  encodable fs →
  Redis.decode (Z.of_nat MaterializedFeatureWidth) (Join "," (feature_vector fs)) = Ok (written_values fs).
Proof.
  intros (Hc & Ht & Vt & Hm & Vm).
  assert (ParseFloat "0" = Ok (float_of_Z 0 0)) as H0 by by apply (parse_itoa 0).
  unfold Redis.decode. rewrite Split_Join.
  - rewrite (proj2 (Z.eqb_eq _ _)) by done. simpl negb. cbv iota.
    apply parse_parts_all. change (feature_vector fs) with
      ([Itoa (feat_EventCount fs); FormatFloat (feat_TotalAmount fs); FormatFloat (feat_MaxAmount fs)]
         ++ replicate 29 "0").
    unfold written_values. apply Forall2_app; [|by apply Forall2_replicate].
    repeat constructor; auto using parse_itoa, parse_format, float_of_Z_finite.
  - done.
  - change (feature_vector fs) with
      ([Itoa (feat_EventCount fs); FormatFloat (feat_TotalAmount fs); FormatFloat (feat_MaxAmount fs)]
         ++ replicate 29 "0").
    apply Forall_app. split; [|by apply Forall_replicate].
    repeat constructor; [by apply Itoa_no_char|by apply format_separators; left..].
Qed.
End redis_contract.

Section redis_server.
Context `{FloatText} `{!FloatTextLaws _} {R : Type}.
(** The server both planes talk to: its commands and its key space. *)
Context (client_Set : Context → Z → string → string → R → R * option error).
Context (client_Get : Context → Z → string → R → outcome R (result string)).
Context (stored : R → gmap string string).

(** An acknowledged SET is stored; GET returns the stored string, and
    [redis.Nil] only for an absent key. *)
Class RedisServer : Prop := {
  set_acknowledged ctx now k v c c' :
    client_Set ctx now k v c = (c', None) → stored c' = <[k := v]> (stored c);
  get_stored ctx now k c c' t v :
    client_Get ctx now k c = (c', t, Ok v) → stored c !! k = Some v;
  get_absent ctx now k c c' t e :
    client_Get ctx now k c = (c', t, Err e) → errors_Is e redis_Nil = true → stored c !! k = None;
}.

Lemma put_accepted ctx now fs c tw r :
  RedisMaterializer.Put client_Set ctx now fs (RedisMaterializer.mk (Some c) tw) = (r, None) →
  ∃ c', r = RedisMaterializer.mk (Some c') tw ∧
        client_Set (WithTimeout ctx now tw) now (feat_EntityID fs) (Join "," (feature_vector fs)) c = (c', None) ∧
        0 <= feat_EventCount fs ∧ finite (feat_TotalAmount fs) = true ∧ finite (feat_MaxAmount fs) = true.
Proof.
  unfold RedisMaterializer.Put. simpl.
  destruct (validateMaterializedFeatures fs) eqn:Hv; [done|].
  destruct (client_Set _ _ _ _ c) as [c' err] eqn:Hs. intros [= <- ->]. exists c'.
  unfold validateMaterializedFeatures in Hv. case_if; [done|]. bool_to_prop. unfold finite.
  repeat match goal with H : IsNaN _ = _ |- _ => rewrite H | H : IsInf _ = _ |- _ => rewrite H end.
  done.
Qed.

(** C6: the contract between the stream processor and the serving plane.
    After [RedisMaterializer.Put] reported success, the feature store's
    [Redis.Get] of the same entity returns exactly the vector (event count,
    total, maximum, 29 zeros), unless the client's own GET fails, in which
    case it reports that failure; it never reports that features are missing. *)
Theorem materialized_vector_read_back `{!RedisServer}
    ctx now fs c tw c' ctx' now' tr c'' t r :
  RedisMaterializer.Put client_Set ctx now fs (RedisMaterializer.mk (Some c) tw)
    = (RedisMaterializer.mk (Some c') tw, None) →
  feat_EventCount fs < 2 ^ 63 → valid64 (feat_TotalAmount fs) = true → valid64 (feat_MaxAmount fs) = true →
  validFeatureKey (feat_EntityID fs) = true → ctx_err ctx' now' = None →
  client_Get (WithTimeout ctx' now' tr) now' (feat_EntityID fs) c' = (c'', t, r) →
  Redis.Get client_Get ctx' now' (feat_EntityID fs) (Redis.mk (Some c') 32 tr) =
    (Redis.mk (Some c'') 32 tr, t, match r with Ok _ => Ok (written_values fs) | Err e => Err e end) ∧
  (∀ e, r = Err e → errors_Is e redis_Nil = false).
Proof.
  intros Hput Hc Vt Vm Hkey Hctx Hget.
  apply put_accepted in Hput as (? & [= <-] & Hset & Hc0 & Ft & Fm).
  apply set_acknowledged in Hset.
  assert (∀ e, r = Err e → errors_Is e redis_Nil = false) as Hnil.
  { intros e ->. destruct (errors_Is e redis_Nil) eqn:E; [|done].
    pose proof (get_absent _ _ _ _ _ _ _ Hget E) as Ha. by rewrite Hset, lookup_insert_eq in Ha. }
  split; [|done]. unfold Redis.Get. simpl. rewrite Hkey, Hctx. simpl. rewrite Hget.
  destruct r as [v|e]; [|by rewrite (Hnil e eq_refl)].
  apply get_stored in Hget. rewrite Hset, lookup_insert_eq in Hget. injection Hget as <-.
  do 2 f_equal. by apply decode_feature_vector.
Qed.
End redis_server.

(** A server that is a map and answers at once. *)
Definition demo_Set (ctx : Context) (now : Z) (k v : string) (c : gmap string string) :
    gmap string string * option error := (<[k := v]> c, None).
Definition demo_Get (ctx : Context) (now : Z) (k : string) (c : gmap string string) :
    outcome (gmap string string) (result string) :=
  (c, now, match c !! k with Some v => Ok v | None => Err redis_Nil end).

#[export] Instance demo_server : RedisServer demo_Set demo_Get (λ c, c).
Proof.
  constructor.
  - unfold demo_Set. by intros ? ? k v c c' [= <-].
  - unfold demo_Get. intros ? ? k c c' t v. destruct (c !! k) eqn:E; [|done]. by intros [= <- <- <-].
  - unfold demo_Get. intros ? ? k c c' t e. by destruct (c !! k).
Qed.

Definition demo_features : Features := mkFeatures "card-1" 2 (float_of_Z 30 0) (float_of_Z 20 0) 5.

Lemma materialized_vector_read_back_witness :
  let c := <["card-1" := Join "," (feature_vector demo_features)]> ∅ in
  Redis.Get demo_Get Background 1 "card-1" (Redis.mk (Some c) 32 Second)
  = (Redis.mk (Some c) 32 Second, 1, Ok (written_values demo_features)).
Proof.
  intros c.
  exact (proj1 (materialized_vector_read_back demo_Set demo_Get (λ c, c) Background 0 demo_features ∅ Second
    c Background 1 Second c 1 (Ok (Join "," (feature_vector demo_features)))
    eq_refl eq_refl eq_refl eq_refl eq_refl eq_refl eq_refl)).
Defined.

(** The store the gateway is wired to, Redis with the in-memory store
    behind it, serves only vectors of the configured width whose values are
    all finite, whatever Redis holds, and stays in a state where this holds. *)
Theorem served_vectors_well_formed `{FloatText} {R} client_Get client_Ping w
    (f f' : Fallback.t (@Redis.t R) Memory.t) ctx now key t r :
  let S := Redis.redis_store client_Get client_Ping in
  Fallback.Get ctx now key f = (f', t, r) →
  fallback_ok (λ p, Redis.width p = w) (memory_ok w) f →
  fallback_ok (λ p, Redis.width p = w) (memory_ok w) f' ∧
  (∀ v, r = Ok v → Z.of_nat (length v) = w ∧ Forall (λ x, finite x = true) v).
Proof.
  intros S Hg Hok. pose proof (redis_sound client_Get client_Ping w).
  exact (sound_get ctx now key f f' t r Hg Hok).
Qed.

Definition demo_local : Memory.t := (Memory.Put "card-1" [fone; fone] (Memory.NewMemory 2)).1.

Lemma served_vectors_well_formed_witness :
  Z.of_nat (length [fone; fone]) = 2 ∧ Forall (λ x, finite x = true) [fone; fone].
Proof.
  eapply (served_vectors_well_formed demo_Get (λ _ now c, (c, now, None)) 2
    (Fallback.mk (Some (Redis.mk (Some ∅) 2 Second)) (Some demo_local)) _ Background 0 "card-1");
    [vm_compute; reflexivity| |reflexivity].
  split; intros ? [= <-]; [done|].
  by apply (memory_put_ok 2 (Memory.NewMemory 2) "card-1" [fone; fone] _ None).
Defined.

(** The context with which the fallback composition lets Redis be called. *)
Definition primary_context (ctx : Context) (now timeout : Z) : Context :=
  WithTimeout (reserveFallbackBudget ctx now) now timeout.

Lemma primary_deadline ctx now timeout d :
  ctx_deadline ctx = Some d → now < d →
  ctx_deadline (primary_context ctx now timeout) = Some (Z.min (now + (d - now) `div` 2) (now + timeout)).
Proof.
  intros Hd Hn. unfold primary_context, WithTimeout, WithDeadline. simpl. rewrite (reserve_deadline ctx now d Hd Hn).
  by rewrite Z.quot_div_nonneg by lia.
Qed.

(** C20: the local snapshot behind Redis.  [Fallback.Get] calls Redis once, with
    a context whose deadline leaves the caller half of its remaining time.
    When Redis fails while the caller's deadline is still ahead, the vector
    that the local store has for the key is served; so a client that returns
    within [B] of its start cannot prevent that if the caller has more than [B]
    left.  When Redis fails at or after the caller's deadline the snapshot is
    lost: the answer is [DeadlineExceeded], although the local store has the
    vector. *)
Theorem fallback_available `{FloatText} {R} client_Get client_Ping
    (p p' : @Redis.t R) (l : Memory.t) ctx now key d v f' t t' r r' :
  let store client := Redis.redis_store client client_Ping in
  ctx_deadline ctx = Some d → ctx_cancelled ctx = None → now < d →
  Memory.values l !! key = Some v →
  Redis.Get client_Get (reserveFallbackBudget ctx now) now key p = (p', t', r') →
  Fallback.Get (H := store client_Get) ctx now key (Fallback.mk (Some p) (Some l)) = (f', t, r) →
  t = t' ∧
  (∀ v', r' = Ok v' → r = Ok v') ∧
  (∀ e, r' = Err e → t' < d → r = Ok v) ∧
  (∀ e, r' = Err e → d <= t' → r = Err DeadlineExceeded) ∧
  (∀ B, client_bounded client_Get B → 0 <= B → now + B < d → t <= now + B ∧ ∃ x, r = Ok x) ∧
  (ctx_deadline (primary_context ctx now (Redis.timeout p)) =
     Some (Z.min (now + (d - now) `div` 2) (now + Redis.timeout p)) ∧
   ∀ client_Get',
     (∀ c, client_Get' (primary_context ctx now (Redis.timeout p)) now key c =
           client_Get (primary_context ctx now (Redis.timeout p)) now key c) →
     Fallback.Get (H := store client_Get') ctx now key (Fallback.mk (Some p) (Some l)) = (f', t, r)).
Proof.
  intros store Hd Hcan Hn Hl Hg Hf.
  assert (∀ u, ctx_err ctx u = if d <=? u then Some DeadlineExceeded else None) as Hctx.
  { intros u. unfold ctx_err. by rewrite Hd, Hcan. }
  assert (t = t' ∧ r = match r' with
                       | Ok v' => Ok v'
                       | Err _ => if d <=? t' then Err DeadlineExceeded else Ok v end) as [Ht Hr].
  { revert Hf. unfold Fallback.Get. simpl. rewrite Hg. simpl. destruct r' as [v'|e]; [by intros [= _ <- <-]|].
    rewrite Hctx. case_if; [by intros [= _ <- <-]|]. unfold Fallback.get_local. simpl. unfold Memory.Get.
    rewrite Hctx, Hif, Hl. by intros [= _ <- <-]. }
  split_and!; [done|by intros v' ->|..].
  - intros e -> Hlt. rewrite (proj2 (Z.leb_gt _ _)) in Hr by lia. done.
  - intros e -> Hle. rewrite (proj2 (Z.leb_le _ _)) in Hr by lia. done.
  - intros B HB H0 Hlt. pose proof (redis_get_bounded _ _ _ _ _ _ _ _ _ HB H0 Hg). split; [lia|].
    destruct r' as [v'|e]; [eauto|]. rewrite (proj2 (Z.leb_gt _ _)) in Hr by lia. eauto.
  - by apply primary_deadline.
  - intros client_Get' Hsame. rewrite <- Hf. unfold Fallback.Get. simpl.
    by rewrite (redis_get_client client_Get client_Get') by (intros c _; apply Hsame).
Qed.

(** A client whose server is down: it blocks for its read timeout of 50. *)
Definition hung_Get (ctx : Context) (now : Z) (key : string) (c : unit) : outcome unit (result string) :=
  (c, now + 50, Err (Fresh "i/o timeout")).

Lemma fallback_available_witness :
  let store := Redis.redis_store hung_Get (λ _ now c, (c, now, None)) in
  let get deadline := Fallback.Get (H := store) (mkContext (Some deadline) None) 0 "card-1"
                        (Fallback.mk (Some (Redis.mk (Some tt) 2 Second)) (Some demo_local)) in
  (get 1000).2 = Ok [fone; fone] ∧ (get 40).2 = Err DeadlineExceeded.
Proof.
  intros store get. destruct (get 1000) as [[f1 t1] r1] eqn:E1. destruct (get 40) as [[f2 t2] r2] eqn:E2. split.
  - eapply (fallback_available hung_Get (λ _ now c, (c, now, None)) (Redis.mk (Some tt) 2 Second) _ demo_local
      (mkContext (Some 1000) None) 0 "card-1" 1000 [fone; fone] f1 t1);
      [reflexivity|reflexivity|lia|vm_compute; reflexivity|vm_compute; reflexivity|exact E1|reflexivity|lia].
  - eapply (fallback_available hung_Get (λ _ now c, (c, now, None)) (Redis.mk (Some tt) 2 Second) _ demo_local
      (mkContext (Some 40) None) 0 "card-1" 40 [fone; fone] f2 t2);
      [reflexivity|reflexivity|lia|vm_compute; reflexivity|vm_compute; reflexivity|exact E2|reflexivity|lia].
Defined.

(** The in-memory store is a map from valid keys to finite vectors of
    its width.  [Put] preserves this, accepts exactly such pairs and changes
    nothing otherwise; a later [Get] with a live context returns the last
    accepted vector of its key and leaves the other keys alone. *)
Theorem memory_put_get w m key v m' err ctx now k :
  Memory.Put key v m = (m', err) → memory_ok w m → ctx_err ctx now = None →
  memory_ok w m' ∧
  (err = None ↔ validFeatureKey key = true ∧ vector_ok w v) ∧
  (Memory.Get ctx now k m').2 =
    (if bool_decide (err = None ∧ k = key) then Ok v else (Memory.Get ctx now k m).2).
Proof.
  intros Hp Hm Hctx. pose proof (memory_put_ok w m key v m' err Hp Hm) as (Hm' & Hok & Hbad).
  split; [done|]. split.
  - split; [intros He; by destruct (Hok He) as (? & ? & ?)|]. intros (Hk & Hlen & Hfin).
    unfold Memory.Put in Hp. destruct Hm as [Hw _]. rewrite Hk, Hw, Hlen, Z.eqb_refl in Hp. simpl in Hp.
    replace (existsb _ v) with false in Hp; [by simplify_eq|].
    clear -Hfin. induction Hfin as [|x v Hx _ IH]; [done|]. simpl. rewrite <- IH, orb_false_r.
    unfold finite in Hx. by destruct (IsNaN x), (IsInf x).
  - unfold Memory.Get. simpl. rewrite Hctx. case_bool_decide as Hb.
    + destruct Hb as [He ->]. destruct (Hok He) as (_ & _ & ->). by rewrite lookup_insert_eq.
    + destruct err as [e|]; [by rewrite (Hbad ltac:(done))|].
      destruct (Hok eq_refl) as (_ & _ & ->). rewrite lookup_insert_ne; [done|]. naive_solver.
Qed.

Lemma memory_put_get_witness :
  (Memory.Get Background 0 "card-1" demo_local).2 = Ok [fone; fone].
Proof.
  exact (proj2 (proj2 (memory_put_get 2 (Memory.NewMemory 2) "card-1" [fone; fone] demo_local None
    Background 0 "card-1" eq_refl (conj eq_refl (map_Forall_empty _)) eq_refl))).
Defined.
