(* ===== verification/KafkaTheorems.v ===== *)
(** * The Kafka consumer: delivery protocol, poison records, backoff

    The claims about [Kafka.v].  The abstract specification is the automaton
    [accepts]: the calls a consumer may make, record by record.  The refinement
    theorem says that every sequence of calls [Consume] makes is a run of it,
    whatever the reader, the writer, the handler and the context do. *)

From Stdlib Require Import ZArith Lia SpecFloat.
From stdpp Require Import prelude strings list.
From S2P Require Import Prelude GoFloat GoString GoContext Ingestion Kafka.

#[local] Open Scope Z_scope.

(** ** The protocol of one record *)

(** [Fetched m n]: [m] was fetched and [n] attempts to process it failed.
    [Settled m]: it was handled or durably dead-lettered, and is not committed. *)
Inductive phase :=
| Idle
| Fetched (m : Message) (failed : nat)
| Settled (m : Message).

#[global] Instance message_eq_dec : EqDecision Message.
Proof. solve_decision. Defined.

(** The event handed to the handler carries the record's own position. *)
Definition positioned (m : Message) (ev : Event) : bool :=
  (Partition ev =? msg_Partition m) && (Offset ev =? msg_Offset m).

Section protocol.
Context (k : KafkaConsumer).

Definition may_retry (n : nat) : bool := Z.of_nat n <? maxAttempts k.
Definition may_dlq (n : nat) : bool :=
  negb (may_retry n) && bool_decide (poisonPolicy k = "dlq").

Definition accept1 (p : phase) (a : action) : option phase :=
  match p, a with
  | Idle, AFetch (Ok m) => Some (Fetched m 0)
  | Idle, AFetch (Err _) => Some Idle
  | Fetched m n, ADecode m' _ =>
      if bool_decide (m = m') && may_retry n then Some (Fetched m (S n)) else None
  | Fetched m n, AHandle m' ev err =>
      if bool_decide (m = m') && may_retry n && positioned m ev
      then Some (match err with None => Settled m | Some _ => Fetched m (S n) end) else None
  | Fetched m n, APoison m' _ err =>
      if bool_decide (m = m') && may_dlq n
      then Some (match err with None => Settled m | Some _ => Fetched m n end) else None
  | Fetched m n, ADLQ m' dlq err =>
      if bool_decide (m = m') && may_dlq n
         && bool_decide (msg_Key dlq = msg_Key m ∧ msg_Value dlq = msg_Value m)
      then Some (match err with None => Settled m | Some _ => Fetched m n end) else None
  | Settled m, ACommit m' err =>
      if bool_decide (m = m')
      then Some (match err with None => Idle | Some _ => Settled m end) else None
  | p, AWait _ _ => Some p
  | _, _ => None
  end.

Fixpoint accepts (p : phase) (t : list action) : option phase :=
  match t with
  | [] => Some p
  | a :: t => p' ← accept1 p a; accepts p' t
  end.

Lemma accepts_app p t1 t2 :
  accepts p (t1 ++ t2) = p' ← accepts p t1; accepts p' t2.
Proof.
  revert p. induction t1 as [|a t1 IH]; intros p; [done|]. simpl.
  destruct (accept1 p a); simpl; [apply IH|done].
Qed.
End protocol.

(** ** Traces of programs *)

Section emits.
Context {W : Type}.

(** Every run of [m] ends in an answer and a trace that satisfy [R]. *)
Definition emits {A} (m : @prog W A) (R : A → list action → Prop) : Prop :=
  ∀ w, R (m w).1.1 (m w).1.2.

Lemma emits_ret {A} (a : A) (R : A → list action → Prop) : R a [] → emits (mret a) R.
Proof. by intros H w. Qed.

Lemma emits_bind {A B} (m : prog A) (f : A → prog B) P (Q : B → list action → Prop) :
  emits m P → (∀ a t, P a t → emits (f a) (λ b t', Q b (t ++ t'))) → emits (m ≫= f) Q.
Proof.
  intros Hm Hf w. specialize (Hm w). unfold mbind, prog_bind.
  destruct (m w) as [[a t] w']. simpl in Hm. specialize (Hf a t Hm w').
  by destruct (f a w') as [[b t'] w''].
Qed.

Lemma emits_call {A} (f : W → W * A) act (R : A → list action → Prop) :
  (∀ a, R a [act a]) → emits (call f act) R.
Proof. intros H w. unfold call. by destruct (f w). Qed.

Lemma emits_observe {A} (f : W → A) (R : A → list action → Prop) :
  (∀ a, R a []) → emits (observe f) R.
Proof. by intros H w. Qed.

Lemma emits_weaken {A} (m : prog A) (P Q : A → list action → Prop) :
  emits m P → (∀ a t, P a t → Q a t) → emits m Q.
Proof. intros Hm H w. apply H, Hm. Qed.
End emits.

#[export] Hint Resolve emits_ret emits_call emits_observe : go.

(** ** The consumer follows the protocol *)

Section consumer.
Context {W : Type}.
Context (FetchMessage : W → W * result Message).
Context (CommitMessages WriteMessages : Message → W → W * option error).
Context (poisonHandler : string → error → W → W * option error).
Context (ctx_Err : W → option error) (timer_or_done : Z → W → W * option error).
Context (unmarshal : string → result Event) (format_time : Z → string).
Context (k : KafkaConsumer).

Abbreviation runs := (accepts k).

Lemma accepts_wait p d e t : runs p (AWait d e :: t) = runs p t.
Proof. by destruct p. Qed.

Lemma emits_retry {A} attempt (giveup : error → A) next (R : A → list action → Prop) :
  (∀ b t d e, R b t → R b (AWait d e :: t)) →
  (∀ e, R (giveup e) []) → emits next R →
  emits (retry timer_or_done k attempt giveup next) R.
Proof.
  intros Hw Hg Hn. unfold retry. case_if; [|done].
  eapply emits_bind.
  - apply emits_call with (R := λ _ t, ∃ d e, t = [AWait d e]). intros a. eauto.
  - intros [e|] t (d & e' & ->); [apply emits_ret, Hw, Hg|].
    eapply emits_weaken; [apply Hn|]. intros; by apply Hw.
Qed.

Lemma fetch_from_runs todo attempt last :
  emits (fetch_from FetchMessage ctx_Err timer_or_done k todo attempt last)
    (λ r t, runs Idle t = Some (match r with Ok m => Fetched m 0 | Err _ => Idle end)).
Proof.
  revert attempt last. induction todo as [|todo IH]; intros attempt last; simpl.
  { by apply emits_ret. }
  eapply emits_bind; [by apply emits_call with (R := λ r t, t = [AFetch r])|].
  intros [m|err] ? ->; [by apply emits_ret|].
  eapply emits_bind; [by apply emits_observe with (R := λ _ t, t = [])|].
  intros [e|] ? ->; [by apply emits_ret|].
  apply emits_retry; [| done |apply IH].
  intros b t d e. cbn [app]. intros H. change (runs Idle (AWait d e :: t) =
    Some (match b with Ok m => Fetched m 0 | Err _ => Idle end)). by rewrite accepts_wait.
Qed.

Lemma commit_from_runs m todo attempt last :
  emits (commit_from CommitMessages ctx_Err timer_or_done k m todo attempt last)
    (λ r t, runs (Settled m) t = Some (match r with None => Idle | Some _ => Settled m end)).
Proof.
  assert (∀ e t, runs (Settled m) (ACommit m (Some e) :: t) = runs (Settled m) t) as Hc.
  { intros e t. simpl. by rewrite bool_decide_eq_true_2. }
  revert attempt last. induction todo as [|todo IH]; intros attempt last; simpl.
  { by apply emits_ret. }
  eapply emits_bind; [by apply emits_call with (R := λ r t, t = [ACommit m r])|].
  intros [err|] ? ->.
  2:{ apply emits_ret. simpl. by rewrite bool_decide_eq_true_2. }
  eapply emits_bind; [by apply emits_observe with (R := λ _ t, t = [])|].
  intros [e|] ? ->; cbn [app].
  { apply emits_ret. by rewrite Hc. }
  apply emits_retry; [| |eapply emits_weaken; [apply IH|]]; intros *; rewrite !Hc; try done.
Qed.

Section handler.
Context (handle : Event → W → W * option error).

(** Where a run of [process] leaves a record: settled exactly when it
    reports success. *)
Definition processed (m : Message) (n : nat) (r : option error) (t : list action) : Prop :=
  ∃ n', runs (Fetched m n) t = Some (match r with None => Settled m | Some _ => Fetched m n' end).

Lemma process_once_runs m n :
  Z.of_nat n < maxAttempts k →
  emits (process_once unmarshal handle m)
    (λ r t, runs (Fetched m n) t =
       Some (match r with None => Settled m | Some _ => Fetched m (S n) end)).
Proof.
  intros Hn. unfold process_once. destruct (unmarshal (msg_Value m)) as [ev|err].
  - apply emits_call. intros r. simpl. unfold may_retry, positioned. simpl.
    by rewrite bool_decide_eq_true_2, (proj2 (Z.ltb_lt _ _) Hn), !Z.eqb_refl.
  - intros w. simpl. unfold may_retry.
    by rewrite bool_decide_eq_true_2, (proj2 (Z.ltb_lt _ _) Hn).
Qed.

Lemma settle_poison_runs m n last :
  maxAttempts k <= Z.of_nat n →
  emits (settle_poison WriteMessages poisonHandler format_time k m last) (processed m n).
Proof.
  intros Hn. unfold settle_poison, processed, writeDLQ.
  assert (may_retry k n = false) as Hm by (unfold may_retry; by apply Z.ltb_ge).
  case_if; bool_to_prop; [|apply emits_ret; by exists n].
  repeat case_if.
  - apply emits_call. intros r. exists n. simpl. unfold may_dlq.
    by rewrite Hm, !bool_decide_eq_true_2.
  - apply emits_ret. by exists n.
  - eapply emits_bind; [by apply emits_call
      with (R := λ r t, t = [ADLQ m (dlq_message format_time k m) r])|].
    intros [e|] ? ->; apply emits_ret; exists n; simpl; unfold may_dlq;
      by rewrite Hm, !bool_decide_eq_true_2.
Qed.

Lemma process_from_runs m todo n attempt last :
  (todo + n = Z.to_nat (maxAttempts k))%nat →
  emits (process_from WriteMessages poisonHandler timer_or_done unmarshal format_time k handle
           m todo attempt last) (processed m n).
Proof.
  revert n attempt last. induction todo as [|todo IH]; intros n attempt last Hn; simpl.
  { apply settle_poison_runs. lia. }
  eapply emits_bind; [apply process_once_runs with (n := n); lia|].
  intros [err|] t Ht; [|apply emits_ret; exists n; by rewrite app_nil_r].
  apply emits_retry; [| |eapply emits_weaken; [apply (IH (S n)); lia|]];
    intros *; unfold processed; rewrite !accepts_app, Ht; simpl.
  1,3: done. by exists (S n).
Qed.

Lemma consume_turn_runs :
  emits (consume_turn FetchMessage CommitMessages WriteMessages poisonHandler ctx_Err
           timer_or_done unmarshal format_time k handle)
    (λ r t, ∃ p, runs Idle t = Some p ∧ (r = None → p = Idle)).
Proof.
  unfold consume_turn. eapply emits_bind; [apply fetch_from_runs|].
  intros [m|e] t Ht; [|apply emits_ret; rewrite app_nil_r; by eexists].
  eapply emits_bind; [apply process_from_runs with (n := 0%nat); lia|].
  intros [e|] t' [n' Ht'].
  { apply emits_ret. rewrite app_nil_r, accepts_app, Ht. simpl. rewrite Ht'. by eexists. }
  eapply emits_weaken; [apply commit_from_runs|]. intros r t'' Ht''.
  rewrite accepts_app, Ht. simpl. rewrite accepts_app, Ht'. simpl. rewrite Ht''.
  eexists. split; [done|]. by intros ->.
Qed.

Lemma consume_loop_runs turns :
  emits (consume_loop FetchMessage CommitMessages WriteMessages poisonHandler ctx_Err
           timer_or_done unmarshal format_time k handle turns)
    (λ r t, ∃ p, runs Idle t = Some p ∧ (r = None → p = Idle)).
Proof.
  induction turns as [|turns IH]; simpl; [apply emits_ret; by exists Idle|].
  eapply emits_bind; [apply consume_turn_runs|].
  intros [e|] t (p & Ht & Hp); [apply emits_ret; rewrite app_nil_r; by exists p|].
  rewrite (Hp eq_refl) in Ht.
  eapply emits_weaken; [apply IH|]. intros r t' Ht'. rewrite accepts_app, Ht. done.
Qed.
End handler.
End consumer.

(** ** What the protocol implies for commits *)

(** An action that settles [m]. *)
Definition settles (m : Message) (a : action) : bool :=
  match a with
  | AHandle m' _ None | APoison m' _ None | ADLQ m' _ None => bool_decide (m' = m)
  | _ => false
  end.
Definition is_fetch (a : action) : bool := match a with AFetch _ => true | _ => false end.

(** [m] was settled since the last fetch of the trace. *)
Definition settled_in (m : Message) (t : list action) : Prop :=
  ∃ t0 a t', t = t0 ++ a :: t' ∧ settles m a = true ∧ forallb (negb ∘ is_fetch) t' = true.

Lemma settled_in_snoc m t a : settled_in m t → is_fetch a = false → settled_in m (t ++ [a]).
Proof.
  intros (t0 & s & t' & -> & Hs & Hf) Ha. exists t0, s, (t' ++ [a]).
  rewrite <- app_assoc. split_and!; [done|done|].
  rewrite forallb_app, Hf. simpl. by rewrite Ha.
Qed.

Lemma settled_phase k t m : accepts k Idle t = Some (Settled m) → settled_in m t.
Proof.
  revert m. induction t as [|a t IH] using rev_ind; intros m; [done|].
  rewrite accepts_app. destruct (accepts k Idle t) as [p|] eqn:Hp; [|done]. simpl.
  destruct (accept1 k p a) as [p'|] eqn:Ha; [|done]. simpl. intros [= ->].
  assert (settles m a = true → settled_in m (t ++ [a])) as Hnew.
  { intros Hs. by exists t, a, []. }
  destruct p as [|m' n|m'], a as [[]|?|? ? []|? ? []|? ? []|? []|]; simpl in Ha;
    repeat case_if; bool_to_prop; simplify_eq;
    try (apply Hnew; simpl; by rewrite bool_decide_eq_true_2);
    apply settled_in_snoc; auto.
Qed.

Lemma commit_settled k t1 m r t2 p :
  accepts k Idle (t1 ++ ACommit m r :: t2) = Some p → settled_in m t1.
Proof.
  rewrite accepts_app. destruct (accepts k Idle t1) as [q|] eqn:Hq; [|done]. simpl.
  destruct q; simpl; try done. case_bool_decide; [subst|done]. intros _.
  by eapply settled_phase.
Qed.

(** ** Backoff in closed form *)

Lemma double_backoff_spec n base :
  0 < base →
  double_backoff n base =
    if (0 <? Z.of_nat n) && (Second / 2 <=? base * 2 ^ (Z.of_nat n - 1)) then Second
    else base * 2 ^ Z.of_nat n.
Proof.
  revert base. induction n as [|n IH]; intros base Hb; [simpl; lia|].
  cbn [double_backoff]. replace (Z.of_nat (S n) - 1) with (Z.of_nat n) by lia.
  rewrite (proj2 (Z.ltb_lt 0 (Z.of_nat (S n)))), andb_true_l by lia.
  pose proof (Z.pow_pos_nonneg 2 (Z.of_nat n)).
  case_if; bool_to_prop.
  { rewrite (proj2 (Z.leb_le _ _)); [done|nia]. }
  rewrite IH by lia. rewrite Nat2Z.inj_succ, Z.pow_succ_r by lia.
  destruct n as [|n]; [simpl; rewrite (proj2 (Z.leb_gt _ _)) by lia; lia|].
  rewrite (proj2 (Z.ltb_lt _ _)), andb_true_l by lia.
  replace (base * 2 * 2 ^ (Z.of_nat (S n) - 1)) with (base * 2 ^ Z.of_nat (S n)).
  2:{ rewrite Nat2Z.inj_succ, Z.pow_succ_r by lia. replace (Z.succ (Z.of_nat n) - 1) with (Z.of_nat n) by lia. lia. }
  case_if; lia.
Qed.

(** ** A record no attempt can process *)

(** An attempt to process a record. *)
Definition is_attempt (a : action) : bool :=
  match a with ADecode _ _ | AHandle _ _ _ => true | _ => false end.
Definition is_commit (a : action) : bool := match a with ACommit _ _ => true | _ => false end.
Definition attempts (t : list action) : nat := length (List.filter is_attempt t).

Section poison.
Context {W : Type}.
Context (WriteMessages : Message → W → W * option error).
Context (poisonHandler : string → error → W → W * option error).
Context (timer_or_done : Z → W → W * option error).
Context (unmarshal : string → result Event) (format_time : Z → string).
Context (k : KafkaConsumer) (handle : Event → W → W * option error) (m : Message).
Context (Hfail : ∀ ev w, positioned m ev = true → (handle ev w).2 ≠ None).
Context (Htimer : ∀ d w, (timer_or_done d w).2 = None).

Lemma process_once_fails :
  emits (process_once unmarshal handle m)
    (λ r t, ∃ e a, r = Some e ∧ t = [a] ∧ is_attempt a = true).
Proof.
  intros w. unfold process_once. destruct (unmarshal (msg_Value m)) as [ev|err]; simpl; [|eauto 10].
  unfold call. match goal with |- context [handle ?ev w] => pose proof (Hfail ev w) as H end.
  unfold positioned in H. simpl in H. rewrite !Z.eqb_refl in H.
  destruct (handle _ w) as [w' [e|]]; simpl in *; [eauto 10|]. by destruct (H eq_refl).
Qed.

Lemma process_from_fails todo attempt last (Q : option error → list action → Prop) :
  (∀ last t, attempts t = todo → forallb (negb ∘ is_commit) t = true →
     emits (settle_poison WriteMessages poisonHandler format_time k m last)
       (λ r t', Q r (t ++ t'))) →
  emits (process_from WriteMessages poisonHandler timer_or_done unmarshal format_time k handle
           m todo attempt last) Q.
Proof.
  revert attempt last Q. induction todo as [|todo IH]; intros attempt last Q HQ; simpl.
  { by apply (HQ last []). }
  eapply emits_bind; [apply process_once_fails|].
  intros ? ? (e & a & -> & -> & Ha). unfold retry.
  assert (is_commit a = false) as Hc by by destruct a.
  case_if.
  - intros w. unfold mbind, prog_bind, waitBackoff, call. pose proof (Htimer (backoff_delay (retryBackoff k) attempt) w) as Ht.
    destruct (timer_or_done _ w) as [w' [?|]]; [done|]. simpl.
    match goal with |- context [process_from _ _ _ _ _ _ _ _ _ ?a2 ?l2 w'] =>
      pose proof (IH a2 l2 (λ r t, Q r (a :: AWait (backoff_delay (retryBackoff k) attempt) None :: t))) as Hi end.
    specialize (λ H, Hi H w'). destruct (process_from _ _ _ _ _ _ _ _ _ _ _ w') as [[r t] w'']. simpl in *.
    apply Hi. intros l t' Hn Hf. apply (HQ l (a :: AWait _ None :: t')); unfold attempts in *; simpl; rewrite ?Ha, ?Hc; simpl; [|done].
    by rewrite Hn.
  - apply IH. intros l t' Hn Hf. apply (HQ l (a :: t')); unfold attempts in *; simpl; rewrite ?Ha, ?Hc; simpl; [|done].
    by rewrite Hn.
Qed.
End poison.

(** ** Claims *)

(** C3: every sequence of calls [Consume] makes, for any behaviour of the
    reader, the writer, the handlers and the context and for any number of
    turns, is a run of the delivery protocol: a record is fetched only when
    the previous one is committed; it is attempted at most [maxAttempts]
    times, always with its own partition and offset; it is dead-lettered only
    under the dlq policy, after every attempt, with key and value unchanged;
    and it is committed only once settled.  While the loop is still running
    the protocol is between two records. *)
Theorem consume_follows_protocol {W} Fetch Commit WriteM poison cerr timer unm fmt k handle turns w :
  let '(r, t, _) := @Consume W Fetch Commit WriteM poison cerr timer unm fmt k (Some handle) turns w in
  ∃ p, accepts k Idle t = Some p ∧ (r = None → p = Idle).
Proof.
  simpl. pose proof (consume_loop_runs Fetch Commit WriteM poison cerr timer unm fmt k handle turns w) as H.
  by destruct (consume_loop _ _ _ _ _ _ _ _ _ _ _ w) as [[r t] w'].
Qed.

(** A scripted environment for the witnesses: the world counts the calls, the
    reader delivers one record after the other, and the handler fails on its
    first call. *)
Definition demo_message (w : nat) : Message := mkMessage "events" 1 (Z.of_nat w) "k" "v" [] 0.
Definition demo_consumer (policy : string) : KafkaConsumer :=
  mkConsumer 3 (50 * Millisecond) policy false true "events".
Definition demo_event : Event := mkEvent "id" "entity" fone 1 0 0.
Definition demo_consume (policy : string) (fails : nat → bool) (turns : nat) :
    option error * list action * nat :=
  Consume (λ w, (S w, Ok (demo_message w))) (λ _ w, (S w, None)) (λ _ w, (S w, None))
    (λ _ _ w, (S w, None)) (λ _, None) (λ _ w, (w, None)) (λ _, Ok demo_event) Itoa
    (demo_consumer policy)
    (Some (λ _ w, (S w, if fails w then Some (Fresh "sink") else None))) turns 0%nat.

(** An offset is committed only for a record that was handled
    successfully or durably dead-lettered since the last fetch: at-least-once
    delivery, no record is skipped. *)
Theorem commit_only_after_settled {W} Fetch Commit WriteM poison cerr timer unm fmt k handle turns w
    r t w' t1 m err t2 :
  @Consume W Fetch Commit WriteM poison cerr timer unm fmt k (Some handle) turns w = (r, t, w') →
  t = t1 ++ ACommit m err :: t2 →
  ∃ t0 a t', t1 = t0 ++ a :: t' ∧ settles m a = true ∧ forallb (negb ∘ is_fetch) t' = true.
Proof.
  intros Hc ->. simpl in Hc.
  pose proof (consume_loop_runs Fetch Commit WriteM poison cerr timer unm fmt k handle turns w) as H.
  rewrite Hc in H. destruct H as (p & Hp & _). by apply commit_settled in Hp.
Qed.

Lemma commit_only_after_settled_witness :
  ∃ t0 a t', take 4 (demo_consume "halt" (Nat.eqb 1) 1).1.2 = t0 ++ a :: t' ∧
    settles (demo_message 0) a = true ∧ forallb (negb ∘ is_fetch) t' = true.
Proof.
  apply (commit_only_after_settled (λ w, (S w, Ok (demo_message w))) (λ _ w, (S w, None))
    (λ _ w, (S w, None)) (λ _ _ w, (S w, None)) (λ _, None) (λ _ w, (w, None)) (λ _, Ok demo_event)
    Itoa (demo_consumer "halt") (λ _ w, (S w, if Nat.eqb 1 w then Some (Fresh "sink") else None))
    1 0%nat None (demo_consume "halt" (Nat.eqb 1) 1).1.2 4%nat _ (demo_message 0) None []);
    vm_compute; reflexivity.
Defined.

(** C26: under the halt policy a record that no attempt can process stops the
    consumer: after exactly [maxAttempts] attempts [Consume] returns a
    [PoisonError] with the record's partition and offset, and commits
    nothing, so the record is delivered again after a restart. *)
Theorem poison_halts {W} Fetch Commit WriteM poison cerr timer unm fmt k handle turns w w0 m :
  0 < maxAttempts k → poisonPolicy k ≠ "dlq" → (0 < turns)%nat →
  Fetch w = (w0, Ok m) →
  (∀ ev w, positioned m ev = true → (handle ev w).2 ≠ None) →
  (∀ d w, (timer d w).2 = None) →
  let '(r, t, _) := @Consume W Fetch Commit WriteM poison cerr timer unm fmt k (Some handle) turns w in
  (∃ last, r = Some (PoisonError (msg_Partition m) (msg_Offset m) last)) ∧
  Z.of_nat (attempts t) = maxAttempts k ∧ forallb (negb ∘ is_commit) t = true.
Proof.
  intros Hmax Hpol Hturns Hfetch Hfail Htimer. simpl. destruct turns as [|turns]; [lia|].
  set (Q := λ (r : option error) t, (∃ last, r = Some (PoisonError (msg_Partition m) (msg_Offset m) last)) ∧
              Z.of_nat (attempts t) = maxAttempts k ∧ forallb (negb ∘ is_commit) t = true).
  assert (emits (process WriteM poison timer unm fmt k handle m) Q) as Hp.
  { apply process_from_fails; [done..|]. intros last t Hn Hf. unfold settle_poison.
    rewrite bool_decide_eq_false_2 by done. apply emits_ret. rewrite app_nil_r. unfold Q.
    split_and!; [eauto|lia|done]. }
  simpl. unfold mbind, prog_bind, consume_turn, fetch.
  destruct (Z.to_nat (maxAttempts k)) as [|todo] eqn:E; [lia|]. simpl.
  unfold mbind, prog_bind, call. rewrite Hfetch. simpl. specialize (Hp w0).
  destruct (process _ _ _ _ _ _ _ _ w0) as [[r t] w1]. simpl in *.
  destruct Hp as ((last & ->) & Hn & Hf). simpl. rewrite !app_nil_r. split_and!; eauto.
Qed.

Lemma poison_halts_witness :
  let '(r, t, _) := demo_consume "halt" (λ _, true) 2 in
  (∃ last, r = Some (PoisonError 1 0 last)) ∧ Z.of_nat (attempts t) = 3 ∧
  forallb (negb ∘ is_commit) t = true.
Proof.
  apply (poison_halts (λ w, (S w, Ok (demo_message w))) (λ _ w, (S w, None))
    (λ _ w, (S w, None)) (λ _ _ w, (S w, None)) (λ _, None) (λ _ w, (w, None)) (λ _, Ok demo_event)
    Itoa (demo_consumer "halt") (λ _ w, (S w, Some (Fresh "sink"))) 2 0%nat 1%nat (demo_message 0));
    try done; simpl; lia.
Defined.

(** C34: the wait before retry [attempt + 1] is [base * 2^(attempt-1)] until
    a doubling would exceed a second, and a second from then on; it is
    positive, at most the larger of the base and a second (so the doubling
    never overflows), and never shrinks when the base is at most a second.
    The maximum backoff of the dead-letter writer is computed the same way;
    with a base above a second it is below the minimum, the base itself. *)
Theorem backoff_closed_form base attempt :
  0 < base → 1 <= attempt →
  backoff_delay base attempt =
    (if (1 <? attempt) && (Second / 2 <=? base * 2 ^ (attempt - 2)) then Second
     else base * 2 ^ (attempt - 1)) ∧
  0 < backoff_delay base attempt <= Z.max base Second ∧
  (base <= Second → backoff_delay base attempt <= backoff_delay base (attempt + 1)) ∧
  boundedBackoff base attempt = backoff_delay base attempt ∧
  (Second < base → 2 <= attempt → boundedBackoff base attempt = Second).
Proof.
  intros Hb Ha. unfold boundedBackoff, backoff_delay.
  assert (∃ n, attempt = Z.of_nat n + 1) as [n ->] by (exists (Z.to_nat (attempt - 1)); lia).
  replace (Z.to_nat (Z.of_nat n + 1 - 1)) with n by lia.
  replace (Z.to_nat (Z.of_nat n + 1 + 1 - 1)) with (S n) by lia.
  rewrite !double_backoff_spec by done.
  replace (Z.of_nat n + 1 - 2) with (Z.of_nat n - 1) by lia.
  replace (Z.of_nat n + 1 - 1) with (Z.of_nat n) by lia.
  replace (Z.of_nat (S n) - 1) with (Z.of_nat n) by lia.
  replace (1 <? Z.of_nat n + 1) with (0 <? Z.of_nat n) by lia.
  rewrite (proj2 (Z.ltb_lt 0 (Z.of_nat (S n)))), andb_true_l, Nat2Z.inj_succ, Z.pow_succ_r by lia.
  assert (1 <= 2 ^ Z.of_nat n) by (pose proof (Z.pow_pos_nonneg 2 (Z.of_nat n)); lia).
  assert (n = 0%nat ∨ 0 < Z.of_nat n ∧ base * 2 ^ Z.of_nat n = 2 * (base * 2 ^ (Z.of_nat n - 1))) as Hn.
  { destruct n; [by left|right]. split; [lia|]. rewrite Z.mul_shuffle3, <- Z.pow_succ_r by lia. do 2 f_equal. lia. }
  replace (base * (2 * 2 ^ Z.of_nat n)) with (2 * (base * 2 ^ Z.of_nat n)) by lia.
  assert (base <= base * 2 ^ Z.of_nat n) as Hge by nia.
  change (Second / 2) with 500000000. unfold Second.
  split_and!; [done| | | |done|].
  all: destruct Hn as [->|[Hpos Hn]]; [simpl; rewrite ?Z.mul_1_r; repeat case_if; bool_to_prop; lia|].
  all: repeat case_if; rewrite ?andb_false_iff in *; bool_to_prop; lia.
Qed.

Lemma backoff_closed_form_witness :
  backoff_delay (50 * Millisecond) 6 = Second ∧ backoff_delay (50 * Millisecond) 3 = 200 * Millisecond.
Proof.
  split;
    [ rewrite (proj1 (backoff_closed_form (50 * Millisecond) 6 eq_refl ltac:(lia)))
    | rewrite (proj1 (backoff_closed_form (50 * Millisecond) 3 eq_refl ltac:(lia)))];
    reflexivity.
Defined.

(** C33: the in-memory consumer returns after at most one turn per queued
    event and one more, and does what the reference [deliver] does: the
    handler sees the events in order, an event leaves the queue only after
    its handler succeeded, and the event that failed and all later ones stay.
    Provided the handler rejects events whose amount is a NaN; one that
    accepts such an event is called with it for ever. *)
Theorem memory_consume_delivers {W} (cerr : W → option error) handle m w :
  MemoryConsumer.closed m = false →
  ((∀ e w, e ∈ MemoryConsumer.events m → IsNaN (Amount e) = true → (handle e w).2 ≠ None) →
   MemoryConsumer.Consume cerr handle (S (length (MemoryConsumer.events m))) m w =
     let '(rest, w', err) := MemoryConsumer.deliver cerr handle (MemoryConsumer.events m) w in
     (MemoryConsumer.mk rest false, w', Some err)) ∧
  (∀ e rest, MemoryConsumer.events m = e :: rest → IsNaN (Amount e) = true →
     (∀ w, cerr w = None ∧ (handle e w).2 = None) →
     ∀ fuel, (MemoryConsumer.Consume cerr handle fuel m w).2 = None).
Proof.
  intros Hc. split; [intros Hnan; apply MemoryConsumer.Consume_deliver; [done..|lia]|].
  intros e rest He Hnan Hok fuel. revert w. induction fuel as [|fuel IH]; intros w; [done|].
  simpl. unfold MemoryConsumer.consume_turn. rewrite Hc, He.
  destruct (Hok w) as [-> Hh]. destruct (handle e w) as [w' herr]. simpl in Hh. subst herr.
  replace (event_eqb e e) with false; [apply IH|].
  unfold event_eqb. destruct (Amount e); try done. by rewrite andb_false_r.
Qed.

Lemma memory_consume_delivers_witness :
  (MemoryConsumer.Consume (λ _, None) (λ e (w : list string), (w ++ [ID e], None)) 3
     (MemoryConsumer.NewMemory [demo_event; demo_event]) []) =
  (MemoryConsumer.mk [] false, ["id"; "id"], Some None).
Proof.
  apply (memory_consume_delivers (λ _, None) (λ e (w : list string), (w ++ [ID e], None))
    (MemoryConsumer.NewMemory [demo_event; demo_event]) [] eq_refl).
  intros e w He. set_unfold in He. destruct He as [->|[->|[]]]; vm_compute; discriminate.
Defined.
