(* ===== verification/StreamProcessorTheorems.v ===== *)
(** * The stream processor as a whole: claims

    The Kafka consumer, the event handler, the aggregator and the sink
    composed as [main] composes them.  The broker is a state [K] of its own;
    the window and the sink are touched by the handler only. *)

From Stdlib Require Import ZArith Lia SpecFloat.
From stdpp Require Import prelude gmap strings list.
From S2P Require Import Prelude GoFloat GoString GoSort GoContext GoEnv Ingestion GoTLS GoRedis Kafka KafkaConfig KafkaInv Window WindowInv WindowSpec WindowReference WindowAmounts Materialize Sinks WindowTheorems SinkTheorems KafkaTheorems Exposition StreamProcessor.

#[local] Open Scope Z_scope.

(** ** The composed program *)

Section process.
Context {K S V : Type} `{HM : Materializer S} {HL : SinkLaws S V}.
(** The context and the instant of a handler call, and what passes of the
    broker's time meanwhile. *)
Context (event_ctx : K → Context) (clock : K → Z) (elapse : K → K).

Definition on_event (ev : Event) (w : K * process S) : (K * process S) * option error :=
  let '(p, err) := handle_event (event_ctx w.1) (clock w.1) ev w.2 in ((elapse w.1, p), err).

(** ** What the process has kept of the records it handled *)

Definition handled_ok (a : action) : bool := match a with AHandle _ _ None => true | _ => false end.
Definition handled_bad (a : action) : bool := match a with AHandle _ _ (Some _) => true | _ => false end.
Definition count_of (f : action → bool) (t : list action) : Z := Z.of_nat (length (List.filter f t)).

(** The events of the handler calls that succeeded, in order. *)
Definition handled_events (t : list action) : list Event :=
  omap (λ a, match a with AHandle _ ev None => Some ev | _ => None end) t.

Lemma elem_of_handled t ev : ev ∈ handled_events t ↔ ∃ m, AHandle m ev None ∈ t.
Proof.
  unfold handled_events. rewrite list_elem_of_omap. split.
  - intros ([| |m x [e|]| | | |] & Hin & E); try done. injection E as ->. eauto.
  - intros [m Hin]. by eexists.
Qed.

(** After the calls [t], with a window of duration [D] for [n] entities. *)
Record tracks (D n : Z) (t : list action) (p : process S) (s : S) : Prop := {
  tracks_sink : sink p = Some s;
  tracks_wf : wf (window p);
  tracks_limits : Duration (window p) = D ∧ maxEntities (window p) = n;
  tracks_window : implements (window p) (reference D n (handled_events t));
  tracks_agrees : agrees (window p) s;
  tracks_unsettled : ∀ e v, (e, v) ∈ unsettled s → ∃ m ev err, AHandle m ev (Some err) ∈ t ∧ EntityID ev = e;
  tracks_counts : events (state p) = wrap64 (count_of handled_ok t) ∧
                  failures (state p) = wrap64 (count_of handled_bad t) ∧
                  attempts (state p) = wrap64 (count_of handled_ok t + count_of handled_bad t);
}.
Definition keeping (D n : Z) (t : list action) (w : K * process S) : Prop := ∃ s, tracks D n t w.2 s.

Lemma count_of_snoc f t a : count_of f (t ++ [a]) = count_of f t + (if f a then 1 else 0).
Proof.
  unfold count_of. rewrite List.filter_app, length_app. simpl. destruct (f a); simpl; lia.
Qed.

Lemma handled_events_snoc t a :
  handled_events (t ++ [a]) = handled_events t ++ (match a with AHandle _ ev None => [ev] | _ => [] end).
Proof. unfold handled_events. rewrite omap_app. simpl. by destruct a as [| |m ev [e|]| | | |]. Qed.

(** Failed calls stay in the trace as it grows. *)
Lemma failed_snoc t a e :
  (∃ m ev err, AHandle m ev (Some err) ∈ t ∧ EntityID ev = e) →
  ∃ m ev err, AHandle m ev (Some err) ∈ t ++ [a] ∧ EntityID ev = e.
Proof. intros (m & ev & err & Hin & He). exists m, ev, err. rewrite elem_of_app. auto. Qed.

(** An action other than a handler call changes nothing that is kept. *)
Lemma tracks_other D n t a p s :
  (∀ m ev err, a ≠ AHandle m ev err) → tracks D n t p s → tracks D n (t ++ [a]) p s.
Proof.
  intros Ha Hk.
  assert (handled_ok a = false ∧ handled_bad a = false ∧ handled_events (t ++ [a]) = handled_events t) as (Hok & Hbad & He).
  { rewrite handled_events_snoc. destruct a as [| |m ev err| | | |]; simpl; rewrite ?app_nil_r; try done. by destruct (Ha m ev err). }
  destruct Hk. split; rewrite ?He; try assumption.
  - intros e v Hin. by eapply failed_snoc, tracks_unsettled0.
  - by rewrite !count_of_snoc, Hok, Hbad, !Z.add_0_r.
Qed.

Lemma materialize_sink ctx now w ev (s : S) w' sk r :
  ApplyAndMaterialize ctx now w ev (Some s) = (w', sk, r) →
  (∃ s', sk = Some s') ∧ (∀ e, r = Err e → w' = w).
Proof.
  intros HA. unfold ApplyAndMaterialize in HA. repeat case_match; simplify_eq; split; eauto; naive_solver.
Qed.

(** The handler keeps the invariant, whatever record it is given. *)
Lemma on_event_keeps D n m ev : keeps_call (keeping D n) (on_event ev) (AHandle m ev).
Proof using HL.
  intros t [κ [w sk st]] (s & Hk). unfold on_event, handle_event. simpl. destruct Hk. cbn [fst snd window sink state] in *. subst sk.
  destruct (ApplyAndMaterialize (event_ctx κ) (clock κ) w ev (Some s)) as [[w' sk'] r] eqn:HA.
  destruct (materialize_sink _ _ _ _ _ _ _ _ HA) as [[s' ->] Herr].
  destruct (materialize_agrees _ _ _ _ _ _ _ _ tracks_wf0 tracks_agrees0 HA) as [Hag' Hun'].
  destruct tracks_counts0 as (He & Hf & Hat). destruct tracks_limits0 as [HD Hn].
  destruct r as [[fs ch]|err]; cbn [fst snd].
  - destruct (materialize_step _ _ _ _ _ _ _ _ _ tracks_wf0 tracks_window0 HA) as (Hstep & HD' & Hn').
    assert (wf w') as Hw'.
    { destruct (Materialize_cases _ _ _ _ _ _ _ _ tracks_wf0 HA) as [[-> _]|(p & Hp & _ & _ & -> & _)]; [done|].
      by apply commit_wf. }
    exists s'. split; cbn [fst snd window sink state]; try assumption; try reflexivity; [by rewrite HD', Hn'| | |].
    + rewrite handled_events_snoc, reference_snoc. by rewrite HD, Hn in Hstep.
    + intros e v [Hin|(g & Hin & _)]%Hun'; [by eapply failed_snoc, tracks_unsettled0|]. by apply not_elem_of_nil in Hin.
    + rewrite !count_of_snoc, He, Hf, Hat, !wrap64_add_l. simpl. rewrite !Z.add_0_r.
      split_and!; [done..|]. f_equal. lia.
  - rewrite (Herr err eq_refl) in *. exists s'. split; cbn [fst snd window sink state]; try assumption; try reflexivity; [done| | |].
    + by rewrite handled_events_snoc, app_nil_r.
    + intros e v [Hin|(g & _ & -> & _)]%Hun'; [by eapply failed_snoc, tracks_unsettled0|].
      exists m, ev, err. rewrite elem_of_app, list_elem_of_singleton. by split; [right|].
    + rewrite !count_of_snoc, He, Hf, Hat, !wrap64_add_l. simpl. rewrite !Z.add_0_r. by rewrite Z.add_assoc.
Qed.
End process.

(** ** The composition *)

Section pipeline.
Context {K S V : Type} `{HM : Materializer S} {HL : SinkLaws S V}.
Context (FetchMessage : K → K * result Message).
Context (CommitMessages WriteMessages : Message → K → K * option error).
Context (ctx_Err : K → option error) (timer_or_done : Z → K → K * option error).
Context (unmarshal : string → result Event) (format_time : Z → string).
Context (event_ctx : K → Context) (clock : K → Z) (elapse : K → K).

(** A call that leaves the process alone. *)
Definition aside {A} (f : K → K * A) (w : K * process S) : (K * process S) * A :=
  let '(κ, a) := f w.1 in ((κ, w.2), a).

(** [consumer.Consume(ctx, ...)] of [main], for so many turns of its loop. *)
Definition pipeline (k : KafkaConsumer) (turns : nat) (w : K * process S) :
    option error * list action * (K * process S) :=
  Consume (aside FetchMessage) (λ m, aside (CommitMessages m)) (λ m, aside (WriteMessages m))
    (λ _ _ w, (w, None)) (λ w, ctx_Err w.1) (λ d, aside (timer_or_done d)) unmarshal format_time k
    (Some (on_event event_ctx clock elapse)) turns w.

Lemma aside_keeps {A} D n (f : K → K * A) (act : A → action) :
  (∀ a m ev err, act a ≠ AHandle m ev err) → keeps_call (keeping (S := S) D n) (aside f) act.
Proof.
  intros Ha t w (s & Hk). unfold aside. destruct (f w.1) as [κ a]. simpl. exists s. by apply tracks_other.
Qed.

Lemma pipeline_keeps D n k turns w t0 :
  keeping D n t0 w → keeping D n (t0 ++ (pipeline k turns w).1.2) (pipeline k turns w).2.
Proof using HL.
  apply Consume_keeps; try (intros; apply aside_keeps; done).
  - intros m last t0' w' (s & Hk). exists s. by apply tracks_other.
  - intros m e t0' w' (s & Hk). exists s. by apply tracks_other.
  - intros m ev _. apply on_event_keeps.
Qed.

(** The process as [main] starts it. *)
Definition fresh (d n k : Z) (s : S) : process S := mkProcess (NewWithLimits d n k) (Some s) (mkState true 0 0 0 0 fzero).

Lemma fresh_keeping (κ : K) d n k s :
  unsettled s = [] →
  keeping (Duration (NewWithLimits d n k)) (maxEntities (NewWithLimits d n k)) [] (κ, fresh d n k s).
Proof.
  intros Hs. exists s. split; try reflexivity.
  - apply NewWithLimits_wf.
  - done.
  - apply new_implements.
  - apply new_agrees.
  - rewrite Hs. by intros ? ? ?%not_elem_of_nil.
  - done.
Qed.

(** The handler is only given decoded records, at their own position. *)
Definition decoded (t : list action) (_ : K * process S) : Prop :=
  ∀ m ev err, AHandle m ev err ∈ t → ∃ ev0, unmarshal (msg_Value m) = Ok ev0 ∧ ev = event_at m ev0.

Lemma decoded_snoc t a w w' :
  decoded t w → (∀ m ev err, a = AHandle m ev err → ∃ ev0, unmarshal (msg_Value m) = Ok ev0 ∧ ev = event_at m ev0) →
  decoded (t ++ [a]) w'.
Proof.
  intros Ht Ha m ev err. rewrite elem_of_app, list_elem_of_singleton. intros [Hin|<-]; [by eapply Ht|by eapply Ha].
Qed.

Lemma pipeline_decoded k turns w : decoded (pipeline k turns w).1.2 (pipeline k turns w).2.
Proof.
  change (decoded ([] ++ (pipeline k turns w).1.2) (pipeline k turns w).2).
  apply (Consume_keeps decoded); try (intros; intros t w' Hd; by eapply decoded_snoc).
  - intros m e t w' Hd. by eapply decoded_snoc.
  - intros m ev Hu t w' Hd. eapply decoded_snoc; [done|]. intros m' ev' err [= <- <- _]. eauto.
  - intros m ev err Hin. by apply not_elem_of_nil in Hin.
Qed.

(** Without dead letters, a settled record was handled. *)
Lemma halt_settled k p t q m a :
  poisonPolicy k = "halt" → accepts k p t = Some q → a ∈ t → settles m a = true →
  ∃ ev, a = AHandle m ev None.
Proof.
  intros Hk. revert p. induction t as [|b t IH]; intros p Ht Ha Hs; [by apply not_elem_of_nil in Ha|].
  simpl in Ht. destruct (accept1 k p b) as [p'|] eqn:Hb; [|done].
  apply elem_of_cons in Ha as [->|Ha]; [|by eapply IH].
  assert (∀ n, may_dlq k n = false) as Hd.
  { intros n. unfold may_dlq. rewrite Hk, bool_decide_eq_false_2 by done. apply andb_false_r. }
  destruct b as [| |m' ev [?|]|m' ? [?|]|m' ? [?|]| |]; try done; simpl in Hs; bool_to_prop; subst.
  - eauto.
  - destruct p; simpl in Hb; try done. by rewrite Hd, andb_false_r in Hb.
  - destruct p; simpl in Hb; try done. by rewrite Hd, andb_false_r in Hb.
Qed.

Lemma committed_handled k turns w m err :
  poisonPolicy k = "halt" → ACommit m err ∈ (pipeline k turns w).1.2 →
  ∃ ev, unmarshal (msg_Value m) = Ok ev ∧ AHandle m (event_at m ev) None ∈ (pipeline k turns w).1.2.
Proof.
  intros Hk Hin. pose proof (pipeline_decoded k turns w) as Hdec.
  destruct (consume_loop_runs (aside FetchMessage) (λ m, aside (CommitMessages m)) (λ m, aside (WriteMessages m))
    (λ _ _ w, (w, None)) (λ w, ctx_Err w.1) (λ d, aside (timer_or_done d)) unmarshal format_time k
    (on_event event_ctx clock elapse) turns w) as (p & Hrun & _).
  change (accepts k Idle (pipeline k turns w).1.2 = Some p) in Hrun.
  apply list_elem_of_split in Hin as (t1 & t2 & E). rewrite E in Hrun.
  destruct (commit_settled _ _ _ _ _ _ Hrun) as (t0 & a & t' & E1 & Ha & _).
  assert (a ∈ (pipeline k turns w).1.2) as Hain.
  { rewrite E, E1, !elem_of_app, elem_of_cons. tauto. }
  rewrite <- E in Hrun. destruct (halt_settled _ _ _ _ _ _ Hk Hrun Hain Ha) as [ev ->].
  destruct (Hdec _ _ _ Hain) as (ev0 & Hu & ->). eauto.
Qed.
End pipeline.

(** ** Claims *)

(** C2: no committed record is lost.  Whatever the broker, the sink and the
    clock do, under the halt policy, at any point of a run of the stream
    processor that started empty, on a sink without unsettled writes, the
    aggregator is exactly what the reference aggregator makes of the
    successfully handled records in their order: its
    windows and watermarks are those recomputed from the reference's events,
    and its partition offsets are the reference's.  Every record whose commit
    was ever attempted was decoded and is one of those handled records.  And
    for every entity with live events the sink, under the contract [SinkLaws],
    reads as the features of the recomputed window, or as a write of a handler
    call for that entity that failed and that the sink has as unsettled. *)
Theorem committed_never_lost {K S V} `{HM : Materializer S} {HL : SinkLaws S V} Fetch Commit WriteM cerr timer unm fmt
    ectx clk elapse k turns (κ κ' : K) d n c (s0 : S) p r t :
  poisonPolicy k = "halt" → unsettled s0 = [] →
  pipeline Fetch Commit WriteM cerr timer unm fmt ectx clk elapse k turns (κ, fresh d n c s0) = (r, t, (κ', p)) →
  let D := Duration (NewWithLimits d n c) in
  let spec := reference D (maxEntities (NewWithLimits d n c)) (handled_events t) in
  Duration (window p) = D ∧ represents (kept spec) (window p) ∧ offsets (window p) = reached spec ∧
  (∀ m err, ACommit m err ∈ t → ∃ ev, unm (msg_Value m) = Ok ev ∧
     AHandle m (event_at m ev) None ∈ t ∧ event_at m ev ∈ handled_events t) ∧
  ∃ s, sink p = Some s ∧
    ∀ e, let evs := spec_window D (kept spec) e in
      evs ≠ [] →
      view s e = Some (project (features_of e (spec_watermark (kept spec) e) evs)) ∨
      ∃ m ev err v, AHandle m ev (Some err) ∈ t ∧ EntityID ev = e ∧ (e, v) ∈ unsettled s ∧ view s e = Some v.
Proof.
  intros Hk Hs0 E D spec.
  pose proof (pipeline_keeps Fetch Commit WriteM cerr timer unm fmt ectx clk elapse D (maxEntities (NewWithLimits d n c))
                k turns _ [] (fresh_keeping κ d n c s0 Hs0)) as (s & Htr).
  pose proof (committed_handled Fetch Commit WriteM cerr timer unm fmt ectx clk elapse k turns (κ, fresh d n c s0)) as Hc.
  rewrite E in Htr, Hc. simpl in Htr, Hc. destruct Htr. destruct tracks_limits0 as [HD _]. destruct tracks_window0 as [Hrep Hoff].
  fold spec in Hrep, Hoff. split_and!; [done..| |].
  - intros m err Hin. destruct (Hc m err Hk Hin) as (ev & Hu & Hh). exists ev. split_and!; [done..|].
    apply elem_of_handled. eauto.
  - exists s. split; [done|]. intros e evs Hne.
    destruct (represents_of (kept spec) (window p) e Hrep) as [He Hwm]. rewrite HD in He. unfold evs. rewrite <- He, <- Hwm.
    destruct (tracks_agrees0 e) as [?|(v & Hin & Hv)]; [by rewrite He|by left|right].
    destruct (tracks_unsettled0 e v Hin) as (m & ev & err & ? & ?). by exists m, ev, err, v.
Qed.

(** One record, handled and committed, with the in-memory sink. *)
Definition demo_record : Message := mkMessage "events" 0 1 "a" "json" [] 0.
Definition demo_run (turns : nat) : option error * list action * (nat * process MemoryMaterializer.t) :=
  pipeline (λ κ : nat, (S κ, Ok demo_record)) (λ _ κ, (κ, None)) (λ _ κ, (κ, None)) (λ _, None)
    (λ _ κ, (κ, None)) (λ _, Ok (WindowTheorems.demo_event "e1" "a" 10 0 0 1)) (λ _, "")
    (λ _, Background) (λ _, 0) (λ κ, κ) (mkConsumer 3 Second "halt" false false "events") turns
    (0%nat, fresh (60 * Second) 2 3 MemoryMaterializer.NewMemoryMaterializer).

Lemma committed_never_lost_witness :
  represents (kept (reference (60 * Second) 2 (handled_events (demo_run 1).1.2))) (window (demo_run 1).2.2) ∧
  event_at demo_record (WindowTheorems.demo_event "e1" "a" 10 0 0 1) ∈ handled_events (demo_run 1).1.2.
Proof.
  destruct (demo_run 1) as [[r t] [κ' p]] eqn:E.
  assert (poisonPolicy (mkConsumer 3 Second "halt" false false "events") = "halt") as Hk by reflexivity.
  destruct (committed_never_lost (HL := memory_sink_laws) _ _ _ _ _ _ _ _ _ _ _ _ _ _ _ _ _ _ _ _ _ Hk eq_refl E)
    as (_ & Hrep & _ & Hc & _).
  assert (ACommit demo_record None ∈ t) as Hin.
  { apply (f_equal (λ x, x.1.2)) in E. vm_compute in E. rewrite <- E. by_elem. }
  destruct (Hc _ _ Hin) as (ev & [= <-] & _ & H). split; [exact Hrep|exact H].
Defined.

(** A scraper reads the samples of the stream processor's page back. *)
Lemma stream_metrics_scraped `{FloatTextLaws} st : scrape (stream_metrics st) = Some (stream_samples st).
Proof. apply scrape_page. unfold stream_samples. clean_samples. Qed.
