(* ===== verification/Scheduler.v ===== *)
(** * Package [scheduler]: deadline-aware continuous batching

    [serving_plane/scheduler/scheduler.go].  The scheduler is one runner
    goroutine ([run]) and one goroutine per caller of [Submit], which share
    the queue channel, the items and the flags.  The model is a labelled
    transition system: a state holds the shared data and where every
    goroutine is, and [step] makes one goroutine perform its next atomic
    action (a channel operation, a compare-and-swap, a timer or context
    firing) or lets time pass.  Every interleaving is a sequence of labels.

    An item is named by its index in [items]; items are never removed, so
    that theorems can speak about callers that have already returned. *)

From Stdlib Require Import ZArith Lia.
From stdpp Require Import prelude strings list.
From S2P Require Import Prelude GoContext.

#[local] Open Scope Z_scope.

Definition ErrClosed : error := Sentinel "scheduler is closed".
Definition ErrFull : error := Sentinel "scheduler queue is full".
Definition ErrQueueDelay : error := Sentinel "scheduler queue delay exceeded".

(** ** Metrics *)

Record Metrics := mkMetrics {
  QueueCount : Z;
  QueueNanos : Z;
  QueueBuckets : list Z;
  BatchCount : Z;
  BatchItems : Z;
  BatchBuckets : list Z;
}.

Definition no_metrics : Metrics := mkMetrics 0 0 [0; 0; 0; 0; 0] 0 0 [0; 0; 0; 0; 0; 0].

Definition queueBounds : list Z := [100 * Microsecond; 500 * Microsecond; Millisecond; 2 * Millisecond].
Definition batchBounds : list Z := [1; 4; 8; 16; 32].

(** The loop over the bounds: the bucket of every bound that is not exceeded
    is incremented, and the last bucket always. *)
Fixpoint add_buckets (bounds buckets : list Z) (x : Z) : list Z :=
  match bounds, buckets with
  | b :: bounds, n :: buckets =>
      (if x <=? b then wrap64 (n + 1) else n) :: add_buckets bounds buckets x
  | [], n :: rest => wrap64 (n + 1) :: rest
  | _, [] => []
  end.

Definition observeQueue (duration : Z) (m : Metrics) : Metrics :=
  let duration := if duration <? 0 then 0 else duration in
  mkMetrics (wrap64 (QueueCount m + 1)) (wrap64 (QueueNanos m + duration))
    (add_buckets queueBounds (QueueBuckets m) duration)
    (BatchCount m) (BatchItems m) (BatchBuckets m).

Definition observeBatch (size : Z) (m : Metrics) : Metrics :=
  mkMetrics (QueueCount m) (QueueNanos m) (QueueBuckets m)
    (wrap64 (BatchCount m + 1)) (wrap64 (BatchItems m + size))
    (add_buckets batchBounds (BatchBuckets m) size).

(** How long the runner may still collect when the earliest expiry of the
    batch is [deadline]. *)
Definition collectionWait (maxDelay deadline now : Z) : Z :=
  let wait := Until deadline now in
  let guard := Z.quot maxDelay 2 in
  let guard := if guard <? 50 * Microsecond then 50 * Microsecond else guard in
  let wait := if wait >? guard then wait - guard else wait in
  if wait <? 0 then 0 else wait.

Inductive item_state := stateQueued | stateDispatched | stateExpired.

#[global] Instance item_state_eq_dec : EqDecision item_state.
Proof. solve_decision. Defined.

Section scheduler.
Context {T R : Type}.

(** Where the goroutine that called [Submit] is: in its select loop, in
    [waitForResult], or back with a result. *)
Inductive caller := Selecting | Awaiting | Returned (r : result R).

Record item := mkItem {
  ctx : Context;
  value : T;
  reply : option (result R);     (* the channel of capacity one *)
  dispatched : bool;             (* the channel has been closed *)
  queueExpiry : Z;
  state : item_state;
  submitter : caller;
}.

Definition set_reply (r : option (result R)) (it : item) : item :=
  mkItem (ctx it) (value it) r (dispatched it) (queueExpiry it) (state it) (submitter it).
Definition set_state (st : item_state) (it : item) : item :=
  mkItem (ctx it) (value it) (reply it) (dispatched it) (queueExpiry it) st (submitter it).
Definition set_submitter (c : caller) (it : item) : item :=
  mkItem (ctx it) (value it) (reply it) (dispatched it) (queueExpiry it) (state it) c.
(** [CompareAndSwap(stateQueued, stateDispatched)] and [close(it.dispatched)]. *)
Definition set_dispatched (it : item) : item :=
  mkItem (ctx it) (value it) (reply it) true (queueExpiry it) stateDispatched (submitter it).

(** Where the runner is.  [queueOpen] is false once it found the queue
    closed, and makes it return after the batch. *)
Inductive runner :=
| NextQueued
| Collecting (batch : list nat) (deadline timer : Z)
| Dispatching (todo : list nat) (now : Z) (active : list nat) (queueOpen : bool)
| Rejecting (i : nat) (err : error) (todo : list nat) (now : Z) (active : list nat) (queueOpen : bool)
| Handling (active : list nat) (batchCtx : Context) (queueOpen : bool)
| Replying (todo : list (nat * result R)) (queueOpen : bool)
| Stopped.

(** A call of the handler that has returned: the items of the batch, in the
    order of the values passed, and what it returned. *)
Definition invocation : Type := list nat * result (list R).

Record sched := mkSched {
  maxQueue : Z;
  maxBatch : Z;
  maxDelay : Z;
  items : list item;
  queue : list nat;
  closed : bool;                 (* [s.closed], set together with [close(s.queue)] *)
  done : bool;                   (* [s.done] has been closed *)
  run : runner;
  clock : Z;
  metrics : Metrics;
  invoked : list invocation;     (* history of handler calls, not part of the program *)
}.

Definition with_items (s : sched) its := mkSched (maxQueue s) (maxBatch s) (maxDelay s) its
  (queue s) (closed s) (done s) (run s) (clock s) (metrics s) (invoked s).
Definition with_queue (s : sched) q := mkSched (maxQueue s) (maxBatch s) (maxDelay s) (items s)
  q (closed s) (done s) (run s) (clock s) (metrics s) (invoked s).
Definition with_run (s : sched) r := mkSched (maxQueue s) (maxBatch s) (maxDelay s) (items s)
  (queue s) (closed s) (done s) r (clock s) (metrics s) (invoked s).
Definition with_metrics (s : sched) m := mkSched (maxQueue s) (maxBatch s) (maxDelay s) (items s)
  (queue s) (closed s) (done s) (run s) (clock s) m (invoked s).

Definition New (maxQueue maxBatch maxDelay : Z) (has_handler : bool) (now : Z) : result sched :=
  if (maxQueue <? 1) || (maxBatch <? 1) || (maxDelay <=? 0) || negb has_handler
  then Err (Fresh "invalid scheduler configuration")
  else Ok (mkSched maxQueue maxBatch maxDelay [] [] false false NextQueued now no_metrics []).

(** The admission part of [Submit]; [created] is the instant at which
    [queueExpiry] was computed, before the lock was taken. *)
Definition enqueue (c : Context) (v : T) (created : Z) (s : sched) : sched * option error :=
  match ctx_err c created with
  | Some err => (s, Some err)
  | None =>
      let it := mkItem c v None false (created + maxDelay s) stateQueued Selecting in
      if closed s then (s, Some ErrClosed)
      else if Z.of_nat (length (queue s)) <? maxQueue s
      then (mkSched (maxQueue s) (maxBatch s) (maxDelay s) (items s ++ [it])
              (queue s ++ [length (items s)]) (closed s) (done s) (run s) (clock s)
              (metrics s) (invoked s), None)
      else (s, Some ErrFull)
  end.

Definition Close (s : sched) : sched :=
  if closed s then s
  else mkSched (maxQueue s) (maxBatch s) (maxDelay s) (items s) (queue s) true (done s)
         (run s) (clock s) (metrics s) (invoked s).

(** *** The select of [Submit]: one definition per case, [None] when the
    case is not ready or the caller is not in this select. *)

(** [it.state.CompareAndSwap(stateQueued, stateExpired)] *)
Definition cas_expired (it : item) : item * bool :=
  match state it with
  | stateQueued => (set_state stateExpired it, true)
  | _ => (it, false)
  end.

(** [case result := <-it.reply], in both selects. *)
Definition on_reply (it : item) : option item :=
  match submitter it, reply it with
  | Returned _, _ | _, None => None
  | _, Some r => Some (set_submitter (Returned r) (set_reply None it))
  end.

Definition on_dispatched (it : item) : option item :=
  match submitter it with
  | Selecting => if dispatched it then Some (set_submitter Awaiting it) else None
  | _ => None
  end.

Definition on_timer (now : Z) (it : item) : option item :=
  match submitter it with
  | Selecting =>
      if queueExpiry it <=? now then
        let '(it', swapped) := cas_expired it in
        Some (set_submitter (if swapped then Returned (Err ErrQueueDelay) else Awaiting) it')
      else None
  | _ => None
  end.

Definition on_ctx_done (now : Z) (it : item) : option item :=
  match ctx_err (ctx it) now with
  | None => None
  | Some err =>
      match submitter it with
      | Selecting => Some (set_submitter (Returned (Err err)) (cas_expired it).1)
      | Awaiting => Some (set_submitter (Returned (Err err)) it)
      | Returned _ => None
      end
  end.

Definition on_done (closed_done : bool) (it : item) : option item :=
  match submitter it with
  | Selecting =>
      if closed_done then
        Some match reply it with
             | Some r => set_submitter (Returned r) (set_reply None it)
             | None => set_submitter (Returned (Err ErrClosed)) it
             end
      else None
  | _ => None
  end.

(** *** The runner *)

(** [return] of [run] with its deferred [close(s.done)], or the next turn. *)
Definition turn_end (queueOpen : bool) (s : sched) : sched :=
  if queueOpen then with_run s NextQueued
  else mkSched (maxQueue s) (maxBatch s) (maxDelay s) (items s) (queue s) (closed s) true
         Stopped (clock s) (metrics s) (invoked s).

(** The start of [dispatch]: [now := time.Now()], nothing active yet. *)
Definition dispatch (batch : list nat) (queueOpen : bool) (s : sched) : sched :=
  with_run s (Dispatching batch (clock s) [] queueOpen).

(** [nextQueued]: skip the items that are not queued any more; [run] returns
    when the queue is closed and empty. *)
Definition nextQueued (s : sched) : option sched :=
  match queue s with
  | i :: q =>
      it ← items s !! i;
      let s := with_queue s q in
      if decide (state it = stateQueued)
      then Some (with_run s (Collecting [i] (queueExpiry it)
             (clock s + collectionWait (maxDelay s) (queueExpiry it) (clock s))))
      else Some s
  | [] => if closed s then Some (turn_end false s) else None
  end.

(** The receiving case of the collect loop. *)
Definition collect (batch : list nat) (deadline timer : Z) (s : sched) : option sched :=
  if Z.of_nat (length batch) <? maxBatch s then
    match queue s with
    | i :: q =>
        it ← items s !! i;
        let s := with_queue s q in
        if decide (state it = stateQueued) then
          let batch := batch ++ [i] in
          if queueExpiry it <? deadline
          then Some (with_run s (Collecting batch (queueExpiry it)
                 (clock s + collectionWait (maxDelay s) (queueExpiry it) (clock s))))
          else Some (with_run s (Collecting batch deadline timer))
        else Some s
    | [] => if closed s then Some (dispatch batch false s) else None
    end
  else None.

(** The runner receives from the queue. *)
Definition run_receive (s : sched) : option sched :=
  match run s with
  | NextQueued => nextQueued s
  | Collecting batch deadline timer => collect batch deadline timer s
  | _ => None
  end.

(** The collect loop ends on a full batch or on its timer. *)
Definition run_collected (s : sched) : option sched :=
  match run s with
  | Collecting batch _ timer =>
      if (maxBatch s <=? Z.of_nat (length batch)) || (timer <=? clock s)
      then Some (dispatch batch true s) else None
  | _ => None
  end.

(** One turn of the first loop of [dispatch]. *)
Definition run_admit_item (s : sched) : option sched :=
  match run s with
  | Dispatching (i :: todo) now active open =>
      it ← items s !! i;
      let reject err :=
        let '(it', swapped) := cas_expired it in
        with_run (with_items s (<[i := it']> (items s)))
          (if swapped then Rejecting i err todo now active open else Dispatching todo now active open) in
      match ctx_err (ctx it) (clock s) with
      | Some err => Some (reject err)
      | None =>
          if queueExpiry it <=? now then Some (reject ErrQueueDelay)
          else if decide (state it = stateQueued) then
            Some (with_metrics (with_run (with_items s (<[i := set_dispatched it]> (items s)))
                                  (Dispatching todo now (active ++ [i]) open))
                    (observeQueue (now - (queueExpiry it + - maxDelay s)) (metrics s)))
          else Some (with_run s (Dispatching todo now active open))
      end
  | _ => None
  end.

(** A send on the reply channel: [None] if it would block. *)
Definition send (i : nat) (r : result R) (s : sched) : option sched :=
  it ← items s !! i;
  match reply it with
  | None => Some (with_items s (<[i := set_reply (Some r) it]> (items s)))
  | Some _ => None
  end.

Definition run_reject (s : sched) : option sched :=
  match run s with
  | Rejecting i err todo now active open =>
      s ← send i (Err err) s; Some (with_run s (Dispatching todo now active open))
  | _ => None
  end.

(** The context of the batch: the latest deadline, if every caller has one. *)
Definition latest_deadline (ctxs : list Context) : Z :=
  foldl (λ latest c, match ctx_deadline c with
                     | Some d => if d >? latest then d else latest
                     | None => latest end) 0 ctxs.
Definition batch_context (ctxs : list Context) : Context :=
  let batchCtx := WithoutCancel (hd Background ctxs) in
  let hasUnboundedCaller := existsb (λ c, match ctx_deadline c with None => true | _ => false end) ctxs in
  let latest := latest_deadline ctxs in
  if negb hasUnboundedCaller && negb (latest =? 0) then WithDeadline batchCtx latest else batchCtx.

Definition contexts_of (s : sched) (l : list nat) : list Context :=
  omap (λ i, ctx <$> items s !! i) l.
(** The values the handler is called with. *)
Definition values_of (s : sched) (l : list nat) : list T := omap (λ i, value <$> items s !! i) l.

(** After the loop: nothing to do, or the handler is called. *)
Definition run_invoke (s : sched) : option sched :=
  match run s with
  | Dispatching [] now active open =>
      if decide (active = []) then Some (turn_end open s)
      else Some (with_run (with_metrics s (observeBatch (Z.of_nat (length active)) (metrics s)))
                   (Handling active (batch_context (contexts_of s active)) open))
  | _ => None
  end.

(** The outcome of each item of a batch of [n], from what the handler returned. *)
Definition outcomes (n : nat) (res : result (list R)) : list (result R) :=
  match res with
  | Err err => replicate n (Err err)
  | Ok rs => if decide (length rs = n) then Ok <$> rs
             else replicate n (Err (Fresh "batch handler returned incorrect result count"))
  end.

Definition run_handled (res : result (list R)) (s : sched) : option sched :=
  match run s with
  | Handling active _ open =>
      Some (mkSched (maxQueue s) (maxBatch s) (maxDelay s) (items s) (queue s) (closed s) (done s)
              (Replying (combine active (outcomes (length active) res)) open) (clock s) (metrics s)
              (invoked s ++ [(active, res)]))
  | _ => None
  end.

(** One turn of the reply loop, or its end. *)
Definition run_reply (s : sched) : option sched :=
  match run s with
  | Replying ((i, r) :: todo) open =>
      it ← items s !! i;
      let r := match ctx_err (ctx it) (clock s) with Some err => Err err | None => r end in
      s ← send i r s; Some (with_run s (Replying todo open))
  | Replying [] open => Some (turn_end open s)
  | _ => None
  end.

(** *** Labels and steps *)

Inductive label :=
| LTick (d : Z)
| LSubmit (c : Context) (v : T) (created : Z)
| LClose
| LReply (i : nat) | LDispatched (i : nat) | LTimer (i : nat) | LCtx (i : nat) | LDone (i : nat)
| LReceive | LCollected | LAdmitItem | LReject | LInvoke | LHandled (res : result (list R)) | LRunReply.

Definition at_item (s : sched) (i : nat) (f : item → option item) : option sched :=
  it ← items s !! i; it' ← f it; Some (with_items s (<[i := it']> (items s))).

Definition step (l : label) (s : sched) : option sched :=
  match l with
  | LTick d =>
      if 0 <=? d then
        Some (mkSched (maxQueue s) (maxBatch s) (maxDelay s) (items s) (queue s) (closed s) (done s)
                (run s) (clock s + d) (metrics s) (invoked s))
      else None
  | LSubmit c v created => if created <=? clock s then Some (enqueue c v created s).1 else None
  | LClose => Some (Close s)
  | LReply i => at_item s i on_reply
  | LDispatched i => at_item s i on_dispatched
  | LTimer i => at_item s i (on_timer (clock s))
  | LCtx i => at_item s i (on_ctx_done (clock s))
  | LDone i => at_item s i (on_done (done s))
  | LReceive => run_receive s
  | LCollected => run_collected s
  | LAdmitItem => run_admit_item s
  | LReject => run_reject s
  | LInvoke => run_invoke s
  | LHandled res => run_handled res s
  | LRunReply => run_reply s
  end.

Fixpoint steps (ls : list label) (s : sched) : option sched :=
  match ls with
  | [] => Some s
  | l :: ls => s' ← step l s; steps ls s'
  end.
End scheduler.
Arguments item : clear implicits.
Arguments sched : clear implicits.
Arguments label : clear implicits.
Arguments runner : clear implicits.
Arguments caller : clear implicits.
