(* ===== verification/SchedulerInv.v ===== *)
(** * The invariant of the scheduler

    Every reachable state of [Scheduler.v], whatever the interleaving of the
    callers, the runner, the clock and [Close], satisfies [inv]: each item is
    in at most one place of the pipeline, its state word agrees with that
    place, its reply channel is empty whenever the runner is about to send on
    it, and every value delivered was produced for that item by a handler
    call. *)

From Stdlib Require Import ZArith Lia.
From stdpp Require Import prelude strings list.
From S2P Require Import Prelude GoContext Scheduler.

#[local] Open Scope Z_scope.

Section inv.
Context {T R : Type}.
Implicit Types (s : sched T R) (it : item T R) (r : runner R).

(** ** Places of the pipeline *)

(** Taken from the queue and not decided by [dispatch] yet. *)
Definition batched r : list nat :=
  match r with
  | Collecting b _ _ | Dispatching b _ _ _ | Rejecting _ _ b _ _ _ => b
  | _ => []
  end.
(** Dispatched and not replied to. *)
Definition active r : list nat :=
  match r with
  | Dispatching _ _ a _ | Rejecting _ _ _ _ a _ | Handling a _ _ => a
  | Replying todo _ => todo.*1
  | _ => []
  end.
(** Marked expired by the runner, which is about to send the error. *)
Definition rejecting r : list nat :=
  match r with Rejecting i _ _ _ _ _ => [i] | _ => [] end.
Definition queue_open r : bool :=
  match r with
  | Dispatching _ _ _ o | Rejecting _ _ _ _ _ o | Handling _ _ o | Replying _ o => o
  | Stopped => false
  | _ => true
  end.

Definition pending s : list nat := queue s ++ batched (run s).
Definition held s : list nat := batched (run s) ++ active (run s) ++ rejecting (run s).
Definition places s : list nat := queue s ++ held s.

(** ** Items *)

Definition replied it : Prop :=
  reply it ≠ None ∨ ∃ x, submitter it = Returned x.

(** What the state word of an item says, given whether it is pending,
    active or being rejected. *)
Definition item_ok (P A J : Prop) it : Prop :=
  match state it with
  | stateQueued => P ∧ reply it = None ∧ dispatched it = false ∧ submitter it = Selecting
  | stateDispatched =>
      dispatched it = true ∧ ¬ P ∧ ¬ J ∧ (A → reply it = None) ∧ (A ∨ replied it)
  | stateExpired => dispatched it = false ∧ ¬ A ∧ (J → reply it = None) ∧ (J ∨ replied it)
  end.

(** ** History *)

(** The items passed to a handler call, or about to be. *)
Definition being_dispatched r : list nat :=
  match r with
  | Dispatching _ _ a _ | Rejecting _ _ _ _ a _ | Handling a _ _ => a
  | _ => []
  end.
Definition history s : list nat := concat ((invoked s).*1) ++ being_dispatched (run s).

(** [v] is what a handler call returned for item [i]. *)
Definition produced (h : list (invocation (R := R))) (i : nat) (v : R) : Prop :=
  ∃ act rs j, (act, Ok rs) ∈ h ∧ act !! j = Some i ∧ rs !! j = Some v ∧ length rs = length act.

Definition holds_value it (v : R) : Prop :=
  reply it = Some (Ok v) ∨ submitter it = Returned (Ok v).

Record inv s : Prop := mkInv {
  inv_params : 1 <= maxQueue s ∧ 1 <= maxBatch s ∧ 0 < maxDelay s;
  inv_queue : Z.of_nat (length (queue s)) <= maxQueue s;
  inv_batch : Z.of_nat (length (held s)) <= maxBatch s;
  inv_nodup : NoDup (places s);
  inv_bound : ∀ i, i ∈ places s → (i < length (items s))%nat;
  inv_open : queue_open (run s) = false → closed s = true ∧ queue s = [];
  inv_done : done s = true ↔ run s = Stopped;
  inv_nonempty : match run s with Handling a _ _ => a ≠ [] | _ => True end;
  inv_items : ∀ i it, items s !! i = Some it →
    item_ok (i ∈ pending s) (i ∈ active (run s)) (i ∈ rejecting (run s)) it;
  inv_hist_nodup : NoDup (history s);
  inv_hist_bound : ∀ i, i ∈ history s → (i < length (items s))%nat;
  inv_hist : ∀ i it, items s !! i = Some it → (i ∈ history s ↔ state it = stateDispatched);
  inv_values : ∀ i it v, items s !! i = Some it → holds_value it v → produced (invoked s) i v;
  inv_todo : ∀ i v, match run s with
                    | Replying todo _ => (i, Ok v) ∈ todo → produced (invoked s) i v
                    | _ => True end;
}.

Inductive reachable : sched T R → Prop :=
| reach_new q b d now s : New q b d true now = Ok s → reachable s
| reach_step l s s' : reachable s → step l s = Some s' → reachable s'.

Lemma New_inv q b d now s : New q b d true now = Ok s → inv s.
Proof.
  unfold New. case_if; [done|]. bool_to_prop. intros [= <-].
  split; simpl; try done; try lia; try (intros; set_solver); try apply NoDup_nil_2; try constructor.
Qed.

(** ** Callers *)

Lemma places_disjoint s i :
  NoDup (places s) → i ∈ pending s → (i ∉ active (run s)) ∧ (i ∉ rejecting (run s)).
Proof.
  unfold places, pending, held. rewrite app_assoc. intros (_ & Hd & _)%NoDup_app Hp.
  specialize (Hd i Hp). rewrite elem_of_app in Hd. tauto.
Qed.

(** A caller's action changes one item and no place. *)
Lemma at_item_inv s s' i f :
  inv s → at_item s i f = Some s' →
  (∀ it it' P A J, (P → ¬ A ∧ ¬ J) → f it = Some it' → item_ok P A J it →
     item_ok P A J it' ∧ (state it' = stateDispatched ↔ state it = stateDispatched) ∧
     (∀ v, holds_value it' v → holds_value it v)) →
  inv s'.
Proof.
  intros [] Hf H. unfold at_item in Hf.
  destruct (items s !! i) as [it|] eqn:Hi; [|done]. simpl in Hf.
  destruct (f it) as [it'|] eqn:Hit; [|done]. simpl in Hf. injection Hf as <-.
  pose proof (inv_items0 _ _ Hi) as Hok.
  destruct (H it it' _ _ _ (places_disjoint s i inv_nodup0) Hit Hok) as (Hok' & Hst & Hv).
  split; simpl; try done; rewrite ?length_insert; try done.
  - intros j jt [(<- & <- & _)|(? & Hj)]%list_lookup_insert_Some; [done|]. by apply inv_items0.
  - intros j jt [(<- & <- & _)|(? & Hj)]%list_lookup_insert_Some; [|by apply inv_hist0].
    rewrite Hst. by apply inv_hist0.
  - intros j jt v [(<- & <- & _)|(? & Hj)]%list_lookup_insert_Some ?; eauto.
Qed.
End inv.

Ltac item_cases :=
  repeat (match goal with
  | H : context [match submitter ?it with _ => _ end] |- _ => destruct (submitter it) eqn:?
  | H : context [match reply ?it with _ => _ end] |- _ => destruct (reply it) eqn:?
  | H : context [match ctx_err ?c ?n with _ => _ end] |- _ => destruct (ctx_err c n) eqn:?
  | H : context [if ?b then _ else _] |- _ => destruct b eqn:?
  | H : context [match state ?it with _ => _ end] |- _ => destruct (state it) eqn:?
  | |- context [match state ?it with _ => _ end] => destruct (state it) eqn:?
  end; try discriminate).

Section callers.
Context {T R : Type}.
Implicit Types (s : sched T R) (it : item T R).

(** What [at_item_inv] asks of an action, by cases on the item. *)
Ltac caller_action :=
  clear; intros it it' P A J Hdis Hit Hok;
  unfold on_reply, on_dispatched, on_timer, on_ctx_done, on_done, cas_expired in Hit;
  item_cases; simplify_eq/=; unfold item_ok, replied, holds_value in *; simpl in *; item_cases;
  simplify_eq/=; destruct_and?;
  (split_and!; try done; try congruence; naive_solver congruence).

Lemma on_reply_inv s s' i : inv s → at_item s i on_reply = Some s' → inv s'.
Proof. intros Hs Hf. apply (at_item_inv _ _ _ _ Hs Hf). caller_action. Qed.

Lemma on_dispatched_inv s s' i : inv s → at_item s i on_dispatched = Some s' → inv s'.
Proof. intros Hs Hf. apply (at_item_inv _ _ _ _ Hs Hf). caller_action. Qed.

Lemma on_timer_inv s s' i now : inv s → at_item s i (on_timer now) = Some s' → inv s'.
Proof. intros Hs Hf. apply (at_item_inv _ _ _ _ Hs Hf). caller_action. Qed.

Lemma on_ctx_done_inv s s' i now : inv s → at_item s i (on_ctx_done now) = Some s' → inv s'.
Proof. intros Hs Hf. apply (at_item_inv _ _ _ _ Hs Hf). caller_action. Qed.

(** The case [<-s.done] needs to know that nothing is queued any more. *)
Lemma on_done_inv s s' i : inv s → at_item s i (on_done (done s)) = Some s' → inv s'.
Proof.
  intros Hs Hf. destruct (done s) eqn:Hd.
  2:{ unfold at_item, on_done in Hf. destruct (items s !! i); [|done]. simpl in Hf.
      by destruct (submitter _). }
  assert (run s = Stopped) as Hr by by apply (inv_done _ Hs).
  assert (pending s = []) as Hp.
  { unfold pending. rewrite Hr. destruct (inv_open _ Hs) as [_ ->]; [by rewrite Hr|done]. }
  eapply (at_item_inv s s' i (λ it, if decide (state it = stateQueued) then None else on_done true it) Hs).
  - unfold at_item in *. destruct (items s !! i) as [it|] eqn:Hi; [|done]. simpl in *.
    pose proof (inv_items _ Hs _ _ Hi) as Hok. rewrite Hp in Hok. unfold item_ok in Hok.
    case_decide as Hq; [|done]. rewrite Hq in Hok. set_solver.
  - caller_action.
Qed.
End callers.

Section runner.
Context {T R : Type}.
Implicit Types (s : sched T R) (it : item T R).

Lemma item_ok_move (P A J P' A' J' : Prop) it :
  item_ok P A J it → (P' → P) → (state it = stateQueued → P → P') → (A' ↔ A) → (J' ↔ J) →
  item_ok P' A' J' it.
Proof. unfold item_ok. destruct (state it); naive_solver. Qed.

Lemma produced_mono (h h' : list (@invocation R)) i v :
  (∀ x, x ∈ h → x ∈ h') → produced h i v → produced h' i v.
Proof. intros Hh (act & rs & j & Hin & ?). exists act, rs, j. auto. Qed.

(** A step that moves items between places and changes none of them.  An
    item that leaves the pipeline on the way is not queued any more. *)
Lemma inv_move s s' :
  inv s →
  (maxQueue s' = maxQueue s ∧ maxBatch s' = maxBatch s ∧ maxDelay s' = maxDelay s) →
  items s' = items s → (∀ x, x ∈ invoked s → x ∈ invoked s') → history s' = history s →
  places s' ⊆+ places s →
  (length (queue s') <= length (queue s))%nat → Z.of_nat (length (held s')) <= maxBatch s →
  (queue_open (run s') = false → closed s' = true ∧ queue s' = []) →
  (done s' = true ↔ run s' = Stopped) →
  (match run s' with Handling a _ _ => a ≠ [] | _ => True end) →
  (∀ i, i ∈ pending s' → i ∈ pending s) →
  (∀ i it, items s !! i = Some it → state it = stateQueued → i ∈ pending s → i ∈ pending s') →
  active (run s') = active (run s) → rejecting (run s') = rejecting (run s) →
  (∀ i v, match run s' with
          | Replying todo _ => (i, Ok v) ∈ todo → produced (invoked s') i v
          | _ => True end) →
  inv s'.
Proof.
  intros [] (Hq & Hb & Hd) Hit Hinv Hh Hsub Hlq Hlh Hopen Hdone Hne Hp Hqp Ha Hj Htodo.
  split; rewrite ?Hq, ?Hb, ?Hd, ?Hit, ?Hh, ?Ha, ?Hj; try done; try lia.
  - apply submseteq_Permutation in Hsub as [k Hk]. rewrite Hk in inv_nodup0.
    by apply NoDup_app in inv_nodup0 as (? & _ & _).
  - intros i Hi. apply inv_bound0. by eapply elem_of_submseteq.
  - intros i it Hi. eapply item_ok_move; [by apply inv_items0|..]; eauto.
  - intros i it v Hi Hv. eapply produced_mono; eauto.
Qed.

Lemma tick_inv s d s' : inv s → step (LTick d) s = Some s' → inv s'.
Proof. simpl. case_if; [|done]. intros Hs [= <-]. by destruct Hs; split. Qed.

Lemma Close_inv s : inv s → inv (Close s).
Proof.
  intros Hs. unfold Close. case_if; [done|]. destruct Hs; split; simpl; try done.
  intros Ho. split; [done|]. by apply inv_open0.
Qed.

Lemma enqueue_inv s c v created : inv s → inv (enqueue c v created s).1.
Proof.
  intros Hs. unfold enqueue. destruct (ctx_err c created); [done|].
  destruct (closed s) eqn:Hcl; [done|]. case_if; [|done]. bool_to_prop. simpl.
  set (n := length (items s)).
  pose proof (inv_bound _ Hs) as Hb. pose proof (inv_hist_bound _ Hs) as Hhb.
  assert (n ∉ places s) as Hn by (intros Hi%Hb; unfold n in *; lia).
  assert (∀ i it, i ≠ n → (i ∈ pending s ↔ i ∈ (queue s ++ [n]) ++ batched (run s))) as Hpend.
  { intros i _ Hi. unfold pending. rewrite !elem_of_app, list_elem_of_singleton. tauto. }
  destruct Hs; split; simpl; try done; rewrite ?length_app; simpl; try lia.
  - unfold places. simpl. rewrite <- app_assoc. unfold places in *.
    eapply (NoDup_Permutation_proper _ (n :: queue s ++ held s)); [|by constructor].
    by rewrite Permutation_middle.
  - intros i. unfold places, held. simpl. rewrite !elem_of_app, list_elem_of_singleton.
    intros [[Hi|Hi]|Hi]; [|unfold n in *; lia|]; apply Nat.lt_lt_add_r, Hb;
      unfold places, held; rewrite !elem_of_app; tauto.
  - intros Ho. by destruct (inv_open0 Ho) as [? _]; congruence.
  - intros i it [Hi|(Hlen & Hi)]%lookup_app_Some.
    + apply lookup_lt_Some in Hi as Hlt. eapply item_ok_move; [by apply inv_items0|..]; try done;
        intros; apply (Hpend i it); (done || (unfold n; lia)).
    + assert (i = n) as -> by (apply lookup_lt_Some in Hi; simpl in Hi; unfold n in *; lia).
      replace (n - length (items s))%nat with 0%nat in Hi by (unfold n; lia). simpl in Hi. injection Hi as <-.
      unfold item_ok. simpl. split_and!; try done. unfold pending. simpl. set_solver.
  - intros i Hi. apply Nat.lt_lt_add_r, Hhb, Hi.
  - intros i it [Hi|(Hlen & Hi)]%lookup_app_Some; [by apply inv_hist0|].
    split; [intros Hi'%Hhb; lia|].
    apply list_lookup_singleton_Some in Hi as [_ <-]. done.
  - intros i it x [Hi|(Hlen & Hi)]%lookup_app_Some; [by apply inv_values0|].
    apply list_lookup_singleton_Some in Hi as [_ <-]. by intros [|].
Qed.

(** The obligations of [inv_move] that are computations on lists. *)
Ltac places_solver :=
  unfold history, places, pending, held; simpl; rewrite ?app_nil_r; simpl;
  rewrite ?length_app; simpl; try done; try lia; try solve [by_elem].
Ltac moves Hs Hr Hq :=
  eapply inv_move; [exact Hs|..]; clear Hs;
  unfold history, places, pending, held; simpl; rewrite ?Hr, ?Hq; places_solver.

Lemma cons_submseteq_snoc {A} (x : A) l k : l ++ k ++ [x] ⊆+ x :: l ++ k.
Proof. apply Permutation_submseteq. rewrite app_assoc. by rewrite Permutation_app_comm. Qed.

Lemma receive_inv s s' : inv s → run_receive s = Some s' → inv s'.
Proof.
  intros Hs. unfold run_receive, nextQueued, collect. pose proof (inv_open _ Hs) as Ho. pose proof (inv_done _ Hs) as Hd.
  pose proof (inv_batch _ Hs) as Hb. pose proof (inv_params _ Hs) as Hpar.
  destruct (run s) as [|batch deadline timer| | | | |] eqn:Hr; try done.
  - destruct (queue s) as [|i q] eqn:Hq.
    + case_if; [|done]. intros [= <-]. moves Hs Hr Hq.
    + destruct (items s !! i) as [it|] eqn:Hi; [|done]. simpl. case_decide as Hst; intros [= <-].
      * moves Hs Hr Hq. pose proof (cons_submseteq_snoc i q []) as H. by rewrite app_nil_r in H.
      * moves Hs Hr Hq. by apply submseteq_cons.
  - case_if; [|done]. bool_to_prop. unfold held in Hb. rewrite Hr in Hb. simpl in Hb. rewrite app_nil_r in Hb.
    destruct (queue s) as [|i q] eqn:Hq.
    + case_if; [|done]. intros [= <-]. moves Hs Hr Hq.
    + destruct (items s !! i) as [it|] eqn:Hi; [|done]. simpl. case_decide as Hst; [case_if|]; intros [= <-].
      1,2: moves Hs Hr Hq; apply cons_submseteq_snoc.
      moves Hs Hr Hq. by apply submseteq_cons.
Qed.

Lemma collected_inv s s' : inv s → run_collected s = Some s' → inv s'.
Proof.
  intros Hs. unfold run_collected. pose proof (inv_open _ Hs) as Ho. pose proof (inv_done _ Hs) as Hd.
  pose proof (inv_batch _ Hs) as Hb.
  destruct (run s) as [|batch deadline timer| | | | |] eqn:Hr; try done.
  unfold held in Hb. rewrite Hr in Hb. simpl in Hb. rewrite app_nil_r in Hb.
  case_if; [|done]. intros [= <-]. moves Hs Hr Hr.
Qed.

Lemma turn_end_inv s open :
  inv s → held s = [] → queue_open (run s) = open → run s ≠ Stopped → being_dispatched (run s) = [] →
  inv (turn_end open s).
Proof.
  intros Hs Hheld Hq Hne Hbd. pose proof (inv_open _ Hs) as Ho. pose proof (inv_done _ Hs) as Hd.
  pose proof (inv_params _ Hs) as Hpar.
  unfold held in Hheld. apply app_eq_nil in Hheld as [Hb [Ha Hj]%app_eq_nil].
  unfold turn_end. case_if.
  - eapply inv_move; [exact Hs|..]; clear Hs; places_solver; rewrite ?Hb, ?Ha, ?Hj, ?Hbd; places_solver.
  - eapply inv_move; [exact Hs|..]; clear Hs; places_solver; rewrite ?Hb, ?Ha, ?Hj, ?Hbd; places_solver.
Qed.

Lemma invoke_inv s s' : inv s → run_invoke s = Some s' → inv s'.
Proof.
  intros Hs. unfold run_invoke. pose proof (inv_open _ Hs) as Ho. pose proof (inv_done _ Hs) as Hd.
  pose proof (inv_batch _ Hs) as Hb.
  destruct (run s) as [| |[|i todo] now act open| | | |] eqn:Hr; try done.
  case_decide as Ha; intros [= <-].
  - apply turn_end_inv; unfold held; rewrite ?Hr; simpl; by rewrite ?Ha.
  - unfold held in Hb. rewrite Hr in Hb. simpl in Hb. rewrite app_nil_r in Hb. moves Hs Hr Hr.
Qed.

Lemma length_outcomes n (res : result (list R)) : length (outcomes n res) = n.
Proof.
  unfold outcomes. destruct res as [rs|e]; [case_decide|]; by rewrite ?length_fmap, ?length_replicate.
Qed.

(** The outcome [Ok v] of an item is the value at its position. *)
Lemma outcomes_ok (act : list nat) (res : result (list R)) i v :
  (i, Ok v) ∈ combine act (outcomes (length act) res : list (result R)) →
  ∃ rs j, res = Ok rs ∧ length rs = length act ∧ act !! j = Some i ∧ rs !! j = Some v.
Proof.
  intros [j Hj]%list_elem_of_lookup.
  assert (act !! j = Some i ∧ outcomes (length act) res !! j = Some (Ok v)) as [Hi Ho].
  { revert j Hj. generalize (outcomes (length act) res). clear. induction act as [|a act IH]; intros [|o os] [|j]; simpl; try done.
    - by intros [= -> ->].
    - apply IH. }
  unfold outcomes in Ho. destruct res as [rs|e]; [case_decide as Hl|].
  - apply list_lookup_fmap_Some in Ho as (v' & [= ->] & Hv). by exists rs, j.
  - by apply lookup_replicate in Ho as [].
  - by apply lookup_replicate in Ho as [].
Qed.

Lemma fst_combine (act : list nat) (os : list (result R)) :
  length os = length act → (combine act os).*1 = act.
Proof.
  revert os. induction act as [|a act IH]; intros [|o os]; simpl; try done.
  intros [= H]. by rewrite IH.
Qed.

Lemma handled_inv s s' res : inv s → run_handled res s = Some s' → inv s'.
Proof.
  intros Hs. unfold run_handled. pose proof (inv_open _ Hs) as Ho. pose proof (inv_done _ Hs) as Hd.
  pose proof (inv_batch _ Hs) as Hb.
  destruct (run s) as [| | | |act c open| |] eqn:Hr; try done. intros [= <-].
  unfold held in Hb. rewrite Hr in Hb. simpl in Hb. rewrite app_nil_r in Hb.
  moves Hs Hr Hr; rewrite ?fst_combine by apply length_outcomes; try done.
  - rewrite fmap_app, concat_app. simpl. by rewrite app_nil_r.
  - intros i v (rs & j & -> & ?)%outcomes_ok. exists act, rs, j. split_and!; by_elem.
Qed.

(** A step that changes the item [i] and moves no other item. *)
Lemma inv_move_item s s' i it it' :
  inv s → items s !! i = Some it → items s' = <[i := it']> (items s) →
  (maxQueue s' = maxQueue s ∧ maxBatch s' = maxBatch s ∧ maxDelay s' = maxDelay s) →
  (queue s' = queue s ∧ closed s' = closed s ∧ done s' = done s ∧ invoked s' = invoked s) →
  held s' ⊆+ held s → queue_open (run s') = queue_open (run s) →
  run s ≠ Stopped → run s' ≠ Stopped → (match run s' with Handling _ _ _ => False | _ => True end) →
  (history s' = history s ∨ (history s' = history s ++ [i] ∧ i ∉ history s)) →
  (i ∈ history s' ↔ state it' = stateDispatched) →
  (∀ j, j ≠ i → (j ∈ pending s' ↔ j ∈ pending s) ∧ (j ∈ active (run s') ↔ j ∈ active (run s)) ∧
                (j ∈ rejecting (run s') ↔ j ∈ rejecting (run s))) →
  item_ok (i ∈ pending s') (i ∈ active (run s')) (i ∈ rejecting (run s')) it' →
  (∀ v, holds_value it' v → produced (invoked s) i v) →
  (∀ j v, match run s' with
          | Replying todo _ => (j, Ok v) ∈ todo → produced (invoked s) j v
          | _ => True end) →
  inv s'.
Proof.
  intros [] Hi Hits (Hq & Hb & Hd) (Eq & Ec & Ed & Ei) Hheld Hopen Hns Hns' Hnh Hh Hhi Hoth Hok Hval Htodo.
  assert (places s' ⊆+ places s) as Hsub.
  { unfold places. rewrite Eq. by apply submseteq_skips_l. }
  pose proof (lookup_lt_Some _ _ _ Hi) as Hlt.
  assert (∀ j, j ≠ i → (j ∈ history s' ↔ j ∈ history s)) as Hhj.
  { intros j Hj. destruct Hh as [->|[-> _]]; [done|]. rewrite elem_of_app, list_elem_of_singleton. naive_solver. }
  split; rewrite ?Hq, ?Hb, ?Hd, ?Eq, ?Ec, ?Ed, ?Ei, ?Hopen, ?Hits, ?length_insert; try done.
  - apply submseteq_length in Hheld. lia.
  - apply submseteq_Permutation in Hsub as [k Hk]. rewrite Hk in inv_nodup0.
    by apply NoDup_app in inv_nodup0 as (? & _ & _).
  - intros j Hj. apply inv_bound0. by eapply elem_of_submseteq.
  - rewrite inv_done0. by split.
  - by destruct (run s').
  - intros j jt [(<- & <- & _)|(? & Hj)]%list_lookup_insert_Some; [done|].
    destruct (Hoth j) as (? & ? & ?); [done|]. eapply item_ok_move; [by apply inv_items0|..]; naive_solver.
  - destruct Hh as [->|[-> Hnew]]; [done|]. apply NoDup_app. split_and!; [done| |apply NoDup_singleton].
    intros j Hj ->%list_elem_of_singleton. done.
  - intros j Hj. destruct (decide (j = i)) as [->|Hne]; [done|]. by apply inv_hist_bound0, Hhj.
  - intros j jt [(<- & <- & _)|(? & Hj)]%list_lookup_insert_Some; [done|]. rewrite Hhj by done. by apply inv_hist0.
  - intros j jt v [(<- & <- & _)|(? & Hj)]%list_lookup_insert_Some Hv; eauto.
Qed.

Lemma send_inv_item s s' i x :
  send i x s = Some s' → ∃ it, items s !! i = Some it ∧ reply it = None ∧
    s' = with_items s (<[i := set_reply (Some x) it]> (items s)).
Proof.
  unfold send. destruct (items s !! i) as [it|]; [|done]. simpl.
  destruct (reply it) eqn:E; [done|]. intros [= <-]. eauto.
Qed.

Lemma reject_inv s s' : inv s → run_reject s = Some s' → inv s'.
Proof.
  intros Hs. unfold run_reject. destruct (run s) as [| | |i err todo now act open| | |] eqn:Hr; try done.
  destruct (send i (Err err) s) as [s1|] eqn:Hsend; [|done]. intros [= <-].
  apply send_inv_item in Hsend as (it & Hi & Hrep & ->).
  pose proof (inv_items _ Hs _ _ Hi) as Hok. pose proof (inv_hist _ Hs _ _ Hi) as Hhi.
  pose proof (places_disjoint s i (inv_nodup _ Hs)) as Hdis. rewrite Hr in Hok, Hdis. simpl in *.
  eapply (inv_move_item s _ i it); [exact Hs|exact Hi|reflexivity|done|done|..];
    unfold history, held, pending in *; simpl; rewrite ?Hr in *; simpl in *; try done.
  - rewrite app_nil_r. apply submseteq_app; [done|]. by apply submseteq_inserts_r.
  - by left.
  - by_elem.
  - unfold item_ok, replied in *. simpl. destruct (state it).
    + destruct Hok as (Hp & _). destruct (Hdis Hp) as [_ []]. by left.
    + destruct Hok as (_ & _ & [] & _). by left.
    + split_and!; [naive_solver|naive_solver|by intros []%elem_of_nil|]. by right; left.
  - intros v Hv. apply (inv_values _ Hs i it v Hi). destruct Hv as [Hv|Hv]; [done|by right].
Qed.

Lemma run_reply_inv s s' : inv s → run_reply s = Some s' → inv s'.
Proof.
  intros Hs. unfold run_reply.
  destruct (run s) as [| | | | |[|[i x] todo] open|] eqn:Hr; try done.
  { intros [= <-]. apply turn_end_inv; unfold held; by rewrite ?Hr. }
  destruct (items s !! i) as [it0|] eqn:Hi0; [|done]. simpl.
  set (x' := match ctx_err _ _ with Some err => Err err | None => x end).
  destruct (send i x' s) as [s1|] eqn:Hsend; [|done]. intros [= <-].
  apply send_inv_item in Hsend as (it & Hi & Hrep & ->). replace it0 with it in * by congruence.
  pose proof (inv_items _ Hs _ _ Hi) as Hok. pose proof (inv_hist _ Hs _ _ Hi) as Hhi.
  pose proof (places_disjoint s i (inv_nodup _ Hs)) as Hdis.
  pose proof (inv_nodup _ Hs) as Hnd. unfold places, held in Hnd.
  pose proof (inv_todo _ Hs) as Htodo.
  rewrite Hr in Hok, Hdis, Hnd, Htodo. simpl in *. rewrite app_nil_r in Hnd.
  apply NoDup_app in Hnd as (_ & _ & [Hnotin _]%NoDup_cons).
  eapply (inv_move_item s _ i it); [exact Hs|exact Hi|reflexivity|done|done|..];
    unfold history, held, pending in *; simpl; rewrite ?Hr in *; simpl in *; try done.
  - rewrite !app_nil_r. by apply submseteq_cons.
  - by left.
  - by_elem.
  - unfold item_ok, replied in *. simpl. destruct (state it).
    + destruct Hok as (Hp & _). destruct (Hdis Hp) as [[] _]. by left.
    + destruct Hok as (? & ? & ? & ? & ?). split_and!; try done. by right; left.
    + destruct Hok as (_ & [] & _). by left.
  - intros v [Hv|Hv]; [|by apply (inv_values _ Hs i it v Hi); right].
    simpl in Hv. injection Hv as Hv. unfold x' in Hv. destruct (ctx_err _ _); [done|]. subst x.
    apply (Htodo i v). by left.
  - intros j v Hj. apply (Htodo j v). by right.
Qed.

(** An item that is not queued any more is skipped by [dispatch]. *)
Lemma skip_inv s i todo now act open it :
  inv s → run s = Dispatching (i :: todo) now act open → items s !! i = Some it →
  state it ≠ stateQueued → inv (with_run s (Dispatching todo now act open)).
Proof.
  intros Hs Hr Hi Hst. pose proof (inv_open _ Hs) as Ho. pose proof (inv_done _ Hs) as Hd.
  pose proof (inv_batch _ Hs) as Hb. unfold held in Hb. rewrite Hr in *. simpl in *.
  moves Hs Hr Hr.
  - apply submseteq_app; [done|]. by apply submseteq_cons.
  - rewrite app_nil_r, length_app in Hb. lia.
Qed.

(** A queued item at the head of the batch, before [dispatch] decides. *)
Lemma queued_head s i todo now act open it :
  inv s → run s = Dispatching (i :: todo) now act open → items s !! i = Some it →
  state it = stateQueued →
  reply it = None ∧ dispatched it = false ∧ submitter it = Selecting ∧
  (i ∉ queue s) ∧ (i ∉ todo) ∧ (i ∉ act) ∧ (i ∉ history s) ∧ (∀ v, ¬ holds_value it v).
Proof.
  intros Hs Hr Hi Hst. pose proof (inv_items _ Hs _ _ Hi) as Hok. unfold item_ok in Hok.
  rewrite Hst in Hok. destruct Hok as (_ & Hrep & Hdis & Hsub).
  pose proof (inv_nodup _ Hs) as Hnd. unfold places, held in Hnd. rewrite Hr in Hnd. simpl in Hnd.
  rewrite app_nil_r in Hnd. apply NoDup_app in Hnd as (_ & Hqn & [Hn _]%NoDup_cons).
  rewrite elem_of_app in Hn. split_and!; try done; try tauto.
  - intros Hq. apply (Hqn i Hq). by left.
  - intros Hh%(inv_hist _ Hs i it Hi). congruence.
  - intros v [Hv|Hv]; congruence.
Qed.

Lemma expire_inv s i todo now act open it err :
  inv s → run s = Dispatching (i :: todo) now act open → items s !! i = Some it →
  state it = stateQueued →
  inv (with_run (with_items s (<[i := set_state stateExpired it]> (items s)))
         (Rejecting i err todo now act open)).
Proof.
  intros Hs Hr Hi Hst.
  destruct (queued_head s i todo now act open it) as (Hrep & Hdis & Hsub & Hq & Ht & Ha & Hh & Hv); [done..|].
  eapply (inv_move_item s _ i it); [exact Hs|exact Hi|reflexivity|done|done|..];
    unfold history, held, pending in *; simpl; rewrite ?Hr in *; simpl in *; try done.
  - apply Permutation_submseteq. rewrite app_nil_r, app_assoc. by rewrite Permutation_app_comm.
  - by left.
  - by_elem.
  - unfold item_ok. simpl. split_and!; try done. left. by left.
  - intros v Hv'. by destruct (Hv v).
Qed.

Lemma dispatch_item_inv s i todo now act open it m :
  inv s → run s = Dispatching (i :: todo) now act open → items s !! i = Some it →
  state it = stateQueued →
  inv (with_metrics (with_run (with_items s (<[i := set_dispatched it]> (items s)))
         (Dispatching todo now (act ++ [i]) open)) m).
Proof.
  intros Hs Hr Hi Hst.
  destruct (queued_head s i todo now act open it) as (Hrep & Hdis & Hsub & Hq & Ht & Ha & Hh & Hv); [done..|].
  eapply (inv_move_item s _ i it); [exact Hs|exact Hi|reflexivity|done|done|..];
    unfold history, held, pending in *; simpl; rewrite ?Hr in *; simpl in *; try done.
  - apply Permutation_submseteq. rewrite !app_nil_r, app_assoc. by rewrite Permutation_app_comm.
  - right. split; [by rewrite app_assoc|done].
  - by_elem.
  - by_elem.
  - unfold item_ok. simpl. split_and!; [done|by_elem|by intros []%elem_of_nil|done|].
    left. by_elem.
  - intros v Hv'. by destruct (Hv v).
Qed.

Lemma admit_item_inv s s' : inv s → run_admit_item s = Some s' → inv s'.
Proof.
  intros Hs. unfold run_admit_item.
  destruct (run s) as [| |[|i todo] now act open| | | |] eqn:Hr; try done.
  destruct (items s !! i) as [it|] eqn:Hi; [|done]. simpl.
  assert (∀ err, inv (let '(it', swapped) := cas_expired it in
    with_run (with_items s (<[i := it']> (items s)))
      (if swapped then Rejecting i err todo now act open else Dispatching todo now act open))) as Hrej.
  { intros err. unfold cas_expired. destruct (state it) eqn:Hst; [by apply expire_inv|..];
      rewrite list_insert_id by done; replace (with_items s (items s)) with s by (by destruct s);
      (eapply skip_inv; [done..|congruence]). }
  destruct (ctx_err (ctx it) (clock s)) as [err|]; [intros [= <-]; apply Hrej|].
  case_if; [intros [= <-]; apply Hrej|].
  case_decide as Hst; intros [= <-]; [by apply dispatch_item_inv|by eapply skip_inv].
Qed.

Lemma step_inv l s s' : inv s → step l s = Some s' → inv s'.
Proof.
  intros Hs. destruct l; cbn [step].
  - by apply tick_inv.
  - case_if; [|done]. intros [= <-]. by apply enqueue_inv.
  - intros [= <-]. by apply Close_inv.
  - by apply on_reply_inv.
  - by apply on_dispatched_inv.
  - by apply on_timer_inv.
  - by apply on_ctx_done_inv.
  - by apply on_done_inv.
  - by apply receive_inv.
  - by apply collected_inv.
  - by apply admit_item_inv.
  - by apply reject_inv.
  - by apply invoke_inv.
  - by apply handled_inv.
  - by apply run_reply_inv.
Qed.

Lemma reachable_inv s : reachable s → inv s.
Proof. induction 1 as [q b d now s Hn|l s s' _ IH Hst]; [by eapply New_inv|by eapply step_inv]. Qed.
End runner.
