(* ===== verification/SchedulerOutcomes.v ===== *)
(** * The errors of the scheduler

    Why a caller of [Submit] is given an error.  In every reachable state an
    error that an item holds, in its reply channel or as the result of its
    caller, has one of three causes: the item expired in the queue, its own
    context ended, or the handler call it was part of failed.  In particular
    a caller that was admitted is never told [ErrClosed] by the scheduler. *)

From Stdlib Require Import ZArith Lia.
From stdpp Require Import prelude strings list.
From S2P Require Import Prelude GoContext Scheduler SchedulerInv.

#[local] Open Scope Z_scope.

Lemma ctx_err_cases c now e : ctx_err c now = Some e → e = Canceled ∨ e = DeadlineExceeded.
Proof. unfold ctx_err. repeat case_match; naive_solver. Qed.

Section outcomes.
Context {T R : Type}.
Implicit Types (s : sched T R) (it : item T R) (r : runner R).

(** What the batch loop reports to the items of a failed handler call. *)
Definition call_error (act : list nat) (res : result (list R)) (e : error) : Prop :=
  match res with
  | Err e' => e = e'
  | Ok rs => length rs ≠ length act ∧ e = Fresh "batch handler returned incorrect result count"
  end.

(** Why item [i] is given the error [e]. *)
Definition cause s (i : nat) it (e : error) : Prop :=
  (e = ErrQueueDelay ∧ state it = stateExpired ∧ queueExpiry it <= clock s) ∨
  (∃ t, t <= clock s ∧ ctx_err (ctx it) t = Some e) ∨
  (∃ act res, (act, res) ∈ invoked s ∧ i ∈ act ∧ call_error act res e).

Definition holds_error it (e : error) : Prop := reply it = Some (Err e) ∨ submitter it = Returned (Err e).

(** The runner is about to send [e] to item [i]. *)
Definition owes r (i : nat) (e : error) : Prop :=
  match r with
  | Rejecting j e' _ _ _ _ => i = j ∧ e = e'
  | Replying todo _ => (i, Err e) ∈ todo
  | _ => False
  end.

(** The instant of the dispatch in progress. *)
Definition dispatch_time r : option Z :=
  match r with Dispatching _ now _ _ | Rejecting _ _ _ now _ _ => Some now | _ => None end.

Record explained s : Prop := {
  explained_items : ∀ i it e, items s !! i = Some it → holds_error it e → cause s i it e;
  explained_owed : ∀ i it e, items s !! i = Some it → owes (run s) i e → cause s i it e;
  explained_time : ∀ now, dispatch_time (run s) = Some now → now <= clock s;
}.

(** What no step changes of an item, and that expiry is final. *)
Definition keeps it it' : Prop :=
  ctx it' = ctx it ∧ queueExpiry it' = queueExpiry it ∧ (state it = stateExpired → state it' = stateExpired).

Lemma cause_mono s s' i it it' e :
  clock s <= clock s' → (∀ x, x ∈ invoked s → x ∈ invoked s') → keeps it it' → cause s i it e → cause s' i it' e.
Proof.
  intros Hc Hi (Hctx & Hq & Hst) [(He & Hs & Hx)|[(t & Ht & He)|(act & res & Hin & Ha & He)]].
  - left. rewrite Hq. split_and!; [done|auto|lia].
  - right; left. exists t. rewrite Hctx. split; [lia|done].
  - right; right. exists act, res. auto.
Qed.

(** A step explains its errors if it explains those it adds. *)
Lemma explained_step s s' :
  explained s → clock s <= clock s' → (∀ x, x ∈ invoked s → x ∈ invoked s') →
  (∀ i it', items s' !! i = Some it' →
     (∃ it, items s !! i = Some it ∧ keeps it it' ∧
        ∀ e, holds_error it' e ∨ owes (run s') i e →
          holds_error it e ∨ owes (run s) i e ∨ cause s' i it' e) ∨
     (∀ e, ¬ holds_error it' e ∧ ¬ owes (run s') i e)) →
  (∀ now, dispatch_time (run s') = Some now → now = clock s' ∨ dispatch_time (run s) = Some now) →
  explained s'.
Proof.
  intros [H1 H2 H3] Hc Hinv Hit Ht.
  assert (∀ i it' e, items s' !! i = Some it' → holds_error it' e ∨ owes (run s') i e → cause s' i it' e) as Hall.
  { intros i it' e Hi He. destruct (Hit i it' Hi) as [(it & Hi' & Hk & Hold)|Hno]; [|by destruct (Hno e); destruct He].
    destruct (Hold e He) as [Hh|[Ho|]]; [| |done]; eapply cause_mono; eauto. }
  split; [by eauto..|]. intros now [->|Hd]%Ht; [lia|]. specialize (H3 now Hd). lia.
Qed.

(** Steps that change no item, and steps that change one. *)
Lemma explained_same s s' :
  explained s → clock s <= clock s' → items s' = items s → (∀ x, x ∈ invoked s → x ∈ invoked s') →
  (∀ i it e, items s !! i = Some it → owes (run s') i e → owes (run s) i e ∨ cause s' i it e) →
  (∀ now, dispatch_time (run s') = Some now → now = clock s' ∨ dispatch_time (run s) = Some now) →
  explained s'.
Proof.
  intros Hs Hc Hits Hinv Ho Ht. eapply explained_step; [done..| |done]. rewrite Hits. intros i it Hi. left.
  exists it. split_and!; [done|done|]. intros e [He|He]; [by left|]. right. eauto.
Qed.

Lemma explained_insert s s' i it it' :
  explained s → items s !! i = Some it → items s' = <[i := it']> (items s) → keeps it it' →
  clock s' = clock s → invoked s' = invoked s →
  (∀ e, holds_error it' e → holds_error it e ∨ owes (run s) i e ∨ cause s' i it' e) →
  (∀ j e jt, items s' !! j = Some jt → owes (run s') j e → owes (run s) j e ∨ cause s' j jt e) →
  (∀ now, dispatch_time (run s') = Some now → dispatch_time (run s) = Some now) →
  explained s'.
Proof.
  intros Hs Hi Hits Hk Hc Hinv He Ho Ht. eapply (explained_step s); [done|lia|by rewrite Hinv| |by auto].
  intros j jt Hj. left. pose proof Hj as Hj'. rewrite Hits in Hj'.
  apply list_lookup_insert_Some in Hj' as [(<- & <- & _)|(Hne & Hj')].
  - exists it. split_and!; [done|done|]. intros e [Hh|Hw]; [by apply He|right; by eapply Ho].
  - exists jt. split_and!; [done|done|]. intros e [Hh|Hw]; [by left|right; by eapply Ho].
Qed.

(** ** Callers *)

Lemma explained_at_item s s' i f :
  explained s → at_item s i f = Some s' →
  (∀ it it', items s !! i = Some it → f it = Some it' →
     keeps it it' ∧ ∀ e, holds_error it' e → holds_error it e ∨ cause s i it' e) →
  explained s'.
Proof.
  intros Hs Hf H. unfold at_item in Hf. destruct (items s !! i) as [it|] eqn:Hi; [|done]. simpl in Hf.
  destruct (f it) as [it'|] eqn:Hit; [|done]. simpl in Hf. injection Hf as <-.
  destruct (H it it' eq_refl Hit) as [Hk He].
  eapply (explained_insert s _ i it it'); try done; [|by left].
  intros e Hh. destruct (He e Hh); [by left|]. right; right. done.
Qed.

(** A caller in its select when [done] is closed finds its reply. *)
Lemma done_replied s i it :
  inv s → done s = true → items s !! i = Some it → submitter it = Selecting ∨ submitter it = Awaiting →
  ∃ x, reply it = Some x.
Proof.
  intros Hs Hd Hi Hsub. apply (inv_done _ Hs) in Hd. pose proof (inv_items _ Hs _ _ Hi) as Hok.
  unfold item_ok, pending, replied in Hok. destruct (inv_open _ Hs) as [_ Hq]; [by rewrite Hd|].
  rewrite Hq, Hd in Hok. simpl in Hok. pose proof (not_elem_of_nil i).
  destruct (reply it) as [x|]; [eauto|]. exfalso. clear -Hok Hsub H. destruct (state it); naive_solver congruence.
Qed.
End outcomes.

(** The errors an action of a caller adds, by cases on the item. *)
Ltac caller_errors :=
  unfold on_reply, on_dispatched, on_timer, on_ctx_done, on_done, cas_expired in *;
  item_cases; simplify_eq/=; unfold keeps, holds_error, cause in *; simpl in *;
  (split; [split_and!; first [done|congruence]|]);
  let e' := fresh "e" in intros e' [Herr|Herr]; simplify_eq/=; try discriminate; auto.

Section steps.
Context {T R : Type}.
Implicit Types (s : sched T R) (it : item T R).

Lemma caller_explained l s s' :
  inv s → explained s → step l s = Some s' →
  match l with LReply _ | LDispatched _ | LTimer _ | LCtx _ | LDone _ => True | _ => False end → explained s'.
Proof.
  intros Hinv Hs Hst Hl. destruct l; try done; simpl in Hst; eapply explained_at_item; try done; intros it it' Hi Hit;
    clear Hst Hl.
  - caller_errors.
  - caller_errors.
  - caller_errors. right. left. bool_to_prop. done.
  - caller_errors; right; right; left; exists (clock s); (split; [lia|congruence]).
  - pose proof (done_replied s i it Hinv) as Hd. unfold on_done in Hit.
    destruct (submitter it) eqn:Hsub; try done. destruct (done s); [|done].
    destruct (Hd eq_refl Hi (or_introl eq_refl)) as [x Hx]. rewrite Hx in Hit. injection Hit as <-.
    split; [done|]. intros e [He|He]; simplify_eq/=. by left; left.
Qed.

(** ** The runner *)

Lemma send_explained s s' i (x : result R) it :
  explained s → items s !! i = Some it → reply it = None → s' = with_items s (<[i := set_reply (Some x) it]> (items s)) →
  (∀ e, x = Err e → owes (run s) i e ∨ cause s i it e) → explained s'.
Proof.
  intros Hs Hi Hr -> Hx. eapply (explained_insert s _ i it); try done; [|by left].
  intros e [He|He]; simpl in He; [|by left; right]. injection He as He.
  destruct (Hx e He) as [|Hc]; [by right; left|]. right; right. exact Hc.
Qed.

Lemma run_receive_explained s s' : explained s → run_receive s = Some s' → explained s'.
Proof.
  intros Hs. unfold run_receive, nextQueued, collect, turn_end, dispatch.
  destruct (run s) as [|b d tm| | | | |] eqn:Hr; try done; [|case_if; [|done]];
    (destruct (queue s) as [|i q] eqn:Hq; [|destruct (items s !! i); [|done]; simpl];
     repeat case_match; intros; simplify_eq; eapply (explained_same s); simpl; rewrite ?Hr; try done; naive_solver).
Qed.

Lemma reject_explained s i it todo now act open e :
  explained s → run s = Dispatching (i :: todo) now act open → items s !! i = Some it →
  ctx_err (ctx it) (clock s) = Some e ∨ e = ErrQueueDelay ∧ queueExpiry it <= now →
  explained (let '(it', swapped) := cas_expired it in
    with_run (with_items s (<[i := it']> (items s)))
      (if swapped then Rejecting i e todo now act open else Dispatching todo now act open)).
Proof.
  intros Hs Hr Hi He. pose proof (explained_time _ Hs now) as Ht. rewrite Hr in Ht. specialize (Ht eq_refl).
  unfold cas_expired. destruct (state it) eqn:Hst.
  1: eapply (explained_insert s _ i it (set_state stateExpired it)); try done; simpl; rewrite ?Hr; try done;
       [by left|].
  1: { intros j e' jt Hj [-> ->]. right. rewrite list_lookup_insert_eq in Hj by (by eapply lookup_lt_Some).
       injection Hj as <-. destruct He as [He|[-> Hle]].
       - right; left. exists (clock s). split; [simpl; lia|done].
       - left. split_and!; [done|done|simpl; lia]. }
  all: rewrite list_insert_id by done; eapply (explained_same s); simpl; rewrite ?Hr; try done; naive_solver.
Qed.

Lemma run_admit_item_explained s s' : explained s → run_admit_item s = Some s' → explained s'.
Proof.
  intros Hs. unfold run_admit_item. destruct (run s) as [| |[|i todo] now act o| | | |] eqn:Hr; try done.
  destruct (items s !! i) as [it|] eqn:Hi; [|done]. simpl.
  destruct (ctx_err (ctx it) (clock s)) as [e|] eqn:He; [intros [= <-]; eapply reject_explained; eauto|].
  case_if; [intros [= <-]; eapply reject_explained; eauto; right; bool_to_prop; done|].
  case_decide as Hst; intros [= <-].
  - eapply (explained_insert s _ i it (set_dispatched it)); try done; simpl; rewrite ?Hr; try done; [|by left].
    unfold keeps. by rewrite Hst.
  - eapply (explained_same s); simpl; rewrite ?Hr; try done; naive_solver.
Qed.

(** What the reply loop owes comes from the call. *)
Lemma outcomes_err (act : list nat) (res : result (list R)) i e :
  (i, Err e) ∈ combine act (outcomes (length act) res : list (result R)) → i ∈ act ∧ call_error act res e.
Proof.
  intros Hin. split.
  { apply list_elem_of_In in Hin. apply list_elem_of_In. by eapply in_combine_l. }
  apply list_elem_of_In, in_combine_r, list_elem_of_In in Hin. unfold outcomes in Hin.
  destruct res as [rs|e']; simpl; [case_decide as Hl|].
  - apply list_elem_of_fmap in Hin as (? & ? & _). done.
  - apply elem_of_replicate in Hin as [[= ->] _]. done.
  - apply elem_of_replicate in Hin as [[= ->] _]. done.
Qed.

Lemma run_handled_explained s s' res : explained s → run_handled res s = Some s' → explained s'.
Proof.
  intros Hs. unfold run_handled. destruct (run s) as [| | | |act c o| |] eqn:Hr; try done. intros [= <-].
  eapply (explained_same s); simpl; rewrite ?Hr; try done.
  - intros x Hx. by_elem.
  - intros i it e _ [Hi He]%outcomes_err. right. right; right. exists act, res. simpl. split_and!; [by_elem|done|done].
Qed.

Lemma run_reply_explained s s' : explained s → run_reply s = Some s' → explained s'.
Proof.
  intros Hs. unfold run_reply, turn_end. destruct (run s) as [| | | | |[|[i x] todo] o|] eqn:Hr; try done.
  { destruct o; intros [= <-]; eapply (explained_same s); simpl; rewrite ?Hr; try done; naive_solver. }
  destruct (items s !! i) as [it0|] eqn:Hi0; [|done]. simpl.
  destruct (send i _ s) as [s1|] eqn:Hsend; [|done]. intros [= <-].
  apply send_inv_item in Hsend as (it & Hi & Hrep & E). replace it0 with it in * by congruence.
  eapply (explained_same s1); try (by subst s1); [|subst s1; simpl; rewrite Hr..]; simpl.
  - eapply send_explained; [done|exact Hi|done|exact E|]. intros e He. rewrite Hr. simpl.
    destruct (ctx_err (ctx it) (clock s)) as [e'|] eqn:Hc; [injection He as ->|subst x; left; by left].
    right. right; left. exists (clock s). split; [lia|done].
  - intros j jt e _ Hj. left. by right.
Qed.

Lemma step_explained l s s' : inv s → explained s → step l s = Some s' → explained s'.
Proof.
  intros Hinv Hs Hst. destruct l; try (by eapply (caller_explained _ s s' Hinv Hs Hst)); simpl in Hst.
  - case_if; [|done]. bool_to_prop. injection Hst as <-. eapply (explained_same s); simpl; try done; try lia; auto.
  - case_if; [|done]. injection Hst as <-. unfold enqueue. repeat (case_match; [done|]). case_match; [|done].
    eapply (explained_step s); simpl; try done; [|by right].
    intros i it' [Hi|(Hl & Hi)]%lookup_app_Some; [left; exists it'; split_and!; [done|done|tauto]|right].
    apply list_lookup_singleton_Some in Hi as [Hi <-]. intros e. split; [by intros [|]|]. intros Ho.
    assert (i ∈ places s) as Hp%(inv_bound _ Hinv); [|lia].
    unfold places, held. destruct (run s); simpl in *; try done.
    + destruct Ho as [-> _]. by_elem.
    + apply (list_elem_of_fmap_2 fst) in Ho. simpl in Ho. by_elem.
  - injection Hst as <-. unfold Close. case_if; [done|]. eapply (explained_same s); simpl; try done; auto.
  - by eapply run_receive_explained.
  - unfold run_collected, dispatch in Hst. destruct (run s) as [|b d tm| | | | |] eqn:Hr; try done.
    case_if; [|done]. injection Hst as <-. eapply (explained_same s); simpl; rewrite ?Hr; try done; naive_solver.
  - by eapply run_admit_item_explained.
  - unfold run_reject in Hst. destruct (run s) as [| | |i e todo now act o| | |] eqn:Hr; try done.
    destruct (send i (Err e) s) as [s1|] eqn:Hsend; [|done]. injection Hst as <-.
    apply send_inv_item in Hsend as (it & Hi & Hrep & E).
    eapply (explained_same s1); try (by subst s1); [|subst s1; simpl; rewrite Hr; by intros ? [= <-]; right].
    eapply send_explained; [done|exact Hi|done|exact E|]. intros e' [= <-]. left. by rewrite Hr.
  - unfold run_invoke, turn_end in Hst. destruct (run s) as [| |[|i todo] now act o| | | |] eqn:Hr; try done.
    repeat case_match; simplify_eq; eapply (explained_same s); simpl; rewrite ?Hr; try done; naive_solver.
  - by eapply run_handled_explained.
  - by eapply run_reply_explained.
Qed.

Lemma reachable_explained s : reachable s → explained s.
Proof.
  induction 1 as [q b d now s Hn|l s s' Hr IH Hst].
  - unfold New in Hn. case_if; [done|]. injection Hn as <-. by split.
  - by eapply step_explained; [apply reachable_inv|..].
Qed.

(** ** Consequences *)

(** The errors the scheduler declares are not errors of a context. *)
Lemma ctx_err_sentinel c now e : ctx_err c now = Some e → e ≠ ErrClosed ∧ e ≠ ErrQueueDelay.
Proof. by intros [->| ->]%ctx_err_cases. Qed.

Lemma call_error_sentinel (act : list nat) (res : result (list R)) e :
  call_error act res e → e = ErrClosed ∨ e = ErrQueueDelay → res = Err e.
Proof. destruct res as [rs|e']; simpl; [|by intros ->]. intros [_ ->] [|]; discriminate. Qed.

(** [ErrClosed] is never the scheduler's answer to an item. *)
Lemma closed_cause s i it :
  reachable s → items s !! i = Some it → submitter it = Returned (Err ErrClosed) →
  ∃ act, (act, Err ErrClosed) ∈ invoked s ∧ i ∈ act.
Proof.
  intros Hs%reachable_explained Hi Hret.
  destruct (explained_items _ Hs i it ErrClosed Hi (or_intror Hret))
    as [[? _]|[(t & _ & Hc)|(act & res & Hin & Ha & Hce)]]; [discriminate| |].
  - by destruct (ctx_err_sentinel _ _ _ Hc).
  - apply call_error_sentinel in Hce as ->; [eauto|by left].
Qed.

Lemma queue_delay_cause s i it :
  reachable s → items s !! i = Some it → submitter it = Returned (Err ErrQueueDelay) →
  (state it = stateExpired ∧ queueExpiry it <= clock s) ∨ ∃ act, (act, Err ErrQueueDelay) ∈ invoked s ∧ i ∈ act.
Proof.
  intros Hs%reachable_explained Hi Hret.
  destruct (explained_items _ Hs i it ErrQueueDelay Hi (or_intror Hret))
    as [(_ & ? & ?)|[(t & _ & Hc)|(act & res & Hin & Ha & Hce)]]; [by left| |].
  - by destruct (ctx_err_sentinel _ _ _ Hc).
  - apply call_error_sentinel in Hce as ->; [eauto|by right].
Qed.

(** A caller whose item is in no handler call gets no value, and only the
    error of the queue or of its context. *)
Lemma undispatched_outcome s i it x :
  reachable s → items s !! i = Some it → (i ∉ history s) → submitter it = Returned x →
  x = Err ErrQueueDelay ∨ ∃ e t, x = Err e ∧ t <= clock s ∧ ctx_err (ctx it) t = Some e.
Proof.
  intros Hr Hi Hni Hret. unfold history in Hni. rewrite elem_of_app in Hni.
  assert (∀ act res, (act, res) ∈ invoked s → i ∉ act) as Hno.
  { intros act res Hin Ha. apply Hni. left. apply list_elem_of_In, in_concat. exists act.
    split; apply list_elem_of_In; [|done]. by apply (list_elem_of_fmap_2 fst) in Hin. }
  destruct x as [v|e].
  - destruct (inv_values _ (reachable_inv _ Hr) i it v Hi (or_intror Hret)) as (act & rs & j & Hin & Hj & _).
    destruct (Hno _ _ Hin). by eapply list_elem_of_lookup_2.
  - destruct (explained_items _ (reachable_explained _ Hr) i it e Hi (or_intror Hret))
      as [(-> & _)|[(t & Ht & Hc)|(act & res & Hin & Ha & _)]]; [by left|right; by exists e, t|].
    by destruct (Hno _ _ Hin).
Qed.
End steps.
