(* ===== verification/SchedulerTimer.v ===== *)
(** * The collection timer of the scheduler

    What becomes of an item that the idle runner picks up alone, in every
    interleaving of the callers, the clock and the runner in which nothing
    else is submitted and the scheduler is not closed.  The runner keeps
    collecting until its timer fires; [collectionWait] puts that instant the
    guard time before the expiry of the item if more than the guard is left,
    and at the expiry itself otherwise. *)

From Stdlib Require Import ZArith Lia.
From stdpp Require Import prelude strings list.
From S2P Require Import Prelude GoContext Scheduler SchedulerInv SchedulerOutcomes.

#[local] Open Scope Z_scope.

Definition guard_of (maxDelay : Z) : Z := Z.max (Z.quot maxDelay 2) (50 * Microsecond).

Lemma collectionWait_spec md d now :
  collectionWait md d now =
    Z.max 0 (if guard_of md <? d - now then d - now - guard_of md else d - now).
Proof.
  unfold collectionWait, Until.
  replace (if md ÷ 2 <? 50 * Microsecond then 50 * Microsecond else md ÷ 2) with (guard_of md).
  2:{ unfold guard_of. case_if; bool_to_prop; lia. }
  rewrite Z.gtb_ltb. repeat case_if; bool_to_prop; lia.
Qed.

Section timer.
Context {T R : Type}.
Implicit Types (s : sched T R) (it : item T R).

(** The runner is idle, a batch may hold more than one item, and the queue
    holds one item, not expired. *)
Definition idle_with s (i : nat) it : Prop :=
  run s = NextQueued ∧ queue s = [i] ∧ closed s = false ∧ 2 <= maxBatch s ∧
  items s !! i = Some it ∧ state it = stateQueued ∧ ctx_err (ctx it) (clock s) = None ∧ clock s < queueExpiry it.

(** Nothing else is submitted and the scheduler is not closed. *)
Definition quiet (l : label T R) : bool :=
  match l with LSubmit _ _ _ | LClose => false | _ => true end.
(** The runner's timer is not served either. *)
Definition waiting (l : label T R) : bool :=
  quiet l && match l with LCollected => false | _ => true end.

Lemma quiet_closed l s s' :
  quiet l = true → step l s = Some s' →
  closed s' = closed s ∧ maxBatch s' = maxBatch s ∧ maxDelay s' = maxDelay s ∧ clock s <= clock s' ∧
  length (items s') = length (items s).
Proof.
  intros Hl Hst. destruct l; try done; simpl in Hst; clear Hl.
  1: case_if; [|done]; bool_to_prop; injection Hst as <-; simpl; split_and!; done || lia.
  1-5: unfold at_item in Hst; destruct (items s !! i); [|done]; simpl in Hst;
    match type of Hst with (?f ≫= _) = _ => destruct f; [|done] end; injection Hst as <-; simpl;
    rewrite length_insert; split_and!; done || lia.
  1: unfold run_receive, nextQueued, collect, turn_end, dispatch in Hst; destruct (run s); try done; [|case_if; [|done]];
    (destruct (queue s) as [|j q]; [|destruct (items s !! j); [|done]; simpl in Hst];
     repeat case_match; simplify_eq/=; split_and!; done || lia).
  1: unfold run_collected, dispatch in Hst; repeat (case_match; try done); simplify_eq/=; split_and!; done || lia.
  1: unfold run_admit_item, cas_expired in Hst; destruct (run s) as [| |[|j todo] now act o| | | |]; try done;
    destruct (items s !! j); [|done]; simpl in Hst; repeat case_match; simplify_eq/=; rewrite ?length_insert;
    split_and!; done || lia.
  1: unfold run_reject in Hst; destruct (run s); try done; destruct (send _ _ s) as [s1|] eqn:Hs; [|done];
    apply send_inv_item in Hs as (it & _ & _ & ->); injection Hst as <-; simpl; rewrite length_insert; split_and!; done || lia.
  1: unfold run_invoke, turn_end in Hst; repeat (case_match; try done); simplify_eq/=; split_and!; done || lia.
  1: unfold run_handled in Hst; case_match; try done; injection Hst as <-; simpl; split_and!; done || lia.
  unfold run_reply, turn_end in Hst. destruct (run s) as [| | | | |[|[j x] todo] o|]; try done.
  - destruct o; injection Hst as <-; simpl; split_and!; done || lia.
  - destruct (items s !! j); [|done]. simpl in Hst. destruct (send _ _ s) as [s1|] eqn:Hs; [|done].
    apply send_inv_item in Hs as (it & _ & _ & ->). injection Hst as <-. simpl. rewrite length_insert. split_and!; done || lia.
Qed.

(** *** What callers do to an item *)

(** A caller takes an item from the runner only when it is due, or when its
    context has ended. *)
Definition given_up s it it' : Prop :=
  state it' = stateExpired ∧ (queueExpiry it <= clock s ∨ ctx_err (ctx it) (clock s) ≠ None).

Definition caller_label (l : label T R) : bool :=
  match l with LReply _ | LDispatched _ | LTimer _ | LCtx _ | LDone _ => true | _ => false end.

Lemma caller_item l s s' i it :
  caller_label l = true → step l s = Some s' → items s !! i = Some it →
  run s' = run s ∧ queue s' = queue s ∧ clock s' = clock s ∧
  ∃ it', items s' !! i = Some it' ∧ keeps it it' ∧ (state it' = state it ∨ given_up s it it').
Proof.
  intros Hl Hst Hi.
  assert (∀ j f, at_item s j f = Some s' →
    (∀ it', f it = Some it' → keeps it it' ∧ (state it' = state it ∨ given_up s it it')) →
    run s' = run s ∧ queue s' = queue s ∧ clock s' = clock s ∧
    ∃ it', items s' !! i = Some it' ∧ keeps it it' ∧ (state it' = state it ∨ given_up s it it')) as Hat.
  { intros j f Hf H. unfold at_item in Hf. destruct (items s !! j) as [jt|] eqn:Hj; [|done]. simpl in Hf.
    destruct (f jt) as [jt'|] eqn:Hjt; [|done]. injection Hf as <-. split_and!; [done..|]. simpl.
    destruct (decide (i = j)) as [<-|Hne].
    - exists jt'. rewrite list_lookup_insert_eq by (by eapply lookup_lt_Some). simplify_eq. by split; [|apply H].
    - exists it. rewrite list_lookup_insert_ne by done. by split_and!; [|split_and!|left]. }
  destruct l; try done; simpl in Hst; eapply Hat; try exact Hst; clear; intros it' Hf;
    unfold on_reply, on_dispatched, on_timer, on_ctx_done, on_done, cas_expired in Hf; item_cases; simplify_eq/=;
    unfold keeps, given_up; simpl; (split; [split_and!; first [done|congruence]|]);
    first [left; done | right; split; [done|]; bool_to_prop; first [left; done|right; congruence]].
Qed.

(** ** With the guard or less left *)

Section late.
Context (i : nat) (E : Z).

Record lonely s : Prop := mkLonely {
  lonely_open : closed s = false;
  lonely_batch : 2 <= maxBatch s;
  lonely_late : E - clock s <= guard_of (maxDelay s);
  lonely_item : ∃ it, items s !! i = Some it ∧ queueExpiry it = E ∧ state it ≠ stateDispatched;
  lonely_run :
    match run s with
    | NextQueued => queue s = [i] ∨ queue s = []
    | Collecting b _ timer => queue s = [] ∧ b = [i] ∧ E <= timer
    | Dispatching todo now act open =>
        queue s = [] ∧ (todo = [] ∨ todo = [i] ∧ E <= now) ∧ act = [] ∧ open = true
    | Rejecting j _ todo _ act open => queue s = [] ∧ j = i ∧ todo = [] ∧ act = [] ∧ open = true
    | _ => False
    end;
}.

Lemma lonely_step s s' :
  lonely s → closed s' = closed s ∧ maxBatch s' = maxBatch s ∧ maxDelay s' = maxDelay s ∧ clock s <= clock s' ∧
  length (items s') = length (items s) →
  (∃ it, items s' !! i = Some it ∧ queueExpiry it = E ∧ state it ≠ stateDispatched) →
  match run s' with
  | NextQueued => queue s' = [i] ∨ queue s' = []
  | Collecting b _ timer => queue s' = [] ∧ b = [i] ∧ E <= timer
  | Dispatching todo now act open =>
      queue s' = [] ∧ (todo = [] ∨ todo = [i] ∧ E <= now) ∧ act = [] ∧ open = true
  | Rejecting j _ todo _ act open => queue s' = [] ∧ j = i ∧ todo = [] ∧ act = [] ∧ open = true
  | _ => False
  end → lonely s'.
Proof. intros [] (Hc & Hb & Hd & Ht & _) Hit Hr. split; rewrite ?Hc, ?Hb, ?Hd; done || lia. Qed.

Lemma lonely_admit s s' : lonely s → run_admit_item s = Some s' → quiet LAdmitItem = true → lonely s'.
Proof.
  intros Hs Hst Hq. pose proof (quiet_closed LAdmitItem s s' Hq Hst) as Hsame. destruct Hs as [Ho Hb Hl Hi Hr] eqn:E0.
  pose proof (lonely_step s s' Hs Hsame) as Hnew. clear E0. unfold run_admit_item in Hst.
  destruct (run s) as [| |[|j todo] now act open| | | |] eqn:Hrun; try done.
  destruct Hr as (Hqu & [?|[[= -> ->] Hnow]] & -> & ->); [done|]. destruct Hi as (it & Hi & HE & Hnd).
  rewrite Hi in Hst. simpl in Hst. unfold cas_expired in Hst. pose proof (lookup_lt_Some _ _ _ Hi) as Hlt.
  rewrite (proj2 (Z.leb_le _ _)) in Hst by lia.
  assert (∀ e, Some (let '(it', swapped) := cas_expired it in
            with_run (with_items s (<[i:=it']> (items s)))
              (if swapped then Rejecting i e [] now [] true else Dispatching [] now [] true)) = Some s' → lonely s') as Hrej.
  { intros e. unfold cas_expired. destruct (state it) eqn:Hs1; [|done|]; intros [= <-]; apply Hnew; simpl.
    - exists (set_state stateExpired it). by rewrite list_lookup_insert_eq.
    - done.
    - exists it. rewrite list_lookup_insert_eq by done. by rewrite Hs1.
    - by split_and!; [|left|..]. }
  destruct (ctx_err (ctx it) (clock s)); by eapply Hrej.
Qed.

Lemma lonely_quiet l s s' : lonely s → quiet l = true → step l s = Some s' → lonely s'.
Proof.
  intros Hs Hq Hst. pose proof (quiet_closed l s s' Hq Hst) as Hsame.
  pose proof (lonely_step s s' Hs Hsame) as Hnew. destruct Hs as [Ho Hb Hl Hi Hr] eqn:E0. clear E0.
  destruct (caller_label l) eqn:Hcl.
  { destruct Hi as (it & Hi & HE & Hnd). destruct (caller_item l s s' i it Hcl Hst Hi) as (Hrun & Hqu & Hck & it' & Hi' & Hk & Hs').
    rewrite <- Hrun, <- Hqu in Hr. apply Hnew; [|done]. exists it'. split_and!; [done|by rewrite (proj1 (proj2 Hk))|].
    destruct Hs' as [->|[-> _]]; done. }
  destruct l; try done; simpl in Hst; clear Hcl.
  - case_if; [|done]. injection Hst as <-. by apply Hnew.
  - unfold run_receive, nextQueued, collect in Hst. destruct Hi as (it & Hi & HE & Hnd).
    destruct (run s) as [|b d tm| | | | |] eqn:Hrun; try done.
    + destruct Hr as [Hqu|Hqu]; rewrite Hqu in Hst; [|by rewrite Ho in Hst].
      rewrite Hi in Hst. simpl in Hst. case_decide; injection Hst as <-; apply Hnew; simpl; rewrite ?Hrun; eauto.
      split_and!; [done|done|]. rewrite HE, collectionWait_spec. case_if; bool_to_prop; lia.
    + destruct Hr as (Hqu & -> & _). rewrite Hqu, Ho in Hst. by case_if.
  - unfold run_collected in Hst. destruct (run s) as [|b d tm| | | | |] eqn:Hrun; try done.
    destruct Hr as (Hqu & -> & Htm). rewrite (proj2 (Z.leb_gt _ _)) in Hst by (simpl; lia). simpl in Hst.
    case_if; [|done]. bool_to_prop. injection Hst as <-. apply Hnew; [done|]. simpl.
    split_and!; [done|right; split; [done|lia]|done|done].
  - by apply (lonely_admit s).
  - unfold run_reject in Hst. destruct (run s) as [| | |j e todo now act open| | |] eqn:Hrun; try done.
    destruct Hr as (Hqu & -> & -> & -> & ->). destruct (send i (Err e) s) as [s1|] eqn:Hsend; [|done].
    apply send_inv_item in Hsend as (jt & Hj & Hrep & ->). injection Hst as <-. destruct Hi as (it & Hi & HE & Hnd).
    apply Hnew; simpl; [|by split_and!; [|left|..]]. exists (set_reply (Some (Err e)) jt).
    rewrite list_lookup_insert_eq by (by eapply lookup_lt_Some). simplify_eq. done.
  - unfold run_invoke in Hst. destruct (run s) as [| |[|j todo] now act open| | | |] eqn:Hrun; try done.
    destruct Hr as (Hqu & _ & -> & ->). rewrite decide_True in Hst by done. injection Hst as <-.
    apply Hnew; [done|]. simpl. by right.
  - unfold run_handled in Hst. by destruct (run s).
  - unfold run_reply in Hst. by destruct (run s).
Qed.

Lemma lonely_steps ls s s' : lonely s → forallb quiet ls = true → steps ls s = Some s' → lonely s'.
Proof.
  revert s. induction ls as [|l ls IH]; intros s Hs Hq Hst; simpl in *; [by simplify_eq|].
  apply andb_true_iff in Hq as [Hl Hq]. destruct (step l s) as [s1|] eqn:H1; [|done]. simpl in Hst.
  eapply IH; [|done|done]. by eapply lonely_quiet.
Qed.
End late.

Lemma idle_lonely s i it :
  idle_with s i it → queueExpiry it - clock s <= guard_of (maxDelay s) → lonely i (queueExpiry it) s.
Proof.
  intros (Hr & Hq & Hc & Hb & Hi & Hst & _ & _) Hg. split; try done; [|rewrite Hr; by left].
  exists it. by rewrite Hst.
Qed.

(** ** With more than the guard left *)

Section timely.
Context (i : nat) (c : Context) (E tm : Z).

Record collecting_alone s : Prop := mkAlone {
  alone_run : run s = Collecting [i] E tm;
  alone_queue : queue s = [] ∧ closed s = false ∧ 2 <= maxBatch s;
  alone_item : ∃ it, items s !! i = Some it ∧ queueExpiry it = E ∧ ctx it = c ∧
    (state it = stateQueued ∨ E <= clock s ∨ ctx_err c (clock s) ≠ None);
}.

Lemma alone_waiting l s s' : collecting_alone s → waiting l = true → step l s = Some s' → collecting_alone s'.
Proof.
  intros [Hr (Hqu & Ho & Hb) (it & Hi & HE & Hcx & Hsta)] [Hq Hw]%andb_true_iff Hst.
  pose proof (quiet_closed l s s' Hq Hst) as (Hc' & Hb' & Hd' & Ht' & Hl').
  assert (∀ it', keeps it it' → (state it' = state it ∨ given_up s it it') →
    state it' = stateQueued ∨ E <= clock s' ∨ ctx_err c (clock s') ≠ None) as Hkeep.
  { intros it' Hk [Hs'|[_ Hgu]]; [rewrite Hs'; destruct Hsta as [|[|Herr]]|]; [by left|right; left; lia| |].
    - right; right. by eapply ctx_err_mono.
    - rewrite HE, Hcx in Hgu. destruct Hgu as [|Herr]; [right; left; lia|right; right; by eapply ctx_err_mono]. }
  destruct (caller_label l) eqn:Hcl.
  { destruct (caller_item l s s' i it Hcl Hst Hi) as (Hrun & Hqu' & Hck & it' & Hi' & Hk & Hs').
    split; [by rewrite Hrun|by rewrite Hqu', Hc', Hb'|]. exists it'. destruct Hk as (Hk1 & Hk2 & Hk3).
    split_and!; [done|congruence|congruence|]. by apply Hkeep. }
  destruct l; try done; simpl in Hst; clear Hcl;
    try (unfold run_admit_item, run_reject, run_invoke, run_handled, run_reply in Hst; by rewrite Hr in Hst).
  - case_if; [|done]. injection Hst as <-. split; [done|done|]. exists it. split_and!; [done..|].
    apply Hkeep; [by split_and!|by left].
  - unfold run_receive, collect in Hst. rewrite Hr, Hqu, Ho in Hst. by case_if.
Qed.

Lemma alone_steps ls s s' :
  collecting_alone s → forallb waiting ls = true → steps ls s = Some s' → collecting_alone s'.
Proof.
  revert s. induction ls as [|l ls IH]; intros s Hs Hq Hst; simpl in *; [by simplify_eq|].
  apply andb_true_iff in Hq as [Hl Hq]. destruct (step l s) as [s1|] eqn:H1; [|done]. simpl in Hst.
  eapply IH; [|done|done]. by eapply alone_waiting.
Qed.

(** The timer is served before the expiry: the item is dispatched. *)
Lemma alone_dispatched s s' :
  collecting_alone s → step LCollected s = Some s' → clock s < E → ctx_err c (clock s) = None →
  ∃ s'' it, step LAdmitItem s' = Some s'' ∧ items s !! i = Some it ∧ items s'' !! i = Some (set_dispatched it) ∧
            run s'' = Dispatching [] (clock s) [i] true.
Proof.
  intros [Hr (Hqu & Ho & Hb) (it & Hi & HE & Hcx & Hsta)] Hst Hlt Hctx. simpl in Hst. unfold run_collected in Hst.
  rewrite Hr in Hst. case_if; [|done]. injection Hst as <-. simpl. unfold run_admit_item. simpl. rewrite Hi. simpl.
  rewrite Hcx, Hctx, HE, (proj2 (Z.leb_gt _ _)), decide_True by (done || lia || naive_solver lia).
  eexists _, it. split_and!; [done|done| |done]. simpl. apply list_lookup_insert_eq. by eapply lookup_lt_Some.
Qed.
End timely.

Lemma idle_alone s i it s' :
  idle_with s i it → guard_of (maxDelay s) < queueExpiry it - clock s → step LReceive s = Some s' →
  collecting_alone i (ctx it) (queueExpiry it) (queueExpiry it - guard_of (maxDelay s)) s'.
Proof.
  intros (Hr & Hq & Hc & Hb & Hi & Hst & _ & _) Hg Hstep. simpl in Hstep. unfold run_receive, nextQueued in Hstep.
  rewrite Hr, Hq, Hi in Hstep. simpl in Hstep. rewrite decide_True in Hstep by done. injection Hstep as <-.
  split; simpl; [|done|by exists it; split_and!; [..|left]]. f_equal. rewrite collectionWait_spec, (proj2 (Z.ltb_lt _ _)) by lia. lia.
Qed.
End timer.
