(* ===== verification/SchedulerMetrics.v ===== *)
(** * The counters of the scheduler

    Cumulative histograms as functions of the observed values, which the
    gateway and the worker use too, and the exported counters of the scheduler
    as functions of its execution: the queue counters of the waits of the
    items it dispatched, the batch counters of the sizes of its handler
    calls. *)

From Stdlib Require Import ZArith Lia.
From stdpp Require Import prelude strings list.
From S2P Require Import Prelude GoContext Scheduler SchedulerInv SchedulerOutcomes.

#[local] Open Scope Z_scope.

(** ** Sums and histograms *)

Definition total (l : list Z) : Z := foldr Z.add 0 l.

Lemma wrap64_total x l : wrap64 (wrap64 (total l) + x) = wrap64 (total (x :: l)).
Proof. rewrite wrap64_add_l. f_equal. simpl. lia. Qed.

#[export] Instance total_Permutation : Proper ((≡ₚ) ==> (=)) total.
Proof. induction 1; simpl; lia. Qed.

(** The cumulative histogram of the values [ds], over [bounds] and infinity. *)
Definition bucket_counts (bounds ds : list Z) : list Z :=
  ((λ b, wrap64 (Z.of_nat (length (filter (λ d, d <= b) ds)))) <$> bounds) ++ [wrap64 (Z.of_nat (length ds))].

Lemma bucket_counts_cons bounds d ds :
  add_buckets bounds (bucket_counts bounds ds) d = bucket_counts bounds (d :: ds).
Proof.
  unfold bucket_counts. induction bounds as [|b bounds IH]; [simpl; by rewrite wrap64_succ|].
  rewrite !fmap_cons, <- !app_comm_cons. cbn [add_buckets]. rewrite IH. f_equal. rewrite filter_cons.
  destruct (Z.leb_spec d b); case_decide; try lia. by rewrite wrap64_succ.
Qed.

#[export] Instance bucket_counts_Permutation bounds : Proper ((≡ₚ) ==> (=)) (bucket_counts bounds).
Proof.
  intros l l' Hp. unfold bucket_counts. f_equal; [|by rewrite Hp]. apply list_fmap_ext. intros _ b _. by rewrite Hp.
Qed.

#[global] Arguments total : simpl never.
#[global] Arguments bucket_counts : simpl never.

(** ** The scheduler *)

(** The counters after items that waited [ws] and calls of the sizes [bs]. *)
Definition metrics_of (ws bs : list Z) : Metrics :=
  mkMetrics (wrap64 (Z.of_nat (length ws))) (wrap64 (total ws)) (bucket_counts queueBounds ws)
    (wrap64 (Z.of_nat (length bs))) (wrap64 (total bs)) (bucket_counts batchBounds bs).

Lemma metrics_of_queue d ws bs : observeQueue d (metrics_of ws bs) = metrics_of (ws ++ [Z.max 0 d]) bs.
Proof.
  unfold observeQueue. replace (if d <? 0 then 0 else d) with (Z.max 0 d) by (case_if; bool_to_prop; lia).
  unfold metrics_of. rewrite <- Permutation_cons_append, <- bucket_counts_cons, <- wrap64_total.
  cbn [QueueCount QueueNanos QueueBuckets BatchCount BatchItems BatchBuckets length]. by rewrite wrap64_succ.
Qed.

Lemma metrics_of_batch n ws bs : observeBatch n (metrics_of ws bs) = metrics_of ws (bs ++ [n]).
Proof.
  unfold observeBatch, metrics_of. rewrite <- Permutation_cons_append, <- bucket_counts_cons, <- wrap64_total.
  cbn [QueueCount QueueNanos QueueBuckets BatchCount BatchItems BatchBuckets length]. by rewrite wrap64_succ.
Qed.

Section metrics.
Context {T R : Type}.
Implicit Types (s : sched T R).

(** The handler calls, the one in progress last. *)
Definition in_handler s : list (list nat) :=
  match run s with Handling act _ _ => [act] | _ => [] end.
Definition calls s : list (list nat) := (invoked s).*1 ++ in_handler s.
Definition sizes s : list Z := (λ act : list nat, Z.of_nat (length act)) <$> calls s.

(** How long the items that a step dispatched have waited: from their
    submission, [maxDelay] before their expiry, to the instant of the
    dispatch. *)
Definition waits_of s s' : list Z :=
  omap (λ i, it ← items s' !! i; now ← dispatch_time (run s');
             Some (Z.max 0 (now - (queueExpiry it - maxDelay s'))))
    (drop (length (history s)) (history s')).

(** The waits of all items dispatched in an execution, oldest first. *)
Fixpoint queue_waits (ls : list (label T R)) s : list Z :=
  match ls with
  | [] => []
  | l :: ls => match step l s with
               | Some s' => waits_of s s' ++ queue_waits ls s'
               | None => []
               end
  end.

Definition counted (ws : list Z) s : Prop :=
  metrics s = metrics_of ws (sizes s) ∧ length ws = length (history s).

Lemma counted_frame s s' ws :
  counted ws s → metrics s' = metrics s → history s' = history s → calls s' = calls s →
  counted (ws ++ waits_of s s') s'.
Proof.
  intros [Hm Hl] Em Hh Ec. unfold counted, sizes, waits_of. rewrite Em, Ec, Hh, drop_all. simpl.
  by rewrite app_nil_r.
Qed.

Lemma send_frame s s' i (x : result R) :
  send i x s = Some s' → metrics s' = metrics s ∧ invoked s' = invoked s ∧ run s' = run s.
Proof. unfold send. destruct (items s !! i); [|done]. simpl. case_match; [done|]. by intros [= <-]. Qed.

Ltac frame Hc Hr := apply (counted_frame _ _ _ Hc); unfold calls, in_handler, history; simpl; rewrite ?Hr; done.

Lemma admit_counted ws s s' : counted ws s → run_admit_item s = Some s' → counted (ws ++ waits_of s s') s'.
Proof.
  intros Hc. unfold run_admit_item. destruct (run s) as [| |[|i todo] now act o| | | |] eqn:Hr; try done.
  destruct (items s !! i) as [it|] eqn:Hi; [|done]. simpl. unfold cas_expired.
  repeat case_match; intros Hs'; simplify_eq; try frame Hc Hr.
  destruct Hc as [Hm Hl]. unfold counted, waits_of, sizes, calls, in_handler, history in *. rewrite Hr in *. simpl in *.
  rewrite app_assoc, drop_app_length. simpl.
  rewrite list_lookup_insert_eq by (by eapply lookup_lt_Some). simpl.
  rewrite Hm, metrics_of_queue. rewrite !length_app in *. simpl in *. split; [|lia]. do 3 f_equal.
Qed.

Lemma invoke_counted ws s s' : counted ws s → run_invoke s = Some s' → counted (ws ++ waits_of s s') s'.
Proof.
  intros Hc. unfold run_invoke, turn_end. destruct (run s) as [| |[|i todo] now act o| | | |] eqn:Hr; try done.
  case_decide as Ha; [subst act; destruct o; intros [= <-]; frame Hc Hr|]. intros [= <-].
  destruct Hc as [Hm Hl]. unfold counted, waits_of, sizes, calls, in_handler, history in *. rewrite Hr in *. simpl in *.
  rewrite drop_all. simpl. rewrite !app_nil_r in *. rewrite Hm, metrics_of_batch. split; [|done].
  by rewrite fmap_app.
Qed.

Lemma step_counted l ws s s' : counted ws s → step l s = Some s' → counted (ws ++ waits_of s s') s'.
Proof.
  intros Hc. destruct l; simpl.
  1: case_if; [|done]; intros [= <-]; frame Hc Hc.
  1: case_if; [|done]; unfold enqueue; repeat case_match; intros [= <-]; frame Hc Hc.
  1: unfold Close; case_if; intros [= <-]; frame Hc Hc.
  1-5: unfold at_item; destruct (items s !! i) as [it|]; [|done]; simpl;
    match goal with |- (?f ≫= _) = _ → _ => destruct f; [|done] end; intros [= <-]; frame Hc Hc.
  - unfold run_receive, nextQueued, collect, turn_end, dispatch.
    destruct (run s) as [|b d tm| | | | |] eqn:Hr; try done; [|case_if; [|done]];
      (destruct (queue s) as [|i q] eqn:Hq; [|destruct (items s !! i); [|done]; simpl];
       repeat case_match; intros; simplify_eq; frame Hc Hr).
  - unfold run_collected, dispatch. destruct (run s) as [|b d tm| | | | |] eqn:Hr; try done. case_if; [|done].
    intros [= <-]. frame Hc Hr.
  - by apply admit_counted.
  - unfold run_reject. destruct (run s) as [| | |i e todo now act o| | |] eqn:Hr; try done.
    destruct (send i (Err e) s) as [s1|] eqn:Hs; [|done]. intros [= <-]. apply send_frame in Hs as (Hm & Hinv & Hrun).
    apply (counted_frame _ _ _ Hc); unfold calls, in_handler, history; simpl; rewrite ?Hr, ?Hinv; done.
  - by apply invoke_counted.
  - unfold run_handled. destruct (run s) as [| | | |act c o| |] eqn:Hr; try done. intros [= <-].
    apply (counted_frame _ _ _ Hc); unfold calls, in_handler, history; simpl; rewrite ?Hr; [done|..];
      rewrite fmap_app; simpl; rewrite ?concat_app; simpl; by rewrite ?app_nil_r.
  - unfold run_reply, turn_end. destruct (run s) as [| | | | |[|[i x] todo] o|] eqn:Hr; try done.
    + destruct o; intros [= <-]; frame Hc Hr.
    + destruct (items s !! i) as [it|]; [|done]. simpl. destruct (send _ _ s) as [s1|] eqn:Hs; [|done].
      intros [= <-]. apply send_frame in Hs as (Hm & Hinv & Hrun).
      apply (counted_frame _ _ _ Hc); unfold calls, in_handler, history; simpl; rewrite ?Hr, ?Hinv; done.
Qed.

Lemma steps_counted ls ws s s' : counted ws s → steps ls s = Some s' → counted (ws ++ queue_waits ls s) s'.
Proof.
  revert ws s. induction ls as [|l ls IH]; intros ws s Hc; simpl; [intros [= <-]; by rewrite app_nil_r|].
  destruct (step l s) as [s1|] eqn:Hl; [|done]. simpl. intros Hs. rewrite app_assoc.
  eapply IH; [|done]. by eapply step_counted.
Qed.

Lemma New_counted q b d now s : New q b d true now = Ok s → counted [] s.
Proof. unfold New. case_if; [done|]. by intros [= <-]. Qed.

(** *** When items were submitted *)

(** The instants at which the items of an execution were submitted, in the
    order of the items; a submission that was not admitted makes no item. *)
Definition admitted_at (l : label T R) s s' : list Z :=
  match l with
  | LSubmit _ _ created => if decide (length (items s') = length (items s)) then [] else [created]
  | _ => []
  end.
Fixpoint submissions (ls : list (label T R)) s : list Z :=
  match ls with
  | [] => []
  | l :: ls => match step l s with
               | Some s' => admitted_at l s s' ++ submissions ls s'
               | None => []
               end
  end.

(** An item expires [maxDelay] after its submission. *)
Definition timed (subs : list Z) s : Prop := queueExpiry <$> items s = (λ t, t + maxDelay s) <$> subs.

Lemma timed_same subs s s' :
  timed subs s → items s' = items s → maxDelay s' = maxDelay s → timed subs s'.
Proof. unfold timed. by intros ? -> ->. Qed.

Lemma timed_insert subs s s' i it it' :
  timed subs s → items s !! i = Some it → items s' = <[i := it']> (items s) → queueExpiry it' = queueExpiry it →
  maxDelay s' = maxDelay s → timed subs s'.
Proof.
  unfold timed. intros Ht Hi -> Hq ->. rewrite list_fmap_insert, Hq, <- Ht. apply list_insert_id.
  by rewrite list_lookup_fmap, Hi.
Qed.

Lemma timed_at_item subs s s' i f :
  timed subs s → (∀ it it', f it = Some it' → queueExpiry it' = queueExpiry it) → at_item s i f = Some s' → timed subs s'.
Proof.
  intros Ht Hf. unfold at_item. destruct (items s !! i) as [it|] eqn:Hi; [|done]. simpl.
  destruct (f it) as [it'|] eqn:E; [|done]. intros [= <-]. by eapply timed_insert; [..|apply Hf|].
Qed.

Lemma timed_runner subs l s s' :
  timed subs s → match l with LReceive | LCollected | LAdmitItem | LReject | LInvoke | LHandled _ | LRunReply => True | _ => False end →
  step l s = Some s' → timed subs s'.
Proof.
  intros Ht Hl. destruct l; try done; simpl; clear Hl.
  - unfold run_receive, nextQueued, collect, turn_end, dispatch.
    destruct (run s) as [|b d tm| | | | |]; try done; [|case_if; [|done]];
      (destruct (queue s) as [|i q]; [|destruct (items s !! i); [|done]; simpl];
       repeat case_match; intros; simplify_eq; by apply (timed_same subs s)).
  - unfold run_collected, dispatch. repeat (case_match; try done). intros [= <-]. by apply (timed_same subs s).
  - unfold run_admit_item, cas_expired. destruct (run s) as [| |[|i todo] now act o| | | |]; try done.
    destruct (items s !! i) as [it|] eqn:Hi; [|done]. simpl.
    repeat case_match; intros; simplify_eq;
      first [by apply (timed_same subs s) | by eapply (timed_insert subs s); [done|exact Hi|reflexivity|..]].
  - unfold run_reject. destruct (run s) as [| | |i e todo now act o| | |]; try done.
    destruct (send i (Err e) s) as [s1|] eqn:Hs; [|done]. intros [= <-].
    apply send_inv_item in Hs as (it & Hi & _ & ->). by eapply (timed_insert subs s); [done|exact Hi|reflexivity|..].
  - unfold run_invoke, turn_end. repeat (case_match; try done); intros [= <-]; by apply (timed_same subs s).
  - unfold run_handled. case_match; try done. intros [= <-]. by apply (timed_same subs s).
  - unfold run_reply, turn_end. destruct (run s) as [| | | | |[|[i x] todo] o|]; try done.
    + destruct o; intros [= <-]; by apply (timed_same subs s).
    + destruct (items s !! i) as [it|]; [|done]. simpl. destruct (send _ _ s) as [s1|] eqn:Hs; [|done].
      intros [= <-]. apply send_inv_item in Hs as (jt & Hj & _ & ->).
      by eapply (timed_insert subs s); [done|exact Hj|reflexivity|..].
Qed.

Lemma step_timed subs l s s' : timed subs s → step l s = Some s' → timed (subs ++ admitted_at l s s') s'.
Proof.
  intros Ht Hst. destruct l; cbn [admitted_at]; rewrite ?app_nil_r;
    try (by eapply (timed_runner subs _ s); [..|exact Hst]); simpl in Hst.
  - case_if; [|done]. injection Hst as <-. by apply (timed_same subs s).
  - destruct (created <=? clock s); [|done]. injection Hst as <-. unfold enqueue.
    assert (timed (subs ++ if decide (length (items s) = length (items s)) then [] else [created]) s) as Hsame
      by by rewrite decide_True, app_nil_r.
    destruct (ctx_err c created); [done|]. destruct (closed s); [done|]. destruct (_ <? _); [|done]. simpl.
    rewrite decide_False by (rewrite length_app; simpl; lia). unfold timed in *. simpl. by rewrite !fmap_app, Ht.
  - injection Hst as <-. unfold Close. case_if; [done|]. by apply (timed_same subs s).
  - eapply timed_at_item; [done| |exact Hst]. unfold on_reply. intros it it' ?. by repeat (case_match; try done); simplify_eq.
  - eapply timed_at_item; [done| |exact Hst]. unfold on_dispatched. intros it it' ?. by repeat (case_match; try done); simplify_eq.
  - eapply timed_at_item; [done| |exact Hst]. unfold on_timer, cas_expired. intros it it' ?. by repeat (case_match; try done); simplify_eq.
  - eapply timed_at_item; [done| |exact Hst]. unfold on_ctx_done, cas_expired. intros it it' ?. by repeat (case_match; try done); simplify_eq.
  - eapply timed_at_item; [done| |exact Hst]. unfold on_done. intros it it' ?. by repeat (case_match; try done); simplify_eq.
Qed.

Lemma steps_timed ls subs s s' : timed subs s → steps ls s = Some s' → timed (subs ++ submissions ls s) s'.
Proof.
  revert subs s. induction ls as [|l ls IH]; intros subs s Ht; simpl; [intros [= <-]; by rewrite app_nil_r|].
  destruct (step l s) as [s1|] eqn:Hl; [|done]. simpl. intros Hs. rewrite app_assoc.
  eapply IH; [|done]. by eapply step_timed.
Qed.

Lemma New_timed q b d now s : New q b d true now = Ok s → timed [] s.
Proof. unfold New. case_if; [done|]. by intros [= <-]. Qed.

Lemma total_lengths (ls : list (list nat)) :
  total ((λ act : list nat, Z.of_nat (length act)) <$> ls) = Z.of_nat (length (concat ls)).
Proof.
  induction ls as [|l ls IH]; [done|]. rewrite fmap_cons. unfold total in *.
  cbn [foldr concat]. rewrite IH, length_app. lia.
Qed.

(** Outside a dispatch every dispatched item has been passed to a handler. *)
Lemma total_sizes s : being_dispatched (run s) = [] → total (sizes s) = Z.of_nat (length (history s)).
Proof.
  intros Hb. unfold sizes. rewrite total_lengths. unfold calls, history, in_handler. rewrite concat_app, Hb.
  destruct (run s); simpl in *; subst; simpl; by rewrite ?app_nil_r.
Qed.
End metrics.
