(* ===== verification/SchedulerValues.v ===== *)
(** * The values of scheduled items

    What a caller submitted is what the handler is given for it: no step of
    the scheduler changes the value of an item, and the history of handler
    calls grows only when a call returns.  [served φ] is the consequence: if
    every handler call relates its results to the values it was given by [φ],
    every caller's value and result are related. *)

From Stdlib Require Import ZArith Lia.
From stdpp Require Import prelude strings list.
From S2P Require Import Prelude GoContext Scheduler SchedulerInv.

#[local] Open Scope Z_scope.

Section values.
Context {T R : Type}.
Implicit Types (s : sched T R) (it : item T R).

(** The values submitted so far. *)
Definition submitted s : list T := value <$> items s.

Definition keeps_values s s' : Prop := submitted s' = submitted s ∧ maxBatch s' = maxBatch s.

Lemma keeps_same s s' : items s' = items s → maxBatch s' = maxBatch s → keeps_values s s'.
Proof. unfold keeps_values, submitted. by intros -> ->. Qed.

Lemma keeps_insert s s' i it it' :
  items s !! i = Some it → items s' = <[i := it']> (items s) → value it' = value it →
  maxBatch s' = maxBatch s → keeps_values s s'.
Proof.
  intros Hi E Hv Hb. unfold keeps_values, submitted. rewrite E, list_fmap_insert, Hv. split; [|done].
  apply list_insert_id. by rewrite list_lookup_fmap, Hi.
Qed.

Lemma keeps_trans s1 s2 s3 : keeps_values s1 s2 → keeps_values s2 s3 → keeps_values s1 s3.
Proof. unfold keeps_values. intuition congruence. Qed.

Lemma cas_expired_value it : value (cas_expired it).1 = value it.
Proof. unfold cas_expired. by destruct (state it). Qed.

Lemma at_item_values s s' i f :
  (∀ it it', f it = Some it' → value it' = value it) →
  at_item s i f = Some s' → keeps_values s s' ∧ invoked s' = invoked s.
Proof.
  intros Hf. unfold at_item. destruct (items s !! i) as [it|] eqn:Hi; [|done]. simpl.
  destruct (f it) as [it'|] eqn:E; [|done]. intros [= <-]. split; [|done]. eapply keeps_insert; [exact Hi|done|by apply Hf|done].
Qed.

Lemma send_values s s' i (x : result R) : send i x s = Some s' → keeps_values s s' ∧ invoked s' = invoked s.
Proof.
  unfold send. destruct (items s !! i) as [it|] eqn:Hi; [|done]. simpl. case_match; [done|]. intros [= <-].
  split; [|done]. by eapply keeps_insert; [exact Hi|done| |].
Qed.

Lemma enqueue_values s c v created :
  (submitted (enqueue c v created s).1 = submitted s ∨ submitted (enqueue c v created s).1 = submitted s ++ [v]) ∧
  maxBatch (enqueue c v created s).1 = maxBatch s ∧ invoked (enqueue c v created s).1 = invoked s.
Proof.
  unfold enqueue, submitted. destruct (ctx_err c created); [by split; [left|]|].
  repeat case_if; (split; [|done]); [by left|right|by left]. simpl. by rewrite fmap_app.
Qed.

Lemma run_values l s s' :
  match l with LReceive | LCollected | LAdmitItem | LReject | LInvoke | LRunReply => True | _ => False end →
  step l s = Some s' → keeps_values s s' ∧ invoked s' = invoked s.
Proof.
  intros Hl. destruct l; try done; simpl; clear Hl.
  - unfold run_receive, nextQueued, collect, turn_end, dispatch.
    destruct (run s) as [|b d tm| | | | |]; try done; [|case_if; [|done]];
      (destruct (queue s) as [|i q]; [|destruct (items s !! i); [|done]; simpl];
       repeat case_match; intros; simplify_eq; (split; [by apply keeps_same|done])).
  - unfold run_collected, dispatch. repeat (case_match; try done). intros [= <-]. split; [by apply keeps_same|done].
  - unfold run_admit_item. destruct (run s) as [| |[|i todo] now act o| | | |]; try done.
    destruct (items s !! i) as [it|] eqn:Hi; [|done]. simpl.
    pose proof (cas_expired_value it) as Hc. destruct (cas_expired it) as [it' sw]. simpl in Hc.
    repeat case_match; intros [= <-]; (split; [|done]);
      first [by apply keeps_same | by eapply keeps_insert; [exact Hi|done| |]].
  - unfold run_reject. destruct (run s) as [| | |i e todo now act o| | |]; try done.
    destruct (send i (Err e) s) as [s1|] eqn:Hs; [|done]. intros [= <-]. apply send_values in Hs as [Hk Hi].
    split; [|done]. eapply keeps_trans; [exact Hk|by apply keeps_same].
  - unfold run_invoke, turn_end. repeat (case_match; try done); intros [= <-]; (split; [by apply keeps_same|done]).
  - unfold run_reply, turn_end. destruct (run s) as [| | | | |[|[i x] todo] o|]; try done.
    + destruct o; intros [= <-]; (split; [by apply keeps_same|done]).
    + destruct (items s !! i) as [it|]; [|done]. simpl. destruct (send _ _ s) as [s1|] eqn:Hs; [|done].
      intros [= <-]. apply send_values in Hs as [Hk Hi]. split; [|done].
      eapply keeps_trans; [exact Hk|by apply keeps_same].
Qed.

Lemma step_values l s s' :
  step l s = Some s' →
  match l with
  | LSubmit _ v _ => (submitted s' = submitted s ∨ submitted s' = submitted s ++ [v]) ∧
                     maxBatch s' = maxBatch s ∧ invoked s' = invoked s
  | LHandled res => keeps_values s s' ∧
                    ∃ act c open, run s = Handling act c open ∧ invoked s' = invoked s ++ [(act, res)]
  | _ => keeps_values s s' ∧ invoked s' = invoked s
  end.
Proof.
  destruct l; try by apply run_values.
  - simpl. case_if; [|done]. intros [= <-]. split; [by apply keeps_same|done].
  - simpl. case_if; [|done]. intros [= <-]. apply enqueue_values.
  - simpl. intros [= <-]. unfold Close. case_if; (split; [by apply keeps_same|done]).
  - apply at_item_values. unfold on_reply. intros it it' ?. by repeat (case_match; try done); simplify_eq.
  - apply at_item_values. unfold on_dispatched. intros it it' ?. by repeat (case_match; try done); simplify_eq.
  - apply at_item_values. unfold on_timer. intros it it' Ht. pose proof (cas_expired_value it) as Hc.
    destruct (cas_expired it). repeat (case_match; try done); by simplify_eq.
  - apply at_item_values. unfold on_ctx_done. intros it it' Ht. pose proof (cas_expired_value it) as Hc.
    repeat (case_match; try done); by simplify_eq.
  - apply at_item_values. unfold on_done. intros it it' ?. by repeat (case_match; try done); simplify_eq.
  - simpl. unfold run_handled. destruct (run s) as [| | | |act c o| |] eqn:Hr; try done. intros [= <-].
    split; [by apply keeps_same|]. by exists act, c, o.
Qed.

Lemma step_prefix l s s' : step l s = Some s' → submitted s `prefix_of` submitted s'.
Proof.
  intros Hst%step_values. destruct l; try (by rewrite (proj1 (proj1 Hst))).
  destruct Hst as [[->| ->] _]; [done|]. by eexists.
Qed.

Lemma step_maxBatch l s s' : step l s = Some s' → maxBatch s' = maxBatch s.
Proof. intros Hst%step_values. destruct l; first [exact (proj2 (proj1 Hst)) | exact (proj1 (proj2 Hst))]. Qed.

(** A predicate on values holds of every item if it holds of those submitted. *)
Lemma step_submitted (P : T → Prop) l s s' :
  step l s = Some s' → (∀ c v created, l = LSubmit c v created → P v) →
  Forall P (submitted s) → Forall P (submitted s').
Proof.
  intros Hst%step_values Hl Hs. destruct l; try (by rewrite (proj1 (proj1 Hst))).
  destruct Hst as [[->| ->] _]; [done|]. apply Forall_app. split; [done|]. constructor; [|done]. by eapply Hl.
Qed.

(** ** From the handler to the callers *)

(** Item [i] of the state [s] was submitted with a value related to [v]. *)
Definition answers (φ : T → R → Prop) s (i : nat) (v : R) : Prop :=
  ∃ x, submitted s !! i = Some x ∧ φ x v.
Definition served (φ : T → R → Prop) s : Prop :=
  ∀ act rs j i v, (act, Ok rs) ∈ invoked s → act !! j = Some i → rs !! j = Some v → length rs = length act →
    answers φ s i v.

Lemma values_of_submitted s act : values_of s act = omap (λ i, submitted s !! i) act.
Proof.
  apply list_omap_ext, Forall2_same_length_lookup. split; [done|].
  intros j i i' Hi Hi'. simplify_eq. unfold submitted. by rewrite list_lookup_fmap.
Qed.

Lemma Forall_values_of (P : T → Prop) s act : Forall P (submitted s) → Forall P (values_of s act).
Proof.
  intros Hs. rewrite values_of_submitted. induction act as [|i act IH]; [done|]. simpl.
  destruct (submitted s !! i) as [x|] eqn:Hx; [|done]. constructor; [exact (Forall_lookup_1 _ _ _ _ Hs Hx)|exact IH].
Qed.

Lemma values_of_lookup s act j i x :
  Forall (λ i, (i < length (items s))%nat) act → act !! j = Some i → values_of s act !! j = Some x →
  submitted s !! i = Some x.
Proof.
  intros Hb. revert j. induction Hb as [|k act Hk _ IH]; intros j; [done|].
  unfold values_of. simpl. destruct (lookup_lt_is_Some_2 _ _ Hk) as [it Hit]. rewrite Hit. simpl.
  destruct j as [|j]; simpl; [|apply IH]. intros [= <-] [= <-]. unfold submitted. by rewrite list_lookup_fmap, Hit.
Qed.

Lemma handling_bound s act c open :
  inv s → run s = Handling act c open → Forall (λ i, (i < length (items s))%nat) act.
Proof.
  intros Hs Hr. apply Forall_forall. intros i Hi. apply (inv_bound _ Hs).
  unfold places, held. rewrite Hr. simpl. by_elem.
Qed.

Lemma length_values_of s act :
  Forall (λ i, (i < length (items s))%nat) act → length (values_of s act) = length act.
Proof.
  induction 1 as [|k act Hk _ IH]; [done|]. unfold values_of in *. simpl.
  destruct (lookup_lt_is_Some_2 _ _ Hk) as [it ->]. simpl. f_equal. exact IH.
Qed.

Lemma answers_keep φ l s s' i v : step l s = Some s' → answers φ s i v → answers φ s' i v.
Proof. intros Hst (x & Hi & Hv). exists x. split; [|done]. eapply prefix_lookup_Some; [done|by eapply step_prefix]. Qed.

Lemma served_step φ l s s' :
  served φ s → step l s = Some s' → (∀ res, l ≠ LHandled res) → served φ s'.
Proof.
  intros Hs Hst Hl. assert (invoked s' = invoked s) as E.
  { apply step_values in Hst. destruct l; try apply Hst. by destruct (Hl res). }
  intros act rs j i v. rewrite E. intros. eapply answers_keep; [done|]. by eapply Hs.
Qed.

Lemma served_handled φ s s' act c open res :
  inv s → served φ s → run s = Handling act c open →
  (∀ rs, res = Ok rs → Forall2 φ (values_of s act) rs) → step (LHandled res) s = Some s' → served φ s'.
Proof.
  intros Hinv Hs Hr Hres Hst. pose proof Hst as (Hk & act' & c' & o' & Hr' & Hi)%step_values.
  rewrite Hr in Hr'. injection Hr' as <- <- <-. intros a rs j i v Hin Ha Hv Hl. eapply answers_keep; [done|].
  rewrite Hi in Hin. apply elem_of_app in Hin as [Hin|Hin]; [by eapply Hs|].
  apply list_elem_of_singleton in Hin as [= -> <-]. specialize (Hres _ eq_refl).
  apply Forall2_same_length_lookup in Hres as [Hlen Hall].
  destruct (lookup_lt_is_Some_2 (values_of s act) j) as [x Hx]; [rewrite Hlen; by eapply lookup_lt_Some|].
  exists x. split; [|by eapply Hall]. eapply values_of_lookup; [by eapply handling_bound|done..].
Qed.

Lemma served_returned φ s i it v :
  inv s → served φ s → items s !! i = Some it → submitter it = Returned (Ok v) → φ (value it) v.
Proof.
  intros Hinv Hs Hi Hv. destruct (inv_values _ Hinv i it v Hi) as (act & rs & j & Hin & Ha & Hr & Hl); [by right|].
  destruct (Hs act rs j i v Hin Ha Hr Hl) as (x & Hx & Hφ). unfold submitted in Hx.
  rewrite list_lookup_fmap, Hi in Hx. by injection Hx as <-.
Qed.
End values.
