(* ===== verification/SchedulerTheorems.v ===== *)
(** * The scheduler: claims

    Safety over every interleaving (from [SchedulerInv.v]), progress and
    termination of the drain after [Close], the deadline of a batch and the
    collection timer. *)

From Stdlib Require Import ZArith Lia.
From stdpp Require Import prelude strings list.
From S2P Require Import Prelude GoContext Scheduler SchedulerInv SchedulerOutcomes SchedulerTimer SchedulerMetrics SchedulerValues.

#[local] Open Scope Z_scope.

Section drain.
Context {T R : Type}.
Implicit Types (s : sched T R) (it : item T R).

(** ** Progress of the runner *)

Definition runner_label (l : label T R) : bool :=
  match l with
  | LReceive | LCollected | LAdmitItem | LReject | LInvoke | LHandled _ | LRunReply => true
  | _ => false
  end.

(** The runner is blocked in a select or in the handler. *)
Definition runner_waits s : Prop :=
  match run s with
  | NextQueued => queue s = [] ∧ closed s = false
  | Collecting b _ timer =>
      Z.of_nat (length b) < maxBatch s ∧ queue s = [] ∧ closed s = false ∧ clock s < timer
  | Handling _ _ _ => True
  | Stopped => True
  | _ => False
  end.

Lemma send_enabled s i (x : result R) :
  inv s → i ∈ rejecting (run s) ∨ i ∈ active (run s) → is_Some (send i x s).
Proof.
  intros Hs Hin. assert (i ∈ places s) as Hp.
  { unfold places, held. rewrite !elem_of_app. tauto. }
  apply (inv_bound _ Hs), lookup_lt_is_Some_2 in Hp as [it Hi]. unfold send. rewrite Hi. simpl.
  pose proof (inv_items _ Hs _ _ Hi) as Hok. unfold item_ok in Hok.
  replace (reply it) with (@None (result R)); [done|].
  destruct (state it); symmetry; naive_solver.
Qed.

Lemma queue_lookup s i q : inv s → queue s = i :: q → is_Some (items s !! i).
Proof.
  intros Hs Hq. apply lookup_lt_is_Some_2, (inv_bound _ Hs). unfold places. rewrite Hq. by left.
Qed.

Lemma runner_enabled s :
  inv s → runner_waits s ∨ ∃ l s', runner_label l = true ∧ step l s = Some s'.
Proof.
  intros Hs. unfold runner_waits. destruct (run s) as [|b d tm|[|i todo] now act o|i e todo now act o|act c o|[|[i x] todo] o|] eqn:Hr;
    try (by left).
  - destruct (queue s) as [|i q] eqn:Hq.
    + destruct (closed s) eqn:Hc; [|by left]. right. exists LReceive. simpl. unfold run_receive, nextQueued, collect.
      rewrite Hr, Hq, Hc. eauto.
    + right. exists LReceive. simpl. unfold run_receive, nextQueued, collect. rewrite Hr, Hq.
      destruct (queue_lookup s i q) as [it ->]; [done..|]. simpl. case_decide; eauto.
  - destruct (decide (maxBatch s <= Z.of_nat (length b) ∨ tm <= clock s)) as [Hf|Hf].
    { right. exists LCollected. simpl. unfold run_collected. rewrite Hr.
      replace (_ || _) with true; [eauto|]. symmetry. apply orb_true_iff. rewrite !Z.leb_le. lia. }
    destruct (queue s) as [|i q] eqn:Hq; [destruct (closed s) eqn:Hc; [|left; split_and!; (done || lia)]|];
      right; exists LReceive; simpl; unfold run_receive, nextQueued, collect; rewrite Hr, (proj2 (Z.ltb_lt _ _)), Hq by lia.
    + rewrite Hc. eauto.
    + destruct (queue_lookup s i q) as [it ->]; [done..|]. simpl. repeat case_match; eauto.
  - right. exists LInvoke. simpl. unfold run_invoke. rewrite Hr. case_decide; eauto.
  - right. exists LAdmitItem. simpl. unfold run_admit_item. rewrite Hr.
    assert (is_Some (items s !! i)) as [it ->].
    { apply lookup_lt_is_Some_2, (inv_bound _ Hs). unfold places, held. rewrite Hr. simpl. by_elem. }
    simpl. repeat case_match; eauto.
  - right. exists LReject. simpl. unfold run_reject. rewrite Hr.
    destruct (send_enabled s i (Err e)) as [s' ->]; [done|left; rewrite Hr; by left|]. simpl. eauto.
  - right. exists LRunReply. simpl. unfold run_reply. rewrite Hr. eauto.
  - right. exists LRunReply. simpl. unfold run_reply. rewrite Hr.
    assert (is_Some (items s !! i)) as [it ->].
    { apply lookup_lt_is_Some_2, (inv_bound _ Hs). unfold places, held. rewrite Hr. simpl. by_elem. }
    simpl. edestruct (send_enabled s i) as [s' ->]; [done|right; rewrite Hr; by left|]. simpl. eauto.
Qed.

(** ** The drain terminates *)

(** What is left to do once no more items are admitted. *)
Definition work s : nat :=
  10 * length (queue s) +
  match run s with
  | Stopped => 0
  | NextQueued => 1
  | Collecting b _ _ => 4 * length b + 5
  | Dispatching todo _ act _ => 4 * length todo + 2 * length act + 4
  | Rejecting _ _ todo _ act _ => 4 * length todo + 2 * length act + 5
  | Handling act _ _ => 2 * length act + 3
  | Replying todo _ => 2 * length todo + 2
  end.

Ltac work_solver Hr :=
  unfold work; simpl; rewrite ?Hr, ?length_app, ?length_combine, ?length_outcomes, ?Nat.min_id; simpl;
  split_and!; (done || lia).

Lemma turn_end_work open s :
  closed (turn_end open s) = closed s ∧ (work (turn_end open s) <= 10 * length (queue s) + 1)%nat.
Proof. unfold turn_end, work. case_if; simpl; split; (done || lia). Qed.

Lemma send_work s s' i (x : result R) :
  send i x s = Some s' → queue s' = queue s ∧ closed s' = closed s ∧ run s' = run s.
Proof. unfold send. destruct (items s !! i); [|done]. simpl. case_match; [done|]. by intros [= <-]. Qed.

(** Once closed, no step adds work, and every step of the runner removes some. *)
Lemma runner_step_work l s s' :
  closed s = true → runner_label l = true → step l s = Some s' →
  closed s' = true ∧ (work s' < work s)%nat.
Proof.
  intros Hc Hl. destruct l; try done; simpl; clear Hl.
  - unfold run_receive, nextQueued, collect. destruct (run s) as [|b d tm| | | | |] eqn:Hr; try done; [|case_if; [|done]];
      (destruct (queue s) as [|i q] eqn:Hq; [rewrite Hc|destruct (items s !! i); [|done]; simpl];
       repeat case_match; intros [= <-]; unfold work; simpl; rewrite ?Hr, ?Hq, ?length_app; simpl;
       split; (done || lia)).
  - unfold run_collected. destruct (run s) as [|b d tm| | | | |] eqn:Hr; try done. case_if; [|done].
    intros [= <-]. work_solver Hr.
  - unfold run_admit_item. destruct (run s) as [| |[|i todo] now act o| | | |] eqn:Hr; try done.
    destruct (items s !! i) as [it|]; [|done]. simpl. unfold cas_expired.
    repeat case_match; intros; simplify_eq; work_solver Hr.
  - unfold run_reject. destruct (run s) as [| | |i e todo now act o| | |] eqn:Hr; try done.
    destruct (send i (Err e) s) as [s1|] eqn:Hs; [|done]. intros [= <-].
    apply send_work in Hs as (Hq & Hc' & _). unfold work. simpl. rewrite Hr, Hq, Hc'. split; [done|lia].
  - unfold run_invoke. destruct (run s) as [| |[|i todo] now act o| | | |] eqn:Hr; try done.
    case_decide; intros [= <-]; [|work_solver Hr].
    destruct (turn_end_work o s) as [-> Hw]. split; [done|]. unfold work at 2. rewrite Hr. lia.
  - unfold run_handled. destruct (run s) as [| | | |act c o| |] eqn:Hr; try done. intros [= <-].
    work_solver Hr.
  - unfold run_reply. destruct (run s) as [| | | | |[|[i x] todo] o|] eqn:Hr; try done.
    + intros [= <-]. destruct (turn_end_work o s) as [-> Hw]. split; [done|]. unfold work at 2.
      rewrite Hr. simpl. lia.
    + destruct (items s !! i) as [it|]; [|done]. simpl. destruct (send _ _ s) as [s1|] eqn:Hs; [|done].
      intros [= <-]. apply send_work in Hs as (Hq & Hc' & _). unfold work. simpl. rewrite Hr, Hq, Hc'.
      simpl. split; [done|lia].
Qed.

Lemma other_step_work l s s' :
  closed s = true → runner_label l = false → step l s = Some s' →
  closed s' = true ∧ work s' = work s.
Proof.
  intros Hc Hl. destruct l; try done; simpl; clear Hl.
  1: case_if; [|done]; by intros [= <-].
  1: case_if; [|done]; unfold enqueue; rewrite Hc; case_match; by intros [= <-].
  1: unfold Close; rewrite Hc; by intros [= <-].
  all: unfold at_item; destruct (items s !! i) as [it|]; [|done]; simpl.
  all: match goal with |- (?f ≫= _) = _ → _ => destruct f; [|done] end; by intros [= <-].
Qed.

Lemma drain_bound ls s s' :
  closed s = true → steps ls s = Some s' →
  closed s' = true ∧ (length (List.filter runner_label ls) + work s' <= work s)%nat.
Proof.
  revert s. induction ls as [|l ls IH]; intros s Hc; simpl; [intros [= <-]; split; [done|lia]|].
  destruct (step l s) as [s1|] eqn:Hl; [|done]. simpl. intros Hs.
  destruct (runner_label l) eqn:Hr; simpl.
  - destruct (runner_step_work l s s1) as [Hc1 Hw]; [done..|]. destruct (IH s1) as [? ?]; [done..|]. split; [done|lia].
  - destruct (other_step_work l s s1) as [Hc1 Hw]; [done..|]. destruct (IH s1) as [? ?]; [done..|]. split; [done|lia].
Qed.

Lemma drain_exists s :
  inv s → closed s = true →
  ∃ ls s', forallb runner_label ls = true ∧ steps ls s = Some s' ∧ done s' = true.
Proof.
  remember (work s) as n eqn:Hn. revert s Hn.
  induction n as [n IH] using lt_wf_ind. intros s -> Hs Hc.
  destruct (decide (done s = true)) as [Hd|Hd]; [by exists [], s|].
  assert (∃ l s1, runner_label l = true ∧ step l s = Some s1) as (l & s1 & Hl & Hst).
  { destruct (runner_enabled s Hs) as [Hw|]; [|done]. unfold runner_waits in Hw.
    destruct (run s) as [| | | |act c o| |] eqn:Hr; try done; try (destruct_and?; congruence).
    - exists (LHandled (Err ErrClosed)). simpl. unfold run_handled. rewrite Hr. eauto.
    - exfalso. by apply Hd, (inv_done _ Hs). }
  destruct (runner_step_work l s s1) as [Hc1 Hw]; [done..|].
  destruct (IH (work s1) Hw s1) as (ls & s' & Hls & Hsteps & Hdone); [done|by eapply step_inv|done|].
  exists (l :: ls), s'. simpl. rewrite Hl, Hst. done.
Qed.
End drain.

(** ** A run for the witnesses *)

Lemma reachable_steps {T R} ls (s s' : sched T R) :
  reachable s → steps ls s = Some s' → reachable s'.
Proof.
  revert s. induction ls as [|l ls IH]; intros s Hs; simpl; [by intros [= <-]|].
  destruct (step l s) as [s1|] eqn:Hl; [|done]. simpl. apply IH. by eapply reach_step.
Qed.

(** Two callers, batches of two, a handler that doubles its inputs. *)
Definition demo_new : sched nat nat :=
  mkSched 4 2 (2 * Millisecond) [] [] false false NextQueued 1 no_metrics [].
Definition demo_calls : list (label nat nat) :=
  [LSubmit Background 3%nat 1; LSubmit Background 4%nat 1; LReceive; LReceive; LCollected;
   LAdmitItem; LAdmitItem; LInvoke].
Definition demo_replies : list (label nat nat) :=
  [LHandled (Ok [6; 8]%nat); LDispatched 0%nat; LRunReply; LReply 0%nat; LRunReply; LRunReply].
Definition demo_state (ls : list (label nat nat)) : sched nat nat := default demo_new (steps ls demo_new).

Definition runs_through (ls : list (label nat nat)) : bool :=
  match steps ls demo_new with Some _ => true | None => false end.
Lemma demo_reachable ls : runs_through ls = true → reachable (demo_state ls).
Proof.
  unfold runs_through, demo_state. destruct (steps ls demo_new) as [s|] eqn:Hs; [intros _|done].
  simpl. eapply (reachable_steps ls); [|exact Hs].
  by apply (reach_new 4 2 (2 * Millisecond) 1).
Qed.

(** ** Claims *)

(** C22: in every reachable state, whatever the interleaving, the queue holds
    at most [maxQueue] items and a handler call receives between one and
    [maxBatch] values, one for each item of its batch. *)
Theorem scheduler_bounds {T R} (s : sched T R) :
  reachable s →
  Z.of_nat (length (queue s)) <= maxQueue s ∧
  ∀ act c open, run s = Handling act c open →
    1 <= Z.of_nat (length (values_of s act)) <= maxBatch s ∧ length (values_of s act) = length act.
Proof.
  intros Hs%reachable_inv. split; [by apply inv_queue|]. intros act c open Hr.
  assert (length (values_of s act) = length act) as Hlen by (by eapply length_values_of, handling_bound).
  pose proof (inv_nonempty _ Hs) as Hne. pose proof (inv_batch _ Hs) as Hb.
  unfold held in Hb. rewrite Hr in *. simpl in Hb. rewrite app_nil_r in Hb.
  split; [|done]. rewrite Hlen. destruct act; [done|]. simpl in *. lia.
Qed.

Lemma scheduler_bounds_witness :
  1 <= Z.of_nat (length (values_of (demo_state demo_calls) [0; 1]%nat)) <= maxBatch (demo_state demo_calls).
Proof.
  apply (proj2 (scheduler_bounds (demo_state demo_calls) (demo_reachable demo_calls ltac:(vm_compute; reflexivity)))
    [0; 1]%nat Background true); vm_compute; reflexivity.
Defined.

(** C17: an item is passed to at most one handler call, and at most once in
    it; the items passed to handlers are exactly the dispatched ones, so an
    expired item is never executed.  A caller that was told [ErrQueueDelay] was
    told so because its item is expired, past its queue deadline and in no
    handler call, done or in preparation; the only other way to get that error
    is a handler that returned it itself. *)
Theorem dispatched_at_most_once {T R} (s : sched T R) :
  reachable s →
  NoDup (concat ((invoked s).*1)) ∧
  ∀ i it, items s !! i = Some it →
    (i ∈ concat ((invoked s).*1) → state it = stateDispatched) ∧
    (state it = stateExpired → (i ∉ concat ((invoked s).*1)) ∧ replied it ∨ i ∈ rejecting (run s)) ∧
    (submitter it = Returned (Err ErrQueueDelay) →
       state it = stateExpired ∧ queueExpiry it <= clock s ∧ (i ∉ history s) ∨
       ∃ act, (act, Err ErrQueueDelay) ∈ invoked s ∧ i ∈ act).
Proof.
  intros Hreach. pose proof (reachable_inv s Hreach) as Hs.
  pose proof (inv_hist_nodup _ Hs) as Hnd. unfold history in Hnd.
  split; [by apply NoDup_app in Hnd as (? & _)|]. intros i it Hi.
  pose proof (inv_hist _ Hs _ _ Hi) as Hh. pose proof Hh as Hh'. unfold history in Hh. rewrite elem_of_app in Hh.
  split_and!; [tauto| |].
  2:{ intros Hret. destruct (queue_delay_cause s i it Hreach Hi Hret) as [[He Hx]|]; [left|by right].
      split_and!; [done|done|]. rewrite Hh', He. done. }
  intros He. pose proof (inv_items _ Hs _ _ Hi) as Hok. unfold item_ok in Hok.
  rewrite He in Hok, Hh. destruct Hok as (_ & _ & _ & [Hj|Hr]); [by right|left].
  split; [|done]. intros Hin. by destruct Hh as [Hh _]; specialize (Hh (or_introl Hin)).
Qed.

Lemma dispatched_at_most_once_witness :
  NoDup (concat ((invoked (demo_state (demo_calls ++ demo_replies))).*1)).
Proof.
  apply (dispatched_at_most_once (demo_state (demo_calls ++ demo_replies))
    (demo_reachable (demo_calls ++ demo_replies) ltac:(vm_compute; reflexivity))).
Defined.

(** C4: a caller that gets a value gets its own: the value is the one at
    the position of its item in the result of a handler call that returned as
    many results as it was given items. *)
Theorem delivered_value_is_own {T R} (s : sched T R) i it v :
  reachable s → items s !! i = Some it → submitter it = Returned (Ok v) →
  ∃ act rs j, (act, Ok rs) ∈ invoked s ∧ act !! j = Some i ∧ rs !! j = Some v ∧ length rs = length act.
Proof. intros Hs%reachable_inv Hi Hv. apply (inv_values _ Hs i it v Hi). by right. Qed.

Lemma delivered_value_is_own_witness :
  ∃ act rs j, (act, Ok rs) ∈ invoked (demo_state (demo_calls ++ demo_replies)) ∧
    act !! j = Some 0%nat ∧ rs !! j = Some 6%nat ∧ length rs = length act.
Proof.
  eapply (delivered_value_is_own (demo_state (demo_calls ++ demo_replies)) 0 _ 6%nat);
    [apply (demo_reachable (demo_calls ++ demo_replies)); vm_compute; reflexivity|vm_compute; reflexivity|reflexivity].
Defined.

(** C19: the runner never blocks on a reply channel: in every reachable state
    it can take a step unless it waits, as it should, for a submission, the
    collection timer or the handler, or has stopped. *)
Theorem runner_never_stuck {T R} (s : sched T R) :
  reachable s → runner_waits s ∨ ∃ l s', runner_label l = true ∧ step l s = Some s'.
Proof. intros Hs%reachable_inv. by apply runner_enabled. Qed.

Lemma runner_never_stuck_witness :
  runner_waits (demo_state (demo_calls ++ demo_replies)) ∨
  ∃ l s', runner_label l = true ∧ step l (demo_state (demo_calls ++ demo_replies)) = Some s'.
Proof.
  apply (runner_never_stuck (demo_state (demo_calls ++ demo_replies))
    (demo_reachable (demo_calls ++ demo_replies) ltac:(vm_compute; reflexivity))).
Defined.

(** C5: [Close] drains.  Once closed, the runner takes at most [work s] more
    steps in any interleaving, and can always be run to the end where [done]
    is closed, provided each handler call returns; when [done] is closed every
    caller still waiting has its reply in the channel, and the result of
    receiving from [done] is that reply; and at no point has an admitted caller
    returned [ErrClosed], unless the handler itself returned that error for its
    batch. *)
Theorem close_drains {T R} (s : sched T R) :
  reachable s → closed s = true →
  (∀ ls s', steps ls s = Some s' → (length (List.filter runner_label ls) <= work s)%nat) ∧
  (∃ ls s', forallb runner_label ls = true ∧ steps ls s = Some s' ∧ done s' = true) ∧
  (∀ ls s' i it, steps ls s = Some s' → done s' = true → items s' !! i = Some it →
     submitter it = Selecting ∨ submitter it = Awaiting →
     ∃ r, reply it = Some r ∧
       (submitter it = Selecting → on_done (done s') it = Some (set_submitter (Returned r) (set_reply None it)))) ∧
  (∀ ls s' i it, steps ls s = Some s' → items s' !! i = Some it → submitter it = Returned (Err ErrClosed) →
     ∃ act, (act, Err ErrClosed) ∈ invoked s' ∧ i ∈ act).
Proof.
  intros Hr Hc. pose proof (reachable_inv s Hr) as Hs. split_and!.
  - intros ls s' H. destruct (drain_bound ls s s' Hc H). lia.
  - by apply drain_exists.
  - intros ls s' i it Hls Hd Hi Hsub.
    pose proof (reachable_inv s' (reachable_steps ls s s' Hr Hls)) as Hs'.
    destruct (done_replied s' i it Hs' Hd Hi Hsub) as [r Hrep]. exists r. split; [done|]. intros Hsel.
    unfold on_done. by rewrite Hsel, Hd, Hrep.
  - intros ls s' i it Hls Hi Hret. eapply closed_cause; [|exact Hi|exact Hret].
    by eapply reachable_steps.
Qed.

Lemma close_drains_witness :
  ∃ ls s', forallb runner_label ls = true ∧ steps ls (demo_state (demo_calls ++ [LClose])) = Some s' ∧ done s' = true.
Proof.
  apply (close_drains (demo_state (demo_calls ++ [LClose]))
    (demo_reachable (demo_calls ++ [LClose]) ltac:(vm_compute; reflexivity)));
    vm_compute; reflexivity.
Defined.

(** ** The deadline of a batch *)

Lemma latest_deadline_spec ctxs acc :
  let latest := foldl (λ latest c, match ctx_deadline c with
                       | Some d => if d >? latest then d else latest
                       | None => latest end) acc ctxs in
  acc <= latest ∧ (∀ c d, c ∈ ctxs → ctx_deadline c = Some d → d <= latest) ∧
  (latest = acc ∨ ∃ c, c ∈ ctxs ∧ ctx_deadline c = Some latest).
Proof.
  revert acc. induction ctxs as [|c ctxs IH]; intros acc; simpl.
  { split_and!; [lia|by intros ? ? ?%elem_of_nil|by left]. }
  specialize (IH match ctx_deadline c with Some d => if d >? acc then d else acc | None => acc end).
  destruct IH as (Hacc & Hle & Hin). set (latest := foldl _ _ _) in *.
  assert (acc <= latest ∧ (∀ d, ctx_deadline c = Some d → d <= latest)) as [Ha Hc].
  { destruct (ctx_deadline c) as [d|]; [|by split]. destruct (Z.gtb_spec d acc); split; try lia;
      intros ? [= <-]; lia. }
  split_and!; [done| |].
  - intros c' d [->|Hin']%elem_of_cons Hd; eauto.
  - destruct Hin as [->|(c' & ? & ?)]; [|right; exists c'; split; [by right|done]].
    destruct (ctx_deadline c) as [d|] eqn:E; [|by left]. destruct (Z.gtb_spec d acc); [|by left].
    right. exists c. split; [by left|done].
Qed.

(** The handler's context is never cancelled early for one caller: it is
    unbounded when some caller of the batch has no deadline, and otherwise
    expires exactly at the latest deadline among the callers, so never before
    any of them. *)
Theorem batch_deadline ctxs :
  ctxs ≠ [] → (∀ c d, c ∈ ctxs → ctx_deadline c = Some d → 0 < d) →
  ctx_cancelled (batch_context ctxs) = None ∧
  match ctx_deadline (batch_context ctxs) with
  | None => ∃ c, c ∈ ctxs ∧ ctx_deadline c = None
  | Some D => (∀ c, c ∈ ctxs → ∃ d, ctx_deadline c = Some d ∧ d <= D) ∧
              (∃ c, c ∈ ctxs ∧ ctx_deadline c = Some D)
  end.
Proof.
  intros Hne Hpos. unfold batch_context. pose proof (latest_deadline_spec ctxs 0) as (H0 & Hle & Hin).
  fold (latest_deadline ctxs) in *.
  destruct (existsb _ ctxs) eqn:Hex; simpl.
  { split; [done|]. apply existsb_exists in Hex as (c & Hc%list_elem_of_In & Hd). exists c.
    split; [done|]. by destruct (ctx_deadline c). }
  assert (∀ c, c ∈ ctxs → ∃ d, ctx_deadline c = Some d ∧ d <= latest_deadline ctxs) as Hall.
  { intros c Hc. destruct (ctx_deadline c) as [d|] eqn:Hd; [eauto|]. exfalso.
    apply not_true_iff_false in Hex. apply Hex, existsb_exists. exists c.
    split; [by apply list_elem_of_In|by rewrite Hd]. }
  destruct ctxs as [|c0 ctxs]; [done|].
  destruct (Hall c0) as (d0 & Hd0 & Hl0); [by left|]. pose proof (Hpos c0 d0 ltac:(by left) Hd0).
  rewrite (proj2 (Z.eqb_neq _ _)) by lia. simpl. split; [done|]. split; [done|].
  destruct Hin as [Hz|Hin]; [lia|done].
Qed.

Lemma batch_deadline_witness :
  ctx_cancelled (batch_context [mkContext (Some 5) None; mkContext (Some 9) (Some 3)]) = None.
Proof.
  apply (batch_deadline [mkContext (Some 5) None; mkContext (Some 9) (Some 3)]); [done|].
  intros c d Hc Hd. apply elem_of_cons in Hc as [->|Hc]; [injection Hd as <-; lia|].
  apply list_elem_of_singleton in Hc as ->. injection Hd as <-. lia.
Defined.

(** ** The collection timer *)

(** C27: the fate of an item the idle runner picks up alone, in every
    interleaving in which nothing else is submitted and the scheduler is not
    closed.  With the guard time or less left it is never dispatched, whatever
    the timing: the runner keeps collecting until the very instant at which
    the item expires, and its caller gets [ErrQueueDelay] or the error of its
    own context.  With more than the guard left the runner's timer fires
    exactly the guard time before the expiry, and if the runner serves it
    before the expiry while the caller's context is alive the item is
    dispatched. *)
Theorem lone_item_fate {T R} (s : sched T R) i it :
  reachable s → idle_with s i it →
  (queueExpiry it - clock s <= guard_of (maxDelay s) →
   ∀ ls s', forallb quiet ls = true → steps ls s = Some s' →
     (i ∉ history s') ∧
     ∃ it', items s' !! i = Some it' ∧ state it' ≠ stateDispatched ∧
       ∀ r, submitter it' = Returned r →
         r = Err ErrQueueDelay ∨ ∃ e t, r = Err e ∧ t <= clock s' ∧ ctx_err (ctx it') t = Some e) ∧
  (guard_of (maxDelay s) < queueExpiry it - clock s →
   ∀ s1 ls s2, step LReceive s = Some s1 → forallb waiting ls = true → steps ls s1 = Some s2 →
     (is_Some (step LCollected s2) ↔ queueExpiry it - guard_of (maxDelay s) <= clock s2) ∧
     ∀ s3, step LCollected s2 = Some s3 → clock s2 < queueExpiry it → ctx_err (ctx it) (clock s2) = None →
       ∃ s4 it2, step LAdmitItem s3 = Some s4 ∧ items s2 !! i = Some it2 ∧
         items s4 !! i = Some (set_dispatched it2) ∧ run s4 = Dispatching [] (clock s2) [i] true).
Proof.
  intros Hreach Hid. split.
  - intros Hg ls s' Hq Hst. pose proof (lonely_steps _ _ _ _ _ (idle_lonely _ _ _ Hid Hg) Hq Hst) as [_ _ _ (it' & Hi & _ & Hnd) _].
    pose proof (reachable_steps _ _ _ Hreach Hst) as Hr'. pose proof (inv_hist _ (reachable_inv _ Hr') _ _ Hi) as Hh.
    assert (i ∉ history s') as Hni by (by rewrite Hh). split; [done|]. exists it'. split_and!; [done|done|].
    intros r Hr. by eapply undispatched_outcome.
  - intros Hg s1 ls s2 H1 Hw H2.
    pose proof (alone_steps _ _ _ _ _ _ _ (idle_alone _ _ _ _ Hid Hg H1) Hw H2) as Ha. split.
    + destruct Ha as [Hr (_ & _ & Hb) _]. simpl. unfold run_collected. rewrite Hr.
      rewrite (proj2 (Z.leb_gt (maxBatch s2) _)) by (simpl; lia). simpl. case_if; bool_to_prop; split; try done; try lia.
    + intros s3 H3 Hlt Hctx. by eapply alone_dispatched.
Qed.

(** One item, after the given part of its 2ms in the queue. *)
Definition demo_idle (elapsed : Z) : list (label nat nat) := [LSubmit Background 3%nat 1; LTick elapsed].

Lemma lone_item_fate_witness :
  (0%nat ∉ history (demo_state (demo_idle (1500 * Microsecond) ++ [LReceive; LTick (600 * Microsecond); LCollected; LAdmitItem]))).
Proof.
  refine (proj1 (proj1 (lone_item_fate (demo_state (demo_idle (1500 * Microsecond))) 0%nat
    (mkItem Background 3%nat None false (1 + 2 * Millisecond) stateQueued Selecting)
    (demo_reachable (demo_idle (1500 * Microsecond)) _) _) _ [LReceive; LTick (600 * Microsecond); LCollected; LAdmitItem] _ _ _)).
  - vm_compute. reflexivity.
  - unfold idle_with. split_and!; vm_compute; first [reflexivity|discriminate].
  - vm_compute. discriminate.
  - vm_compute. reflexivity.
  - vm_compute. reflexivity.
Defined.

(** ** Metrics *)

(** C32: the exported counters of the scheduler are exact in every execution,
    modulo 2^64.  [QueueCount], [QueueNanos] and the queue histogram are the
    number, the sum and the cumulative histogram of the times that the items
    dispatched so far had waited since their submission, one for each of them
    ([maxDelay] before an item's expiry is when it was submitted);
    [BatchCount], [BatchItems] and the batch histogram are those of the sizes
    of the handler calls; when no dispatch is in progress as many items have
    been counted by the one as by the other. *)
Theorem metrics_exact {T R} q b d now (s0 : sched T R) ls s :
  New q b d true now = Ok s0 → steps ls s0 = Some s →
  let waits := queue_waits ls s0 in
  let batches := sizes s in
  (∀ i it, items s !! i = Some it → submissions ls s0 !! i = Some (queueExpiry it - maxDelay s)) ∧
  length waits = length (history s) ∧
  QueueCount (metrics s) = wrap64 (Z.of_nat (length waits)) ∧
  QueueNanos (metrics s) = wrap64 (total waits) ∧
  QueueBuckets (metrics s) = bucket_counts queueBounds waits ∧
  BatchCount (metrics s) = wrap64 (Z.of_nat (length batches)) ∧
  BatchItems (metrics s) = wrap64 (total batches) ∧
  BatchBuckets (metrics s) = bucket_counts batchBounds batches ∧
  (being_dispatched (run s) = [] → QueueCount (metrics s) = BatchItems (metrics s)).
Proof.
  intros H0 Hls waits batches. destruct (steps_counted ls [] s0 s (New_counted _ _ _ _ _ H0) Hls) as [Hm Hl].
  simpl in Hm, Hl. rewrite Hm. split_and!; try done.
  - intros i it Hi. pose proof (steps_timed ls [] s0 s (New_timed _ _ _ _ _ H0) Hls) as Ht. simpl in Ht.
    apply (f_equal (.!! i)) in Ht. rewrite !list_lookup_fmap, Hi in Ht. simpl in Ht.
    destruct (submissions ls s0 !! i) as [created|]; [|done]. injection Ht as ->. f_equal. lia.
  - intros Hb. simpl. by rewrite total_sizes, Hl.
Qed.

Lemma metrics_exact_witness :
  QueueNanos (metrics (demo_state (demo_calls ++ demo_replies))) = 0 ∧
  QueueBuckets (metrics (demo_state (demo_calls ++ demo_replies))) = [2; 2; 2; 2; 2] ∧
  BatchBuckets (metrics (demo_state (demo_calls ++ demo_replies))) = [0; 1; 1; 1; 1; 1].
Proof.
  pose proof (metrics_exact 4 2 (2 * Millisecond) 1 demo_new (demo_calls ++ demo_replies)
    (demo_state (demo_calls ++ demo_replies)) ltac:(vm_compute; reflexivity) ltac:(vm_compute; reflexivity))
    as (_ & _ & _ & Hn & Hq & _ & _ & Hb & _).
  rewrite Hn, Hq, Hb. clear. split_and!; vm_compute; reflexivity.
Defined.
