(* ===== verification/Worker.v ===== *)
(** * Package [worker]: requests, results, validation and scoring

    [serving_plane/worker/worker.go].  [math.Exp] is a parameter of the
    scorer (its last digit is platform dependent); the arithmetic around it is
    IEEE, without fused operations, as on amd64. *)

From Stdlib Require Import ZArith Lia SpecFloat.
From stdpp Require Import prelude gmap strings list.
From S2P Require Import Prelude GoFloat GoString GoSort GoContext.

#[local] Open Scope Z_scope.
#[local] Open Scope go_scope.

Record Request := mkRequest {
  req_Features : list float64;
  TransactionAmount : float64;
}.

Record Explanation := mkExplanation {
  FeatureIndex : Z;
  Impact : float64;
}.

Record Result := mkResult {
  Score : float64;
  Confidence : float64;
  res_Explanation : list Explanation;
  Model : string;
  CalibrationVersion : string;
  PolicyVersion : string;
  FeatureVersion : string;
  Fallback : bool;
  FallbackReason : string;
}.

Definition ModelFeatureWidth : Z := 32.
Definition MaxBatchSize : Z := 64.
Definition MaxFeatureWidth : Z := 256.
Definition MaxExplanations : Z := 3.
Definition FallbackFeatureUnavailable : string := "feature_unavailable".
Definition FallbackQueueDeadline : string := "queue_deadline".
Definition FallbackWorkerUnavailable : string := "worker_unavailable".

(** Numeric constants of the source, as the nearest float64. *)
Definition f_0_5 : float64 := float_of_Z 1 (-1).
Definition f_0_0001 : float64 := S754_finite false 7378697629483821 (-66).
Definition f_2 : float64 := float_of_Z 2 0.
Definition f_minus_1 : float64 := fneg fone.

(** [math.Abs], [math.Max] and [math.Min]; the zeros compare as signed. *)
Definition fabs (x : float64) : float64 := SFabs x.
Definition fmax (x y : float64) : float64 :=
  match x, y with
  | S754_infinity false, _ | _, S754_infinity false => finf
  | S754_nan, _ | _, S754_nan => fnan
  | S754_zero true, S754_zero _ => y
  | S754_zero false, S754_zero _ => x
  | _, _ => if fgt x y then x else y
  end.
Definition fmin (x y : float64) : float64 :=
  match x, y with
  | S754_infinity true, _ | _, S754_infinity true => S754_infinity true
  | S754_nan, _ | _, S754_nan => fnan
  | S754_zero true, S754_zero _ => x
  | S754_zero false, S754_zero _ => y
  | _, _ => if flt x y then x else y
  end.

(** ** Validation *)

(** The body of the loop over the requests. *)
Definition validate_request (i : Z) (r : Request) : option error :=
  let width := Z.of_nat (length (req_Features r)) in
  if (width =? 0) || (MaxFeatureWidth <? width)
  then Some (Fresh ("request " ++ Itoa i ++ " feature width must be between 1 and " ++ Itoa MaxFeatureWidth))
  else if flt (TransactionAmount r) fzero || IsNaN (TransactionAmount r) || IsInf (TransactionAmount r)
  then Some (Fresh ("request " ++ Itoa i ++ " has invalid transaction amount"))
  else if existsb (λ x, IsNaN x || IsInf x) (req_Features r)
  then Some (Fresh ("request " ++ Itoa i ++ " contains a non-finite feature"))
  else None.

(** [for i, x := range l { if err := f(i, x); err != nil { return err } }] *)
Fixpoint first_error {A} (f : Z → A → option error) (i : Z) (l : list A) : option error :=
  match l with
  | [] => None
  | x :: l => match f i x with Some e => Some e | None => first_error f (i + 1) l end
  end.

Definition validateRequests (requests : list Request) (allowEmpty : bool) : option error :=
  let n := Z.of_nat (length requests) in
  if (negb allowEmpty && (n =? 0)) || (MaxBatchSize <? n)
  then Some (Fresh ("batch size must be between 1 and " ++ Itoa MaxBatchSize))
  else first_error validate_request 0 requests.

Definition validVersion (value : string) : bool :=
  bool_decide (value ≠ "") && (len value <=? 64) && ValidString value && no_rune IsControl value.

Definition validFallbackReason (value : string) : bool :=
  bool_decide (value = "") || bool_decide (value = FallbackFeatureUnavailable)
  || bool_decide (value = FallbackQueueDeadline) || bool_decide (value = FallbackWorkerUnavailable).

(** A probability: in [0, 1] and neither NaN nor infinite. *)
Definition bad_unit (x : float64) : bool := flt x fzero || fgt x fone || IsNaN x || IsInf x.

Definition bad_explanation (d : Explanation) : bool :=
  (FeatureIndex d <? 0) || (MaxFeatureWidth <=? FeatureIndex d)
  || flt (Impact d) f_minus_1 || fgt (Impact d) fone || IsNaN (Impact d) || IsInf (Impact d).

Definition validate_result (i : Z) (r : Result) : option error :=
  let bad what := Some (Fresh ("result " ++ Itoa i ++ what)) in
  if bad_unit (Score r) then bad " has invalid score"
  else if bad_unit (Confidence r) then bad " has invalid confidence"
  else if MaxExplanations <? Z.of_nat (length (res_Explanation r)) then bad " has too many explanations"
  else if existsb bad_explanation (res_Explanation r) then bad " has invalid explanation"
  else if negb (validVersion (Model r)) || negb (validVersion (CalibrationVersion r))
          || negb (validVersion (PolicyVersion r)) || negb (validVersion (FeatureVersion r))
  then bad " has invalid version metadata"
  else if negb (Bool.eqb (Fallback r) (bool_decide (FallbackReason r ≠ "")))
          || negb (validFallbackReason (FallbackReason r))
  then bad " has invalid fallback reason"
  else None.

Definition validateResults (results : list Result) (expected : Z) : option error :=
  if negb (Z.of_nat (length results) =? expected) then Some (Fresh "inference result count mismatch")
  else first_error validate_result 0 results.

(** ** The CPU scorer *)

Module CPUScorer.

Record t := mk {
  Weights : list float64;
  Bias : float64;
  ModelName : string;
  CalibrationVersion : string;
  PolicyVersion : string;
  FeatureVersion : string;
}.

(** [weights] starts as 32 zeros; the first three are 1.2, 0.8 and 1.1. *)
Definition DefaultCPUScorer : t :=
  mk ([S754_finite false 5404319552844595 (-52); S754_finite false 7205759403792794 (-53);
       S754_finite false 4953959590107546 (-52)] ++ replicate 29 fzero)
     f_minus_1 "" "" "" "".

Definition or_default (value fallback : string) : string :=
  if bool_decide (value ≠ "") then value else fallback.
Definition name (s : t) : string := or_default (ModelName s) "deterministic-cpu-v1".
Definition calibrationVersion (s : t) : string := or_default (CalibrationVersion s) "sigmoid-v1".
Definition policyVersion (s : t) : string := or_default (PolicyVersion s) "fraud-threshold-v1".
Definition featureVersion (s : t) : string := or_default (FeatureVersion s) "rolling-features-v1-32".

Definition Healthy (s : t) : option error :=
  if bool_decide (Weights s = []) then Some (Fresh "no weights") else None.

End CPUScorer.

(** The comparison of [boundedExplanations]: larger magnitude first, ties by index. *)
Definition explains_more (a b : Explanation) : bool :=
  let left := fabs (Impact a) in
  let right := fabs (Impact b) in
  if feq left right then FeatureIndex a <? FeatureIndex b else fgt left right.

(** [sort.Slice] is some sort; the order is total on distinct indices when no
    impact is NaN, and the products of finite features and weights are not, so
    a stable one gives the same result. *)
Definition boundedExplanations (values : list Explanation) : list Explanation :=
  let sorted := SliceStable explains_more values in
  (λ d, mkExplanation (FeatureIndex d) (fmax f_minus_1 (fmin fone (Impact d))))
    <$> take (Z.to_nat MaxExplanations) sorted.

Section scorer.
Context (Exp : float64 → float64).

(** The contributions of the features, from index [j] on, and their sum. *)
Fixpoint contributions (j : Z) (xs weights : list float64) : list Explanation :=
  match xs, weights with
  | x :: xs, w :: weights => mkExplanation j (fmul x w) :: contributions (j + 1) xs weights
  | _, _ => []
  end.
Definition logit (bias : float64) (cs : list Explanation) (amount : float64) : float64 :=
  fadd (foldl (λ z c, fadd z (Impact c)) bias cs) (fmul f_0_0001 amount).

Definition score_request (s : CPUScorer.t) (r : Request) : Result :=
  let cs := contributions 0 (req_Features r) (CPUScorer.Weights s) in
  let z := logit (CPUScorer.Bias s) cs (TransactionAmount r) in
  let score := fdiv fone (fadd fone (Exp (fneg z))) in
  mkResult score (fmul (fabs (fsub score f_0_5)) f_2) (boundedExplanations cs)
    (CPUScorer.name s) (CPUScorer.calibrationVersion s) (CPUScorer.policyVersion s)
    (CPUScorer.featureVersion s) false "".

Fixpoint score_requests (ctx_err : option error) (s : CPUScorer.t) (rs : list Request) : result (list Result) :=
  match rs with
  | [] => Ok []
  | r :: rs =>
      match ctx_err with
      | Some err => Err err
      | None =>
          if negb (Nat.eqb (length (req_Features r)) (length (CPUScorer.Weights s)))
          then Err (Fresh "feature width mismatch")
          else
            let! out := score_requests ctx_err s rs in
            Ok (score_request s r :: out)
      end
  end.

(** [CPUScorer.Infer], with a context that does not change while it computes. *)
Definition CPU_Infer (s : CPUScorer.t) (ctx : Context) (now : Z) (requests : list Request) :
    result (list Result) :=
  if bool_decide (CPUScorer.Weights s = []) then Err (Fresh "scorer has no weights")
  else
    match validateRequests requests true with
    | Some err => Err err
    | None => score_requests (ctx_err ctx now) s requests
    end.
End scorer.
