(* ===== verification/Pool.v ===== *)
(** * Package [worker]: the pool of inference workers

    [serving_plane/worker/worker.go], lines 211-317.  A worker is a pair of
    calls on a world [W] that take time; the pool keeps the round-robin
    counter and, per worker, the instant until which it is not used.  The
    calls made to workers are recorded, in order, for the theorems. *)

From Stdlib Require Import ZArith Lia.
From stdpp Require Import prelude gmap strings list.
From S2P Require Import Prelude GoFloat GoContext Worker.

#[local] Open Scope Z_scope.

(** The [Inference] interface. *)
Record Inference (W : Type) := mkInference {
  Infer : Context → Z → list Request → W → outcome W (result (list Result));
  Healthy : Context → Z → W → outcome W (option error);
}.
Arguments mkInference {W}.
Arguments Infer {W}.
Arguments Healthy {W}.

Inductive worker_call := CallInfer (i : nat) (ctx : Context) (at_ : Z) | CallHealthy (i : nat) (ctx : Context) (at_ : Z).

Module Pool.
Section pool.
Context {W : Type}.

Record t := mk {
  workers : list (Inference W);
  probeEvery : Z;
  next : Z;
  unhealthy : gmap nat Z;
  world : W;                  (* what the workers act on *)
  calls : list worker_call;   (* history, not part of the program *)
}.

Definition NewPool (ws : list (Inference W)) (every : Z) (w : W) : result t :=
  match ws with
  | [] => Err (Fresh "empty worker pool")
  | _ => Ok (mk ws (if every <=? 0 then Second else every) 0 ∅ w [])
  end.

Definition markDown (i : nat) (now : Z) (p : t) : t :=
  mk (workers p) (probeEvery p) (next p) (<[i := now + probeEvery p]> (unhealthy p)) (world p) (calls p).
Definition markUp (i : nat) (p : t) : t :=
  mk (workers p) (probeEvery p) (next p) (delete i (unhealthy p)) (world p) (calls p).
Definition called (c : worker_call) (w : W) (p : t) : t :=
  mk (workers p) (probeEvery p) (next p) (unhealthy p) w (calls p ++ [c]).

(** Integer division by [time.Duration(remaining)] truncates. *)
Definition attemptContext (ctx : Context) (now remaining : Z) : Context :=
  let remaining := if remaining <? 1 then 1 else remaining in
  match ctx_deadline ctx with
  | Some deadline =>
      let budget := Z.quot (Until deadline now) remaining in
      if budget <=? 0 then WithCancel ctx else WithTimeout ctx now budget
  | None => WithTimeout ctx now (100 * Millisecond)
  end.

Definition available (ctx : Context) (now : Z) (i : nat) (worker : Inference W) (p : t) : outcome t bool :=
  match unhealthy p !! i with
  | None => (p, now, true)
  | Some until =>
      if now <? until then (p, now, false)
      else
        let '(w, t, err) := Healthy worker ctx now (world p) in
        let p := called (CallHealthy i ctx now) w p in
        match err with
        | Some _ => (markDown i t p, t, false)
        | None => (markUp i p, t, true)
        end
  end.

(** The loop of [Infer]: [todo] attempts are left of [len(p.workers)], and the
    next one is at index [i]. *)
Fixpoint infer_from (ctx : Context) (requests : list Request) (todo : nat) (i : nat) (now : Z)
    (last : option error) (p : t) : outcome t (result (list Result)) :=
  match todo with
  | O => (p, now, Err (default (Fresh "no healthy inference worker") last))
  | S todo' =>
      let n := length (workers p) in
      match workers p !! (i mod n)%nat with
      | None => (p, now, Err (Fresh "index out of range"))
      | Some worker =>
          let attemptCtx := attemptContext ctx now (Z.of_nat todo) in
          let '(p, t, ok) := available attemptCtx now (i mod n)%nat worker p in
          if negb ok then infer_from ctx requests todo' (S i) t last p
          else
            let '(w, t', r) := Infer worker attemptCtx t requests (world p) in
            let p := called (CallInfer (i mod n)%nat attemptCtx t) w p in
            match r with
            | Ok results => (p, t', Ok results)
            | Err err =>
                let p := match ctx_err ctx t' with
                         | None => markDown (i mod n)%nat t' p
                         | Some _ => p
                         end in
                infer_from ctx requests todo' (S i) t' (Some err) p
            end
      end
  end.

Definition Infer (ctx : Context) (now : Z) (requests : list Request) (p : t) : outcome t (result (list Result)) :=
  let start := Z.to_nat (next p mod Z.of_nat (length (workers p))) in
  let p := mk (workers p) (probeEvery p) ((next p + 1) mod 2 ^ 64) (unhealthy p) (world p) (calls p) in
  infer_from ctx requests (length (workers p)) start now None p.

(** The loop of [Healthy] over the workers from index [i] on. *)
Fixpoint healthy_from (ctx : Context) (ws : list (Inference W)) (i : nat) (now : Z) (p : t) : outcome t (option error) :=
  match ws with
  | [] => (p, now, Some (Fresh "no healthy inference worker"))
  | candidate :: rest =>
      let attemptCtx := attemptContext ctx now (Z.of_nat (length ws)) in
      let '(w, t, err) := Healthy candidate attemptCtx now (world p) in
      let p := called (CallHealthy i attemptCtx now) w p in
      match err with
      | None => (markUp i p, t, None)
      | Some _ => healthy_from ctx rest (S i) t (markDown i t p)
      end
  end.

Definition Healthy (ctx : Context) (now : Z) (p : t) : outcome t (option error) :=
  healthy_from ctx (workers p) 0 now p.
End pool.
Arguments t : clear implicits.
End Pool.

(** A pool is itself an [Inference]. *)
Definition pool_inference {W} : Inference (Pool.t W) := mkInference Pool.Infer Pool.Healthy.
