(* ===== verification/PoolTheorems.v ===== *)
(** * The worker pool: claims

    Failover leaves every worker its share of the deadline, an open circuit
    is respected, and a cancelled readiness probe opens every circuit. *)

From Stdlib Require Import ZArith Lia.
From stdpp Require Import prelude gmap strings list.
From S2P Require Import Prelude GoFloat GoContext Worker Pool.

#[local] Open Scope Z_scope.

Definition call_index (c : worker_call) : nat :=
  match c with CallInfer i _ _ | CallHealthy i _ _ => i end.
Definition call_time (c : worker_call) : Z :=
  match c with CallInfer _ _ a | CallHealthy _ _ a => a end.

Section pool.
Context {W : Type}.
Implicit Types (p : Pool.t W).

(** A worker honours the context of its calls: it returns by the deadline, or
    at once when the deadline has passed. *)
Definition prompt (wk : Inference W) : Prop :=
  (∀ ctx t rs w w' t' r d, Infer wk ctx t rs w = (w', t', r) → ctx_deadline ctx = Some d → t <= t' <= Z.max t d) ∧
  (∀ ctx t w w' t' e d, Healthy wk ctx t w = (w', t', e) → ctx_deadline ctx = Some d → t <= t' <= Z.max t d).

(** ** The share of one attempt *)

Lemma attempt_deadline ctx now k D :
  ctx_deadline ctx = Some D → 1 <= k <= D - now →
  ctx_deadline (Pool.attemptContext ctx now k) = Some (now + (D - now) / k) ∧ now <= now + (D - now) / k <= D.
Proof.
  intros HD Hk. unfold Pool.attemptContext, Until. rewrite (proj2 (Z.ltb_ge _ _)), HD by lia.
  rewrite Z.quot_div_nonneg by lia.
  assert (1 <= (D - now) / k) by (apply Z.div_le_lower_bound; lia).
  assert ((D - now) / k <= D - now) by (apply Z.div_le_upper_bound; nia).
  rewrite (proj2 (Z.leb_gt _ _)) by lia. unfold WithTimeout, WithDeadline. simpl. rewrite HD.
  split; [f_equal|]; lia.
Qed.

Lemma attempt_deadline_some ctx now k D :
  ctx_deadline ctx = Some D → 
  ∃ d, ctx_deadline (Pool.attemptContext ctx now k) = Some d ∧ d <= D.
Proof.
  intros HD. unfold Pool.attemptContext. rewrite HD. case_if.
  - simpl. eauto with lia.
  - unfold WithTimeout, WithDeadline. simpl. rewrite HD. eexists. split; [done|lia].
Qed.

(** What is left after an attempt that took its whole share. *)
Lemma share_left D now t k :
  1 <= k <= D - now → now <= t <= now + (D - now) / k →
  (k - 1) * (D - now) <= k * (D - t) ∧ k - 1 <= D - t.
Proof.
  intros Hk Ht. pose proof (Z.mul_div_le (D - now) k ltac:(lia)).
  assert (k * (t - now) <= D - now) by nia. split; nia.
Qed.

(** ** Failover over fresh workers *)

Lemma round_robin_inj a n j j' :
  (j < n)%nat → (j' < n)%nat → ((a + j) mod n = (a + j') mod n)%nat → j = j'.
Proof.
  intros Hj Hj' E. pose proof (Nat.div_mod_eq (a + j) n). pose proof (Nat.div_mod_eq (a + j') n).
  assert ((a + j) / n = (a + j') / n)%nat by nia. nia.
Qed.

(** A call to the worker [i0 + j] of the round, with its share of the time
    from [t0] to [D]: at least the part of the workers not tried yet. *)
Definition fair_call (n : nat) (D t0 : Z) (i0 : nat) (j : nat) (c : worker_call) : Prop :=
  ∃ cx a d, c = CallInfer ((i0 + j) mod n) cx a ∧ ctx_deadline cx = Some d ∧ a <= d <= D ∧ t0 <= a ∧
            (Z.of_nat n - Z.of_nat j) * (D - t0) <= Z.of_nat n * (D - a).

Lemma infer_from_fair ctx rs D t0 i0 n todo now last p p' t r :
  ctx_deadline ctx = Some D → Forall prompt (Pool.workers p) → length (Pool.workers p) = n →
  (todo <= n)%nat → t0 <= now →
  (∀ j, (n - todo <= j < n)%nat → Pool.unhealthy p !! ((i0 + j) mod n)%nat = None) →
  Z.of_nat todo <= D - now → Z.of_nat todo * (D - t0) <= Z.of_nat n * (D - now) →
  Pool.infer_from ctx rs todo (i0 + (n - todo)) now last p = (p', t, r) →
  ∃ cs, Pool.calls p' = Pool.calls p ++ cs ∧
        (∀ j c, cs !! j = Some c → fair_call n D t0 i0 (n - todo + j) c) ∧
        (∀ e, r = Err e → length cs = todo).
Proof.
  intros HD. revert now last p.
  induction todo as [|todo IH]; intros now last p Hpr Hn Htodo Ht0 Hun Hbud Hshare; cbn [Pool.infer_from].
  { intros [= <- <- <-]. exists []. rewrite app_nil_r. split_and!; [done|intros j c; by rewrite lookup_nil|done]. }
  rewrite Hn. set (i := (i0 + (n - S todo))%nat).
  assert (i mod n < n)%nat as Hlt by (apply Nat.mod_upper_bound; lia).
  destruct (lookup_lt_is_Some_2 (Pool.workers p) (i mod n)%nat) as [wk Hwk]; [lia|]. rewrite Hwk.
  assert (Pool.unhealthy p !! (i mod n)%nat = None) as Hi by (apply Hun; lia).
  unfold Pool.available. rewrite Hi.
  cbn [negb]. destruct (attempt_deadline ctx now (Z.of_nat (S todo)) D) as [Hd Hd']; [done|lia|].
  set (d := now + (D - now) / Z.of_nat (S todo)) in *.
  destruct (Infer wk _ now rs _) as [[w' t'] r'] eqn:Hcall.
  pose proof (Forall_lookup_1 _ _ _ _ Hpr Hwk) as [Hinf _].
  pose proof (Hinf _ _ _ _ _ _ _ _ Hcall Hd) as Ht'. rewrite Z.max_r in Ht' by lia.
  destruct (share_left D now t' (Z.of_nat (S todo))) as [Hs1 Hs2]; [lia|done|].
  set (c0 := CallInfer (i mod n) _ now).
  assert (fair_call n D t0 i0 (n - S todo + 0) c0) as Hfair.
  { exists (Pool.attemptContext ctx now (Z.of_nat (S todo))), now, d. rewrite Nat.add_0_r.
    split_and!; [done|done|lia|lia|done|]. rewrite Nat2Z.inj_sub by lia. nia. }
  destruct r' as [res|err].
  { intros [= <- <- <-]. exists [c0]. split_and!; [done| |done].
    intros [|j] c; simpl; [by intros [= <-]|by rewrite lookup_nil]. }
  set (p1 := match ctx_err ctx t' with None => _ | Some _ => _ end).
  assert (Pool.workers p1 = Pool.workers p ∧ Pool.calls p1 = Pool.calls p ++ [c0] ∧
          (∀ k, k ≠ (i mod n)%nat → Pool.unhealthy p1 !! k = Pool.unhealthy p !! k)) as (Hw1 & Hc1 & Hu1).
  { unfold p1. destruct (ctx_err ctx t'); simpl; split_and!; try done. intros k Hk. by rewrite lookup_insert_ne. }
  replace (S i) with (i0 + (n - todo))%nat by (unfold i; lia). intros Hrec.
  apply IH in Hrec as (cs & Hcs & Hall & Herr); [..|by rewrite Hw1|by rewrite Hw1|lia|lia| |lia|].
  - exists (c0 :: cs). rewrite Hcs, Hc1, <- app_assoc. split_and!; [done| |].
    + intros [|j] c; simpl; [by intros [= <-]|]. intros Hj. replace (n - S todo + S j)%nat with (n - todo + j)%nat by lia.
      by apply Hall.
    + intros e He. simpl. by rewrite (Herr e He).
  - intros j Hj. rewrite Hu1; [apply Hun; lia|]. intros E.
    apply round_robin_inj in E; lia.
  - rewrite Nat2Z.inj_succ in *. nia.
Qed.

(** ** Circuits *)

Definition takes_time (wk : Inference W) : Prop :=
  (∀ ctx t rs w, t <= (Infer wk ctx t rs w).1.2) ∧ (∀ ctx t w, t <= (Healthy wk ctx t w).1.2).

Definition infer_index (c : worker_call) : option nat :=
  match c with CallInfer i _ _ => Some i | CallHealthy _ _ _ => None end.

(** The calls of the rest of a round: to the workers not tried yet, only
    past their circuit, and to each at most one inference. *)
Definition round_calls (n i0 todo : nat) (down : gmap nat Z) (cs : list worker_call) : Prop :=
  Forall (λ c, (∃ j, (n - todo <= j < n)%nat ∧ call_index c = ((i0 + j) mod n)%nat) ∧
               (∀ u, down !! call_index c = Some u → u <= call_time c)) cs ∧
  NoDup (omap infer_index cs).

Lemma round_calls_cons n i0 todo down down' pre cs :
  (S todo <= n)%nat →
  let i := ((i0 + (n - S todo)) mod n)%nat in
  Forall (λ c, call_index c = i ∧ (∀ u, down !! i = Some u → u <= call_time c)) pre →
  (length (omap infer_index pre) <= 1)%nat →
  (∀ k, k ≠ i → down' !! k = down !! k) →
  round_calls n i0 todo down' cs → round_calls n i0 (S todo) down (pre ++ cs).
Proof.
  intros Hn i Hpre Hone Hdown [Hcs Hnd].
  assert (∀ j, (n - todo <= j < n)%nat → ((i0 + j) mod n)%nat ≠ i) as Hne.
  { intros j Hj E. apply round_robin_inj in E; lia. }
  split.
  - apply Forall_app. split.
    + eapply Forall_impl; [apply Hpre|]. intros c [Hc Hu]. simpl. rewrite Hc. split; [|done].
      exists (n - S todo)%nat. split; [lia|done].
    + eapply Forall_impl; [apply Hcs|]. intros c [(j & Hj & Hc) Hu]. split; [exists j; split; [lia|done]|].
      intros u Hl. apply Hu. rewrite Hdown; [done|]. rewrite Hc. by apply Hne.
  - rewrite omap_app. apply NoDup_app. split_and!; [| |done].
    + destruct (omap infer_index pre) as [|x [|y l]]; simpl in Hone; [constructor|apply NoDup_singleton|lia].
    + intros x Hx Hx'. apply list_elem_of_omap in Hx as (c & Hc & Ex). apply list_elem_of_omap in Hx' as (c' & Hc' & Ex').
      rewrite Forall_forall in Hpre, Hcs. destruct (Hpre c Hc) as [Hi _].
      destruct (Hcs c' Hc') as [(j & Hj & Hi') _].
      destruct c, c'; simplify_eq/=. by apply (Hne j Hj).
Qed.

Lemma infer_from_round ctx rs i0 n todo now last p p' t r :
  Forall takes_time (Pool.workers p) → length (Pool.workers p) = n → (todo <= n)%nat →
  Pool.infer_from ctx rs todo (i0 + (n - todo)) now last p = (p', t, r) →
  ∃ cs, Pool.calls p' = Pool.calls p ++ cs ∧ round_calls n i0 todo (Pool.unhealthy p) cs.
Proof.
  revert now last p.
  induction todo as [|todo IH]; intros now last p Htt Hn Htodo; cbn [Pool.infer_from].
  { intros [= <- <- <-]. exists []. rewrite app_nil_r. split; [done|]. split; constructor. }
  rewrite Hn. set (i := ((i0 + (n - S todo)) mod n)%nat).
  destruct (lookup_lt_is_Some_2 (Pool.workers p) i) as [wk Hwk].
  { rewrite Hn. apply Nat.mod_upper_bound. lia. }
  rewrite Hwk. replace (S (i0 + (n - S todo))) with (i0 + (n - todo))%nat by lia.
  pose proof (Forall_lookup_1 _ _ _ _ Htt Hwk) as [Hti Hth].
  set (cx := Pool.attemptContext ctx now _).
  destruct (Pool.available cx now i wk p) as [[p1 t1] ok] eqn:Hav.
  assert (∃ pre, Pool.workers p1 = Pool.workers p ∧ Pool.calls p1 = Pool.calls p ++ pre ∧
            Forall (λ c, call_index c = i ∧ (∀ u, Pool.unhealthy p !! i = Some u → u <= call_time c)) pre ∧
            omap infer_index pre = [] ∧ (∀ k, k ≠ i → Pool.unhealthy p1 !! k = Pool.unhealthy p !! k) ∧
            (ok = true → ∀ u, Pool.unhealthy p !! i = Some u → u <= t1))
    as (pre & Hw1 & Hc1 & Hpre & Ho & Hu1 & Hok).
  { unfold Pool.available in Hav. destruct (Pool.unhealthy p !! i) as [until|] eqn:Hu.
    2:{ injection Hav as <- <- <-. exists []. rewrite app_nil_r. by split_and!. }
    destruct (Z.ltb_spec now until); [injection Hav as <- <- <-; exists []; rewrite app_nil_r; by split_and!|].
    specialize (Hth cx now (Pool.world p)). destruct (Healthy wk cx now (Pool.world p)) as [[w' t'] err]. simpl in Hth.
    exists [CallHealthy i cx now].
    destruct err; injection Hav as <- <- <-; simpl; (split_and!; [done|done| |done| |]);
      try (intros; simplify_eq; lia); try (intros k Hk; by rewrite ?lookup_insert_ne, ?lookup_delete_ne by done);
      try (constructor; [split; [done|intros ? [= <-]; simpl; lia]|constructor]). }
  destruct ok; cbn [negb].
  - destruct (Infer wk cx t1 rs _) as [[w' t'] r'] eqn:Hcall.
    assert (∀ cs down', (∀ k, k ≠ i → down' !! k = Pool.unhealthy p !! k) → round_calls n i0 todo down' cs →
      round_calls n i0 (S todo) (Pool.unhealthy p) ((pre ++ [CallInfer i cx t1]) ++ cs)) as Hrc.
    { intros cs down' Hd. apply round_calls_cons; [lia| | |done].
      - apply Forall_app. split; [done|]. constructor; [|constructor]. split; [done|]. by apply Hok.
      - rewrite omap_app, Ho. simpl. lia. }
    destruct r' as [res|err].
    + intros [= <- <- <-]. exists (pre ++ [CallInfer i cx t1]). simpl. rewrite Hc1, <- app_assoc. split; [done|].
      rewrite <- (app_nil_r (pre ++ _)). apply (Hrc [] (Pool.unhealthy p)); [done|]. split; constructor.
    + set (p2 := match ctx_err ctx t' with None => _ | Some _ => _ end). intros Hrec.
      assert (Pool.workers p2 = Pool.workers p ∧ Pool.calls p2 = Pool.calls p1 ++ [CallInfer i cx t1] ∧
              (∀ k, k ≠ i → Pool.unhealthy p2 !! k = Pool.unhealthy p !! k)) as (Hw2 & Hc2 & Hu2).
      { unfold p2. destruct (ctx_err ctx t'); simpl; split_and!; try done. intros k Hk.
        rewrite lookup_insert_ne by done. by apply Hu1. }
      apply IH in Hrec as (cs & Hcs & Hround); [|by rewrite Hw2|by rewrite Hw2|lia].
      exists ((pre ++ [CallInfer i cx t1]) ++ cs). rewrite Hcs, Hc2, Hc1, <- !app_assoc. split; [done|].
      rewrite app_assoc. by eapply Hrc.
  - intros Hrec. apply IH in Hrec as (cs & Hcs & Hround); [|by rewrite Hw1|by rewrite Hw1|lia].
    exists (pre ++ cs). rewrite Hcs, Hc1, <- app_assoc. split; [done|].
    eapply round_calls_cons; [lia|done|rewrite Ho; simpl; lia|exact Hu1|done].
Qed.

(** ** Probing with a dead context *)

(** A probe with a context that has ended fails. *)
Definition probe_fails_dead (wk : Inference W) : Prop :=
  ∀ ctx t w, ctx_err ctx t ≠ None → (Healthy wk ctx t w).2 ≠ None.

Lemma attempt_dead ctx now k : ctx_err ctx now ≠ None → ctx_err (Pool.attemptContext ctx now k) now ≠ None.
Proof.
  unfold Pool.attemptContext, WithTimeout, WithDeadline, ctx_err, WithCancel.
  destruct (ctx_deadline ctx) as [d|] eqn:Hd, (ctx_cancelled ctx) as [c|] eqn:Hc; simpl;
    repeat (case_if; simpl; rewrite ?Hd, ?Hc); try done; simpl in *;
    repeat case_if; bool_to_prop; try done; rewrite ?andb_false_iff, ?Z.leb_gt, ?Z.ltb_ge in *; intuition lia.
Qed.

Lemma healthy_from_dead ctx ws i now p p' t err :
  Forall (λ wk, takes_time wk ∧ probe_fails_dead wk) ws → ctx_err ctx now ≠ None →
  Pool.healthy_from ctx ws i now p = (p', t, err) →
  err ≠ None ∧ now <= t ∧ Pool.workers p' = Pool.workers p ∧ Pool.probeEvery p' = Pool.probeEvery p ∧
  (∀ j, (j < i)%nat → Pool.unhealthy p' !! j = Pool.unhealthy p !! j) ∧
  (∀ j, (i <= j < i + length ws)%nat → ∃ u, Pool.unhealthy p' !! j = Some u ∧ now + Pool.probeEvery p <= u).
Proof.
  intros Hws. revert i now p. induction Hws as [|wk ws [[_ Htt] Hdead] Hws IH]; intros i now p Hctx; cbn [Pool.healthy_from].
  { intros [= <- <- <-]. split_and!; try done. simpl. lia. }
  set (cx := Pool.attemptContext _ _ _).
  pose proof (Htt cx now (Pool.world p)) as Ht. pose proof (Hdead cx now (Pool.world p) (attempt_dead _ _ _ Hctx)) as He.
  destruct (Healthy wk cx now (Pool.world p)) as [[w' t'] e]. simpl in Ht, He.
  destruct e as [e|]; [|done]. intros Hrec.
  apply IH in Hrec as (Herr & Htm & Hw & Hpe & Hlow & Hall); [|by eapply ctx_err_mono].
  simpl in *. split_and!; try done; try lia.
  - intros j Hj. rewrite Hlow by lia. by rewrite lookup_insert_ne by lia.
  - intros j Hj. destruct (decide (j = i)) as [->|Hne].
    + exists (t' + Pool.probeEvery p). rewrite Hlow by lia. rewrite lookup_insert_eq. split; [done|lia].
    + destruct (Hall j) as (u & Hu & Hle); [lia|]. exists u. split; [done|lia].
Qed.

(** When every circuit is open the pool calls nobody. *)
Lemma infer_from_all_down ctx rs todo i now last p :
  (0 < length (Pool.workers p))%nat →
  (∀ j, (j < length (Pool.workers p))%nat → ∃ u, Pool.unhealthy p !! j = Some u ∧ now < u) →
  Pool.infer_from ctx rs todo i now last p = (p, now, Err (default (Fresh "no healthy inference worker") last)).
Proof.
  intros Hpos Hdown. revert i. induction todo as [|todo IH]; intros i; cbn [Pool.infer_from]; [done|].
  set (n := length (Pool.workers p)) in *.
  assert (i mod n < n)%nat as Hlt by (apply Nat.mod_upper_bound; lia).
  destruct (lookup_lt_is_Some_2 (Pool.workers p) (i mod n)%nat) as [wk ->]; [done|].
  unfold Pool.available. destruct (Hdown _ Hlt) as (u & -> & Hu).
  rewrite (proj2 (Z.ltb_lt _ _)) by done. cbn [negb]. apply IH.
Qed.
End pool.

(** ** Claims *)

(** Where the round of an [Infer] starts. *)
Definition round_start {W} (p : Pool.t W) : nat :=
  Z.to_nat (Pool.next p mod Z.of_nat (length (Pool.workers p))).

(** C11: failover is fair.  With a deadline ahead and no worker marked down,
    [Infer] tries the workers once each in round-robin order, and the worker
    tried as number [j] of [n] starts with at least [(n-j)/n] of the caller's
    time left and a context that ends no later than the caller's; it only
    fails after every worker was tried. *)
Theorem pool_failover {W} (p p' : Pool.t W) ctx now rs D t r :
  (0 < length (Pool.workers p))%nat → Forall prompt (Pool.workers p) → Pool.unhealthy p = ∅ →
  ctx_deadline ctx = Some D → Z.of_nat (length (Pool.workers p)) <= D - now →
  Pool.Infer ctx now rs p = (p', t, r) →
  ∃ cs, Pool.calls p' = Pool.calls p ++ cs ∧
    (∀ j c, cs !! j = Some c → fair_call (length (Pool.workers p)) D now (round_start p) j c) ∧
    (∀ e, r = Err e → length cs = length (Pool.workers p)).
Proof.
  intros Hpos Hpr Hun HD Hbud Hinf. unfold Pool.Infer in Hinf. simpl in Hinf. fold (round_start p) in Hinf.
  set (q := Pool.mk _ _ _ _ _ _) in Hinf. set (n := length (Pool.workers p)) in *.
  replace (round_start p) with (round_start p + (n - n))%nat in Hinf by lia.
  apply (infer_from_fair ctx rs D now (round_start p) n n now None q) in Hinf as (cs & Hcs & Hall & Herr);
    try done; try lia.
  - exists cs. split_and!; [done| |done]. intros j c Hj. specialize (Hall j c Hj).
    by replace (n - n + j)%nat with j in Hall by lia.
  - intros j _. unfold q. simpl. by rewrite Hun, lookup_empty.
Qed.

(** A worker that fails after using up its context, and one that answers at once. *)
Definition hung_worker : Inference unit :=
  mkInference (λ ctx t _ w, (w, match ctx_deadline ctx with Some d => Z.max t d | None => t end, Err DeadlineExceeded))
              (λ ctx t w, (w, t, ctx_err ctx t)).
Definition ready_worker : Inference unit :=
  mkInference (λ ctx t _ w, (w, t, Ok [])) (λ ctx t w, (w, t, ctx_err ctx t)).
Definition demo_pool : Pool.t unit := Pool.mk [hung_worker; ready_worker] Second 0 ∅ tt [].

Lemma demo_prompt : Forall prompt (Pool.workers demo_pool).
Proof.
  apply Forall_cons; split; [|apply Forall_singleton]; split; simpl; intros;
    repeat match goal with H : (_, _, _) = (_, _, _) |- _ => injection H as <- <- <- end;
    try match goal with H : ctx_deadline _ = Some _ |- context [match ctx_deadline _ with _ => _ end] => rewrite H end; lia.
Qed.

Lemma pool_failover_witness :
  let '(p', _, r) := Pool.Infer (mkContext (Some 1000) None) 0 [] demo_pool in
  r = Ok [] ∧ ∃ cs, Pool.calls p' = cs ∧ ∀ j c, cs !! j = Some c → fair_call 2 1000 0 0 j c.
Proof.
  destruct (Pool.Infer _ _ _ _) as [[p' t] r] eqn:E.
  destruct (pool_failover demo_pool p' (mkContext (Some 1000) None) 0 [] 1000 t r) as (cs & Hcs & Hall & _);
    [simpl; lia|apply demo_prompt|reflexivity|reflexivity|simpl; lia|exact E|].
  split; [vm_compute in E; congruence|]. exists cs. split; [exact Hcs|exact Hall].
Defined.

(** C35: an open circuit is respected.  In one [Infer], no worker is called,
    for inference or for a probe, before the instant until which it was
    marked down, and no worker gets more than one inference call. *)
Theorem open_circuit_respected {W} (p p' : Pool.t W) ctx now rs t r :
  (0 < length (Pool.workers p))%nat → Forall takes_time (Pool.workers p) →
  Pool.Infer ctx now rs p = (p', t, r) →
  ∃ cs, Pool.calls p' = Pool.calls p ++ cs ∧
    (∀ c until, c ∈ cs → Pool.unhealthy p !! call_index c = Some until → until <= call_time c) ∧
    NoDup (omap infer_index cs).
Proof.
  intros Hpos Htt Hinf. unfold Pool.Infer in Hinf. simpl in Hinf. fold (round_start p) in Hinf.
  set (q := Pool.mk _ _ _ _ _ _) in Hinf. set (n := length (Pool.workers p)) in *.
  replace (round_start p) with (round_start p + (n - n))%nat in Hinf by lia.
  apply (infer_from_round ctx rs (round_start p) n n now None q) in Hinf as (cs & Hcs & Hall & Hnd); try done.
  exists cs. split_and!; [done| |done]. intros c u Hc Hu. rewrite Forall_forall in Hall.
  by apply (Hall c Hc).
Qed.

Definition demo_tripped : Pool.t unit := Pool.mk [hung_worker; ready_worker] Second 0 {[0%nat := 50]} tt [].

Lemma open_circuit_respected_witness :
  let '(p', _, _) := Pool.Infer (mkContext (Some 1000) None) 0 [] demo_tripped in
  ∃ cs, Pool.calls p' = cs ∧ NoDup (omap infer_index cs).
Proof.
  destruct (Pool.Infer _ _ _ _) as [[p' t] r] eqn:E.
  destruct (open_circuit_respected demo_tripped p' (mkContext (Some 1000) None) 0 [] t r) as (cs & Hcs & _ & Hnd);
    [simpl; lia| |exact E|exists cs; split; [exact Hcs|exact Hnd]].
  apply Forall_cons; split; [|apply Forall_singleton]; split; simpl; intros; try lia.
  destruct (ctx_deadline ctx); lia.
Defined.

(** C39: one readiness probe with a cancelled or expired context takes the
    whole pool out of service: every worker is marked down, and for
    [probeEvery] every request fails without a single worker being called. *)
Theorem cancelled_probe_opens_all {W} (p p' : Pool.t W) ctx now t err ctx2 now2 rs :
  (0 < length (Pool.workers p))%nat →
  Forall (λ wk, takes_time wk ∧ probe_fails_dead wk) (Pool.workers p) →
  ctx_err ctx now ≠ None → Pool.Healthy ctx now p = (p', t, err) →
  now2 < now + Pool.probeEvery p →
  ∃ p'', Pool.Infer ctx2 now2 rs p' = (p'', now2, Err (Fresh "no healthy inference worker")) ∧
         Pool.calls p'' = Pool.calls p' ∧ Pool.world p'' = Pool.world p'.
Proof.
  intros Hpos Hws Hctx Hh Hnow. unfold Pool.Healthy in Hh.
  apply healthy_from_dead in Hh as (_ & _ & Hw & Hpe & _ & Hall); [|done..].
  unfold Pool.Infer. rewrite infer_from_all_down; simpl; [by eexists|by rewrite Hw|].
  intros j Hj. destruct (Hall j) as (u & Hu & Hle); [rewrite Hw in Hj; lia|]. exists u. split; [done|lia].
Qed.

Lemma cancelled_probe_opens_all_witness :
  ∃ p'', Pool.Infer (mkContext (Some 1000) None) 5 [] (Pool.Healthy (mkContext None (Some 0)) 0 demo_pool).1.1
           = (p'', 5, Err (Fresh "no healthy inference worker")) ∧
         Pool.calls p'' = Pool.calls (Pool.Healthy (mkContext None (Some 0)) 0 demo_pool).1.1 ∧
         Pool.world p'' = tt.
Proof.
  apply (cancelled_probe_opens_all demo_pool (Pool.Healthy (mkContext None (Some 0)) 0 demo_pool).1.1
    (mkContext None (Some 0)) 0 (Pool.Healthy (mkContext None (Some 0)) 0 demo_pool).1.2
    (Pool.Healthy (mkContext None (Some 0)) 0 demo_pool).2 (mkContext (Some 1000) None) 5 []).
  - simpl. lia.
  - apply Forall_cons; split; [|apply Forall_singleton]; (split; [split; simpl; intros|by intros ? ? ?]); try lia.
    destruct (ctx_deadline ctx); lia.
  - done.
  - reflexivity.
  - reflexivity.
Defined.
