(* ===== verification/WorkerGrpc.v ===== *)
(** * Package [worker]: the gRPC hop between gateway and worker

    [serving_plane/worker/grpc.go].  The generated protobuf messages are
    records whose pointer fields may be nil ([option]); the transport, the
    health RPC and the certificate files are parameters.  The values a Go
    context carries across the hop are explicit arguments. *)

From Stdlib Require Import ZArith Lia SpecFloat.
From stdpp Require Import prelude gmap strings list.
From S2P Require Import Prelude GoFloat GoString GoContext GoTLS Worker Pool.

#[local] Open Scope Z_scope.
#[local] Open Scope go_scope.

(** ** Protobuf messages *)

Record FeatureRequest := mkFeatureRequest {
  pb_Features : list float64;
  pb_TransactionAmount : float64;
}.
Record ScoreRequest := mkScoreRequest { pb_Requests : list (option FeatureRequest) }.

Record pb_Explanation := mkPbExplanation {
  pb_FeatureIndex : Z;   (* uint32 *)
  pb_Impact : float64;
}.
Record pb_Score := mkPbScore {
  pb_score : float64;
  pb_Confidence : float64;
  pb_explanation : list (option pb_Explanation);
  pb_Model : string;
  pb_CalibrationVersion : string;
  pb_PolicyVersion : string;
  pb_FeatureVersion : string;
  pb_Fallback : bool;
  pb_FallbackReason : string;
}.
Record ScoreResponse := mkScoreResponse { pb_Results : list (option pb_Score) }.

(** ** Conversions *)

Definition validateRPCRequests (requests : list Request) : option error :=
  match validateRequests requests false with
  | Some err => Some err
  | None =>
      first_error (λ i r,
        if negb (Z.of_nat (length (req_Features r)) =? ModelFeatureWidth)
        then Some (Fresh ("request " ++ Itoa i ++ " feature width must be exactly " ++ Itoa ModelFeatureWidth))
        else None) 0 requests
  end.

(** The loop over [request.Requests]: a nil element is an error. *)
Fixpoint items_of (items : list (option FeatureRequest)) : result (list Request) :=
  match items with
  | [] => Ok []
  | None :: _ => Err (Fresh "batch contains an empty request")
  | Some item :: items =>
      let! rest := items_of items in
      Ok (mkRequest (pb_Features item) (pb_TransactionAmount item) :: rest)
  end.

Definition requestsFromProto (request : option ScoreRequest) : result (list Request) :=
  match request with
  | None => Err (Fresh "request is required")
  | Some request =>
      let! requests := items_of (pb_Requests request) in
      match validateRPCRequests requests with
      | Some err => Err err
      | None => Ok requests
      end
  end.

Definition requestsToProto (requests : list Request) : ScoreRequest :=
  mkScoreRequest ((λ r, Some (mkFeatureRequest (req_Features r) (TransactionAmount r))) <$> requests).

(** [uint32(n)] for an [int]. *)
Definition to_uint32 (n : Z) : Z := n mod 2 ^ 32.

Definition resultsToProto (results : list Result) : ScoreResponse :=
  mkScoreResponse ((λ r, Some (mkPbScore (Score r) (Confidence r)
    ((λ d, Some (mkPbExplanation (to_uint32 (FeatureIndex d)) (Impact d))) <$> res_Explanation r)
    (Model r) (CalibrationVersion r) (PolicyVersion r) (FeatureVersion r) (Fallback r) (FallbackReason r)))
    <$> results).

(** The first [MaxExplanations] details that are not nil. *)
Fixpoint explanations_from (room : nat) (ds : list (option pb_Explanation)) : list Explanation :=
  match ds, room with
  | [], _ | _, O => []
  | None :: ds, _ => explanations_from room ds
  | Some d :: ds, S room => mkExplanation (pb_FeatureIndex d) (pb_Impact d) :: explanations_from room ds
  end.

(** The zero [Result], left in the slice for a nil score. *)
Definition zero_Result : Result := mkResult fzero fzero [] "" "" "" "" false "".

Definition resultsFromProto (response : option ScoreResponse) : list Result :=
  match response with
  | None => []
  | Some response =>
      (λ item, match item with
               | None => zero_Result
               | Some s => mkResult (pb_score s) (pb_Confidence s)
                             (explanations_from (Z.to_nat MaxExplanations) (pb_explanation s))
                             (pb_Model s) (pb_CalibrationVersion s) (pb_PolicyVersion s)
                             (pb_FeatureVersion s) (pb_Fallback s) (pb_FallbackReason s)
               end) <$> pb_Results response
  end.

(** ** Status codes *)

Definition codes_Canceled : Z := 1.
Definition codes_InvalidArgument : Z := 3.
Definition codes_DeadlineExceeded : Z := 4.
Definition codes_Internal : Z := 13.
Definition codes_Unavailable : Z := 14.
Definition codes_Unauthenticated : Z := 16.

Definition contextStatus (err : error) (fallback : string) : error :=
  if errors_Is err Canceled then Status codes_Canceled "inference canceled"
  else if errors_Is err DeadlineExceeded then Status codes_DeadlineExceeded "inference deadline exceeded"
  else Status codes_Internal fallback.

(** [err.Error()] of an error made by [errors.New] or [fmt.Errorf] without
    [%w], the only kind [requestsFromProto] returns. *)
Definition error_text (err : error) : string :=
  match err with Fresh msg => msg | _ => "" end.

(** ** The service *)

Module Service.
Section service.
Context {W : Type}.

Record t := mk { Engine : option (Inference W); AuthToken : string }.

(** [values] is the incoming metadata for the key "authorization". *)
Definition Score (s : t) (ctx : Context) (now : Z) (values : list string) (request : option ScoreRequest) (w : W) :
    outcome W (result ScoreResponse) :=
  match Engine s with
  | None => (w, now, Err (Status codes_Unavailable "worker unavailable"))
  | Some engine =>
      if bool_decide (AuthToken s ≠ "") && negb (bool_decide (values = ["Bearer " +:+ AuthToken s]))
      then (w, now, Err (Status codes_Unauthenticated "unauthorized"))
      else
        match requestsFromProto request with
        | Err err => (w, now, Err (Status codes_InvalidArgument (error_text err)))
        | Ok requests =>
            let '(w, t, r) := Infer engine ctx now requests w in
            match r with
            | Err err => (w, t, Err (contextStatus err "inference failed"))
            | Ok results =>
                match validateResults results (Z.of_nat (length requests)) with
                | Some _ => (w, t, Err (Status codes_Internal "invalid inference result"))
                | None => (w, t, Ok (resultsToProto results))
                end
            end
        end
  end.

(** [engineHealthServer.Check]: the name of the serving status. *)
Definition Check (engine : option (Inference W)) (ctx : Context) (now : Z) (w : W) : outcome W string :=
  match engine with
  | None => (w, now, "NOT_SERVING")
  | Some engine =>
      let '(w, t, err) := Healthy engine ctx now w in
      (w, t, match err with None => "SERVING" | Some _ => "NOT_SERVING" end)
  end.
End service.
Arguments t : clear implicits.
End Service.

(** ** The client *)

(** [requestMetadata]: the request id and the caller's authorization header. *)
Record requestMetadata := mkMetadata { meta_requestID : string; meta_authorization : string }.

Module GRPCClient.
Section client.
Context {W : Type}.
(** The RPCs over the connection: outgoing metadata and message. *)
Context (rpc_Score : Context → Z → list (string * string) → ScoreRequest → W → outcome W (result (option ScoreResponse))).
Context (rpc_Check : Context → Z → W → outcome W (result string)).

Record t := mk { connected : bool; authToken : string }.

(** The metadata appended to the outgoing context. *)
Definition outgoing (c : t) (meta : option requestMetadata) : list (string * string) :=
  match meta with
  | Some value =>
      (if bool_decide (meta_requestID value ≠ "") then [("x-request-id", meta_requestID value)] else [])
      ++ (if bool_decide (authToken c = "") && bool_decide (meta_authorization value ≠ "")
          then [("authorization", meta_authorization value)] else [])
  | None => []
  end
  ++ (if bool_decide (authToken c ≠ "") then [("authorization", "Bearer " +:+ authToken c)] else []).

Definition Infer (c : t) (meta : option requestMetadata) (ctx : Context) (now : Z) (requests : list Request) (w : W) :
    outcome W (result (list Result)) :=
  if negb (connected c) then (w, now, Err (Fresh "worker client is closed"))
  else
    match validateRequests requests false with
    | Some err => (w, now, Err err)
    | None =>
        let '(w, t, r) := rpc_Score ctx now (outgoing c meta) (requestsToProto requests) w in
        match r with
        | Err err => (w, t, Err err)
        | Ok response =>
            let results := resultsFromProto response in
            match validateResults results (Z.of_nat (length requests)) with
            | Some err => (w, t, Err err)
            | None => (w, t, Ok results)
            end
        end
    end.

Definition Healthy (c : t) (ctx : Context) (now : Z) (w : W) : outcome W (option error) :=
  if negb (connected c) then (w, now, Some (Fresh "worker client is closed"))
  else
    let '(w, t, r) := rpc_Check ctx now w in
    match r with
    | Err err => (w, t, Some err)
    | Ok status => (w, t, if bool_decide (status ≠ "SERVING")
                          then Some (Fresh ("worker health status is " +:+ status)) else None)
    end.

(** The client as an [Inference], for requests with the given metadata. *)
Definition inference (c : t) (meta : option requestMetadata) : Inference W :=
  mkInference (Infer c meta) (Healthy c).
End client.
End GRPCClient.

(** ** Transport security *)

Record TransportConfig := mkTransport {
  Insecure : bool;
  tc_ServerName : string;
  tc_CAFile : string;
  tc_CertFile : string;
  tc_KeyFile : string;
  RequireClientCert : bool;
}.

(** [credentials.TransportCredentials]: plaintext or a TLS configuration; a
    server's also says which client certificates it requires and trusts. *)
Inductive credentials `{TLSFiles} :=
| InsecureCredentials
| TLSCredentials (config : tls_Config) (client_CAs : option CertPool).

Section credentials.
Context `{TLSFiles}.

Definition clientCredentials (config : TransportConfig) : result credentials :=
  if Insecure config then Ok InsecureCredentials
  else if bool_decide (tc_CAFile config = "")
  then Err (Fresh "worker TLS CA file is required unless development insecure mode is enabled")
  else
    let! pem := wrap_err "read worker TLS CA" (ReadFile (tc_CAFile config)) in
    match AppendCertsFromPEM pem with
    | None => Err (Fresh "worker TLS CA contains no certificates")
    | Some roots =>
        if negb (Bool.eqb (bool_decide (tc_CertFile config = "")) (bool_decide (tc_KeyFile config = "")))
        then Err (Fresh "worker client TLS cert and key must be supplied together")
        else
          let! certs :=
            if bool_decide (tc_CertFile config ≠ "") then
              let! cert := wrap_err "load worker client certificate"
                             (LoadX509KeyPair (tc_CertFile config) (tc_KeyFile config)) in
              Ok [cert]
            else Ok [] in
          Ok (TLSCredentials (mkTLS _ VersionTLS13 (Some roots) (tc_ServerName config) certs) None)
    end.

(** [None] is the nil credentials of the insecure mode. *)
Definition ServerCredentials (config : TransportConfig) : result (option credentials) :=
  if Insecure config then Ok None
  else if bool_decide (tc_CertFile config = "") || bool_decide (tc_KeyFile config = "")
  then Err (Fresh "worker TLS certificate and key are required unless development insecure mode is enabled")
  else
    let! cert := wrap_err "load worker TLS certificate"
                   (LoadX509KeyPair (tc_CertFile config) (tc_KeyFile config)) in
    let! pool :=
      if RequireClientCert config then
        if bool_decide (tc_CAFile config = "") then Err (Fresh "worker client CA is required for mutual TLS")
        else
          let! pem := wrap_err "read worker client CA" (ReadFile (tc_CAFile config)) in
          match AppendCertsFromPEM pem with
          | None => Err (Fresh "worker client CA contains no certificates")
          | Some pool => Ok (Some pool)
          end
      else Ok None in
    Ok (Some (TLSCredentials (mkTLS _ VersionTLS13 None "" [cert]) pool)).

(** [DialWithTransport]; [dial] is [grpc.DialContext] with blocking. *)
Definition DialWithTransport (dial : string → credentials → option error) (address authToken : string)
    (config : TransportConfig) : result GRPCClient.t :=
  if bool_decide (address = "") then Err (Fresh "worker address is required")
  else
    let! transport := clientCredentials config in
    match dial address transport with
    | Some err => Err err
    | None => Ok (GRPCClient.mk true authToken)
    end.

Definition DialInsecureForDevelopment (dial : string → credentials → option error) (address authToken : string) :
    result GRPCClient.t :=
  DialWithTransport dial address authToken (mkTransport true "" "" "" "" false).

(** [GRPCClient.Close]: [closed] is the state of the [sync.Once]; a nil client
    or connection has nothing to close. *)
Definition Close (conn_Close : option error) (c : option GRPCClient.t) (closed : bool) : bool * option error :=
  match c with
  | Some c => if negb (GRPCClient.connected c) then (closed, None)
              else if closed then (closed, None) else (true, conn_Close)
  | None => (closed, None)
  end.

(** ** Serving *)

Definition MaxRPCMessageBytes : Z := 512 * 1024.

Inductive ServerOption := MaxRecvMsgSize (n : Z) | Creds (c : credentials).

(** What a [grpc.Server] was created with and serves. *)
Record Server (W : Type) := mkServer {
  server_options : list ServerOption;
  score_service : Service.t W;
  health_engine : option (Inference W);
}.
Arguments mkServer {W}.
Arguments server_options {W}.
Arguments score_service {W}.
Arguments health_engine {W}.

Definition serve {W} (engine : option (Inference W)) (authToken : string) (options : list ServerOption) : Server W :=
  mkServer (MaxRecvMsgSize MaxRPCMessageBytes :: options) (Service.mk engine authToken) engine.

Definition ServeWithTransportObserved {W} (engine : option (Inference W)) (authToken : string) (config : TransportConfig)
    (options : list ServerOption) : result (Server W) :=
  let! transport := ServerCredentials config in
  Ok (serve engine authToken
        (match transport with Some c => options ++ [Creds c] | None => options end)).

(** The other two entry points drop the channel of serve errors. *)
Definition ServeWithTransport {W} (engine : option (Inference W)) (authToken : string) (config : TransportConfig)
    (options : list ServerOption) : result (Server W) :=
  ServeWithTransportObserved engine authToken config options.
Definition ServeInsecureForDevelopment {W} (engine : option (Inference W)) (authToken : string)
    (options : list ServerOption) : Server W :=
  serve engine authToken options.
End credentials.
Arguments mkServer {_ W}.
Arguments server_options {_ W}.
Arguments score_service {_ W}.
Arguments health_engine {_ W}.
