(* ===== verification/WorkerGrpcTheorems.v ===== *)
(** * The gRPC hop: claims

    The conversions between requests, results and messages are inverse on
    validated data, so client and service connected by a transport behave like
    the engine behind the service; and what a client returns is valid whatever
    the peer sends. *)

From Stdlib Require Import ZArith Lia SpecFloat.
From stdpp Require Import prelude gmap strings list.
From S2P Require Import Prelude GoFloat GoString GoContext GoTLS Worker Pool WorkerGrpc.

#[local] Open Scope Z_scope.

(** ** The conversions are inverse on validated messages *)

Lemma items_of_requestsToProto rs : items_of (pb_Requests (requestsToProto rs)) = Ok rs.
Proof.
  unfold requestsToProto. simpl. induction rs as [|[fs a] rs IH]; [done|].
  rewrite fmap_cons. cbn [items_of]. by rewrite IH.
Qed.

Lemma first_error_none {A} (f : Z → A → option error) i l :
  first_error f i l = None → ∀ j x, l !! j = Some x → ∃ k, f k x = None.
Proof.
  revert i. induction l as [|y l IH]; intros i H j x Hj; [by rewrite lookup_nil in Hj|].
  simpl in H. destruct (f i y) eqn:E; [done|]. destruct j as [|j]; simpl in Hj; [simplify_eq; eauto|eauto].
Qed.

Lemma existsb_false_forall {A} (f : A → bool) l : existsb f l = false → Forall (λ x, f x = false) l.
Proof. induction l as [|x l IH]; simpl; [done|]. intros H. bool_to_prop. constructor; auto. Qed.

Lemma validate_result_none i r :
  validate_result i r = None →
  bad_unit (Score r) = false ∧ bad_unit (Confidence r) = false ∧
  (length (res_Explanation r) <= 3)%nat ∧ Forall (λ d, bad_explanation d = false) (res_Explanation r).
Proof.
  unfold validate_result. destruct (bad_unit (Score r)); [done|]. destruct (bad_unit (Confidence r)); [done|].
  destruct (Z.ltb_spec MaxExplanations (Z.of_nat (length (res_Explanation r)))) as [|Hl]; [done|].
  destruct (existsb bad_explanation (res_Explanation r)) eqn:He; [done|]. intros _.
  split_and!; [done|done|unfold MaxExplanations in Hl; lia|by apply existsb_false_forall].
Qed.

Lemma explanations_roundtrip ds room :
  (length ds <= room)%nat → Forall (λ d, bad_explanation d = false) ds →
  explanations_from room ((λ d, Some (mkPbExplanation (to_uint32 (FeatureIndex d)) (Impact d))) <$> ds) = ds.
Proof.
  intros Hl Hd. revert room Hl. induction Hd as [|[i x] ds Hb _ IH]; intros [|room] Hl; simpl in *; try done; try lia.
  rewrite IH by lia. unfold bad_explanation in Hb. simpl in Hb. bool_to_prop. unfold to_uint32.
  rewrite Z.mod_small; [done|]. unfold MaxFeatureWidth in *. lia.
Qed.

Lemma results_roundtrip rs n :
  validateResults rs n = None → resultsFromProto (Some (resultsToProto rs)) = rs.
Proof.
  unfold validateResults. case_if; [done|]. intros Hv. pose proof (first_error_none _ _ _ Hv) as Hall.
  unfold resultsFromProto, resultsToProto. simpl. rewrite <- list_fmap_compose.
  apply list_eq. intros j. rewrite list_lookup_fmap. destruct (rs !! j) as [r|] eqn:Hj; [|done]. simpl. f_equal.
  destruct (Hall j r Hj) as [k Hk]. apply validate_result_none in Hk as (_ & _ & Hl & Hd).
  rewrite explanations_roundtrip by done. by destruct r.
Qed.

(** ** Client and service connected *)

(** The authorization values a client sends. *)
Definition sent_authorization (md : list (string * string)) : list string :=
  omap (λ kv : string * string, if bool_decide (kv.1 = "authorization") then Some kv.2 else None) md.

(** A transport that hands message and metadata to the service. *)
Definition direct {W} (s : Service.t W) (ctx : Context) (now : Z) (md : list (string * string))
    (request : ScoreRequest) (w : W) : outcome W (result (option ScoreResponse)) :=
  let '(w, t, r) := Service.Score s ctx now (sent_authorization md) (Some request) w in
  (w, t, match r with Ok x => Ok (Some x) | Err e => Err e end).

Lemma validateRPC_none rs :
  validateRPCRequests rs = None → validateRequests rs false = None.
Proof. unfold validateRPCRequests. by destruct (validateRequests rs false). Qed.

Lemma outgoing_authorized c meta :
  GRPCClient.authToken c ≠ "" →
  sent_authorization (GRPCClient.outgoing c meta) = ["Bearer " +:+ GRPCClient.authToken c].
Proof.
  intros Hne. unfold GRPCClient.outgoing. rewrite (bool_decide_eq_false_2 (_ = "")), bool_decide_eq_true_2 by done.
  destruct meta as [[id auth]|]; simpl; [|done]. case_bool_decide; done.
Qed.

(** What the other side of the hop makes of the engine's answer. *)
Definition relayed (n : nat) (r : result (list Result)) : result (list Result) :=
  match r with
  | Err err => Err (contextStatus err "inference failed")
  | Ok results => match validateResults results (Z.of_nat n) with
                  | None => Ok results
                  | Some _ => Err (Status codes_Internal "invalid inference result")
                  end
  end.

(** C12: the RPC hop is transparent and authenticated.  For a batch the
    service accepts, the client's [Infer] returns exactly the results of the
    engine behind the service when they are valid, the mapped status when the
    engine fails, and an internal error when the engine's results are invalid;
    but when the service has a token and the client does not send it as its
    only authorization value, the engine is not called and the answer is
    Unauthenticated.  A client configured with the service's token is always
    served, one without a token forwards its caller's header. *)
Theorem rpc_transparent {W} (engine : Inference W) token c meta ctx now rs w w' t r rpc_check :
  GRPCClient.connected c = true → validateRPCRequests rs = None →
  Infer engine ctx now rs w = (w', t, r) →
  let values := sent_authorization (GRPCClient.outgoing c meta) in
  Infer (GRPCClient.inference (direct (Service.mk (Some engine) token)) rpc_check c meta) ctx now rs w =
    (if bool_decide (token = "" ∨ values = ["Bearer " +:+ token]) then (w', t, relayed (length rs) r)
     else (w, now, Err (Status codes_Unauthenticated "unauthorized"))) ∧
  (GRPCClient.authToken c = token → token = "" ∨ values = ["Bearer " +:+ token]) ∧
  (∀ id auth, meta = Some (mkMetadata id auth) → GRPCClient.authToken c = "" → auth ≠ "" → values = [auth]).
Proof.
  intros Hc Hv Hinf values. split_and!.
  - cbn [Infer GRPCClient.inference]. unfold GRPCClient.Infer. rewrite Hc. cbn [negb].
    rewrite (validateRPC_none _ Hv). unfold direct, Service.Score. cbn [Service.Engine Service.AuthToken].
    assert (bool_decide (token ≠ "") && negb (bool_decide (values = ["Bearer " +:+ token])) =
            negb (bool_decide (token = "" ∨ values = ["Bearer " +:+ token]))) as Hb.
    { repeat case_bool_decide; naive_solver. }
    fold values. rewrite Hb. clear Hb.
    destruct (bool_decide (token = "" ∨ values = ["Bearer " +:+ token])); cbn [negb]; [|done].
    unfold requestsFromProto. pose proof (items_of_requestsToProto rs) as Hit. simpl in Hit |- *. rewrite Hit. simpl. rewrite Hv, Hinf.
    destruct r as [results|err]; [|done]. unfold relayed.
    destruct (validateResults results (Z.of_nat (length rs))) eqn:Hr; [done|].
    by rewrite (results_roundtrip _ _ Hr), Hr.
  - intros <-. destruct (decide (GRPCClient.authToken c = "")); [by left|right]. by apply outgoing_authorized.
  - intros id auth -> Ha Hne. unfold values, GRPCClient.outgoing. simpl. rewrite Ha. simpl.
    rewrite (bool_decide_eq_true_2 (auth ≠ "")) by done. by case_bool_decide.
Qed.

Definition demo_request : Request := mkRequest (replicate 32 fone) fone.
Definition demo_result : Result := mkResult f_0_5 fzero [mkExplanation 3 fone] "m" "c" "p" "f" false "".
Definition demo_engine : Inference unit :=
  mkInference (λ ctx t rs w, (w, t, Ok ((λ _, demo_result) <$> rs))) (λ ctx t w, (w, t, None)).

Lemma rpc_transparent_witness :
  Infer (GRPCClient.inference (direct (Service.mk (Some demo_engine) "tok"))
           (λ _ t w, (w, t, Ok "SERVING")) (GRPCClient.mk true "tok") None) Background 5 [demo_request] tt
  = (tt, 5, Ok [demo_result]).
Proof.
  destruct (rpc_transparent demo_engine "tok" (GRPCClient.mk true "tok") None Background 5 [demo_request] tt tt 5
    (Ok [demo_result]) (λ _ t w, (w, t, Ok "SERVING"))) as [H _]; [reflexivity|vm_compute; reflexivity|reflexivity|].
  rewrite H. vm_compute. reflexivity.
Defined.

(** Whatever the peer sends, the results the client hands to the gateway
    are one per request, with scores and confidences in [0, 1] (so never a
    NaN) and at most three explanations each. *)
Theorem client_results_valid {W} rpc_score rpc_check c meta ctx now rs (w w' : W) t results :
  Infer (GRPCClient.inference rpc_score rpc_check c meta) ctx now rs w = (w', t, Ok results) →
  length results = length rs ∧
  Forall (λ r, fle fzero (Score r) = true ∧ fle (Score r) fone = true ∧
               fle fzero (Confidence r) = true ∧ fle (Confidence r) fone = true ∧
               (length (res_Explanation r) <= 3)%nat) results.
Proof.
  simpl. unfold GRPCClient.Infer. case_if; [done|]. destruct (validateRequests rs false); [done|].
  destruct (rpc_score _ _ _ _ _) as [[w1 t1] [resp|err]]; [|done].
  destruct (validateResults _ _) eqn:Hv; [done|]. intros [= <- <- <-].
  unfold validateResults in Hv. case_if; [done|]. bool_to_prop. split; [lia|].
  apply Forall_lookup_2. intros j r Hj. destruct (first_error_none _ _ _ Hv j r Hj) as [k Hk].
  apply validate_result_none in Hk as (Hs & Hc & Hl & _).
  assert (∀ x, bad_unit x = false → fle fzero x = true ∧ fle x fone = true) as Hu.
  { intros x Hx. unfold bad_unit, fgt in Hx. bool_to_prop.
    repeat match goal with H : flt _ _ = false |- _ => rewrite flt_fle in H by done; apply negb_false_iff in H end.
    done. }
  destruct (Hu _ Hs), (Hu _ Hc). done.
Qed.

Lemma client_results_valid_witness :
  length [demo_result] = length [demo_request] ∧
  Forall (λ r, fle fzero (Score r) = true ∧ fle (Score r) fone = true ∧
               fle fzero (Confidence r) = true ∧ fle (Confidence r) fone = true ∧
               (length (res_Explanation r) <= 3)%nat) [demo_result].
Proof.
  apply (client_results_valid (direct (Service.mk (Some demo_engine) "tok")) (λ _ t w, (w, t, Ok "SERVING"))
    (GRPCClient.mk true "tok") None Background 5 [demo_request] tt tt 5 [demo_result]).
  vm_compute. reflexivity.
Defined.
