(* ===== verification/Gateway.v ===== *)
(** * Package [gateway]: the HTTP scoring gateway

    [serving_plane/gateway/gateway.go].  A handler is a function of the
    request and the gateway's state; the feature store is any [Store], the
    scheduler's [Submit] and the engine are calls on a world [W].  JSON
    decoding (with its size limit and the check for trailing data) and the
    random request ids are parameters; of JSON encoding, which values it
    refuses is modelled. *)

From Stdlib Require Import ZArith Lia SpecFloat.
From stdpp Require Import prelude gmap strings list.
From S2P Require Import Prelude GoFloat GoString GoContext Materialize Exposition FeatureStore Scheduler Worker Pool.

#[local] Open Scope Z_scope.

Record Config := mkConfig {
  AuthToken : string;
  Timeout : Z;
  FeatureTimeout : Z;
  QueueDelay : Z;
  InferenceTimeout : Z;
  DenyScore : float64;
}.

Record scoreRequest := mkScoreReq { in_EntityID : string; in_Amount : float64 }.

Record scoreResponse := mkScoreResp {
  out_RequestID : string;
  out_Score : float64;
  out_Confidence : float64;
  out_Decision : string;
  out_Explanation : list Explanation;
  out_Model : string;
  out_CalibrationVersion : string;
  out_PolicyVersion : string;
  out_FeatureVersion : string;
  out_Fallback : bool;
  out_FallbackReason : string;
}.

(** What is written: a status code and a JSON value, or no value at all. *)
Inductive body := ErrorBody (error : string) | StatusBody (status : string) | ScoreBody (r : scoreResponse) | NoBody.
Record response := mkResponse { status : Z; content : body }.

(** [json.Encoder.Encode] fails on a NaN or an infinity, before it writes. *)
Definition json_encodable (value : body) : bool :=
  match value with
  | ScoreBody r =>
      forallb (λ x, negb (IsNaN x || IsInf x))
        (out_Score r :: out_Confidence r :: (Impact <$> out_Explanation r))
  | _ => true
  end.

(** [write]: the status goes out first and an error of the encoder is dropped. *)
Definition write (status : Z) (value : body) : response :=
  mkResponse status (if json_encodable value then value else NoBody).

Record http_request := mkHTTP {
  header_Authorization : string;
  header_RequestID : string;
  http_body : string;
  http_ctx : Context;
}.

(** The atomic counters of [Gateway]. *)
Record counters := mkCounters {
  requests : Z;
  denied : Z;
  failures : Z;
  featureFallbacks : Z;
  queueFallbacks : Z;
  workerFallbacks : Z;
  requestNanos : Z;
  requestBuckets : list Z;
}.
Definition no_counters : counters := mkCounters 0 0 0 0 0 0 0 [0; 0; 0; 0; 0; 0; 0].

Definition requestDurationBounds : list Z :=
  [100 * Microsecond; 500 * Microsecond; Millisecond; 5 * Millisecond; 10 * Millisecond; 40 * Millisecond].

Definition add_request (c : counters) : counters := mkCounters (wrap64 (requests c + 1)) (denied c)
  (failures c) (featureFallbacks c) (queueFallbacks c) (workerFallbacks c) (requestNanos c) (requestBuckets c).
Definition add_denied (c : counters) : counters := mkCounters (requests c) (wrap64 (denied c + 1))
  (failures c) (featureFallbacks c) (queueFallbacks c) (workerFallbacks c) (requestNanos c) (requestBuckets c).
Definition add_failure (c : counters) : counters := mkCounters (requests c) (denied c)
  (wrap64 (failures c + 1)) (featureFallbacks c) (queueFallbacks c) (workerFallbacks c) (requestNanos c) (requestBuckets c).

Definition observeRequest (duration : Z) (c : counters) : counters :=
  mkCounters (requests c) (denied c) (failures c) (featureFallbacks c) (queueFallbacks c) (workerFallbacks c)
    (wrap64 (requestNanos c + duration)) (add_buckets requestDurationBounds (requestBuckets c) duration).

(** The switch of [respondFallback]. *)
Definition count_fallback (reason : string) (c : counters) : counters :=
  if bool_decide (reason = FallbackFeatureUnavailable) then
    mkCounters (requests c) (denied c) (failures c) (wrap64 (featureFallbacks c + 1)) (queueFallbacks c)
      (workerFallbacks c) (requestNanos c) (requestBuckets c)
  else if bool_decide (reason = FallbackQueueDeadline) then
    mkCounters (requests c) (denied c) (failures c) (featureFallbacks c) (wrap64 (queueFallbacks c + 1))
      (workerFallbacks c) (requestNanos c) (requestBuckets c)
  else
    mkCounters (requests c) (denied c) (failures c) (featureFallbacks c) (queueFallbacks c)
      (wrap64 (workerFallbacks c + 1)) (requestNanos c) (requestBuckets c).

(** The defaults [New] fills in. *)
Definition with_defaults (cfg : Config) : Config :=
  mkConfig (AuthToken cfg)
    (if Timeout cfg <=? 0 then 40 * Millisecond else Timeout cfg)
    (if FeatureTimeout cfg <=? 0 then 10 * Millisecond else FeatureTimeout cfg)
    (if QueueDelay cfg <=? 0 then 2 * Millisecond else QueueDelay cfg)
    (if InferenceTimeout cfg <=? 0 then 20 * Millisecond else InferenceTimeout cfg)
    (if fle (DenyScore cfg) fzero then f_0_5 else DenyScore cfg).

(** The batch handler given to the scheduler. *)
Definition batch_handler {W} (engine : Inference W) (cfg : Config) (ctx : Context) (now : Z) (reqs : list Request) (w : W) :
    outcome W (result (list Result)) :=
  Infer engine (WithTimeout ctx now (InferenceTimeout cfg)) now reqs w.

(** The scheduler [New] starts; the channels' capacities are its first two
    arguments. *)
Definition new_scheduler (cfg : Config) (now : Z) : result (sched Request Result) :=
  Scheduler.New 256 32 (QueueDelay cfg) true now.

Definition authorized (cfg : Config) (r : http_request) : bool :=
  if bool_decide (AuthToken cfg = "") then true
  else
    let v := header_Authorization r in
    HasPrefix v "Bearer " && bool_decide (TrimPrefix v "Bearer " = AuthToken cfg).

(** Printable, whitespace-free ASCII of at most 128 bytes. *)
Definition validRequestID (value : string) : bool :=
  negb (len value =? 0) && negb (128 <? len value)
  && forallb (λ b, negb (b <? 0x21) && negb (0x7e <? b)) (bytes value).

Definition validEntityID (value : string) : bool :=
  bool_decide (value ≠ "") && (len value <=? 256) && ValidString value
  && bool_decide (TrimSpace value = value) && no_rune IsControl value.

Section gateway.
Context {S W : Type} `{Store S}.
(** [scheduler.Submit] and [engine.Healthy]. *)
Context (Submit : Context → Z → Request → W → outcome W (result Result)).
Context (engine_Healthy : Context → Z → W → outcome W (option error)).
(** The strict decoder applied to the body, and [newRequestID]. *)
Context (decode_body : string → option scoreRequest).
Context (newRequestID : W → string).

Record Gateway := mkGateway {
  features : S;
  world : W;
  config : Config;
  stats : counters;
}.
Definition count (f : counters → counters) (g : Gateway) : Gateway :=
  mkGateway (features g) (world g) (config g) (f (stats g)).
Definition with_features (s : S) (g : Gateway) : Gateway := mkGateway s (world g) (config g) (stats g).
Definition with_world (w : W) (g : Gateway) : Gateway := mkGateway (features g) w (config g) (stats g).

(** [New]: the engine and the scheduler it starts are in [w]. *)
Definition New (s : option S) (w : option W) (cfg : Config) : result Gateway :=
  match s, w with
  | Some s, Some w => Ok (mkGateway s w (with_defaults cfg) no_counters)
  | _, _ => Err (Fresh "features and inference engine are required")
  end.

(** [Close] closes the scheduler. *)
Definition Close (scheduler_Close : W → W) (g : Gateway) : Gateway :=
  with_world (scheduler_Close (world g)) g.

Definition fallback_response (id reason : string) : response :=
  write 503 (ScoreBody (mkScoreResp id fone fone "deny" [] "fail-closed" "unavailable" "fail-closed-v1"
    "rolling-features-v1-32" true reason)).

Definition respondFallback (id reason : string) (g : Gateway) : Gateway * response :=
  (count (count_fallback reason) g, fallback_response id reason).

(** Everything of [score] between the count of the request and the deferred
    [observeRequest]. *)
Definition score_body (id : string) (r : http_request) (now : Z) (g : Gateway) : Gateway * Z * response :=
  match decode_body (http_body r) with
  | None => (g, now, write 400 (ErrorBody "invalid request"))
  | Some inp =>
      if negb (validEntityID (in_EntityID inp)) || flt (in_Amount inp) fzero
      then (g, now, write 400 (ErrorBody "invalid request"))
      else
        let ctx := WithTimeout (http_ctx r) now (Timeout (config g)) in
        let featureCtx := WithTimeout ctx now (FeatureTimeout (config g)) in
        let '(s', t, fs) := Get featureCtx now (in_EntityID inp) (features g) in
        let g := with_features s' g in
        match fs with
        | Err _ =>
            let '(g, resp) := respondFallback id FallbackFeatureUnavailable (count add_failure g) in (g, t, resp)
        | Ok fs =>
            let '(w', t', res) := Submit ctx t (mkRequest fs (in_Amount inp)) (world g) in
            let g := with_world w' g in
            match res with
            | Err err =>
                let reason := if errors_Is err ErrQueueDelay || errors_Is err ErrFull
                              then FallbackQueueDeadline else FallbackWorkerUnavailable in
                let '(g, resp) := respondFallback id reason (count add_failure g) in (g, t', resp)
            | Ok res =>
                let decision := if fge (Score res) (DenyScore (config g)) then "deny" else "allow" in
                (g, t', write 200 (ScoreBody (mkScoreResp id (Score res) (Confidence res) decision
                   (res_Explanation res) (Model res) (CalibrationVersion res) (PolicyVersion res)
                   (FeatureVersion res) (Worker.Fallback res) (FallbackReason res))))
            end
        end
  end.

Definition score (id : string) (r : http_request) (now : Z) (g : Gateway) : Gateway * Z * response :=
  if negb (authorized (config g) r)
  then (count add_denied g, now, write 401 (ErrorBody "unauthorized"))
  else
    let '(g, t, resp) := score_body id r now (count add_request g) in
    (count (observeRequest (t - now)) g, t, resp).

(** [GET /metrics]; [m] is what [scheduler.Metrics] returns. *)
Definition gateway_samples `{FloatText} (c : counters) (m : Metrics) : list sample :=
  [counter "fraud_gateway_requests_total" (requests c);
   counter "fraud_gateway_auth_denied_total" (denied c);
   labelled "fraud_gateway_fallback_total" "reason" FallbackFeatureUnavailable (featureFallbacks c);
   labelled "fraud_gateway_fallback_total" "reason" FallbackQueueDeadline (queueFallbacks c);
   labelled "fraud_gateway_fallback_total" "reason" FallbackWorkerUnavailable (workerFallbacks c);
   counter "fraud_gateway_fail_closed_total" (failures c)] ++
  buckets "fraud_gateway_request_duration_seconds" ["0.0001"; "0.0005"; "0.001"; "0.005"; "0.01"; "0.04"; "+Inf"]
    (requestBuckets c) ++
  [seconds_sum "fraud_gateway_request_duration_seconds_sum" (requestNanos c);
   counter "fraud_gateway_request_duration_seconds_count" (requests c)] ++
  buckets "fraud_scheduler_queue_duration_seconds" ["0.0001"; "0.0005"; "0.001"; "0.002"; "+Inf"] (QueueBuckets m) ++
  [seconds_sum "fraud_scheduler_queue_duration_seconds_sum" (QueueNanos m);
   counter "fraud_scheduler_queue_duration_seconds_count" (QueueCount m)] ++
  buckets "fraud_scheduler_batch_size" ["1"; "4"; "8"; "16"; "32"; "+Inf"] (BatchBuckets m) ++
  [counter "fraud_scheduler_batch_size_sum" (BatchItems m);
   counter "fraud_scheduler_batch_size_count" (BatchCount m)].
Definition gateway_metrics `{FloatText} (c : counters) (m : Metrics) : string := page (gateway_samples c m).

Definition health (g : Gateway) : response := write 200 (StatusBody "ok").

Definition ready (r : http_request) (now : Z) (g : Gateway) : Gateway * Z * response :=
  let ctx := WithTimeout (http_ctx r) now (Timeout (config g)) in
  let '(g, t, probe_err) :=
    match Probe (S := S) with
    | Some probe => let '(s', t, err) := probe ctx now (features g) in (with_features s' g, t, err)
    | None => (g, now, None)
    end in
  match probe_err with
  | Some _ => (g, t, write 503 (StatusBody "feature store unavailable"))
  | None =>
      let '(w', t', err) := engine_Healthy ctx t (world g) in
      let g := with_world w' g in
      match err with
      | Some _ => (g, t', write 503 (StatusBody "not ready"))
      | None => (g, t', write 200 (StatusBody "ready"))
      end
  end.

(** The [requestID] middleware: the id in the response header and in the context. *)
Definition request_id (r : http_request) (g : Gateway) : string :=
  if validRequestID (header_RequestID r) then header_RequestID r else newRequestID (world g).

(** [POST /v1/score] through the middleware: the header and the response. *)
Definition serve_score (r : http_request) (now : Z) (g : Gateway) : Gateway * Z * (string * response) :=
  let id := request_id r g in
  let '(g, t, resp) := score id r now g in (g, t, (id, resp)).
End gateway.
Arguments Gateway : clear implicits.
