(* ===== verification/GatewayTheorems.v ===== *)
(** * The gateway: claims

    It fails closed, and its counters and histogram are exact. *)

From Stdlib Require Import ZArith Lia SpecFloat.
From stdpp Require Import prelude gmap strings list.
From S2P Require Import Prelude GoFloat GoString GoContext Materialize Exposition FeatureStore Scheduler SchedulerMetrics Worker Pool Gateway.

#[local] Open Scope Z_scope.

(** The reason a fail-closed answer gives. *)
Definition fallback_reason (resp : response) : option string :=
  if decide (status resp = 503) then
    match content resp with ScoreBody b => Some (out_FallbackReason b) | _ => None end
  else None.

Section gateway.
Context {S W : Type} `{Store S}.
Context (Submit : Context → Z → Request → W → outcome W (result Result)).
Context (decode_body : string → option scoreRequest).

(** How an authorized request is answered. *)
Inductive answered (id : string) (r : http_request) (now : Z) (g : Gateway S W) :
    Gateway S W → Z → response → Prop :=
| ans_invalid :
    answered id r now g g now (write 400 (ErrorBody "invalid request"))
| ans_no_features inp s' t err :
    decode_body (http_body r) = Some inp →
    Get (WithTimeout (WithTimeout (http_ctx r) now (Timeout (config g))) now (FeatureTimeout (config g)))
      now (in_EntityID inp) (features g) = (s', t, Err err) →
    answered id r now g
      (count (count_fallback FallbackFeatureUnavailable) (count add_failure (with_features s' g))) t
      (fallback_response id FallbackFeatureUnavailable)
| ans_no_result inp s' t fs w' t' err reason :
    decode_body (http_body r) = Some inp →
    Get (WithTimeout (WithTimeout (http_ctx r) now (Timeout (config g))) now (FeatureTimeout (config g)))
      now (in_EntityID inp) (features g) = (s', t, Ok fs) →
    Submit (WithTimeout (http_ctx r) now (Timeout (config g))) t (mkRequest fs (in_Amount inp)) (world g)
      = (w', t', Err err) →
    reason = (if errors_Is err ErrQueueDelay || errors_Is err ErrFull
              then FallbackQueueDeadline else FallbackWorkerUnavailable) →
    answered id r now g (count (count_fallback reason) (count add_failure (with_world w' (with_features s' g)))) t'
      (fallback_response id reason)
| ans_scored inp s' t fs w' t' res :
    decode_body (http_body r) = Some inp →
    Get (WithTimeout (WithTimeout (http_ctx r) now (Timeout (config g))) now (FeatureTimeout (config g)))
      now (in_EntityID inp) (features g) = (s', t, Ok fs) →
    Submit (WithTimeout (http_ctx r) now (Timeout (config g))) t (mkRequest fs (in_Amount inp)) (world g)
      = (w', t', Ok res) →
    answered id r now g (with_world w' (with_features s' g)) t'
      (write 200 (ScoreBody (mkScoreResp id (Score res) (Confidence res)
         (if fge (Score res) (DenyScore (config g)) then "deny" else "allow")
         (res_Explanation res) (Model res) (CalibrationVersion res) (PolicyVersion res)
         (FeatureVersion res) (Worker.Fallback res) (FallbackReason res)))).

Lemma score_body_answered id r now (g : Gateway S W) g' t resp :
  score_body Submit decode_body id r now g = (g', t, resp) → answered id r now g g' t resp.
Proof.
  unfold score_body, respondFallback.
  destruct (decode_body (http_body r)) as [inp|] eqn:Hdec; [|intros [= <- <- <-]; apply ans_invalid].
  case_if; [intros [= <- <- <-]; apply ans_invalid|].
  destruct (Get _ now (in_EntityID inp) (features g)) as [[s' t1] [fs|err]] eqn:Hget;
    [|intros [= <- <- <-]; by eapply ans_no_features].
  simpl. destruct (Submit _ t1 _ _) as [[w' t2] [res|err]] eqn:Hsub; intros [= <- <- <-];
    [by eapply ans_scored|by eapply ans_no_result].
Qed.

(** The successful path, in the other direction. *)
Lemma score_scored id r now (g : Gateway S W) inp s' t fs w' t' res :
  authorized (config g) r = true → decode_body (http_body r) = Some inp →
  validEntityID (in_EntityID inp) = true → flt (in_Amount inp) fzero = false →
  Get (WithTimeout (WithTimeout (http_ctx r) now (Timeout (config g))) now (FeatureTimeout (config g)))
    now (in_EntityID inp) (features g) = (s', t, Ok fs) →
  Submit (WithTimeout (http_ctx r) now (Timeout (config g))) t (mkRequest fs (in_Amount inp)) (world g)
    = (w', t', Ok res) →
  ∃ g' b, score Submit decode_body id r now g = (g', t', write 200 (ScoreBody b)) ∧
    out_Score b = Score res ∧ failures (stats g') = failures (stats g).
Proof.
  intros Ha Hd Hv Hf Hg Hs. unfold score, score_body. rewrite Ha, Hd, Hv, Hf. simpl. rewrite Hg. simpl.
  rewrite Hs. by do 2 eexists.
Qed.

(** The counters of fallbacks add up. *)
Definition balanced (c : counters) : Prop :=
  wrap64 (failures c) = wrap64 (featureFallbacks c + queueFallbacks c + workerFallbacks c).

Lemma balanced_fallback reason c : balanced c → balanced (count_fallback reason (add_failure c)).
Proof.
  unfold balanced, count_fallback. intros Hb.
  assert (wrap64 (wrap64 (failures c + 1)) =
          wrap64 (featureFallbacks c + queueFallbacks c + workerFallbacks c + 1)) as Hs.
  { unfold wrap64 in *. rewrite Zmod_mod, <- (Zplus_mod_idemp_l (failures c)), Hb. by rewrite Zplus_mod_idemp_l. }
  assert (∀ a b x, wrap64 (a + wrap64 (b + 1) + x) = wrap64 (a + b + x + 1)) as Hw.
  { intros a b x. unfold wrap64. replace (a + (b + 1) mod 2 ^ 64 + x) with ((b + 1) mod 2 ^ 64 + (a + x)) by lia.
    rewrite Zplus_mod_idemp_l. f_equal. lia. }
  repeat case_bool_decide; cbn [failures featureFallbacks queueFallbacks workerFallbacks add_failure]; rewrite Hs.
  - pose proof (Hw 0 (featureFallbacks c) (queueFallbacks c + workerFallbacks c)) as E.
    rewrite !Z.add_0_l, !Z.add_assoc in E. by rewrite E.
  - by rewrite Hw.
  - pose proof (Hw (featureFallbacks c + queueFallbacks c) (workerFallbacks c) 0) as E.
    rewrite !Z.add_0_r in E. by rewrite E.
Qed.

(** A score request that was answered: whether it was authorized, how long
    it took and what the answer was. *)
Record served := mkServed { by_authorized : bool; took : Z; answer : response }.

(** Gateways that have served a sequence of score requests, newest first. *)
Context (newRequestID : W → string).
Inductive serving : list served → Gateway S W → Prop :=
| serving_new s w cfg g : New s w cfg = Ok g → serving [] g
| serving_score log r now g g' t id resp :
    serving log g → serve_score Submit decode_body newRequestID r now g = (g', t, (id, resp)) →
    serving (mkServed (authorized (config g) r) (t - now) resp :: log) g'.

(** The requests that passed authentication, and the fail-closed answers. *)
Definition accepted (log : list served) : list served := filter (λ e, by_authorized e = true) log.
Definition refused (log : list served) : list served := filter (λ e, by_authorized e = false) log.
Definition failed (log : list served) : list served := filter (λ e, status (answer e) = 503) log.
Definition failed_for (reason : string) (log : list served) : list served :=
  filter (λ e, fallback_reason (answer e) = Some reason) log.

(** The counters after the requests of [log]. *)
Definition counters_of (log : list served) : counters :=
  mkCounters (wrap64 (Z.of_nat (length (accepted log)))) (wrap64 (Z.of_nat (length (refused log))))
    (wrap64 (Z.of_nat (length (failed log))))
    (wrap64 (Z.of_nat (length (failed_for FallbackFeatureUnavailable log))))
    (wrap64 (Z.of_nat (length (failed_for FallbackQueueDeadline log))))
    (wrap64 (Z.of_nat (length (failed_for FallbackWorkerUnavailable log))))
    (wrap64 (total (took <$> accepted log)))
    (bucket_counts requestDurationBounds (took <$> accepted log)).

(** One more answer. *)
Lemma counters_refused d resp log :
  status resp ≠ 503 → counters_of (mkServed false d resp :: log) = add_denied (counters_of log).
Proof.
  intros Hst. assert (fallback_reason resp = None) as Hr by (unfold fallback_reason; by rewrite decide_False).
  unfold counters_of, accepted, refused, failed, failed_for, add_denied. rewrite !filter_cons. simpl.
  rewrite Hr, decide_False by done. by rewrite !decide_False, wrap64_succ by done.
Qed.

Lemma counters_answered d resp log :
  status resp ≠ 503 →
  counters_of (mkServed true d resp :: log) = observeRequest d (add_request (counters_of log)).
Proof.
  intros Hst. assert (fallback_reason resp = None) as Hr by (unfold fallback_reason; by rewrite decide_False).
  unfold counters_of, accepted, refused, failed, failed_for, observeRequest, add_request. rewrite !filter_cons. simpl.
  rewrite Hr, !decide_False, <- bucket_counts_cons, <- wrap64_total by done. by rewrite wrap64_succ.
Qed.

Lemma counters_failed d id reason log :
  reason ∈ [FallbackFeatureUnavailable; FallbackQueueDeadline; FallbackWorkerUnavailable] →
  counters_of (mkServed true d (fallback_response id reason) :: log) =
    observeRequest d (count_fallback reason (add_failure (add_request (counters_of log)))).
Proof.
  intros Hin. unfold counters_of, accepted, refused, failed, failed_for. rewrite !filter_cons. cbn [answer by_authorized].
  rewrite !(decide_True (P := true = true)), fmap_cons, <- bucket_counts_cons, <- wrap64_total by done.
  repeat (apply elem_of_cons in Hin as [->|Hin]); [..|by apply elem_of_nil in Hin];
    unfold observeRequest, count_fallback; rewrite ?bool_decide_eq_true_2 by done;
    cbn -[wrap64 add_buckets bucket_counts total]; by rewrite !wrap64_succ.
Qed.

Lemma serving_balanced log g : serving log g → balanced (stats g).
Proof.
  induction 1 as [s w cfg g Hn|log r now g g' t id resp _ IH Hs].
  { unfold New in Hn. destruct s, w; try done. by injection Hn as <-. }
  unfold serve_score, score in Hs. destruct (authorized (config g) r); simpl in Hs; [|by injection Hs as <- _ _ _].
  destruct (score_body _ _ _ r now (count add_request g)) as [[g1 t1] resp1] eqn:Hsb.
  injection Hs as <- _ _ _. apply score_body_answered in Hsb.
  destruct Hsb; simpl; try apply (balanced_fallback _ (add_request (stats g))); exact IH.
Qed.

Lemma serving_counters log g : serving log g → stats g = counters_of log.
Proof.
  induction 1 as [s w cfg g Hn|log r now g g' t id resp _ IH Hs].
  { unfold New in Hn. destruct s, w; try done. by injection Hn as <-. }
  unfold serve_score, score in Hs. destruct (authorized (config g) r); simpl in Hs.
  2:{ injection Hs as <- <- _ <-. simpl. by rewrite counters_refused, IH. }
  destruct (score_body _ _ _ r now (count add_request g)) as [[g1 t1] resp1] eqn:Hsb.
  injection Hs as <- <- _ <-. apply score_body_answered in Hsb. cbn [count stats].
  destruct Hsb; cbn [count stats with_features with_world] in *; rewrite ?IH.
  - by rewrite counters_answered.
  - rewrite counters_failed; [done|]. by left.
  - subst reason. rewrite counters_failed; [done|]. case_match; [by right; left|by right; right; left].
  - by rewrite counters_answered.
Qed.
End gateway.






(** ** Claims *)


Definition demo_decode (body : string) : option scoreRequest := Some (mkScoreReq "card-1" fone).
Definition demo_submit (score : float64) (ctx : Context) (now : Z) (q : Request) (w : unit) :
    outcome unit (result Result) :=
  (w, now + 1, Ok (mkResult score fone [] "m" "c" "p" "f" false "")).
Definition demo_http : http_request := mkHTTP "" "req-1" "{}" Background.


(** C36: the counters of the gateway are exact over any sequence of score
    requests, modulo 2^64.  The requests that passed authentication and those
    that did not are counted once each; [failures] is the number of 503
    answers and the three reason counters the numbers of 503 answers that give
    that reason, which add up to it; the sum and the histogram of durations
    are those of the requests that passed authentication, the bucket of a
    bound counting the requests that took at most that long and the last one
    all of them. *)
Theorem gateway_counters_exact {S W} `{Store S} Submit decode_body newRequestID log (g : Gateway S W) :
  serving Submit decode_body newRequestID log g →
  let ds := took <$> accepted log in
  requests (stats g) = wrap64 (Z.of_nat (length ds)) ∧
  denied (stats g) = wrap64 (Z.of_nat (length (refused log))) ∧
  failures (stats g) = wrap64 (Z.of_nat (length (failed log))) ∧
  featureFallbacks (stats g) = wrap64 (Z.of_nat (length (failed_for FallbackFeatureUnavailable log))) ∧
  queueFallbacks (stats g) = wrap64 (Z.of_nat (length (failed_for FallbackQueueDeadline log))) ∧
  workerFallbacks (stats g) = wrap64 (Z.of_nat (length (failed_for FallbackWorkerUnavailable log))) ∧
  wrap64 (failures (stats g)) =
    wrap64 (featureFallbacks (stats g) + queueFallbacks (stats g) + workerFallbacks (stats g)) ∧
  requestNanos (stats g) = wrap64 (total ds) ∧
  (∀ i b, requestDurationBounds !! i = Some b →
     requestBuckets (stats g) !! i = Some (wrap64 (Z.of_nat (length (filter (λ d, d <= b) ds))))) ∧
  last (requestBuckets (stats g)) = Some (requests (stats g)).
Proof.
  intros Hs ds. pose proof (serving_balanced _ _ _ _ _ Hs) as Hb. apply serving_counters in Hs as Hk. rewrite Hk in *.
  unfold ds. split_and!; try done.
  - by rewrite length_fmap.
  - intros i b Hi. cbn [requestBuckets counters_of]. unfold bucket_counts.
    rewrite lookup_app_l by (rewrite length_fmap; by apply lookup_lt_Some in Hi).
    by rewrite list_lookup_fmap, Hi.
  - cbn [requestBuckets requests counters_of]. unfold bucket_counts. by rewrite last_snoc, length_fmap.
Qed.

Definition demo_empty : Gateway Memory.t unit :=
  mkGateway (Memory.NewMemory 1) tt (with_defaults (mkConfig "" 0 0 0 0 fzero)) no_counters.

Lemma gateway_counters_exact_witness :
  let '(g, _, _) := serve_score (demo_submit fzero) demo_decode (λ _, "id") demo_http 0 demo_empty in
  failures (stats g) = 1 ∧ requests (stats g) = wrap64 1.
Proof.
  destruct (serve_score _ _ _ _ _ _) as [[g t] [id resp]] eqn:E. split; [vm_compute in E; by injection E as <- _ _ _|].
  refine (proj1 (gateway_counters_exact (demo_submit fzero) demo_decode (λ _, "id") [mkServed true (t - 0) resp] g _)).
  refine (serving_score _ _ _ [] demo_http 0 demo_empty g t id resp _ E).
  by apply (serving_new _ _ _ (Some (Memory.NewMemory 1)) (Some tt) (mkConfig "" 0 0 0 0 fzero)).
Defined.

(** A scraper reads the samples of the gateway's page back. *)
Lemma gateway_metrics_scraped `{FloatTextLaws} c m : scrape (gateway_metrics c m) = Some (gateway_samples c m).
Proof. apply scrape_page. unfold gateway_samples. clean_samples. Qed.
