(* ===== verification/GatewayMain.v ===== *)
(** * The gateway command

    [serving_plane/cmd/gateway/main.go]: how the environment becomes a feature
    store, an inference engine and a server, in the order [main] checks them.
    The Redis client, the gRPC dialer and the connections it returns are
    parameters; an error value ends the process with status 1 before anything
    is served.  A panic of [developmentFeatures] is such a value too. *)

From Stdlib Require Import ZArith Lia SpecFloat Ascii.
From stdpp Require Import prelude gmap strings list.
From S2P Require Import Prelude GoFloat GoString GoContext GoEnv GoTLS GoNet GoRedis Materialize FeatureStore Scheduler Worker Pool WorkerGrpc Gateway.

#[local] Open Scope Z_scope.
#[local] Open Scope go_scope.

(** ** Environment helpers *)

Section env.
Context `{Env}.

Fixpoint firstEnv (keys : list string) : string :=
  match keys with
  | [] => ""
  | key :: keys =>
      let value := TrimSpace (Getenv key) in
      if bool_decide (value ≠ "") then value else firstEnv keys
  end.

(** [duration] and [envBool] have the bodies of the stream processor's
    [envDuration] and [envBool]. *)
Definition duration (key : string) (fallback : Z) : Z := envDuration key fallback.

Definition requiredSecret (key : string) (developmentInsecure : bool) : result string :=
  let value := TrimSpace (Getenv key) in
  if bool_decide (value = "") && negb developmentInsecure
  then Err (Fresh (key ++ " is required unless FRAUD_DEVELOPMENT_INSECURE=true"))
  else Ok value.

Definition configuredRedis (address : string) (developmentInsecure : bool) : result Redis.RedisConfig :=
  let username := TrimSpace (Getenv "REDIS_USERNAME") in
  let password := Getenv "REDIS_PASSWORD" in
  let certFile := TrimSpace (Getenv "REDIS_TLS_CERT_FILE") in
  let keyFile := TrimSpace (Getenv "REDIS_TLS_KEY_FILE") in
  if bool_decide (username ≠ "") && bool_decide (password = "")
  then Err (Fresh "REDIS_USERNAME requires REDIS_PASSWORD")
  else if negb developmentInsecure && bool_decide (password = "")
          && (bool_decide (certFile = "") || bool_decide (keyFile = ""))
  then Err (Fresh "production Redis requires REDIS_PASSWORD or a TLS client certificate")
  else
    Ok (Redis.mkConfig address ModelFeatureWidth (duration "REDIS_TIMEOUT" (5 * Millisecond)) username password
          (negb developmentInsecure) (TrimSpace (Getenv "REDIS_TLS_CA_FILE"))
          (TrimSpace (Getenv "REDIS_TLS_SERVER_NAME")) certFile keyFile).
End env.

(** 0.1, 0.3 and 0.2, each as the nearest float64, and 29 zeros. *)
Definition development_vector : list float64 :=
  [S754_finite false 7205759403792794 (-56); S754_finite false 5404319552844595 (-54);
   S754_finite false 7205759403792794 (-55)] ++ replicate (Z.to_nat ModelFeatureWidth - 3) fzero.

Definition developmentFeatures : result Memory.t :=
  match Memory.Put "demo-account" development_vector (Memory.NewMemory ModelFeatureWidth) with
  | (_, Some err) => Err err
  | (memory, None) => Ok memory
  end.

(** ** The feature store *)

Section stores.
Context `{FloatText} {R : Type}.
Context (client_Get : Context → Z → string → R → outcome R (result string)).
Context (client_Ping : Context → Z → R → outcome R (option error)).

(** The dynamic type of [features]. *)
Inductive feature_store :=
| OnlyRedis (r : Redis.t (R := R))
| RedisWithLocal (f : Fallback.t (Redis.t (R := R)) Memory.t)
| OnlyMemory (m : Memory.t).

#[local] Instance redis_backend : Store (Redis.t (R := R)) := Redis.redis_store client_Get client_Ping.

Definition store_Get (ctx : Context) (now : Z) (key : string) (s : feature_store) :
    outcome feature_store (result (list float64)) :=
  match s with
  | OnlyRedis r => let '(r, t, x) := Get ctx now key r in (OnlyRedis r, t, x)
  | RedisWithLocal f => let '(f, t, x) := Get ctx now key f in (RedisWithLocal f, t, x)
  | OnlyMemory m => let '(m, t, x) := Get ctx now key m in (OnlyMemory m, t, x)
  end.

(** All three are [Prober]s. *)
Definition store_Probe (ctx : Context) (now : Z) (s : feature_store) : outcome feature_store (option error) :=
  match s with
  | OnlyRedis r => let '(r, t, x) := Redis.Probe client_Ping ctx now r in (OnlyRedis r, t, x)
  | RedisWithLocal f => let '(f, t, x) := Fallback.Probe ctx now f in (RedisWithLocal f, t, x)
  | OnlyMemory m => let '(m, t, x) := Memory.Probe ctx now m in (OnlyMemory m, t, x)
  end.

Definition configured_store : Store feature_store := {| Get := store_Get; Probe := Some store_Probe |}.

Context `{Env} `{TLSFiles} (NewClient : Options → R).

Definition configuredFeatures (developmentInsecure : bool) : result feature_store :=
  let address := TrimSpace (Getenv "REDIS_ADDR") in
  if bool_decide (address ≠ "") then
    let! storeConfig := configuredRedis address developmentInsecure in
    let! redisStore := Redis.NewRedisWithConfig NewClient storeConfig in
    if developmentInsecure then
      let! local := developmentFeatures in Ok (RedisWithLocal (Fallback.mk (Some redisStore) (Some local)))
    else Ok (OnlyRedis redisStore)
  else if negb developmentInsecure
  then Err (Fresh "REDIS_ADDR is required unless FRAUD_DEVELOPMENT_INSECURE=true")
  else let! local := developmentFeatures in Ok (OnlyMemory local).
End stores.
Arguments feature_store : clear implicits.

(** ** The inference engine *)

Section engine.
Context {W : Type} (Exp : float64 → float64).
Context `{Env} `{TLSFiles}.
(** [grpc.DialContext] with the timeout of its context, and the RPCs over the
    connection to an address. *)
Context (dial : Z → string → credentials → option error).
Context (conn_Score : string → Context → Z → list (string * string) → ScoreRequest → W → outcome W (result (option ScoreResponse))).
Context (conn_Check : string → Context → Z → W → outcome W (result string)).
(** [ctx.Value(requestMetadataKey{})]. *)
Context (ctx_metadata : Context → option requestMetadata).

Definition client_inference (address : string) (c : GRPCClient.t) : Inference W :=
  mkInference (λ ctx, GRPCClient.Infer (conn_Score address) c (ctx_metadata ctx) ctx)
              (GRPCClient.Healthy (conn_Check address) c).

(** The dynamic type of [engine]. *)
Inductive engine := InProcess (s : CPUScorer.t) | Remote (p : Pool.t W).

Definition engine_Infer (ctx : Context) (now : Z) (requests : list Request) (e : engine) :
    outcome engine (result (list Result)) :=
  match e with
  | InProcess s => (e, now, CPU_Infer Exp s ctx now requests)
  | Remote p => let '(p, t, r) := Pool.Infer ctx now requests p in (Remote p, t, r)
  end.
Definition engine_Healthy (ctx : Context) (now : Z) (e : engine) : outcome engine (option error) :=
  match e with
  | InProcess s => (e, now, CPUScorer.Healthy s)
  | Remote p => let '(p, t, r) := Pool.Healthy ctx now p in (Remote p, t, r)
  end.

(** The transport a worker is dialled with. *)
Definition worker_transport (developmentInsecure : bool) : TransportConfig :=
  mkTransport developmentInsecure (Getenv "FRAUD_WORKER_TLS_SERVER_NAME") (Getenv "FRAUD_WORKER_TLS_CA_FILE")
    (Getenv "FRAUD_GATEWAY_MTLS_CERT_FILE") (Getenv "FRAUD_GATEWAY_MTLS_KEY_FILE") false.

(** The loop over the addresses: blank ones and workers that cannot be dialled
    are skipped. *)
Fixpoint dial_workers (workerToken : string) (developmentInsecure : bool) (parts : list string) :
    list (string * GRPCClient.t) :=
  match parts with
  | [] => []
  | rawAddress :: parts =>
      let address := TrimSpace rawAddress in
      if bool_decide (address = "") then dial_workers workerToken developmentInsecure parts
      else
        match DialWithTransport (dial (duration "FRAUD_WORKER_DIAL_TIMEOUT" (2 * Second))) address workerToken
                (worker_transport developmentInsecure) with
        | Err _ => dial_workers workerToken developmentInsecure parts
        | Ok client => (address, client) :: dial_workers workerToken developmentInsecure parts
        end
  end.

(** The engine with the clients [main] closes at its end.  [NewPool] refuses
    only an empty list, so no client is open on its error path. *)
Definition configuredEngine (developmentInsecure : bool) (w : W) : result (engine * list (string * GRPCClient.t)) :=
  let addresses := firstEnv ["FRAUD_WORKER_ADDRS"; "FRAUD_WORKER_ADDR"] in
  if bool_decide (TrimSpace addresses = "") then
    if negb developmentInsecure
    then Err (Fresh "remote worker endpoints are required outside development insecure mode")
    else Ok (InProcess CPUScorer.DefaultCPUScorer, [])
  else
    let! workerToken := requiredSecret "FRAUD_WORKER_AUTH_TOKEN" developmentInsecure in
    let clients := dial_workers workerToken developmentInsecure (Split "," addresses) in
    let! pool := Pool.NewPool ((λ '(address, c), client_inference address c) <$> clients)
                   (duration "FRAUD_WORKER_PROBE_INTERVAL" Second) w in
    Ok (Remote pool, clients).
End engine.
Arguments engine : clear implicits.

(** ** The command *)

Section main.
Context `{FloatText} {R W : Type}.
Context (client_Get : Context → Z → string → R → outcome R (result string)).
Context (client_Ping : Context → Z → R → outcome R (option error)).
Context `{Env} `{TLSFiles} (NewClient : Options → R).
Context (dial : Z → string → credentials → option error).
Context (conn_Score : string → Context → Z → list (string * string) → ScoreRequest → W → outcome W (result (option ScoreResponse))).
Context (conn_Check : string → Context → Z → W → outcome W (result string)).
Context (ctx_metadata : Context → option requestMetadata).

(** [DenyScore] is left zero. *)
Definition configuredGateway (authToken : string) : Config :=
  mkConfig authToken (duration "FRAUD_TIMEOUT" (40 * Millisecond)) (duration "FRAUD_FEATURE_TIMEOUT" (10 * Millisecond))
    (duration "FRAUD_QUEUE_DELAY" (2 * Millisecond)) (duration "FRAUD_INFERENCE_TIMEOUT" (20 * Millisecond)) fzero.

(** The start-up probes of the store and the engine share one deadline. *)
Definition probe_dependencies (now : Z) (features : feature_store R) (e : engine W) :
    feature_store R * engine W * option error :=
  let startupCtx := WithTimeout Background now (duration "FRAUD_STARTUP_TIMEOUT" (5 * Second)) in
  let '(features, t, err) := store_Probe client_Get client_Ping startupCtx now features in
  match err with
  | Some err => (features, e, Some err)
  | None => let '(e, _, err) := engine_Healthy startupCtx t e in (features, e, err)
  end.

(** What runs once [main] has reached its [select]. *)
Record running := mkRunning {
  service : Gateway (feature_store R) (engine W);
  clients : list (string * GRPCClient.t);
  http : http_Server;
  listening : listener;
}.

Definition startup (now : Z) (w : W) : result running :=
  let developmentInsecure := envBool "FRAUD_DEVELOPMENT_INSECURE" in
  let! authToken := requiredSecret "FRAUD_AUTH_TOKEN" developmentInsecure in
  let! features := configuredFeatures NewClient developmentInsecure in
  let! engine_clients := configuredEngine dial conn_Score conn_Check ctx_metadata developmentInsecure w in
  let '(engine, clients) := engine_clients in
  let! service := Gateway.New (Some features) (Some engine) (configuredGateway authToken) in
  match probe_dependencies now features engine with
  | (_, _, Some err) => Err err
  | (features, engine, None) =>
      let address := firstEnv ["FRAUD_GATEWAY_ADDR"; "GATEWAY_ADDR"] in
      let address := if bool_decide (address = "") then ":8080" else address in
      let httpCert := Getenv "FRAUD_GATEWAY_TLS_CERT_FILE" in
      let httpKey := Getenv "FRAUD_GATEWAY_TLS_KEY_FILE" in
      if negb developmentInsecure && (bool_decide (httpCert = "") || bool_decide (httpKey = ""))
      then Err (Fresh "FRAUD_GATEWAY_TLS_CERT_FILE and FRAUD_GATEWAY_TLS_KEY_FILE are required")
      else
        Ok (mkRunning (mkGateway features engine (config service) (stats service)) clients (operational_server address)
              (if developmentInsecure then Plaintext else WithTLS httpCert httpKey))
  end.
End main.

(** ** The health check: [gateway -healthcheck] *)

Section healthcheck.
Context `{Env} `{TLSFiles} (client_Get : Z → option tls_Config → string → result (Z * string)).

Definition probeRoots (caFile : string) : result (option CertPool) := probe_roots "gateway" caFile.

Definition probeHTTPReady (configuredAddress fallback : string) (developmentInsecure : bool) (caFile serverName : string) :
    option error :=
  let address := TrimSpace configuredAddress in
  let address := if bool_decide (address = "") then fallback else address in
  probe_address client_Get "gateway" address developmentInsecure caFile serverName.

Definition healthcheck : option error :=
  probeHTTPReady (firstEnv ["FRAUD_GATEWAY_ADDR"; "GATEWAY_ADDR"]) ":8080" (envBool "FRAUD_DEVELOPMENT_INSECURE")
    (Getenv "FRAUD_GATEWAY_TLS_CA_FILE") (Getenv "FRAUD_GATEWAY_TLS_SERVER_NAME").
End healthcheck.
