(* ===== verification/WorkerMain.v ===== *)
(** * The worker command

    [serving_plane/cmd/worker/main.go]: the engine that counts, the
    operational endpoints, and the start-up of the gRPC and HTTP servers from
    the environment.  [net.Listen] is a parameter. *)

From Stdlib Require Import ZArith Lia SpecFloat.
From stdpp Require Import prelude gmap strings list.
From S2P Require Import Prelude GoFloat GoString GoContext GoEnv GoTLS GoNet Materialize Exposition Scheduler Worker Pool WorkerGrpc.

#[local] Open Scope Z_scope.
#[local] Open Scope go_scope.

(** ** The measured engine *)

(** The counters of [measuredEngine]. *)
Record measures := mkMeasures {
  batches : Z;
  m_items : Z;
  m_failures : Z;
  durationNanos : Z;
  durationBuckets : list Z;
}.
Definition no_measures : measures := mkMeasures 0 0 0 0 [0; 0; 0; 0; 0; 0; 0].

Definition workerDurationBounds : list Z :=
  [100 * Microsecond; 500 * Microsecond; Millisecond; 5 * Millisecond; 10 * Millisecond; 20 * Millisecond].

Definition observeDuration (duration : Z) (m : measures) : measures :=
  mkMeasures (batches m) (m_items m) (m_failures m) (wrap64 (durationNanos m + duration))
    (add_buckets workerDurationBounds (durationBuckets m) duration).

(** The counts made before the call of the delegate and, on an error, after it. *)
Definition count_batch (n : Z) (m : measures) : measures :=
  mkMeasures (wrap64 (batches m + 1)) (wrap64 (m_items m + n)) (m_failures m) (durationNanos m) (durationBuckets m).
Definition count_failure (m : measures) : measures :=
  mkMeasures (batches m) (m_items m) (wrap64 (m_failures m + 1)) (durationNanos m) (durationBuckets m).

Section measured.
Context {W : Type} (delegate : Inference W).

Definition measured_Infer (ctx : Context) (now : Z) (requests : list Request) (mw : measures * W) :
    outcome (measures * W) (result (list Result)) :=
  let '(m, w) := mw in
  let m := count_batch (Z.of_nat (length requests)) m in
  let '(w, t, r) := Infer delegate ctx now requests w in
  let m := match r with Err _ => count_failure m | Ok _ => m end in
  (observeDuration (t - now) m, w, t, r).

Definition measured_Healthy (ctx : Context) (now : Z) (mw : measures * W) : outcome (measures * W) (option error) :=
  let '(m, w) := mw in
  let '(w, t, r) := Healthy delegate ctx now w in (m, w, t, r).

Definition measuredEngine : Inference (measures * W) := mkInference measured_Infer measured_Healthy.
End measured.

(** ** Operational endpoints *)

(** [GET /healthz] and [GET /readyz]: the status codes. *)
Definition worker_healthz : Z := 200.
Definition worker_readyz {W} (delegate : Inference W) (ctx : Context) (now : Z) (mw : measures * W) :
    outcome (measures * W) Z :=
  let '(mw, t, err) := measured_Healthy delegate (WithTimeout ctx now (100 * Millisecond)) now mw in
  (mw, t, match err with Some _ => 503 | None => 200 end).

(** [GET /metrics]. *)
Definition worker_samples `{FloatText} (m : measures) : list sample :=
  [counter "fraud_worker_requests_total" (m_items m);
   counter "fraud_worker_errors_total" (m_failures m);
   counter "fraud_worker_batches_total" (batches m)] ++
  buckets "fraud_worker_batch_duration_seconds" ["0.0001"; "0.0005"; "0.001"; "0.005"; "0.01"; "0.02"; "+Inf"]
    (durationBuckets m) ++
  [seconds_sum "fraud_worker_batch_duration_seconds_sum" (durationNanos m);
   counter "fraud_worker_batch_duration_seconds_count" (batches m)].
Definition worker_metrics `{FloatText} (m : measures) : string := page (worker_samples m).

(** ** The command *)

Section main.
Context `{Env} `{TLSFiles} (Exp : float64 → float64).
(** [net.Listen] on an address. *)
Context (Listen : string → option error).

(** Unlike the other commands' [envOr], this one does not trim. *)
Definition envOr (key fallback : string) : string :=
  let value := Getenv key in if bool_decide (value ≠ "") then value else fallback.

(** The scorer as an engine; it keeps no state. *)
Definition cpu_engine (s : CPUScorer.t) : Inference unit :=
  mkInference (λ ctx now requests w, (w, now, CPU_Infer Exp s ctx now requests))
              (λ ctx now w, (w, now, CPUScorer.Healthy s)).

Definition server_transport (developmentInsecure : bool) : TransportConfig :=
  mkTransport developmentInsecure "" (Getenv "FRAUD_GATEWAY_MTLS_CA_FILE") (Getenv "FRAUD_WORKER_TLS_CERT_FILE")
    (Getenv "FRAUD_WORKER_TLS_KEY_FILE") (negb developmentInsecure).

(** What runs once [main] has reached its [select]. *)
Record running_worker := mkWorker {
  grpcAddr : string;
  grpcServer : Server (measures * unit);
  httpServer : http_Server;
  http_listening : listener;
  engine_state : measures * unit;
}.

Definition worker_startup : result running_worker :=
  let grpcAddr := envOr "FRAUD_WORKER_ADDR" ":50051" in
  let httpAddr := envOr "FRAUD_WORKER_HTTP_ADDR" ":9091" in
  let developmentInsecure := envBool "FRAUD_DEVELOPMENT_INSECURE" in
  let authToken := TrimSpace (Getenv "FRAUD_WORKER_AUTH_TOKEN") in
  if bool_decide (authToken = "") && negb developmentInsecure
  then Err (Fresh "FRAUD_WORKER_AUTH_TOKEN is required unless FRAUD_DEVELOPMENT_INSECURE=true")
  else
    match Listen grpcAddr with
    | Some err => Err err
    | None =>
        let engine := measuredEngine (cpu_engine CPUScorer.DefaultCPUScorer) in
        let! grpcServer := ServeWithTransportObserved (Some engine) authToken (server_transport developmentInsecure) [] in
        let httpCert := Getenv "FRAUD_WORKER_HTTP_TLS_CERT_FILE" in
        let httpKey := Getenv "FRAUD_WORKER_HTTP_TLS_KEY_FILE" in
        if negb developmentInsecure && (bool_decide (httpCert = "") || bool_decide (httpKey = ""))
        then Err (Fresh "FRAUD_WORKER_HTTP_TLS_CERT_FILE and FRAUD_WORKER_HTTP_TLS_KEY_FILE are required")
        else
          Ok (mkWorker grpcAddr grpcServer (operational_server httpAddr)
                (if developmentInsecure then Plaintext else WithTLS httpCert httpKey) (no_measures, tt))
    end.

(** The select at the end of [main]: the gRPC server stopping is a failure
    even without an error. *)
Inductive worker_event := WorkerSignalled | HTTPFailed (err : error) | GRPCStopped (err : option error).
Definition worker_exit (e : worker_event) : Z * option error :=
  match e with
  | WorkerSignalled => (0, None)
  | HTTPFailed err => (1, Some err)
  | GRPCStopped err => (1, Some (default (Fresh "gRPC server stopped unexpectedly") err))
  end.

(** The gRPC server drains until it is done or the five seconds have passed,
    counted from the instant of the select; [drained] is when it would be. *)
Inductive stop_mode := Graceful | Forced.
Definition stop_grpc (now drained : Z) : stop_mode * Z :=
  let deadline := now + 5 * Second in
  if drained <? deadline then (Graceful, drained) else (Forced, deadline).
End main.

(** ** The health check: [worker -healthcheck] *)

Section healthcheck.
Context `{Env} `{TLSFiles} (client_Get : Z → option tls_Config → string → result (Z * string)).

Definition worker_probeRoots (caFile : string) : result (option CertPool) := probe_roots "worker" caFile.
Definition probeReady (address : string) (developmentInsecure : bool) (caFile serverName : string) : option error :=
  probe_address client_Get "worker" address developmentInsecure caFile serverName.
Definition worker_healthcheck : option error :=
  probeReady (envOr "FRAUD_WORKER_HTTP_ADDR" ":9091") (envBool "FRAUD_DEVELOPMENT_INSECURE")
    (Getenv "FRAUD_WORKER_HTTP_TLS_CA_FILE") (Getenv "FRAUD_WORKER_HTTP_TLS_SERVER_NAME").
End healthcheck.
