(* ===== verification/WorkerMainTheorems.v ===== *)
(** * The counters of the worker: claim

    From the calls of the engine to the text of [/metrics]: what the worker
    counts, and that a scraper reads it back. *)

From Stdlib Require Import ZArith Lia SpecFloat.
From stdpp Require Import prelude gmap strings list.
From S2P Require Import Prelude GoFloat GoString GoContext Materialize FloatTextModel Exposition Scheduler SchedulerMetrics Worker Pool WorkerGrpc WorkerGrpcTheorems WorkerMain.

#[local] Open Scope Z_scope.

(** A call of [Infer] that has returned: the size of its batch, how long it
    took, and whether it failed. *)
Record call := mkCall { call_items : Z; call_duration : Z; call_failed : bool }.

Section measured.
Context {W : Type} (E : Inference W).

(** The states of a measured engine after the calls [cs], newest first. *)
Inductive measuring : list call → measures * W → Prop :=
| measuring_new w : measuring [] (no_measures, w)
| measuring_infer cs mw ctx now rs mw' t r :
    measuring cs mw → Infer (measuredEngine E) ctx now rs mw = (mw', t, r) →
    measuring (mkCall (Z.of_nat (length rs)) (t - now) (negb (is_ok r)) :: cs) mw'
| measuring_probe cs mw ctx now mw' t r :
    measuring cs mw → Healthy (measuredEngine E) ctx now mw = (mw', t, r) → measuring cs mw'.

(** What the counters should be after the calls [cs]. *)
Definition tally (cs : list call) : measures :=
  mkMeasures (wrap64 (Z.of_nat (length cs))) (wrap64 (total (call_items <$> cs)))
    (wrap64 (Z.of_nat (length (filter (λ c, call_failed c = true) cs)))) (wrap64 (total (call_duration <$> cs)))
    (bucket_counts workerDurationBounds (call_duration <$> cs)).

Lemma tally_cons c cs :
  tally (c :: cs) =
    observeDuration (call_duration c)
      ((if call_failed c then count_failure else λ m, m) (count_batch (call_items c) (tally cs))).
Proof.
  unfold tally, observeDuration. rewrite !fmap_cons, <- bucket_counts_cons, <- !wrap64_total. rewrite filter_cons.
  destruct (call_failed c); cbn -[wrap64 add_buckets bucket_counts total]; by rewrite ?wrap64_succ.
Qed.

Lemma measuring_tally cs mw : measuring cs mw → mw.1 = tally cs.
Proof.
  induction 1 as [w|cs [m w] ctx now rs mw' t r _ IH Hi|cs [m w] ctx now mw' t r _ IH Hi].
  - reflexivity.
  - rewrite tally_cons. simpl in IH, Hi. subst m. destruct (Infer E ctx now rs w) as [[w1 t1] r1].
    injection Hi as <- <- <-. simpl. by destruct r1.
  - simpl in Hi. destruct (Healthy E ctx now w) as [[w1 t1] r1]. by injection Hi as <- _ _.
Qed.
End measured.

Lemma worker_samples_clean `{FloatTextLaws} m : Forall (λ s, clean_sample s = true) (worker_samples m).
Proof. unfold worker_samples. clean_samples. Qed.

(** C37: what a scraper reads from the worker's [/metrics] is what happened.
    After any sequence of inference calls and probes, the counters are, modulo
    2^64, the number of calls, of requests in them, of calls that failed, the
    sum of their durations, and the cumulative histogram whose bucket for a
    bound counts the calls that took at most that long and whose last bucket
    counts all of them; and reading the page line by line gives back exactly
    its samples, with no series exposed twice. *)
Theorem worker_metrics_exact `{FloatTextLaws} {W} (E : Inference W) cs m w :
  measuring E cs (m, w) →
  m = mkMeasures (wrap64 (Z.of_nat (length cs))) (wrap64 (total (call_items <$> cs)))
        (wrap64 (Z.of_nat (length (filter (λ c, call_failed c = true) cs)))) (wrap64 (total (call_duration <$> cs)))
        (((λ b, wrap64 (Z.of_nat (length (filter (λ d, d <= b) (call_duration <$> cs))))) <$> workerDurationBounds)
         ++ [wrap64 (Z.of_nat (length cs))]) ∧
  scrape (worker_metrics m) = Some (worker_samples m) ∧
  NoDup (series <$> worker_samples m).
Proof.
  intros Hm%measuring_tally. simpl in Hm. split_and!.
  - rewrite Hm. unfold tally, bucket_counts. by rewrite length_fmap.
  - apply scrape_page, worker_samples_clean.
  - rewrite Hm. apply (bool_decide_unpack _). vm_compute. exact I.
Qed.

Definition demo_batch : list Request := [WorkerGrpcTheorems.demo_request; WorkerGrpcTheorems.demo_request].

Lemma worker_metrics_exact_witness :
  let '(m, w, _, _) := Infer (measuredEngine WorkerGrpcTheorems.demo_engine) Background 5 demo_batch (no_measures, tt) in
  m_items m = 2 ∧ batches m = 1 ∧ scrape (worker_metrics m) = Some (worker_samples m).
Proof.
  destruct (Infer _ _ _ _ _) as [[[m w] t] r] eqn:Hi.
  destruct (worker_metrics_exact WorkerGrpcTheorems.demo_engine
    [mkCall (Z.of_nat (length demo_batch)) (t - 5) (negb (is_ok r))] m w) as (Hm & Hs & _).
  - eapply measuring_infer; [apply measuring_new|exact Hi].
  - rewrite Hm at 1 2. split; [reflexivity|]. split; [reflexivity|exact Hs].
Defined.
