(* ===== verification/Computes.v ===== *)
(** * What an inference engine promises

    [Computes E I φ]: from a state in [I], which every call preserves, the
    engine [E] answers a batch with an error or with one result per request,
    in order, each related to its request by [φ].  The interface is stated
    once and discharged for the CPU scorer, the measured engine of the worker,
    a client across the RPC hop and the pool; the theorems about the gateway
    are proved against it. *)

From Stdlib Require Import ZArith Lia SpecFloat.
From stdpp Require Import prelude gmap strings list.
From S2P Require Import Prelude GoFloat GoString GoContext GoEnv GoTLS GoNet Scheduler Worker Pool WorkerGrpc WorkerGrpcTheorems WorkerMain.

#[local] Open Scope Z_scope.
#[local] Open Scope go_scope.

Class Computes {W} (E : Inference W) (I : W → Prop) (φ : Request → Result → Prop) : Prop := {
  computes_ok ctx now rs w w' t out :
    I w → Infer E ctx now rs w = (w', t, Ok out) → Forall2 φ rs out;
  computes_infer ctx now rs w w' t r : I w → Infer E ctx now rs w = (w', t, r) → I w';
  computes_healthy ctx now w w' t r : I w → Healthy E ctx now w = (w', t, r) → I w';
}.

(** The result a scorer computes for a request. *)
Definition scored (Exp : float64 → float64) (s : CPUScorer.t) (r : Request) (v : Result) : Prop :=
  v = score_request Exp s r.

(** What [validateResults] asks of each result. *)
Definition valid_result (r : Result) : Prop := validate_result 0 r = None.

Lemma validate_result_index i j r : validate_result i r = None → validate_result j r = None.
Proof. unfold validate_result. by repeat (case_if; [done|]). Qed.

Lemma validateResults_valid rs n : validateResults rs n = None → Forall valid_result rs.
Proof.
  unfold validateResults. case_if; [done|]. intros Hv. apply Forall_lookup_2. intros j r Hj.
  destruct (first_error_none _ _ _ Hv j r Hj) as [k Hk]. by eapply validate_result_index.
Qed.

(** ** The CPU scorer *)

Section scorer.
Context (Exp : float64 → float64) (s : CPUScorer.t).

Lemma score_requests_map ctx_err rs out :
  score_requests Exp ctx_err s rs = Ok out → Forall2 (scored Exp s) rs out.
Proof.
  revert out. induction rs as [|r rs IH]; intros out; simpl; [intros [= <-]; constructor|].
  destruct ctx_err; [done|]. case_if; [done|]. intros Hr. ok_steps Hr. injection Hr as <-.
  constructor; [done|by apply IH].
Qed.

Lemma CPU_Infer_map ctx now rs out :
  CPU_Infer Exp s ctx now rs = Ok out → Forall2 (scored Exp s) rs out.
Proof.
  unfold CPU_Infer. case_if; [done|]. destruct (validateRequests rs true); [done|]. apply score_requests_map.
Qed.

#[export] Instance cpu_computes : Computes (cpu_engine Exp s) (λ _, True) (scored Exp s).
Proof.
  constructor; simpl; intros; simplify_eq; try done. by eapply CPU_Infer_map.
Qed.
End scorer.

(** ** The measured engine *)

#[export] Instance measured_computes {W} (E : Inference W) I φ :
  Computes E I φ → Computes (measuredEngine E) (λ mw, I mw.2) φ.
Proof.
  intros HE. constructor; simpl; unfold measured_Infer, measured_Healthy; intros ctx now.
  - intros rs [m w] mw' t out Hw. simpl in *. destruct (Infer E ctx now rs w) as [[w1 t1] r] eqn:Hi.
    intros [= <- <- ->]. by eapply computes_ok.
  - intros rs [m w] mw' t r Hw. simpl in *. destruct (Infer E ctx now rs w) as [[w1 t1] r1] eqn:Hi.
    intros [= <- <- <-]. by eapply computes_infer.
  - intros [m w] mw' t r Hw. simpl in *. destruct (Healthy E ctx now w) as [[w1 t1] r1] eqn:Hi.
    intros [= <- <- <-]. by eapply computes_healthy.
Qed.

(** ** Across the network *)

(** What gRPC documents of a unary call: it fails, or it returns the response
    the handler of the server gave to this message with this metadata, in some
    context, at some time, in some state of the server. *)
Class Relays {W V} (rpc : Context → Z → list (string * string) → ScoreRequest → W → outcome W (result (option ScoreResponse)))
    (s : Service.t V) (I : V → Prop) : Prop :=
  relays ctx now md request w w' t response :
    rpc ctx now md request w = (w', t, Ok response) →
    ∃ ctx' now' v v' t' x, I v ∧
      Service.Score s ctx' now' (sent_authorization md) (Some request) v = (v', t', Ok x) ∧ response = Some x.

#[export] Instance direct_relays {W} (s : Service.t W) (I : W → Prop) :
  Relays (λ ctx now md request (w : { w : W | I w }),
            let '(_, t, r) := direct s ctx now md request (`w) in (w, t, r)) s I.
Proof.
  intros ctx now md request w w' t response. unfold direct.
  destruct (Service.Score _ _ _ _ _ _) as [[w1 t1] [x|e]] eqn:Hs; [|done]. intros [= <- <- <-].
  destruct w as [w Hw]. simpl in *. eauto 10.
Qed.

Lemma Service_Score_ok {W} (E : Inference W) I φ token ctx now values rs v v' t x :
  Computes E I φ → I v →
  Service.Score (Service.mk (Some E) token) ctx now values (Some (requestsToProto rs)) v = (v', t, Ok x) →
  Forall2 φ rs (resultsFromProto (Some x)).
Proof.
  intros HE Hv. unfold Service.Score. cbn [Service.Engine Service.AuthToken]. case_if; [done|].
  unfold requestsFromProto. rewrite items_of_requestsToProto. cbn [rbind].
  destruct (validateRPCRequests rs); [done|].
  destruct (Infer E ctx now rs v) as [[v1 t1] [out|e]] eqn:Hi; [|done].
  destruct (validateResults out _) eqn:Hr; [done|]. intros [= <- <- <-].
  rewrite (results_roundtrip _ _ Hr). by eapply computes_ok.
Qed.

Lemma client_computes {W V} rpc_score rpc_check c meta (E : Inference V) token (I : V → Prop) φ ctx now rs (w w' : W) t out :
  Computes E I φ → Relays rpc_score (Service.mk (Some E) token) I →
  Infer (GRPCClient.inference rpc_score rpc_check c meta) ctx now rs w = (w', t, Ok out) →
  Forall2 (λ r v, φ r v ∧ valid_result v) rs out.
Proof.
  intros HE Hrel. simpl. unfold GRPCClient.Infer. case_if; [done|]. destruct (validateRequests rs false); [done|].
  destruct (rpc_score _ _ _ _ _) as [[w1 t1] [resp|e]] eqn:Hrpc; [|done].
  destruct (validateResults _ _) eqn:Hr; [done|]. intros [= <- <- <-].
  destruct (relays _ _ _ _ _ _ _ _ Hrpc) as (ctx' & now' & v & v' & t' & x & Hv & Hs & ->).
  apply validateResults_valid in Hr. eapply Service_Score_ok in Hs; [|done..].
  apply Forall2_same_length_lookup. apply Forall2_same_length_lookup in Hs as [Hl Hs]. split; [done|].
  intros j r y Hj Hy. split; [by eapply Hs|]. by eapply Forall_lookup_1 in Hr.
Qed.

(** ** The pool *)

(** The workers of a pool share a world; each of them keeps [I]. *)
Definition pool_ok {W} (P : Inference W → Prop) (I : W → Prop) (p : Pool.t W) : Prop :=
  Forall P (Pool.workers p) ∧ I (Pool.world p).

Section pool.
Context {W : Type} (I : W → Prop) (φ : Request → Result → Prop).
#[local] Abbreviation good := (pool_ok (λ E, Computes E I φ) I).

Lemma available_good ctx now i E (p p' : Pool.t W) t ok :
  Computes E I φ → good p → Pool.available ctx now i E p = (p', t, ok) → good p' ∧ Pool.workers p' = Pool.workers p.
Proof.
  intros HE [Hw Hi]. unfold Pool.available. destruct (Pool.unhealthy p !! i); [|by intros [= <- <- <-]].
  case_if; [by intros [= <- <- <-]|]. destruct (Healthy E ctx now (Pool.world p)) as [[w1 t1] r] eqn:Hh.
  pose proof (computes_healthy _ _ _ _ _ _ Hi Hh). by destruct r; intros [= <- <- <-].
Qed.

Lemma infer_from_good ctx rs todo i now last (p p' : Pool.t W) t r :
  good p → Pool.infer_from ctx rs todo i now last p = (p', t, r) →
  good p' ∧ ∀ out, r = Ok out → Forall2 φ rs out.
Proof.
  revert i now last p. induction todo as [|todo IH]; intros i now last p Hp; simpl; [by intros [= <- <- <-]|].
  destruct (Pool.workers p !! _) as [E|] eqn:HE; [|by intros [= <- <- <-]].
  assert (Computes E I φ) as HcE by (destruct Hp as [Hw _]; by apply (Forall_lookup_1 _ _ _ _ Hw HE)).
  destruct (Pool.available _ now _ E p) as [[p1 t1] ok] eqn:Ha. apply available_good in Ha as [[Hw1 Hi1] _]; [|done..].
  destruct ok; cbn [negb]. 2:{ apply IH. done. }
  destruct (Infer E _ t1 rs (Pool.world p1)) as [[w2 t2] r2] eqn:Hinf.
  pose proof (computes_infer _ _ _ _ _ _ _ Hi1 Hinf) as Hi2.
  destruct r2 as [out|e].
  - intros [= <- <- <-]. split; [done|]. intros ? [= <-]. exact (computes_ok _ _ _ _ _ _ _ Hi1 Hinf).
  - apply IH. by destruct (ctx_err ctx t2); split.
Qed.

Lemma healthy_from_good ctx ws i now (p p' : Pool.t W) t r :
  Forall (λ E, Computes E I φ) ws → good p → Pool.healthy_from ctx ws i now p = (p', t, r) → good p'.
Proof.
  intros Hws. revert i now p. induction Hws as [|E ws HE _ IH]; intros i now p Hp; simpl; [by intros [= <- <- <-]|].
  destruct Hp as [Hw Hi]. destruct (Healthy E _ now (Pool.world p)) as [[w1 t1] e] eqn:Hh.
  pose proof (computes_healthy _ _ _ _ _ _ Hi Hh). destruct e as [e|]; [|by intros [= <- <- <-]]. by apply IH.
Qed.
End pool.

#[export] Instance pool_computes {W} (I : W → Prop) φ :
  Computes (W := Pool.t W) pool_inference (pool_ok (λ E, Computes E I φ) I) φ.
Proof.
  constructor; simpl; intros ctx now.
  - intros rs p p' t out Hp Hi. unfold Pool.Infer in Hi.
    eapply (infer_from_good I φ) in Hi as [_ Hout]; [by apply Hout|exact Hp].
  - intros rs p p' t r Hp Hi. unfold Pool.Infer in Hi.
    by eapply (infer_from_good I φ) in Hi as [? _]; [|exact Hp].
  - intros p p' t r Hp Hh. eapply healthy_from_good; [exact (proj1 Hp)|exact Hp|exact Hh].
Qed.
