(* ===== verification/ServingTheorems.v ===== *)
(** * The serving plane from the environment to the answer: claims

    The commands of the gateway and the worker are started from their
    environments; the gateway's scheduler runs against the engine it was
    configured with, and the connections to the workers reach services that
    were started by the worker command.  Two claims: what a production
    start-up guarantees about transport and credentials, and that the scores
    the callers get are those of the scorer. *)

From Stdlib Require Import ZArith Lia SpecFloat.
From stdpp Require Import prelude gmap strings list.
From S2P Require Import Prelude GoFloat GoString GoContext GoEnv GoTLS GoNet GoRedis Materialize FeatureStore FeatureStoreTheorems Scheduler SchedulerInv SchedulerValues Worker Pool WorkerGrpc WorkerGrpcTheorems Gateway GatewayMain WorkerMain Computes.

#[local] Open Scope Z_scope.
#[local] Open Scope go_scope.

(** ** The engine of the gateway *)

Section engine.
Context {W : Type} (Exp : float64 → float64).

Definition engine_inference : Inference (engine W) := mkInference (engine_Infer Exp) engine_Healthy.

(** The engine answers with [φ]: the scorer in the process does, or all the
    workers of the pool do. *)
Definition engine_ok (φ : Request → Result → Prop) (e : engine W) : Prop :=
  match e with
  | InProcess s => ∀ ctx now rs out, CPU_Infer Exp s ctx now rs = Ok out → Forall2 φ rs out
  | Remote p => pool_ok (λ E, Computes E (λ _, True) φ) (λ _, True) p
  end.

#[export] Instance engine_computes φ : Computes engine_inference (engine_ok φ) φ.
Proof.
  constructor; simpl; intros ctx now.
  - intros rs [s|p] e' t out He; simpl; [|destruct (Pool.Infer ctx now rs p) as [[p1 t1] r1] eqn:Hp].
    + intros [= <- <- Ho]. by eapply He.
    + intros [= <- <- ->]. exact (computes_ok (E := pool_inference) _ _ _ _ _ _ _ He Hp).
  - intros rs [s|p] e' t out He; simpl; [|destruct (Pool.Infer ctx now rs p) as [[p1 t1] r1] eqn:Hp].
    + by intros [= <- <- <-].
    + intros [= <- <- <-]. exact (computes_infer (E := pool_inference) _ _ _ _ _ _ _ He Hp).
  - intros [s|p] e' t out He; simpl; [|destruct (Pool.Healthy ctx now p) as [[p1 t1] r1] eqn:Hp].
    + by intros [= <- <- <-].
    + intros [= <- <- <-]. exact (computes_healthy (E := pool_inference) _ _ _ _ _ _ He Hp).
Qed.
End engine.

(** ** The scheduler and the engine together *)

Section running.
Context {W : Type} (E : Inference W) (cfg : Config).

(** The scheduler the gateway starts, beside the engine its handler calls.
    A handler call may begin at any instant; readiness probes use the engine
    at any time. *)
Inductive serving_run (e0 : W) : sched Request Result → W → Prop :=
| run_new now s : new_scheduler cfg now = Ok s → serving_run e0 s e0
| run_scheduler l s s' e :
    serving_run e0 s e → (∀ res, l ≠ LHandled res) → step l s = Some s' → serving_run e0 s' e
| run_batch s s' e e' act c open now t res :
    serving_run e0 s e → run s = Handling act c open →
    batch_handler E cfg c now (values_of s act) e = (e', t, res) →
    step (LHandled res) s = Some s' → serving_run e0 s' e'
| run_probe s e e' ctx now t err :
    serving_run e0 s e → Healthy E ctx now e = (e', t, err) → serving_run e0 s e'.

Lemma serving_run_inv e0 s e I φ :
  Computes E I φ → I e0 → serving_run e0 s e → inv s ∧ I e ∧ served φ s.
Proof.
  intros HE H0. induction 1 as [now s Hn|l s s' e _ (Hs & He & Hv) Hl Hst|
    s s' e e' act c open now t res _ (Hs & He & Hv) Hr Hb Hst|s e e' ctx now t err _ (Hs & He & Hv) Hh].
  - split_and!; [by eapply New_inv|done|]. unfold new_scheduler, Scheduler.New in Hn. case_if; [done|].
    injection Hn as <-. by intros act rs j i v Hin%elem_of_nil.
  - split_and!; [by eapply step_inv|done|by eapply served_step].
  - split_and!; [by eapply step_inv|by eapply computes_infer|]. eapply served_handled; [done..| |done].
    intros rs ->. by eapply computes_ok.
  - split_and!; [done|by eapply computes_healthy|done].
Qed.

(** Running a list of labels; what a handler call returns is computed by the
    engine, at the instant of the clock. *)
Fixpoint drive (ls : list (label Request Result)) (s : sched Request Result) (e : W) : option (sched Request Result * W) :=
  match ls with
  | [] => Some (s, e)
  | LHandled _ :: ls =>
      match run s with
      | Handling act c _ =>
          let '(e, _, res) := batch_handler E cfg c (clock s) (values_of s act) e in
          s ← step (LHandled res) s; drive ls s e
      | _ => None
      end
  | l :: ls => s ← step l s; drive ls s e
  end.

Lemma drive_run e0 ls s e s' e' : serving_run e0 s e → drive ls s e = Some (s', e') → serving_run e0 s' e'.
Proof.
  revert s e. induction ls as [|l ls IH]; intros s e Hr; [by intros [= <- <-]|].
  destruct (match l with LHandled _ => true | _ => false end) eqn:Hl.
  - destruct l; try done. cbn [drive]. destruct (run s) as [| | | |act c o| |] eqn:Hrun; try done.
    destruct (batch_handler E cfg c (clock s) (values_of s act) e) as [[e1 t] r] eqn:Hb.
    destruct (step (LHandled r) s) as [s1|] eqn:Hs; [|done]. apply IH. by eapply run_batch.
  - assert (drive (l :: ls) s e = (s1 ← step l s; drive ls s1 e)) as -> by by destruct l.
    destruct (step l s) as [s1|] eqn:Hs; [|done]. apply IH. eapply run_scheduler; [done| |done]. by intros res ->.
Qed.
End running.

(** ** Start-up, taken apart *)

Lemma requiredSecret_ok `{Env} key dev token : requiredSecret key dev = Ok token → dev = false → token ≠ "".
Proof.
  unfold requiredSecret. intros Ht ->. ok_steps Ht. injection Ht as <-. by rewrite andb_true_r, bool_decide_eq_false in E.
Qed.

Section startup.
Context `{FloatText} {R W : Type}.
Context (client_Get : Context → Z → string → R → outcome R (result string)).
Context (client_Ping : Context → Z → R → outcome R (option error)).
Context `{Env} `{TLSFiles} (NewClient : Options → R).
Context (dial : Z → string → credentials → option error).
Context (conn_Score : string → Context → Z → list (string * string) → ScoreRequest → W → outcome W (result (option ScoreResponse))).
Context (conn_Check : string → Context → Z → W → outcome W (result string)).
Context (ctx_metadata : Context → option requestMetadata).

#[local] Abbreviation start := (GatewayMain.startup client_Get client_Ping NewClient dial conn_Score conn_Check ctx_metadata).

Lemma startup_ok now w g :
  start now w = Ok g →
  ∃ dev token features e ctx t t' err,
    dev = envBool "FRAUD_DEVELOPMENT_INSECURE" ∧ requiredSecret "FRAUD_AUTH_TOKEN" dev = Ok token ∧
    configuredFeatures NewClient dev = Ok features ∧
    configuredEngine dial conn_Score conn_Check ctx_metadata dev w = Ok (e, clients g) ∧
    config (service g) = with_defaults (configuredGateway token) ∧
    store_Probe client_Get client_Ping ctx now features = (Gateway.features (service g), t, None) ∧
    engine_Healthy ctx t e = (world (service g), t', err) ∧
    server_MinVersion (http g) = VersionTLS13 ∧
    (dev = false → ∃ cert key, listening g = WithTLS cert key ∧ cert ≠ "" ∧ key ≠ "").
Proof.
  unfold GatewayMain.startup. intros Hs. set (dev := envBool _) in Hs. ok_steps Hs.
  destruct a1 as [e cs]. ok_steps Hs. unfold probe_dependencies in Hs.
  set (ctx := WithTimeout _ _ _) in Hs.
  destruct (store_Probe client_Get client_Ping ctx now a0) as [[f1 t1] [er|]] eqn:Hp; [done|].
  destruct (engine_Healthy ctx t1 e) as [[e1 t2] [er|]] eqn:Hh; [done|]. ok_steps Hs. injection Hs as <-.
  unfold Gateway.New in Ha2. injection Ha2 as <-. simpl.
  exists dev, a, a0, e, ctx, t1, t2, None. split_and!; try done.
  intros Hd. rewrite Hd in *. simpl in E. apply orb_false_iff in E as [E1 E2].
  apply bool_decide_eq_false in E1, E2. eauto.
Qed.

(** ** Production start-up of the gateway *)

Lemma clientCredentials_secure tc creds :
  clientCredentials tc = Ok creds → Insecure tc = false →
  ∃ tls roots, creds = TLSCredentials tls None ∧ MinVersion tls = VersionTLS13 ∧ RootCAs tls = Some roots.
Proof.
  unfold clientCredentials. intros Hc Hi. rewrite Hi in Hc. ok_steps Hc.
  destruct (AppendCertsFromPEM a) as [roots|]; [|done]. ok_steps Hc. injection Hc as <-. by eexists _, roots.
Qed.

Lemma dial_workers_ok token dev parts :
  Forall (λ '(address, c), c = GRPCClient.mk true token ∧
    ∃ timeout creds, dial timeout address creds = None ∧ clientCredentials (worker_transport dev) = Ok creds)
    (dial_workers dial token dev parts).
Proof.
  induction parts as [|raw parts IH]; simpl; [done|]. case_if; [done|].
  destruct (DialWithTransport _ _ _ _) as [c|] eqn:Hd; [|done]. constructor; [|done].
  unfold DialWithTransport in Hd. ok_steps Hd. destruct (dial _ _ a) eqn:Hdial; [done|].
  injection Hd as <-. eauto.
Qed.

(** The clients a pool was made of. *)
Definition client_workers (cs : list (string * GRPCClient.t)) : list (Inference W) :=
  (λ '(address, c), client_inference conn_Score conn_Check ctx_metadata address c) <$> cs.

Lemma configuredEngine_remote dev w e cs :
  configuredEngine dial conn_Score conn_Check ctx_metadata dev w = Ok (e, cs) →
  (dev = true ∧ e = InProcess CPUScorer.DefaultCPUScorer) ∨
  (∃ p token parts, e = Remote p ∧ Pool.workers p = client_workers cs ∧ cs ≠ [] ∧
     requiredSecret "FRAUD_WORKER_AUTH_TOKEN" dev = Ok token ∧ cs = dial_workers dial token dev parts).
Proof.
  unfold configuredEngine. case_if; [destruct dev; [|done]; intros [= <- <-]; by left|].
  intros He. ok_steps He. injection He as <- <-. right.
  eexists a0, a, _. set (cs := dial_workers _ _ _ _) in *. fold (client_workers cs) in Ha0.
  unfold Pool.NewPool in Ha0. destruct (client_workers cs) as [|E0 Es] eqn:Hcs; [done|]. injection Ha0 as <-.
  split_and!; try done. intros Hn. by rewrite Hn in Hcs.
Qed.

Lemma healthy_from_workers ctx ws i now (p p' : Pool.t W) t r :
  Pool.healthy_from ctx ws i now p = (p', t, r) → Pool.workers p' = Pool.workers p.
Proof.
  revert i now p. induction ws as [|E ws IH]; intros i now p; simpl; [by intros [= <- _ _]|].
  destruct (Healthy E _ now _) as [[w1 t1] [er|]]; [by intros ->%IH|by intros [= <- _ _]].
Qed.

Lemma engine_Healthy_workers ctx now (e e' : engine W) t err :
  engine_Healthy ctx now e = (e', t, err) →
  match e with
  | InProcess s => e' = InProcess s
  | Remote p => ∃ p', e' = Remote p' ∧ Pool.workers p' = Pool.workers p
  end.
Proof.
  destruct e as [s|p]; simpl; [by intros [= <- _ _]|].
  destruct (Pool.Healthy ctx now p) as [[p1 t1] r1] eqn:Hp. intros [= <- _ _]. exists p1. split; [done|].
  by apply healthy_from_workers in Hp.
Qed.

Lemma redisTLS_secure ca sn cert key o :
  Redis.redisTLSConfig true ca sn cert key = Ok o →
  ∃ tls, o = Some tls ∧ MinVersion tls = VersionTLS13 ∧ (cert ≠ "" → Certificates tls ≠ []).
Proof.
  unfold Redis.redisTLSConfig. intros Ht. case_if; [done|]. simpl in Ht.
  apply rbind_ok in Ht as (roots & _ & Ht). apply rbind_ok in Ht as (certs & Hc & Ht). injection Ht as <-.
  eexists. split; [done|]. simpl. split; [done|]. intros Hne.
  rewrite bool_decide_eq_true_2 in Hc by done. by apply rbind_ok in Hc as (c & _ & [= <-]).
Qed.

(** A Redis client with TLS 1.3 and a credential. *)
Definition redis_secure (opts : Options) : Prop :=
  ∃ tls, opt_TLSConfig opts = Some tls ∧ MinVersion tls = VersionTLS13 ∧
         (opt_Password opts ≠ "" ∨ Certificates tls ≠ []).

Lemma configuredFeatures_production f :
  configuredFeatures NewClient false = Ok f →
  ∃ opts timeout, f = OnlyRedis (Redis.mk (Some (NewClient opts)) ModelFeatureWidth timeout) ∧ redis_secure opts.
Proof.
  unfold configuredFeatures. case_if; [|done]. intros Hf. ok_steps Hf. injection Hf as <-.
  unfold configuredRedis in Ha. ok_steps Ha. injection Ha as <-. unfold Redis.NewRedisWithConfig in Ha0.
  simpl in Ha0. ok_steps Ha0. injection Ha0 as <-. apply redisTLS_secure in Ha as (tls & -> & Hv & Hc).
  do 2 eexists. split; [done|]. exists tls. split_and!; [done|done|]. simpl.
  simpl in E0. apply andb_false_iff in E0 as [E0|E0]; [left; by apply bool_decide_eq_false in E0|right].
  apply orb_false_iff in E0 as [E0 _]. apply Hc. by apply bool_decide_eq_false in E0.
Qed.

Lemma client_inference_computes {V} (E : Inference V) token φ address c :
  Computes E (λ _, True) φ → Relays (conn_Score address) (Service.mk (Some E) token) (λ _, True) →
  Computes (client_inference conn_Score conn_Check ctx_metadata address c) (λ _, True) (λ r v, φ r v ∧ valid_result v).
Proof.
  intros HE Hrel. constructor; [|done|done]. intros ctx now rs w w' t out _.
  by apply (client_computes _ (conn_Check address) c (ctx_metadata ctx) E token (λ _, True) φ).
Qed.

Lemma started_engine_ok Exp φ now w g :
  start now w = Ok g →
  (envBool "FRAUD_DEVELOPMENT_INSECURE" = true → ∀ r, φ r (score_request Exp CPUScorer.DefaultCPUScorer r)) →
  (∀ address c, Computes (client_inference conn_Score conn_Check ctx_metadata address c) (λ _, True) φ) →
  engine_ok Exp φ (world (service g)).
Proof.
  intros (dev & token & f & e & ctx & t & t' & err & Hdev & _ & _ & He & _ & _ & Hh & _)%startup_ok Hcpu Hcl.
  apply configuredEngine_remote in He as [[-> ->]|(p & tok & parts & -> & Hw & _)]; apply engine_Healthy_workers in Hh.
  - rewrite Hh. intros ctx' now' rs out Ho%CPU_Infer_map. eapply Forall2_impl; [exact Ho|]. intros r v ->. by apply Hcpu.
  - destruct Hh as (p' & -> & Hw'). split; [|done]. rewrite Hw', Hw. apply Forall_fmap, Forall_forall.
    intros [address c] _. apply Hcl.
Qed.

Lemma started_scheduler now w g now' :
  start now w = Ok g → ∃ s, new_scheduler (config (service g)) now' = Ok s.
Proof.
  intros (dev & token & f & e & ctx & t & t' & err & _ & _ & _ & _ & -> & _)%startup_ok.
  unfold new_scheduler, Scheduler.New, with_defaults. simpl.
  destruct (Z.leb_spec (duration "FRAUD_QUEUE_DELAY" (2 * Millisecond)) 0) as [Hd|Hd]; [by eexists|].
  rewrite (proj2 (Z.leb_gt _ _)) by done. by eexists.
Qed.

(** Everything a gateway talks to or is talked to through is authenticated and
    encrypted: callers need a token and reach it over TLS 1.3; its features
    come from a Redis client with TLS 1.3 and a credential, never from the
    process's own memory; its engine is a pool, never the process itself, of
    workers dialled with TLS 1.3 against a pinned authority, and each call to
    them carries a token. *)
Definition gateway_secure (g : running (R := R) (W := W)) : Prop :=
  AuthToken (config (service g)) ≠ "" ∧
  server_MinVersion (http g) = VersionTLS13 ∧
  (∃ cert key, listening g = WithTLS cert key ∧ cert ≠ "" ∧ key ≠ "") ∧
  (∃ opts ctx now c t timeout,
     redis_secure opts ∧ client_Ping ctx now (NewClient opts) = (c, t, None) ∧
     Gateway.features (service g) = OnlyRedis (Redis.mk (Some c) ModelFeatureWidth timeout)) ∧
  (∃ p, world (service g) = Remote p ∧ Pool.workers p = client_workers (clients g) ∧ clients g ≠ [] ∧
     Forall (λ '(address, c), GRPCClient.authToken c ≠ "" ∧
       ∃ timeout tls, dial timeout address (TLSCredentials tls None) = None ∧
         MinVersion tls = VersionTLS13 ∧ RootCAs tls ≠ None) (clients g)).

Lemma production_gateway_secure now w g :
  start now w = Ok g → envBool "FRAUD_DEVELOPMENT_INSECURE" = false → gateway_secure g.
Proof.
  intros (dev & token & f & e & ctx & t & t' & err & -> & Htok & Hf & He & Hcfg & Hp & Hh & Hv & Hl)%startup_ok Hdev.
  rewrite Hdev in *. unfold gateway_secure. split_and!; [|done|by apply Hl|..].
  - rewrite Hcfg. simpl. by eapply requiredSecret_ok.
  - apply configuredFeatures_production in Hf as (opts & timeout & -> & Hs). simpl in Hp. unfold Redis.Probe in Hp. simpl in Hp.
    destruct (client_Ping _ now (NewClient opts)) as [[c t1] r] eqn:Hping. injection Hp as Hfs -> ->.
    do 6 eexists. split_and!; [done|exact Hping|done].
  - apply configuredEngine_remote in He as [[? _]|(p & tok & parts & -> & Hw & Hne & Hsec & Hcs)]; [done|].
    apply engine_Healthy_workers in Hh as (p' & -> & Hw'). exists p'. split_and!; [done|by rewrite Hw', Hw|done|].
    rewrite Hcs. eapply Forall_impl; [apply dial_workers_ok|]. intros [address c] (-> & timeout & creds & Hd & Hc).
    split; [simpl; by eapply requiredSecret_ok|].
    apply clientCredentials_secure in Hc as (tls & roots & -> & Hm & Hr); [|done]. exists timeout, tls. by rewrite Hr.
Qed.
End startup.

Section worker.
Context `{Env} `{TLSFiles} (Exp : float64 → float64) (Listen : string → option error).

(** A worker is called over mutual TLS 1.3 only, and refuses calls without its
    token; its operational endpoints are served over TLS 1.3. *)
Definition worker_secure (wk : running_worker) : Prop :=
  Service.AuthToken (score_service (grpcServer wk)) ≠ "" ∧
  (∃ tls pool, server_options (grpcServer wk) =
       [MaxRecvMsgSize MaxRPCMessageBytes; Creds (TLSCredentials tls (Some pool))] ∧
     MinVersion tls = VersionTLS13 ∧ Certificates tls ≠ []) ∧
  server_MinVersion (httpServer wk) = VersionTLS13 ∧
  (∃ cert key, http_listening wk = WithTLS cert key ∧ cert ≠ "" ∧ key ≠ "").

Lemma ServerCredentials_secure tc creds :
  ServerCredentials tc = Ok creds → Insecure tc = false → RequireClientCert tc = true →
  ∃ tls pool, creds = Some (TLSCredentials tls (Some pool)) ∧ MinVersion tls = VersionTLS13 ∧ Certificates tls ≠ [].
Proof.
  unfold ServerCredentials. intros Hc Hi Hr. rewrite Hi, Hr in Hc. ok_steps Hc. ok_steps Ha0.
  destruct (AppendCertsFromPEM _) as [pool|]; [|done]. injection Hc as <-. injection Ha0 as <-. by eexists _, pool.
Qed.

Lemma worker_startup_engine wk :
  worker_startup Exp Listen = Ok wk →
  score_service (grpcServer wk) =
    Service.mk (Some (measuredEngine (cpu_engine Exp CPUScorer.DefaultCPUScorer)))
      (TrimSpace (Getenv "FRAUD_WORKER_AUTH_TOKEN")).
Proof.
  unfold worker_startup. intros Hw. ok_steps Hw. destruct (Listen _); [done|]. ok_steps Hw. injection Hw as <-.
  unfold ServeWithTransportObserved in Ha. ok_steps Ha. by injection Ha as <-.
Qed.

Lemma production_worker_secure wk :
  worker_startup Exp Listen = Ok wk → envBool "FRAUD_DEVELOPMENT_INSECURE" = false → worker_secure wk.
Proof.
  intros Hw Hdev. unfold worker_secure. rewrite (worker_startup_engine _ Hw). revert Hw. unfold worker_startup.
  rewrite Hdev. intros Hw. ok_steps Hw. destruct (Listen _); [done|]. ok_steps Hw. injection Hw as <-.
  unfold ServeWithTransportObserved in Ha. ok_steps Ha.
  apply ServerCredentials_secure in Ha0 as (tls & pool & -> & Hv & Hc); [|done..]. injection Ha as <-. simpl.
  rewrite andb_true_r in E. apply bool_decide_eq_false in E. simpl in E0. apply orb_false_iff in E0 as [E1 E2].
  apply bool_decide_eq_false in E1, E2. split_and!; [done| |done|]; eauto 10.
Qed.
End worker.

(** ** Claims *)

(** C9: outside development mode nothing in the serving plane runs without
    encryption and credentials: for every environment of a gateway and of a
    worker in which [FRAUD_DEVELOPMENT_INSECURE] is not true, if their start-up
    succeeds then the gateway's callers need a token over TLS 1.3, its feature
    store is a Redis client with TLS 1.3 and a password or a certificate (never
    the in-memory development store), its engine is a pool of remote workers
    (never the scorer in the process), each dialled with TLS 1.3 against a
    configured authority and called with a token; and the worker accepts gRPC
    over mutual TLS 1.3 only, refuses calls without its token, and serves its
    endpoints over TLS 1.3. *)
Theorem serving_never_plaintext `{FloatText} {R W} client_Get client_Ping
    (gateway_env worker_env : Env) (gateway_files worker_files : TLSFiles) NewClient dial conn_Score conn_Check ctx_metadata
    Exp Listen now (w : W) (g : running (R := R)) wk :
  @GatewayMain.startup _ R W client_Get client_Ping gateway_env gateway_files NewClient dial conn_Score conn_Check
    ctx_metadata now w = Ok g →
  @worker_startup worker_env worker_files Exp Listen = Ok wk →
  @envBool gateway_env "FRAUD_DEVELOPMENT_INSECURE" = false →
  @envBool worker_env "FRAUD_DEVELOPMENT_INSECURE" = false →
  gateway_secure client_Ping NewClient dial conn_Score conn_Check ctx_metadata g ∧ worker_secure wk.
Proof.
  intros Hg Hw Hdg Hdw. split.
  - exact (@production_gateway_secure _ _ _ _ _ gateway_env gateway_files _ _ _ _ _ _ _ _ Hg Hdg).
  - exact (@production_worker_secure worker_env worker_files _ _ _ Hw Hdw).
Qed.

(** A production gateway and a production worker of the demonstrations. *)
Definition demo_gateway_env : Env := λ key,
  if bool_decide (key = "FRAUD_AUTH_TOKEN") then "caller-token"
  else if bool_decide (key = "FRAUD_WORKER_AUTH_TOKEN") then "worker-token"
  else if bool_decide (key = "REDIS_ADDR") then "redis:6379"
  else if bool_decide (key = "REDIS_PASSWORD") then "redis-password"
  else if bool_decide (key = "FRAUD_WORKER_ADDRS") then "worker-1:50051, worker-2:50051"
  else if bool_decide (key ∈ ["FRAUD_WORKER_TLS_CA_FILE"; "FRAUD_GATEWAY_TLS_CERT_FILE"; "FRAUD_GATEWAY_TLS_KEY_FILE"])
  then "file.pem" else "".
Definition demo_worker_env : Env := λ key,
  if bool_decide (key = "FRAUD_WORKER_AUTH_TOKEN") then "worker-token"
  else if bool_decide (key ∈ ["FRAUD_GATEWAY_MTLS_CA_FILE"; "FRAUD_WORKER_TLS_CERT_FILE"; "FRAUD_WORKER_TLS_KEY_FILE";
    "FRAUD_WORKER_HTTP_TLS_CERT_FILE"; "FRAUD_WORKER_HTTP_TLS_KEY_FILE"])
  then "file.pem" else "".
Definition demo_files : TLSFiles :=
  {| CertPool := unit; Certificate := unit; ReadFile := λ _, Ok "pem";
     AppendCertsFromPEM := λ _, Some tt; LoadX509KeyPair := λ _ _, Ok tt |}.
(** Nothing is read as a number in these runs. *)
Definition demo_text : FloatText := {| FormatFloat := λ _, ""; ParseFloat := λ _, Err (Fresh "") |}.

(** The scorer for a request that pays nothing and has no features raised. *)
Definition demo_exp : float64 → float64 := λ _, fone.
Definition demo_service : Service.t (measures * unit) :=
  Service.mk (Some (measuredEngine (cpu_engine demo_exp CPUScorer.DefaultCPUScorer))) "worker-token".

Definition demo_gateway : result running :=
  @GatewayMain.startup demo_text unit (measures * unit) (λ _ t _ r, (r, t, Err redis_Nil)) (λ _ t r, (r, t, None))
    demo_gateway_env demo_files (λ _, tt) (λ _ _ _, None) (λ _, direct demo_service) (λ _ _ t w, (w, t, Ok "SERVING"))
    (λ _, None) 1000 (no_measures, tt).
Definition demo_worker : result running_worker :=
  @worker_startup demo_worker_env demo_files demo_exp (λ _, None).

Lemma serving_never_plaintext_witness :
  match demo_gateway, demo_worker with
  | Ok g, Ok wk => AuthToken (config (service g)) ≠ "" ∧ length (clients g) = 2%nat ∧
                   Service.AuthToken (score_service (grpcServer wk)) ≠ ""
  | _, _ => False
  end.
Proof.
  assert (match demo_gateway with Ok g => Nat.eqb (length (clients g)) 2 | Err _ => false end = true) as Hl
    by (vm_compute; reflexivity).
  assert (is_ok demo_worker = true) as Hok by (vm_compute; reflexivity).
  destruct demo_gateway as [g|] eqn:Eg; [|discriminate Hl]. destruct demo_worker as [wk|] eqn:Ew; [|discriminate Hok].
  destruct (@serving_never_plaintext demo_text unit (measures * unit) _ _ demo_gateway_env demo_worker_env
    demo_files demo_files _ _ _ _ _ _ _ _ _ g wk Eg Ew) as [[Hg _] [Hw _]]; [vm_compute; reflexivity..|].
  split; [exact Hg|]. split; [|exact Hw]. by apply Nat.eqb_eq.
Defined.

(** C8: scoring is correct from end to end.  For a gateway and workers started
    by their commands, over any network that only ever delivers responses the
    workers gave, the scheduler starts, and in every interleaving of callers,
    batches, readiness probes, failures and retries, a caller that is given a
    result is given the score of its own request by the default scorer; and
    outside development mode that result has passed validation (a score and a
    confidence in [0, 1], never a NaN). *)
Theorem remote_scoring_correct `{FloatText} {R W} client_Get client_Ping
    (gateway_env : Env) (gateway_files : TLSFiles) NewClient dial conn_Score conn_Check ctx_metadata
    Exp now (w : W) (g : running (R := R)) :
  @GatewayMain.startup _ R W client_Get client_Ping gateway_env gateway_files NewClient dial conn_Score conn_Check
    ctx_metadata now w = Ok g →
  (∀ address, ∃ worker_env worker_files Listen wk,
     @worker_startup worker_env worker_files Exp Listen = Ok wk ∧
     Relays (conn_Score address) (score_service (grpcServer wk)) (λ _, True)) →
  (∀ now', ∃ s, new_scheduler (config (service g)) now' = Ok s) ∧
  ∀ s e i it v,
    serving_run (engine_inference Exp) (config (service g)) (world (service g)) s e →
    items s !! i = Some it → submitter it = Returned (Ok v) →
    v = score_request Exp CPUScorer.DefaultCPUScorer (value it) ∧
    (@envBool gateway_env "FRAUD_DEVELOPMENT_INSECURE" = false → valid_result v).
Proof.
  intros Hg Hnet. split; [intros now'; by eapply started_scheduler|]. intros s e i it v Hrun Hi Hv.
  set (φ := λ r v, scored Exp CPUScorer.DefaultCPUScorer r v ∧
                   (@envBool gateway_env "FRAUD_DEVELOPMENT_INSECURE" = false → valid_result v)).
  assert (engine_ok Exp φ (world (service g))) as Hok.
  { apply (@started_engine_ok _ _ _ _ _ gateway_env gateway_files _ _ _ _ _ Exp φ now w g Hg).
    - intros Hd r. split; [done|]. by rewrite Hd.
    - intros address c. destruct (Hnet address) as (wenv & wfiles & Listen & wk & Hw & Hrel).
      rewrite (worker_startup_engine _ _ _ Hw) in Hrel.
      pose proof (client_inference_computes conn_Score conn_Check ctx_metadata
        _ _ (scored Exp CPUScorer.DefaultCPUScorer) address c (measured_computes _ _ _ (cpu_computes _ _)) Hrel) as Hc.
      constructor; [|done|done]. intros ctx t rs w1 w2 t2 out _ Ho.
      eapply Forall2_impl; [exact (@computes_ok _ _ _ _ Hc ctx t rs w1 w2 t2 out I Ho)|]. intros r x [Hs Hx]. by split. }
  destruct (serving_run_inv _ _ _ _ _ _ φ _ Hok Hrun) as (Hinv & _ & Hserved).
  exact (served_returned φ s i it v Hinv Hserved Hi Hv).
Qed.

(** One caller, served by the demonstration gateway through its first worker. *)
Definition demo_labels : list (label Request Result) :=
  [LSubmit Background demo_request 1000; LReceive; LTick Millisecond; LCollected; LAdmitItem; LInvoke;
   LHandled (Ok []); LRunReply; LRunReply; LReply 0].
Definition demo_run (g : running (R := unit) (W := measures * unit)) : option (sched Request Result * engine (measures * unit)) :=
  match new_scheduler (config (service g)) 1000 with
  | Ok s => drive (engine_inference demo_exp) (config (service g)) demo_labels s (world (service g))
  | Err _ => None
  end.
Definition demo_answer (x : option (sched Request Result * engine (measures * unit))) : option (Request * Result) :=
  '(s, _) ← x; it ← items s !! 0%nat;
  match submitter it with Returned (Ok v) => Some (value it, v) | _ => None end.

Lemma remote_scoring_correct_witness :
  match demo_gateway with
  | Ok g => ∃ r v, demo_answer (demo_run g) = Some (r, v) ∧
                   v = score_request demo_exp CPUScorer.DefaultCPUScorer r ∧ valid_result v
  | Err _ => False
  end.
Proof.
  assert (match demo_gateway with
          | Ok g => bool_decide (is_Some (demo_answer (demo_run g))) | Err _ => false end = true) as Hl
    by (vm_compute; reflexivity).
  assert (is_ok demo_worker = true) as Hok by (vm_compute; reflexivity).
  destruct demo_gateway as [g|] eqn:Eg; [|discriminate Hl]. destruct demo_worker as [wk|] eqn:Ew; [|discriminate Hok].
  apply bool_decide_eq_true in Hl as [[r v] Hrv]. exists r, v. split; [exact Hrv|].
  pose proof (worker_startup_engine (H := demo_worker_env) (H0 := demo_files) _ _ _ Ew) as Hs.
  destruct (@remote_scoring_correct demo_text unit (measures * unit) _ _ demo_gateway_env demo_files _ _
    (λ _, direct demo_service) _ _ demo_exp _ _ g Eg) as [_ H].
  { intros address. exists demo_worker_env, demo_files, (λ _, None), wk. split; [exact Ew|]. rewrite Hs.
    intros ctx now md rq w w' t resp. unfold direct.
    destruct (Service.Score demo_service ctx now (sent_authorization md) (Some rq) w) as [[w1 t1] [x|e]] eqn:E; [|done].
    intros [= <- <- <-]. exists ctx, now, w, w1, t1, x.
    split; [exact I|]. split; [exact E|reflexivity]. }
  clear Eg Ew Hs Hok.
  unfold demo_run in Hrv. destruct (new_scheduler _ 1000) as [s0|] eqn:Hn; [|done].
  destruct (drive _ _ _ s0 _) as [[s e]|] eqn:Hd; [|done]. cbn [demo_answer mbind option_bind] in Hrv.
  destruct (items s !! 0%nat) as [it|] eqn:Hi; [|done]. cbn [mbind option_bind] in Hrv.
  destruct (submitter it) as [| |[x|]] eqn:Hv; try discriminate Hrv. injection Hrv as <- <-.
  destruct (H s e 0%nat it x) as [Hx Hvalid]; [|exact Hi|exact Hv|].
  - eapply drive_run; [|exact Hd]. by eapply run_new.
  - split; [exact Hx|]. apply Hvalid. vm_compute. reflexivity.
Defined.
