(* ===== verification/ServingTypes.v ===== *)
(** * The requests of the serving plane are well typed: claim

    Go's types let a feature vector have any length and hold any float; the
    scorer and the workers only take [ModelFeatureWidth] finite values and a
    finite, non-negative amount.  [well_typed] is that type; the gateway, from
    the store it is configured with to the batches its scheduler forms, only
    ever builds requests of it. *)

From Stdlib Require Import ZArith Lia SpecFloat.
From stdpp Require Import prelude gmap strings list.
From S2P Require Import Prelude GoFloat GoString GoContext GoEnv GoTLS GoNet GoRedis Materialize FeatureStore FeatureStoreTheorems Scheduler SchedulerInv SchedulerValues Worker Pool WorkerGrpc Gateway GatewayMain ServingTheorems.

#[local] Open Scope Z_scope.
#[local] Open Scope go_scope.

Definition well_typed (r : Request) : Prop :=
  vector_ok ModelFeatureWidth (req_Features r) ∧
  finite (TransactionAmount r) = true ∧ flt (TransactionAmount r) fzero = false.

(** ** What the workers accept *)

Lemma existsb_finite v : Forall (λ x, finite x = true) v → existsb (λ x, IsNaN x || IsInf x) v = false.
Proof.
  induction 1 as [|x v Hx _ IH]; [done|]. simpl. unfold finite in Hx. apply andb_true_iff in Hx as [Hn Hi].
  apply negb_true_iff in Hn, Hi. by rewrite Hn, Hi, IH.
Qed.

Lemma validate_well_typed i r : well_typed r → validate_request i r = None.
Proof.
  intros ([Hw Hf] & Ha & Hp). unfold validate_request. rewrite Hw, Hp, existsb_finite by done.
  unfold finite in Ha. apply andb_true_iff in Ha as [Hn Hi]. apply negb_true_iff in Hn, Hi. by rewrite Hn, Hi.
Qed.

Lemma first_error_all {A} (f : Z → A → option error) (P : A → Prop) l i :
  (∀ i x, P x → f i x = None) → Forall P l → first_error f i l = None.
Proof. intros Hf Hl. revert i. induction Hl as [|x l Hx _ IH]; intros i; [done|]. simpl. by rewrite Hf. Qed.

Lemma well_typed_accepted rs :
  Forall well_typed rs → 1 <= Z.of_nat (length rs) <= MaxBatchSize → validateRPCRequests rs = None.
Proof.
  intros Ht Hl. unfold validateRPCRequests, validateRequests. cbn [negb andb].
  destruct (Z.eqb_spec (Z.of_nat (length rs)) 0); [lia|]. rewrite (proj2 (Z.ltb_ge _ _)) by lia. cbn [orb].
  rewrite (first_error_all _ well_typed) by (done || apply validate_well_typed).
  apply (first_error_all _ well_typed); [|done]. intros i r ([Hw _] & _). by rewrite Hw.
Qed.

(** ** What the configured store serves *)

Section store.
Context `{FloatText} {R W : Type}.
Context (client_Get : Context → Z → string → R → outcome R (result string)).
Context (client_Ping : Context → Z → R → outcome R (option error)).

#[local] Instance redis_backend' : Store (Redis.t (R := R)) := Redis.redis_store client_Get client_Ping.
#[local] Instance gateway_store : Store (feature_store R) := configured_store client_Get client_Ping.

Abbreviation redis_ok := (λ r : Redis.t (R := R), Redis.width r = ModelFeatureWidth).

Definition store_ok (s : feature_store R) : Prop :=
  match s with
  | OnlyRedis r => redis_ok r
  | RedisWithLocal f => fallback_ok redis_ok (memory_ok ModelFeatureWidth) f
  | OnlyMemory m => memory_ok ModelFeatureWidth m
  end.

#[export] Instance configured_sound : SoundStore (feature_store R) ModelFeatureWidth store_ok.
Proof.
  pose proof (redis_sound client_Get client_Ping ModelFeatureWidth).
  constructor. intros ctx now key [r|f|m] s' t res; simpl.
  - destruct (Redis.Get client_Get ctx now key r) as [[r1 t1] x] eqn:E. intros [= <- <- <-].
    exact (sound_get ctx now key _ _ _ _ E).
  - destruct (Fallback.Get ctx now key f) as [[f1 t1] x] eqn:E. intros [= <- <- <-].
    exact (sound_get (SoundStore := fallback_sound _ _ _) ctx now key _ _ _ _ E).
  - intros [= <- <- <-] Hm. exact (sound_get (S := Memory.t) ctx now key m m now _ eq_refl Hm).
Qed.

Lemma redis_Probe_width ctx now r r' t (e : option error) :
  Redis.Probe client_Ping ctx now r = (r', t, e) → Redis.width r' = Redis.width r.
Proof.
  unfold Redis.Probe. destruct (Redis.client r); [|by intros [= <- _ _]].
  destruct (client_Ping _ _ _) as [[c t1] x]. by intros [= <- _ _].
Qed.

Lemma probe_local_ok ctx now (f f' : Fallback.t (Redis.t (R := R)) Memory.t) t e :
  Fallback.probe_local ctx now f = (f', t, e) →
  fallback_ok redis_ok (memory_ok ModelFeatureWidth) f → fallback_ok redis_ok (memory_ok ModelFeatureWidth) f'.
Proof.
  unfold Fallback.probe_local. destruct (Fallback.Local f) as [l|] eqn:El; simpl; [|by intros [= <- _ _]].
  intros [= <- _ _] [Hp Hl]. split; simpl; [done|]. intros ? [= <-]. by apply Hl.
Qed.

Lemma store_Probe_ok ctx now s s' t e :
  store_Probe client_Get client_Ping ctx now s = (s', t, e) → store_ok s → store_ok s'.
Proof.
  destruct s as [r|f|m]; simpl.
  - destruct (Redis.Probe _ _ _ _) as [[r1 t1] x] eqn:E. intros [= <- _ _]. simpl. intros <-. by eapply redis_Probe_width.
  - destruct (Fallback.Probe ctx now f) as [[f1 t1] x] eqn:E. intros [= <- _ _] Hf. simpl in *.
    unfold Fallback.Probe in E. simpl in E. destruct (Fallback.Primary f) as [p|] eqn:Ep; [|by eapply probe_local_ok].
    destruct (Redis.Probe _ _ _ _) as [[p1 t2] y] eqn:Er. apply redis_Probe_width in Er.
    assert (fallback_ok redis_ok (memory_ok ModelFeatureWidth) (Fallback.mk (Some p1) (Fallback.Local f))) as Hok.
    { destruct Hf as [Hp Hl]. split; simpl; [|done]. intros ? [= <-]. rewrite Er. by apply Hp. }
    destruct y; [|by injection E as <- _ _]. destruct (ctx_err ctx t2); [by injection E as <- _ _|]. by eapply probe_local_ok.
  - by intros [= <- _ _].
Qed.
End store.

(** ** What the gateway submits *)

Section gateway.
Context `{FloatText} {R W : Type}.
Context (client_Get : Context → Z → string → R → outcome R (result string)).
Context (client_Ping : Context → Z → R → outcome R (option error)).
Context (decode_body : string → option scoreRequest).

#[local] Existing Instance gateway_store.
#[local] Instance this_store : Store (feature_store R) := gateway_store client_Get client_Ping.

Lemma configuredFeatures_ok `{Env} `{TLSFiles} (NewClient : Options → R) dev f :
  configuredFeatures NewClient dev = Ok f → store_ok f.
Proof.
  assert (∀ m, developmentFeatures = Ok m → memory_ok ModelFeatureWidth m) as Hdev.
  { unfold developmentFeatures. intros m. destruct (Memory.Put _ _ _) as [m1 [e|]] eqn:Hp; [done|]. intros [= <-].
    by apply (memory_put_ok ModelFeatureWidth) in Hp as [Hm _]. }
  assert (∀ cfg r, Redis.NewRedisWithConfig NewClient cfg = Ok r → Redis.width r = Redis.Width cfg) as Hnew.
  { unfold Redis.NewRedisWithConfig. intros cfg r Hr. ok_steps Hr. by injection Hr as <-. }
  unfold configuredFeatures. case_if.
  - intros Hf. ok_steps Hf. unfold configuredRedis in Ha. ok_steps Ha. injection Ha as <-. apply Hnew in Ha0.
    destruct dev; [ok_steps Hf|]; injection Hf as <-; [|done]. split; simpl; intros ? [= <-]; auto.
  - case_if; [done|]. intros Hf. ok_steps Hf. injection Hf as <-. simpl. auto.
Qed.

(** [decode_body] is [encoding/json], which has no notation for NaN or the
    infinities and refuses numbers out of range. *)
Definition finite_amounts : Prop := ∀ body inp, decode_body body = Some inp → finite (in_Amount inp) = true.

(** The gateways that serving requests and probes makes of [g0]. *)
Inductive gateway_reached (g0 : Gateway (feature_store R) W) : Gateway (feature_store R) W → Prop :=
| reached_start : gateway_reached g0 g0
| reached_score Submit id r now g g' t resp :
    gateway_reached g0 g → score Submit decode_body id r now g = (g', t, resp) → gateway_reached g0 g'
| reached_ready engine_Healthy r now g g' t resp :
    gateway_reached g0 g → ready engine_Healthy r now g = (g', t, resp) → gateway_reached g0 g'.

Lemma score_body_ok Submit id r now (g g' : Gateway (feature_store R) W) t resp :
  score_body Submit decode_body id r now g = (g', t, resp) → store_ok (features g) → store_ok (features g').
Proof.
  unfold score_body. destruct (decode_body _); [|by intros [= <- _ _]]. case_if; [by intros [= <- _ _]|].
  destruct (Get _ _ _ _) as [[s1 t1] fs] eqn:Hget. intros Hs Hg.
  destruct (sound_get (SoundStore := configured_sound client_Get client_Ping) _ _ _ _ _ _ _ Hget Hg) as [Hok _].
  destruct fs as [fs|]; [|injection Hs as <- _ _; exact Hok].
  destruct (Submit _ _ _ _) as [[w1 t2] [res|]]; injection Hs as <- _ _; exact Hok.
Qed.

Lemma reached_ok g0 g : store_ok (features g0) → gateway_reached g0 g → store_ok (features g).
Proof.
  intros H0. induction 1 as [|Submit id r now g g' t resp _ IH Hs|eh r now g g' t resp _ IH Hs]; [done|..].
  - unfold score in Hs. case_if; [by injection Hs as <- _ _|].
    destruct (score_body _ _ _ _ _ _) as [[g1 t1] resp1] eqn:Hb. injection Hs as <- _ _.
    apply score_body_ok in Hb; [exact Hb|exact IH].
  - unfold ready in Hs. simpl in Hs. destruct (store_Probe _ _ _ _ _) as [[s1 t1] e] eqn:Hp.
    eapply store_Probe_ok in Hp; [|exact IH]. destruct e; [by injection Hs as <- _ _|].
    destruct (eh _ _ _) as [[w1 t2] [e|]]; by injection Hs as <- _ _.
Qed.

(** [score] submits well-typed requests only: its outcome does not depend on
    what the scheduler does with others. *)
Lemma score_typed Submit1 Submit2 id r now (g : Gateway (feature_store R) W) :
  finite_amounts → store_ok (features g) →
  (∀ ctx t rq w, well_typed rq → Submit1 ctx t rq w = Submit2 ctx t rq w) →
  score Submit1 decode_body id r now g = score Submit2 decode_body id r now g.
Proof.
  intros Hfin Hok Heq. unfold score. case_if; [done|].
  enough (∀ g, store_ok (features g) →
            score_body Submit1 decode_body id r now g = score_body Submit2 decode_body id r now g) as -> by done.
  clear g Hok Hif. intros g Hok. unfold score_body. destruct (decode_body _) as [inp|] eqn:Hd; [|done].
  destruct (negb (validEntityID (in_EntityID inp)) || flt (in_Amount inp) fzero) eqn:Hv; [done|].
  destruct (Get _ _ _ _) as [[s1 t1] [fs|]] eqn:Hget; [|done].
  destruct (sound_get (SoundStore := configured_sound client_Get client_Ping) _ _ _ _ _ _ _ Hget Hok) as [_ Hfs].
  rewrite Heq; [done|]. apply orb_false_iff in Hv as [_ Hv]. split_and!; [by apply Hfs|by eapply Hfin|done].
Qed.
End gateway.

(** ** What the scheduler hands to the engine *)

Lemma steps_typed ls (s s' : sched Request Result) :
  Forall (λ l, ∀ c v created, l = LSubmit c v created → well_typed v) ls → steps ls s = Some s' →
  inv s → Forall well_typed (submitted s) →
  inv s' ∧ Forall well_typed (submitted s') ∧ maxBatch s' = maxBatch s.
Proof.
  intros Hls. revert s. induction Hls as [|l ls Hl _ IH]; intros s; simpl; [by intros [= <-]|].
  destruct (step l s) as [s1|] eqn:Hst; [|done]. simpl. intros Hs Hi Ht.
  rewrite <- (step_maxBatch _ _ _ Hst). apply IH; [done|by eapply step_inv|by eapply step_submitted].
Qed.

(** C10: requests are well typed throughout the gateway.  For every gateway the
    command starts, in development or not, and in every state it reaches,
    scoring submits only requests of exactly 32 finite features and a finite
    non-negative amount, whatever Redis holds and the callers send (replacing
    the scheduler's behaviour on all other requests changes nothing); and every
    batch its scheduler makes of such requests passes the validation of the
    worker's RPC. *)
Theorem requests_well_typed `{FloatText} {R W} client_Get client_Ping `{Env} `{TLSFiles} NewClient dial
    conn_Score conn_Check ctx_metadata decode_body now (w : W) (g0 : running (R := R)) :
  GatewayMain.startup client_Get client_Ping NewClient dial conn_Score conn_Check ctx_metadata now w = Ok g0 →
  finite_amounts decode_body →
  (∀ g Submit1 Submit2 id r now,
     gateway_reached client_Get client_Ping decode_body (service g0) g →
     (∀ ctx t rq w, well_typed rq → Submit1 ctx t rq w = Submit2 ctx t rq w) →
     let S := gateway_store client_Get client_Ping in
     score Submit1 decode_body id r now g = score Submit2 decode_body id r now g) ∧
  (∀ now' s0 ls s act c open,
     new_scheduler (config (service g0)) now' = Ok s0 →
     Forall (λ l, ∀ c v created, l = LSubmit c v created → well_typed v) ls →
     steps ls s0 = Some s → run s = Handling act c open →
     validateRPCRequests (values_of s act) = None).
Proof.
  intros Hg Hfin. split.
  - intros g S1 S2 id r n Hr Heq S. apply score_typed; [done| |done]. eapply reached_ok; [|exact Hr].
    apply startup_ok in Hg as (dev & token & f & e & ctx & t & t' & err & _ & _ & Hf & _ & _ & Hp & _).
    eapply store_Probe_ok; [exact Hp|]. by eapply configuredFeatures_ok.
  - intros now' s0 ls s act c open Hn Hls Hst Hr. unfold new_scheduler in Hn.
    pose proof (New_inv _ _ _ _ _ Hn) as Hi0. unfold Scheduler.New in Hn. case_if; [done|]. injection Hn as <-.
    eapply steps_typed in Hst as (Hi & Ht & Hb); [|done..].
    pose proof (length_values_of _ _ (handling_bound _ _ _ _ Hi Hr)) as Hl.
    apply well_typed_accepted; [by apply Forall_values_of|]. rewrite Hl.
    pose proof (inv_nonempty _ Hi) as Hne. pose proof (inv_batch _ Hi) as Hbatch. unfold held in Hbatch.
    rewrite Hr in Hne, Hbatch. rewrite Hb in Hbatch. simpl in Hbatch. rewrite app_nil_r in Hbatch.
    unfold MaxBatchSize. destruct act; [done|]. simpl in *. lia.
Qed.

(** A batch of one, about to be handed to the demonstration gateway's engine. *)
Definition typed_labels : list (label Request Result) :=
  [LSubmit Background WorkerGrpcTheorems.demo_request 1000; LReceive; LTick Millisecond; LCollected; LAdmitItem; LInvoke].
Definition handed (cfg : Config) : option (list Request) :=
  match new_scheduler cfg 1000 with
  | Ok s0 => s ← steps typed_labels s0; match run s with Handling act _ _ => Some (values_of s act) | _ => None end
  | Err _ => None
  end.

Lemma requests_well_typed_witness :
  match demo_gateway with
  | Ok g => ∃ rs, handed (config (service g)) = Some rs ∧ validateRPCRequests rs = None
  | Err _ => False
  end.
Proof.
  assert (match demo_gateway with
          | Ok g => bool_decide (is_Some (handed (config (service g)))) | Err _ => false end = true) as Hl
    by (vm_compute; reflexivity).
  destruct demo_gateway as [g|] eqn:Eg; [|discriminate Hl].
  destruct (@requests_well_typed demo_text unit (WorkerMain.measures * unit) _ _ demo_gateway_env demo_files _ _ _ _ _
    (λ _, Some (mkScoreReq "demo-account" fone)) _ _ g Eg) as [_ H].
  { intros body inp [= <-]. reflexivity. }
  clear Eg. apply bool_decide_eq_true in Hl as [rs Hrs]. exists rs. split; [exact Hrs|].
  unfold handed in Hrs. destruct (new_scheduler _ 1000) as [s0|] eqn:Hn; [|discriminate Hrs].
  destruct (steps typed_labels s0) as [s|] eqn:Hs; [|discriminate Hrs]. cbn [mbind option_bind] in Hrs.
  destruct (run s) as [| | | |act c o| |] eqn:Hr; try discriminate Hrs. injection Hrs as <-.
  refine (H 1000 s0 typed_labels s act c o Hn _ Hs Hr).
  unfold typed_labels. repeat (constructor; [intros ? ? ? [=]; subst; try (split_and!; vm_compute; repeat constructor)|]).
  constructor.
Defined.
