(* ===== verification/ServingNaN.v ===== *)
(** * A NaN score: claim

    The scorer in the gateway's own process is not validated.  A vector of
    finite features can make its logit the difference of two infinities; the
    scheduler hands the NaN to the caller like any other score, it does not
    compare as at least the threshold, and it has no JSON encoding, so that
    the answer is a 200 without a body. *)

From Stdlib Require Import ZArith Lia SpecFloat.
From stdpp Require Import prelude gmap strings list.
From S2P Require Import Prelude GoFloat GoString GoContext Materialize FeatureStore FeatureStoreTheorems Scheduler SchedulerInv SchedulerValues Worker Pool Gateway GatewayTheorems GatewayMain Computes ServingTheorems ServingTypes.

#[local] Open Scope Z_scope.

(** A vector of finite values on which the default scorer computes a NaN. *)
Definition huge : float64 := S754_finite false 9007199254740991 970.
Definition nan_vector : list float64 := [fmul f_2 huge; fzero; fneg (fmul f_2 huge)] ++ replicate 29 fzero.
Definition nan_request : Request := mkRequest nan_vector fone.

Lemma nan_request_well_typed : well_typed nan_request.
Proof. unfold well_typed, vector_ok. split_and!; try (vm_compute; reflexivity). repeat constructor. Qed.

Lemma nan_request_score (Exp : float64 → float64) :
  Exp fnan = fnan → Score (score_request Exp CPUScorer.DefaultCPUScorer nan_request) = fnan.
Proof.
  intros HE.
  set (z := logit (CPUScorer.Bias CPUScorer.DefaultCPUScorer)
              (contributions 0 nan_vector (CPUScorer.Weights CPUScorer.DefaultCPUScorer)) fone).
  assert (z = fnan) as Hz by (vm_compute; reflexivity).
  change (fdiv fone (fadd fone (Exp (fneg z))) = fnan). rewrite Hz. change (fneg fnan) with fnan. by rewrite HE.
Qed.

(** ** The scheduler with the scorer in the process *)

Section run.
Context {W : Type} (Exp : float64 → float64).

Lemma in_process_ok :
  engine_ok Exp (scored Exp CPUScorer.DefaultCPUScorer) (InProcess CPUScorer.DefaultCPUScorer : engine W).
Proof. intros ctx now rs out. apply CPU_Infer_map. Qed.

Lemma in_process_scored cfg s (e : engine W) i it v :
  serving_run (engine_inference Exp) cfg (InProcess CPUScorer.DefaultCPUScorer) s e →
  items s !! i = Some it → submitter it = Returned (Ok v) →
  v = score_request Exp CPUScorer.DefaultCPUScorer (value it).
Proof.
  intros Hrun Hi Hv. destruct (serving_run_inv _ _ _ _ _ _ _ _ in_process_ok Hrun) as (Hinv & _ & Hs).
  exact (served_returned _ s i it v Hinv Hs Hi Hv).
Qed.

(** One caller of the gateway's scheduler, with the default configuration. *)
Definition default_gateway : Config := with_defaults (mkConfig "" 0 0 0 0 fzero).
Definition nan_labels : list (label Request Result) :=
  [LSubmit Background nan_request 1000; LReceive; LTick Millisecond; LCollected; LAdmitItem; LInvoke;
   LHandled (Ok []); LRunReply; LRunReply; LReply 0].
Definition nan_run : option (sched Request Result * engine W) :=
  match new_scheduler default_gateway 1000 with
  | Ok s => drive (engine_inference Exp) default_gateway nan_labels s (InProcess CPUScorer.DefaultCPUScorer)
  | Err _ => None
  end.

Lemma nan_run_returns :
  ∃ s e it v, serving_run (engine_inference Exp) default_gateway (InProcess CPUScorer.DefaultCPUScorer) s (e : engine W) ∧
    items s !! 0%nat = Some it ∧ value it = nan_request ∧ submitter it = Returned (Ok v).
Proof.
  assert (match nan_run with
          | Some (s, e) => match items s !! 0%nat with
                           | Some it => match submitter it with
                                        | Returned (Ok v) => value it = nan_request | _ => False end
                           | None => False end
          | None => False end) as Hrun by (vm_compute; reflexivity).
  unfold nan_run in Hrun. destruct (new_scheduler default_gateway 1000) as [s0|] eqn:Hn; [|done].
  destruct (drive _ _ _ s0 _) as [[s e]|] eqn:Hd; [|done]. destruct (items s !! 0%nat) as [it|] eqn:Hi; [|done].
  destruct (submitter it) as [| |[v|]] eqn:Hv; try done. exists s, e, it, v. split_and!; try done.
  eapply drive_run; [|exact Hd]. by eapply run_new.
Qed.
End run.

(** ** The answer *)

Lemma nan_answer {S W} `{Store S} Submit decode_body id r now (g : Gateway S W) inp s' t fs w' t' res :
  authorized (config g) r = true → decode_body (http_body r) = Some inp →
  validEntityID (in_EntityID inp) = true → flt (in_Amount inp) fzero = false →
  Get (WithTimeout (WithTimeout (http_ctx r) now (Timeout (config g))) now (FeatureTimeout (config g)))
    now (in_EntityID inp) (features g) = (s', t, Ok fs) →
  Submit (WithTimeout (http_ctx r) now (Timeout (config g))) t (mkRequest fs (in_Amount inp)) (world g)
    = (w', t', Ok res) →
  IsNaN (Score res) = true →
  ∃ g', score Submit decode_body id r now g = (g', t', mkResponse 200 NoBody) ∧ failures (stats g') = failures (stats g).
Proof.
  intros Ha Hd Hv Hf Hg Hs Hn.
  destruct (score_scored Submit decode_body id r now g inp s' t fs w' t' res Ha Hd Hv Hf Hg Hs) as (g' & b & Hsc & Hb & Hfl).
  exists g'. split; [|done]. rewrite Hsc. unfold write, json_encodable. cbn [forallb]. by rewrite Hb, Hn.
Qed.

(** C40: with the in-process scorer the gateway can answer without a decision.
    There is a vector of finite features that the store accepts and a
    well-typed request with it; in every execution of the gateway's scheduler
    over the in-process engine, a caller that submitted that request and is
    given a result is given a NaN score, and there is such an execution; and
    whenever the scheduler returns a NaN score, the gateway answers an
    authorized and valid request with status 200 and an empty body, and counts
    no failure. *)
Theorem nan_score_unanswered (Exp : float64 → float64) :
  Exp fnan = fnan →
  (Memory.Put "card-1" nan_vector (Memory.NewMemory ModelFeatureWidth)).2 = None ∧
  well_typed nan_request ∧ req_Features nan_request = nan_vector ∧
  (∀ W cfg s (e : engine W) i it v,
     serving_run (engine_inference Exp) cfg (InProcess CPUScorer.DefaultCPUScorer) s e →
     items s !! i = Some it → value it = nan_request → submitter it = Returned (Ok v) → IsNaN (Score v) = true) ∧
  (∀ W, ∃ s (e : engine W) it v,
     serving_run (engine_inference Exp) default_gateway (InProcess CPUScorer.DefaultCPUScorer) s e ∧
     items s !! 0%nat = Some it ∧ value it = nan_request ∧ submitter it = Returned (Ok v)) ∧
  (∀ S W (store : Store S) Submit decode_body id r now (g : Gateway S W) inp s' t fs w' t' res,
     authorized (config g) r = true → decode_body (http_body r) = Some inp →
     validEntityID (in_EntityID inp) = true → flt (in_Amount inp) fzero = false →
     Get (WithTimeout (WithTimeout (http_ctx r) now (Timeout (config g))) now (FeatureTimeout (config g)))
       now (in_EntityID inp) (features g) = (s', t, Ok fs) →
     Submit (WithTimeout (http_ctx r) now (Timeout (config g))) t (mkRequest fs (in_Amount inp)) (world g)
       = (w', t', Ok res) →
     IsNaN (Score res) = true →
     ∃ g', score Submit decode_body id r now g = (g', t', mkResponse 200 NoBody) ∧
           failures (stats g') = failures (stats g)).
Proof.
  intros HE. split; [vm_compute; reflexivity|]. split; [apply nan_request_well_typed|]. split; [reflexivity|].
  split_and!.
  - intros W cfg s e i it v Hrun Hi Hval Hv. rewrite (in_process_scored _ _ _ _ _ _ _ Hrun Hi Hv), Hval.
    by rewrite nan_request_score.
  - intros W. apply nan_run_returns.
  - intros. by eapply nan_answer.
Qed.

Lemma nan_score_unanswered_witness :
  ∃ v, IsNaN (Score v) = true ∧
    ∃ s e it, serving_run (engine_inference (W := unit) (λ x, x)) default_gateway (InProcess CPUScorer.DefaultCPUScorer) s e ∧
      items s !! 0%nat = Some it ∧ submitter it = Returned (Ok v).
Proof.
  destruct (nan_score_unanswered (λ x, x) eq_refl) as (_ & _ & _ & Hall & Hex & _).
  destruct (Hex unit) as (s & e & it & v & Hrun & Hi & Hval & Hv). exists v.
  split; [exact (Hall unit _ _ _ _ _ _ Hrun Hi Hval Hv)|]. by exists s, e, it.
Defined.
