(* ===== verification/LoadTester.v ===== *)
(** * The load tester

    [load_tester/main.go]: validation of the configuration, the seeded Poisson
    schedule, the weighted round-robin of entities and the request payloads.
    [Run] is in [LoadRun.v], the artifacts and [main] in [LoadArtifacts.v].

    The PCG generator of [math/rand/v2] is translated; [math.Log] is a
    parameter, and so is the conversion of a float outside the range of an
    int64, which Go leaves to the implementation. *)

From Stdlib Require Import ZArith Lia SpecFloat Ascii.
From stdpp Require Import prelude gmap strings list.
From S2P Require Import Prelude GoFloat GoString GoContext GoEnv.

#[local] Open Scope Z_scope.
#[local] Open Scope go_scope.

(** ** Configuration *)

Record Config := mkConfig {
  URL : string;
  Token : string;
  cfg_Duration : Z;
  Requests : Z;
  Concurrency : Z;
  Rate : float64;
  Timeout : Z;
  Seed : Z;
  Entities : list string;
  EntityWeights : list Z;
  PayloadMode : string;
  OutputDir : string;
}.

Definition Validate (c : Config) : option error :=
  if negb (HasPrefix (URL c) "http://") && negb (HasPrefix (URL c) "https://")
  then Some (Fresh "url must be http(s)")
  else if (Requests c <? 1) && (cfg_Duration c <=? 0)
  then Some (Fresh "set a positive -requests or -duration")
  else if (Requests c <? 0) || (cfg_Duration c <? 0) || (Concurrency c <? 1) || fle (Rate c) fzero || (Timeout c <=? 0)
  then Some (Fresh "requests/duration/concurrency/rate/timeout must be positive")
  else if bool_decide (Entities c = []) then Some (Fresh "at least one entity is required")
  else if bool_decide (PayloadMode c ≠ "") && bool_decide (PayloadMode c ≠ "entity")
          && bool_decide (PayloadMode c ≠ "transaction")
  then Some (Fresh "payload-mode must be entity or transaction")
  else if bool_decide (EntityWeights c ≠ [])
          && negb (Nat.eqb (length (EntityWeights c)) (length (Entities c)))
  then Some (Fresh "entity weights must match entities")
  else if existsb (λ weight, weight <? 1) (EntityWeights c)
  then Some (Fresh "entity weights must be positive")
  else None.

(** [name[:weight]] items separated by commas. *)
Definition parse_entity (part : string) : result (string * Z) :=
  match Split ":" (TrimSpace part) with
  | [name] => if bool_decide (name = "") then Err (Fresh "entities must be name[:weight]") else Ok (name, 1)
  | [name; w] =>
      if bool_decide (name = "") then Err (Fresh "entities must be name[:weight]")
      else match Atoi w with
           | Some weight => if weight <? 1 then Err (Fresh "entity weight must be a positive integer") else Ok (name, weight)
           | None => Err (Fresh "entity weight must be a positive integer")
           end
  | _ => Err (Fresh "entities must be name[:weight]")
  end.

Fixpoint parse_items (parts : list string) : result (list string * list Z) :=
  match parts with
  | [] => Ok ([], [])
  | part :: parts =>
      let! nw := parse_entity part in
      let! rest := parse_items parts in
      Ok (nw.1 :: rest.1, nw.2 :: rest.2)
  end.
Definition parseEntities (s : string) : result (list string * list Z) := parse_items (Split "," s).

(** ** The entity of a request *)

(** The loop over the weights; [None] is an index out of range. *)
Fixpoint pick (entities : list string) (weights : list Z) (i : nat) (position : Z) : option string :=
  match weights with
  | [] => last entities
  | weight :: weights =>
      if position <? weight then entities !! i else pick entities weights (S i) (wrap_int64 (position - weight))
  end.

(** [None] is a run-time panic: an empty list, or a division by zero when the
    sum of the weights wraps around to zero. *)
Definition entityForIndex (c : Config) (index : Z) : option string :=
  if bool_decide (EntityWeights c = []) then
    if bool_decide (Entities c = []) then None
    else Entities c !! Z.to_nat (Z.rem index (Z.of_nat (length (Entities c))))
  else
    let total := foldl (λ total weight, wrap_int64 (total + weight)) 0 (EntityWeights c) in
    if total =? 0 then None
    else pick (Entities c) (EntityWeights c) 0 (Z.rem index total).

(** ** Payloads *)

Record job := mkJob { index : Z; scheduled : Z }.

(** [fmt.Sprintf("%0*x", width, n)] for a non-negative [n]: lower-case
    hexadecimal, padded with zeros to at least [width] digits. *)
Definition hex_digit (d : Z) : Z := if d <? 10 then 48 + d else 87 + d.
Fixpoint hex_digits (fuel : nat) (n : Z) : list Z :=
  match fuel with
  | O => []
  | S fuel => if n =? 0 then [] else hex_digits fuel (n / 16) ++ [n mod 16]
  end.
Definition hex_string (ds : list Z) : string := of_bytes (hex_digit <$> ds).
Definition pad (width : nat) (ds : list Z) : list Z := replicate (width - length ds) 0 ++ ds.
(** A 64-bit number has at most sixteen digits. *)
Definition Sprintf_x (width : nat) (n : Z) : string := hex_string (pad width (hex_digits 16 n)).

(** The two bodies, before [json.Marshal]. *)
Inductive payload :=
| EntityPayload (EntityID : string) (Amount : float64)
| TransactionPayload (TransactionID AccountID : string) (AmountMicros : Z) (Currency : string)
    (OccurredAtNS : Z) (MerchantCategory : string).

(** [Time.UnixNano] of an instant counted from the zero [Time]. *)
Definition unix_epoch : Z := 62135596800 * Second.
Definition UnixNano (t : Z) : Z := wrap_int64 (t - unix_epoch).

Definition requestPayload (c : Config) (work : job) : option payload :=
  entity ← entityForIndex c (index work);
  if bool_decide (PayloadMode c = "transaction") then
    let occurred := UnixNano (scheduled work) in
    let occurred := if occurred <=? 0 then wrap_int64 (1700000000000000000 + index work) else occurred in
    category ← ["grocery"; "fuel"; "travel"; "retail"] !! Z.to_nat (Z.rem (index work) 4);
    Some (TransactionPayload ("load-" +:+ Sprintf_x 16 (Seed c) +:+ "-" +:+ Sprintf_x 8 (index work)) entity
            (1000000 + Z.rem (index work) 100 * 10000) "USD" occurred category)
  else Some (EntityPayload entity (fadd (float_of_Z 10 0) (float_of_Z (Z.rem (index work) 100) 0))).

(** ** The arrival schedule *)

(** [rand.PCG]: a 128-bit congruential generator in two words. *)
Record PCG := mkPCG { pcg_hi : Z; pcg_lo : Z }.

Definition pcg_next (p : PCG) : PCG :=
  let mulHi := 2549297995355413924 in
  let mulLo := 4865540595714422341 in
  let incHi := 6364136223846793005 in
  let incLo := 1442695040888963407 in
  let prod := pcg_lo p * mulLo in
  let hi := wrap64 (prod / 2 ^ 64 + (pcg_hi p * mulLo + pcg_lo p * mulHi)) in
  let lo := wrap64 prod in
  mkPCG (wrap64 (hi + incHi + (lo + incLo) / 2 ^ 64)) (wrap64 (lo + incLo)).

(** [PCG.Uint64]: the DXSM output function. *)
Definition Uint64 (p : PCG) : Z * PCG :=
  let p := pcg_next p in
  let cheapMul := 0xda942042e4dd58b5 in
  let hi := Z.lxor (pcg_hi p) (Z.shiftr (pcg_hi p) 32) in
  let hi := wrap64 (hi * cheapMul) in
  let hi := Z.lxor hi (Z.shiftr hi 48) in
  (wrap64 (hi * Z.lor (pcg_lo p) 1), p).

(** [Rand.Float64]: the low 53 bits over 2^53. *)
Definition Float64 (p : PCG) : float64 * PCG :=
  let '(u, p) := Uint64 p in
  (fdiv (float_of_Z (u mod 2 ^ 53) 0) (float_of_Z (2 ^ 53) 0), p).

Definition SmallestNonzeroFloat64 : float64 := S754_finite false 1 (-1074).

Section schedule.
Context (Log : float64 → float64) (out_of_range : float64 → Z).

(** [int64(x)]: truncation toward zero when the result fits. *)
Definition int64_of (x : float64) : Z :=
  let t := match x with
           | S754_finite s m e =>
               let a := if 0 <=? e then Z.pos m * 2 ^ e else Z.pos m / 2 ^ (- e) in
               if s : bool then - a else a
           | _ => 0
           end in
  if IsNaN x || IsInf x || (t <? - 2 ^ 63) || (MaxInt64 <? t) then out_of_range x else t.

Definition next_elapsed (rate elapsed : float64) (p : PCG) : float64 * PCG :=
  let '(u, p) := Float64 p in
  let u := if fle u fzero then SmallestNonzeroFloat64 else u in
  (fadd elapsed (fdiv (fneg (Log u)) rate), p).

Fixpoint arrivals (n : nat) (rate elapsed : float64) (p : PCG) : list Z :=
  match n with
  | O => []
  | S n =>
      let '(elapsed, p) := next_elapsed rate elapsed p in
      int64_of (fmul elapsed (float_of_Z Second 0)) :: arrivals n rate elapsed p
  end.

Definition ArrivalSchedule (n : Z) (rate : float64) (seed : Z) : result (list Z) :=
  if (n <? 0) || fle rate fzero then Err (Fresh "n must be non-negative and rate must be positive")
  else Ok (arrivals (Z.to_nat n) rate fzero (mkPCG seed (Z.lxor seed 0x9e3779b97f4a7c15))).
End schedule.
