(* ===== verification/LoadRun.v ===== *)
(** * The load tester: [Run]

    [load_tester/main.go], [Run] and [perform].  The goroutines of a run are
    the producer, which sends a job at every planned arrival, [Concurrency]
    workers, the goroutine that closes the results once the workers are done,
    and the caller, which collects the results.  A state holds where each of
    them is; [step] lets one of them take its next action.  The channel of
    jobs is unbuffered, so a send and a receive are one step; the channel of
    results holds up to [Concurrency] values.  A panic in a worker ends the
    program: no goroutine steps after it. *)

From Stdlib Require Import ZArith Lia SpecFloat.
From stdpp Require Import prelude gmap strings list.
From S2P Require Import Prelude GoFloat GoString GoContext GoEnv StreamProcessor LoadTester.

#[local] Open Scope Z_scope.
#[local] Open Scope go_scope.

(** ** One request *)

Record Result := mkResult { latency : Z; status : Z; err : option error }.

(** One request; [Do] is [http.Client.Do] on the headers and the body: a
    status code or a transport error.  [None] is the panic of an index out of
    range in [requestPayload]. *)
Definition perform (Marshal : payload → result string) (NewRequest : string → option error)
    (Do : list (string * string) → string → result Z) (finished : Z) (c : Config) (work : job) : option Result :=
  let since := Since (scheduled work) finished in
  p ← requestPayload c work;
  Some match Marshal p with
       | Err e => mkResult since 0 (Some e)
       | Ok body =>
           match NewRequest (URL c) with
           | Some e => mkResult since 0 (Some e)
           | None =>
               let headers := ("Content-Type", "application/json") ::
                 (if bool_decide (Token c ≠ "") then [("Authorization", "Bearer " +:+ Token c)] else []) in
               match Do headers body with
               | Err e => mkResult since 0 (Some e)
               | Ok code => mkResult since code None
               end
           end
       end.

(** ** The summary *)

Record Summary := mkSummary {
  Scheduled : Z;
  Completed : Z;
  Successful : Z;
  Errors : Z;
  StatusCounts : gmap string Z;
  recorded : list Z;    (* the values given to the histogram, in order *)
}.
Definition no_summary : Summary := mkSummary 0 0 0 0 ∅ [].

Definition max64 (a b : Z) : Z := if a >? b then a else b.

(** [s.StatusCounts[k]++]. *)
Definition increment (k : string) (m : gmap string Z) : gmap string Z := <[k := default 0 (m !! k) + 1]> m.

(** The body of the loop over the results. *)
Definition collect_result (r : Result) (s : Summary) : Summary :=
  let '(ok, errs, counts) :=
    match err r with
    | Some _ => (Successful s, Errors s + 1, increment "transport_error" (StatusCounts s))
    | None =>
        let counts := increment (Itoa (status r)) (StatusCounts s) in
        if (200 <=? status r) && (status r <? 300) then (Successful s + 1, Errors s, counts)
        else (Successful s, Errors s + 1, counts)
    end in
  mkSummary (Scheduled s) (Completed s + 1) ok errs counts
    (recorded s ++ [max64 1 (Z.quot (latency r) Microsecond)]).

(** ** The transition system *)

Inductive producer := Waiting (i : nat) | Sending (i : nat) | Counting (i : nat) | JobsClosed.
Inductive worker := Receiving | Performing (j : job) | Reporting (r : Result) | Exited.

Record run := mkRun {
  cfg : Config;
  offsets : list Z;
  started : Z;
  prod : producer;
  workers : list worker;
  results : list Result;
  results_closed : bool;
  summary : Summary;
  sent : Z;
  finished : bool;
  panicked : bool;      (* a worker has panicked, and the program is over *)
  taken : list Z;       (* history: the indices of the jobs handed to workers *)
}.

(** [requested]: the number of arrivals planned. *)
Definition Ceil (x : float64) : float64 :=
  match x with
  | S754_finite s m e =>
      if 0 <=? e then x
      else
        let v := if s : bool then - (Z.pos m / 2 ^ (- e)) else - ((- Z.pos m) / 2 ^ (- e)) in
        if v =? 0 then S754_zero s else float_of_Z v 0
  | _ => x
  end.

Section run.
Context (Log : float64 → float64) (out_of_range : float64 → Z).

(** [Run] up to the start of its goroutines. *)
Definition start (c : Config) (now : Z) : result run :=
  match Validate c with
  | Some e => Err e
  | None =>
      let requested := if Requests c =? 0
                       then int64_of out_of_range (Ceil (fmul (Seconds (cfg_Duration c)) (Rate c)))
                       else Requests c in
      let! offs := ArrivalSchedule Log out_of_range requested (Rate c) (Seed c) in
      Ok (mkRun c offs now (Waiting 0) (replicate (Z.to_nat (Concurrency c)) Receiving) [] false no_summary 0 false false [])
  end.
End run.

Definition with_prod (s : run) (p : producer) : run :=
  mkRun (cfg s) (offsets s) (started s) p (workers s) (results s) (results_closed s) (summary s) (sent s) (finished s)
    (panicked s) (taken s).
Definition with_workers (s : run) (ws : list worker) : run :=
  mkRun (cfg s) (offsets s) (started s) (prod s) ws (results s) (results_closed s) (summary s) (sent s) (finished s)
    (panicked s) (taken s).

(** The runtime ends the program. *)
Definition panic (s : run) : run :=
  mkRun (cfg s) (offsets s) (started s) (prod s) (workers s) (results s) (results_closed s) (summary s) (sent s)
    (finished s) true (taken s).

(** The head of the producer's loop: the range is over, or the arrival is
    past the duration. *)
Definition no_more (s : run) (i : nat) : bool :=
  match offsets s !! i with
  | None => true
  | Some offset => (0 <? cfg_Duration (cfg s)) && (cfg_Duration (cfg s) <? offset)
  end.

Inductive label :=
| LEnd                         (* the producer leaves its loop *)
| LTimer                       (* its timer fires *)
| LCancel                      (* the context is done *)
| LHand (k : nat)              (* the job goes to worker [k] *)
| LCount                       (* [sent.Add(1)] *)
| LPerform (k : nat) (response : result Z) (now : Z)   (* [perform], answered with [response] at [now] *)
| LReport (k : nat)            (* the result goes into the channel *)
| LExit (k : nat)              (* worker [k] finds the jobs closed *)
| LClose                       (* [workers.Wait(); close(results)] *)
| LCollect
| LFinish.                     (* the loop over the results ends *)

Section step.
Context (Marshal : payload → result string) (NewRequest : string → option error).

(** One action of a goroutine. *)
Definition goroutine_step (l : label) (s : run) : option run :=
  match l, prod s with
  | LEnd, Waiting i => if no_more s i then Some (with_prod s JobsClosed) else None
  | LTimer, Waiting i => if no_more s i then None else Some (with_prod s (Sending i))
  | LCancel, Waiting i => if no_more s i then None else Some (with_prod s JobsClosed)
  | LHand k, Sending i =>
      offset ← offsets s !! i;
      match workers s !! k with
      | Some Receiving =>
          Some (mkRun (cfg s) (offsets s) (started s) (Counting i)
                  (<[k := Performing (mkJob (Z.of_nat i) (started s + offset))]> (workers s))
                  (results s) (results_closed s) (summary s) (sent s) (finished s) (panicked s) (taken s ++ [Z.of_nat i]))
      | _ => None
      end
  | LCount, Counting i =>
      Some (mkRun (cfg s) (offsets s) (started s) (Waiting (S i)) (workers s) (results s) (results_closed s)
              (summary s) (sent s + 1) (finished s) (panicked s) (taken s))
  | LPerform k response now, _ =>
      match workers s !! k with
      | Some (Performing work) =>
          Some match perform Marshal NewRequest (λ _ _, response) now (cfg s) work with
               | Some r => with_workers s (<[k := Reporting r]> (workers s))
               | None => panic s
               end
      | _ => None
      end
  | LReport k, _ =>
      match workers s !! k with
      | Some (Reporting r) =>
          if Z.of_nat (length (results s)) <? Concurrency (cfg s) then
            Some (mkRun (cfg s) (offsets s) (started s) (prod s) (<[k := Receiving]> (workers s)) (results s ++ [r])
                    (results_closed s) (summary s) (sent s) (finished s) (panicked s) (taken s))
          else None
      | _ => None
      end
  | LExit k, JobsClosed =>
      match workers s !! k with
      | Some Receiving => Some (with_workers s (<[k := Exited]> (workers s)))
      | _ => None
      end
  | LClose, _ =>
      if forallb (λ w, match w with Exited => true | _ => false end) (workers s) && negb (results_closed s) then
        Some (mkRun (cfg s) (offsets s) (started s) (prod s) (workers s) (results s) true (summary s) (sent s)
                (finished s) (panicked s) (taken s))
      else None
  | LCollect, _ =>
      match results s with
      | r :: rest =>
          Some (mkRun (cfg s) (offsets s) (started s) (prod s) (workers s) rest (results_closed s)
                  (collect_result r (summary s)) (sent s) (finished s) (panicked s) (taken s))
      | [] => None
      end
  | LFinish, _ =>
      match results s with
      | [] =>
          if results_closed s && negb (finished s) then
            let sm := summary s in
            Some (mkRun (cfg s) (offsets s) (started s) (prod s) (workers s) [] true
                    (mkSummary (sent s) (Completed sm) (Successful sm) (Errors sm) (StatusCounts sm) (recorded sm))
                    (sent s) true (panicked s) (taken s))
          else None
      | _ => None
      end
  | _, _ => None
  end.

Definition step (l : label) (s : run) : option run := if panicked s then None else goroutine_step l s.

Fixpoint steps (ls : list label) (s : run) : option run :=
  match ls with
  | [] => Some s
  | l :: ls => s' ← step l s; steps ls s'
  end.
End step.
