(* ===== verification/LoadArtifacts.v ===== *)
(** * The load tester: the report and the artifacts

    [load_tester/main.go]: the end of [Run], [WriteArtifacts], [CDFSVG] and
    [main].  The histogram of hdrhistogram-go, the file system and JSON are
    parameters; the calls to the file system are recorded in order. *)

From Stdlib Require Import ZArith Lia SpecFloat Ascii.
From stdpp Require Import prelude gmap strings list.
From S2P Require Import Prelude GoFloat GoString GoContext StreamProcessor Exposition LoadTester LoadRun.

#[local] Open Scope Z_scope.
#[local] Open Scope go_scope.

(** What a histogram answers; [RecordValue] drops values out of range. *)
Class Histogram (H : Type) := {
  hist_New : Z → Z → Z → H;
  RecordValue : Z → H → H;
  ValueAtQuantile : float64 → H → Z;
  Max : H → Z;
}.

(** 99.9, as the nearest float64. *)
Definition f_99_9 : float64 := S754_finite false 7029837543348634 (-46).
Definition pct (n : Z) : float64 := float_of_Z n 0.

(** ** The end of [Run] *)

Record report := mkReport {
  counts : Summary;
  ElapsedSeconds : float64;
  Throughput : float64;
  Percentiles : gmap string Z;
}.

Section report.
Context {H : Type} `{Histogram H}.

(** The histogram of the run: one microsecond to an hour, three digits. *)
Definition filled (values : list Z) : H :=
  foldl (λ h v, RecordValue v h) (hist_New 1 (3600 * Second / Microsecond) 3) values.

Definition report_of (s : Summary) (started finished : Z) (h : H) : report :=
  let elapsed := Seconds (Since started finished) in
  mkReport s elapsed
    (if fgt elapsed fzero then fdiv (float_of_Z (Completed s) 0) elapsed else fzero)
    (list_to_map ((λ '(name, q), (name, ValueAtQuantile q h)) <$>
       [("p50", pct 50); ("p90", pct 90); ("p99", pct 99); ("p99_9", f_99_9); ("max", pct 100)])).

(** ** The picture *)

(** [%.1f] of [fmt] and [strconv.FormatFloat(x, 'f', 1, 64)]. *)
Context (format_f1 : float64 → string).

Definition cdf_point (h : H) (max i : Z) : float64 * float64 :=
  (fadd (pct 40) (fmul (fdiv (float_of_Z (ValueAtQuantile (pct i) h) 0) (float_of_Z max 0)) (pct 540)),
   fsub (pct 260) (fmul (fdiv (pct i) (pct 100)) (pct 220))).
Definition cdf_points (h : H) : list (float64 * float64) :=
  let max := if Max h <? 1 then 1 else Max h in
  cdf_point h max <$> seqZ 0 101.

Definition attributes (l : list (string * string)) : string :=
  Join " " ((λ kv : string * string, kv.1 +:+ "=" +:+ quoted kv.2) <$> l).
Definition text_at (x y size text : string) : string :=
  "<text " ++ attributes [("x", x); ("y", y); ("font-family", "sans-serif"); ("font-size", size)] ++ ">" ++ text ++ "</text>".

Definition CDFSVG (h : H) : string :=
  let points := Join " " ((λ '(x, y), format_f1 x +:+ "," +:+ format_f1 y) <$> cdf_points h) in
  "<svg " ++ attributes [("xmlns", "http://www.w3.org/2000/svg"); ("width", "600"); ("height", "300"); ("viewBox", "0 0 600 300")] ++ ">" ++
  "<rect " ++ attributes [("width", "100%"); ("height", "100%"); ("fill", "white")] ++ "/>" ++
  text_at "40" "24" "16" "Observed end-to-end latency CDF" ++
  "<path " ++ attributes [("d", "M40 40V260H580"); ("fill", "none"); ("stroke", "black")] ++ "/>" ++
  "<polyline " ++ attributes [("points", points); ("fill", "none"); ("stroke", "#1565c0"); ("stroke-width", "2")] ++ "/>" ++
  text_at "40" "282" "11" ("latency (μs), max " ++ Itoa (Max h)) ++
  text_at "4" "50" "11" "100%" ++ text_at "8" "260" "11" "0%" ++ "</svg>".

(** ** The files *)

Inductive file_call := MkdirAll (dir : string) | WriteFile (path content : string) | Create (path : string) | Flush (path content : string).

(** [filepath.Join] of a directory and a plain name, the JSON of the manifest,
    and what the file system answers to a call. *)
Context (path_Join : string → string → string) (manifest : Config → report → H → result string).
Context (fs : file_call → option error).

Definition csv_lines (h : H) : string :=
  String.concat "" ((λ l, l +:+ newline) <$>
    ("quantile,latency_us" ::
     ((λ p, format_f1 p +:+ "," +:+ Itoa (ValueAtQuantile p h)) <$>
        [pct 0; pct 25; pct 50; pct 75; pct 90; pct 95; pct 99; f_99_9; pct 100]))).

(** The calls in order, up to the first that fails. *)
Fixpoint perform_calls (cs : list file_call) : list file_call * option error :=
  match cs with
  | [] => ([], None)
  | c :: cs =>
      match fs c with
      | Some err => ([c], Some err)
      | None => let '(done, err) := perform_calls cs in (c :: done, err)
      end
  end.

Definition WriteArtifacts (dir : string) (c : Config) (s : report) (h : H) : list file_call * option error :=
  match fs (MkdirAll dir) with
  | Some err => ([MkdirAll dir], Some err)
  | None =>
      match manifest c s h with
      | Err err => ([MkdirAll dir], Some err)
      | Ok b =>
          let '(done, err) := perform_calls
            [WriteFile (path_Join dir "manifest.json") b; Create (path_Join dir "distribution.csv");
             Flush (path_Join dir "distribution.csv") (csv_lines h);
             WriteFile (path_Join dir "latency-cdf.svg") (CDFSVG h)] in
          (MkdirAll dir :: done, err)
      end
  end.

(** ** The command *)

(** The flags' defaults; [entities] is parsed after the others. *)
Definition default_entities : string := "demo-account".
Definition default_config : Config :=
  mkConfig "http://127.0.0.1:8080/v1/score" "" 0 1000 100 (pct 1000) (5 * Second) 1 [] [] "entity" "load_tester/results".

Definition with_entities (c : Config) (names : list string) (weights : list Z) : Config :=
  mkConfig (URL c) (Token c) (cfg_Duration c) (Requests c) (Concurrency c) (Rate c) (Timeout c) (Seed c)
    names weights (PayloadMode c) (OutputDir c).

(** The exit status of [main] after the flags were parsed into [c] and
    [entities]; [Run] is the whole run. *)
Definition load_main (Run : Config → result (report * H)) (c : Config) (entities : string) : Z * option error :=
  match parseEntities entities with
  | Err err => (2, Some err)
  | Ok (names, weights) =>
      let c := with_entities c names weights in
      match Run c with
      | Err err => (2, Some err)
      | Ok (s, h) =>
          match (WriteArtifacts (OutputDir c) c s h).2 with
          | Some err => (2, Some err)
          | None => (0, None)
          end
      end
  end.
End report.

(** Artifacts are all or an error: on success every file was written, in
    order; otherwise the calls stop at the one that failed. *)
Lemma artifacts_complete {H} `{Histogram H} format_f1 path_Join manifest fs dir c s (h : H) :
  match WriteArtifacts format_f1 path_Join manifest fs dir c s h with
  | (calls, None) => Forall (λ call, fs call = None) calls ∧ length calls = 5%nat ∧
                     last calls = Some (WriteFile (path_Join dir "latency-cdf.svg") (CDFSVG format_f1 h))
  | (calls, Some err) => manifest c s h = Err err ∨ ∃ call, last calls = Some call ∧ fs call = Some err
  end.
Proof.
  unfold WriteArtifacts, perform_calls.
  repeat (case_match; simplify_eq; simpl; eauto 10);
    split_and!; repeat (apply Forall_cons_2; [assumption|]); try apply Forall_nil_2; reflexivity.
Qed.
