(* ===== verification/LoadTesterTheorems.v ===== *)
(** * The load tester: claims

    The weighted round-robin against its expansion, the uniqueness of the
    transaction ids, and parsing of the entity list. *)

From Stdlib Require Import ZArith Lia SpecFloat Ascii.
From stdpp Require Import prelude gmap strings list.
From S2P Require Import Prelude GoFloat GoString GoContext GoEnv LoadTester LoadRun.

#[local] Open Scope Z_scope.
#[local] Open Scope go_scope.

(** The generator agrees with the published values of [rand.NewPCG(1, 2)]. *)
Example pcg_reference :
  (Uint64 (mkPCG 1 2)).1 = 0xc4f5a58656eef510 ∧ (Uint64 (Uint64 (mkPCG 1 2)).2).1 = 0x9dcec3ad077dec6c.
Proof. vm_compute. done. Qed.

(** ** Weighted round-robin *)

(** One turn of the round-robin: every entity as often as its weight says. *)
Definition expanded (entities : list string) (weights : list Z) : list string :=
  concat (zip_with (λ e w, replicate (Z.to_nat w) e) entities weights).

Definition total_weight (weights : list Z) : Z := foldr Z.add 0 weights.

Lemma total_weight_nonneg ws : Forall (λ w, 1 <= w) ws → 0 <= total_weight ws.
Proof. induction 1; simpl; lia. Qed.

Lemma foldl_wrap_total ws acc :
  Forall (λ w, 1 <= w) ws → 0 <= acc → acc + total_weight ws < 2 ^ 63 →
  foldl (λ total weight, wrap_int64 (total + weight)) acc ws = acc + total_weight ws.
Proof.
  intros Hw. revert acc. induction Hw as [|w ws Hw Hws IH]; intros acc Ha Hlt; simpl in *; [lia|].
  pose proof (total_weight_nonneg ws Hws). rewrite wrap_int64_id by lia. rewrite IH by lia. lia.
Qed.

Lemma expanded_length es ws :
  length es = length ws → Forall (λ w, 1 <= w) ws → Z.of_nat (length (expanded es ws)) = total_weight ws.
Proof.
  intros Hl Hw. revert es Hl. induction Hw as [|w ws Hw _ IH]; intros [|e es] Hl; simpl in *; try done; try lia.
  unfold expanded in *. simpl. rewrite length_app, length_replicate, Nat2Z.inj_add, IH by lia. lia.
Qed.

Lemma pick_expanded es ws i pos :
  length (drop i es) = length ws → Forall (λ w, 1 <= w) ws → 0 <= pos < total_weight ws → total_weight ws < 2 ^ 63 →
  pick es ws i pos = expanded (drop i es) ws !! Z.to_nat pos.
Proof.
  intros Hl Hw. revert i pos Hl. induction Hw as [|w ws Hw Hws IH]; intros i pos Hl Hp Hlt; simpl in *; [lia|].
  pose proof (total_weight_nonneg ws Hws).
  destruct (drop i es) as [|e rest] eqn:Hd; [done|].
  assert (es !! i = Some e) as He by (rewrite <- (Nat.add_0_r i), <- lookup_drop, Hd; done).
  assert (drop (S i) es = rest) as Hr by (rewrite <- Nat.add_1_r, <- drop_drop, Hd; done).
  unfold expanded. simpl. fold (expanded rest ws). destruct (Z.ltb_spec pos w).
  - rewrite lookup_app_l by (rewrite length_replicate; lia). rewrite lookup_replicate_2 by lia. done.
  - rewrite wrap_int64_id by lia. rewrite IH by (rewrite ?Hr; simpl in *; lia). rewrite Hr.
    rewrite lookup_app_r by (rewrite length_replicate; lia). f_equal. rewrite length_replicate. lia.
Qed.

(** The weights a validated configuration has. *)
Record weighted (c : Config) : Prop := {
  weighted_some : EntityWeights c ≠ [];
  weighted_length : length (Entities c) = length (EntityWeights c);
  weighted_pos : Forall (λ w, 1 <= w) (EntityWeights c);
}.

Lemma validated_weights c : Validate c = None → EntityWeights c ≠ [] → weighted c.
Proof.
  unfold Validate. intros Hv Hne.
  do 5 (case_if; [done|]). case_if; [done|]. case_if; [done|]. split; [done| |].
  - rewrite bool_decide_eq_true_2 in Hif4 by done. simpl in Hif4. apply negb_false_iff, Nat.eqb_eq in Hif4. done.
  - clear -Hif5. induction (EntityWeights c) as [|w ws IH]; [done|]. simpl in Hif5. bool_to_prop. constructor; auto.
Qed.

Lemma entityForIndex_expanded c i :
  weighted c → total_weight (EntityWeights c) < 2 ^ 63 → 0 <= i →
  entityForIndex c i =
    expanded (Entities c) (EntityWeights c) !! Z.to_nat (i mod total_weight (EntityWeights c)).
Proof.
  intros [Hne Hl Hw] Hlt Hi. unfold entityForIndex. rewrite bool_decide_eq_false_2 by done.
  rewrite foldl_wrap_total by (done || lia). rewrite Z.add_0_l.
  assert (0 < total_weight (EntityWeights c)) as Hpos.
  { destruct Hw as [|w ws H1 H2]; [done|]. simpl. pose proof (total_weight_nonneg ws H2). lia. }
  rewrite (proj2 (Z.eqb_neq _ _)) by lia. rewrite Z.rem_mod_nonneg by lia.
  pose proof (Z.mod_pos_bound i _ Hpos). by rewrite pick_expanded; rewrite ?drop_0.
Qed.

(** A window of one turn, from any index on, is a rotation. *)
Lemma window_rotation {A} (l : list A) b :
  l ≠ [] → 0 <= b →
  let T := Z.of_nat (length l) in
  let r := Z.to_nat (b mod T) in
  ((λ i, l !! Z.to_nat (i mod T)) <$> seqZ b T) = Some <$> (drop r l ++ take r l).
Proof.
  intros Hne Hb T r. assert (0 < T) as HT by (destruct l; [done|simpl in *; lia]).
  pose proof (Z.mod_pos_bound b T HT) as Hr. apply list_eq. intros j. rewrite !list_lookup_fmap.
  destruct (decide (j < length l)%nat) as [Hj|Hj].
  - rewrite lookup_seqZ_lt by lia. cbn [fmap option_fmap option_map].
    assert (is_Some ((drop r l ++ take r l) !! j)) as [x Hx].
    { apply lookup_lt_is_Some. rewrite length_app, length_drop, length_take. lia. }
    rewrite Hx. simpl. f_equal. rewrite <- Hx.
    destruct (decide (Z.to_nat (b mod T) + j < length l)%nat).
    + rewrite lookup_app_l by (rewrite length_drop; lia). rewrite lookup_drop. f_equal. subst r.
      rewrite (Z.mod_eq (b + Z.of_nat j)) by lia.
      assert ((b + Z.of_nat j) / T = b / T) as ->; [|pose proof (Z.mod_eq b T); lia].
      symmetry. apply (Z.div_unique _ _ _ (b mod T + Z.of_nat j)); [lia|]. pose proof (Z.div_mod b T). lia.
    + rewrite lookup_app_r by (rewrite length_drop; lia). rewrite length_drop.
      rewrite lookup_take_lt by lia. f_equal. subst r.
      assert ((b + Z.of_nat j) mod T = b mod T + Z.of_nat j - T) as ->; [|lia].
      symmetry. apply (Z.mod_unique _ _ (b / T + 1)); [lia|]. pose proof (Z.div_mod b T). lia.
  - rewrite !lookup_ge_None_2; [done| |]; rewrite ?length_app, ?length_drop, ?length_take, ?length_seqZ; lia.
Qed.

(** C30: the selector is an exact weighted round-robin.  For a validated
    configuration with weights whose sum fits an int, the entity of a request
    is the one at its index, modulo the total weight, of the list that repeats
    every entity as often as its weight; so among any as many consecutive
    requests as the total weight, every entity gets exactly its weight.  When
    the sum wraps around to zero, which validation accepts, choosing an entity
    panics. *)
Theorem weighted_round_robin c :
  Validate c = None → EntityWeights c ≠ [] →
  let T := total_weight (EntityWeights c) in
  let turn := expanded (Entities c) (EntityWeights c) in
  (T < 2 ^ 63 →
   (∀ i, 0 <= i → entityForIndex c i = turn !! Z.to_nat (i mod T)) ∧
   (∀ b, 0 <= b → (entityForIndex c <$> seqZ b T) ≡ₚ (Some <$> turn))) ∧
  (foldl (λ total weight, wrap_int64 (total + weight)) 0 (EntityWeights c) = 0 → ∀ i, entityForIndex c i = None).
Proof.
  intros Hv Hne T turn. pose proof (validated_weights c Hv Hne) as Hwt. split.
  - intros HT. pose proof (λ i, entityForIndex_expanded c i Hwt HT) as Hi. split; [done|]. intros b Hb.
    assert (Z.of_nat (length turn) = T) as Hlen by (apply expanded_length; apply Hwt).
    assert ((entityForIndex c <$> seqZ b T) = ((λ i, turn !! Z.to_nat (i mod T)) <$> seqZ b T)) as ->.
    { apply list_fmap_ext. intros j i Hj. apply lookup_seqZ in Hj. apply Hi. lia. }
    destruct (decide (turn = [])) as [Ht|Ht].
    { rewrite Ht in *. simpl in Hlen. rewrite <- Hlen. done. }
    rewrite <- Hlen, window_rotation by done. apply fmap_Permutation. rewrite Permutation_app_comm. by rewrite take_drop.
  - intros H0 i. unfold entityForIndex. rewrite bool_decide_eq_false_2 by done. by rewrite H0.
Qed.

Definition demo_config (weights : list Z) : Config :=
  mkConfig "http://gateway/v1/score" "" 0 10 2 (float_of_Z 100 0) Second 7
    (take (length weights) ["vip"; "regular"; "rare"; "other"]) weights "transaction" "out".

Lemma weighted_round_robin_witness :
  entityForIndex (demo_config [3; 1]) 6 = Some "vip" ∧ entityForIndex (demo_config [3; 1]) 7 = Some "regular" ∧
  entityForIndex (demo_config (replicate 4 (2 ^ 62))) 5 = None.
Proof.
  destruct (weighted_round_robin (demo_config [3; 1])) as [H _]; [vm_compute; reflexivity|discriminate|].
  destruct H as [H _]; [vm_compute; reflexivity|].
  destruct (weighted_round_robin (demo_config (replicate 4 (2 ^ 62)))) as [_ H0]; [vm_compute; reflexivity|discriminate|].
  split_and!; [rewrite H by lia; vm_compute; reflexivity|rewrite H by lia; vm_compute; reflexivity|].
  apply H0. vm_compute. reflexivity.
Defined.

(** ** Transaction ids *)

Definition hex_value (ds : list Z) : Z := foldl (λ v d, v * 16 + d) 0 ds.

Lemma hex_digits_value fuel n : 0 <= n < 16 ^ Z.of_nat fuel → hex_value (hex_digits fuel n) = n.
Proof.
  revert n. induction fuel as [|fuel IH]; intros n Hn; [unfold hex_value; simpl in *; lia|]. cbn [hex_digits].
  destruct (Z.eqb_spec n 0) as [->|]; [done|]. unfold hex_value in *. rewrite foldl_app. simpl.
  rewrite IH; [pose proof (Z.div_mod n 16); lia|].
  rewrite Nat2Z.inj_succ, Z.pow_succ_r in Hn by lia. split; [apply Z.div_pos; lia|apply Z.div_lt_upper_bound; lia].
Qed.

Lemma hex_digits_range fuel n : 0 <= n → Forall (λ d, 0 <= d < 16) (hex_digits fuel n).
Proof.
  revert n. induction fuel as [|fuel IH]; intros n Hn; cbn [hex_digits]; [done|]. case_if; [done|].
  apply Forall_app. split; [apply IH, Z.div_pos; lia|]. constructor; [apply Z.mod_pos_bound; lia|done].
Qed.

Lemma hex_digits_length fuel n k : 0 <= n < 16 ^ Z.of_nat k → (length (hex_digits fuel n) <= k)%nat.
Proof.
  revert n k. induction fuel as [|fuel IH]; intros n k Hn; cbn [hex_digits]; [simpl; lia|].
  destruct (Z.eqb_spec n 0); [simpl; lia|]. destruct k as [|k]; [simpl in Hn; lia|].
  rewrite length_app. simpl. specialize (IH (n / 16) k).
  rewrite Nat2Z.inj_succ, Z.pow_succ_r in Hn by lia.
  assert (length (hex_digits fuel (n / 16)) <= k)%nat; [|lia].
  apply IH. split; [apply Z.div_pos; lia|apply Z.div_lt_upper_bound; lia].
Qed.

Lemma pad_value w ds : hex_value (pad w ds) = hex_value ds.
Proof.
  unfold hex_value, pad. rewrite foldl_app. f_equal. generalize (w - length ds)%nat. intros k.
  induction k as [|k IH]; [done|]. simpl. exact IH.
Qed.

Lemma hex_digit_bytes l : Forall (λ d, 0 <= d < 16) l → Forall (λ b, 0 <= b < 256) (hex_digit <$> l).
Proof.
  intros Hl. apply Forall_fmap. eapply Forall_impl; [exact Hl|]. intros d Hx. unfold compose, hex_digit. simpl in Hx.
  case_if; bool_to_prop; lia.
Qed.

Lemma hex_string_inj ds ds' :
  Forall (λ d, 0 <= d < 16) ds → Forall (λ d, 0 <= d < 16) ds' → hex_string ds = hex_string ds' → ds = ds'.
Proof.
  intros Hd Hd' E. apply (f_equal bytes) in E. unfold hex_string in E.
  rewrite !bytes_of_bytes_range in E by by apply hex_digit_bytes. revert ds' Hd' E.
  induction Hd as [|d ds Hdr _ IH]; intros [|d' ds'] Hd' E; try done.
  inversion Hd' as [|? ? Hr1 Hr2]; subst. rewrite !fmap_cons in E. injection E as E1 E2. f_equal; [|by apply IH].
  unfold hex_digit in E1. repeat case_if; bool_to_prop; lia.
Qed.

Definition uint64 (n : Z) : Prop := 0 <= n < 2 ^ 64.

Lemma pad_range w n : uint64 n → Forall (λ d, 0 <= d < 16) (pad w (hex_digits 16 n)).
Proof.
  intros Hn. unfold pad. apply Forall_app. split; [apply Forall_replicate; lia|apply hex_digits_range, Hn].
Qed.

Lemma Sprintf_x_inj w n n' : uint64 n → uint64 n' → Sprintf_x w n = Sprintf_x w n' → n = n'.
Proof.
  intros Hn Hn' E. apply hex_string_inj in E; [|by apply pad_range..].
  apply (f_equal hex_value) in E. rewrite !pad_value in E. by rewrite !hex_digits_value in E.
Qed.

Lemma Sprintf_16_length n : uint64 n → length (bytes (Sprintf_x 16 n)) = 16%nat.
Proof.
  intros Hn. unfold Sprintf_x, hex_string. rewrite bytes_of_bytes_range.
  - rewrite length_fmap. unfold pad. rewrite length_app, length_replicate.
    pose proof (hex_digits_length 16 n 16 Hn). lia.
  - by apply hex_digit_bytes, pad_range.
Qed.

Lemma bytes_app s t : bytes (s +:+ t) = bytes s ++ bytes t.
Proof. unfold bytes. rewrite <- fmap_app. f_equal. induction s as [|c s IH]; [done|]. simpl. by f_equal. Qed.

Lemma bytes_inj s t : bytes s = bytes t → s = t.
Proof.
  unfold bytes. revert t. induction s as [|c s IH]; intros [|c' t] E; try done. simpl in E.
  injection E as E1 E2. f_equal; [|by apply IH]. unfold byte_val in E1.
  apply N2Z.inj in E1. by rewrite <- (ascii_N_embedding c), <- (ascii_N_embedding c'), E1.
Qed.

(** Transaction ids identify requests.  Two requests in transaction
    mode, of the same or of different runs, that were built from 64-bit seeds
    and indices carry the same transaction id only if seed and index agree;
    every amount is between 1 and 1.99 units and every request names an
    occurrence time after the epoch. *)
Theorem transaction_ids_unique c c' j j' id id' acc acc' amt amt' cur cur' occ occ' cat cat' :
  uint64 (Seed c) → uint64 (Seed c') → 0 <= index j < 2 ^ 62 → 0 <= index j' < 2 ^ 62 →
  requestPayload c j = Some (TransactionPayload id acc amt cur occ cat) →
  requestPayload c' j' = Some (TransactionPayload id' acc' amt' cur' occ' cat') →
  (id = id' → Seed c = Seed c' ∧ index j = index j') ∧ 1000000 <= amt <= 1990000 ∧ 0 < occ.
Proof.
  intros Hs Hs' Hj Hj' Hp Hp'. unfold requestPayload in Hp, Hp'.
  destruct (entityForIndex c (index j)); [|done]. destruct (entityForIndex c' (index j')); [|done].
  cbn [mbind option_bind] in Hp, Hp'.
  destruct (bool_decide (PayloadMode c = "transaction")); [|done].
  destruct (bool_decide (PayloadMode c' = "transaction")); [|done].
  destruct (["grocery"; "fuel"; "travel"; "retail"] !! Z.to_nat (Z.rem (index j) 4)) as [k|]; [|done].
  destruct (["grocery"; "fuel"; "travel"; "retail"] !! Z.to_nat (Z.rem (index j') 4)) as [k'|]; [|done].
  cbn [mbind option_bind] in Hp, Hp'. injection Hp as <- <- <- <- <- <-. injection Hp' as <- _ _ _ _ _.
  assert (uint64 (index j) ∧ uint64 (index j')) as [Hi Hi'] by (unfold uint64; lia). split_and!.
  - intros E. apply (f_equal bytes) in E. rewrite !bytes_app in E.
    apply app_inj_1 in E as [_ E]; [|done]. apply app_inj_1 in E as [E1 E]; [|by rewrite !Sprintf_16_length].
    apply app_inj_1 in E as [_ E]; [|done].
    split; [by eapply Sprintf_x_inj, bytes_inj|by eapply Sprintf_x_inj, bytes_inj].
  - pose proof (Z.rem_bound_pos (index j) 100). lia.
  - pose proof (Z.rem_bound_pos (index j) 100). lia.
  - case_if; bool_to_prop; [|lia]. rewrite wrap_int64_id; lia.
Qed.

Lemma transaction_ids_unique_witness :
  match requestPayload (demo_config [3; 1]) (mkJob 4 0), requestPayload (demo_config [3; 1]) (mkJob 5 0) with
  | Some (TransactionPayload id _ _ _ _ _), Some (TransactionPayload id' _ _ _ _ _) => id ≠ id'
  | _, _ => False
  end.
Proof.
  destruct (requestPayload (demo_config [3; 1]) (mkJob 4 0)) as [[|id acc amt cur occ cat]|] eqn:E; try (vm_compute in E; discriminate).
  destruct (requestPayload (demo_config [3; 1]) (mkJob 5 0)) as [[|id' acc' amt' cur' occ' cat']|] eqn:E'; try (vm_compute in E'; discriminate).
  intros Hid. assert (uint64 (Seed (demo_config [3; 1]))) as Hs by (unfold uint64; simpl; lia).
  destruct (transaction_ids_unique (demo_config [3; 1]) (demo_config [3; 1]) (mkJob 4 0) (mkJob 5 0)
    _ _ _ _ _ _ _ _ _ _ _ _ Hs Hs ltac:(simpl; lia) ltac:(simpl; lia) E E') as [H _].
  destruct (H Hid) as [_ Hi]. discriminate Hi.
Defined.

(** ** The entity list *)

Lemma parse_entity_ok part e w :
  parse_entity part = Ok (e, w) → e ≠ "" ∧ 1 <= w <= MaxInt64.
Proof.
  unfold parse_entity. destruct (Split ":" (TrimSpace part)) as [|name [|v [|? ?]]]; try done.
  - case_if; [done|]. bool_to_prop. intros [= <- <-]. split; [done|]. by vm_compute.
  - case_if; [done|]. bool_to_prop. destruct (Atoi v) as [z|] eqn:Hz; [|done]. case_if; [done|]. bool_to_prop.
    intros [= <- <-]. split; [done|]. split; [lia|]. unfold Atoi in Hz. repeat case_match; simplify_eq; bool_to_prop; lia.
Qed.

Lemma parse_items_ok parts names weights :
  parse_items parts = Ok (names, weights) →
  length names = length parts ∧ length weights = length parts ∧
  Forall (λ e, e ≠ "") names ∧ Forall (λ w, 1 <= w <= MaxInt64) weights.
Proof.
  revert names weights. induction parts as [|part parts IH]; intros names weights; simpl; [by intros [= <- <-]|].
  destruct (parse_entity part) as [[e w]|] eqn:He; [|done]. simpl.
  destruct (parse_items parts) as [[ns ws]|]; [|done]. simpl. intros [= <- <-].
  apply parse_entity_ok in He as [He Hr]. destruct (IH ns ws eq_refl) as (Hl & Hlw & Hn & Hw). simpl in *.
  split_and!; [lia|lia|by constructor|by constructor].
Qed.

Definition entity_item (ew : string * Z) : string := ew.1 +:+ ":" +:+ Itoa ew.2.

(** A name that survives as part of an item. *)
Record plain_item (ew : string * Z) : Prop := {
  plain_name : ew.1 ≠ "";
  plain_comma : has_char "," ew.1 = false;
  plain_colon : has_char ":" ew.1 = false;
  plain_trimmed : TrimSpace (entity_item ew) = entity_item ew;
  plain_weight : 1 <= ew.2 <= MaxInt64;
}.

Lemma parse_entity_item ew : plain_item ew → parse_entity (entity_item ew) = Ok ew.
Proof.
  destruct ew as [e w]. intros [Hn Hc Hk Ht Hw]. simpl in *. unfold parse_entity. rewrite Ht.
  change (entity_item (e, w)) with (e +:+ String ":" (Itoa w)). rewrite Split_app by done. rewrite Split_no_sep by (by apply Itoa_no_char).
  rewrite bool_decide_eq_false_2 by done. rewrite Atoi_Itoa by lia. rewrite (proj2 (Z.ltb_ge _ _)) by lia. done.
Qed.

(** C31: the entity list is read back as written: a list of items with plain
    names and weights of int size, joined with commas, parses to those names
    and weights; and whatever text parses at all gives as many weights as
    names, at least one, with non-empty names and positive weights, as
    [Validate] asks for. *)
Theorem parse_entities_roundtrip items :
  items ≠ [] → Forall plain_item items →
  parseEntities (Join "," (entity_item <$> items)) = Ok (items.*1, items.*2) ∧
  (∀ s names weights, parseEntities s = Ok (names, weights) →
     names ≠ [] ∧ length weights = length names ∧
     Forall (λ e, e ≠ "") names ∧ Forall (λ w, 1 <= w <= MaxInt64) weights).
Proof.
  intros Hne Hp. split.
  - unfold parseEntities. rewrite Split_Join.
    + clear Hne. induction Hp as [|ew items Hew _ IH]; [done|]. rewrite fmap_cons. cbn [parse_items].
      rewrite parse_entity_item by done. simpl. rewrite IH. by destruct ew.
    + by destruct items.
    + apply Forall_fmap. eapply Forall_impl; [exact Hp|]. intros [e w] [_ Hc _ _ _]. unfold compose. simpl in *.
      change (entity_item (e, w)) with (e +:+ String ":" (Itoa w)). rewrite has_char_app, Hc. simpl. by rewrite Itoa_no_char by done.
  - intros s names weights Hs. apply parse_items_ok in Hs as (Hl & Hlw & Hn & Hw). split_and!; try done; [|lia].
    intros ->. assert (length (Split "," s) ≠ 0%nat); [|done].
    clear. destruct s as [|c s]; [done|]. simpl. case_bool_decide; [done|]. by destruct (Split "," s).
Qed.

Lemma parse_entities_roundtrip_witness :
  parseEntities "vip:8,regular:2" = Ok (["vip"; "regular"], [8; 2]).
Proof.
  change "vip:8,regular:2" with (Join "," (entity_item <$> [("vip", 8); ("regular", 2)])).
  apply (parse_entities_roundtrip [("vip", 8); ("regular", 2)]); [discriminate|].
  apply Forall_cons; split; [|apply Forall_singleton]; split; (discriminate || reflexivity || by vm_compute).
Defined.
