(* ===== verification/LoadRunTheorems.v ===== *)
(** * A load test run: accounting and termination

    The invariant of the transition system of [LoadRun.v], the measure that
    every step decreases, and the claims that follow for every interleaving
    of the producer, the workers and the collector. *)

From Stdlib Require Import ZArith Lia SpecFloat.
From stdpp Require Import prelude gmap strings list.
From S2P Require Import Prelude GoFloat GoString GoContext GoEnv LoadTester LoadRun LoadTesterTheorems.

#[local] Open Scope Z_scope.

(** ** Counting *)

Definition busy (w : worker) : bool := match w with Performing _ | Reporting _ => true | _ => false end.
Definition in_flight (ws : list worker) : nat := length (List.filter busy ws).

(** Weights for the measure: the steps a worker in this state still takes. *)
Definition effort (w : worker) : nat :=
  match w with Receiving => 1 | Performing _ => 4 | Reporting _ => 3 | Exited => 0 end.
Definition efforts (ws : list worker) : nat := foldr (λ w n, effort w + n)%nat 0%nat ws.

Lemma filter_insert_length ws k w w' :
  ws !! k = Some w →
  (in_flight (<[k := w']> ws) + (if busy w then 1 else 0) = in_flight ws + (if busy w' then 1 else 0))%nat.
Proof.
  unfold in_flight. revert k. induction ws as [|x ws IH]; intros [|k] Hk; simpl in *; simplify_eq.
  - destruct (busy w), (busy w'); simpl; lia.
  - specialize (IH k Hk). destruct (busy x); simpl; lia.
Qed.

Lemma efforts_insert ws k w w' :
  ws !! k = Some w → (efforts (<[k := w']> ws) + effort w = efforts ws + effort w')%nat.
Proof.
  revert k. induction ws as [|x ws IH]; intros [|k] Hk; simpl in *; simplify_eq; [lia|].
  specialize (IH k Hk). lia.
Qed.

Lemma in_flight_le ws : (in_flight ws <= length ws)%nat.
Proof. apply List.filter_length_le. Qed.

(** The sum of the status counts. *)
Definition sum_counts (m : gmap string Z) : Z := map_fold (λ _ v acc, v + acc) 0 m.

Lemma sum_counts_delete m k v : m !! k = Some v → sum_counts m = v + sum_counts (delete k m).
Proof. intros Hk. unfold sum_counts. apply (map_fold_delete_L _ _ k v); [lia|done]. Qed.

Lemma sum_counts_increment k m : sum_counts (increment k m) = sum_counts m + 1.
Proof.
  unfold increment. rewrite (sum_counts_delete (<[k:=_]> m) k (default 0 (m !! k) + 1)) by apply lookup_insert_eq.
  rewrite delete_insert_eq. destruct (m !! k) as [v|] eqn:Hk; simpl.
  - rewrite (sum_counts_delete m k v Hk). lia.
  - rewrite delete_id by done. lia.
Qed.

(** ** The invariant *)

(** Where the producer is, as the number of jobs handed out. *)
Definition handed (p : producer) (n : nat) : Prop :=
  match p with
  | Waiting i | Sending i => n = i
  | Counting i => n = S i
  | JobsClosed => True
  end.

Record tally (s : Summary) : Prop := {
  tally_split : Successful s + Errors s = Completed s;
  tally_counts : sum_counts (StatusCounts s) = Completed s;
  tally_recorded : Z.of_nat (length (recorded s)) = Completed s;
  tally_positive : Forall (λ v, 1 <= v) (recorded s);
}.

(** [calm] says that the context has not been cancelled. *)
Record inv (calm : bool) (s : run) : Prop := {
  inv_conc : 1 <= Concurrency (cfg s) ∧ Z.of_nat (length (workers s)) = Concurrency (cfg s);
  inv_taken : taken s = seqZ 0 (Z.of_nat (length (taken s)));
  inv_handed : handed (prod s) (length (taken s));
  inv_range : (length (taken s) <= length (offsets s))%nat ∧
              match prod s with Sending i | Counting i => (i < length (offsets s))%nat | _ => True end;
  inv_sent : sent s = Z.of_nat (length (taken s)) - (match prod s with Counting _ => 1 | _ => 0 end);
  inv_flow : Z.of_nat (length (taken s)) =
             Completed (summary s) + Z.of_nat (length (results s)) + Z.of_nat (in_flight (workers s));
  inv_buffer : Z.of_nat (length (results s)) <= Concurrency (cfg s);
  inv_exited : Exited ∈ workers s → prod s = JobsClosed;
  inv_closed : results_closed s = true → Forall (λ w, w = Exited) (workers s);
  inv_finished : finished s = true →
                 results_closed s = true ∧ results s = [] ∧ Scheduled (summary s) = sent s;
  inv_tally : tally (summary s);
  inv_planned : ∀ i : nat, (i < length (taken s))%nat ∨ prod s = Sending i → no_more s i = false;
  inv_jobs : ∀ k j, workers s !! k = Some (Performing j) → 0 <= index j;
  inv_end : calm = true → prod s = JobsClosed → no_more s (length (taken s)) = true;
}.

Lemma collect_tally r s : tally s → tally (collect_result r s).
Proof.
  intros [H1 H2 H3 H4]. unfold collect_result.
  assert (Forall (λ v, 1 <= v) (recorded s ++ [max64 1 (Z.quot (latency r) Microsecond)])) as Hr.
  { apply Forall_app. split; [done|]. constructor; [|done]. unfold max64. case_if; [lia|]. rewrite Z.gtb_ltb in Hif. bool_to_prop. lia. }
  assert (Z.of_nat (length (recorded s ++ [max64 1 (Z.quot (latency r) Microsecond)])) = Completed s + 1) as Hl
    by (rewrite length_app; simpl; lia).
  destruct (err r); [|destruct ((200 <=? status r) && (status r <? 300))];
    split; cbn [Successful Errors Completed StatusCounts recorded]; rewrite ?sum_counts_increment; done || lia.
Qed.

Lemma collect_result_fields r s :
  Completed (collect_result r s) = Completed s + 1 ∧ Scheduled (collect_result r s) = Scheduled s.
Proof. unfold collect_result. by repeat case_match; simplify_eq. Qed.

(** A worker that is not exited has not been counted as such. *)
Lemma insert_exited (ws : list worker) (k : nat) w w' :
  ws !! k = Some w → w' ≠ Exited → Exited ∈ <[k := w']> ws → Exited ∈ ws.
Proof.
  intros Hk Hne He. apply list_elem_of_lookup in He as [j Hj]. destruct (decide (j = k)) as [->|Hjk].
  - rewrite list_lookup_insert_eq in Hj by (by eapply lookup_lt_Some). congruence.
  - rewrite list_lookup_insert_ne in Hj by done. by eapply list_elem_of_lookup_2.
Qed.

Lemma not_all_exited (ws : list worker) (k : nat) w : ws !! k = Some w → w ≠ Exited → ¬ Forall (λ w, w = Exited) ws.
Proof. intros Hk Hne Hall. by apply Hne, (Forall_lookup_1 _ _ _ _ Hall Hk). Qed.

(** *** Steps of the producer *)

Lemma inv_producer calm s p' :
  inv calm s → handed p' (length (taken s)) → (∀ i, prod s ≠ Counting i) → (∀ i, p' ≠ Counting i) →
  prod s ≠ JobsClosed →
  match p' with Sending i => (i < length (offsets s))%nat ∧ no_more s i = false | _ => True end →
  (calm = true → p' = JobsClosed → no_more s (length (taken s)) = true) →
  inv calm (with_prod s p').
Proof.
  intros Hs Hh Hc Hc' Hj Hr He. destruct Hs. split; cbn [with_prod cfg offsets prod workers results results_closed summary sent finished panicked taken]; try done.
  - split; [apply inv_range0|]. destruct p' as [|i|i|]; try done; [apply Hr|by destruct (Hc' i)].
  - rewrite inv_sent0. destruct (prod s), p'; try lia; exfalso; first [exact (Hc _ eq_refl)|exact (Hc' _ eq_refl)].
  - intros Hx. by apply inv_exited0 in Hx.
  - intros i [Hi|Hi]; [apply inv_planned0; auto|subst p'; apply Hr].
Qed.

Lemma inv_hand calm s k i offset :
  inv calm s → prod s = Sending i → offsets s !! i = Some offset → workers s !! k = Some Receiving →
  inv calm (mkRun (cfg s) (offsets s) (started s) (Counting i)
              (<[k := Performing (mkJob (Z.of_nat i) (started s + offset))]> (workers s))
              (results s) (results_closed s) (summary s) (sent s) (finished s) (panicked s) (taken s ++ [Z.of_nat i])).
Proof.
  intros Hs Hp Ho Hk. pose proof (lookup_lt_Some _ _ _ Ho) as Hi. destruct Hs. rewrite Hp in *. simpl in *.
  pose proof (filter_insert_length _ _ _ (Performing (mkJob (Z.of_nat i) (started s + offset))) Hk) as Hf. simpl in Hf.
  split; cbn [cfg offsets prod workers results results_closed summary sent finished panicked taken]; try done.
  - by rewrite length_insert.
  - rewrite length_app, Nat2Z.inj_add. simpl. rewrite seqZ_app by lia. rewrite <- inv_taken0. f_equal.
    rewrite seqZ_cons by lia. subst i. simpl. rewrite Z.add_0_l. done.
  - rewrite length_app. simpl. lia.
  - rewrite length_app. simpl. split; [lia|done].
  - rewrite length_app. simpl. lia.
  - rewrite length_app. simpl. lia.
  - intros He. apply (insert_exited _ _ _ _ Hk) in He; [|done]. by apply inv_exited0 in He.
  - intros Hc. exfalso. by eapply (not_all_exited _ _ _ Hk), inv_closed0.
  - intros i' [Hi'|[=]]. rewrite length_app in Hi'. simpl in Hi'. apply inv_planned0.
    destruct (decide (i' = i)) as [->|]; [by right|left; lia].
  - intros k' j Hj. destruct (decide (k' = k)) as [->|Hne].
    + rewrite list_lookup_insert_eq in Hj by (by eapply lookup_lt_Some). simplify_eq. simpl. lia.
    + rewrite list_lookup_insert_ne in Hj by done. by eapply inv_jobs0.
Qed.

Lemma inv_count calm s i :
  inv calm s → prod s = Counting i →
  inv calm (mkRun (cfg s) (offsets s) (started s) (Waiting (S i)) (workers s) (results s) (results_closed s)
              (summary s) (sent s + 1) (finished s) (panicked s) (taken s)).
Proof.
  intros Hs Hp. destruct Hs. rewrite Hp in *. simpl in *.
  split; cbn [cfg offsets prod workers results results_closed summary sent finished panicked taken]; try done.
  - split; [lia|done].
  - lia.
  - intros He. by apply inv_exited0 in He.
  - intros Hf. destruct (inv_finished0 Hf) as (Hc & _ & _). exfalso.
    apply inv_closed0 in Hc. destruct (workers s) as [|w ws] eqn:Hw; [simpl in *; lia|].
    apply Forall_inv in Hc. subst w. by discriminate (inv_exited0 (list_elem_of_here _ _)).
  - intros i' [Hi'|[=]]. apply inv_planned0. by left.
Qed.

(** *** Steps of a worker *)

Lemma inv_worker calm s k w w' rs :
  inv calm s → workers s !! k = Some w → w ≠ Exited → (w' = Exited → prod s = JobsClosed) →
  (∀ j, w' ≠ Performing j) →
  Z.of_nat (length rs) <= Concurrency (cfg s) →
  (length rs + (if busy w' then 1 else 0) = length (results s) + (if busy w then 1 else 0))%nat →
  inv calm (mkRun (cfg s) (offsets s) (started s) (prod s) (<[k := w']> (workers s)) rs (results_closed s)
              (summary s) (sent s) (finished s) (panicked s) (taken s)).
Proof.
  intros Hs Hk Hw He Hj Hb Hn. destruct Hs. pose proof (filter_insert_length _ _ _ w' Hk) as Hf.
  split; cbn [cfg offsets prod workers results results_closed summary sent finished panicked taken]; try done.
  - by rewrite length_insert.
  - destruct (busy w), (busy w'); lia.
  - intros Hx. destruct w'; [..|by apply He];
      (apply inv_exited0; eapply insert_exited; [exact Hk| |exact Hx]; discriminate).
  - intros Hc. exfalso. by eapply (not_all_exited _ _ _ Hk), inv_closed0.
  - intros Hf'. destruct (inv_finished0 Hf') as (Hc & _ & _). exfalso. by eapply (not_all_exited _ _ _ Hk), inv_closed0.
  - intros k' j Hj'. destruct (decide (k' = k)) as [->|Hne].
    + rewrite list_lookup_insert_eq in Hj' by (by eapply lookup_lt_Some). simplify_eq. by destruct (Hj j).
    + rewrite list_lookup_insert_ne in Hj' by done. by eapply inv_jobs0.
Qed.

(** The panic of a worker leaves everything else as it is. *)
Lemma inv_panic calm s : inv calm s → inv calm (panic s).
Proof. intros []. by split. Qed.

(** *** Steps of the collector *)

Lemma inv_collect calm s r rest :
  inv calm s → results s = r :: rest →
  inv calm (mkRun (cfg s) (offsets s) (started s) (prod s) (workers s) rest (results_closed s)
              (collect_result r (summary s)) (sent s) (finished s) (panicked s) (taken s)).
Proof.
  intros Hs Hr. destruct Hs. rewrite Hr in *. simpl in *. pose proof (collect_result_fields r (summary s)) as [Hc _].
  split; cbn [cfg offsets prod workers results results_closed summary sent finished panicked taken]; try done.
  - rewrite Hc. lia.
  - lia.
  - intros Hf. by destruct (inv_finished0 Hf) as (_ & ? & _).
  - by apply collect_tally.
Qed.

Lemma inv_close calm s :
  inv calm s → Forall (λ w, w = Exited) (workers s) → finished s = false →
  inv calm (mkRun (cfg s) (offsets s) (started s) (prod s) (workers s) (results s) true (summary s) (sent s)
              (finished s) (panicked s) (taken s)).
Proof.
  intros Hs Hall Hf. destruct Hs.
  split; cbn [cfg offsets prod workers results results_closed summary sent finished panicked taken]; try done.
  by rewrite Hf.
Qed.

Lemma inv_finish calm s (sm := summary s) :
  inv calm s → results s = [] → results_closed s = true →
  inv calm (mkRun (cfg s) (offsets s) (started s) (prod s) (workers s) [] true
              (mkSummary (sent s) (Completed sm) (Successful sm) (Errors sm) (StatusCounts sm) (recorded sm))
              (sent s) true (panicked s) (taken s)).
Proof.
  intros Hs Hr Hc. destruct Hs. rewrite Hr in *.
  split; cbn [cfg offsets prod workers results results_closed summary sent finished panicked taken]; try done.
  - auto.
  - by destruct inv_tally0.
Qed.

Lemma all_exited ws :
  forallb (λ w, match w with Exited => true | _ => false end) ws = true → Forall (λ w, w = Exited) ws.
Proof.
  induction ws as [|w ws IH]; simpl; [done|]. intros H. bool_to_prop. constructor; [by destruct w|auto].
Qed.

Section steps.
Context (Marshal : payload → result string) (NewRequest : string → option error).
#[local] Abbreviation step := (LoadRun.step Marshal NewRequest).
#[local] Abbreviation steps := (LoadRun.steps Marshal NewRequest).
#[local] Abbreviation goroutine_step := (LoadRun.goroutine_step Marshal NewRequest).

Definition cancels (l : label) : bool := match l with LCancel => true | _ => false end.

Lemma step_inv_l l s s' : step l s = Some s' → panicked s = false ∧ goroutine_step l s = Some s'.
Proof. unfold LoadRun.step. by destruct (panicked s). Qed.

Lemma inv_step l calm s s' : inv calm s → step l s = Some s' → inv (calm && negb (cancels l)) s'.
Proof.
  intros Hs [_ Hst]%step_inv_l.
  assert (calm && negb (cancels l) = (if cancels l then false else calm)) as -> by (by destruct calm, (cancels l)).
  destruct l as [| | |k| |k response now|k|k| | |]; cbn [cancels]; cbn [LoadRun.goroutine_step] in Hst.
  - destruct (prod s) as [i| | |] eqn:Hp; try done. destruct (no_more s i) eqn:Hn; [|done]. injection Hst as <-.
    pose proof (inv_handed _ _ Hs) as Hh. rewrite Hp in Hh. simpl in Hh. subst i.
    apply inv_producer; try done; rewrite Hp; done.
  - destruct (prod s) as [i| | |] eqn:Hp; try done. destruct (no_more s i) eqn:Hn; [done|]. injection Hst as <-.
    pose proof (inv_handed _ _ Hs) as Hh. rewrite Hp in Hh. simpl in Hh. subst i.
    apply inv_producer; try done; rewrite ?Hp; try done. split; [|done]. unfold no_more in Hn.
    destruct (offsets s !! length (taken s)) eqn:Ho; [by eapply lookup_lt_Some|done].
  - destruct (prod s) as [i| | |] eqn:Hp; try done. destruct (no_more s i) eqn:Hn; [done|]. injection Hst as <-.
    apply inv_producer; try done; rewrite ?Hp; try done. by destruct Hs; split.
  - destruct (prod s) as [|i| |] eqn:Hp; try done. destruct (offsets s !! i) as [o|] eqn:Ho; [|done]. simpl in Hst.
    destruct (workers s !! k) as [[]|] eqn:Hk; try done. injection Hst as <-. by apply inv_hand.
  - destruct (prod s) as [| |i|] eqn:Hp; try done. injection Hst as <-. by apply inv_count.
  - destruct (workers s !! k) as [[]|] eqn:Hk; try done. injection Hst as <-.
    destruct (perform _ _ _ _ _ _) as [r|]; [|by apply inv_panic].
    by eapply (inv_worker _ _ _ _ _ (results s)); [..|apply Hs|].
  - destruct (workers s !! k) as [[| |r|]|] eqn:Hk; try done. case_if; [|done]. bool_to_prop. injection Hst as <-.
    eapply inv_worker; try done; rewrite length_app; simpl; lia.
  - destruct (prod s) eqn:Hp; try done. destruct (workers s !! k) as [[]|] eqn:Hk; try done. injection Hst as <-.
    unfold with_workers. by eapply (inv_worker _ _ _ _ _ (results s)); [..|apply Hs|].
  - case_if; [|done]. bool_to_prop. injection Hst as <-. apply inv_close; [done|by apply all_exited|].
    destruct (finished s) eqn:Hf; [|done]. destruct (inv_finished _ _ Hs Hf) as [? _]. congruence.
  - destruct (results s) as [|r rest] eqn:Hr; [done|]. injection Hst as <-. by apply inv_collect.
  - destruct (results s) as [|r rest] eqn:Hr; [|done]. case_if; [|done]. bool_to_prop. injection Hst as <-.
    by apply inv_finish.
Qed.

(** ** Termination *)

(** The steps the producer still causes: six for a job that has not been
    planned yet (timer, hand-over, count, request, report, collection). *)
Definition producer_effort (n : nat) (p : producer) : nat :=
  match p with
  | Waiting i => 6 * (n - i) + 1
  | Sending i => 6 * (n - i)
  | Counting i => 6 * (n - S i) + 2
  | JobsClosed => 0
  end.

Definition left_over (s : run) : nat :=
  if panicked s then 0 else
  producer_effort (length (offsets s)) (prod s) + efforts (workers s) + length (results s)
  + (if results_closed s then 0 else 1) + (if finished s then 0 else 1).

Lemma step_decreases l calm s s' : inv calm s → step l s = Some s' → (left_over s' < left_over s)%nat.
Proof.
  intros Hs [Hpan Hst]%step_inv_l. pose proof (inv_range _ _ Hs) as [Hr1 Hr2]. pose proof (inv_handed _ _ Hs) as Hh.
  unfold left_over. rewrite Hpan. destruct l as [| | |k| |k response now|k|k| | |]; cbn [LoadRun.goroutine_step] in Hst.
  - destruct (prod s) as [i| | |]; try done. destruct (no_more s i); simplify_eq. simpl. rewrite Hpan. lia.
  - destruct (prod s) as [i| | |]; try done. destruct (no_more s i) eqn:Hn; simplify_eq. simpl. rewrite Hpan.
    unfold no_more in Hn. destruct (offsets s !! i) eqn:Ho; [|done]. apply lookup_lt_Some in Ho. lia.
  - destruct (prod s) as [i| | |]; try done. destruct (no_more s i); simplify_eq. simpl. rewrite Hpan. lia.
  - destruct (prod s) as [|i| |]; try done. destruct (offsets s !! i); [|done]. simpl in Hst.
    destruct (workers s !! k) as [[]|] eqn:Hk; try done. injection Hst as <-. simpl. rewrite Hpan.
    pose proof (efforts_insert _ _ _ (Performing (mkJob (Z.of_nat i) (started s + z))) Hk) as He. simpl in He, Hr2. lia.
  - destruct (prod s) as [| |i|]; try done. injection Hst as <-. simpl in *. rewrite Hpan. lia.
  - destruct (workers s !! k) as [[]|] eqn:Hk; try done. injection Hst as <-.
    destruct (perform _ _ _ _ _ _) as [r|].
    + pose proof (efforts_insert _ _ _ (Reporting r) Hk) as He. simpl in He |- *. rewrite Hpan. lia.
    + pose proof (efforts_insert _ _ _ Exited Hk) as He. simpl in He |- *. lia.
  - destruct (workers s !! k) as [[| |r|]|] eqn:Hk; try done. destruct (_ <? _); [|done]. injection Hst as <-. simpl. rewrite Hpan.
    pose proof (efforts_insert _ _ _ Receiving Hk) as He. rewrite length_app. simpl in He |- *. lia.
  - destruct (prod s) eqn:Hp; try done. destruct (workers s !! k) as [[]|] eqn:Hk; try done. injection Hst as <-. simpl. rewrite Hpan.
    pose proof (efforts_insert _ _ _ Exited Hk) as He. simpl in He |- *. rewrite Hp. simpl. lia.
  - destruct (forallb _ _ && _) eqn:E; [|done]. apply andb_true_iff in E as [_ E%negb_true_iff]. injection Hst as <-. simpl. rewrite Hpan.
    rewrite E. lia.
  - destruct (results s) as [|r rest]; [done|]. injection Hst as <-. simpl. rewrite Hpan. lia.
  - destruct (results s) as [|r rest]; [|done]. destruct (results_closed s && _) eqn:E; [|done].
    apply andb_true_iff in E as [Ec E%negb_true_iff]. injection Hst as <-. simpl. rewrite Hpan. rewrite E, Ec. lia.
Qed.

Lemma list_find_None_or_busy (ws : list worker) :
  (∃ k w, ws !! k = Some w ∧ busy w = true) ∨ Forall (λ w, busy w = false) ws.
Proof.
  induction ws as [|w ws [(k & w' & Hk & Hb)|Hall]]; [by right|left; by exists (S k), w'|].
  destruct (busy w) eqn:Hw; [left; by exists 0%nat, w|right; by constructor].
Qed.

Lemma list_find_receiving (ws : list worker) :
  Forall (λ w, busy w = false) ws →
  (∃ k, ws !! k = Some Receiving) ∨ forallb (λ w, match w with Exited => true | _ => false end) ws = true.
Proof.
  induction 1 as [|w ws Hw _ [[k Hk]|Hall]]; [by right|left; by exists (S k)|].
  destruct w; try done; [left; by exists 0%nat|right; simpl; done].
Qed.

(** A run that is not over can go on, whatever the requests return. *)
Lemma run_progress calm s (response : result Z) :
  inv calm s → panicked s = false → finished s = false → ∃ l s', cancels l = false ∧ step l s = Some s'.
Proof.
  intros Hs Hpan Hf. pose proof (inv_conc _ _ Hs) as [Hc Hl].
  unfold LoadRun.step. rewrite Hpan.
  destruct (results s) as [|x rest] eqn:Hr.
  2:{ exists LCollect. cbn [LoadRun.goroutine_step]. rewrite Hr. by eexists. }
  destruct (list_find_None_or_busy (workers s)) as [(k & [|j|x|] & Hk & Hb)|Hidle]; try done.
  { exists (LPerform k response 0). cbn [LoadRun.goroutine_step]. rewrite Hk. by eexists. }
  { exists (LReport k). cbn [LoadRun.goroutine_step]. rewrite Hk, Hr. simpl.
    rewrite (proj2 (Z.ltb_lt _ _)) by lia. by eexists. }
  destruct (prod s) as [i|i|i|] eqn:Hp.
  - destruct (no_more s i) eqn:Hn; [exists LEnd|exists LTimer]; cbn [LoadRun.goroutine_step]; rewrite Hp, Hn; by eexists.
  - destruct (workers s) as [|w ws] eqn:Hw; [simpl in *; lia|].
    assert (w = Receiving) as ->.
    { apply Forall_inv in Hidle. destruct w; try done.
      pose proof (inv_exited _ _ Hs) as He. rewrite Hw, Hp in He. by discriminate (He (list_elem_of_here _ _)). }
    pose proof (inv_range _ _ Hs) as [_ Hi]. rewrite Hp in Hi. destruct (lookup_lt_is_Some_2 _ _ Hi) as [o Ho].
    exists (LHand 0). cbn [LoadRun.goroutine_step]. rewrite Hp, Ho. simpl. rewrite Hw. simpl. by eexists.
  - exists LCount. cbn [LoadRun.goroutine_step]. rewrite Hp. by eexists.
  - destruct (list_find_receiving (workers s) Hidle) as [(k & Hk)|Hall].
    + exists (LExit k). cbn [LoadRun.goroutine_step]. rewrite Hp, Hk. by eexists.
    + destruct (results_closed s) eqn:Hcl.
      * exists LFinish. cbn [LoadRun.goroutine_step]. rewrite Hr, Hcl, Hf. by eexists.
      * exists LClose. cbn [LoadRun.goroutine_step]. rewrite Hcl, Hall. by eexists.
Qed.

(** ** Panics *)

(** The configurations for which every request has an entity: no weights, or
    weights whose sum does not wrap around. *)
Definition selectable (c : Config) : Prop := EntityWeights c = [] ∨ total_weight (EntityWeights c) < 2 ^ 63.

Lemma entityForIndex_total c i : Validate c = None → selectable c → 0 <= i → is_Some (entityForIndex c i).
Proof.
  intros Hv Hsel Hi. destruct (decide (EntityWeights c = [])) as [Hw|Hw].
  - unfold entityForIndex. rewrite Hw. simpl.
    assert (Entities c ≠ []) as Hne. { unfold Validate in Hv. do 3 (case_if; [done|]). case_if; [done|]. by bool_to_prop. }
    rewrite bool_decide_eq_false_2 by done. apply lookup_lt_is_Some_2.
    assert (0 < length (Entities c))%nat by (destruct (Entities c); [done|simpl; lia]).
    rewrite Z.rem_mod_nonneg by lia. pose proof (Z.mod_pos_bound i (Z.of_nat (length (Entities c)))). lia.
  - pose proof (validated_weights c Hv Hw) as Hwt. destruct Hsel as [?|HT]; [done|].
    rewrite entityForIndex_expanded by done. destruct Hwt as [_ Hl Hpos]. apply lookup_lt_is_Some_2.
    pose proof (expanded_length _ _ Hl Hpos) as Hlen.
    assert (0 < total_weight (EntityWeights c)).
    { destruct Hpos as [|w ws Hw1 Hpos]; [done|]. simpl. pose proof (total_weight_nonneg ws Hpos). lia. }
    pose proof (Z.mod_pos_bound i (total_weight (EntityWeights c))). lia.
Qed.

Lemma perform_total c j Do now :
  Validate c = None → selectable c → 0 <= index j → is_Some (perform Marshal NewRequest Do now c j).
Proof.
  intros Hv Hsel Hj. destruct (entityForIndex_total c (index j) Hv Hsel Hj) as [e He].
  unfold perform, requestPayload. rewrite He. cbn [mbind option_bind]. destruct (bool_decide (PayloadMode c = _)); [|by eexists].
  assert (is_Some (["grocery"; "fuel"; "travel"; "retail"] !! Z.to_nat (Z.rem (index j) 4))) as [cat ->]; [|by eexists].
  apply lookup_lt_is_Some_2. simpl. rewrite Z.rem_mod_nonneg by lia. pose proof (Z.mod_pos_bound (index j) 4). lia.
Qed.

Lemma step_cfg l s s' : step l s = Some s' → offsets s' = offsets s ∧ cfg s' = cfg s.
Proof.
  intros [_ H1]%step_inv_l. destruct l; cbn [LoadRun.goroutine_step] in H1; destruct (prod s); try discriminate;
    try (destruct (offsets s !! i); [|discriminate]; cbn [mbind option_bind] in H1);
    repeat case_match; by simplify_eq.
Qed.

(** Only a request can panic, and not one that has an entity. *)
Lemma step_panic l calm s s' :
  inv calm s → Validate (cfg s) = None → selectable (cfg s) → step l s = Some s' → panicked s' = false.
Proof.
  intros Hs Hv Hsel [Hpan Hst]%step_inv_l. destruct l; cbn [LoadRun.goroutine_step] in Hst; destruct (prod s);
    try discriminate; try (destruct (offsets s !! i); [|discriminate]; cbn [mbind option_bind] in Hst);
    repeat case_match; simplify_eq; try done;
    match goal with
    | Hk : workers s !! _ = Some (Performing ?j), Hp : perform _ _ ?Do ?now _ _ = None |- _ =>
        pose proof (perform_total (cfg s) j Do now Hv Hsel (inv_jobs _ _ Hs _ _ Hk)) as Hsome;
        rewrite Hp in Hsome; by destruct Hsome
    end.
Qed.

(** ** Executions *)

Lemma steps_inv ls calm s s' :
  inv calm s → steps ls s = Some s' →
  inv (calm && negb (existsb cancels ls)) s' ∧ (length ls + left_over s' <= left_over s)%nat ∧
  offsets s' = offsets s ∧ cfg s' = cfg s.
Proof.
  revert calm s. induction ls as [|l ls IH]; intros calm s Hs Hst; simpl in *.
  { simplify_eq. rewrite andb_true_r. split_and!; done || lia. }
  destruct (step l s) as [s1|] eqn:H1; [|done]. simpl in Hst. pose proof (inv_step _ _ _ _ Hs H1) as Hs1.
  pose proof (step_decreases _ _ _ _ Hs H1). destruct (IH _ _ Hs1 Hst) as (Hi & Hl & Ho & Hc).
  destruct (step_cfg _ _ _ H1) as [Ho1 Hc1].
  rewrite negb_orb, andb_assoc. split_and!; [done|lia|congruence..].
Qed.

Lemma steps_panic ls calm s s' :
  inv calm s → Validate (cfg s) = None → selectable (cfg s) → panicked s = false → steps ls s = Some s' →
  panicked s' = false.
Proof.
  revert calm s. induction ls as [|l ls IH]; intros calm s Hs Hv Hsel Hp Hst; simpl in *; [by simplify_eq|].
  destruct (step l s) as [s1|] eqn:H1; [|done]. simpl in Hst. destruct (step_cfg _ _ _ H1) as [_ Hc1].
  pose proof (step_panic _ _ _ _ Hs Hv Hsel H1) as Hp1. rewrite <- Hc1 in Hv, Hsel.
  by eapply (IH _ s1 (inv_step _ _ _ _ Hs H1)).
Qed.

Lemma steps_app ls ls' s : steps (ls ++ ls') s = s' ← steps ls s; steps ls' s'.
Proof. revert s. induction ls as [|l ls IH]; intros s; [done|]. simpl. destruct (step l s); simpl; [apply IH|done]. Qed.

Lemma start_inv Log oor c now s :
  start Log oor c now = Ok s →
  inv true s ∧ (left_over s = 6 * length (offsets s) + Z.to_nat (Concurrency c) + 3)%nat ∧ cfg s = c ∧
  Validate c = None ∧ panicked s = false.
Proof.
  unfold start. destruct (Validate c) eqn:Hv; [done|].
  assert (1 <= Concurrency c) as Hc.
  { unfold Validate in Hv. do 3 (case_if; [done|]). bool_to_prop. lia. }
  destruct (ArrivalSchedule _ _ _ _ _) as [offs|]; [|done]. simpl. intros [= <-].
  assert (∀ n, in_flight (replicate n Receiving) = 0%nat ∧ efforts (replicate n Receiving) = n) as Hw.
  { induction n as [|n [IH1 IH2]]; simpl; [done|]. split; [done|lia]. }
  destruct (Hw (Z.to_nat (Concurrency c))) as [Hw1 Hw2]. split_and!; [|unfold left_over; simpl; rewrite Hw2; lia|done..].
  split; cbn [cfg offsets prod workers results results_closed summary sent finished panicked taken]; try done; try (simpl; lia).
  - split; [done|]. rewrite length_replicate. lia.
  - intros He. apply list_elem_of_lookup in He as [k Hk]. by apply lookup_replicate in Hk as [? _].
  - intros i [Hi|[=]]. simpl in Hi. lia.
  - intros k j Hk. by apply lookup_replicate in Hk as [? _].
Qed.

Lemma run_completes calm s :
  inv calm s → Validate (cfg s) = None → selectable (cfg s) → panicked s = false →
  ∃ ls s', existsb cancels ls = false ∧ steps ls s = Some s' ∧ finished s' = true.
Proof.
  remember (left_over s) as n eqn:Hn. revert calm s Hn. induction n as [n IH] using lt_wf_ind.
  intros calm s -> Hs Hv Hsel Hp. destruct (finished s) eqn:Hf; [exists [], s; done|].
  destruct (run_progress calm s (Ok 200) Hs Hp Hf) as (l & s1 & Hl & Hst).
  destruct (step_cfg _ _ _ Hst) as [_ Hc1]. pose proof (step_panic _ _ _ _ Hs Hv Hsel Hst) as Hp1.
  rewrite <- Hc1 in Hv, Hsel.
  destruct (IH _ (step_decreases _ _ _ _ Hs Hst) _ s1 eq_refl (inv_step _ _ _ _ Hs Hst) Hv Hsel Hp1)
    as (ls & s' & Hc & Hls & Hfin).
  exists (l :: ls), s'. simpl. rewrite Hl, Hst. done.
Qed.

(** ** The claims *)

(** The number of requests planned: the arrivals before the first one beyond
    a positive duration. *)
Fixpoint planned (duration : Z) (offs : list Z) : nat :=
  match offs with
  | [] => 0
  | offset :: offs => if (0 <? duration) && (duration <? offset) then 0 else S (planned duration offs)
  end.

Lemma planned_unique d offs n :
  (∀ i, (i < n)%nat → ∃ o, offs !! i = Some o ∧ (0 <? d) && (d <? o) = false) →
  match offs !! n with None => True | Some o => (0 <? d) && (d <? o) = true end →
  (n <= length offs)%nat → planned d offs = n.
Proof.
  revert n. induction offs as [|o offs IH]; intros n Hlt Hn Hlen; simpl in *; [lia|].
  destruct n as [|n]; simpl in Hn; [by rewrite Hn|].
  destruct (Hlt 0%nat) as (o' & [= <-] & ->); [lia|]. f_equal. apply IH; [|done|lia].
  intros i Hi. apply (Hlt (S i)). lia.
Qed.

(** At the end of a run that was not cancelled, exactly what was planned has
    been handed out. *)
Lemma finished_planned s :
  inv true s → finished s = true → length (taken s) = planned (cfg_Duration (cfg s)) (offsets s).
Proof.
  intros Hs Hf. destruct (inv_finished _ _ Hs Hf) as (Hcl & _ & _). apply (inv_closed _ _ Hs) in Hcl.
  assert (prod s = JobsClosed) as Hp.
  { apply (inv_exited _ _ Hs). pose proof (inv_conc _ _ Hs) as [? Hl].
    destruct Hcl as [|w ws Hw _]; [simpl in Hl; lia|subst w; by left]. }
  pose proof (inv_end _ _ Hs eq_refl Hp) as He. symmetry. apply planned_unique.
  - intros i Hi. pose proof (inv_planned _ _ Hs i (or_introl Hi)) as Hn. unfold no_more in Hn.
    destruct (offsets s !! i) as [o|]; [eauto|done].
  - unfold no_more in He. by destruct (offsets s !! length (taken s)).
  - apply Hs.
Qed.

Lemma finished_drained calm s :
  inv calm s → finished s = true →
  Scheduled (summary s) = Completed (summary s) ∧ Completed (summary s) = Z.of_nat (length (taken s)).
Proof.
  intros [] Hf. destruct (inv_finished0 Hf) as (Hcl & Hr & Hsch). apply inv_closed0 in Hcl. rewrite Hr in *. simpl in *.
  assert (in_flight (workers s) = 0%nat) as Hz.
  { clear -Hcl. induction Hcl as [|w ws Hw _ IH]; [done|]. by subst. }
  assert (prod s = JobsClosed) as Hp.
  { apply inv_exited0. destruct Hcl as [|w ws Hw _]; [simpl in *; lia|]. subst w. by left. }
  rewrite Hp in *. lia.
Qed.

(** C28: a run accounts for every request.  In every interleaving at most
    [Concurrency] requests are in flight, the jobs are handed out once each in
    the order of their arrivals, and every completed request is counted once:
    as a success or an error, under one status, and as one positive latency in
    the histogram.  When [Run] returns, what it reports as scheduled is what
    completed, and unless the context was cancelled that is every planned
    arrival: all of them, or with a positive duration those before the first
    one beyond it. *)
Theorem run_accounting Log oor c now s0 ls s :
  start Log oor c now = Ok s0 → steps ls s0 = Some s →
  Z.of_nat (in_flight (workers s)) <= Concurrency c ∧
  taken s = seqZ 0 (Z.of_nat (length (taken s))) ∧
  Successful (summary s) + Errors (summary s) = Completed (summary s) ∧
  sum_counts (StatusCounts (summary s)) = Completed (summary s) ∧
  Z.of_nat (length (recorded (summary s))) = Completed (summary s) ∧
  Forall (λ v, 1 <= v) (recorded (summary s)) ∧
  (finished s = true →
   Scheduled (summary s) = Completed (summary s) ∧ Completed (summary s) = Z.of_nat (length (taken s)) ∧
   (existsb cancels ls = false → Completed (summary s) = Z.of_nat (planned (cfg_Duration c) (offsets s0)))).
Proof.
  intros H0 Hls. destruct (start_inv _ _ _ _ _ H0) as (Hi0 & _ & Hcfg & _).
  destruct (steps_inv _ _ _ _ Hi0 Hls) as (Hi & _ & Ho & Hc). rewrite Hcfg in Hc.
  pose proof (finished_drained _ _ Hi) as Hd. pose proof (in_flight_le (workers s)).
  pose proof (inv_conc _ _ Hi) as [_ Hl]. rewrite Hc in Hl. destruct (inv_tally _ _ Hi).
  split_and!; try done; [lia|apply Hi|]. intros Hf. destruct (Hd Hf) as [H1 H2]. split_and!; [done..|]. intros Hcan.
  rewrite Hcan in Hi. rewrite H2, <- Hc, <- Ho. f_equal. by apply finished_planned.
Qed.

(** C29: a run terminates.  Every execution of a run with [n] planned
    arrivals and [c] workers takes at most [6n + c + 3] steps, in any
    interleaving, and it stops only when [Run] has returned or a worker has
    panicked: as long as neither has happened some goroutine can step, so no
    goroutine waits for ever.  Without weights, or with weights whose sum does
    not wrap around, no worker panics and every state can be continued to the
    end of the run without cancelling it; when the sum wraps around to zero,
    which validation accepts, the first request that is performed panics. *)
Theorem run_terminates Log oor c now s0 ls s :
  start Log oor c now = Ok s0 → steps ls s0 = Some s →
  (length ls <= 6 * length (offsets s0) + Z.to_nat (Concurrency c) + 3)%nat ∧
  (finished s = false → panicked s = false → ∃ l s', cancels l = false ∧ step l s = Some s') ∧
  (selectable c →
   panicked s = false ∧
   ∃ ls' s', existsb cancels ls' = false ∧ steps (ls ++ ls') s0 = Some s' ∧ finished s' = true) ∧
  (EntityWeights c ≠ [] → foldl (λ total weight, wrap_int64 (total + weight)) 0 (EntityWeights c) = 0 →
   ∀ k response at_ s', step (LPerform k response at_) s = Some s' → panicked s' = true).
Proof.
  intros H0 Hls. destruct (start_inv _ _ _ _ _ H0) as (Hi0 & Hlo & Hcfg & Hv & Hp0).
  destruct (steps_inv _ _ _ _ Hi0 Hls) as (Hi & Hle & _ & Hc). rewrite Hcfg in Hc. split_and!; [lia| | |].
  - intros Hf Hp. by eapply (run_progress _ _ (Ok 200) Hi).
  - intros Hsel. assert (panicked s = false) as Hp by (eapply (steps_panic _ _ _ _ Hi0); rewrite ?Hcfg; done).
    split; [done|]. destruct (run_completes _ _ Hi) as (ls' & s' & Hcan & Hls' & Hf); rewrite ?Hc; try done.
    exists ls', s'. rewrite steps_app, Hls. done.
  - intros Hne Hz k response at_ s' [_ Hst]%step_inv_l. cbn [LoadRun.goroutine_step] in Hst.
    destruct (workers s !! k) as [[]|]; try done. injection Hst as <-.
    unfold perform, requestPayload, entityForIndex. rewrite Hc, (bool_decide_eq_false_2 (EntityWeights c = [])) by done. cbn zeta.
    by rewrite Hz.
Qed.
End steps.

(** Three requests over two workers, all answered within the duration. *)
Definition demo_load : Config :=
  mkConfig "http://gateway/v1/score" "" Second 3 2 (float_of_Z 100 0) Second 7 ["card"] [] "entity" "out".
Definition demo_log (x : float64) : float64 := fneg fone.
Definition demo_start : result run := start demo_log (λ _, 0) demo_load 0.
Definition demo_marshal (p : payload) : result string := Ok "{}".
Definition demo_request (url : string) : option error := None.
#[local] Abbreviation demo_steps := (steps demo_marshal demo_request).
Definition demo_labels : list label :=
  [LTimer; LHand 0; LCount; LTimer; LHand 1; LPerform 1 (Ok 200) Second; LCount; LReport 1; LTimer; LHand 1; LCount;
   LEnd; LPerform 0 (Ok 503) Second; LPerform 1 (Ok 200) Second; LReport 0; LCollect; LReport 1; LExit 1; LExit 0;
   LCollect; LClose; LCollect; LFinish].

Lemma run_accounting_witness :
  match demo_start with
  | Ok s0 => match demo_steps demo_labels s0 with
             | Some s => Scheduled (summary s) = 3 ∧ Successful (summary s) = 2 ∧ Errors (summary s) = 1
             | None => False
             end
  | Err _ => False
  end.
Proof.
  destruct demo_start as [s0|] eqn:E0; [|vm_compute in E0; discriminate].
  destruct (demo_steps demo_labels s0) as [s|] eqn:E.
  - destruct (run_accounting _ _ _ _ _ _ _ _ _ E0 E) as (_ & _ & Hsum & _ & _ & _ & Hfin).
    assert (finished s = true ∧ Successful (summary s) = 2 ∧ planned (cfg_Duration demo_load) (offsets s0) = 3%nat)
      as (Hf & Hs & Hp).
    { vm_compute in E0. injection E0 as <-. vm_compute in E. injection E as <-. done. }
    destruct (Hfin Hf) as (Hsch & _ & Hall). specialize (Hall eq_refl). rewrite Hp in Hall. lia.
  - vm_compute in E0. injection E0 as <-. vm_compute in E. discriminate.
Defined.

Lemma run_terminates_witness :
  match demo_start with
  | Ok s0 => ∃ ls' s', demo_steps (take 8 demo_labels ++ ls') s0 = Some s' ∧ finished s' = true
  | Err _ => False
  end.
Proof.
  destruct demo_start as [s0|] eqn:E0; [|vm_compute in E0; discriminate].
  destruct (demo_steps (take 8 demo_labels) s0) as [s|] eqn:E.
  - destruct (run_terminates _ _ _ _ _ _ _ _ _ E0 E) as (_ & _ & Hsel & _).
    destruct Hsel as (_ & ls' & s' & _ & Hs & Hf); [by left|]. eauto.
  - vm_compute in E0. injection E0 as <-. vm_compute in E. discriminate.
Defined.
